(* ===== verification/_CoqProject ===== *)
-Q . S2P
Prelude.v
RustStr.v
CoreTypes.v
FixedPoint.v
Rng.v
SchemaTables.v
Relations.v
Registry.v
Migrations.v
Journal.v
Systems.v
Scheduler.v
SchedulerFacts.v
Content.v
RuleCore.v
RuleCache.v
Float64.v
RngFloat.v
Rules.v
RuleSamples.v
RulesFacts.v
RulesTyping.v
RuleJumps.v
Arrow.v
ArrowVec.v
ArrowBatch.v
ArrowBatchFacts.v
StoreIndex.v
ArrowStore.v
StoreFacts.v
StoreRows.v
StoreRuns.v
StoreOrders.v
WorldView.v
ReadViews.v
ErrorText.v
QueryEngine.v
Inspector.v
DebugTools.v
StoreJournal.v
RuleReads.v
StoreSamples.v
ReadSamples.v
WorldLog.v
WorldTicks.v
WorldLogSamples.v
Lockstep.v
LockstepSamples.v
SqlParser.v
SqlGrammar.v
SqlFacts.v
Disk.v
SaveErrors.v
SaveSnapshots.v
SaveFacts.v
SaveRetention.v
Checkpoints.v
CheckpointFacts.v
SaveSamples.v
StoreCheckpoints.v
StoreCheckpointFacts.v
StoreCheckpointSamples.v
Compilation.v
CompilationSamples.v
QuerySql.v
QuerySqlSamples.v
InspectorPanels.v
SaveMigrations.v
ModTolerance.v
LoadReconstruction.v
LoadFacts.v
LoadSamples.v
InputBuffer.v
BevyViews.v
BevyFacts.v
BevySamples.v
Harness.v
HarnessSamples.v
