(* ===== verification/Prelude.v ===== *)
(** * Scharnhorst: a verification library

    Scharnhorst is a deterministic simulation engine in Rust. Rules and systems read the world through
    a query engine and write it only as diffs; a journal commits the diffs of a tick all at once to
    tables of Arrow batches, publishes the result to the query engine, and logs it. Around this core
    are the schema registry, mod content, saving and loading, SQL for debugging, the bridge to the
    entities of the Bevy engine, and an inspector. This library models the crates under [src/] as
    executable definitions and proves what makes each correct, and what they guarantee together.

    ** The parts

    Prelude: results, generic lemmas on lists and options, machine widths, worklist weights, sorting
    by text. [RustStr]: the parts of [str] and of integer formatting and parsing the source uses.

    [scharnhorst_core]. [CoreTypes] (id.rs, error.rs, diff.rs, row_position.rs, capability.rs,
    state_tier.rs), [FixedPoint] and [Float64] (fixed_point.rs).

    [scharnhorst_schema]. [SchemaTables] (error.rs, field_semantic.rs, table_spec.rs), [Relations]
    (relation.rs), [Registry] (manifest.rs, registry.rs), [Migrations] (migration.rs).

    [scharnhorst_journal]. [Journal] (command.rs, commit.rs, error.rs, save_journal.rs, journal.rs):
    [journal_submit_*], [journal_commit] with every exit, [journal_restore]; the other components are
    the classes [StoreOps], [QueryOps] and [SaveOps], and [StoreLaws] and [QueryLaws] are what the
    theorems ask of them. [SqlParser], [SqlGrammar], [SqlFacts]: sql_parser.rs and the debug writer.

    [scharnhorst_scheduler]. [Rng] and [RngFloat] (rng.rs), [Systems] (phase.rs, system.rs,
    refresh_signal.rs, error.rs), [Scheduler] and [SchedulerFacts] (scheduler.rs): a tick consumes the
    queue, runs the systems phase by phase, commits, advances and broadcasts, or rolls back.

    [scharnhorst_content]. [Content] (error.rs, overlay.rs, name_resolution.rs, lifecycle.rs,
    fingerprint.rs), [Compilation] (compilation.rs), and the helpers of manifest.rs in [SaveMigrations].

    [scharnhorst_arrow_store]. [Arrow] is the interface to the Arrow and [serde_json] crates and
    [ArrowVec] an instance of it; [ArrowBatch] and [ArrowBatchFacts] (arrays and batches of store.rs),
    [StoreIndex] (index.rs, partition.rs), [ArrowStore] (versioned_table.rs, snapshot.rs, store.rs,
    store_guard.rs), [StoreFacts], [StoreRows], [StoreRuns], [WorldView] (world_view.rs),
    [StoreCheckpoints], [StoreCheckpointFacts] (checkpoints of store.rs, ipc_serialization.rs).

    [scharnhorst_query]. [ReadViews] (typed_access.rs, unified_read.rs), [ErrorText], [QueryEngine]
    (engine.rs), [QuerySql] (sql_interface.rs, SQL of engine.rs), [Inspector] (inspector.rs),
    [DebugTools] (debug_write.rs, rings and statement checks of engine.rs).

    [scharnhorst_rules]. [RuleCore] (error.rs, modifier.rs, scope.rs), [RuleCache] (cache.rs), [Rules]
    (expr.rs, effect.rs, evaluator.rs), [RulesFacts], [RulesTyping], [RuleJumps]; what the evaluator calls
    of the query engine is the class [RuleQuery], and [RuleReads] takes the engine for it.

    [scharnhorst_save]. [Disk] (the calls of [std::fs] with their faults), [SaveErrors],
    [SaveSnapshots], [SaveFacts], [SaveRetention] (snapshot_persistence.rs, snapshot_manager.rs),
    [Checkpoints], [CheckpointFacts] (checkpoint.rs), [SaveMigrations] (migration.rs), [ModTolerance]
    (mod_tolerance.rs), [LoadReconstruction], [LoadFacts] (load_reconstruction.rs).

    [scharnhorst_bevy]. [InputBuffer] (input_buffer.rs, error.rs), [BevyViews], [BevyFacts] (view_of.rs,
    tier.rs, materialization.rs, sync.rs, refresh_handler.rs). [scharnhorst_inspector].
    [InspectorPanels] (inspector.rs, app.rs and the panels, less their drawing).

    Together: [StoreJournal] makes the store and the engine instances of what the journal asks, with its
    laws; [WorldLog] follows the journal through any calls, and [WorldTicks] the scheduler through any
    ticks. [StoreOrders] takes the orders of hash maps out of the store, [Lockstep] out of ticks: two
    peers' schedulers step by step. [Harness] (harness.rs of scharnhorst_integration_tests) builds and
    runs a small world over all of it. Files named Samples hold the concrete inputs the theorems are applied to, and runs that show
    where the code does not do what one expects.

    ** What the theorems show

    - The world is what the systems said: over ticks that succeed the store represents the first world
      with the systems' diffs applied in order, the log holds them a record a tick
      ([WorldTicks.systems_make_the_world]), and replaying the log gives the world
      ([WorldLog.world_replays_log]). A row committed is read back through the engine
      ([StoreJournal.commit_then_read]), all of it under the limits below. The abstract world is a map of maps of rows ([StoreRows]); the
      versions, batches, validity bytes and positions of the store refine it.
    - All or nothing: a batch of diffs, a commit and a tick, on each exit, in the versions of the tables
      (not their row positions), but for the store failing to save its versions, whose exit is stated
      as it is; and the save of a snapshot file under any faults of the disk. A checkpoint that fails
      leaves the journal file; one that succeeds has its snapshot whole, or deleted again by retention.
    - Determinism: peers that differ only in the order their hash tables iterate in stay in step through
      any ticks, with equal stores and engines ([Lockstep.peers_stay_in_step]); nor do the effects of a
      rule and the answers of the cache depend on that order.
    - Ticks succeed: diffs the abstract world admits are committed ([StoreJournal.commit_admitted]), and
      the minimal world of the integration tests goes through any transfers and ticks
      ([Harness.seeded_world_persists]).
    - Invariants over any calls: the log mirrors the history, phases have disjoint writers and the ticks
      differ by the calls that move one alone, the relation graph is acyclic, entities mirror the
      registry but for those registered by hand, snapshots do not change, the schema is frozen.
    - Exact behaviour on every branch: cycle detection, migrations, registry load and export, content
      compilation, retention, fixed-point rounding, the SQL parser against a grammar, the rule evaluator
      against a type system, column reads, pages, iteration over rows, queries over published tables.
    - Round trips: fixed-point text, registry manifests, snapshot files, store checkpoints.

    ** How the code is modelled

    A [Result] is [result]; a panic is [None] of an [option] around it; a method that takes [&mut self]
    returns the state it leaves with its outcome, or just the new state in a [result] when it changes
    nothing on failure. Machine integers are [Z] with the wrap-around, saturation or check the source
    has, for a release build. The order a hash table or a directory yields its entries in is an
    argument, with at most the hypothesis that it is a permutation. A JSON value is the parameter [V].
    Third-party code is a class of operations, with its documented behaviour as a class of laws, and an
    instance for the examples: [ArrowOps], [ConcatOps] (arrow), [JsonOps], [JsonRead], [JsonInteger],
    [JsonEq], [HeaderCodec] (serde_json), [IpcOps] (arrow-ipc), [SqlOps] (DataFusion), [EcsOps] (Bevy),
    [FloatPlatform] ([powi]), [FloatText], [DebugText] (texts of floats), [Allocator]. Disk faults are a
    list in the state: each says how much of a call got through, and a crash is a fault after which
    nothing runs.

    Loops that are not structural have fuel that is proved enough: [cycle_fuel] and [dfs_fuel] (edges and
    tables of the relation graph), [bfs_fuel] (weight of the migrations), [pipeline_fuel] (steps), one
    more than the batches for the iterator over rows, the text's length for the SQL parser, the digits
    of the widest integer for printers, the six phases for the load coordinator.

    ** Limits the theorems state

    The theorems on the world need each table to have a home, one tick under which all of its rows are
    inserted (its rows may be updated and deleted at any tick), since positions have no tick
    ([StoreRows.later_insert_aliases]), and no commit to have failed before, since a failed batch leaves
    row ids behind ([StoreFacts.failed_insert_blocks_retry]). A commit publishes only what its tick wrote:
    a table whose home is an earlier tick is found but cannot be read
    ([StoreJournal.untouched_table_unreadable]). The cache is a least-recently-used list while no row
    cached already is inserted when it is full ([RuleCache.cache_insert_present_evicts]). A checkpoint of
    the store is restored when its directory was not there before
    ([StoreCheckpointSamples.stale_table_is_loaded]). Compilation compares the names of the tables with
    the manifest's, not their columns ([CompilationSamples.mismatched_manifest_compiles]), and the
    registry does not look at the columns of relations ([Registry.absent_from_column_loads]). Retention
    counts the snapshots it can list ([SaveSamples.unreadable_entry_is_kept]), and a checkpoint older
    than those kept leaves neither snapshot nor journal ([SaveSamples.old_checkpoint_keeps_nothing]). Of
    an SQL query the theorem says what it is run over, not what DataFusion computes.

    ** Not modelled

    Locks and their poisoning: calls are one at a time. Metrics, tracing and telemetry: no effect on the
    state. TOML and JSON texts of manifests: written and read by third-party crates. Texts of [Display]
    where no component keeps them. The drawing and events of the inspector and the places of the nodes
    of its graph. Accessors that only lend a field. Tests. *)

From stdpp Require Import base gmap strings list sets sorting fin_maps.
From Stdlib Require Import ZArith Lia.

Open Scope Z_scope.

(** ** Rust's [Result] *)

Inductive result (E A : Type) : Type :=
| Ok (a : A)
| Err (e : E).
Arguments Ok {E A} a.
Arguments Err {E A} e.

Declare Scope engine_scope.
Delimit Scope engine_scope with engine.
Open Scope engine_scope.

(** [let? x := m in k] is the source's [let x = m?; k]. *)
Notation "'let?' x := m 'in' k" :=
  (match m with Ok x => k | Err e => Err e end)
  (at level 200, x pattern, m at level 200, k at level 200) : engine_scope.

(** [o.ok_or(e)] *)
Definition ok_or {E A} (o : option A) (e : E) : result E A :=
  match o with Some a => Ok a | None => Err e end.

Definition is_ok {E A} (r : result E A) : bool :=
  match r with Ok _ => true | Err _ => false end.

(** [r.map_err(f)] *)
Definition map_err {E F A} (f : E -> F) (r : result E A) : result F A :=
  match r with Ok a => Ok a | Err e => Err (f e) end.

(** [r.map(f)] *)
Definition map_ok {E A B} (f : A -> B) (r : result E A) : result E B :=
  match r with Ok a => Ok (f a) | Err e => Err e end.

#[export] Instance result_eq_dec {E A} `{EqDecision E, EqDecision A} :
  EqDecision (result E A).
Proof. solve_decision. Defined.

(** [iter.map(f).collect::<Result<Vec<_>, _>>()]: the first error in order. *)
Fixpoint try_map {E A B} (f : A -> result E B) (l : list A) : result E (list B) :=
  match l with
  | [] => Ok []
  | x :: l' => let? y := f x in let? ys := try_map f l' in Ok (y :: ys)
  end.

(** [iter.try_fold(init, f)] *)
Fixpoint try_fold {E A B} (f : B -> A -> result E B) (acc : B) (l : list A) : result E B :=
  match l with
  | [] => Ok acc
  | x :: l' => let? acc' := f acc x in try_fold f acc' l'
  end.

(** [for x in l { f(&mut s, x)?; }]: the state the loop leaves, with its outcome. *)
Fixpoint try_each {E S A} (f : S -> A -> result E S) (s : S) (l : list A) : S * result E unit :=
  match l with
  | [] => (s, Ok tt)
  | x :: l' => match f s x with Ok s' => try_each f s' l' | Err e => (s, Err e) end
  end.

(** Case analysis on the [match]es the model is made of. *)
Ltac res_step :=
  match goal with
  | H : Ok _ = Ok _ |- _ => injection H as H; subst
  | H : Err _ = Err _ |- _ => injection H as H; subst
  | H : Ok _ = Err _ |- _ => discriminate H
  | H : Err _ = Ok _ |- _ => discriminate H
  | H : context [match ?x with Ok _ => _ | Err _ => _ end] |- _ =>
      let E := fresh "E" in destruct x eqn:E; simpl in H
  | |- context [match ?x with Ok _ => _ | Err _ => _ end] =>
      let E := fresh "E" in destruct x eqn:E; simpl
  end.
Ltac res_simpl := repeat (res_step; simplify_eq).

Create HintDb engine.

Lemma try_map_Ok {E A B} (f : A -> result E B) l l' :
  try_map f l = Ok l' <-> Forall2 (fun x y => f x = Ok y) l l'.
Proof.
  revert l'. induction l as [|x l IH]; intros l'; simpl.
  - split; [intros [= <-]; constructor | inversion 1; done].
  - split.
    + intros H. res_simpl. constructor; [done|]. by apply IH.
    + inversion 1 as [|? y ? ys Hy Hys]; subst. apply IH in Hys. by rewrite Hy, Hys.
Qed.

Lemma try_map_ext {E A B} (f g : A -> result E B) l :
  (forall x, x ∈ l -> f x = g x) -> try_map f l = try_map g l.
Proof.
  induction l as [|x l IH]; intros Hfg; simpl; [done|].
  rewrite (Hfg x) by set_solver. rewrite IH by set_solver. done.
Qed.

Lemma try_map_err {E A B} (f : A -> result E B) l e :
  try_map f l = Err e -> exists x, x ∈ l /\ f x = Err e.
Proof.
  induction l as [|x l IH]; simpl; [done|]. intros H. res_simpl.
  - destruct IH as (y & ? & ?); [done|]. exists y. set_solver.
  - exists x. set_solver.
Qed.

Lemma try_fold_app {E A B} (f : B -> A -> result E B) acc l1 l2 :
  try_fold f acc (l1 ++ l2) = let? acc' := try_fold f acc l1 in try_fold f acc' l2.
Proof.
  revert acc. induction l1 as [|x l1 IH]; intros acc; simpl; [done|].
  destruct (f acc x); [apply IH | done].
Qed.

Lemma try_each_inv {E S A} (P : S -> Prop) (f : S -> A -> result E S) s l :
  (forall s x s', P s -> x ∈ l -> f s x = Ok s' -> P s') -> P s -> P (try_each f s l).1.
Proof.
  revert s. induction l as [|x l IH]; intros s Hf Hs; simpl; [done|].
  destruct (f s x) as [s'|e] eqn:Hx; [|done].
  apply IH; [intros; eapply Hf; [done|by right|done]|]. eapply Hf; [done|left|done].
Qed.

(** Two outcomes agree: both fail, or both succeed with related values. *)
Definition res_rel {E A B} (R : A -> B -> Prop) (r1 : result E A) (r2 : result E B) : Prop :=
  match r1, r2 with Ok a, Ok b => R a b | Err _, Err _ => True | _, _ => False end.

Arguments res_rel {E A B} R !r1 !r2 /.

Lemma res_rel_bind {E A B C D} (R : A -> B -> Prop) (S : C -> D -> Prop)
    (r1 : result E A) (r2 : result E B) (k1 : A -> result E C) (k2 : B -> result E D) :
  res_rel R r1 r2 -> (forall a b, R a b -> res_rel S (k1 a) (k2 b)) ->
  res_rel S (let? a := r1 in k1 a) (let? b := r2 in k2 b).
Proof. destruct r1, r2; simpl; intros H Hk; try done. by apply Hk. Qed.

Lemma try_map_rel {E A B C D} (R : C -> D -> Prop) (f : A -> result E C) (g : B -> result E D) xs ys :
  Forall2 (fun x y => res_rel R (f x) (g y)) xs ys ->
  res_rel (Forall2 R) (try_map f xs) (try_map g ys).
Proof.
  induction 1 as [|x y xs ys Hxy Hr IH]; simpl; [constructor|].
  eapply res_rel_bind; [exact Hxy|]. intros a b Hab. eapply res_rel_bind; [exact IH|].
  intros l1 l2 Hl. by constructor.
Qed.

Lemma try_map_perm {E A B} (f : A -> result E B) l l' :
  l ≡ₚ l' -> res_rel Permutation (try_map f l) (try_map f l').
Proof.
  induction 1 as [|x l l' Hl IH|x y l|l1 l2 l3 H1 IH1 H2 IH2]; simpl.
  - constructor.
  - destruct (f x); simpl; [|done]. destruct (try_map f l), (try_map f l'); simpl in *; try done.
    by constructor.
  - destruct (f x), (f y); simpl; try done. destruct (try_map f l); simpl; [apply perm_swap|done].
  - destruct (try_map f l1), (try_map f l2), (try_map f l3); simpl in *; try done. by etrans.
Qed.

Lemma Forall_Forall2_impl {A B} (P : A -> Prop) (Q R : A -> B -> Prop) l k :
  Forall P l -> Forall2 Q l k -> (forall x y, P x -> Q x y -> R x y) -> Forall2 R l k.
Proof. intros HP HQ H. induction HQ; inversion HP; subst; constructor; auto. Qed.

Lemma res_rel_refl {E A} (R : A -> A -> Prop) (r : result E A) : (forall a, R a a) -> res_rel R r r.
Proof. intros H. destruct r; simpl; auto. Qed.

Lemma res_rel_impl {E A B} (R S : A -> B -> Prop) (r1 : result E A) (r2 : result E B) :
  res_rel R r1 r2 -> (forall a b, R a b -> S a b) -> res_rel S r1 r2.
Proof. destruct r1, r2; simpl; auto. Qed.

Lemma list_elem_of_rev {A} (x : A) l : x ∈ rev l <-> x ∈ l.
Proof. by rewrite !list_elem_of_In, <- in_rev. Qed.

Lemma list_elem_of_Filter {A} (f : A -> bool) x l :
  x ∈ List.filter f l <-> x ∈ l /\ f x = true.
Proof. by rewrite !list_elem_of_In, filter_In. Qed.

(** ** Stable sorting by a key

    [sort_by_key] is stable, which fixes its result; insertion from the right computes it. *)

Fixpoint insert_by_key {A} (key : A -> Z) (x : A) (l : list A) : list A :=
  match l with
  | [] => [x]
  | y :: l' => if key x <=? key y then x :: l else y :: insert_by_key key x l'
  end.
Fixpoint sort_by_key {A} (key : A -> Z) (l : list A) : list A :=
  match l with
  | [] => []
  | x :: l' => insert_by_key key x (sort_by_key key l')
  end.

Section sorting.
Context {A : Type} (key : A -> Z).

Abbreviation ordered := (StronglySorted (fun x y => key x <= key y)).

Lemma insert_by_key_perm x l : insert_by_key key x l ≡ₚ x :: l.
Proof.
  induction l as [|y l IH]; simpl; [done|]. destruct (_ <=? _); [done|].
  rewrite IH. apply perm_swap.
Qed.

Lemma sort_by_key_perm l : sort_by_key key l ≡ₚ l.
Proof. induction l as [|x l IH]; simpl; [done|]. by rewrite insert_by_key_perm, IH. Qed.

Lemma insert_by_key_sorted x l : ordered l -> ordered (insert_by_key key x l).
Proof.
  induction 1 as [|y l Hl IH Hy]; simpl; [repeat constructor|].
  destruct (Z.leb_spec (key x) (key y)).
  - constructor; [by constructor|]. constructor; [done|].
    eapply Forall_impl; [exact Hy|]. simpl. lia.
  - constructor; [done|]. rewrite insert_by_key_perm. constructor; [lia|done].
Qed.

Lemma sort_by_key_sorted l : ordered (sort_by_key key l).
Proof. induction l; simpl; [constructor|by apply insert_by_key_sorted]. Qed.

(** Stability: the elements of one key keep their order. *)
Lemma insert_by_key_filter x l k :
  ordered l ->
  List.filter (fun y => key y =? k) (insert_by_key key x l)
  = List.filter (fun y => key y =? k) (x :: l).
Proof.
  induction 1 as [|y l Hl IH Hy]; simpl; [done|]. destruct (Z.leb_spec (key x) (key y)); [done|].
  simpl. rewrite IH. simpl. destruct (Z.eqb_spec (key y) k), (Z.eqb_spec (key x) k); try done. lia.
Qed.

Lemma sort_by_key_stable l k :
  List.filter (fun y => key y =? k) (sort_by_key key l) = List.filter (fun y => key y =? k) l.
Proof.
  induction l as [|x l IH]; simpl; [done|].
  rewrite insert_by_key_filter by apply sort_by_key_sorted. simpl. by rewrite IH.
Qed.
End sorting.

(** ** Stable sorting by a name *)

Fixpoint insert_by_text {A} (key : A -> string) (x : A) (l : list A) : list A :=
  match l with
  | [] => [x]
  | y :: l' => if String.leb (key x) (key y) then x :: l else y :: insert_by_text key x l'
  end.
Fixpoint sort_by_text {A} (key : A -> string) (l : list A) : list A :=
  match l with
  | [] => []
  | x :: l' => insert_by_text key x (sort_by_text key l')
  end.

Section text_sorting.
Context {A : Type} (key : A -> string).

Definition text_le (x y : A) : Prop := String.le (key x) (key y).

Lemma insert_by_text_perm x l : insert_by_text key x l ≡ₚ x :: l.
Proof. induction l as [|y l IH]; simpl; [done|]. destruct (String.leb _ _); [done|]. rewrite IH. apply perm_swap. Qed.
Lemma sort_by_text_perm l : sort_by_text key l ≡ₚ l.
Proof. induction l as [|x l IH]; simpl; [done|]. by rewrite insert_by_text_perm, IH. Qed.

Lemma insert_by_text_sorted x l : StronglySorted text_le l -> StronglySorted text_le (insert_by_text key x l).
Proof.
  induction 1 as [|y l Hl IH Hy]; simpl; [repeat constructor|]. destruct (String.leb _ _) eqn:E.
  - constructor; [by constructor|]. assert (Hxy : text_le x y) by (by apply Is_true_true).
    constructor; [done|]. eapply Forall_impl; [exact Hy|]. intros z Hz. unfold text_le in *. by etrans.
  - constructor; [done|]. rewrite insert_by_text_perm. constructor; [|done].
    destruct (total String.le (key x) (key y)) as [H|H]; [|done]. apply Is_true_true in H. congruence.
Qed.
Lemma sort_by_text_sorted l : StronglySorted text_le (sort_by_text key l).
Proof. induction l; simpl; [constructor|by apply insert_by_text_sorted]. Qed.

(** When no two elements have the same name, the order they came in does not matter. *)
Lemma sort_by_text_order l k : NoDup (key <$> l) -> l ≡ₚ k -> sort_by_text key l = sort_by_text key k.
Proof.
  intros Hnd Hp. apply (StronglySorted_unique_strong text_le); [|apply sort_by_text_sorted..|by rewrite !sort_by_text_perm].
  intros x y Hx Hy Hxy Hyx. rewrite sort_by_text_perm in Hx, Hy. rewrite <- Hp in Hy.
  assert (E : key x = key y) by (by apply (anti_symm String.le)).
  apply list_elem_of_lookup in Hx as [i Hi], Hy as [j Hj].
  assert (i = j) as <-; [|congruence].
  apply (NoDup_lookup _ i j (key x) Hnd); rewrite list_lookup_fmap, ?Hi, ?Hj; [done|]. simpl. by rewrite E.
Qed.
End text_sorting.

(** A map filled from a list of distinct keys. *)
Lemma insert_all_map `{Countable K} {A} (kvs : list (K * A)) (m : gmap K A) : NoDup kvs.*1 ->
  foldl (fun n kv => <[kv.1 := kv.2]> n) m kvs = list_to_map kvs ∪ m.
Proof.
  revert m. induction kvs as [|[k v] kvs IH]; intros m; cbn [foldl fmap list_fmap fst snd]; [symmetry; apply map_empty_union|].
  intros [Hk Hnd]%NoDup_cons. rewrite IH by done. cbn [list_to_map foldr fst snd].
  rewrite <- insert_union_l, <- insert_union_r; [done|]. by apply not_elem_of_list_to_map_1.
Qed.

(** ** Machine integers

    An integer of the source is a [Z]; each operation writes out what the
    source does at the bounds of its width. *)

Definition i64_min : Z := -9223372036854775808.
Definition i64_max : Z := 9223372036854775807.
Definition i128_min : Z := -170141183460469231731687303715884105728.
Definition i128_max : Z := 170141183460469231731687303715884105727.
Definition u64_max : Z := 18446744073709551615.
Definition u32_max : Z := 4294967295.
Definition two64 : Z := 18446744073709551616.

Definition i64 (z : Z) : Prop := i64_min <= z <= i64_max.
Definition u64 (z : Z) : Prop := 0 <= z <= u64_max.
Definition u32 (z : Z) : Prop := 0 <= z <= u32_max.
Definition i128 (z : Z) : Prop := i128_min <= z <= i128_max.

Definition in_range (lo hi z : Z) : bool := (lo <=? z) && (z <=? hi).
Definition checked (lo hi z : Z) : option Z := if in_range lo hi z then Some z else None.
(** [checked_add], [checked_mul], [checked_pow], ...: the exact value when it fits. *)
Definition checked_i64 : Z -> option Z := checked i64_min i64_max.
Definition checked_i128 : Z -> option Z := checked i128_min i128_max.
Definition checked_u64 : Z -> option Z := checked 0 u64_max.
(** [wrapping_add], [wrapping_mul] at 64 bits. *)
Definition wrap64 (z : Z) : Z := z mod two64.
(** [saturating_add] at 64 bits, unsigned. *)
Definition saturating_add_u64 (a b : Z) : Z := Z.min u64_max (a + b).

Lemma checked_Some lo hi z y : checked lo hi z = Some y <-> y = z /\ lo <= z <= hi.
Proof. unfold checked, in_range. destruct (lo <=? z) eqn:?, (z <=? hi) eqn:?; simpl; (split; [intros ?; simplify_eq; try lia | intros ?; try lia]); try (f_equal; lia); try (destruct_and?; simplify_eq; lia || done). Qed.

Lemma checked_None lo hi z : checked lo hi z = None <-> z < lo \/ hi < z.
Proof. unfold checked, in_range. destruct (lo <=? z) eqn:?, (z <=? hi) eqn:?; simpl; (split; [intros ?; simplify_eq; try lia | intros ?; try lia]); try (f_equal; lia); try (destruct_and?; simplify_eq; lia || done). Qed.

Lemma checked_in lo hi z : lo <= z <= hi -> checked lo hi z = Some z.
Proof. intros. by apply checked_Some. Qed.

Lemma checked_out lo hi z : z < lo \/ hi < z -> checked lo hi z = None.
Proof. intros. by apply checked_None. Qed.

Lemma wrap64_range z : 0 <= wrap64 z < two64.
Proof. apply Z.mod_pos_bound. done. Qed.

Lemma wrap64_small z : 0 <= z < two64 -> wrap64 z = z.
Proof. apply Z.mod_small. Qed.

#[export] Hint Resolve wrap64_range : engine.
#[export] Hint Resolve checked_in checked_out : engine.

(** Discharges a closed, decidable fact by evaluation. *)
Ltac by_eval :=
  repeat split; first [vm_compute; (reflexivity || discriminate || tauto) | lia].

Ltac unfold_width :=
  unfold i64, u64, u32, i128, i64_min, i64_max, i128_min, i128_max, u64_max, u32_max, two64 in *.

(** ** Weight of a map of lists: the fuel of a worklist search *)

Section map_weight.
Context {K A : Type} `{Countable K}.

Definition map_weight (w : A -> nat) (m : gmap K A) : nat :=
  map_fold (fun _ x acc => (w x + acc)%nat) O m.

Lemma map_weight_delete w (m : gmap K A) k x :
  m !! k = Some x -> map_weight w m = (w x + map_weight w (delete k m))%nat.
Proof.
  intros Hk. unfold map_weight. rewrite (map_fold_delete_L _ _ k x); [done| |done].
  intros. lia.
Qed.

Lemma map_weight_delete_le w (m : gmap K A) k :
  (map_weight w (delete k m) <= map_weight w m)%nat.
Proof.
  destruct (m !! k) as [x|] eqn:E; [rewrite (map_weight_delete w m k x E); lia|].
  by rewrite delete_id.
Qed.
End map_weight.

(** Induction two elements at a time. *)
Lemma two_step_ind {A} (P : list A -> Prop) :
  P [] -> (forall a l, P l -> (forall b k, l = b :: k -> P k) -> P (a :: l)) -> forall l, P l.
Proof.
  intros H0 Hs l. assert (P l /\ forall b k, l = b :: k -> P k) as [H _]; [|exact H].
  induction l as [|a l [IH1 IH2]]; [done|]. split; [by apply Hs|]. by intros b k [= <- <-].
Qed.
