(* ===== verification/RustStr.v ===== *)
(** * RustStr: the parts of Rust's [str] and integer formatting the source uses

    A [str] is the list of its UTF-8 bytes, as a [string]. [parse_i64] and
    [parse_u64] are the standard library's [from_str_radix] loop at radix 10,
    with its error kinds; [show_u64] and [show_i64] are [Display]; [trim]
    removes the Unicode [White_Space] characters of both ends. *)

From Stdlib Require Import Ascii String.
From stdpp Require Import base gmap strings list.
From Stdlib Require Import ZArith Lia.
From S2P Require Import Prelude.

(** ** Decimal printing *)

Definition digit_char (d : Z) : ascii := ascii_of_N (Z.to_N (48 + d)).

Fixpoint show_digits (fuel : nat) (n : Z) : string :=
  match fuel with
  | O => ""
  | S f =>
      if n <? 10 then String (digit_char n) EmptyString
      else show_digits f (n / 10) +:+ String (digit_char (n mod 10)) EmptyString
  end.

(** [n.to_string()] for [n >= 0]; every value below 10^fuel is printed in full. *)
Definition show_u64 (n : Z) : string := show_digits 20 n.
Definition show_i64 (n : Z) : string :=
  if n <? 0 then String "-" (show_digits 20 (- n)) else show_digits 20 n.

(** ** Decimal parsing *)

(** [std::num::IntErrorKind], the kinds an integer parse can report. *)
Inductive IntErrorKind := Empty | InvalidDigit | PosOverflow | NegOverflow.

#[export] Instance IntErrorKind_eq_dec : EqDecision IntErrorKind.
Proof. solve_decision. Defined.

Definition to_digit (c : ascii) : option Z :=
  let d := Z.of_N (N_of_ascii c) - 48 in
  if in_range 0 9 d then Some d else None.

(** The checked loop: [sgn] is 1 for [checked_add] and -1 for [checked_sub]. *)
Fixpoint parse_digits (lo hi sgn : Z) (ovf : IntErrorKind) (acc : Z) (s : string)
  : result IntErrorKind Z :=
  match s with
  | EmptyString => Ok acc
  | String c rest =>
      match to_digit c with
      | None => Err InvalidDigit
      | Some x =>
          match checked lo hi (acc * 10) with
          | None => Err ovf
          | Some m =>
              match checked lo hi (m + sgn * x) with
              | None => Err ovf
              | Some acc' => parse_digits lo hi sgn ovf acc' rest
              end
          end
      end
  end.

Definition parse_int (signed : bool) (lo hi : Z) (s : string) : result IntErrorKind Z :=
  match s with
  | EmptyString => Err Empty
  | String "+" EmptyString | String "-" EmptyString => Err InvalidDigit
  | String "+" rest => parse_digits lo hi 1 PosOverflow 0 rest
  | String "-" rest =>
      if signed then parse_digits lo hi (-1) NegOverflow 0 rest
      else parse_digits lo hi 1 PosOverflow 0 s
  | _ => parse_digits lo hi 1 PosOverflow 0 s
  end.

(** [s.parse::<i64>()] and [s.parse::<u64>()] *)
Definition parse_i64 : string -> result IntErrorKind Z := parse_int true i64_min i64_max.
Definition parse_u64 : string -> result IntErrorKind Z := parse_int false 0 u64_max.

(** ** Trimming *)

Definition ws1 (a : N) : bool := ((9 <=? a) && (a <=? 13) || (a =? 32))%N.
Definition ws2 (a b : N) : bool := ((a =? 194) && ((b =? 133) || (b =? 160)))%N.
Definition ws3 (a b c : N) : bool :=
  ((a =? 225) && (b =? 154) && (c =? 128)
   || (a =? 226) && (b =? 128)
      && ((128 <=? c) && (c <=? 138) || (c =? 168) || (c =? 169) || (c =? 175))
   || (a =? 226) && (b =? 129) && (c =? 159)
   || (a =? 227) && (b =? 128) && (c =? 128))%N.

(** Drops one whitespace character from the front of the bytes, if there is one;
    [flip] reads the bytes of the character in reverse order. *)
Definition drop_ws (flip : bool) (l : list ascii) : option (list ascii) :=
  match l with
  | [] => None
  | a :: r1 =>
      let a := N_of_ascii a in
      if ws1 a then Some r1
      else match r1 with
           | [] => None
           | b :: r2 =>
               let b := N_of_ascii b in
               if (if flip then ws2 b a else ws2 a b) then Some r2
               else match r2 with
                    | [] => None
                    | c :: r3 =>
                        let c := N_of_ascii c in
                        if (if flip then ws3 c b a else ws3 a b c) then Some r3 else None
                    end
           end
  end.

Fixpoint drop_all_ws (fuel : nat) (flip : bool) (l : list ascii) : list ascii :=
  match fuel with
  | O => l
  | S f => match drop_ws flip l with None => l | Some l' => drop_all_ws f flip l' end
  end.

(** [s.trim()]; each round drops at least a byte, so the length is enough fuel. *)
Definition trim (s : string) : string :=
  let l := list_ascii_of_string s in
  let l := drop_all_ws (List.length l) false l in
  let r := rev l in
  string_of_list_ascii (rev (drop_all_ws (List.length r) true r)).

(** [s.strip_prefix(c).unwrap_or(s)] for a character [c]. *)
Definition strip_prefix_or (c : ascii) (s : string) : string :=
  match s with
  | String c' rest => if bool_decide (c = c') then rest else s
  | EmptyString => s
  end.

(** ** Prefixes and suffixes *)

Fixpoint starts_with (l op : list ascii) {struct op} : bool :=
  match op, l with
  | [], _ => true
  | c :: op', d :: l' => bool_decide (c = d) && starts_with l' op'
  | _ :: _, [] => false
  end.
Definition ends_with (l suffix : list ascii) : bool := starts_with (rev l) (rev suffix).
(** [s.strip_prefix(p)] and [s.strip_suffix(p)] *)
Definition strip_prefix (l p : list ascii) : option (list ascii) :=
  if starts_with l p then Some (drop (List.length p) l) else None.
Definition strip_suffix (l p : list ascii) : option (list ascii) :=
  if ends_with l p then Some (take (List.length l - List.length p) l) else None.

(** ** Facts *)

Lemma to_digit_digit_char d : 0 <= d <= 9 -> to_digit (digit_char d) = Some d.
Proof.
  intros Hd. assert (Hd' : d ∈ [0;1;2;3;4;5;6;7;8;9]).
  { rewrite !elem_of_cons. lia. }
  repeat (apply elem_of_cons in Hd' as [-> | Hd']; [reflexivity|]).
  by apply elem_of_nil in Hd'.
Qed.

Lemma parse_digits_app lo hi sgn o acc s t :
  parse_digits lo hi sgn o acc (s +:+ t)
  = let? acc' := parse_digits lo hi sgn o acc s in parse_digits lo hi sgn o acc' t.
Proof.
  revert acc. induction s as [|c s IH]; intros acc; simpl; [done|].
  destruct (to_digit c) as [x|]; [|done].
  destruct (checked lo hi (acc * 10)) as [m|]; [|done].
  destruct (checked lo hi (m + sgn * x)); [apply IH | done].
Qed.

Lemma parse_digits_snoc lo hi sgn o acc s d v :
  parse_digits lo hi sgn o acc s = Ok v ->
  0 <= d <= 9 -> lo <= v * 10 <= hi -> lo <= v * 10 + sgn * d <= hi ->
  parse_digits lo hi sgn o acc (s +:+ String (digit_char d) EmptyString) = Ok (v * 10 + sgn * d).
Proof.
  intros Hs Hd Hm Ha. rewrite parse_digits_app, Hs. simpl.
  rewrite to_digit_digit_char by done. by rewrite !checked_in by done.
Qed.

(** Parsing what was printed: the accumulated value is the number, on both signs. *)
Lemma parse_show_digits lo hi sgn o fuel n :
  sgn = 1 \/ sgn = -1 -> 0 <= n < 10 ^ Z.of_nat fuel ->
  lo <= 0 <= hi -> lo <= sgn * n <= hi ->
  parse_digits lo hi sgn o 0 (show_digits fuel n) = Ok (sgn * n).
Proof.
  intros Hsgn. revert n. induction fuel as [|f IH]; intros n Hn H0 Hr.
  { simpl in *. f_equal. lia. }
  simpl show_digits. destruct (Z.ltb_spec n 10) as [Hlt|Hge].
  - apply (parse_digits_snoc lo hi sgn o 0 "" n 0); simpl; auto; lia.
  - rewrite Nat2Z.inj_succ, Z.pow_succ_r in Hn by lia.
    assert (Hdm : n = 10 * (n / 10) + n mod 10) by (apply Z.div_mod; lia).
    assert (Hm : 0 <= n mod 10 < 10) by (apply Z.mod_pos_bound; lia).
    assert (E : sgn * n = sgn * (n / 10) * 10 + sgn * (n mod 10)) by (destruct Hsgn; subst sgn; lia).
    rewrite E.
    assert (H10 : 0 <= n / 10 < 10 ^ Z.of_nat f) by lia.
    apply parse_digits_snoc; [apply IH | | |]; destruct Hsgn; subst sgn; lia.
Qed.


Lemma show_digits_cons f n :
  0 <= n -> exists d s, 0 <= d <= 9 /\ show_digits (S f) n = String (digit_char d) s.
Proof.
  revert n. induction f as [|f IH]; intros n Hn.
  - simpl. destruct (Z.ltb_spec n 10).
    + exists n, "". split; [lia | done].
    + exists (n mod 10), "". split; [|done].
      pose proof (Z.mod_pos_bound n 10). lia.
  - change (show_digits (S (S f)) n) with
      (if n <? 10 then String (digit_char n) EmptyString
       else show_digits (S f) (n / 10) +:+ String (digit_char (n mod 10)) EmptyString).
    destruct (Z.ltb_spec n 10).
    + exists n, "". split; [lia | done].
    + destruct (IH (n / 10)) as (d & s & ? & ->); [apply Z.div_pos; lia|].
      exists d. eexists. split; [done|]. reflexivity.
Qed.

(** A digit is none of the characters the parsers and prefixes look for. *)
Lemma digit_char_not d c :
  0 <= d <= 9 -> to_digit c = None -> digit_char d <> c.
Proof. intros Hd Hc <-. by rewrite to_digit_digit_char in Hc. Qed.

Lemma parse_int_digit signed lo hi d s :
  0 <= d <= 9 ->
  parse_int signed lo hi (String (digit_char d) s)
  = parse_digits lo hi 1 PosOverflow 0 (String (digit_char d) s).
Proof.
  intros Hd. assert (Hd' : d ∈ [0;1;2;3;4;5;6;7;8;9]) by (rewrite !elem_of_cons; lia).
  repeat (apply elem_of_cons in Hd' as [-> | Hd']; [reflexivity|]).
  by apply elem_of_nil in Hd'.
Qed.

Lemma parse_int_show signed lo hi n :
  0 <= n < 10 ^ 20 -> lo <= 0 -> n <= hi -> parse_int signed lo hi (show_digits 20 n) = Ok n.
Proof.
  intros Hn Hlo Hhi. destruct (show_digits_cons 19 n) as (d & s & Hd & E); [lia|].
  rewrite E, parse_int_digit by done. rewrite <- E.
  replace n with (1 * n) at 2 by lia. apply parse_show_digits; simpl; lia.
Qed.

Lemma parse_show_u64 n : u64 n -> parse_u64 (show_u64 n) = Ok n.
Proof. unfold u64, u64_max. intros. apply parse_int_show; unfold u64_max; lia. Qed.

Lemma parse_int_minus lo hi s :
  s <> EmptyString ->
  parse_int true lo hi (String "-" s) = parse_digits lo hi (-1) NegOverflow 0 s.
Proof. by destruct s. Qed.

Lemma parse_show_i64 n : i64 n -> parse_i64 (show_i64 n) = Ok n.
Proof.
  unfold i64, i64_min, i64_max. intros Hn. unfold show_i64. destruct (Z.ltb_spec n 0).
  - destruct (show_digits_cons 19 (- n)) as (d & s & Hd & E); [lia|].
    unfold parse_i64. rewrite parse_int_minus by (rewrite E; done).
    replace n with (-1 * - n) at 2 by lia. apply parse_show_digits; unfold i64_min, i64_max; simpl; lia.
  - apply parse_int_show; unfold i64_min, i64_max; lia.
Qed.

Lemma parse_digits_range lo hi sgn o acc s v :
  parse_digits lo hi sgn o acc s = Ok v -> lo <= acc <= hi -> lo <= v <= hi.
Proof.
  revert acc. induction s as [|c s IH]; simpl; intros acc H Hacc; [by simplify_eq|].
  destruct (to_digit c) as [x|]; [|done].
  destruct (checked lo hi (acc * 10)) as [m|]; [|done].
  destruct (checked lo hi (m + sgn * x)) as [a|] eqn:E; [|done].
  apply checked_Some in E as [-> ?]. by eapply IH.
Qed.

(** A successful parse lies in the range of the type. *)
Lemma parse_int_range signed lo hi s v :
  lo <= 0 <= hi -> parse_int signed lo hi s = Ok v -> lo <= v <= hi.
Proof.
  intros H0 H. unfold parse_int in H.
  repeat (case_match; try done); eapply parse_digits_range; eauto.
Qed.


(** *** Fixed-width digits *)

(** The last [k] decimal digits of [n], zero-padded. *)
Fixpoint pad_digits (k : nat) (n : Z) : string :=
  match k with
  | O => ""
  | S k' => pad_digits k' (n / 10) +:+ String (digit_char (n mod 10)) EmptyString
  end.

Lemma parse_pad_digits lo hi sgn o acc k n :
  sgn = 1 \/ sgn = -1 -> 0 <= sgn * acc -> 0 <= n < 10 ^ Z.of_nat k ->
  lo <= 0 <= hi -> lo <= acc * 10 ^ Z.of_nat k + sgn * n <= hi ->
  parse_digits lo hi sgn o acc (pad_digits k n) = Ok (acc * 10 ^ Z.of_nat k + sgn * n).
Proof.
  intros Hsgn Hacc. revert n. induction k as [|k IH]; intros n Hn H0 Hr.
  { simpl in *. f_equal. lia. }
  rewrite Nat2Z.inj_succ, Z.pow_succ_r in * by lia. simpl pad_digits.
  assert (Hm : 0 <= n mod 10 < 10) by (apply Z.mod_pos_bound; lia).
  assert (E : n = n / 10 * 10 + n mod 10) by (rewrite Z.mul_comm; apply Z.div_mod; lia).
  set (q := n / 10) in *. set (d := n mod 10) in *. set (p := 10 ^ Z.of_nat k) in *.
  assert (Hp : 0 < p) by (apply Z.pow_pos_nonneg; lia).
  assert (Ev : acc * (10 * p) + sgn * n = (acc * p + sgn * q) * 10 + sgn * d) by (rewrite E; ring).
  rewrite Ev in *. assert (Hs : 0 <= sgn * (acc * p + sgn * q)) by (destruct Hsgn; subst sgn; nia).
  set (v := acc * p + sgn * q) in *.
  apply parse_digits_snoc; [apply IH | | |]; destruct Hsgn; subst sgn; lia.
Qed.

Lemma str_length_app (s t : string) :
  String.length (s +:+ t) = (String.length s + String.length t)%nat.
Proof. induction s as [|c s IH]; simpl; [done|]. by fold (s +:+ t); rewrite IH. Qed.

Lemma str_app_assoc (s t u : string) : (s +:+ t) +:+ u = s +:+ (t +:+ u).
Proof. induction s as [|c s IH]; [done|]. apply (f_equal (String c) IH). Qed.

Lemma pad_digits_length k n : String.length (pad_digits k n) = k.
Proof.
  revert n. induction k as [|k IH]; intros n; simpl; [done|].
  rewrite str_length_app, IH. simpl. lia.
Qed.

(** *** Decimal strings *)

(** Every character satisfies [P]. *)
Fixpoint str_forall (P : ascii -> Prop) (s : string) : Prop :=
  match s with EmptyString => True | String c r => P c /\ str_forall P r end.

Lemma str_forall_app P s t : str_forall P (s +:+ t) <-> str_forall P s /\ str_forall P t.
Proof. induction s as [|c s IH]; simpl; [tauto|]. fold (s +:+ t). rewrite IH. tauto. Qed.

Definition is_digit (c : ascii) : Prop := exists d, 0 <= d <= 9 /\ c = digit_char d.

Lemma show_digits_digits f n : 0 <= n -> str_forall is_digit (show_digits f n).
Proof.
  revert n. induction f as [|f IH]; intros n Hn; simpl; [done|].
  pose proof (Z.mod_pos_bound n 10). destruct (Z.ltb_spec n 10).
  - split; [|done]. exists n. split; [lia|done].
  - apply str_forall_app. split; [apply IH, Z.div_pos; lia|]. split; [|done].
    exists (n mod 10). split; [lia|done].
Qed.

Lemma pad_digits_digits k n : str_forall is_digit (pad_digits k n).
Proof.
  revert n. induction k as [|k IH]; intros n; simpl; [done|].
  apply str_forall_app. split; [apply IH|]. split; [|done].
  pose proof (Z.mod_pos_bound n 10). exists (n mod 10). split; [lia|done].
Qed.

(** *** Trimming spaces *)

Definition plain (c : ascii) : Prop := (N_of_ascii c < 128)%N /\ ws1 (N_of_ascii c) = false.

Lemma ws2_ascii a b : (a < 128 \/ b < 128)%N -> ws2 a b = false.
Proof.
  intros [H|H]; unfold ws2.
  - by rewrite (proj2 (N.eqb_neq a 194)) by lia.
  - by rewrite !(proj2 (N.eqb_neq b _)), andb_false_r by lia.
Qed.

Lemma ws3_ascii a b c : (a < 128 \/ c < 128)%N -> ws3 a b c = false.
Proof.
  intros [H|H]; unfold ws3.
  - by rewrite !(proj2 (N.eqb_neq a _)) by lia.
  - by rewrite (proj2 (N.leb_gt 128 c)), !(proj2 (N.eqb_neq c _)), !andb_false_r by lia.
Qed.

Lemma drop_ws_plain flip c l : plain c -> drop_ws flip (c :: l) = None.
Proof.
  intros [Hc Hw]. simpl. rewrite Hw. destruct l as [|b l]; [done|].
  rewrite !ws2_ascii by tauto. destruct flip; (destruct l as [|a l]; [done|]);
    by rewrite ws3_ascii by tauto.
Qed.

Lemma drop_all_ws_spaces fuel flip n c l :
  (n <= fuel)%nat -> plain c ->
  drop_all_ws fuel flip (replicate n " "%char ++ c :: l) = c :: l.
Proof.
  intros Hn Hc. revert fuel Hn. induction n as [|n IH]; intros fuel Hn; simpl.
  - destruct fuel; [done|]. cbn [drop_all_ws]. by rewrite drop_ws_plain.
  - destruct fuel as [|f]; [lia|]. simpl. apply IH. lia.
Qed.

Lemma list_ascii_app s t :
  list_ascii_of_string (s +:+ t) = list_ascii_of_string s ++ list_ascii_of_string t.
Proof. induction s as [|c s IH]; simpl; [done|]. by fold (s +:+ t); rewrite IH. Qed.

Lemma rev_replicate_ascii n (c : ascii) : rev (replicate n c) = replicate n c.
Proof. induction n as [|n IH]; simpl; [done|]. by rewrite IH, <- replicate_cons_app. Qed.

Definition spaces (n : nat) : string := string_of_list_ascii (replicate n " "%char).

Lemma trim_spaces m n s c l c' l' :
  list_ascii_of_string s = c :: l -> rev (list_ascii_of_string s) = c' :: l' ->
  plain c -> plain c' -> trim (spaces m +:+ s +:+ spaces n) = s.
Proof.
  intros Es Er Hc Hc'. unfold trim, spaces.
  rewrite !list_ascii_app, !list_ascii_of_string_of_list_ascii, Es, <- app_comm_cons.
  rewrite drop_all_ws_spaces by (done || (rewrite length_app, length_replicate; lia)).
  rewrite app_comm_cons.
  rewrite <- Es, rev_app_distr, Er, rev_replicate_ascii.
  rewrite drop_all_ws_spaces by (done || (rewrite length_app, length_replicate; lia)).
  by rewrite <- Er, rev_involutive, string_of_list_ascii_of_string.
Qed.

Lemma str_forall_list P s : str_forall P s <-> Forall P (list_ascii_of_string s).
Proof. induction s as [|c s IH]; simpl; [by rewrite Forall_nil|]. by rewrite Forall_cons, IH. Qed.

Lemma trim_plain m n s :
  s <> EmptyString -> str_forall plain s -> trim (spaces m +:+ s +:+ spaces n) = s.
Proof.
  intros Hs Hp. apply str_forall_list in Hp.
  destruct (list_ascii_of_string s) as [|c l] eqn:E; [by destruct s|].
  destruct (rev (list_ascii_of_string s)) as [|c' l'] eqn:Er.
  { apply (f_equal (@rev ascii)) in Er. rewrite rev_involutive, E in Er. done. }
  assert (Hin : c' ∈ c :: l).
  { rewrite <- E. rewrite list_elem_of_In, in_rev, Er. by left. }
  rewrite Forall_forall in Hp.
  apply (trim_spaces m n s c l c' l'); auto. apply Hp. by left.
Qed.

Lemma starts_with_spec l op : starts_with l op = true <-> exists r, l = op ++ r.
Proof.
  revert l. induction op as [|c op IH]; intros l; [destruct l; naive_solver|].
  destruct l as [|d l]; simpl; [naive_solver|].
  rewrite andb_true_iff, bool_decide_eq_true, IH. naive_solver.
Qed.

Lemma strip_prefix_spec l p r : strip_prefix l p = Some r <-> l = p ++ r.
Proof.
  unfold strip_prefix. destruct (starts_with l p) eqn:E.
  - apply starts_with_spec in E as (k & ->). rewrite drop_app_length. split; [by intros [= ->]|].
    by intros ?%app_inv_head; subst.
  - split; [done|]. intros ->. assert (starts_with (p ++ r) p = true) by (apply starts_with_spec; eauto). congruence.
Qed.

Lemma strip_suffix_spec l p r : strip_suffix l p = Some r <-> l = r ++ p.
Proof.
  unfold strip_suffix, ends_with. destruct (starts_with (rev l) (rev p)) eqn:E.
  - apply starts_with_spec in E as (k & E). apply (f_equal (@rev _)) in E.
    rewrite rev_involutive, rev_app_distr, rev_involutive in E. subst.
    rewrite length_app, Nat.add_sub, take_app_length. split; [by intros [= <-]|].
    by intros ?%app_inv_tail; subst.
  - split; [done|]. intros ->. assert (starts_with (rev (r ++ p)) (rev p) = true); [|congruence].
    apply starts_with_spec. exists (rev r). by rewrite rev_app_distr.
Qed.

#[export] Hint Resolve parse_show_u64 parse_show_i64 : engine.
#[global] Arguments show_u64 : simpl never.
#[global] Arguments show_i64 : simpl never.
#[global] Arguments show_digits : simpl never.
#[global] Arguments parse_u64 : simpl never.
#[global] Arguments parse_i64 : simpl never.
#[global] Arguments parse_int : simpl never.
