(* ===== verification/CoreTypes.v ===== *)
(** * CoreTypes: identifiers, ticks, diffs, lifecycle and tiers of [scharnhorst_core]

    Models [id.rs], [error.rs], [diff.rs], [row_position.rs], [capability.rs] and
    [state_tier.rs]. [serde_json::Value] is third-party code: [Diff] is
    parametric in the type [V] of JSON values. *)

From Stdlib Require Import Ascii String.
From stdpp Require Import base gmap strings list.
From Stdlib Require Import ZArith Lia.
From S2P Require Import Prelude RustStr.

(** ** Errors *)

Inductive CoreError :=
| InvalidId (s : string)
| InvalidFormat (s : string)
| ArithmeticOverflow
| DivisionByZero
| InvalidFixedPointScale (expected got : Z)
| CoreSchema (s : string)
| DuplicateRegistration (s : string)
| InvalidPhase (s : string)
| CoreIo (s : string)
| CoreGeneric (s : string).

#[export] Instance CoreError_eq_dec : EqDecision CoreError.
Proof. solve_decision. Defined.

Abbreviation CoreResult := (result CoreError).

(** ** Ticks *)

Record Tick := mkTick { tick_as_u64 : Z }.

#[export] Instance Tick_eq_dec : EqDecision Tick.
Proof. solve_decision. Defined.
#[export] Instance Tick_countable : Countable Tick.
Proof. by refine (inj_countable' tick_as_u64 mkTick _); intros []. Defined.

Definition tick_wf (t : Tick) : Prop := u64 (tick_as_u64 t).
Definition tick_ZERO : Tick := mkTick 0.
(** [u64::MAX] is the "no tick" sentinel. *)
Definition tick_MAX : Tick := mkTick (u64_max - 1).

Definition tick_next (t : Tick) : Tick :=
  if tick_as_u64 tick_MAX <=? tick_as_u64 t then tick_MAX
  else mkTick (tick_as_u64 t + 1).

Definition tick_prev (t : Tick) : option Tick :=
  option_map mkTick (checked_u64 (tick_as_u64 t - 1)).

(** ** Table and row identifiers *)

Record TableId := mkTableId { table_id_as_u64 : Z }.
Record RowId := mkRowId { row_id_as_u64 : Z }.

#[export] Instance TableId_eq_dec : EqDecision TableId.
Proof. solve_decision. Defined.
#[export] Instance RowId_eq_dec : EqDecision RowId.
Proof. solve_decision. Defined.
#[export] Instance RowId_countable : Countable RowId.
Proof. by refine (inj_countable' row_id_as_u64 mkRowId _); intros []. Defined.

#[export] Instance TableId_countable : Countable TableId.
Proof. by refine (inj_countable' table_id_as_u64 mkTableId _); intros []. Defined.

Definition table_id_display (t : TableId) : string := "T" +:+ show_u64 (table_id_as_u64 t).
Definition table_id_from_str (s : string) : CoreResult TableId :=
  let? raw := map_err (fun _ => InvalidId s) (parse_u64 (strip_prefix_or "T" s)) in
  Ok (mkTableId raw).

Definition row_id_display (r : RowId) : string := "R" +:+ show_u64 (row_id_as_u64 r).
Definition row_id_from_str (s : string) : CoreResult RowId :=
  let? raw := map_err (fun _ => InvalidId s) (parse_u64 (strip_prefix_or "R" s)) in
  Ok (mkRowId raw).

(** ** Row positions *)

(** [RowId.0] to (batch index, row offset). *)
Record RowPositionMap := mkRPM { rpm_entries : gmap Z (Z * Z) }.

Definition rpm_new : RowPositionMap := mkRPM ∅.
Definition rpm_insert (m : RowPositionMap) (r : RowId) (batch off : Z) : RowPositionMap :=
  mkRPM (<[row_id_as_u64 r := (batch, off)]> (rpm_entries m)).
Definition rpm_remove (m : RowPositionMap) (r : RowId) : RowPositionMap * option (Z * Z) :=
  (mkRPM (delete (row_id_as_u64 r) (rpm_entries m)), rpm_entries m !! row_id_as_u64 r).
Definition rpm_position_of (m : RowPositionMap) (r : RowId) : option (Z * Z) :=
  rpm_entries m !! row_id_as_u64 r.
Definition rpm_contains (m : RowPositionMap) (r : RowId) : bool :=
  bool_decide (is_Some (rpm_entries m !! row_id_as_u64 r)).
Definition rpm_len (m : RowPositionMap) : nat := size (rpm_entries m).
Definition rpm_is_empty (m : RowPositionMap) : bool := bool_decide (rpm_entries m = ∅).
Definition rpm_clear (m : RowPositionMap) : RowPositionMap := mkRPM ∅.

(** ** Diffs *)

Inductive Diff (V : Type) :=
| Update (table : string) (row : RowId) (column : string) (value : V)
| Insert (table : string) (row : RowId) (values : gmap string V)
| Delete (table : string) (row : RowId)
| ReplaceTable (table : string) (rows : list (gmap string V)).
Arguments Update {V} table row column value.
Arguments Insert {V} table row values.
Arguments Delete {V} table row.
Arguments ReplaceTable {V} table rows.

#[export] Instance Diff_eq_dec {V} `{EqDecision V} : EqDecision (Diff V).
Proof. solve_decision. Defined.

Definition diff_table {V} (d : Diff V) : string :=
  match d with
  | Update t _ _ _ | Insert t _ _ | Delete t _ | ReplaceTable t _ => t
  end.

Definition diff_row_id {V} (d : Diff V) : option RowId :=
  match d with
  | Update _ r _ _ | Insert _ r _ | Delete _ r => Some r
  | ReplaceTable _ _ => None
  end.

Record DiffBatch (V : Type) := mkDiffBatch { batch_source : string; batch_diffs : list (Diff V) }.
Arguments mkDiffBatch {V} batch_source batch_diffs.
Arguments batch_source {V} _.
Arguments batch_diffs {V} _.

Definition batch_new {V} (source : string) : DiffBatch V := mkDiffBatch source [].
Definition batch_push {V} (b : DiffBatch V) (d : Diff V) : DiffBatch V :=
  mkDiffBatch (batch_source b) (batch_diffs b ++ [d]).

(** ** Lifecycle guard *)

Inductive Lifecycle := Initialization | Simulation.

#[export] Instance Lifecycle_eq_dec : EqDecision Lifecycle.
Proof. solve_decision. Defined.

Definition lifecycle_is_initialization (l : Lifecycle) : bool :=
  match l with Initialization => true | Simulation => false end.
Definition lifecycle_is_simulation (l : Lifecycle) : bool :=
  match l with Simulation => true | Initialization => false end.

Record LifecycleGuard := mkGuard { guard_lifecycle : Lifecycle }.
Definition guard_new : LifecycleGuard := mkGuard Initialization.
Definition guard_advance_to_simulation (g : LifecycleGuard) : CoreResult LifecycleGuard :=
  if lifecycle_is_simulation (guard_lifecycle g)
  then Err (InvalidPhase "already in Simulation phase, cannot advance again")
  else Ok (mkGuard Simulation).

(** ** State tiers *)

Inductive StateTier := Authority | Derived | Ephemeral.

#[export] Instance StateTier_eq_dec : EqDecision StateTier.
Proof. solve_decision. Defined.

Record TierMetadata := mkTierMetadata {
  tm_tier : StateTier; tm_owner_subsystem : string; tm_description : string }.

Record TierRegistry := mkTierRegistry { tier_entries : gmap string TierMetadata }.

Definition tier_name (t : StateTier) : string :=
  match t with Authority => "Authority" | Derived => "Derived" | Ephemeral => "Ephemeral" end.

Definition tier_new : TierRegistry := mkTierRegistry ∅.
Definition tier_register (r : TierRegistry) (name : string) (tier : StateTier)
    (owner desc : string) : CoreResult TierRegistry :=
  match tier_entries r !! name with
  | Some existing =>
      Err (DuplicateRegistration
        ("table '" +:+ name +:+ "' already registered as " +:+ tier_name (tm_tier existing)))
  | None => Ok (mkTierRegistry (<[name := mkTierMetadata tier owner desc]> (tier_entries r)))
  end.
Definition tier_get (r : TierRegistry) (name : string) : option TierMetadata :=
  tier_entries r !! name.
Definition tier_is_authority (r : TierRegistry) (name : string) : bool :=
  match tier_entries r !! name with
  | Some m => bool_decide (tm_tier m = Authority)
  | None => false
  end.
Definition tier_authority_tables (r : TierRegistry) : list string :=
  omap (fun '(name, m) => if bool_decide (tm_tier m = Authority) then Some name else None)
       (map_to_list (tier_entries r)).

(** ** Facts *)

Lemma tick_next_spec t :
  tick_as_u64 (tick_next t) = Z.min (u64_max - 1) (tick_as_u64 t + 1).
Proof. unfold tick_next, tick_MAX. simpl. case_match; simpl; lia. Qed.

Lemma tick_next_wf t : tick_wf t -> tick_wf (tick_next t).
Proof. unfold tick_wf. rewrite tick_next_spec. unfold_width. lia. Qed.

#[export] Hint Resolve tick_next_wf : engine.

(** A tick of the simulation advances strictly and never reaches the sentinel
    [u64::MAX]; past the last tick it stays there, and [prev] undoes [next]. *)
Theorem tick_next_bounds (t : Tick) :
  tick_wf t ->
  tick_next t <> mkTick u64_max
  /\ (tick_as_u64 t < u64_max - 1 ->
      tick_as_u64 t < tick_as_u64 (tick_next t) /\ tick_prev (tick_next t) = Some t)
  /\ (u64_max - 1 <= tick_as_u64 t -> tick_next t = tick_MAX).
Proof.
  destruct t as [n]. unfold tick_wf. intros Hn. split; [|split].
  - intros E. apply (f_equal tick_as_u64) in E. rewrite tick_next_spec in E.
    simpl in *. unfold_width. lia.
  - simpl. intros Hlt. split; [rewrite tick_next_spec; simpl; lia|].
    unfold tick_prev. rewrite tick_next_spec. simpl. unfold checked_u64.
    rewrite checked_in by (simpl in *; unfold_width; lia). simpl. do 2 f_equal. lia.
  - simpl. intros Hge. unfold tick_next. simpl. by rewrite (proj2 (Z.leb_le _ _)) by lia.
Qed.

Lemma tick_next_bounds_witness : tick_next (mkTick u64_max) <> mkTick u64_max.
Proof. apply (tick_next_bounds (mkTick u64_max)). by_eval. Defined.

(** Display and FromStr of identifiers are inverse; the prefix is optional. *)
Theorem id_display_roundtrip (n : Z) :
  u64 n ->
  row_id_from_str (row_id_display (mkRowId n)) = Ok (mkRowId n)
  /\ table_id_from_str (table_id_display (mkTableId n)) = Ok (mkTableId n)
  /\ row_id_from_str (show_u64 n) = Ok (mkRowId n)
  /\ table_id_from_str (show_u64 n) = Ok (mkTableId n).
Proof.
  intros Hn. unfold row_id_from_str, table_id_from_str, row_id_display, table_id_display.
  destruct (show_digits_cons 19 n) as (d & s & Hd & E); [unfold_width; lia|].
  assert (Hp : forall c, to_digit c = None -> strip_prefix_or c (show_u64 n) = show_u64 n).
  { intros c Hc. unfold show_u64. rewrite E. simpl.
    rewrite bool_decide_eq_false_2; [done|]. intros ->. by apply (digit_char_not d _ Hd Hc). }
  rewrite !Hp by reflexivity. simpl.
  change ("" +:+ show_u64 n) with (show_u64 n). rewrite (parse_show_u64 n) by done.
  by repeat split.
Qed.

Lemma id_display_roundtrip_witness :
  row_id_display (mkRowId 1805) = "R1805"
  /\ row_id_from_str (row_id_display (mkRowId 1805)) = Ok (mkRowId 1805).
Proof. split; [by_eval|]. apply (id_display_roundtrip 1805). by_eval. Defined.
