(* ===== verification/FixedPoint.v ===== *)
(** * FixedPoint: the decimal fixed-point arithmetic of [fixed_point.rs]

    A [FixedPoint] is a 64-bit [raw] and a 32-bit [scale]; its value is
    [raw / 10^scale]. The conversions from and to [f64] are in [Float64.v]. *)

From Stdlib Require Import Ascii String.
From stdpp Require Import base gmap strings list.
From Stdlib Require Import ZArith Lia.
From S2P Require Import Prelude RustStr CoreTypes.

(** ** The type and its operations *)

Record FixedPoint := fp_new { fp_raw : Z; fp_scale : Z }.

#[export] Instance FixedPoint_eq_dec : EqDecision FixedPoint.
Proof. solve_decision. Defined.

Definition fp_wf (a : FixedPoint) : Prop := i64 (fp_raw a) /\ u32 (fp_scale a).

(** [10_i64.checked_pow(e)] and [10_i128.checked_pow(e)] *)
Definition checked_pow10_i64 (e : Z) : option Z := checked_i64 (10 ^ e).
Definition checked_pow10_i128 (e : Z) : option Z := checked_i128 (10 ^ e).

(** [a.checked_div(b)]: truncating; [None] for a zero divisor or [MIN / -1]. *)
Definition checked_div_i64 (a b : Z) : option Z :=
  if b =? 0 then None else checked_i64 (Z.quot a b).

Definition fp_from_i64 (value scale : Z) : CoreResult FixedPoint :=
  let? factor := ok_or (checked_pow10_i64 scale) ArithmeticOverflow in
  let? raw := ok_or (checked_i64 (value * factor)) ArithmeticOverflow in
  Ok (fp_new raw scale).

Definition fp_rescale (a : FixedPoint) (new_scale : Z) : CoreResult FixedPoint :=
  match new_scale ?= fp_scale a with
  | Eq => Ok a
  | Gt =>
      let delta := new_scale - fp_scale a in
      let? factor := ok_or (checked_pow10_i64 delta) ArithmeticOverflow in
      let? raw := ok_or (checked_i64 (fp_raw a * factor)) ArithmeticOverflow in
      Ok (fp_new raw new_scale)
  | Lt =>
      let delta := fp_scale a - new_scale in
      let? factor := ok_or (checked_pow10_i64 delta) ArithmeticOverflow in
      let? raw := ok_or (checked_div_i64 (fp_raw a) factor) ArithmeticOverflow in
      let remainder := Z.rem (fp_raw a) factor in
      let needs_round :=
        (Z.abs factor <? Z.abs remainder * 2)
        || ((Z.abs remainder * 2 =? Z.abs factor) && negb (Z.rem raw 2 =? 0)) in
      let adjusted :=
        if needs_round then
          if 0 <=? fp_raw a then checked_i64 (raw + 1) else checked_i64 (raw - 1)
        else Some raw in
      let? adjusted := ok_or adjusted ArithmeticOverflow in
      Ok (fp_new adjusted new_scale)
  end.

Definition fp_ensure_same_scale (lhs rhs : FixedPoint) : CoreResult unit :=
  if fp_scale lhs =? fp_scale rhs then Ok tt
  else Err (InvalidFixedPointScale (fp_scale lhs) (fp_scale rhs)).

Definition fp_cmp_normalized (x y : FixedPoint) : option comparison :=
  let a := fp_raw x in
  let b := fp_raw y in
  if fp_scale x =? fp_scale y then Some (a ?= b)
  else if fp_scale x <? fp_scale y then
    let delta := fp_scale y - fp_scale x in
    match checked_pow10_i128 delta with
    | Some pow =>
        match checked_i128 (a * pow) with
        | Some a_scaled => Some (a_scaled ?= b)
        | None => None
        end
    | None => Some (match a ?= 0 with Gt => Gt | Lt => Lt | Eq => 0 ?= b end)
    end
  else
    let delta := fp_scale x - fp_scale y in
    match checked_pow10_i128 delta with
    | Some pow =>
        match checked_i128 (b * pow) with
        | Some b_scaled => Some (a ?= b_scaled)
        | None => None
        end
    | None => Some (match b ?= 0 with Gt => Lt | Lt => Gt | Eq => a ?= 0 end)
    end.

(** The loop divides a nonzero [raw], so 19 rounds exhaust an [i64]. *)
Fixpoint fp_canonical_loop (fuel : nat) (raw scale : Z) : Z * Z :=
  match fuel with
  | O => (raw, scale)
  | S f =>
      if negb (raw =? 0) && (Z.rem raw 10 =? 0) && (0 <? scale)
      then fp_canonical_loop f (Z.quot raw 10) (scale - 1)
      else (raw, scale)
  end.
Definition fp_canonical_form (a : FixedPoint) : Z * Z :=
  fp_canonical_loop 20 (fp_raw a) (fp_scale a).

(** [PartialEq] and [Ord]; [Hash] feeds the hasher the canonical form. *)
Definition fp_eq (a b : FixedPoint) : bool :=
  match fp_cmp_normalized a b with Some Eq => true | _ => false end.
Definition fp_cmp (a b : FixedPoint) : comparison :=
  match fp_cmp_normalized a b with Some c => c | None => Eq end.
Definition fp_partial_cmp (a b : FixedPoint) : option comparison := Some (fp_cmp a b).
Definition fp_hash_input (a : FixedPoint) : Z * Z := fp_canonical_form a.

Definition fp_add (a b : FixedPoint) : CoreResult FixedPoint :=
  let? _ := fp_ensure_same_scale a b in
  let? raw := ok_or (checked_i64 (fp_raw a + fp_raw b)) ArithmeticOverflow in
  Ok (fp_new raw (fp_scale a)).

Definition fp_sub (a b : FixedPoint) : CoreResult FixedPoint :=
  let? _ := fp_ensure_same_scale a b in
  let? raw := ok_or (checked_i64 (fp_raw a - fp_raw b)) ArithmeticOverflow in
  Ok (fp_new raw (fp_scale a)).

Definition fp_mul (a b : FixedPoint) : CoreResult FixedPoint :=
  let? _ := fp_ensure_same_scale a b in
  let? product := ok_or (checked_i64 (fp_raw a * fp_raw b)) ArithmeticOverflow in
  let? factor := ok_or (checked_pow10_i64 (fp_scale a)) ArithmeticOverflow in
  let? raw := ok_or (checked_div_i64 product factor) ArithmeticOverflow in
  Ok (fp_new raw (fp_scale a)).

Definition fp_div (a b : FixedPoint) : CoreResult FixedPoint :=
  let? _ := fp_ensure_same_scale a b in
  if fp_raw b =? 0 then Err DivisionByZero
  else
    let? factor := ok_or (checked_pow10_i64 (fp_scale a)) ArithmeticOverflow in
    let? scaled := ok_or (checked_i64 (fp_raw a * factor)) ArithmeticOverflow in
    let? raw := ok_or (checked_div_i64 scaled (fp_raw b)) ArithmeticOverflow in
    Ok (fp_new raw (fp_scale a)).

Definition fp_neg (a : FixedPoint) : CoreResult FixedPoint :=
  let? raw := ok_or (checked_i64 (- fp_raw a)) ArithmeticOverflow in
  Ok (fp_new raw (fp_scale a)).

(** *** Parsing *)

Definition is_dot (c : ascii) : bool := bool_decide (c = "."%char).
Fixpoint count_dots (s : string) : nat :=
  match s with
  | EmptyString => O
  | String c r => if is_dot c then S (count_dots r) else count_dots r
  end.
Fixpoint after_dot (s : string) : option string :=
  match s with
  | EmptyString => None
  | String c r => if is_dot c then Some r else after_dot r
  end.
Fixpoint remove_dots (s : string) : string :=
  match s with
  | EmptyString => EmptyString
  | String c r => if is_dot c then remove_dots r else String c (remove_dots r)
  end.

Definition fp_from_str (s0 : string) : CoreResult FixedPoint :=
  let s := trim s0 in
  if (1 <? count_dots s)%nat
  then Err (InvalidFormat ("multiple decimal points in '" +:+ s +:+ "'"))
  else
    let scale :=
      match after_dot s with
      | Some frac => Z.of_nat (String.length frac) mod (u32_max + 1)
      | None => 0
      end in
    let? raw := map_err (fun k =>
      match k with
      | PosOverflow | NegOverflow => ArithmeticOverflow
      | _ => InvalidFormat ("cannot parse as number: '" +:+ s +:+ "'")
      end) (parse_i64 (remove_dots s)) in
    Ok (fp_new raw scale).

(** ** Abstract reading: the rational value

    Two numbers are compared by cross-multiplication; [round_half_even n d]
    is the integer nearest to [n/d], the even one of two. *)

Definition fp_value_compare (a b : FixedPoint) : comparison :=
  fp_raw a * 10 ^ fp_scale b ?= fp_raw b * 10 ^ fp_scale a.

Definition round_half_even (n d : Z) : Z :=
  let q := n / d in
  match 2 * (n mod d) ?= d with
  | Lt => q
  | Gt => q + 1
  | Eq => if Z.even q then q else q + 1
  end.

(** ** Powers of ten *)

Lemma pow10_pos e : 0 <= e -> 0 < 10 ^ e.
Proof. intros. by apply Z.pow_pos_nonneg. Qed.

Lemma pow10_mono a b : 0 <= a <= b -> 10 ^ a <= 10 ^ b.
Proof. intros. apply Z.pow_le_mono_r; lia. Qed.

Lemma pow10_split a b : 0 <= b <= a -> 10 ^ a = 10 ^ (a - b) * 10 ^ b.
Proof. intros. rewrite <- Z.pow_add_r by lia. f_equal. lia. Qed.

Lemma checked_pow10_i64_spec e :
  0 <= e -> checked_pow10_i64 e = if e <=? 18 then Some (10 ^ e) else None.
Proof.
  intros He. unfold checked_pow10_i64, checked_i64. pose proof (pow10_pos e He).
  destruct (Z.leb_spec e 18).
  - apply checked_in. pose proof (pow10_mono e 18). unfold_width. lia.
  - apply checked_out. pose proof (pow10_mono 19 e). unfold_width. lia.
Qed.

Lemma checked_pow10_i128_spec e :
  0 <= e -> checked_pow10_i128 e = if e <=? 38 then Some (10 ^ e) else None.
Proof.
  intros He. unfold checked_pow10_i128, checked_i128. pose proof (pow10_pos e He).
  destruct (Z.leb_spec e 38).
  - apply checked_in. pose proof (pow10_mono e 38). unfold_width. lia.
  - apply checked_out. pose proof (pow10_mono 39 e). unfold_width. lia.
Qed.

(** ** Rescaling *)

(** The code's rounding of a truncated quotient: half away when past the half,
    to even on the half. *)
Definition code_round (n d : Z) : Z :=
  let q := Z.quot n d in
  let r := Z.rem n d in
  if (Z.abs d <? Z.abs r * 2) || ((Z.abs r * 2 =? Z.abs d) && negb (Z.rem q 2 =? 0))
  then (if 0 <=? n then q + 1 else q - 1) else q.

Lemma rem2_even q : (Z.rem q 2 =? 0) = Z.even q.
Proof.
  destruct (Z.even q) eqn:E.
  - apply Z.even_spec in E as [k ->]. rewrite Z.mul_comm, Z.rem_mul by lia. done.
  - apply Z.eqb_neq. intros Hr. apply Z.rem_divide in Hr as [k ->]; [|lia].
    by rewrite Z.even_mul, Bool.orb_true_r in E.
Qed.

Lemma quot_rem_nonneg n d : 0 <= n -> 0 < d -> Z.quot n d = n / d /\ Z.rem n d = n mod d.
Proof. intros. split; [apply Z.quot_div_nonneg | apply Z.rem_mod_nonneg]; lia. Qed.

Lemma code_round_half_even n d : 0 < d -> code_round n d = round_half_even n d.
Proof.
  intros Hd. unfold code_round, round_half_even. rewrite rem2_even, (Z.abs_eq d) by lia.
  destruct (Z.leb_spec 0 n) as [Hn|Hn].
  - destruct (quot_rem_nonneg n d) as [-> ->]; [lia..|].
    pose proof (Z.mod_pos_bound n d). rewrite Z.abs_eq by lia.
    destruct (Z.compare_spec (2 * (n mod d)) d), (Z.ltb_spec d (n mod d * 2)),
      (Z.eqb_spec (n mod d * 2) d), (Z.even (n / d)); simpl; lia.
  - destruct (quot_rem_nonneg (- n) d) as [Hq Hr]; [lia..|].
    rewrite Z.quot_opp_l in Hq by lia. rewrite Z.rem_opp_l in Hr by lia.
    pose proof (Z.mod_pos_bound (- n) d). pose proof (Z.mod_pos_bound n d).
    assert (Hdm : n = d * (n / d) + n mod d) by (apply Z.div_mod; lia).
    assert (Hdm' : - n = d * (- n / d) + - n mod d) by (apply Z.div_mod; lia).
    assert (Hcase : - n mod d = 0 /\ n mod d = 0 /\ n / d = - (- n / d)
                    \/ 0 < - n mod d /\ n mod d = d - - n mod d /\ n / d = - (- n / d) - 1).
    { destruct (Z.eq_dec (- n mod d) 0) as [E|E].
      - left. assert (n mod d = 0) by (apply Z.mod_opp_l_z in E; [rewrite Z.opp_involutive in E|]; lia).
        split_and!; [done..|]. nia.
      - right. assert (n mod d = d - - n mod d).
        { rewrite <- (Z.opp_involutive n) at 1. apply Z.mod_opp_l_nz; lia. }
        split_and!; [lia..|]. nia. }
    assert (Hev : Z.even (n ÷ d) = Z.even (- n / d)).
    { replace (n ÷ d) with (- (- n / d)) by lia. apply Z.even_opp. }
    rewrite Hev. replace (Z.abs (Z.rem n d)) with (- n mod d) by lia.
    replace (n ÷ d) with (- (- n / d)) by lia.
    assert (Hev2 : Z.even (- (- n / d) - 1) = negb (Z.even (- n / d))).
    { rewrite Z.sub_1_r, Z.even_pred, <- Z.negb_even, Z.even_opp. done. }
    destruct Hcase as [(E1 & E2 & E3) | (E1 & E2 & E3)]; rewrite E2, E3.
    + rewrite E1. destruct (Z.compare_spec (2 * 0) d), (Z.ltb_spec d (0 * 2)),
        (Z.eqb_spec (0 * 2) d); simpl; lia.
    + rewrite Hev2.
      destruct (Z.compare_spec (2 * (d - - n mod d)) d), (Z.ltb_spec d (- n mod d * 2)),
        (Z.eqb_spec (- n mod d * 2) d), (Z.even (- n / d)); simpl; lia.
Qed.

(** The rounded quotient is nearest, and even on a tie. *)
Lemma round_half_even_nearest n d :
  0 < d ->
  2 * Z.abs (round_half_even n d * d - n) <= d
  /\ (2 * Z.abs (round_half_even n d * d - n) = d -> Z.even (round_half_even n d) = true).
Proof.
  intros Hd. unfold round_half_even.
  pose proof (Z.mod_pos_bound n d). assert (Hdm : n = d * (n / d) + n mod d) by (apply Z.div_mod; lia).
  assert (H0 : n / d * d - n = - (n mod d)) by lia.
  assert (H1 : (n / d + 1) * d - n = d - n mod d) by lia.
  destruct (Z.compare_spec (2 * (n mod d)) d); [destruct (Z.even (n / d)) eqn:E|..];
    rewrite ?H0, ?H1; (split; [lia|]); intros; try lia; try done.
  by rewrite Z.add_1_r, Z.even_succ, <- Z.negb_even, E.
Qed.

Lemma round_half_even_range n d : 2 <= d -> i64 n -> i64 (round_half_even n d).
Proof.
  intros Hd. unfold i64, i64_min, i64_max. intros Hn.
  pose proof (round_half_even_nearest n d) as [H _]; [lia|].
  set (q := round_half_even n d) in *. nia.
Qed.

Lemma checked_div_i64_pow n d : 2 <= d -> i64 n -> checked_div_i64 n d = Some (Z.quot n d).
Proof.
  intros Hd Hn. unfold checked_div_i64. destruct (Z.eqb_spec d 0); [lia|].
  apply checked_in. unfold i64 in Hn. unfold_width.
  assert (Hb : forall m, 0 <= m -> 0 <= m / d <= m).
  { intros m Hm. split; [apply Z.div_pos; lia | apply Z.div_le_upper_bound; nia]. }
  destruct (Z.le_gt_cases 0 n).
  - destruct (quot_rem_nonneg n d) as [-> _]; [lia..|]. pose proof (Hb n). lia.
  - destruct (quot_rem_nonneg (- n) d) as [Hq _]; [lia..|].
    rewrite Z.quot_opp_l in Hq by lia. pose proof (Hb (- n)). lia.
Qed.

(** [rescale] as a function of the exact value, on every branch. *)
Lemma fp_rescale_spec a n :
  fp_wf a -> 0 <= n ->
  fp_rescale a n =
    if n =? fp_scale a then Ok a
    else if 18 <? Z.abs (n - fp_scale a) then Err ArithmeticOverflow
    else if fp_scale a <? n then
      let? raw := ok_or (checked_i64 (fp_raw a * 10 ^ (n - fp_scale a))) ArithmeticOverflow in
      Ok (fp_new raw n)
    else Ok (fp_new (round_half_even (fp_raw a) (10 ^ (fp_scale a - n))) n).
Proof.
  intros [Hr Hs] Hn. unfold fp_rescale. destruct (Z.compare_spec n (fp_scale a)) as [E|E|E].
  - by rewrite (proj2 (Z.eqb_eq _ _) E).
  - destruct (Z.eqb_spec n (fp_scale a)); [lia|].
    rewrite checked_pow10_i64_spec by lia.
    destruct (Z.ltb_spec 18 (Z.abs (n - fp_scale a))), (Z.leb_spec (fp_scale a - n) 18); try lia; [done|].
    destruct (Z.ltb_spec (fp_scale a) n); [lia|]. simpl.
    set (d := 10 ^ (fp_scale a - n)).
    assert (Hd : 2 <= d) by (pose proof (pow10_mono 1 (fp_scale a - n)); lia).
    rewrite checked_div_i64_pow by done. simpl.
    pose proof (round_half_even_range (fp_raw a) d Hd Hr) as Hrange.
    rewrite <- code_round_half_even in * by lia. unfold code_round in *.
    destruct (_ || _); [|done].
    destruct (0 <=? fp_raw a); unfold checked_i64; by rewrite checked_in.
  - destruct (Z.eqb_spec n (fp_scale a)); [lia|].
    rewrite checked_pow10_i64_spec by lia.
    destruct (Z.ltb_spec 18 (Z.abs (n - fp_scale a))), (Z.leb_spec (n - fp_scale a) 18); try lia; [done|].
    destruct (Z.ltb_spec (fp_scale a) n); [done|lia].
Qed.

Lemma fp_rescale_wf a n b : fp_wf a -> u32 n -> fp_rescale a n = Ok b -> fp_wf b.
Proof.
  intros Ha Hn H. rewrite fp_rescale_spec in H by (done || unfold_width; lia).
  destruct (Z.eqb_spec n (fp_scale a)); [by simplify_eq|].
  destruct (18 <? _) eqn:E18; [done|]. apply Z.ltb_ge in E18.
  destruct (Z.ltb_spec (fp_scale a) n).
  - destruct (checked_i64 _) eqn:Ec; simplify_eq/=. apply checked_Some in Ec as [-> ?]. by split.
  - simplify_eq/=. split; [|done]. apply round_half_even_range; [|by destruct Ha].
    pose proof (pow10_mono 1 (fp_scale a - n)). lia.
Qed.
#[export] Hint Resolve fp_rescale_wf : engine.

(** C37: Rescaling to fewer decimals is banker's rounding: it overflows only past 18
    dropped decimals, and otherwise the result is the nearest representable value
    at the new scale, the even one of two equally near; no intermediate product of
    the code leaves the 64-bit range. *)
Theorem rescale_down_half_even (a : FixedPoint) (n : Z) :
  fp_wf a -> 0 <= n < fp_scale a ->
  let d := 10 ^ (fp_scale a - n) in
  if 18 <? fp_scale a - n then fp_rescale a n = Err ArithmeticOverflow
  else exists q,
    fp_rescale a n = Ok (fp_new q n) /\ i64 q
    /\ 2 * Z.abs (q * d - fp_raw a) <= d
    /\ (2 * Z.abs (q * d - fp_raw a) = d -> Z.even q = true)
    /\ i64 (Z.abs (Z.rem (fp_raw a) d) * 2).
Proof.
  intros Ha Hn d. rewrite fp_rescale_spec by (done || lia).
  destruct (Z.eqb_spec n (fp_scale a)); [lia|]. rewrite Z.abs_neq, Z.opp_sub_distr by lia.
  replace (- n + fp_scale a) with (fp_scale a - n) by lia.
  destruct (Z.ltb_spec 18 (fp_scale a - n)); [done|].
  destruct (Z.ltb_spec (fp_scale a) n); [lia|].
  assert (Hd : 2 <= d <= 10 ^ 18).
  { pose proof (pow10_mono 1 (fp_scale a - n)). pose proof (pow10_mono (fp_scale a - n) 18). lia. }
  destruct (round_half_even_nearest (fp_raw a) d) as [Hnear Heven]; [lia|].
  eexists. split; [done|]. split; [apply round_half_even_range; [lia | by destruct Ha]|].
  split; [done|]. split; [done|].
  pose proof (Z.rem_bound_abs (fp_raw a) d). unfold_width. lia.
Qed.

Lemma rescale_down_half_even_witness :
  exists q, fp_rescale (fp_new (-35) 1) 0 = Ok (fp_new q 0) /\ 2 * Z.abs (q * 10 - (-35)) <= 10
            /\ Z.even q = true.
Proof.
  destruct (rescale_down_half_even (fp_new (-35) 1) 0 ltac:(by_eval) ltac:(by_eval))
    as (q & Hq & _ & Hn & He & _).
  exists q. split; [exact Hq|]. split; [exact Hn|].
  apply He. revert Hq. vm_compute. intros [= <-]. reflexivity.
Defined.

(** Rescaling to more decimals and back is the identity. *)
Theorem rescale_up_down (a b : FixedPoint) (n : Z) :
  fp_wf a -> fp_scale a <= n -> u32 n ->
  fp_rescale a n = Ok b -> fp_rescale b (fp_scale a) = Ok a.
Proof.
  intros Ha Hn Hu H. pose proof (fp_rescale_wf _ _ _ Ha Hu H) as Hb.
  assert (0 <= fp_scale a) by (destruct Ha; unfold u32 in *; lia).
  rewrite fp_rescale_spec in H by (done || lia).
  destruct (Z.eqb_spec n (fp_scale a)) as [->|Hne].
  { simplify_eq. rewrite fp_rescale_spec by (done || lia). by rewrite Z.eqb_refl. }
  destruct (Z.ltb_spec 18 (Z.abs (n - fp_scale a))); [done|].
  destruct (Z.ltb_spec (fp_scale a) n); [|lia].
  destruct (checked_i64 _) eqn:Ec; simplify_eq/=. apply checked_Some in Ec as [-> ?].
  rewrite fp_rescale_spec by (done || lia). simpl.
  destruct (Z.eqb_spec (fp_scale a) n); [lia|].
  destruct (Z.ltb_spec 18 (Z.abs (fp_scale a - n))); [lia|].
  destruct (Z.ltb_spec n (fp_scale a)); [lia|].
  pose proof (pow10_pos (n - fp_scale a)).
  unfold round_half_even. rewrite Z.div_mul, Z.mod_mul by lia.
  destruct (Z.compare_spec (2 * 0) (10 ^ (n - fp_scale a))); try lia. by destruct a.
Qed.

Lemma rescale_up_down_witness :
  fp_rescale (fp_new (-15) 1) 4 = Ok (fp_new (-15000) 4)
  /\ fp_rescale (fp_new (-15000) 4) 1 = Ok (fp_new (-15) 1).
Proof.
  split; [by_eval|].
  apply (rescale_up_down (fp_new (-15) 1) (fp_new (-15000) 4) 4); by_eval.
Defined.

(** ** Comparison *)

Lemma compare_mul_pos x y p : 0 < p -> (x * p ?= y * p) = (x ?= y).
Proof. intros. symmetry. by apply Zmult_compare_compat_r, Z.lt_gt. Qed.

Lemma fp_value_compare_le a b :
  0 <= fp_scale a <= fp_scale b ->
  fp_value_compare a b = (fp_raw a * 10 ^ (fp_scale b - fp_scale a) ?= fp_raw b).
Proof.
  intros H. unfold fp_value_compare.
  rewrite (pow10_split (fp_scale b) (fp_scale a)), Z.mul_assoc by lia. apply compare_mul_pos, pow10_pos. lia.
Qed.

Lemma fp_value_compare_ge a b :
  0 <= fp_scale b <= fp_scale a ->
  fp_value_compare a b = (fp_raw a ?= fp_raw b * 10 ^ (fp_scale a - fp_scale b)).
Proof.
  intros H. unfold fp_value_compare.
  rewrite (pow10_split (fp_scale a) (fp_scale b)), Z.mul_assoc by lia. apply compare_mul_pos, pow10_pos. lia.
Qed.

(** Where the scaled product leaves [i128], [cmp_normalized] gives no answer;
    everywhere else it gives the order of the two values. *)
Definition fp_cmp_overflows (a b : FixedPoint) : bool :=
  let d := fp_scale b - fp_scale a in
  (Z.abs d <=? 38) && negb (in_range i128_min i128_max (fp_raw (if 0 <=? d then a else b) * 10 ^ Z.abs d)).

Lemma big_pow_compare x y d :
  i64 y -> 39 <= d ->
  (x * 10 ^ d ?= y) = match x ?= 0 with Gt => Gt | Lt => Lt | Eq => 0 ?= y end.
Proof.
  unfold i64. intros Hy Hd. pose proof (pow10_mono 39 d). unfold_width.
  destruct (Z.compare_spec x 0) as [->|Hx|Hx]; [done|..].
  - apply Z.compare_lt_iff. nia.
  - apply Z.compare_gt_iff. nia.
Qed.

Lemma fp_cmp_normalized_spec a b :
  fp_wf a -> fp_wf b ->
  fp_cmp_normalized a b = if fp_cmp_overflows a b then None else Some (fp_value_compare a b).
Proof.
  intros [Ha Hsa] [Hb Hsb]. unfold fp_cmp_normalized, fp_cmp_overflows.
  unfold u32 in Hsa, Hsb.
  destruct (Z.eqb_spec (fp_scale a) (fp_scale b)) as [E|E].
  { rewrite <- E. rewrite fp_value_compare_le, E, Z.sub_diag, Z.mul_1_r by lia.
    simpl. rewrite Z.mul_1_r. unfold in_range. unfold i64 in *. unfold_width.
    destruct (Z.leb_spec (-170141183460469231731687303715884105728) (fp_raw a)); [|lia].
    destruct (Z.leb_spec (fp_raw a) 170141183460469231731687303715884105727); [done|lia]. }
  destruct (Z.ltb_spec (fp_scale a) (fp_scale b)).
  - rewrite fp_value_compare_le by lia. destruct (Z.leb_spec 0 (fp_scale b - fp_scale a)); [|lia].
    rewrite Z.abs_eq by lia. rewrite checked_pow10_i128_spec by lia.
    destruct (Z.leb_spec (fp_scale b - fp_scale a) 38); simpl.
    + unfold checked_i128, checked. by destruct (in_range _ _ _).
    + by rewrite big_pow_compare by (done || lia).
  - rewrite fp_value_compare_ge by lia. destruct (Z.leb_spec 0 (fp_scale b - fp_scale a)); [lia|].
    rewrite Z.abs_neq by lia. replace (- (fp_scale b - fp_scale a)) with (fp_scale a - fp_scale b) by lia.
    rewrite checked_pow10_i128_spec by lia.
    destruct (Z.leb_spec (fp_scale a - fp_scale b) 38); simpl.
    + unfold checked_i128, checked. by destruct (in_range _ _ _).
    + rewrite (Z.compare_antisym (_ * _) (fp_raw a)), big_pow_compare by (done || lia).
      rewrite (Z.compare_antisym 0 (fp_raw a)). by destruct (fp_raw b ?= 0), (0 ?= fp_raw a).
Qed.

(** The order is the order of the values when the scales differ by at most 19
    decimals or by 39 or more; equality then agrees with it. *)
Theorem fp_cmp_correct (a b : FixedPoint) :
  fp_wf a -> fp_wf b ->
  Z.abs (fp_scale a - fp_scale b) <= 19 \/ 39 <= Z.abs (fp_scale a - fp_scale b) ->
  fp_cmp a b = fp_value_compare a b
  /\ (fp_eq a b = true <-> fp_raw a * 10 ^ fp_scale b = fp_raw b * 10 ^ fp_scale a).
Proof.
  intros Ha Hb Hd.
  assert (Hno : fp_cmp_overflows a b = false).
  { unfold fp_cmp_overflows. destruct Hd as [Hd|Hd].
    - apply andb_false_intro2, negb_false_iff. unfold in_range.
      destruct Ha as [Ha _], Hb as [Hb _].
      assert (Hp : 1 <= 10 ^ Z.abs (fp_scale b - fp_scale a) <= 10 ^ 19).
      { pose proof (pow10_pos (Z.abs (fp_scale b - fp_scale a))).
        pose proof (pow10_mono (Z.abs (fp_scale b - fp_scale a)) 19). lia. }
      set (x := fp_raw (if _ : bool then a else b)).
      assert (i64 x) as Hx by (subst x; by case_match). unfold i64 in Hx. unfold_width.
      apply andb_true_intro. split; apply Z.leb_le; nia.
    - apply andb_false_intro1, Z.leb_gt. lia. }
  unfold fp_cmp, fp_eq. rewrite fp_cmp_normalized_spec, Hno by done. split; [done|].
  unfold fp_value_compare. rewrite <- Z.compare_eq_iff. by destruct (_ ?= _).
Qed.

Lemma fp_cmp_correct_witness :
  fp_cmp (fp_new 100 2) (fp_new 200 3) = fp_value_compare (fp_new 100 2) (fp_new 200 3).
Proof.
  apply (fp_cmp_correct (fp_new 100 2) (fp_new 200 3)); [by_eval | by_eval |].
  left. by_eval.
Defined.

(** Between 20 and 38 decimals apart the product can leave [i128], and the code
    answers [Equal]: at 38 decimals this happens for every [raw] but -1, 0, 1. The
    two numbers then compare as equal although [==] says they differ and one is
    larger than the other, so [Ord] disagrees with [PartialEq] and with the values. *)
Theorem fp_cmp_overflow_says_equal (a b : FixedPoint) :
  fp_wf a -> fp_wf b -> fp_scale b = fp_scale a + 38 -> 2 <= Z.abs (fp_raw a) ->
  fp_cmp a b = Eq /\ fp_eq a b = false /\ fp_value_compare a b <> Eq.
Proof.
  intros Ha Hb Hs Hr.
  assert (Hov : fp_cmp_overflows a b = true).
  { unfold fp_cmp_overflows. rewrite Hs. replace (fp_scale a + 38 - fp_scale a) with 38 by lia.
    change (10 ^ Z.abs 38) with 100000000000000000000000000000000000000.
    cbn [Z.abs Z.leb Z.compare andb]. unfold in_range. unfold_width.
    apply negb_true_iff, andb_false_iff. rewrite !Z.leb_gt. lia. }
  unfold fp_cmp, fp_eq. rewrite fp_cmp_normalized_spec, Hov by done.
  split; [done|]. split; [done|]. rewrite fp_value_compare_le by (destruct Ha; unfold u32 in *; lia).
  rewrite Z.compare_eq_iff, Hs. replace (fp_scale a + 38 - fp_scale a) with 38 by lia.
  destruct Hb as [Hb _]. unfold i64 in Hb. unfold_width. lia.
Qed.

Lemma fp_cmp_overflow_says_equal_witness :
  fp_cmp (fp_new 5 0) (fp_new 100 38) = Eq
  /\ fp_eq (fp_new 5 0) (fp_new 100 38) = false
  /\ fp_value_compare (fp_new 5 0) (fp_new 100 38) <> Eq.
Proof. apply (fp_cmp_overflow_says_equal (fp_new 5 0) (fp_new 100 38)); by_eval. Defined.

(** ** Hashing *)

(** The canonical form strips decimals until none is left or the last digit is
    not zero. *)
Definition canonical (raw scale r s : Z) : Prop :=
  exists k, 0 <= k /\ raw = r * 10 ^ k /\ s = scale - k /\ 0 <= s
    /\ (r = 0 -> k = 0) /\ (s = 0 \/ r = 0 \/ Z.rem r 10 <> 0).

Lemma canonical_loop_spec fuel raw scale :
  Z.abs raw < 10 ^ Z.of_nat fuel -> 0 <= scale ->
  canonical raw scale (fp_canonical_loop fuel raw scale).1 (fp_canonical_loop fuel raw scale).2.
Proof.
  revert raw scale. induction fuel as [|f IH]; intros raw scale Hr Hs; simpl.
  - exists 0. simpl in Hr. repeat split; lia.
  - destruct (Z.eqb_spec raw 0) as [E|E]; simpl.
    { exists 0. repeat split; lia. }
    destruct (Z.eqb_spec (Z.rem raw 10) 0) as [E10|E10]; simpl; [|exists 0; repeat split; lia].
    destruct (Z.ltb_spec 0 scale); simpl; [|exists 0; repeat split; lia].
    rewrite Nat2Z.inj_succ, Z.pow_succ_r in Hr by lia.
    pose proof (Z.quot_rem' raw 10) as Hq.
    destruct (IH (raw ÷ 10) (scale - 1)) as (k & Hk & Hraw & Hsc & Hs0 & Hz & Hend); [lia..|].
    set (r := (fp_canonical_loop f (raw ÷ 10) (scale - 1)).1) in *.
    assert (Hr0 : r <> 0) by (intros Hr0; rewrite Hr0 in Hraw; lia).
    exists (k + 1). rewrite Z.pow_add_r by lia. repeat split; lia.
Qed.

Lemma canonical_inj raw1 s1 raw2 s2 r1 t1 r2 t2 :
  canonical raw1 s1 r1 t1 -> canonical raw2 s2 r2 t2 -> raw1 <> 0 ->
  raw1 * 10 ^ s2 = raw2 * 10 ^ s1 -> (r1, t1) = (r2, t2).
Proof.
  intros (k1 & Hk1 & E1 & Et1 & Ht1 & _ & Hend1) (k2 & Hk2 & E2 & Et2 & Ht2 & _ & Hend2) Hne Heq.
  assert (Hx : r1 * 10 ^ t2 = r2 * 10 ^ t1).
  { subst raw1 raw2. replace s2 with (t2 + k2) in Heq by lia. replace s1 with (t1 + k1) in Heq by lia.
    rewrite !Z.pow_add_r in Heq by lia.
    pose proof (pow10_pos k1 Hk1). pose proof (pow10_pos k2 Hk2).
    apply (Z.mul_reg_r _ _ (10 ^ k1 * 10 ^ k2)); [nia|].
    transitivity (r1 * 10 ^ k1 * (10 ^ t2 * 10 ^ k2)); [ring | rewrite Heq; ring]. }
  assert (Hr1 : r1 <> 0) by (intros ->; by rewrite Z.mul_0_l in E1).
  assert (Hlt : forall x y s t, 0 <= s < t -> x <> 0 -> (t = 0 \/ y = 0 \/ Z.rem y 10 <> 0) ->
                 x * 10 ^ t = y * 10 ^ s -> False).
  { intros x y s t Hst Hx0 Hend Hxy. rewrite (pow10_split t s) in Hxy by lia.
    pose proof (pow10_pos s). rewrite Z.mul_assoc in Hxy. apply Z.mul_reg_r in Hxy; [|lia].
    rewrite (pow10_split (t - s) 1) in Hxy by lia.
    destruct Hend as [?|[->|Hend]]; [lia|pose proof (pow10_pos (t - s - 1)); nia|].
    apply Hend. rewrite <- Hxy, Z.mul_assoc. apply Z.rem_mul. lia. }
  assert (Hr2 : r2 <> 0) by (intros ->; pose proof (pow10_pos t2 Ht2); nia).
  destruct (Z.lt_trichotomy t1 t2) as [?|[Et|?]].
  - exfalso. apply (Hlt r1 r2 t1 t2); [lia | done | done | lia].
  - rewrite Et in Hx. pose proof (pow10_pos t2 Ht2). apply Z.mul_reg_r in Hx; [|lia]. by rewrite Hx, Et.
  - exfalso. apply (Hlt r2 r1 t2 t1); [lia | done | done | lia].
Qed.

Lemma fp_canonical_form_spec a :
  fp_wf a -> canonical (fp_raw a) (fp_scale a) (fp_canonical_form a).1 (fp_canonical_form a).2.
Proof.
  intros [Hr Hs]. apply canonical_loop_spec; [|unfold u32 in *; lia].
  unfold i64 in Hr. unfold_width. change (10 ^ Z.of_nat 20) with 100000000000000000000. lia.
Qed.

(** Equal nonzero numbers feed the hasher the same bytes; zero does not, at any two
    different scales: [0.00 == 0.000], yet their hashes are taken of different data,
    so the contract of [Hash] with [Eq] fails exactly at zero. *)
Theorem fp_hash_agrees_with_eq (a b : FixedPoint) :
  fp_wf a -> fp_wf b -> fp_eq a b = true ->
  (fp_raw a <> 0 -> fp_hash_input a = fp_hash_input b)
  /\ (fp_raw a = 0 -> fp_scale a <> fp_scale b -> fp_hash_input a <> fp_hash_input b).
Proof.
  intros Ha Hb Heq. unfold fp_eq in Heq. rewrite fp_cmp_normalized_spec in Heq by done.
  destruct (fp_cmp_overflows a b); [done|].
  destruct (fp_value_compare a b) eqn:E; try done. apply Z.compare_eq_iff in E.
  pose proof (fp_canonical_form_spec a Ha) as Ca. pose proof (fp_canonical_form_spec b Hb) as Cb.
  unfold fp_hash_input. split.
  - intros Hne. destruct (fp_canonical_form a) as [r1 t1], (fp_canonical_form b) as [r2 t2].
    by eapply canonical_inj.
  - intros H0 Hs Hh. rewrite H0, Z.mul_0_l in E. symmetry in E.
    destruct Ha as [_ Ha], Hb as [_ Hb]. unfold u32 in *.
    pose proof (pow10_pos (fp_scale a)).
    assert (Hb0 : fp_raw b = 0) by nia.
    unfold fp_canonical_form in Hh. rewrite H0, Hb0 in Hh. simpl in Hh. congruence.
Qed.

Lemma fp_hash_agrees_with_eq_witness :
  fp_hash_input (fp_new 150 2) = fp_hash_input (fp_new 15 1)
  /\ fp_hash_input (fp_new 0 2) <> fp_hash_input (fp_new 0 3).
Proof.
  split.
  - apply (fp_hash_agrees_with_eq (fp_new 150 2) (fp_new 15 1)); by_eval.
  - apply (fp_hash_agrees_with_eq (fp_new 0 2) (fp_new 0 3)); by_eval.
Defined.

(** ** Arithmetic *)

Lemma fp_ensure_same_scale_spec a b :
  fp_ensure_same_scale a b =
    if decide (fp_scale a = fp_scale b) then Ok tt
    else Err (InvalidFixedPointScale (fp_scale a) (fp_scale b)).
Proof. unfold fp_ensure_same_scale. case_decide; destruct (Z.eqb_spec (fp_scale a) (fp_scale b)); done. Qed.

Lemma ok_or_checked {A} lo hi z (k : Z -> CoreResult A) r :
  (let? x := ok_or (checked lo hi z) ArithmeticOverflow in k x) = r <->
  lo <= z <= hi /\ k z = r \/ ~ (lo <= z <= hi) /\ r = Err ArithmeticOverflow.
Proof.
  destruct (checked lo hi z) as [x|] eqn:E; simpl.
  - apply checked_Some in E as [-> ?]. naive_solver.
  - apply checked_None in E. split; [intros <-; right; split; [lia|done] | intros [[? _]|[_ ->]]; [lia|done]].
Qed.

Lemma fp_add_ok a b c :
  fp_add a b = Ok c ->
  fp_scale a = fp_scale b /\ i64 (fp_raw a + fp_raw b) /\ c = fp_new (fp_raw a + fp_raw b) (fp_scale a).
Proof.
  unfold fp_add. rewrite fp_ensure_same_scale_spec. unfold checked_i64.
  case_decide as Hs; [|done]. rewrite ok_or_checked. unfold i64. naive_solver.
Qed.

(** Sums and differences are exact or refused: never wrapped, never rounded. *)
Theorem fp_add_sub_exact (a b c : FixedPoint) :
  (fp_add a b = Ok c <->
     fp_scale a = fp_scale b /\ i64 (fp_raw a + fp_raw b) /\ c = fp_new (fp_raw a + fp_raw b) (fp_scale a))
  /\ (fp_sub a b = Ok c <->
     fp_scale a = fp_scale b /\ i64 (fp_raw a - fp_raw b) /\ c = fp_new (fp_raw a - fp_raw b) (fp_scale a))
  /\ (fp_scale a <> fp_scale b ->
        fp_add a b = Err (InvalidFixedPointScale (fp_scale a) (fp_scale b))
        /\ fp_sub a b = Err (InvalidFixedPointScale (fp_scale a) (fp_scale b))).
Proof.
  unfold fp_add, fp_sub. rewrite fp_ensure_same_scale_spec. unfold checked_i64.
  case_decide as Hs; [|naive_solver]. rewrite !ok_or_checked. unfold i64. naive_solver.
Qed.

(** A quotient is truncated toward zero at the operands' scale: it is within one
    unit of the exact one, and on its near side; the errors are exactly the scale
    mismatch, the zero divisor and the overflow of an intermediate value. *)
Theorem fp_div_truncates (a b c : FixedPoint) :
  fp_wf a -> fp_wf b -> fp_div a b = Ok c ->
  fp_scale c = fp_scale a /\ i64 (fp_raw c)
  /\ Z.abs (fp_raw a * 10 ^ fp_scale a - fp_raw c * fp_raw b) < Z.abs (fp_raw b)
  /\ Z.abs (fp_raw c * fp_raw b) <= Z.abs (fp_raw a * 10 ^ fp_scale a).
Proof.
  intros [Ha Hsa] Hb H. unfold fp_div in H. rewrite fp_ensure_same_scale_spec in H.
  case_decide; [|done]. destruct (Z.eqb_spec (fp_raw b) 0) as [|Hb0]; [done|].
  rewrite checked_pow10_i64_spec in H by (unfold u32 in *; lia).
  destruct (_ <=? 18); simpl in H; [|done].
  destruct (checked_i64 _) as [x|] eqn:Ex; simpl in H; [|done]. apply checked_Some in Ex as [-> Hx].
  unfold checked_div_i64 in H. destruct (Z.eqb_spec (fp_raw b) 0); [done|].
  destruct (checked_i64 _) as [q|] eqn:Eq; simplify_eq/=. apply checked_Some in Eq as [-> Hq].
  split; [done|]. split; [done|].
  set (N := fp_raw a * 10 ^ fp_scale a) in *. set (M := fp_raw b) in *.
  pose proof (Z.quot_rem' N M). pose proof (Z.rem_bound_abs N M Hb0).
  split; [lia|]. rewrite Z.mul_comm, Z.abs_mul, <- Z.quot_abs by done.
  apply Z.mul_quot_le; lia.
Qed.

Lemma fp_div_truncates_witness :
  fp_div (fp_new (-700) 2) (fp_new 300 2) = Ok (fp_new (-233) 2)
  /\ Z.abs (-700 * 10 ^ 2 - -233 * 300) < Z.abs 300.
Proof.
  split; [by_eval|].
  apply (fp_div_truncates (fp_new (-700) 2) (fp_new 300 2) (fp_new (-233) 2)); by_eval.
Defined.

(** ** Parsing *)

(** The decimal rendering of a number: sign, integer part, point, [scale] digits. *)
Definition fp_render (a : FixedPoint) : string :=
  let m := Z.abs (fp_raw a) in
  (if fp_raw a <? 0 then "-" else "") +:+
  (show_u64 (m / 10 ^ fp_scale a) +:+
   String "." (pad_digits (Z.to_nat (fp_scale a)) (m mod 10 ^ fp_scale a))).

Definition no_dot (c : ascii) : Prop := is_dot c = false.

Lemma no_dot_count s : str_forall no_dot s -> count_dots s = O /\ after_dot s = None /\ remove_dots s = s.
Proof.
  induction s as [|c s IH]; simpl; [done|]. intros [Hc Hs]. rewrite Hc.
  destruct (IH Hs) as (-> & -> & ->). done.
Qed.

Lemma dot_split s t :
  str_forall no_dot s -> str_forall no_dot t ->
  count_dots (s +:+ String "." t) = 1%nat
  /\ after_dot (s +:+ String "." t) = Some t
  /\ remove_dots (s +:+ String "." t) = s +:+ t.
Proof.
  intros Hs Ht. destruct (no_dot_count t Ht) as (E1 & E2 & E3).
  induction s as [|c s IH]; simpl.
  - by rewrite E1, E3.
  - destruct Hs as [Hc Hs]. rewrite Hc. destruct (IH Hs) as (-> & -> & ->). done.
Qed.

Lemma str_forall_weaken (P Q : ascii -> Prop) s :
  (forall c, P c -> Q c) -> str_forall P s -> str_forall Q s.
Proof. intros HPQ. induction s as [|c s IH]; simpl; naive_solver. Qed.

Lemma digit_cases c : is_digit c -> exists d, d ∈ [0;1;2;3;4;5;6;7;8;9] /\ c = digit_char d.
Proof. intros (d & Hd & ->). exists d. split; [rewrite !elem_of_cons; lia | done]. Qed.

Lemma digit_no_dot c : is_digit c -> no_dot c.
Proof.
  intros (d & Hd & ->)%digit_cases. rewrite !elem_of_cons, elem_of_nil in Hd.
  naive_solver.
Qed.

Lemma digit_plain c : is_digit c -> plain c.
Proof.
  intros (d & Hd & ->)%digit_cases. rewrite !elem_of_cons, elem_of_nil in Hd.
  repeat destruct Hd as [->|Hd]; try (split; [vm_compute; reflexivity | reflexivity]). done.
Qed.

Lemma parse_rendered lo hi sgn o q r k :
  sgn = 1 \/ sgn = -1 -> 0 <= q < 10 ^ 20 -> 0 <= r < 10 ^ Z.of_nat k ->
  lo <= 0 <= hi -> lo <= sgn * (q * 10 ^ Z.of_nat k + r) <= hi ->
  parse_digits lo hi sgn o 0 (show_u64 q +:+ pad_digits k r) = Ok (sgn * (q * 10 ^ Z.of_nat k + r)).
Proof.
  intros Hsgn Hq Hr H0 Hv. assert (Hp : 0 < 10 ^ Z.of_nat k) by (apply pow10_pos; lia).
  rewrite parse_digits_app. unfold show_u64.
  rewrite parse_show_digits by (done || (destruct Hsgn; subst sgn; nia)).
  rewrite parse_pad_digits by (done || (destruct Hsgn; subst sgn; nia)). f_equal. ring.
Qed.

Lemma parse_i64_render a :
  fp_wf a ->
  parse_i64 ((if fp_raw a <? 0 then "-" else "") +:+
             (show_u64 (Z.abs (fp_raw a) / 10 ^ fp_scale a) +:+
              pad_digits (Z.to_nat (fp_scale a)) (Z.abs (fp_raw a) mod 10 ^ fp_scale a)))
  = Ok (fp_raw a).
Proof.
  intros [Hr Hs]. unfold u32 in Hs. unfold i64 in Hr.
  set (p := 10 ^ fp_scale a). set (m := Z.abs (fp_raw a)).
  assert (Hp : 0 < p) by (apply pow10_pos; lia).
  assert (Hpk : 10 ^ Z.of_nat (Z.to_nat (fp_scale a)) = p) by (rewrite Z2Nat.id by lia; done).
  assert (Hdm : m = p * (m / p) + m mod p) by (apply Z.div_mod; lia).
  pose proof (Z.mod_pos_bound m p Hp). pose proof (Z.div_pos m p).
  assert (Hq : 0 <= m / p < 10 ^ 20).
  { split; [lia|]. apply Z.div_lt_upper_bound; [done|]. unfold_width. nia. }
  destruct (show_digits_cons 19 (m / p)) as (d & s & Hd & E); [lia|].
  unfold parse_i64. destruct (Z.ltb_spec (fp_raw a) 0).
  - change ("-" +:+ ?x) with (String "-" x).
    rewrite parse_int_minus by (unfold show_u64; by rewrite E).
    rewrite parse_rendered; rewrite ?Hpk; unfold_width; auto; try lia. f_equal. lia.
  - change ("" +:+ ?x) with x. unfold show_u64 at 1. rewrite E.
    change (String (digit_char d) s +:+ ?t) with (String (digit_char d) (s +:+ t)).
    rewrite parse_int_digit by done.
    change (String (digit_char d) (s +:+ ?t)) with (String (digit_char d) s +:+ t).
    rewrite <- E. fold (show_u64 (m / p)).
    rewrite parse_rendered; rewrite ?Hpk; unfold_width; auto; try lia. f_equal. lia.
Qed.

(** C40: Parsing the decimal rendering of a number, with any spaces around it, gives the
    number back, scale included. *)
Theorem fp_from_str_render (a : FixedPoint) (m n : nat) :
  fp_wf a -> fp_from_str (spaces m +:+ fp_render a +:+ spaces n) = Ok a.
Proof.
  intros Ha. unfold fp_from_str, fp_render.
  pose proof (parse_i64_render a Ha) as Hparse.
  assert (0 <= fp_scale a) by (destruct Ha; unfold u32 in *; lia).
  set (mag := Z.abs (fp_raw a)) in *. set (p := 10 ^ fp_scale a) in *.
  assert (Hp : 0 < p) by (by apply pow10_pos).
  set (sg := if fp_raw a <? 0 then "-" else "") in *.
  set (ip := show_u64 (mag / p)) in *.
  set (fr := pad_digits (Z.to_nat (fp_scale a)) (mag mod p)) in *.
  assert (Hip : str_forall is_digit ip) by (apply show_digits_digits, Z.div_pos; lia).
  assert (Hfr : str_forall is_digit fr) by apply pad_digits_digits.
  assert (Hsg : str_forall no_dot sg /\ str_forall plain sg).
  { subst sg. by case_match. }
  assert (Hnd : str_forall no_dot (sg +:+ ip) /\ str_forall no_dot fr).
  { rewrite str_forall_app. split_and!; [tauto | |]; eauto using str_forall_weaken, digit_no_dot. }
  replace (sg +:+ (ip +:+ String "." fr)) with ((sg +:+ ip) +:+ String "." fr)
    by apply str_app_assoc.
  rewrite trim_plain.
  - destruct (dot_split (sg +:+ ip) fr) as (-> & -> & ->); [tauto..|]. simpl Nat.ltb. cbv iota.
    replace ((sg +:+ ip) +:+ fr) with (sg +:+ (ip +:+ fr))
      by (symmetry; apply str_app_assoc).
    rewrite Hparse. simpl. subst fr. rewrite pad_digits_length, Z2Nat.id by done.
    rewrite Z.mod_small by (destruct Ha as [_ Hs]; unfold u32 in Hs; lia). by destruct a.
  - by destruct (sg +:+ ip).
  - rewrite str_forall_app. simpl. rewrite str_forall_app.
    assert (Hpl : forall s, str_forall is_digit s -> str_forall plain s)
      by eauto using str_forall_weaken, digit_plain.
    split_and!; [tauto | by apply Hpl | done | by apply Hpl].
Qed.

Lemma fp_from_str_render_witness :
  fp_render (fp_new (-5) 2) = "-0.05"
  /\ fp_from_str (spaces 2 +:+ fp_render (fp_new (-5) 2) +:+ spaces 1) = Ok (fp_new (-5) 2).
Proof. split; [by_eval|]. apply fp_from_str_render. by_eval. Defined.
