(* ===== verification/Rng.v ===== *)
(** * Rng: the deterministic random streams of [rng.rs]

    SplitMix64 over 64-bit words. A stream is seeded from the system's name and
    the tick. [usize] is 64 bits wide; [next_f64] is in [RngFloat.v]. *)

From Stdlib Require Import Ascii String.
From stdpp Require Import base gmap strings list.
From Stdlib Require Import ZArith Lia.
From S2P Require Import Prelude RustStr.

Record SplitMix64 := sm_new { sm_state : Z }.

Definition gamma : Z := 11400714819323198485.    (* 0x9e3779b97f4a7c15 *)
Definition mix_c1 : Z := 13787848793156543929.   (* 0xbf58476d1ce4e5b9 *)
Definition mix_c2 : Z := 10723151780598845931.   (* 0x94d049bb133111eb *)

Definition sm_next_u64 (r : SplitMix64) : SplitMix64 * Z :=
  let state := wrap64 (sm_state r + gamma) in
  let z := state in
  let z := wrap64 (Z.lxor z (Z.shiftr z 30) * mix_c1) in
  let z := wrap64 (Z.lxor z (Z.shiftr z 27) * mix_c2) in
  (sm_new state, Z.lxor z (Z.shiftr z 31)).

(** The product is taken at 128 bits and its high word kept. *)
Definition sm_next_usize (r : SplitMix64) (bound : Z) : SplitMix64 * Z :=
  if bound =? 0 then (r, 0)
  else
    let '(r', x) := sm_next_u64 r in
    (r', wrap64 (Z.shiftr ((x * bound) mod 2 ^ 128) 64)).

Record DeterministicRng := mkRng { rng_sm : SplitMix64; rng_tick : Z; rng_system_id : string }.

Fixpoint seed_bytes (sm : SplitMix64) (s : string) : SplitMix64 :=
  match s with
  | EmptyString => sm
  | String c rest =>
      let sm := sm_new (Z.lxor (sm_state sm) (wrap64 (Z.of_N (N_of_ascii c) * gamma))) in
      seed_bytes (sm_next_u64 sm).1 rest
  end.

Definition rng_compute_seed (system_id : string) (tick : Z) : Z :=
  (sm_next_u64 (seed_bytes (sm_new tick) system_id)).2.

Definition rng_new (system_id : string) (tick : Z) : DeterministicRng :=
  mkRng (sm_new (rng_compute_seed system_id tick)) tick system_id.

Definition rng_next_u64 (r : DeterministicRng) : DeterministicRng * Z :=
  let '(sm, x) := sm_next_u64 (rng_sm r) in (mkRng sm (rng_tick r) (rng_system_id r), x).

Definition rng_next_bool (r : DeterministicRng) : DeterministicRng * bool :=
  let '(r', x) := rng_next_u64 r in (r', Z.land x 1 =? 1).

Definition rng_next_usize (r : DeterministicRng) (bound : Z) : DeterministicRng * Z :=
  let '(sm, x) := sm_next_usize (rng_sm r) bound in
  (mkRng sm (rng_tick r) (rng_system_id r), x).

(** The [n]-th value a stream hands out, from 0. *)
Fixpoint rng_nth (r : DeterministicRng) (n : nat) : Z :=
  match n with
  | O => (rng_next_u64 r).2
  | S n' => rng_nth (rng_next_u64 r).1 n'
  end.

(** ** 64-bit words *)

Definition word (z : Z) : Prop := 0 <= z < two64.

Lemma word_bits z : 0 <= z -> (word z <-> forall n, 64 <= n -> Z.testbit z n = false).
Proof.
  intros Hz. unfold word. change two64 with (2 ^ 64). split.
  - intros Hw n Hn. destruct (Z.eq_dec z 0) as [->|]; [apply Z.bits_0|].
    apply Z.bits_above_log2; [done|]. apply Z.lt_le_trans with 64; [|done].
    apply Z.log2_lt_pow2; lia.
  - intros Hb. split; [done|].
    assert (E : z mod 2 ^ 64 = z).
    { apply Z.bits_inj'. intros n Hn. destruct (Z.lt_ge_cases n 64).
      - apply Z.mod_pow2_bits_low. lia.
      - rewrite Z.mod_pow2_bits_high by lia. by rewrite Hb. }
    rewrite <- E. apply Z.mod_pos_bound. lia.
Qed.

Lemma word_wrap z : word (wrap64 z).
Proof. apply wrap64_range. Qed.

Lemma word_lxor a b : word a -> word b -> word (Z.lxor a b).
Proof.
  intros Ha Hb. assert (0 <= Z.lxor a b) by (apply Z.lxor_nonneg; unfold word in *; lia).
  apply word_bits; [done|]. intros n Hn. rewrite Z.lxor_spec.
  rewrite (proj1 (word_bits a ltac:(apply Ha))) by done.
  by rewrite (proj1 (word_bits b ltac:(apply Hb))) by done.
Qed.

Lemma word_shiftr z k : word z -> 0 <= k -> word (Z.shiftr z k).
Proof.
  intros Hz Hk. assert (0 <= Z.shiftr z k) by (apply Z.shiftr_nonneg, Hz).
  apply word_bits; [done|]. intros n Hn. rewrite Z.shiftr_spec by lia.
  apply (proj1 (word_bits z ltac:(apply Hz))); [done | lia].
Qed.

#[export] Hint Resolve word_wrap word_lxor word_shiftr : engine.

(** [z ^ (z >> k)] can be undone: the high bits are unchanged and each lower bit
    follows from the one [k] places above. *)
Lemma xorshift_inj k a b :
  0 < k -> word a -> word b ->
  Z.lxor a (Z.shiftr a k) = Z.lxor b (Z.shiftr b k) -> a = b.
Proof.
  intros Hk Ha Hb E. apply Z.bits_inj'.
  assert (Hall : forall m : nat, forall n, 0 <= n -> 64 - Z.of_nat m <= n -> Z.testbit a n = Z.testbit b n).
  { induction m as [|m IH]; intros n Hn Hm.
    - rewrite (proj1 (word_bits a ltac:(apply Ha)) Ha n) by lia.
      by rewrite (proj1 (word_bits b ltac:(apply Hb)) Hb n) by lia.
    - apply (f_equal (fun z => Z.testbit z n)) in E.
      rewrite !Z.lxor_spec, !Z.shiftr_spec in E by done.
      rewrite (IH (n + k)) in E by lia.
      by destruct (Z.testbit a n), (Z.testbit b n), (Z.testbit b (n + k)). }
  intros n Hn. apply (Hall 64%nat); lia.
Qed.

(** Multiplication by a constant with an inverse modulo 2^64 can be undone. *)
Lemma wrap_mul_inj c c' a b :
  wrap64 (c * c') = 1 -> word a -> word b -> wrap64 (a * c) = wrap64 (b * c) -> a = b.
Proof.
  intros Hc Ha Hb E.
  assert (Hback : forall x, word x -> wrap64 (wrap64 (x * c) * c') = x).
  { intros x Hx. unfold wrap64 in *. rewrite Z.mul_mod_idemp_l by done.
    rewrite <- Z.mul_assoc, <- Z.mul_mod_idemp_r, Hc, Z.mul_1_r by done. by apply Z.mod_small. }
  by rewrite <- (Hback a Ha), <- (Hback b Hb), E.
Qed.

Lemma wrap_add_inj c a b : word a -> word b -> wrap64 (a + c) = wrap64 (b + c) -> a = b.
Proof.
  intros Ha Hb E. apply (f_equal (fun x => wrap64 (x - c))) in E.
  unfold wrap64 in E. rewrite !Zminus_mod_idemp_l in E.
  replace (a + c - c) with a in E by lia. replace (b + c - c) with b in E by lia.
  rewrite !Z.mod_small in E by done. done.
Qed.

Lemma lxor_inj c a b : Z.lxor a c = Z.lxor b c -> a = b.
Proof.
  intros E. apply (f_equal (fun x => Z.lxor x c)) in E.
  by rewrite !Z.lxor_assoc, !Z.lxor_nilpotent, !Z.lxor_0_r in E.
Qed.

(** ** SplitMix64 *)

Definition sm_wf (r : SplitMix64) : Prop := word (sm_state r).

Lemma sm_next_wf r : sm_wf (sm_next_u64 r).1 /\ word (sm_next_u64 r).2.
Proof. unfold sm_wf, sm_next_u64. simpl. auto 10 with engine zarith. Qed.

(** The step and the output are both injective in the state. *)
Lemma sm_next_state_inj r1 r2 :
  sm_wf r1 -> sm_wf r2 -> (sm_next_u64 r1).1 = (sm_next_u64 r2).1 -> r1 = r2.
Proof.
  destruct r1 as [a], r2 as [b]. unfold sm_wf. simpl. intros Ha Hb [= E].
  by rewrite (wrap_add_inj gamma a b).
Qed.

Lemma sm_output_inj r1 r2 :
  sm_wf r1 -> sm_wf r2 -> (sm_next_u64 r1).2 = (sm_next_u64 r2).2 -> r1 = r2.
Proof.
  destruct r1 as [a], r2 as [b]. unfold sm_wf. simpl. intros Ha Hb E.
  apply xorshift_inj in E; [|lia|apply word_wrap..].
  apply (wrap_mul_inj mix_c2 3573116690164977347) in E; [|by_eval|auto with engine zarith..].
  apply xorshift_inj in E; [|lia|apply word_wrap..].
  apply (wrap_mul_inj mix_c1 10871156337175269513) in E; [|by_eval|auto with engine zarith..].
  apply xorshift_inj in E; [|lia|apply word_wrap..].
  by rewrite (wrap_add_inj gamma a b).
Qed.

(** [next_usize] always lies below its bound, and draws a value exactly when the
    bound is not zero. *)
Theorem sm_next_usize_bound (r : SplitMix64) (bound : Z) :
  sm_wf r -> u64 bound ->
  (0 < bound -> 0 <= (sm_next_usize r bound).2 < bound
                /\ (sm_next_usize r bound).1 = (sm_next_u64 r).1)
  /\ (bound = 0 -> sm_next_usize r bound = (r, 0)).
Proof.
  intros Hr Hb. unfold sm_next_usize. split.
  - intros Hpos. destruct (Z.eqb_spec bound 0); [lia|].
    pose proof (sm_next_wf r) as [_ Hx]. destruct (sm_next_u64 r) as [r' x]. simpl in *.
    split; [|done]. unfold word in Hx. unfold u64, u64_max in Hb. unfold two64 in Hx.
    assert (Hp : 0 <= x * bound < 2 ^ 128) by (change (2 ^ 128) with (2 ^ 64 * 2 ^ 64); nia).
    rewrite (Z.mod_small (x * bound)) by done. rewrite Z.shiftr_div_pow2 by lia.
    assert (Hd : 0 <= x * bound / 2 ^ 64 < bound).
    { split; [apply Z.div_pos; lia|]. apply Z.div_lt_upper_bound; [lia|].
      change (2 ^ 64) with 18446744073709551616. nia. }
    rewrite wrap64_small; [done|]. unfold two64. lia.
  - intros ->. done.
Qed.

Lemma sm_next_usize_bound_witness :
  0 <= (sm_next_usize (sm_new 12345) 6).2 < 6.
Proof. apply (sm_next_usize_bound (sm_new 12345) 6); by_eval. Defined.

Lemma sm_state_nth r n :
  rng_nth r (S n) = rng_nth (rng_next_u64 r).1 n.
Proof. done. Qed.

Lemma rng_nth_state r n :
  sm_wf (rng_sm r) ->
  rng_nth r n = (sm_next_u64 (sm_new (wrap64 (sm_state (rng_sm r) + Z.of_nat n * gamma)))).2.
Proof.
  revert r. induction n as [|n IH]; intros [[s] t i] Hr; unfold sm_wf in Hr; simpl in Hr.
  - simpl. rewrite Z.add_0_r. by rewrite (wrap64_small s).
  - rewrite sm_state_nth, IH by apply word_wrap. do 3 f_equal. simpl.
    unfold wrap64. rewrite Z.add_mod_idemp_l by done. f_equal. lia.
Qed.

(** A stream never repeats a value within its first 2^64 draws. *)
Theorem rng_stream_no_repeat (r : DeterministicRng) (i j : nat) :
  sm_wf (rng_sm r) -> (i < j)%nat -> Z.of_nat j < two64 -> rng_nth r i <> rng_nth r j.
Proof.
  intros Hr Hij Hj E. rewrite !rng_nth_state in E by done.
  apply sm_output_inj in E; [|apply word_wrap..]. injection E as E. unfold wrap64 in E.
  apply (f_equal (fun x => (x - sm_state (rng_sm r)) mod two64)) in E.
  rewrite !Zminus_mod_idemp_l in E.
  replace (_ + Z.of_nat i * gamma - _) with (Z.of_nat i * gamma) in E by lia.
  replace (_ + Z.of_nat j * gamma - _) with (Z.of_nat j * gamma) in E by lia.
  apply (wrap_mul_inj gamma 17428512612931826493) in E; [lia | by_eval | | ]; unfold word; lia.
Qed.

Lemma rng_stream_no_repeat_witness : rng_nth (rng_new "economy" 7) 0 <> rng_nth (rng_new "economy" 7) 3.
Proof. apply (rng_stream_no_repeat (rng_new "economy" 7) 0 3); by_eval. Defined.

Lemma seed_bytes_wf sm s : sm_wf sm -> sm_wf (seed_bytes sm s).
Proof.
  revert sm. induction s as [|c s IH]; intros sm Hsm; cbn [seed_bytes]; [done|].
  apply IH, sm_next_wf.
Qed.

Lemma seed_bytes_inj s sm1 sm2 :
  sm_wf sm1 -> sm_wf sm2 -> seed_bytes sm1 s = seed_bytes sm2 s -> sm1 = sm2.
Proof.
  revert sm1 sm2. induction s as [|c s IH]; intros sm1 sm2 H1 H2 E; cbn [seed_bytes] in E; [done|].
  apply IH in E; [|apply sm_next_wf..].
  apply sm_next_state_inj in E; [|unfold sm_wf in *; simpl; auto with engine..].
  injection E as E. apply lxor_inj in E. destruct sm1, sm2. simpl in *. by subst.
Qed.

(** A system draws from a different seed at every tick: no two ticks replay the
    same stream. *)
Theorem rng_seed_injective_in_tick (system_id : string) (t1 t2 : Z) :
  u64 t1 -> u64 t2 ->
  t1 <> t2 -> rng_compute_seed system_id t1 <> rng_compute_seed system_id t2.
Proof.
  intros H1 H2 Hne E. apply Hne. unfold rng_compute_seed in E.
  assert (W : forall t, u64 t -> sm_wf (sm_new t)).
  { intros t Ht. unfold sm_wf, word. unfold_width. simpl. lia. }
  apply sm_output_inj in E; [|by apply seed_bytes_wf, W..].
  apply seed_bytes_inj in E; [|by apply W..]. by injection E.
Qed.

Lemma rng_seed_injective_in_tick_witness :
  rng_compute_seed "military" 3 <> rng_compute_seed "military" 4.
Proof. apply (rng_seed_injective_in_tick "military" 3 4); by_eval. Defined.
