(* ===== verification/SchemaTables.v ===== *)
(** * SchemaTables: column and table specifications of [scharnhorst_schema]

    Models [error.rs], [field_semantic.rs] and [table_spec.rs]. *)

From Stdlib Require Import Ascii String.
From stdpp Require Import base gmap strings list.
From Stdlib Require Import ZArith Lia.
From S2P Require Import Prelude CoreTypes.

Inductive SchemaError :=
| TableAlreadyExists (name : string)
| TableNotFound (name : string)
| InvalidTableName (name : string)
| ColumnNotFound (name : string)
| DuplicateColumn (name : string)
| RelationAlreadyExists (from to : string)
| RelationNotFound (from to : string)
| CircularRelation (msg : string)
| InvalidSemantic (msg : string)
| RegistryFrozen
| MigrationVersionMismatch (expected actual : string)
| NoMigrationPath (from to : string)
| ManifestSerialization (msg : string)
| ManifestDeserialization (msg : string)
| SchemaPhaseError (msg : string)
| SchemaGeneric (msg : string)
| SchemaCore (e : CoreError).

#[export] Instance SchemaError_eq_dec : EqDecision SchemaError.
Proof. solve_decision. Defined.

Abbreviation SchemaResult := (result SchemaError).

Inductive FieldSemantic :=
| SemId
| SemForeignKey (target_table : string)
| SemName
| SemTag
| SemPosition2D
| SemPosition3D
| SemQuantity
| SemPercent
| SemDurationTicks
| SemTimestamp
| SemRaw.

#[export] Instance FieldSemantic_eq_dec : EqDecision FieldSemantic.
Proof. solve_decision. Defined.

Definition semantic_is_numeric (s : FieldSemantic) : bool :=
  match s with
  | SemQuantity | SemPercent | SemDurationTicks | SemTimestamp
  | SemPosition2D | SemPosition3D => true
  | _ => false
  end.

Definition semantic_is_spatial (s : FieldSemantic) : bool :=
  match s with SemPosition2D | SemPosition3D => true | _ => false end.

Definition semantic_is_reference (s : FieldSemantic) : bool :=
  match s with SemForeignKey _ => true | _ => false end.

Record ColumnSpec := mkColumn {
  col_name : string; col_semantic : FieldSemantic;
  col_storage_type : string; col_nullable : bool }.

#[export] Instance ColumnSpec_eq_dec : EqDecision ColumnSpec.
Proof. solve_decision. Defined.

Definition column_new (name : string) (semantic : FieldSemantic) (storage_type : string)
  : ColumnSpec := mkColumn name semantic storage_type false.
Definition column_with_nullable (c : ColumnSpec) (nullable : bool) : ColumnSpec :=
  mkColumn (col_name c) (col_semantic c) (col_storage_type c) nullable.

Record TableSpec := mkTable {
  ts_name : string; ts_columns : list ColumnSpec;
  ts_column_index : gmap string nat; ts_tier : StateTier }.

(** [PartialEq] leaves the index out. *)
Definition table_eq (a b : TableSpec) : bool :=
  bool_decide (ts_name a = ts_name b) && bool_decide (ts_columns a = ts_columns b)
  && bool_decide (ts_tier a = ts_tier b).

Definition table_new (name : string) : TableSpec := mkTable name [] ∅ Authority.

Definition table_with_column (t : TableSpec) (col : ColumnSpec) : SchemaResult TableSpec :=
  if decide (is_Some (ts_column_index t !! col_name col)) then Err (DuplicateColumn (col_name col))
  else Ok (mkTable (ts_name t) (ts_columns t ++ [col])
             (<[col_name col := length (ts_columns t)]> (ts_column_index t)) (ts_tier t)).

Definition table_column_by_name (t : TableSpec) (name : string) : option ColumnSpec :=
  idx ← ts_column_index t !! name; ts_columns t !! idx.
Definition table_column_index_of (t : TableSpec) (name : string) : option nat :=
  ts_column_index t !! name.
Definition table_primary_key_column (t : TableSpec) : option ColumnSpec :=
  List.find (fun c => match col_semantic c with SemId => true | _ => false end) (ts_columns t).
Definition table_foreign_key_columns (t : TableSpec) : list ColumnSpec :=
  List.filter (fun c => semantic_is_reference (col_semantic c)) (ts_columns t).

(** [iter().enumerate().map(..).collect()]: a later column of the same name wins. *)
Fixpoint index_from (i : nat) (cols : list ColumnSpec) (m : gmap string nat) : gmap string nat :=
  match cols with
  | [] => m
  | c :: cols' => index_from (S i) cols' (<[col_name c := i]> m)
  end.
Definition table_rebuild_index (t : TableSpec) : TableSpec :=
  mkTable (ts_name t) (ts_columns t) (index_from 0 (ts_columns t) ∅) (ts_tier t).

(** [Deserialize]: the helper's fields, an absent tier being [Authority]. *)
Definition table_deserialize (name : string) (columns : list ColumnSpec) (tier : option StateTier)
  : TableSpec :=
  table_rebuild_index (mkTable name columns ∅ (default Authority tier)).

(** ** Invariant: the index is the position of each column, names being distinct *)

Definition table_wf (t : TableSpec) : Prop :=
  NoDup (col_name <$> ts_columns t) /\ ts_column_index t = index_from 0 (ts_columns t) ∅.

Lemma index_from_snoc i cols c m :
  index_from i (cols ++ [c]) m = <[col_name c := (i + length cols)%nat]> (index_from i cols m).
Proof.
  revert i m. induction cols as [|d cols IH]; intros i m; simpl; [by rewrite Nat.add_0_r|].
  rewrite IH. f_equal. lia.
Qed.

Lemma index_from_None cols n :
  index_from 0 cols ∅ !! n = None <-> n ∉ (col_name <$> cols).
Proof.
  induction cols as [|c cols IH] using rev_ind; [set_solver|].
  rewrite index_from_snoc, fmap_app, lookup_insert_None, IH. simpl. set_solver.
Qed.

Lemma index_from_lookup cols n i :
  NoDup (col_name <$> cols) ->
  index_from 0 cols ∅ !! n = Some i <-> (col_name <$> cols) !! i = Some n.
Proof.
  induction cols as [|c cols IH] using rev_ind; [done|].
  rewrite fmap_app. intros (Hnd & Hc & _)%NoDup_app. specialize (IH Hnd).
  rewrite index_from_snoc. simpl.
  assert (Hlen : length (col_name <$> cols) = length cols) by apply length_fmap.
  assert (Hcn : col_name c ∉ (col_name <$> cols)) by (intros H; apply (Hc _ H); set_solver).
  rewrite lookup_insert_Some, IH, lookup_app_Some, Hlen. split.
  - intros [[<- <-]|[Hne H]]; [right; rewrite Nat.sub_diag; done|by left].
  - intros [H|[Hge H]].
    + right. split; [|done]. intros E. apply Hcn. rewrite E. by eapply list_elem_of_lookup_2.
    + destruct (i - length cols)%nat as [|k] eqn:E; simpl in H; [|by rewrite lookup_nil in H].
      left. split; [congruence | lia].
Qed.

Lemma table_new_wf n : table_wf (table_new n).
Proof. split; [constructor | done]. Qed.

Lemma table_with_column_wf t c t' :
  table_wf t -> table_with_column t c = Ok t' ->
  table_wf t' /\ col_name c ∉ (col_name <$> ts_columns t) /\ ts_columns t' = ts_columns t ++ [c].
Proof.
  intros [Hnd Hix] H. unfold table_with_column in H.
  destruct (decide _) as [|Hn]; [done|]. simplify_eq.
  apply eq_None_not_Some in Hn. rewrite Hix in Hn. apply index_from_None in Hn.
  split; [split|]; simpl; [|by rewrite index_from_snoc, Hix|done].
  rewrite fmap_app. apply NoDup_app. split; [done|]. split; [set_solver|]. apply NoDup_singleton.
Qed.

Lemma table_lookup t n c :
  table_wf t ->
  table_column_by_name t n = Some c <-> c ∈ ts_columns t /\ col_name c = n.
Proof.
  intros [Hnd Hix]. unfold table_column_by_name. rewrite Hix. split.
  - intros (i & Hi & Hc)%bind_Some. apply index_from_lookup in Hi; [|done].
    rewrite list_lookup_fmap, Hc in Hi. simpl in Hi. simplify_eq. split; [|done].
    by eapply list_elem_of_lookup_2.
  - intros [[i Hi]%list_elem_of_lookup Hn]. apply bind_Some. exists i. split; [|done].
    apply index_from_lookup; [done|]. by rewrite list_lookup_fmap, Hi, <- Hn.
Qed.

(** Building a table column by column keeps the name index exact: a column whose name is taken is
    refused, any other is appended, lookup by name then finds precisely the columns of the table,
    and serializing the table away and back (which drops the index) changes nothing. *)
Theorem table_with_column_lookup (t : TableSpec) (c : ColumnSpec) :
  table_wf t ->
  match table_with_column t c with
  | Ok t' =>
      table_wf t' /\ ts_columns t' = ts_columns t ++ [c]
      /\ (forall n d, table_column_by_name t' n = Some d <-> d ∈ ts_columns t' /\ col_name d = n)
      /\ table_deserialize (ts_name t') (ts_columns t') (Some (ts_tier t')) = t'
  | Err e => e = DuplicateColumn (col_name c) /\ exists d, table_column_by_name t (col_name c) = Some d
  end.
Proof.
  intros Hwf. destruct (table_with_column t c) as [t'|e] eqn:E.
  - destruct (table_with_column_wf t c t') as (Hwf' & _ & Hcols); [done..|].
    split; [done|]. split; [done|]. split; [intros; by apply table_lookup|].
    destruct t', Hwf' as [_ Hix]. simpl in *. unfold table_deserialize, table_rebuild_index.
    simpl. by rewrite Hix.
  - unfold table_with_column in E. destruct (decide _) as [[i Hi]|]; [|done]. simplify_eq.
    split; [done|]. destruct Hwf as [Hnd Hix]. rewrite Hix in Hi.
    apply index_from_lookup in Hi as Hn; [|done].
    apply list_lookup_fmap_Some in Hn as (d & ? & Hd).
    exists d. unfold table_column_by_name. by rewrite Hix, Hi.
Qed.

Lemma table_with_column_lookup_witness :
  match table_with_column (table_new "provinces") (column_new "id" SemId "u64") with
  | Ok t' => table_wf t' /\ ts_columns t' = [column_new "id" SemId "u64"]
  | Err _ => False
  end.
Proof.
  pose proof (table_with_column_lookup (table_new "provinces") (column_new "id" SemId "u64")
                (table_new_wf _)) as H.
  destruct (table_with_column _ _) eqn:E; [|vm_compute in E; discriminate E].
  split; apply H.
Defined.
