(* ===== verification/Relations.v ===== *)
(** * Relations: the relation graph of [scharnhorst_schema]

    Models [relation.rs]: the edge list with its adjacency index, the reachability search that
    refuses a closing edge, and the three-colour cycle detection. A [Vec] used as a stack is a
    list with its top at the head. A [HashSet]'s iteration order is an argument. *)

From Stdlib Require Import Ascii String.
From stdpp Require Import base gmap strings list relations.
From Stdlib Require Import ZArith Lia.
From S2P Require Import Prelude CoreTypes SchemaTables.

Inductive RelationKind := OneToMany | ManyToMany | Composition.

#[export] Instance RelationKind_eq_dec : EqDecision RelationKind.
Proof. solve_decision. Defined.

Record RelationEdge := mkEdge {
  edge_from : string; edge_to : string; edge_kind : RelationKind;
  edge_from_column : string; edge_to_column : option string }.

#[export] Instance RelationEdge_eq_dec : EqDecision RelationEdge.
Proof. solve_decision. Defined.

Record RelationGraph := mkGraph {
  rg_edges : list RelationEdge; rg_adjacency : gmap string (list nat) }.

Definition graph_new : RelationGraph := mkGraph [] ∅.

(** [adjacency.entry(k).or_default().push(i)] *)
Definition adj_push (adj : gmap string (list nat)) (k : string) (i : nat) : gmap string (list nat) :=
  <[k := default [] (adj !! k) ++ [i]]> adj.

Definition graph_edge_key (from to : string) : string * string := (from, to).

Definition edge_matches (from to : string) (e : RelationEdge) : bool :=
  bool_decide (edge_from e = from) && bool_decide (edge_to e = to).

Definition graph_find_edge (g : RelationGraph) (from to : string) : option RelationEdge :=
  List.find (edge_matches from to) (rg_edges g).

Definition graph_edges_from (g : RelationGraph) (table : string) : list RelationEdge :=
  omap (fun i => rg_edges g !! i) (default [] (rg_adjacency g !! table)).

Definition graph_tables (g : RelationGraph) : gset string :=
  list_to_set (rg_edges g ≫= fun e => [edge_from e; edge_to e]).

Fixpoint adjacency_from (i : nat) (es : list RelationEdge) (adj : gmap string (list nat))
  : gmap string (list nat) :=
  match es with
  | [] => adj
  | e :: es' => adjacency_from (S i) es' (adj_push adj (edge_from e) i)
  end.
Definition graph_rebuild_adjacency (g : RelationGraph) : RelationGraph :=
  mkGraph (rg_edges g) (adjacency_from 0 (rg_edges g) ∅).

(** The loop of [would_create_cycle]; [None] is out of fuel. *)
Fixpoint cycle_search (g : RelationGraph) (start : string) (fuel : nat)
    (visited : gset string) (stack : list string) : option bool :=
  match fuel with
  | O => None
  | S fuel =>
      match stack with
      | [] => Some false
      | current :: stack =>
          if bool_decide (current = start) then Some true
          else if bool_decide (current ∈ visited) then cycle_search g start fuel visited stack
          else cycle_search g start fuel ({[current]} ∪ visited)
                 (rev (edge_to <$> graph_edges_from g current) ++ stack)
      end
  end.

(** One iteration per stacked node: the target and each out-edge of a node visited once. *)
Definition cycle_fuel (g : RelationGraph) : nat := S (S (length (rg_edges g))).

Definition graph_would_create_cycle (g : RelationGraph) (start target : string) : bool :=
  default false (cycle_search g start (cycle_fuel g) ∅ [target]).

Definition graph_add_edge_unchecked (g : RelationGraph) (e : RelationEdge) : RelationGraph :=
  let key := graph_edge_key (edge_from e) (edge_to e) in
  let idx := length (rg_edges g) in
  mkGraph (rg_edges g ++ [e]) (adj_push (rg_adjacency g) key.1 idx).

Definition graph_add_edge (g : RelationGraph) (e : RelationEdge) : SchemaResult RelationGraph :=
  let key := graph_edge_key (edge_from e) (edge_to e) in
  match graph_find_edge g (edge_from e) (edge_to e) with
  | Some _ => Err (RelationAlreadyExists (edge_from e) (edge_to e))
  | None =>
      if graph_would_create_cycle g (edge_from e) (edge_to e)
      then Err (CircularRelation (edge_from e +:+ " -> " +:+ edge_to e))
      else
        let idx := length (rg_edges g) in
        Ok (mkGraph (rg_edges g ++ [e]) (adj_push (rg_adjacency g) key.1 idx))
  end.

Fixpoint edge_position (from to : string) (es : list RelationEdge) : option nat :=
  match es with
  | [] => None
  | e :: es' => if edge_matches from to e then Some O else S <$> edge_position from to es'
  end.

Definition graph_remove_edge (g : RelationGraph) (from to : string) : SchemaResult RelationGraph :=
  let? pos := ok_or (edge_position from to (rg_edges g)) (RelationNotFound from to) in
  Ok (graph_rebuild_adjacency (mkGraph (delete pos (rg_edges g)) (rg_adjacency g))).

(** ** [detect_cycles] *)

Inductive Color := White | Gray | Black.

#[export] Instance Color_eq_dec : EqDecision Color.
Proof. solve_decision. Defined.

Record DfsState := mkDfs {
  dfs_colors : gmap string Color; dfs_path : list string; dfs_cycles : list (list string) }.

(** [path.iter().position(|n| n == node).unwrap_or(0)] *)
Fixpoint node_position (n : string) (path : list string) : option nat :=
  match path with
  | [] => None
  | m :: path' => if bool_decide (m = n) then Some O else S <$> node_position n path'
  end.

Definition pushes_edge (colors : gmap string Color) (e : RelationEdge) : bool :=
  match colors !! edge_to e with Some White | Some Gray => true | _ => false end.

Fixpoint dfs_loop (g : RelationGraph) (fuel : nat) (s : DfsState) (stack : list (bool * string))
  : option DfsState :=
  match fuel with
  | O => None
  | S fuel =>
      match stack with
      | [] => Some s
      | (true, node) :: stack =>
          match dfs_colors s !! node with
          | Some Black => dfs_loop g fuel s stack
          | Some Gray =>
              let cycle_start := default O (node_position node (dfs_path s)) in
              dfs_loop g fuel
                (mkDfs (dfs_colors s) (dfs_path s)
                   (dfs_cycles s ++ [drop cycle_start (dfs_path s)])) stack
          | _ =>
              let colors := <[node := Gray]> (dfs_colors s) in
              let next := List.filter (pushes_edge colors) (graph_edges_from g node) in
              dfs_loop g fuel (mkDfs colors (dfs_path s ++ [node]) (dfs_cycles s))
                (rev ((fun e => (true, edge_to e)) <$> next) ++ (false, node) :: stack)
          end
      | (false, node) :: stack =>
          dfs_loop g fuel
            (mkDfs (<[node := Black]> (dfs_colors s)) (removelast (dfs_path s)) (dfs_cycles s)) stack
      end
  end.

(** Each table is entered once and stacks its exit and its out-edges. *)
Definition dfs_fuel (g : RelationGraph) : nat :=
  S (S (size (graph_tables g) + length (rg_edges g))).

Fixpoint dfs_starts (g : RelationGraph) (starts : list string) (s : DfsState) : option DfsState :=
  match starts with
  | [] => Some s
  | n :: starts' =>
      match dfs_colors s !! n with
      | Some White => s' ← dfs_loop g (dfs_fuel g) s [(true, n)]; dfs_starts g starts' s'
      | _ => dfs_starts g starts' s
      end
  end.

(** [all_tables] is [self.tables()] in the order its [HashSet] iterates. *)
Definition graph_detect_cycles (g : RelationGraph) (all_tables : list string)
  : option (list (list string)) :=
  let colors := list_to_map ((fun t => (t, White)) <$> all_tables) in
  dfs_cycles <$> dfs_starts g all_tables (mkDfs colors [] []).

(** ** Specification *)

(** [x -> y] is an edge of the graph. *)
Definition edge_rel (es : list RelationEdge) (x y : string) : Prop :=
  exists e, e ∈ es /\ edge_from e = x /\ edge_to e = y.

Definition acyclic (es : list RelationEdge) : Prop := forall x, ~ tc (edge_rel es) x x.

(** The index is what [rebuild_adjacency] computes. *)
Definition graph_wf (g : RelationGraph) : Prop :=
  rg_adjacency g = adjacency_from 0 (rg_edges g) ∅.

(** ** The adjacency index *)

Lemma adjacency_from_snoc i es e m :
  adjacency_from i (es ++ [e]) m = adj_push (adjacency_from i es m) (edge_from e) (i + length es).
Proof.
  revert i m. induction es as [|d es IH]; intros i m; simpl; [by rewrite Nat.add_0_r|].
  rewrite IH. f_equal. lia.
Qed.

Lemma adj_push_lookup m k i t :
  default [] (adj_push m k i !! t) = default [] (m !! t) ++ (if decide (k = t) then [i] else []).
Proof.
  unfold adj_push. destruct (decide (k = t)) as [->|Hne].
  - by rewrite lookup_insert_eq.
  - by rewrite lookup_insert_ne, app_nil_r.
Qed.

Lemma adjacency_indices es t :
  Forall (fun i => (i < length es)%nat) (default [] (adjacency_from 0 es ∅ !! t))
  /\ omap (fun i => es !! i) (default [] (adjacency_from 0 es ∅ !! t))
     = filter (fun e => edge_from e = t) es.
Proof.
  induction es as [|e es [IHlt IH]] using rev_ind; [by split|].
  rewrite adjacency_from_snoc, adj_push_lookup, length_app, omap_app, filter_app. simpl.
  split.
  - apply Forall_app. split; [eapply Forall_impl; [exact IHlt|simpl; lia]|].
    case_decide; repeat constructor. lia.
  - f_equal.
    + rewrite <- IH. revert IHlt. generalize (default [] (adjacency_from 0 es ∅ !! t)).
      intros l Hl. induction Hl as [|i l Hi _ IHl]; [done|]. csimpl.
      rewrite lookup_app_l by lia. by rewrite IHl.
    + rewrite filter_cons, filter_nil. repeat case_decide; try done. simpl.
      by rewrite lookup_app_r, Nat.sub_diag by lia.
Qed.

Lemma edges_from_wf g t :
  graph_wf g -> graph_edges_from g t = filter (fun e => edge_from e = t) (rg_edges g).
Proof. intros H. unfold graph_edges_from. rewrite H. apply adjacency_indices. Qed.

Lemma elem_of_edges_from g t e :
  graph_wf g -> e ∈ graph_edges_from g t <-> e ∈ rg_edges g /\ edge_from e = t.
Proof. intros H. rewrite edges_from_wf, list_elem_of_filter by done. tauto. Qed.

Lemma graph_snoc_wf g e :
  graph_wf g -> graph_wf (graph_add_edge_unchecked g e).
Proof. intros H. unfold graph_wf. simpl. by rewrite adjacency_from_snoc, <- H. Qed.

Lemma graph_rebuild_wf g : graph_wf (graph_rebuild_adjacency g).
Proof. done. Qed.

#[export] Hint Resolve graph_snoc_wf graph_rebuild_wf : engine.

(** ** Counting the out-edges of the nodes not yet entered *)

Definition out_count (es : list RelationEdge) (V : gset string) : nat :=
  length (filter (fun e => edge_from e ∉ V) es).

Lemma out_count_enter es V n :
  n ∉ V ->
  out_count es V = (length (filter (fun e => edge_from e = n) es) + out_count es ({[n]} ∪ V))%nat.
Proof.
  intros Hn. unfold out_count. induction es as [|e es IH]; [done|].
  rewrite !filter_cons. repeat case_decide; simpl; rewrite ?IH; try lia; set_solver.
Qed.

Lemma out_count_le es V : (out_count es V <= length es)%nat.
Proof. apply length_filter. Qed.

(** ** The reachability search of [would_create_cycle] *)

Lemma edge_step g x y :
  graph_wf g ->
  edge_rel (rg_edges g) x y <-> y ∈ (edge_to <$> graph_edges_from g x).
Proof.
  intros Hwf. rewrite list_elem_of_fmap. unfold edge_rel. split.
  - intros (e & He & Hx & Hy). exists e. by rewrite elem_of_edges_from.
  - intros (e & Hy & He). apply elem_of_edges_from in He as [He Hx]; [|done]. by exists e.
Qed.

Lemma cycle_search_total g start fuel V stack :
  graph_wf g -> (length stack + out_count (rg_edges g) V < fuel)%nat ->
  is_Some (cycle_search g start fuel V stack).
Proof.
  intros Hwf. revert V stack. induction fuel as [|fuel IH]; intros V stack Hf; [lia|].
  destruct stack as [|n stack]; simpl in *; [by eexists|].
  repeat case_bool_decide; [by eexists|apply IH; lia|].
  apply IH. rewrite (out_count_enter _ V n) in Hf by done.
  rewrite length_app, length_rev, length_fmap, edges_from_wf by done. lia.
Qed.

Lemma cycle_search_true g start fuel V stack :
  graph_wf g -> cycle_search g start fuel V stack = Some true ->
  exists x, x ∈ stack /\ rtc (edge_rel (rg_edges g)) x start.
Proof.
  intros Hwf. revert V stack. induction fuel as [|fuel IH]; intros V stack H; [done|].
  destruct stack as [|n stack]; simpl in H; [done|]. repeat case_bool_decide; subst.
  - exists start. split; [left|reflexivity].
  - destruct (IH _ _ H) as (x & Hx & Hr). exists x. split; [by right|done].
  - destruct (IH _ _ H) as (x & Hx & Hr). rewrite elem_of_app, list_elem_of_rev in Hx.
    destruct Hx as [Hx|Hx]; [|exists x; split; [by right|done]].
    exists n. split; [left|]. eapply rtc_l; [by apply edge_step|done].
Qed.

Lemma cycle_search_false g start fuel V stack :
  graph_wf g -> cycle_search g start fuel V stack = Some false ->
  start ∉ V ->
  (forall v w, v ∈ V -> edge_rel (rg_edges g) v w -> w ∈ V \/ w ∈ stack) ->
  exists V' : gset string, V ⊆ V' /\ (forall x, x ∈ stack -> x ∈ V') /\ start ∉ V'
    /\ (forall v w, v ∈ V' -> edge_rel (rg_edges g) v w -> w ∈ V').
Proof.
  intros Hwf. revert V stack. induction fuel as [|fuel IH]; intros V stack H Hs Hcl; [done|].
  destruct stack as [|n stack]; simpl in H.
  - exists V. split_and!; [done|set_solver|done|]. intros v w Hv Hw.
    destruct (Hcl v w Hv Hw); [done|set_solver].
  - repeat case_bool_decide; [done| |]; destruct (IH _ _ H) as (V' & HV & Hst & Hs' & Hcl').
    + done.
    + intros v w Hv Hw. destruct (Hcl v w Hv Hw) as [|[->|]%elem_of_cons]; auto.
    + exists V'. split_and!; [done| |done|done]. intros x [->|Hx]%elem_of_cons; auto.
    + set_solver.
    + intros v w Hv Hw. rewrite elem_of_app, list_elem_of_rev.
      apply elem_of_union in Hv as [->%elem_of_singleton|Hv].
      * right. left. by apply edge_step.
      * destruct (Hcl v w Hv Hw) as [|[->|]%elem_of_cons]; set_solver.
    + exists V'. split_and!; [set_solver| |done|done].
      intros x [->|Hx]%elem_of_cons; [set_solver|]. apply Hst. set_solver.
Qed.

Lemma closed_rtc {A} (R : relation A) (P : A -> Prop) x y :
  (forall v w, P v -> R v w -> P w) -> rtc R x y -> P x -> P y.
Proof. intros Hcl. induction 1; eauto. Qed.

(** The search decides reachability, within its fuel. *)
Lemma would_create_cycle_spec g start target :
  graph_wf g ->
  graph_would_create_cycle g start target = true <-> rtc (edge_rel (rg_edges g)) target start.
Proof.
  intros Hwf. unfold graph_would_create_cycle.
  destruct (cycle_search_total g start (cycle_fuel g) ∅ [target]) as [b Hb]; [done| |].
  { pose proof (out_count_le (rg_edges g) ∅). unfold cycle_fuel. simpl. lia. }
  rewrite Hb. destruct b; simpl.
  - split; [intros _|done]. apply cycle_search_true in Hb as (x & Hx & Hr); [|done].
    apply list_elem_of_singleton in Hx. by subst.
  - split; [done|]. intros Hr. exfalso.
    destruct (cycle_search_false g start (cycle_fuel g) ∅ [target])
      as (V' & _ & Hst & Hs & Hcl); [done|done|set_solver|set_solver|].
    apply Hs, (closed_rtc _ (.∈ V') _ _ Hcl Hr), Hst. left.
Qed.

(** ** Acyclicity *)

Lemma edge_rel_mono es es' x y :
  (forall e, e ∈ es -> e ∈ es') -> edge_rel es x y -> edge_rel es' x y.
Proof. intros H (e & He & Hxy). exists e. auto. Qed.

Lemma acyclic_mono es es' :
  (forall e, e ∈ es -> e ∈ es') -> acyclic es' -> acyclic es.
Proof.
  intros H Hac x Hx. apply (Hac x). revert Hx. generalize x at 1 3.
  induction 1 as [y z Hyz|y z w Hyz _ IH]; [apply tc_once|eapply tc_l; [|exact IH]];
    by eapply edge_rel_mono.
Qed.

Lemma edge_rel_snoc es e x y :
  edge_rel (es ++ [e]) x y <-> edge_rel es x y \/ (x = edge_from e /\ y = edge_to e).
Proof.
  unfold edge_rel. split.
  - intros (e' & [He| ->%list_elem_of_singleton]%elem_of_app & <- & <-); [left; by exists e'|by right].
  - intros [(e' & He & <- & <-)|[-> ->]]; [exists e'|exists e]; set_solver.
Qed.

Lemma tc_snoc es e x y :
  tc (edge_rel (es ++ [e])) x y ->
  tc (edge_rel es) x y \/ (rtc (edge_rel es) x (edge_from e) /\ rtc (edge_rel es) (edge_to e) y).
Proof.
  induction 1 as [x y Hxy|x z y Hxz _ [IH|[IH1 IH2]]].
  - apply edge_rel_snoc in Hxy as [H|[-> ->]]; [left; by apply tc_once|right; split; reflexivity].
  - apply edge_rel_snoc in Hxz as [H|[-> ->]]; [left; by eapply tc_l|].
    right. split; [reflexivity|by apply tc_rtc].
  - apply edge_rel_snoc in Hxz as [H|[-> ->]]; right; (split; [|done]); [by eapply rtc_l|reflexivity].
Qed.

Lemma acyclic_snoc es e :
  acyclic es -> acyclic (es ++ [e]) <-> ~ rtc (edge_rel es) (edge_to e) (edge_from e).
Proof.
  intros Hac. split.
  - intros Hac' Hr. apply (Hac' (edge_from e)). eapply tc_rtc_r; [apply tc_once, edge_rel_snoc; by right|].
    eapply rtc_subrel; [|exact Hr]. intros ???. apply edge_rel_snoc. by left.
  - intros Hn x [Hx|[H1 H2]]%tc_snoc; [by apply (Hac x)|]. apply Hn. by etrans.
Qed.

Lemma find_edge_spec g from to :
  match graph_find_edge g from to with
  | Some e => e ∈ rg_edges g /\ edge_from e = from /\ edge_to e = to
  | None => forall e, e ∈ rg_edges g -> ~ (edge_from e = from /\ edge_to e = to)
  end.
Proof.
  unfold graph_find_edge. destruct (List.find _ _) as [e|] eqn:E.
  - apply List.find_some in E as [He Hm]. rewrite list_elem_of_In.
    unfold edge_matches in Hm. apply andb_prop in Hm as [?%bool_decide_eq_true ?%bool_decide_eq_true].
    done.
  - intros e He [<- <-]. rewrite list_elem_of_In in He.
    eapply List.find_none in E; [|exact He]. unfold edge_matches in E.
    by rewrite !bool_decide_true in E.
Qed.

Lemma edge_position_spec from to es :
  match edge_position from to es with
  | Some i => exists l1 e l2, es = l1 ++ e :: l2 /\ length l1 = i
                /\ edge_from e = from /\ edge_to e = to
  | None => forall e, e ∈ es -> ~ (edge_from e = from /\ edge_to e = to)
  end.
Proof.
  induction es as [|e es IH]; simpl; [set_solver|]. unfold edge_matches.
  repeat case_bool_decide; simpl.
  - exists [], e, es. done.
  - destruct (edge_position _ _ _); simpl; [|set_solver].
    destruct IH as (l1 & d & l2 & -> & <- & ?). by exists (e :: l1), d, l2.
  - destruct (edge_position _ _ _); simpl; [|set_solver].
    destruct IH as (l1 & d & l2 & -> & <- & ?). by exists (e :: l1), d, l2.
  - destruct (edge_position _ _ _); simpl; [|set_solver].
    destruct IH as (l1 & d & l2 & -> & <- & ?). by exists (e :: l1), d, l2.
Qed.

(** The invariant of the graph: the index is exact, no relation is declared twice, no cycle. *)
Definition graph_inv (g : RelationGraph) : Prop :=
  graph_wf g /\ NoDup ((fun e => (edge_from e, edge_to e)) <$> rg_edges g) /\ acyclic (rg_edges g).

Lemma graph_new_inv : graph_inv graph_new.
Proof.
  split; [done|]. split; [constructor|]. intros x Hx.
  destruct Hx as [? ? (? & ? & _)|? ? ? (? & ? & _)]; set_solver.
Qed.

Lemma graph_add_edge_inv g e g' :
  graph_inv g -> graph_add_edge g e = Ok g' ->
  graph_inv g' /\ rg_edges g' = rg_edges g ++ [e].
Proof.
  intros (Hwf & Hnd & Hac) H. unfold graph_add_edge in H.
  pose proof (find_edge_spec g (edge_from e) (edge_to e)) as Hf.
  destruct (graph_find_edge _ _ _); [done|].
  destruct (graph_would_create_cycle _ _ _) eqn:Hc; [done|]. simplify_eq. simpl.
  split; [|done]. split; [by apply (graph_snoc_wf g e)|]. split; simpl.
  - rewrite fmap_app. apply NoDup_app. split; [done|]. split; [|apply NoDup_singleton].
    intros p (d & -> & Hd)%list_elem_of_fmap Hp. apply list_elem_of_singleton in Hp.
    injection Hp as ??. by apply (Hf d).
  - apply acyclic_snoc; [done|]. rewrite <- would_create_cycle_spec, Hc by done. done.
Qed.

Lemma graph_remove_edge_inv g from to g' :
  graph_inv g -> graph_remove_edge g from to = Ok g' ->
  graph_inv g' /\ graph_find_edge g' from to = None.
Proof.
  intros (Hwf & Hnd & Hac) H. unfold graph_remove_edge in H.
  pose proof (edge_position_spec from to (rg_edges g)) as Hp.
  destruct (edge_position _ _ _) as [i|]; [|done]. simpl in H. simplify_eq.
  destruct Hp as (l1 & e & l2 & Hes & <- & Hfrom & Hto).
  rewrite Hes, fmap_app, fmap_cons in Hnd. rewrite Hes in *.
  unfold graph_rebuild_adjacency, graph_find_edge. simpl. rewrite delete_middle.
  apply NoDup_app in Hnd as (H1 & H12 & (He & H2)%NoDup_cons).
  split; [split; [done|split]|]; simpl.
  - rewrite fmap_app. apply NoDup_app. split; [done|]. split; [|done]. intros x Hx Hx2.
    apply (H12 x Hx). by right.
  - eapply acyclic_mono; [|exact Hac]. set_solver.
  - destruct (List.find _ _) as [d|] eqn:E; [|done]. exfalso.
    apply List.find_some in E as [Hd Hm]. unfold edge_matches in Hm.
    apply andb_prop in Hm as [Hm1%bool_decide_eq_true Hm2%bool_decide_eq_true].
    rewrite <- list_elem_of_In in Hd.
    apply elem_of_app in Hd as [Hd|Hd].
    + apply (H12 (edge_from e, edge_to e)); [|left]. apply list_elem_of_fmap. exists d. split; [congruence|done].
    + apply He, list_elem_of_fmap. exists d. split; [congruence|done].
Qed.

(** ** Three-colour search: cycles, topological orders, frames *)

(** A closed walk: each node has an edge to the next, the last one to the first. *)
Definition is_cycle (es : list RelationEdge) (c : list string) : Prop :=
  c <> [] /\ forall i x, c !! i = Some x ->
    exists y, c !! (S i mod length c)%nat = Some y /\ edge_rel es x y.

Definition path_chain (es : list RelationEdge) (path : list string) : Prop :=
  forall i x y, path !! i = Some x -> path !! S i = Some y -> edge_rel es x y.

(** Nodes in the order they turned black, the last first. *)
Inductive topo (es : list RelationEdge) : list string -> Prop :=
| topo_nil : topo es []
| topo_cons n fin :
    (forall w, edge_rel es n w -> w ∈ fin) -> n ∉ fin -> topo es fin -> topo es (n :: fin).

(** The stack is one frame per node of the path: out-edges still to enter, then the exit mark.
    [c] is the child being visited; an out-edge is pending, black, or leads to [c]. *)
Inductive frames (es : list RelationEdge) (black : string -> Prop) (nc : Prop)
  : option string -> list string -> list (bool * string) -> Prop :=
| fr_nil c : frames es black nc c [] []
| fr_cons c n rp cs stack :
    (forall x, x ∈ cs -> edge_rel es n x) ->
    (nc -> forall w, edge_rel es n w -> w ∈ cs \/ black w \/ c = Some w) ->
    frames es black nc (Some n) rp stack ->
    frames es black nc c (n :: rp) (((fun x => (true, x)) <$> cs) ++ (false, n) :: stack).

Lemma frames_mono es (b b' : string -> Prop) (nc nc' : Prop) c rp stack :
  (forall x, b x -> b' x) -> (nc' -> nc) -> frames es b nc c rp stack -> frames es b' nc' c rp stack.
Proof.
  intros Hb Hnc. induction 1 as [|c n rp cs stack Hcs Hdone _ IH]; constructor; [done| |done].
  intros H w Hw. destruct (Hdone (Hnc H) w Hw) as [|[|]]; auto.
Qed.

(** Taking the next out-edge of the top frame. *)
Lemma frames_visit es b nc n rp x cs stack :
  (forall y, y ∈ x :: cs -> edge_rel es n y) ->
  (nc -> forall w, edge_rel es n w -> w ∈ x :: cs \/ b w \/ None = Some w) ->
  frames es b nc (Some n) rp stack ->
  frames es b nc (Some x) (n :: rp) (((fun x => (true, x)) <$> cs) ++ (false, n) :: stack).
Proof.
  intros Hcs Hdone Hfr. constructor; [intros; apply Hcs; by right| |done].
  intros Hnc w Hw. destruct (Hdone Hnc w Hw) as [[->|]%elem_of_cons|[|]]; auto; done.
Qed.

(** The visited child turned out to be black. *)
Lemma frames_skip es (b : string -> Prop) (nc : Prop) x rp stack :
  (nc -> b x) -> frames es b nc (Some x) rp stack -> frames es b nc None rp stack.
Proof.
  intros Hx Hfr. inversion Hfr as [|c n rp' cs st Hcs Hdone Hfr']; subst; constructor; [done| |done].
  intros Hnc w Hw. destruct (Hdone Hnc w Hw) as [|[|[= <-]]]; auto.
Qed.

Lemma topo_closed es fin x y : topo es fin -> x ∈ fin -> edge_rel es x y -> y ∈ fin.
Proof.
  induction 1 as [|n fin Hn _ _ IH]; [set_solver|]. intros [->|Hx]%elem_of_cons Hxy; right; auto.
Qed.

Lemma topo_acyclic es fin x : topo es fin -> x ∈ fin -> ~ tc (edge_rel es) x x.
Proof.
  intros Ht. induction Ht as [|n fin Hn Hnf Ht IH]; [set_solver|].
  intros [->|Hx]%elem_of_cons Htc; [|by apply IH].
  assert (Hcl : forall a b, tc (edge_rel es) a b -> a ∈ fin -> b ∈ fin).
  { induction 1; eauto using topo_closed. }
  apply Hnf. inversion Htc as [? ? H|? y ? H Hy]; subst; eauto.
Qed.

Lemma is_cycle_tc es c : is_cycle es c -> exists x, tc (edge_rel es) x x.
Proof.
  intros [Hne Hc]. assert (Hlen : (0 < length c)%nat) by (destruct c; [done|simpl; lia]).
  destruct (lookup_lt_is_Some_2 c 0) as [h H0]; [done|].
  assert (Hr : forall i x, c !! i = Some x -> rtc (edge_rel es) h x).
  { induction i as [|i IH]; intros x Hx; [rewrite H0 in Hx; simplify_eq; reflexivity|].
    assert (Hi : (S i < length c)%nat) by (by eapply lookup_lt_Some).
    destruct (lookup_lt_is_Some_2 c i) as [y Hy]; [lia|].
    destruct (Hc i y Hy) as (x' & Hx' & Hyx). rewrite Nat.mod_small in Hx' by done.
    simplify_eq. eapply rtc_r; [by apply IH|done]. }
  destruct (lookup_lt_is_Some_2 c (pred (length c))) as [y Hy]; [lia|].
  exists h. destruct (Hc _ _ Hy) as (x & Hx & Hyx).
  rewrite Nat.succ_pred, Nat.Div0.mod_same in Hx by lia.
  simplify_eq. eapply tc_rtc_l; [by eapply Hr|by apply tc_once].
Qed.

Lemma node_position_Some n path i : node_position n path = Some i -> path !! i = Some n.
Proof.
  revert i. induction path as [|m path IH]; intros i; simpl; [done|].
  case_bool_decide; [intros; by simplify_eq|]. intros (j & Hj & ->)%fmap_Some. by apply IH.
Qed.

Lemma node_position_None n path : node_position n path = None -> n ∉ path.
Proof.
  induction path as [|m path IH]; simpl; [set_solver|].
  case_bool_decide; [done|]. rewrite fmap_None. set_solver.
Qed.

Lemma path_chain_snoc es path n :
  path_chain es path -> (forall m, last path = Some m -> edge_rel es m n) ->
  path_chain es (path ++ [n]).
Proof.
  intros Hc Hl i x y Hx Hy. apply lookup_app_Some in Hy as [Hy|[Hge Hy]].
  - assert (S i < length path)%nat by (by eapply lookup_lt_Some).
    rewrite lookup_app_l in Hx by lia. by eapply Hc.
  - destruct (S i - length path)%nat as [|k] eqn:E; simpl in Hy; [|by rewrite lookup_nil in Hy].
    simplify_eq. apply Hl. assert (length path = S i) as Hlen.
    { apply lookup_lt_Some in Hx. rewrite length_app in Hx. simpl in Hx. lia. }
    rewrite last_lookup, Hlen. simpl. by rewrite lookup_app_l in Hx by lia.
Qed.

Lemma path_chain_drop_last es path n : path_chain es (path ++ [n]) -> path_chain es path.
Proof. intros Hc i x y Hx Hy. by eapply Hc; apply lookup_app_l_Some. Qed.

(** The walk from an earlier node of the path to its end, closed by an edge back. *)
Lemma path_cycle es path i m n :
  path_chain es path -> last path = Some m -> path !! i = Some n -> edge_rel es m n ->
  is_cycle es (drop i path).
Proof.
  intros Hc Hm Hn Hmn. assert (Hi : (i < length path)%nat) by (by eapply lookup_lt_Some).
  split; [intros E; apply (f_equal length) in E; rewrite length_drop in E; simpl in E; lia|].
  intros j x Hx. rewrite lookup_drop in Hx.
  assert (Hj : (i + j < length path)%nat) by (by eapply lookup_lt_Some).
  rewrite length_drop. destruct (decide (S (i + j) = length path)) as [E|E].
  - replace (length path - i)%nat with (S j) by lia. rewrite Nat.Div0.mod_same.
    exists n. rewrite lookup_drop, Nat.add_0_r. split; [done|].
    rewrite last_lookup in Hm. replace (pred (length path)) with (i + j)%nat in Hm by lia.
    by simplify_eq.
  - rewrite Nat.mod_small by lia. destruct (lookup_lt_is_Some_2 path (S (i + j))) as [y Hy]; [lia|].
    exists y. rewrite lookup_drop, Nat.add_succ_r. split; [done|]. by eapply Hc.
Qed.

Section dfs.
Context (g : RelationGraph) (Hwf : graph_wf g).

Abbreviation es := (rg_edges g).
Abbreviation black s := (fun x => dfs_colors s !! x = Some Black).

Definition color_inv (s : DfsState) : Prop :=
  (forall x, dfs_colors s !! x = Some Gray <-> x ∈ dfs_path s)
  /\ (forall x, x ∈ graph_tables g <-> is_Some (dfs_colors s !! x))
  /\ NoDup (dfs_path s).

Definition cycles_inv (s : DfsState) : Prop :=
  Forall (is_cycle es) (dfs_cycles s)
  /\ (dfs_cycles s = [] ->
      exists fin, topo es fin /\ forall x, dfs_colors s !! x = Some Black <-> x ∈ fin).

Definition dfs_inv (s : DfsState) (rp : list string) (stack : list (bool * string)) : Prop :=
  dfs_path s = rev rp /\ path_chain es (dfs_path s)
  /\ frames es (black s) (dfs_cycles s = []) None rp stack
  /\ color_inv s /\ cycles_inv s.

(** Iterations left: the stack, the tables not entered and their out-edges. *)
Definition dfs_measure (s : DfsState) (V : gset string) (stack : list (bool * string)) : nat :=
  (length stack + (size (graph_tables g ∖ V) + out_count es V))%nat.
Definition entered (s : DfsState) (V : gset string) : Prop :=
  forall x, x ∈ V <-> dfs_colors s !! x = Some Gray \/ dfs_colors s !! x = Some Black.

Lemma edge_tables x y : edge_rel es x y -> x ∈ graph_tables g /\ y ∈ graph_tables g.
Proof.
  intros (e & He & <- & <-). unfold graph_tables. rewrite !elem_of_list_to_set, !list_elem_of_bind.
  split; exists e; set_solver.
Qed.

Lemma rev_last {A} (m : A) l : last (rev (m :: l)) = Some m.
Proof. simpl. apply last_snoc. Qed.

(** Leaving a node: it turns black, every out-edge of it leading to a black node. *)
Lemma dfs_exit (s : DfsState) n rp stack :
  dfs_inv s (n :: rp) ((false, n) :: stack) ->
  frames es (black s) (dfs_cycles s = []) (Some n) rp stack ->
  (dfs_cycles s = [] -> forall w, edge_rel es n w -> dfs_colors s !! w = Some Black) ->
  dfs_inv (mkDfs (<[n := Black]> (dfs_colors s)) (removelast (dfs_path s)) (dfs_cycles s)) rp stack.
Proof.
  intros (Hp & Hch & _ & (Hgray & Htab & Hnd) & (Hcy & Htopo)) Hfr Hout.
  assert (Hpath : dfs_path s = rev rp ++ [n]) by done.
  assert (Hrl : removelast (dfs_path s) = rev rp) by (rewrite Hpath; apply removelast_last).
  assert (Hn : dfs_colors s !! n = Some Gray) by (apply Hgray; rewrite Hpath; set_solver).
  rewrite Hpath in Hnd, Hch. apply NoDup_app in Hnd as (Hnd & Hnn & _).
  unfold dfs_inv, color_inv, cycles_inv. simpl. rewrite Hrl. split_and!; [done| | | | |done|done|].
  - by eapply path_chain_drop_last.
  - inversion Hfr as [|c n' rp' cs st Hcs Hdone Hfr']; subst; constructor; [done| |].
    + intros Hnc w Hw. destruct (Hdone Hnc w Hw) as [|[Hb| [= <-]]]; [by left| |]; right; left.
      * destruct (decide (w = n)) as [->|]; [by rewrite lookup_insert_eq|by rewrite lookup_insert_ne].
      * by rewrite lookup_insert_eq.
    + eapply frames_mono; [| |exact Hfr']; [|done]. intros w Hb. simpl in *.
      destruct (decide (w = n)) as [->|]; [by rewrite lookup_insert_eq|by rewrite lookup_insert_ne].
  - intros x. destruct (decide (x = n)) as [->|Hne].
    + rewrite lookup_insert_eq. split; [done|]. intros Hx. by destruct (Hnn n Hx (list_elem_of_here _ _)).
    + rewrite lookup_insert_ne, Hgray, Hpath by done. set_solver.
  - intros x. rewrite Htab. destruct (decide (x = n)) as [->|Hne].
    + rewrite lookup_insert_eq, Hn. split; by eexists.
    + by rewrite lookup_insert_ne.
  - intros Hnil. destruct (Htopo Hnil) as (fin & Ht & Hf). exists (n :: fin). split.
    + constructor; [|by rewrite <- Hf, Hn|done]. intros w Hw. by apply Hf, Hout.
    + intros x. rewrite elem_of_cons, <- Hf. destruct (decide (x = n)) as [->|Hne].
      * rewrite lookup_insert_eq. tauto.
      * rewrite lookup_insert_ne by done. tauto.
Qed.

(** Entering a white node: it turns gray and stacks its exit and its out-edges. *)
Lemma dfs_enter (s : DfsState) n rp stack :
  path_chain es (dfs_path s) -> dfs_path s = rev rp -> color_inv s -> cycles_inv s ->
  dfs_colors s !! n = Some White ->
  (forall m, last (dfs_path s) = Some m -> edge_rel es m n) ->
  frames es (black s) (dfs_cycles s = []) (Some n) rp stack ->
  dfs_inv (mkDfs (<[n := Gray]> (dfs_colors s)) (dfs_path s ++ [n]) (dfs_cycles s)) (n :: rp)
    (rev ((fun e => (true, edge_to e))
            <$> List.filter (pushes_edge (<[n := Gray]> (dfs_colors s))) (graph_edges_from g n))
       ++ (false, n) :: stack).
Proof.
  intros Hch Hp (Hgray & Htab & Hnd) (Hcy & Htopo) Hn Hm Hfr.
  assert (Hb : forall x, <[n := Gray]> (dfs_colors s) !! x = Some Black <-> dfs_colors s !! x = Some Black).
  { intros x. destruct (decide (x = n)) as [->|].
    - rewrite lookup_insert_eq, Hn. split; done.
    - by rewrite lookup_insert_ne. }
  unfold dfs_inv, color_inv, cycles_inv. simpl. split_and!; [by rewrite Hp| | | | | |done|].
  - by apply path_chain_snoc.
  - set (next := List.filter _ _).
    replace (rev ((fun e => (true, edge_to e)) <$> next)) with
      ((fun x => (true, x)) <$> rev (edge_to <$> next)).
    2: { rewrite <- !map_rev, <- list_fmap_compose. done. }
    constructor.
    + intros x. rewrite list_elem_of_rev, list_elem_of_fmap. intros (e & -> & He).
      apply edge_step; [done|]. apply list_elem_of_fmap. exists e. split; [done|].
      by apply list_elem_of_Filter in He as [? _].
    + intros _ w Hw. rewrite list_elem_of_rev. pose proof (edge_tables _ _ Hw) as [_ Hwt].
      apply edge_step, list_elem_of_fmap in Hw as (e & -> & He); [|done].
      assert (Hcw : is_Some (<[n := Gray]> (dfs_colors s) !! edge_to e)).
      { destruct (decide (edge_to e = n)) as [->|]; [rewrite lookup_insert_eq; by eexists|].
        rewrite lookup_insert_ne by done. by apply Htab. }
      destruct Hcw as [[] Hc].
      * left. apply list_elem_of_fmap. exists e. split; [done|].
        apply list_elem_of_Filter. split; [done|]. unfold pushes_edge. by rewrite Hc.
      * left. apply list_elem_of_fmap. exists e. split; [done|].
        apply list_elem_of_Filter. split; [done|]. unfold pushes_edge. by rewrite Hc.
      * by right; left.
    + eapply frames_mono; [| |exact Hfr]; [|done]. intros x. by apply Hb.
  - intros x. rewrite elem_of_app, list_elem_of_singleton. destruct (decide (x = n)) as [->|Hne].
    + rewrite lookup_insert_eq. tauto.
    + rewrite lookup_insert_ne, Hgray by done. tauto.
  - intros x. rewrite Htab. destruct (decide (x = n)) as [->|Hne].
    + rewrite lookup_insert_eq, Hn. split; by eexists.
    + by rewrite lookup_insert_ne.
  - apply NoDup_app. split; [done|]. split; [|apply NoDup_singleton].
    intros x Hx ->%list_elem_of_singleton. apply Hgray in Hx. by rewrite Hn in Hx.
  - intros Hnil. destruct (Htopo Hnil) as (fin & Ht & Hf). exists fin. split; [done|].
    intros x. by rewrite Hb.
Qed.

(** A path that leads to a gray node is closed by an edge back to it. *)
Lemma dfs_back_edge s m n rp stack :
  dfs_inv s (m :: rp) stack -> edge_rel es m n -> dfs_colors s !! n = Some Gray ->
  is_cycle es (drop (default O (node_position n (dfs_path s))) (dfs_path s)).
Proof.
  intros (Hp & Hch & _ & (Hgray & _) & _) Hmn Hn.
  assert (Hlast : last (dfs_path s) = Some m) by (rewrite Hp; apply rev_last).
  apply Hgray in Hn. destruct (node_position n (dfs_path s)) as [i|] eqn:E; simpl.
  - eapply path_cycle; [done|exact Hlast|by apply node_position_Some|done].
  - by apply node_position_None in E.
Qed.

Lemma entered_enter s V n path cycles :
  entered s V -> entered (mkDfs (<[n := Gray]> (dfs_colors s)) path cycles) ({[n]} ∪ V).
Proof.
  intros HV y. simpl. destruct (decide (y = n)) as [->|].
  - rewrite lookup_insert_eq. set_solver.
  - rewrite lookup_insert_ne, elem_of_union, (HV y) by done. set_solver.
Qed.

Lemma entered_exit s V n path cycles :
  dfs_colors s !! n = Some Gray -> entered s V ->
  entered (mkDfs (<[n := Black]> (dfs_colors s)) path cycles) V.
Proof.
  intros Hn HV x. simpl. rewrite (HV x). destruct (decide (x = n)) as [->|].
  - rewrite lookup_insert_eq, Hn. naive_solver.
  - by rewrite lookup_insert_ne.
Qed.

(** An out-edge to a gray node: a cycle more, the search going on behind it. *)
Lemma dfs_gray s n x rp stack stack' :
  dfs_inv s (n :: rp) stack' -> edge_rel es n x -> dfs_colors s !! x = Some Gray ->
  frames es (black s) (dfs_cycles s = []) (Some x) (n :: rp) stack ->
  dfs_inv (mkDfs (dfs_colors s) (dfs_path s)
             (dfs_cycles s ++ [drop (default O (node_position x (dfs_path s))) (dfs_path s)]))
    (n :: rp) stack.
Proof.
  intros Hinv Hx Ex Hfr. pose proof (dfs_back_edge s n x rp stack' Hinv Hx Ex) as Hc.
  destruct Hinv as (Hp & Hch & _ & Hcol & [Hcy _]). split_and!; [done|done| |done|].
  - apply (frames_skip _ _ _ x); [by intros []%app_nil|].
    eapply frames_mono; [| |exact Hfr]; [done|by intros []%app_nil].
  - split; [apply Forall_app; split; [done|by constructor]|]. simpl. by intros []%app_nil.
Qed.

Lemma entered_tables s V : color_inv s -> entered s V -> V ⊆ graph_tables g.
Proof.
  intros (_ & Htab & _) He x Hx. apply Htab. apply He in Hx as [->| ->]; by eexists.
Qed.

Lemma measure_enter V n :
  n ∈ graph_tables g -> n ∉ V ->
  (size (graph_tables g ∖ V) + out_count es V
   = 1 + length (graph_edges_from g n)
     + (size (graph_tables g ∖ ({[n]} ∪ V)) + out_count es ({[n]} ∪ V)))%nat.
Proof.
  intros Ht Hn. rewrite (out_count_enter _ V n), edges_from_wf by done.
  replace (graph_tables g ∖ V) with ({[n]} ∪ (graph_tables g ∖ ({[n]} ∪ V))).
  2: { apply set_eq. intros x. destruct (decide (x = n)) as [->|]; set_solver. }
  rewrite size_union, size_singleton by set_solver. lia.
Qed.

Lemma measure_pushed s s' V n stack :
  n ∈ graph_tables g -> n ∉ V ->
  (dfs_measure s' ({[n]} ∪ V)
     (rev ((fun e => (true, edge_to e))
            <$> List.filter (pushes_edge (<[n := Gray]> (dfs_colors s))) (graph_edges_from g n))
        ++ (false, n) :: stack) <= dfs_measure s V stack)%nat.
Proof.
  intros Ht Hn. unfold dfs_measure. rewrite (measure_enter V n) by done.
  rewrite length_app, length_rev, length_fmap. simpl.
  pose proof (filter_length_le (pushes_edge (<[n := Gray]> (dfs_colors s))) (graph_edges_from g n)).
  lia.
Qed.

Lemma dfs_loop_spec fuel s V rp stack :
  dfs_inv s rp stack -> entered s V -> (dfs_measure s V stack < fuel)%nat ->
  exists s' V', dfs_loop g fuel s stack = Some s' /\ dfs_inv s' [] []
    /\ entered s' V' /\ V ⊆ V'.
Proof.
  revert s V rp stack. induction fuel as [|fuel IH]; intros s V rp stack Hinv HV Hm; [lia|].
  pose proof Hinv as (Hp & Hch & Hfr & Hcol & Hcy).
  inversion Hfr as [c|c n rp' [|x cs] st Hcs Hdone Hfr']; subst; simpl.
  - exists s, V. split; [done|]. split; [exact Hinv|done].
  - apply (IH _ V rp').
    + eapply dfs_exit; [exact Hinv|exact Hfr'|]. intros Hnil w Hw.
      destruct (Hdone Hnil w Hw) as [|[|]]; [set_solver|done|done].
    + apply entered_exit; [|done]. apply (proj1 Hcol). rewrite Hp. set_solver.
    + unfold dfs_measure in *. simpl in Hm. lia.
  - assert (Hx : edge_rel es n x) by (apply Hcs; left).
    destruct (edge_tables _ _ Hx) as [_ Hxt].
    pose proof (frames_visit _ _ _ _ _ _ _ _ Hcs Hdone Hfr') as Hvisit.
    assert (Hm' : (dfs_measure s V (((fun x => (true, x)) <$> cs) ++ (false, n) :: st) < fuel)%nat)
      by (revert Hm; unfold dfs_measure; rewrite fmap_cons; cbn [app length]; lia).
    destruct (dfs_colors s !! x) as [[]|] eqn:Ex.
    + assert (HxV : x ∉ V) by (rewrite (HV x), Ex; naive_solver).
      edestruct IH as (s' & V' & H & H' & H'' & Hsub);
        [|apply entered_enter, HV| |exists s', V'; split; [exact H|split; [done|split; [done|set_solver]]]].
      * apply dfs_enter; [done..| |done]. intros m Hm1. rewrite Hp, rev_last in Hm1. by simplify_eq.
      * eapply Nat.le_lt_trans; [by apply measure_pushed|done].
    + apply (IH _ V (n :: rp')); [by eapply dfs_gray|done|done].
    + apply (IH _ V (n :: rp')); [|done|done]. split_and!; [done|done| |done|done].
      eapply frames_skip; [|exact Hvisit]. done.
    + exfalso. apply Hcol in Hxt as [? ?]. congruence.
Qed.

Lemma dfs_start s V n :
  dfs_inv s [] [] -> entered s V -> n ∈ graph_tables g -> dfs_colors s !! n = Some White ->
  exists s' V', dfs_loop g (dfs_fuel g) s [(true, n)] = Some s' /\ dfs_inv s' [] []
    /\ entered s' V' /\ {[n]} ∪ V ⊆ V'.
Proof.
  intros (Hp & Hch & Hfr & Hcol & Hcy) HV Ht Hn. unfold dfs_fuel.
  remember (S (size (graph_tables g) + length es)) as k eqn:Hk. simpl. rewrite Hn.
  assert (HnV : n ∉ V) by (rewrite (HV n), Hn; naive_solver).
  eapply (dfs_loop_spec _ _ _ [n]).
  - eapply (dfs_enter s n [] []); [done..| |constructor]. intros m Hm. rewrite Hp in Hm. done.
  - by apply entered_enter.
  - eapply Nat.le_lt_trans; [by apply measure_pushed|]. unfold dfs_measure.
    pose proof (out_count_le es V).
    pose proof (subseteq_size (graph_tables g ∖ V) (graph_tables g) ltac:(set_solver)).
    subst k. simpl. lia.
Qed.

Lemma dfs_starts_spec starts s V :
  dfs_inv s [] [] -> entered s V -> (forall n, n ∈ starts -> n ∈ graph_tables g) ->
  exists s' V', dfs_starts g starts s = Some s' /\ dfs_inv s' [] [] /\ entered s' V'
    /\ V ⊆ V' /\ forall n, n ∈ starts -> n ∈ V'.
Proof.
  revert s V. induction starts as [|n starts IH]; intros s V Hinv HV Hst; cbn [dfs_starts].
  { exists s, V. split; [done|]. split; [done|]. set_solver. }
  assert (Hn : n ∈ graph_tables g) by (apply Hst; left).
  assert (Hst' : forall x, x ∈ starts -> x ∈ graph_tables g) by (intros; apply Hst; by right).
  pose proof Hinv as (_ & _ & _ & (_ & Htab & _) & _).
  destruct (dfs_colors s !! n) as [c|] eqn:Hc; [|apply Htab in Hn as [? ?]; congruence].
  destruct (decide (c = White)) as [->|Hne].
  - destruct (dfs_start s V n) as (s1 & V1 & -> & H1 & H1' & Hsub); [done..|]. cbn [mbind option_bind].
    destruct (IH s1 V1) as (s' & V' & -> & H & H' & HV' & Hall); [done..|].
    exists s', V'. split; [done|]. split; [done|]. split; [done|]. set_solver.
  - destruct (IH s V) as (s' & V' & E & H & H' & HV' & Hall); [done..|].
    exists s', V'. split; [by destruct c|]. split; [done|]. split; [done|]. split; [done|].
    intros x [->|Hx]%elem_of_cons; [|auto]. apply HV', HV. rewrite Hc. destruct c; auto; done.
Qed.

Lemma dfs_init_inv all_tables :
  all_tables ≡ₚ elements (graph_tables g) ->
  let s := mkDfs (list_to_map ((fun t => (t, White)) <$> all_tables)) [] [] in
  dfs_inv s [] [] /\ entered s ∅.
Proof.
  intros Hperm s.
  assert (Hw : forall x c, dfs_colors s !! x = Some c -> c = White /\ x ∈ all_tables).
  { intros x c Hx. apply elem_of_list_to_map_2, list_elem_of_fmap in Hx as (y & [= -> ->] & Hy).
    done. }
  split.
  - split; [done|]. split; [by intros i x y Hx|]. split; [constructor|]. split; [split; [|split]|split].
    + intros x. split; [intros Hx; by apply Hw in Hx as [? _]|set_solver].
    + intros x. rewrite <- elem_of_elements, <- Hperm. split.
      * intros Hx. destruct (dfs_colors s !! x) as [c|] eqn:E; [by eexists|].
        apply not_elem_of_list_to_map in E. exfalso. apply E.
        rewrite <- list_fmap_compose, list_elem_of_fmap. by exists x.
      * intros [c Hx]. by apply Hw in Hx as [_ ?].
    + constructor.
    + constructor.
    + intros _. exists []. split; [constructor|]. intros x.
      split; [intros Hx; by apply Hw in Hx as [? _]|set_solver].
  - intros x. split; [set_solver|]. intros [Hx|Hx]; by apply Hw in Hx as [? _].
Qed.
End dfs.

Lemma detect_cycles_ok (g : RelationGraph) (all_tables : list string) :
  graph_wf g -> all_tables ≡ₚ elements (graph_tables g) ->
  exists cycles, graph_detect_cycles g all_tables = Some cycles
    /\ Forall (is_cycle (rg_edges g)) cycles
    /\ (cycles = [] <-> acyclic (rg_edges g)).
Proof.
  intros Hwf Hperm. destruct (dfs_init_inv g Hwf all_tables Hperm) as [Hi Hv].
  destruct (dfs_starts_spec g Hwf all_tables _ ∅ Hi Hv) as (s' & V' & E & Hinv & HV' & _ & Hall).
  { intros n. by rewrite Hperm, elem_of_elements. }
  unfold graph_detect_cycles. rewrite E. exists (dfs_cycles s'). split; [done|].
  destruct Hinv as (Hp & _ & _ & (Hgray & _) & (Hcy & Htopo)). split; [done|]. split.
  - intros Hnil x Hx. destruct (Htopo Hnil) as (fin & Ht & Hf).
    apply (topo_acyclic _ _ x Ht); [|done]. apply Hf.
    assert (x ∈ V') as [Hg|]%HV'; [|by apply Hgray in Hg; rewrite Hp in Hg; set_solver|done].
    apply Hall. rewrite Hperm, elem_of_elements.
    inversion Hx as [? ? H|? ? ? H _]; subst; by apply edge_tables in H as [? _].
  - intros Hac. destruct (dfs_cycles s') as [|c cs]; [done|].
    apply Forall_cons in Hcy as [(x & Hx)%is_cycle_tc _]. by apply Hac in Hx.
Qed.

(** C21: [detect_cycles] ends; every list it reports is a closed walk of the graph, and it reports one
    exactly when the graph has a cycle, in whatever order the hash set yields the tables. *)
Theorem detect_cycles_correct (g : RelationGraph) (all_tables : list string) :
  graph_wf g -> all_tables ≡ₚ elements (graph_tables g) ->
  exists cycles, graph_detect_cycles g all_tables = Some cycles
    /\ Forall (is_cycle (rg_edges g)) cycles
    /\ (cycles = [] <-> acyclic (rg_edges g)).
Proof. exact (detect_cycles_ok g all_tables). Qed.

Definition sample_edge (a b : string) : RelationEdge := mkEdge a b OneToMany (b +:+ "_id") None.
Definition sample_graph : RelationGraph :=
  graph_add_edge_unchecked (graph_add_edge_unchecked (graph_add_edge_unchecked graph_new
    (sample_edge "country" "province")) (sample_edge "province" "pop"))
    (sample_edge "pop" "country").

Lemma detect_cycles_correct_witness :
  exists cycles, graph_detect_cycles sample_graph ["country"; "pop"; "province"] = Some cycles
    /\ Forall (is_cycle (rg_edges sample_graph)) cycles /\ cycles <> [].
Proof.
  destruct (detect_cycles_correct sample_graph ["country"; "pop"; "province"])
    as (cycles & E & H & _).
  - vm_compute. reflexivity.
  - apply NoDup_Permutation.
    + apply (bool_decide_unpack _). vm_compute. exact I.
    + apply NoDup_elements.
    + intros x. unfold graph_tables. rewrite elem_of_elements, elem_of_list_to_set. simpl. set_solver.
  - exists cycles. split; [exact E|]. split; [exact H|]. vm_compute in E. injection E as <-. discriminate.
Defined.

(** C22: A relation graph built by [add_edge] never has a cycle: the edge is added exactly when no
    relation of these tables exists and it closes no cycle, and each refusal is justified (the error
    names the two ends of the edge, not the tables on the cycle); the adjacency index stays the one
    [rebuild_adjacency] computes. *)
Theorem graph_add_edge_acyclic (g : RelationGraph) (e : RelationEdge) :
  graph_inv g ->
  match graph_add_edge g e with
  | Ok g' => graph_inv g' /\ rg_edges g' = rg_edges g ++ [e]
  | Err err =>
      (err = RelationAlreadyExists (edge_from e) (edge_to e)
       /\ exists d, d ∈ rg_edges g /\ edge_from d = edge_from e /\ edge_to d = edge_to e)
      \/ (err = CircularRelation (edge_from e +:+ " -> " +:+ edge_to e)
          /\ ~ acyclic (rg_edges g ++ [e]))
  end.
Proof.
  intros Hinv. destruct (graph_add_edge g e) as [g'|err] eqn:E; [by apply graph_add_edge_inv|].
  destruct Hinv as (Hwf & _ & Hac). unfold graph_add_edge in E.
  pose proof (find_edge_spec g (edge_from e) (edge_to e)) as Hf.
  destruct (graph_find_edge _ _ _) as [d|]; [simplify_eq; left; split; [done|by exists d]|].
  destruct (graph_would_create_cycle _ _ _) eqn:Hc; [|done]. simplify_eq. right. split; [done|].
  rewrite acyclic_snoc by done. apply would_create_cycle_spec in Hc; tauto.
Qed.

Lemma graph_add_edge_acyclic_witness :
  match graph_add_edge graph_new (sample_edge "country" "country") with
  | Ok _ => False
  | Err err => err = CircularRelation "country -> country"
  end.
Proof.
  pose proof (graph_add_edge_acyclic graph_new (sample_edge "country" "country") graph_new_inv) as H.
  destruct (graph_add_edge _ _) eqn:E; [vm_compute in E; discriminate E|].
  destruct H as [[_ (d & Hd & _)]|[-> _]]; [apply not_elem_of_nil in Hd; destruct Hd|reflexivity].
Defined.
