(* ===== verification/Registry.v ===== *)
(** * Registry: the schema registry and its manifests

    Models [manifest.rs] (but for TOML and JSON text, written and read by third-party crates) and
    [registry.rs]. A method taking [&mut self] that changes nothing when it fails returns the new
    registry in a [result]; [load_from_manifest], which can fail half way, returns the registry it
    leaves with its outcome. The order in which a hash table yields its entries is an argument. *)

From Stdlib Require Import Ascii String.
From stdpp Require Import base gmap strings list relations fin_maps.
From Stdlib Require Import ZArith Lia.
From S2P Require Import Prelude CoreTypes SchemaTables Relations.

(** ** Manifests *)

Record ModFingerprint := mkModFingerprint {
  mf_mod_id : string; mf_version : string; mf_table_specs : list string; mf_content_hash : string }.

Definition mod_fingerprint_new (mod_id version : string) : ModFingerprint :=
  mkModFingerprint mod_id version [] "".
Definition mod_fingerprint_with_table_spec (m : ModFingerprint) (name : string) : ModFingerprint :=
  mkModFingerprint (mf_mod_id m) (mf_version m) (mf_table_specs m ++ [name]) (mf_content_hash m).
Definition mod_fingerprint_with_content_hash (m : ModFingerprint) (hash : string) : ModFingerprint :=
  mkModFingerprint (mf_mod_id m) (mf_version m) (mf_table_specs m) hash.

Record SchemaManifest := mkManifest {
  sm_schema_version : string; sm_tables : list TableSpec; sm_relations : list RelationEdge;
  sm_mod_fingerprints : list ModFingerprint; sm_metadata : gmap string string }.

Definition manifest_new (version : string) : SchemaManifest := mkManifest version [] [] [] ∅.
Definition manifest_with_table (m : SchemaManifest) (t : TableSpec) : SchemaManifest :=
  mkManifest (sm_schema_version m) (sm_tables m ++ [t]) (sm_relations m)
    (sm_mod_fingerprints m) (sm_metadata m).
Definition manifest_with_relation (m : SchemaManifest) (e : RelationEdge) : SchemaManifest :=
  mkManifest (sm_schema_version m) (sm_tables m) (sm_relations m ++ [e])
    (sm_mod_fingerprints m) (sm_metadata m).
Definition manifest_with_mod_fingerprint (m : SchemaManifest) (f : ModFingerprint) : SchemaManifest :=
  mkManifest (sm_schema_version m) (sm_tables m) (sm_relations m)
    (sm_mod_fingerprints m ++ [f]) (sm_metadata m).
Definition manifest_with_metadata (m : SchemaManifest) (key value : string) : SchemaManifest :=
  mkManifest (sm_schema_version m) (sm_tables m) (sm_relations m)
    (sm_mod_fingerprints m) (<[key := value]> (sm_metadata m)).
Definition manifest_get_table (m : SchemaManifest) (name : string) : option TableSpec :=
  List.find (fun t => bool_decide (ts_name t = name)) (sm_tables m).
Definition find_mod_fingerprint (l : list ModFingerprint) (mod_id : string) : option ModFingerprint :=
  List.find (fun f => bool_decide (mf_mod_id f = mod_id)) l.
Definition manifest_get_mod_fingerprint (m : SchemaManifest) (mod_id : string)
  : option ModFingerprint := find_mod_fingerprint (sm_mod_fingerprints m) mod_id.

Record MigratedSchemaManifest := mkMigrated {
  mm_manifest : SchemaManifest; mm_original_version : string; mm_applied_migrations : list string }.

Definition migrated_new (m : SchemaManifest) (original_version : string) : MigratedSchemaManifest :=
  mkMigrated m original_version [].
Definition migrated_record_migration (m : MigratedSchemaManifest) (name : string)
  : MigratedSchemaManifest :=
  mkMigrated (mm_manifest m) (mm_original_version m) (mm_applied_migrations m ++ [name]).
Definition migrated_tables (m : MigratedSchemaManifest) : list TableSpec := sm_tables (mm_manifest m).
Definition migrated_relations (m : MigratedSchemaManifest) : list RelationEdge :=
  sm_relations (mm_manifest m).

(** ** The registry *)

Record SchemaRegistry := mkRegistry {
  sr_tables : gmap string TableSpec; sr_relations : RelationGraph; sr_frozen : bool;
  sr_mod_fingerprints : list ModFingerprint; sr_migrated_manifest : option MigratedSchemaManifest }.

Definition registry_new : SchemaRegistry := mkRegistry ∅ graph_new false [] None.

Definition with_tables (r : SchemaRegistry) t :=
  mkRegistry t (sr_relations r) (sr_frozen r) (sr_mod_fingerprints r) (sr_migrated_manifest r).
Definition with_relations (r : SchemaRegistry) g :=
  mkRegistry (sr_tables r) g (sr_frozen r) (sr_mod_fingerprints r) (sr_migrated_manifest r).
Definition with_fingerprints (r : SchemaRegistry) f :=
  mkRegistry (sr_tables r) (sr_relations r) (sr_frozen r) f (sr_migrated_manifest r).
Definition with_migrated (r : SchemaRegistry) m :=
  mkRegistry (sr_tables r) (sr_relations r) (sr_frozen r) (sr_mod_fingerprints r) (Some m).

Definition registry_freeze (r : SchemaRegistry) : SchemaRegistry :=
  mkRegistry (sr_tables r) (sr_relations r) true (sr_mod_fingerprints r) (sr_migrated_manifest r).

Definition registry_store_mod_fingerprints (r : SchemaRegistry) (f : list ModFingerprint)
  : SchemaResult SchemaRegistry :=
  if sr_frozen r then Err RegistryFrozen else Ok (with_fingerprints r f).

Definition registry_get_mod_fingerprint (r : SchemaRegistry) (mod_id : string)
  : option ModFingerprint := find_mod_fingerprint (sr_mod_fingerprints r) mod_id.

Definition registry_set_migrated_manifest (r : SchemaRegistry) (m : MigratedSchemaManifest)
  : SchemaResult SchemaRegistry :=
  if sr_frozen r then Err RegistryFrozen else Ok (with_migrated r m).

Definition registry_register (r : SchemaRegistry) (spec : TableSpec) : SchemaResult SchemaRegistry :=
  if bool_decide (ts_name spec = "") then Err (InvalidTableName (ts_name spec))
  else if sr_frozen r then Err RegistryFrozen
  else match sr_tables r !! ts_name spec with
       | Some _ => Err (TableAlreadyExists (ts_name spec))
       | None => Ok (with_tables r (<[ts_name spec := spec]> (sr_tables r)))
       end.

Definition registry_get (r : SchemaRegistry) (name : string) : SchemaResult TableSpec :=
  ok_or (sr_tables r !! name) (TableNotFound name).

(** The caller of [get_mut] may write anything through the reference: [f]. *)
Definition registry_get_mut (r : SchemaRegistry) (name : string) (f : TableSpec -> TableSpec)
  : SchemaResult SchemaRegistry :=
  if sr_frozen r then Err RegistryFrozen
  else let? t := ok_or (sr_tables r !! name) (TableNotFound name) in
       Ok (with_tables r (<[name := f t]> (sr_tables r))).

Definition registry_remove (r : SchemaRegistry) (name : string)
  : SchemaResult (SchemaRegistry * TableSpec) :=
  if sr_frozen r then Err RegistryFrozen
  else let? t := ok_or (sr_tables r !! name) (TableNotFound name) in
       Ok (with_tables r (delete name (sr_tables r)), t).

Definition registry_contains (r : SchemaRegistry) (name : string) : bool :=
  bool_decide (is_Some (sr_tables r !! name)).

Definition registry_add_relation (r : SchemaRegistry) (e : RelationEdge)
  : SchemaResult SchemaRegistry :=
  if sr_frozen r then Err RegistryFrozen
  else if negb (registry_contains r (edge_from e)) then Err (TableNotFound (edge_from e))
  else if negb (registry_contains r (edge_to e)) then Err (TableNotFound (edge_to e))
  else let? g := graph_add_edge (sr_relations r) e in Ok (with_relations r g).

Definition registry_remove_relation (r : SchemaRegistry) (from to : string)
  : SchemaResult SchemaRegistry :=
  if sr_frozen r then Err RegistryFrozen
  else let? g := graph_remove_edge (sr_relations r) from to in Ok (with_relations r g).

Definition registry_children_of (r : SchemaRegistry) (name : string) : list string :=
  edge_to <$> graph_edges_from (sr_relations r) name.

Section load.
(** The order [HashSet<String>] iterates in, and [{:?}] of a [Vec<String>]. *)
Context (hash_order : gset string -> list string) (debug_path : list string -> string).

Definition registry_load_from_manifest (r : SchemaRegistry) (migrated : MigratedSchemaManifest)
  : SchemaRegistry * SchemaResult unit :=
  if sr_frozen r then (r, Err RegistryFrozen)
  else
    let r := with_migrated r migrated in
    let r := with_fingerprints r (sm_mod_fingerprints (mm_manifest migrated)) in
    match try_each registry_register r (migrated_tables migrated) with
    | (r, Err e) => (r, Err e)
    | (r, Ok _) =>
        match try_each registry_add_relation r (migrated_relations migrated) with
        | (r, Err e) => (r, Err e)
        | (r, Ok _) =>
            match default [] (graph_detect_cycles (sr_relations r)
                                (hash_order (graph_tables (sr_relations r)))) with
            | [] => (r, Ok tt)
            | c :: _ =>
                (r, Err (CircularRelation ("cycle detected in relation graph: " +:+ debug_path c)))
            end
        end
    end.
End load.

(** [order] is the order in which [tables.values()] yields the tables. *)
Definition registry_export_manifest (r : SchemaRegistry) (version : string) (order : list string)
  : SchemaManifest :=
  let m := foldl manifest_with_table (manifest_new version) (omap (fun k => sr_tables r !! k) order) in
  let m := foldl manifest_with_relation m (rg_edges (sr_relations r)) in
  foldl manifest_with_mod_fingerprint m (sr_mod_fingerprints r).

(** ** Loading: what a manifest must satisfy *)

Definition edge_ends (e : RelationEdge) : string * string := (edge_from e, edge_to e).

Definition tables_valid (tables : gmap string TableSpec) (ts : list TableSpec) : Prop :=
  NoDup (ts_name <$> ts) /\ forall t, t ∈ ts -> ts_name t <> "" /\ tables !! ts_name t = None.

Definition relations_valid (names : string -> Prop) (old es : list RelationEdge) : Prop :=
  (forall e, e ∈ es -> names (edge_from e) /\ names (edge_to e))
  /\ NoDup (edge_ends <$> (old ++ es)) /\ acyclic (old ++ es).

Definition manifest_valid (m : SchemaManifest) : Prop :=
  tables_valid ∅ (sm_tables m)
  /\ relations_valid (fun n => n ∈ (ts_name <$> sm_tables m)) [] (sm_relations m).

Lemma registry_register_spec r t :
  sr_frozen r = false ->
  match registry_register r t with
  | Ok r' => (ts_name t <> "" /\ sr_tables r !! ts_name t = None)
             /\ r' = with_tables r (<[ts_name t := t]> (sr_tables r))
  | Err _ => ~ (ts_name t <> "" /\ sr_tables r !! ts_name t = None)
  end.
Proof.
  intros Hf. unfold registry_register. rewrite Hf. case_bool_decide; [tauto|].
  destruct (_ !! _); [naive_solver|done].
Qed.

Lemma register_each r ts :
  sr_frozen r = false ->
  match try_each registry_register r ts with
  | (r', Ok _) => tables_valid (sr_tables r) ts
      /\ r' = with_tables r (sr_tables r')
      /\ forall n t, sr_tables r' !! n = Some t <->
           sr_tables r !! n = Some t \/ (t ∈ ts /\ ts_name t = n)
  | (_, Err _) => ~ tables_valid (sr_tables r) ts
  end.
Proof.
  revert r. induction ts as [|t ts IH]; intros r Hf; simpl.
  - split; [split; [constructor|set_solver]|]. split; [by destruct r|]. set_solver.
  - pose proof (registry_register_spec r t Hf) as Hr.
    destruct (registry_register r t) as [r1|e].
    + destruct Hr as [[Hne Hnone] ->]. specialize (IH (with_tables r (<[ts_name t:=t]> (sr_tables r))) Hf).
      assert (Hval : tables_valid (<[ts_name t:=t]> (sr_tables r)) ts <-> tables_valid (sr_tables r) (t :: ts)).
      { unfold tables_valid. rewrite fmap_cons, NoDup_cons. split.
        - intros [Hnd Hts]. split; [split; [|done]|].
          + intros (u & Hu & Hin)%list_elem_of_fmap. apply Hts in Hin as [_ Hin].
            by rewrite <- Hu, lookup_insert_eq in Hin.
          + intros u [->|Hu]%elem_of_cons; [done|]. apply Hts in Hu as [? Hu].
            by apply lookup_insert_None in Hu as [? _].
        - intros [[Hni Hnd] Hts]. split; [done|]. intros u Hu. destruct (Hts u) as [? Hnu]; [by right|].
          split; [done|]. rewrite lookup_insert_ne; [done|]. intros E. apply Hni.
          apply list_elem_of_fmap. by exists u. }
      destruct (try_each _ _ _) as [r' []]; [|by rewrite <- Hval].
      destruct IH as (Hv & Hr' & Hl). split; [by apply Hval|]. split; [done|].
      intros n u. rewrite Hl. simpl. rewrite lookup_insert_Some, elem_of_cons. split.
      * intros [[[<- <-]|[Hn Hu]]|[Hu <-]]; auto.
      * intros [Hu|[[->|Hu] <-]]; [|by auto..]. left. right. split; [|done]. congruence.
    + intros [_ H]. apply Hr, H. left.
Qed.

Lemma graph_add_edge_ok g e :
  graph_inv g ->
  match graph_add_edge g e with
  | Ok g' => graph_inv g' /\ rg_edges g' = rg_edges g ++ [e]
  | Err _ => ~ (NoDup (edge_ends <$> (rg_edges g ++ [e])) /\ acyclic (rg_edges g ++ [e]))
  end.
Proof.
  intros Hinv. destruct (graph_add_edge g e) as [g'|err] eqn:E; [by apply graph_add_edge_inv|].
  destruct Hinv as (Hwf & _ & Hac). unfold graph_add_edge in E.
  pose proof (find_edge_spec g (edge_from e) (edge_to e)) as Hf. intros [Hnd Hac'].
  destruct (graph_find_edge _ _ _) as [d|].
  - rewrite fmap_app in Hnd. apply NoDup_app in Hnd as (_ & Hnd & _).
    apply (Hnd (edge_ends e)); [|left]. apply list_elem_of_fmap. exists d. split; [|tauto].
    destruct Hf as (_ & Hf1 & Hf2). unfold edge_ends. congruence.
  - destruct (graph_would_create_cycle _ _ _) eqn:Hc; [|done].
    apply acyclic_snoc in Hac'; [|done]. apply Hac', would_create_cycle_spec; done.
Qed.

Lemma add_relation_each r es :
  sr_frozen r = false -> graph_inv (sr_relations r) ->
  match try_each registry_add_relation r es with
  | (r', Ok _) =>
      relations_valid (fun n => is_Some (sr_tables r !! n)) (rg_edges (sr_relations r)) es
      /\ r' = with_relations r (sr_relations r') /\ graph_inv (sr_relations r')
      /\ rg_edges (sr_relations r') = rg_edges (sr_relations r) ++ es
  | (_, Err _) =>
      ~ relations_valid (fun n => is_Some (sr_tables r !! n)) (rg_edges (sr_relations r)) es
  end.
Proof.
  revert r. induction es as [|e es IH]; intros r Hf Hinv; simpl.
  - rewrite app_nil_r. split; [split; [set_solver|]|].
    + rewrite app_nil_r. by destruct Hinv as (_ & ? & ?).
    + by destruct r.
  - unfold registry_add_relation at 1. rewrite Hf. unfold registry_contains.
    case_bool_decide as H1; simpl; [|intros (H & _); by apply H1, (H e (list_elem_of_here _ _))].
    case_bool_decide as H2; simpl; [|intros (H & _); by apply H2, (H e (list_elem_of_here _ _))].
    pose proof (graph_add_edge_ok (sr_relations r) e Hinv) as Hg.
    destruct (graph_add_edge _ _) as [g'|err].
    + destruct Hg as [Hg Hes]. specialize (IH (with_relations r g') Hf Hg).
      assert (Hval : relations_valid (fun n => is_Some (sr_tables r !! n)) (rg_edges g') es
                <-> relations_valid (fun n => is_Some (sr_tables r !! n)) (rg_edges (sr_relations r)) (e :: es)).
      { unfold relations_valid. rewrite Hes, <- app_assoc. simpl. split.
        - intros [He ?]. split; [|done]. intros d [->|Hd]%elem_of_cons; auto.
        - intros [He ?]. split; [|done]. intros d Hd. apply He. by right. }
      destruct (try_each _ _ _) as [r' []]; [|by rewrite <- Hval]. simpl in IH.
      destruct IH as (Hv & Hr' & Hg' & Hes'). split; [by apply Hval|]. split; [done|]. split; [done|].
      by rewrite Hes', Hes, <- app_assoc.
    + intros (_ & Hnd & Hac). apply Hg. split.
      * rewrite (app_assoc _ [e] es), fmap_app in Hnd. by apply NoDup_app in Hnd as [? _].
      * eapply acyclic_mono; [|exact Hac]. set_solver.
Qed.

Lemma foldl_export m ts es fs :
  foldl manifest_with_mod_fingerprint
    (foldl manifest_with_relation (foldl manifest_with_table m ts) es) fs
  = mkManifest (sm_schema_version m) (sm_tables m ++ ts) (sm_relations m ++ es)
      (sm_mod_fingerprints m ++ fs) (sm_metadata m).
Proof.
  revert m. induction ts as [|t ts IH]; simpl; intros m.
  - revert m. induction es as [|e es IH]; simpl; intros m.
    + revert m. induction fs as [|f fs IH]; simpl; intros m; [rewrite !app_nil_r; by destruct m|].
      rewrite IH. simpl. by rewrite <- app_assoc.
    + rewrite IH. simpl. by rewrite <- app_assoc.
  - rewrite IH. simpl. by rewrite <- app_assoc.
Qed.

(** The tables of a map whose keys are the tables' names, in any order. *)
Lemma export_tables (tables : gmap string TableSpec) ts order :
  NoDup (ts_name <$> ts) ->
  (forall n t, tables !! n = Some t <-> t ∈ ts /\ ts_name t = n) ->
  order ≡ₚ elements (dom tables) ->
  omap (fun k => tables !! k) order ≡ₚ ts.
Proof.
  intros Hnd Ht Ho.
  assert (Hin : forall k, k ∈ order -> is_Some (tables !! k)).
  { intros k. by rewrite Ho, elem_of_elements, elem_of_dom. }
  assert (Hnames : ts_name <$> omap (fun k => tables !! k) order = order).
  { clear Ho. induction order as [|k order IH]; [done|]. csimpl.
    destruct (Hin k (list_elem_of_here _ _)) as [t Hk]. rewrite Hk. simpl.
    apply Ht in Hk as [_ ->]. f_equal. apply IH. intros j Hj. apply Hin. by right. }
  apply NoDup_Permutation.
  - apply (NoDup_fmap_1 ts_name). rewrite Hnames, Ho. apply NoDup_elements.
  - by apply NoDup_fmap_1 in Hnd.
  - intros t. rewrite list_elem_of_omap. split.
    + intros (k & _ & Hk). by apply Ht in Hk as [? _].
    + intros Hin'. exists (ts_name t). assert (Hk : tables !! ts_name t = Some t) by (by apply Ht).
      split; [|done]. rewrite Ho, elem_of_elements, elem_of_dom. by eexists.
Qed.

(** C23: A new registry takes a manifest exactly when its table names are distinct and not empty, its
    relations join declared tables, no two join the same two, and they have no cycle (whether the
    columns a relation names are there is not looked at: [absent_from_column_loads]); it then
    exports the tables (in some order), the relations and the fingerprints it was given. The
    global cycle check after the relations are added never fires. *)
Theorem registry_load_export (hash_order : gset string -> list string)
    (debug_path : list string -> string) (mm : MigratedSchemaManifest) (version : string) :
  (forall s, hash_order s ≡ₚ elements s) ->
  match registry_load_from_manifest hash_order debug_path registry_new mm with
  | (r, Ok _) =>
      manifest_valid (mm_manifest mm)
      /\ graph_inv (sr_relations r) /\ sr_migrated_manifest r = Some mm
      /\ forall order, order ≡ₚ elements (dom (sr_tables r)) ->
           let m := registry_export_manifest r version order in
           sm_tables m ≡ₚ migrated_tables mm /\ sm_relations m = migrated_relations mm
           /\ sm_mod_fingerprints m = sm_mod_fingerprints (mm_manifest mm)
  | (_, Err _) => ~ manifest_valid (mm_manifest mm)
  end.
Proof.
  intros Hord. unfold registry_load_from_manifest. simpl.
  set (r0 := with_fingerprints _ _).
  pose proof (register_each r0 (migrated_tables mm) eq_refl) as Ht.
  destruct (try_each registry_register r0 _) as [r1 [[]|e]]; [|by intros [? _]].
  destruct Ht as (Hv & -> & Hl). set (r1' := with_tables _ _) in *.
  change (sr_tables r0) with (∅ : gmap string TableSpec) in *.
  pose proof (add_relation_each r1' (migrated_relations mm) eq_refl graph_new_inv) as Hr.
  assert (Hnames : forall n, is_Some (sr_tables r1' !! n) <-> n ∈ (ts_name <$> migrated_tables mm)).
  { intros n. rewrite list_elem_of_fmap. split.
    - intros [t Hn]. apply Hl in Hn as [Hn|[? ?]]; [by rewrite lookup_empty in Hn|]. by exists t.
    - intros (t & -> & Hin). exists t. apply Hl. by right. }
  assert (Hval : relations_valid (fun n => is_Some (sr_tables r1' !! n)) [] (migrated_relations mm)
    <-> relations_valid (fun n => n ∈ (ts_name <$> migrated_tables mm)) [] (migrated_relations mm)).
  { unfold relations_valid. by setoid_rewrite Hnames. }
  destruct (try_each registry_add_relation r1' _) as [r2 [[]|e]]; [|intros [_ H]; apply Hr, Hval, H].
  destruct Hr as (Hrv & Hr2 & Hg & Hes).
  destruct (detect_cycles_ok (sr_relations r2) (hash_order (graph_tables (sr_relations r2))))
    as (cycles & -> & _ & Hcyc); [apply Hg|apply Hord|].
  assert (cycles = []) as -> by (apply Hcyc, Hg). simpl.
  split; [split; [done|by apply Hval]|]. split; [done|]. split; [by rewrite Hr2|].
  intros order Ho. unfold registry_export_manifest. rewrite foldl_export. simpl.
  rewrite Hr2 in *. simpl in *. split; [|split; [done|done]].
  apply export_tables; [apply Hv| |done]. intros n t. rewrite Hl, lookup_empty. naive_solver.
Qed.

Definition sample_manifest : SchemaManifest :=
  manifest_with_relation
    (manifest_with_table (manifest_with_table (manifest_new "1.0") (table_new "country"))
       (table_new "province"))
    (sample_edge "country" "province").

Lemma registry_load_export_witness :
  match registry_load_from_manifest elements (String.concat ",") registry_new
          (migrated_new sample_manifest "1.0") with
  | (r, Ok _) => sm_relations (registry_export_manifest r "1.0" ["province"; "country"])
                 = [sample_edge "country" "province"]
  | (_, Err _) => False
  end.
Proof.
  pose proof (registry_load_export elements (String.concat ",") (migrated_new sample_manifest "1.0")
                "1.0" (fun s => Permutation_refl _)) as H.
  destruct (registry_load_from_manifest _ _ _ _) as [r [u|e]] eqn:E.
  - apply H. assert (Hr : elements (dom (sr_tables r)) = ["country"; "province"]
                      \/ elements (dom (sr_tables r)) = ["province"; "country"]).
    { apply (f_equal fst) in E. cbn [fst] in E. rewrite <- E. vm_compute. tauto. }
    destruct Hr as [-> | ->]; [apply perm_swap | reflexivity].
  - apply (f_equal snd) in E. vm_compute in E. discriminate E.
Defined.

(** The relation of the sample starts at a column its table does not have, and is taken. *)
Example absent_from_column_loads :
  is_ok (registry_load_from_manifest elements (String.concat ",") registry_new (migrated_new sample_manifest "1.0")).2 = true
  /\ (edge_from_column <$> sm_relations sample_manifest) = ["province_id"]
  /\ (ts_columns <$> sm_tables sample_manifest) = [[]; []].
Proof. vm_compute. split_and!; reflexivity. Qed.

(** Freezing a frozen registry succeeds and changes nothing. *)
Lemma freeze_twice r : registry_freeze (registry_freeze r) = registry_freeze r.
Proof. reflexivity. Qed.

(** ** Operations as steps: the frozen registry and the registry's invariant *)

Inductive RegistryOp :=
| OpStoreFingerprints (f : list ModFingerprint)
| OpLoad (m : MigratedSchemaManifest)
| OpSetManifest (m : MigratedSchemaManifest)
| OpRegister (t : TableSpec)
| OpGetMut (name : string) (f : TableSpec -> TableSpec)
| OpRemove (name : string)
| OpAddRelation (e : RelationEdge)
| OpRemoveRelation (from to : string)
| OpFreeze.

(** A call's outcome with the registry it leaves: a failing call leaves the one it was given. *)
Definition commit_call (r : SchemaRegistry) (x : SchemaResult SchemaRegistry)
  : SchemaRegistry * SchemaResult unit :=
  match x with Ok r' => (r', Ok tt) | Err e => (r, Err e) end.

Section steps.
Context (hash_order : gset string -> list string) (debug_path : list string -> string).

Definition registry_step (r : SchemaRegistry) (op : RegistryOp)
  : SchemaRegistry * SchemaResult unit :=
  match op with
  | OpStoreFingerprints f => commit_call r (registry_store_mod_fingerprints r f)
  | OpLoad m => registry_load_from_manifest hash_order debug_path r m
  | OpSetManifest m => commit_call r (registry_set_migrated_manifest r m)
  | OpRegister t => commit_call r (registry_register r t)
  | OpGetMut n f => commit_call r (registry_get_mut r n f)
  | OpRemove n => commit_call r (map_ok fst (registry_remove r n))
  | OpAddRelation e => commit_call r (registry_add_relation r e)
  | OpRemoveRelation a b => commit_call r (registry_remove_relation r a b)
  | OpFreeze => (registry_freeze r, Ok tt)
  end.

Definition registry_run (r : SchemaRegistry) (ops : list RegistryOp) : SchemaRegistry :=
  foldl (fun r op => (registry_step r op).1) r ops.

(** Keys are the tables' names, none empty; the relation graph has its invariant. *)
Definition registry_inv (r : SchemaRegistry) : Prop :=
  (forall n t, sr_tables r !! n = Some t -> ts_name t = n /\ n <> "")
  /\ graph_inv (sr_relations r).

(** A write through [get_mut] that leaves the name alone. *)
Definition op_ok (op : RegistryOp) : Prop :=
  match op with OpGetMut _ f => forall t, ts_name (f t) = ts_name t | _ => True end.

Lemma register_inv r t r' : registry_inv r -> registry_register r t = Ok r' -> registry_inv r'.
Proof.
  intros [Ht Hg] H. unfold registry_register in H.
  case_bool_decide; [done|]. destruct (sr_frozen r); [done|]. destruct (_ !! _); [done|].
  simplify_eq. split; [|done]. simpl. intros n u [[<- <-]|[_ Hu]]%lookup_insert_Some; auto.
Qed.

Lemma add_relation_inv r e r' : registry_inv r -> registry_add_relation r e = Ok r' -> registry_inv r'.
Proof.
  intros [Ht Hg] H. unfold registry_add_relation in H.
  destruct (sr_frozen r); [done|]. do 2 (destruct (negb _); [done|]).
  destruct (graph_add_edge _ _) eqn:E; [|done]. simplify_eq.
  split; [done|]. by apply graph_add_edge_inv in E as [? _].
Qed.

Lemma registry_step_inv r op : registry_inv r -> op_ok op -> registry_inv (registry_step r op).1.
Proof.
  intros Hinv Hop. pose proof Hinv as [Ht Hg].
  destruct op as [f|m|m|t|n f|n|e|a b|]; simpl in *.
  - unfold registry_store_mod_fingerprints. by destruct (sr_frozen r).
  - unfold registry_load_from_manifest. destruct (sr_frozen r); [done|].
    set (r0 := with_fingerprints _ _).
    pose proof (try_each_inv registry_inv registry_register r0 (migrated_tables m)
                  (fun s x s' H _ => register_inv s x s' H) Hinv) as H1.
    destruct (try_each registry_register r0 _) as [r1 [[]|e]]; [|done].
    pose proof (try_each_inv registry_inv registry_add_relation r1 (migrated_relations m)
                  (fun s x s' H _ => add_relation_inv s x s' H) H1) as H2.
    destruct (try_each registry_add_relation r1 _) as [r2 [[]|e]]; [|done].
    by destruct (default [] _).
  - unfold registry_set_migrated_manifest. by destruct (sr_frozen r).
  - destruct (registry_register r t) eqn:E; [by eapply register_inv|done].
  - unfold registry_get_mut. destruct (sr_frozen r); [done|].
    destruct (sr_tables r !! n) as [u|] eqn:E; [|done]. split; [|done]. simpl.
    intros k v [[<- <-]|[_ Hv]]%lookup_insert_Some; [|auto]. rewrite Hop. auto.
  - unfold registry_remove. destruct (sr_frozen r); [done|].
    destruct (sr_tables r !! n) as [u|] eqn:E; [|done]. split; [|done]. simpl.
    intros k v [_ Hv]%lookup_delete_Some. auto.
  - destruct (registry_add_relation r e) eqn:E; [by eapply add_relation_inv|done].
  - unfold registry_remove_relation. destruct (sr_frozen r); [done|].
    destruct (graph_remove_edge _ _ _) eqn:E; [|done]. split; [done|].
    by apply graph_remove_edge_inv in E as [? _].
  - done.
Qed.

Lemma frozen_step r op :
  sr_frozen r = true ->
  (registry_step r op).1 = r
  /\ ((registry_step r op).2 = Err RegistryFrozen \/ op = OpFreeze
      \/ exists t, op = OpRegister t /\ ts_name t = "").
Proof.
  intros Hf. destruct op as [f|m|m|t|n f|n|e|a b|]; simpl.
  all: unfold registry_store_mod_fingerprints, registry_load_from_manifest,
      registry_set_migrated_manifest, registry_register, registry_get_mut,
      registry_remove, registry_add_relation, registry_remove_relation.
  all: rewrite ?Hf; simpl; auto 10.
  - case_bool_decide; simpl; [|auto]. split; [done|]. right; right. by exists t.
  - split; [|auto]. destruct r; simpl in *. by subst.
Qed.

(** Whatever calls are made on a new registry, its relation graph stays acyclic with an exact
    index and its tables filed under their own non-empty names; and once the registry is frozen
    no call changes anything, each being refused. *)
Theorem registry_run_frozen (before after : list RegistryOp) :
  Forall op_ok before ->
  let r := registry_run registry_new before in
  registry_inv r
  /\ registry_run (registry_freeze r) after = registry_freeze r
  /\ forall op, op <> OpFreeze -> exists e, (registry_step (registry_freeze r) op).2 = Err e
       /\ (e = RegistryFrozen \/ e = InvalidTableName "").
Proof.
  intros Hok. simpl. split; [|split].
  - assert (H : registry_inv registry_new) by (split; [done|apply graph_new_inv]).
    revert H. generalize registry_new. induction Hok as [|op ops Hop _ IH]; intros r H; [done|].
    apply IH. by apply registry_step_inv.
  - generalize (registry_run registry_new before). intros r.
    induction after as [|op ops IH]; simpl; [done|].
    destruct (frozen_step (registry_freeze r) op eq_refl) as [-> _]. apply IH.
  - intros op Hne. set (r := registry_freeze _).
    destruct (frozen_step r op eq_refl) as [_ [->|[->|(t & -> & Hn)]]]; [eauto|done|].
    simpl. unfold registry_register. rewrite Hn. simpl. eauto.
Qed.
End steps.

Lemma registry_run_frozen_witness :
  let r := registry_run elements (String.concat ",") registry_new
             [OpRegister (table_new "country"); OpLoad (migrated_new sample_manifest "1.0")] in
  registry_inv r /\ sr_frozen (registry_freeze r) = true.
Proof.
  split; [|reflexivity].
  apply (registry_run_frozen elements (String.concat ",") _ []). repeat constructor.
Defined.
