(* ===== verification/Migrations.v ===== *)
(** * Migrations: the schema migration registry

    Models [migration.rs]: migrations filed under their source version, the breadth-first search of
    a path to the target version, and its application. A migration's function is a parameter that
    returns the manifest it leaves with its outcome, since it writes through [&mut]. *)

From Stdlib Require Import Ascii String.
From stdpp Require Import base gmap strings list fin_maps.
From Stdlib Require Import ZArith Lia.
From S2P Require Import Prelude CoreTypes SchemaTables Relations Registry.

Record Migration := mkMigration {
  mg_name : string; mg_from_version : string; mg_to_version : string;
  mg_fn : SchemaManifest -> SchemaManifest * SchemaResult unit }.

Definition manifest_set_version (m : SchemaManifest) (v : string) : SchemaManifest :=
  mkManifest v (sm_tables m) (sm_relations m) (sm_mod_fingerprints m) (sm_metadata m).

Definition migration_apply (mg : Migration) (m : SchemaManifest)
  : SchemaManifest * SchemaResult unit :=
  if bool_decide (sm_schema_version m <> mg_from_version mg)
  then (m, Err (MigrationVersionMismatch (mg_from_version mg) (sm_schema_version m)))
  else match mg_fn mg m with
       | (m', Err e) => (m', Err e)
       | (m', Ok _) => (manifest_set_version m' (mg_to_version mg), Ok tt)
       end.

Record MigrationRegistry := mkMigrations {
  mr_migrations : gmap string (list Migration); mr_target_version : string }.

Definition migrations_new : MigrationRegistry := mkMigrations ∅ "".
Definition migrations_with_target (r : MigrationRegistry) (v : string) : MigrationRegistry :=
  mkMigrations (mr_migrations r) v.
Definition migrations_register (r : MigrationRegistry) (mg : Migration) : MigrationRegistry :=
  mkMigrations
    (<[mg_from_version mg := default [] (mr_migrations r !! mg_from_version mg) ++ [mg]]>
       (mr_migrations r))
    (mr_target_version r).

Definition migrations_at (r : MigrationRegistry) (v : string) : list Migration :=
  default [] (mr_migrations r !! v).

(** The queue's front is the head of the list; the outer [None] is out of fuel. *)
Fixpoint bfs (r : MigrationRegistry) (fuel : nat) (visited : gset string)
    (queue : list (string * list Migration)) : option (option (list Migration)) :=
  match fuel with
  | O => None
  | S fuel =>
      match queue with
      | [] => Some None
      | (current, path) :: queue =>
          if bool_decide (current = mr_target_version r) then Some (Some path)
          else if bool_decide (current ∈ visited) then bfs r fuel visited queue
          else bfs r fuel ({[current]} ∪ visited)
                 (queue ++ ((fun mg => (mg_to_version mg, path ++ [mg])) <$> migrations_at r current))
      end
  end.

(** One iteration per queued version: the first, and each migration of a version visited once. *)
Definition bfs_fuel (r : MigrationRegistry) : nat := S (S (map_weight length (mr_migrations r))).

Definition find_migration_path (r : MigrationRegistry) (from : string) : option (list Migration) :=
  if bool_decide (from = mr_target_version r) then Some []
  else default None (bfs r (bfs_fuel r) ∅ [(from, [])]).

(** The [for] loop of [apply_migrations]: the manifest and the names applied so far. *)
Fixpoint apply_path (path : list Migration) (m : SchemaManifest) (applied : list string)
  : SchemaResult (SchemaManifest * list string) :=
  match path with
  | [] => Ok (m, applied)
  | mg :: path' =>
      match migration_apply mg m with
      | (_, Err e) => Err e
      | (m', Ok _) => apply_path path' m' (applied ++ [mg_name mg])
      end
  end.

Definition with_applied_migrations (mm : MigratedSchemaManifest) (names : list string)
  : MigratedSchemaManifest := mkMigrated (mm_manifest mm) (mm_original_version mm) names.

Definition apply_migrations (r : MigrationRegistry) (m : SchemaManifest)
  : SchemaResult MigratedSchemaManifest :=
  let original_version := sm_schema_version m in
  if bool_decide (original_version = mr_target_version r)
  then Ok (migrated_new m original_version)
  else
    let? path := ok_or (find_migration_path r original_version)
                   (NoMigrationPath original_version (mr_target_version r)) in
    let? (m', applied) := apply_path path m [] in
    Ok (with_applied_migrations (migrated_new m' original_version) applied).

(** ** Specification: chains of registered migrations *)

Inductive chain (r : MigrationRegistry) : string -> list Migration -> string -> Prop :=
| chain_nil v : chain r v [] v
| chain_cons v mg p w :
    mg ∈ migrations_at r v -> chain r (mg_to_version mg) p w -> chain r v (mg :: p) w.

(** Every migration is filed under its source version, as [register] does. *)
Definition migrations_wf (r : MigrationRegistry) : Prop :=
  forall v mg, mg ∈ migrations_at r v -> mg_from_version mg = v.

Lemma migrations_register_wf r mg : migrations_wf r -> migrations_wf (migrations_register r mg).
Proof.
  intros H v mg'. unfold migrations_at. simpl. destruct (decide (mg_from_version mg = v)) as [<-|Hne].
  - rewrite lookup_insert_eq. simpl.
    intros [Hin| ->%list_elem_of_singleton]%elem_of_app; [by apply H|done].
  - rewrite lookup_insert_ne by done. apply H.
Qed.

Lemma chain_snoc r v p u mg :
  chain r v p u -> mg ∈ migrations_at r u -> chain r v (p ++ [mg]) (mg_to_version mg).
Proof.
  induction 1 as [u|u mg' p w' Hm _ IH]; intros Hin; simpl; eapply chain_cons; eauto. constructor.
Qed.

(** ** The search *)

Section search.
Context (r : MigrationRegistry) (start : string).

Abbreviation target := (mr_target_version r).
Abbreviation queue_t := (list (string * list Migration)).

Definition successors (v : string) (p : list Migration) : queue_t :=
  (fun mg => (mg_to_version mg, p ++ [mg])) <$> migrations_at r v.

(** Some queued path extends to the target within [n] steps, by a chain of at most [k]. *)
Definition covered (Q : queue_t) (n k : nat) : Prop :=
  exists v p s, (v, p) ∈ Q /\ chain r v s target
    /\ (length p + length s <= n)%nat /\ (length s <= k)%nat.

(** Paths in the queue grow by at most one step from front to back. *)
Definition layered (Q : queue_t) : Prop :=
  exists n Q1 Q2, Q = Q1 ++ Q2 /\ (forall v p, (v, p) ∈ Q1 -> length p = n)
    /\ (forall v p, (v, p) ∈ Q2 -> length p = S n).

Record bfs_inv (V : gset string) (Q : queue_t) : Prop := {
  inv_chain : forall v p, (v, p) ∈ Q -> chain r start p v;
  inv_layered : layered Q;
  inv_target : target ∉ V;
  inv_start : forall s, chain r start s target -> covered Q (length s) (length s);
  inv_visited : forall v, v ∈ V -> exists d, (forall u p, (u, p) ∈ Q -> (d <= length p)%nat)
    /\ forall s, chain r v s target -> covered Q (d + length s) (pred (length s)) }.

Lemma covered_mono Q Q' n n' k k' :
  (forall x, x ∈ Q -> x ∈ Q') -> (n <= n')%nat -> (k <= k')%nat ->
  covered Q n k -> covered Q' n' k'.
Proof.
  intros HQ Hn Hk (v & p & s & Hin & Hc & H1 & H2). exists v, p, s.
  split_and!; [by apply HQ|done|lia|lia].
Qed.

Lemma layered_head v p Q u q : layered ((v, p) :: Q) -> (u, q) ∈ (v, p) :: Q -> (length p <= length q)%nat.
Proof.
  intros (n & Q1 & Q2 & E & H1 & H2) Hin. rewrite E, elem_of_app in Hin.
  destruct Q1 as [|x Q1]; simpl in E.
  - rewrite <- E in *. rewrite (H2 v p) by left. destruct Hin as [Hin|Hin]; [set_solver|]. by rewrite (H2 _ _ Hin).
  - injection E as <- ->. rewrite (H1 v p) by left.
    destruct Hin as [Hin|Hin]; [by rewrite (H1 _ _ Hin)|rewrite (H2 _ _ Hin); lia].
Qed.

Lemma layered_tail x Q : layered (x :: Q) -> layered Q.
Proof.
  intros (n & [|y Q1] & Q2 & E & H1 & H2); simpl in E.
  - exists (S n), Q, []. split; [by rewrite app_nil_r|]. split; [|set_solver].
    intros v p Hin. apply (H2 v). rewrite <- E. by right.
  - injection E as <- ->. exists n, Q1, Q2. split; [done|]. split; [|done].
    intros v p Hin. apply (H1 v). by right.
Qed.

Lemma layered_snoc v p Q Q' :
  layered ((v, p) :: Q) -> (forall u q, (u, q) ∈ Q' -> length q = S (length p)) ->
  layered (Q ++ Q').
Proof.
  intros (n & Q1 & Q2 & E & H1 & H2) H'. destruct Q1 as [|x Q1]; simpl in E.
  - rewrite <- E in *. exists (S n), Q, Q'. split; [done|]. split.
    + intros u q Hin. apply (H2 u). by right.
    + intros u q Hin. rewrite (H' _ _ Hin). f_equal. apply (H2 v). left.
  - injection E as <- ->. exists n, Q1, (Q2 ++ Q'). rewrite <- app_assoc. split; [done|]. split.
    + intros u q Hin. apply (H1 u). by right.
    + intros u q [Hin|Hin]%elem_of_app; [by apply H2 in Hin|].
      rewrite (H' _ _ Hin). f_equal. apply (H1 v). left.
Qed.

Lemma elem_of_successors v p u q :
  (u, q) ∈ successors v p <-> exists mg, mg ∈ migrations_at r v /\ u = mg_to_version mg /\ q = p ++ [mg].
Proof.
  unfold successors. rewrite list_elem_of_fmap. split.
  - intros (mg & [= -> ->] & Hin). by exists mg.
  - intros (mg & Hin & -> & ->). by exists mg.
Qed.

(** Dropping a version already visited loses no cover: its own continues elsewhere. *)
Lemma covered_skip V v p Q n k :
  bfs_inv V ((v, p) :: Q) -> v ∈ V -> covered ((v, p) :: Q) n k -> covered Q n k.
Proof.
  intros Hinv Hv. destruct (inv_visited _ _ Hinv v Hv) as (d & Hd & Hcov).
  revert n. induction k as [k IH] using (well_founded_induction lt_wf). intros n H.
  destruct H as (u & q & s & Hin & Hc & Hn & Hk).
  apply elem_of_cons in Hin as [[= -> ->]|Hin]; [|by exists u, q, s].
  destruct s as [|mg s].
  { exfalso. inversion Hc; subst. by apply (inv_target _ _ Hinv). }
  assert (Hdp : (d <= length p)%nat) by (eapply Hd; left).
  eapply covered_mono; [| | |apply (IH (length s)); [simpl in Hk; lia|apply (Hcov _ Hc)]]; auto;
    simpl in *; lia.
Qed.

(** Expanding a version: what it covered, its migrations now cover. *)
Lemma covered_expand v p Q n k :
  v <> target -> covered ((v, p) :: Q) n k -> covered (Q ++ successors v p) n k.
Proof.
  intros Hv (u & q & s & Hin & Hc & Hn & Hk).
  apply elem_of_cons in Hin as [[= -> ->]|Hin]; [|exists u, q, s; set_solver].
  inversion Hc as [|? mg s' ? Hm Hc']; subst; [done|]. simpl in *.
  exists (mg_to_version mg), (p ++ [mg]), s'. rewrite length_app. simpl.
  split_and!; [|done|lia|lia]. apply elem_of_app. right. apply elem_of_successors. eauto.
Qed.

Lemma bfs_skip V v p Q : bfs_inv V ((v, p) :: Q) -> v ∈ V -> bfs_inv V Q.
Proof.
  intros Hinv Hv. split.
  - intros u q Hin. apply (inv_chain _ _ Hinv). by right.
  - eapply layered_tail, (inv_layered _ _ Hinv).
  - apply (inv_target _ _ Hinv).
  - intros s Hs. eapply covered_skip; [exact Hinv|done|]. by apply (inv_start _ _ Hinv).
  - intros u Hu. destruct (inv_visited _ _ Hinv u Hu) as (d & Hd & Hcov). exists d. split.
    + intros w q Hin. eapply Hd. right. exact Hin.
    + intros s Hs. eapply covered_skip; [exact Hinv|done|]. by apply Hcov.
Qed.

Lemma bfs_expand V v p Q :
  bfs_inv V ((v, p) :: Q) -> v <> target -> bfs_inv ({[v]} ∪ V) (Q ++ successors v p).
Proof.
  intros Hinv Hv.
  assert (Hge : forall u q, (u, q) ∈ Q ++ successors v p -> (length p <= length q)%nat).
  { intros u q [Hin|Hin]%elem_of_app.
    - eapply layered_head; [apply (inv_layered _ _ Hinv)|right; exact Hin].
    - apply elem_of_successors in Hin as (mg & _ & _ & ->). rewrite length_app. lia. }
  split.
  - intros u q [Hin|Hin]%elem_of_app; [apply (inv_chain _ _ Hinv); by right|].
    apply elem_of_successors in Hin as (mg & Hm & -> & ->).
    eapply chain_snoc; [|exact Hm]. apply (inv_chain _ _ Hinv). left.
  - eapply layered_snoc; [apply (inv_layered _ _ Hinv)|].
    intros u q (mg & _ & _ & ->)%elem_of_successors. rewrite length_app. simpl. lia.
  - pose proof (inv_target _ _ Hinv). set_solver.
  - intros s Hs. apply covered_expand; [done|]. by apply (inv_start _ _ Hinv).
  - intros u [->%elem_of_singleton|Hu]%elem_of_union.
    + exists (length p). split; [done|]. intros s Hs. inversion Hs as [|? mg s' ? Hm Hs']; subst; [done|].
      exists (mg_to_version mg), (p ++ [mg]), s'. rewrite length_app. simpl.
      split_and!; [|done|lia|lia]. apply elem_of_app. right. apply elem_of_successors. eauto.
    + destruct (inv_visited _ _ Hinv u Hu) as (d & Hd & Hcov). exists d. split.
      * intros w q Hin. etrans; [|by eapply Hge]. eapply Hd. left.
      * intros s Hs. apply covered_expand; [done|]. by apply Hcov.
Qed.

(** [m] holds the migrations of the versions not yet visited. *)
Lemma bfs_spec fuel V Q m :
  bfs_inv V Q -> (forall v, v ∉ V -> m !! v = mr_migrations r !! v) ->
  (length Q + map_weight length m < fuel)%nat ->
  match bfs r fuel V Q with
  | Some (Some path) => chain r start path target
      /\ forall s, chain r start s target -> (length path <= length s)%nat
  | Some None => forall s, ~ chain r start s target
  | None => False
  end.
Proof.
  revert V Q m. induction fuel as [|fuel IH]; intros V Q m Hinv Hm Hf; [lia|].
  destruct Q as [|[v p] Q]; simpl.
  { intros s Hs. destruct (inv_start _ _ Hinv s Hs) as (u & q & s' & Hin & _). set_solver. }
  case_bool_decide as Ht; [|case_bool_decide as HV].
  - subst. split; [apply (inv_chain _ _ Hinv); left|]. intros s Hs.
    destruct (inv_start _ _ Hinv s Hs) as (u & q & s' & Hin & _ & Hn & _).
    pose proof (layered_head _ _ _ _ _ (inv_layered _ _ Hinv) Hin). lia.
  - apply (IH V Q m); [by eapply bfs_skip|done|simpl in Hf; lia].
  - apply (IH _ _ (delete v m)); [by apply bfs_expand| |].
    + intros u Hu. rewrite lookup_delete_ne, Hm by set_solver. done.
    + rewrite length_app, length_fmap. unfold migrations_at. rewrite <- (Hm v HV). simpl in Hf.
      destruct (m !! v) as [l|] eqn:E; simpl.
      * rewrite (map_weight_delete length m v l E) in Hf. lia.
      * rewrite (delete_id m v E). lia.
Qed.
End search.

Lemma bfs_init r v : bfs_inv r v ∅ [(v, [])].
Proof.
  assert (Hin : forall u (q : list Migration), (u, q) ∈ [(v, [])] -> u = v /\ q = []).
  { intros u q H. apply list_elem_of_singleton in H. by injection H as -> ->. }
  split.
  - intros u q H. apply Hin in H as [-> ->]. apply chain_nil.
  - exists O, [(v, [])], []. split; [done|]. split; [|set_solver].
    intros u q H. by apply Hin in H as [-> ->].
  - set_solver.
  - intros s Hs. exists v, [], s. split_and!; [left|done|simpl; lia|lia].
  - set_solver.
Qed.

Lemma find_path_ok r v :
  match find_migration_path r v with
  | Some path => chain r v path (mr_target_version r)
      /\ forall s, chain r v s (mr_target_version r) -> (length path <= length s)%nat
  | None => forall s, ~ chain r v s (mr_target_version r)
  end.
Proof.
  unfold find_migration_path. case_bool_decide as E.
  - subst. split; [constructor|]. simpl. lia.
  - pose proof (bfs_spec r v (bfs_fuel r) ∅ [(v, [])] (mr_migrations r) (bfs_init r v)
                  (fun _ _ => eq_refl)) as H.
    unfold bfs_fuel in *. specialize (H ltac:(simpl; lia)).
    destruct (bfs _ _ _ _) as [[path|]|]; [exact H|exact H|destruct H].
Qed.

Lemma apply_path_ok r v path w m applied :
  migrations_wf r -> chain r v path w -> sm_schema_version m = v ->
  match apply_path path m applied with
  | Ok (m', names) => sm_schema_version m' = w /\ names = applied ++ (mg_name <$> path)
  | Err e => exists mg m1 m2, mg ∈ path /\ mg_fn mg m1 = (m2, Err e)
  end.
Proof.
  intros Hwf Hc. revert m applied. induction Hc as [v|v mg p w Hm _ IH]; intros m applied Hv; simpl.
  - split; [done|]. by rewrite app_nil_r.
  - unfold migration_apply. rewrite (Hwf _ _ Hm), Hv, bool_decide_false by naive_solver.
    destruct (mg_fn mg m) as [m1 [[]|e]] eqn:E; [|exists mg, m, m1; split; [left|done]].
    specialize (IH (manifest_set_version m1 (mg_to_version mg)) (applied ++ [mg_name mg]) eq_refl).
    destruct (apply_path _ _ _) as [[m' names]|e].
    + destruct IH as [? ->]. split; [done|]. by rewrite <- app_assoc.
    + destruct IH as (mg' & m2 & m3 & Hin & ?). exists mg', m2, m3. split; [by right|done].
Qed.

(** The migration search ends and returns a shortest chain of registered migrations from the given
    version to the target, or nothing when there is no chain. *)
Theorem find_migration_path_shortest (r : MigrationRegistry) (v : string) :
  match find_migration_path r v with
  | Some path => chain r v path (mr_target_version r)
      /\ forall s, chain r v s (mr_target_version r) -> (length path <= length s)%nat
  | None => forall s, ~ chain r v s (mr_target_version r)
  end.
Proof. apply find_path_ok. Qed.

(** C35: Migrating brings any manifest to the target version, recording the version it came from and
    the migrations of a shortest chain; it fails only where no chain exists or a migration's own
    function fails (the version check of [Migration::apply] never does). *)
Theorem apply_migrations_reaches_target (r : MigrationRegistry) (m : SchemaManifest) :
  migrations_wf r ->
  match apply_migrations r m with
  | Ok mm => sm_schema_version (mm_manifest mm) = mr_target_version r
      /\ mm_original_version mm = sm_schema_version m
      /\ exists path, mm_applied_migrations mm = mg_name <$> path
           /\ chain r (sm_schema_version m) path (mr_target_version r)
           /\ forall s, chain r (sm_schema_version m) s (mr_target_version r) ->
                (length path <= length s)%nat
  | Err e =>
      (e = NoMigrationPath (sm_schema_version m) (mr_target_version r)
       /\ forall s, ~ chain r (sm_schema_version m) s (mr_target_version r))
      \/ exists v mg m1 m2, mg ∈ migrations_at r v /\ mg_fn mg m1 = (m2, Err e)
  end.
Proof.
  intros Hwf. unfold apply_migrations. case_bool_decide as E.
  - simpl. split; [done|]. split; [done|]. exists []. rewrite E. split; [done|].
    split; [constructor|simpl; lia].
  - pose proof (find_path_ok r (sm_schema_version m)) as Hp.
    destruct (find_migration_path _ _) as [path|]; simpl; [|by left].
    destruct Hp as [Hc Hmin]. pose proof (apply_path_ok r _ path _ m [] Hwf Hc eq_refl) as Ha.
    destruct (apply_path path m []) as [[m' names]|e]; simpl.
    + destruct Ha as [? ->]. split; [done|]. split; [done|]. by exists path.
    + right. destruct Ha as (mg & m1 & m2 & Hin & Hmg).
      assert (exists v, mg ∈ migrations_at r v) as [v Hv].
      { clear - Hc Hin. induction Hc; [set_solver|]. apply elem_of_cons in Hin as [->|?]; eauto. }
      by exists v, mg, m1, m2.
Qed.

Definition sample_migration (a b : string) : Migration :=
  mkMigration (a +:+ "_to_" +:+ b) a b (fun m => (manifest_with_metadata m "step" b, Ok tt)).
Definition sample_migrations : MigrationRegistry :=
  foldl migrations_register (migrations_with_target migrations_new "3")
    [sample_migration "1" "2"; sample_migration "2" "3"; sample_migration "1" "3"].

Lemma apply_migrations_reaches_target_witness :
  match apply_migrations sample_migrations (manifest_new "1") with
  | Ok mm => sm_schema_version (mm_manifest mm) = "3" /\ mm_applied_migrations mm = ["1_to_3"]
  | Err _ => False
  end.
Proof.
  assert (Hwf : migrations_wf sample_migrations).
  { unfold sample_migrations. simpl. do 3 apply migrations_register_wf.
    intros v mg Hin. unfold migrations_at in Hin. simpl in Hin. rewrite lookup_empty in Hin.
    by apply not_elem_of_nil in Hin. }
  pose proof (apply_migrations_reaches_target sample_migrations (manifest_new "1") Hwf) as H.
  destruct (apply_migrations _ _) as [mm|e] eqn:E.
  - split; [apply H|]. vm_compute in E. injection E as <-. reflexivity.
  - vm_compute in E. discriminate E.
Defined.
