(* ===== verification/Journal.v ===== *)
(** * Journal: submission and atomic commit of a tick ([scharnhorst_journal])

    Models [command.rs], [commit.rs], [error.rs], [save_journal.rs] and [journal.rs] (but for the
    debug SQL writer and the metrics counters). The journal talks to three other components; each
    is a class here: [StoreOps] is what it uses of the arrow store ([CommitStore] and the read
    side of [ArrowStore]), [QueryOps] the [SnapshotIngestor] trait, [SaveOps] the [SaveJournal]
    trait. An error of another component reaches the journal as its text. [serde_json]'s printer
    is the parameter [diff_json]. *)

From Stdlib Require Import Ascii String.
From stdpp Require Import base gmap strings list relations.
From Stdlib Require Import ZArith Lia.
From S2P Require Import Prelude RustStr CoreTypes.

(** ** Commands, records, errors *)

Inductive Command (V : Type) :=
| TransferControl (province_id from_actor to_actor : RowId)
| UpdateColumn (table : string) (row : RowId) (column : string) (value : V)
| InsertRow (table : string) (values : gmap string V)
| DeleteRow (table : string) (row : RowId)
| Raw (domain : string) (payload : V).
Arguments TransferControl {V}.
Arguments UpdateColumn {V}.
Arguments InsertRow {V}.
Arguments DeleteRow {V}.
Arguments Raw {V}.

Record CommandEnvelope (V : Type) := mkEnvelope {
  env_tick : Tick; env_source : string; env_command : Command V }.
Arguments mkEnvelope {V}.
Arguments env_tick {V}.
Arguments env_source {V}.
Arguments env_command {V}.

Record CommitResult := mkCommitResult {
  cr_tick : Tick; cr_diff_count : nat; cr_command_count : nat; cr_state_hash : Z }.

Inductive CommitPhase := PhaseOpen | PhaseCommitting | PhaseCommitted.

#[export] Instance CommitPhase_eq_dec : EqDecision CommitPhase.
Proof. solve_decision. Defined.

Record CommitRecord (V : Type) := mkRecord {
  rec_tick : Tick; rec_diffs : list (Diff V); rec_commands : list (CommandEnvelope V);
  rec_state_hash : Z }.
Arguments mkRecord {V}.
Arguments rec_tick {V}.
Arguments rec_diffs {V}.
Arguments rec_commands {V}.
Arguments rec_state_hash {V}.

Definition record_new {V} (tick : Tick) (diffs : list (Diff V)) (state_hash : Z) : CommitRecord V :=
  mkRecord tick diffs [] state_hash.
Definition record_with_commands {V} (tick : Tick) (diffs : list (Diff V))
    (commands : list (CommandEnvelope V)) (state_hash : Z) : CommitRecord V :=
  mkRecord tick diffs commands state_hash.

Inductive JournalError :=
| JCommitFailed (s : string)
| JSubmitFailed (s : string)
| JInvalidPhase (s : string)
| JInvalidTick (expected got : Z)
| JTableNotFound (s : string)
| JColumnNotFound (s : string)
| JRowNotFound (s : string)
| JDiffValidation (s : string)
| JCommandValidation (s : string)
| JSaveJournal (s : string)
| JArrowStore (s : string)
| JSchema (s : string)
| JIo (s : string)
| JGeneric (s : string)
| JSqlParse (s : string)
| JSqlExecution (s : string)
| JSqlUnsupported (s : string)
| JSqlTypeError (expected actual : string).

#[export] Instance JournalError_eq_dec : EqDecision JournalError.
Proof. solve_decision. Defined.

Abbreviation JournalResult := (result JournalError).

(** ** The components the journal calls *)

(** A call that may write through a shared reference returns the state it leaves. *)
Class StoreOps (V : Type) := {
  Store : Type;
  SavedVersions : Type;
  Snapshot : Type;
  Batches : Type;
  PositionMap : Type;
  no_batches : Batches;
  st_save_table_versions : Store -> list string -> result string SavedVersions;
  st_restore_table_versions : Store -> SavedVersions -> Store * result string unit;
  st_apply_diffs : Store -> Tick -> list (Diff V) -> Store * result string unit;
  st_generate_snapshot : Store -> Tick -> Store * result string unit;
  st_get_snapshot : Store -> Tick -> result string Snapshot;
  snap_table_names : Snapshot -> list string;
  st_get_table_batches : Store -> string -> Tick -> result string Batches;
  st_position_map : Store -> string -> result string PositionMap }.

Class QueryOps (V : Type) `{StoreOps V} := {
  Query : Type;
  Rollback : Type;
  qe_begin_ingest : Query -> Query * result string Rollback;
  qe_ingest_snapshot : Query -> Tick -> string -> Batches -> PositionMap -> Query * result string unit;
  qe_store_snapshot : Query -> Snapshot -> Query * result string unit;
  qe_rollback : Query -> Rollback -> Query * result string unit }.

Class SaveOps (V : Type) := {
  Save : Type;
  sj_append : Save -> CommitRecord V -> Save * JournalResult unit;
  sj_flush : Save -> Save * JournalResult unit;
  sj_truncate_before : Save -> Tick -> Save * JournalResult unit }.

(** [append_tick], the trait's provided method. *)
Definition sj_append_tick {V} `{SaveOps V} (s : Save) (tick : Tick) (diffs : list (Diff V))
  : Save * JournalResult unit := sj_append s (record_new tick diffs 0).

(** ** The in-memory save journal *)

Record InMemorySaveJournal (V : Type) := mkInMemory { im_entries : list (CommitRecord V) }.
Arguments mkInMemory {V}.
Arguments im_entries {V}.

Definition inmem_new {V} : InMemorySaveJournal V := mkInMemory [].
Definition inmem_append {V} (s : InMemorySaveJournal V) (r : CommitRecord V)
  : InMemorySaveJournal V * JournalResult unit := (mkInMemory (im_entries s ++ [r]), Ok tt).
Definition inmem_flush {V} (s : InMemorySaveJournal V)
  : InMemorySaveJournal V * JournalResult unit := (s, Ok tt).
Definition inmem_truncate_before {V} (s : InMemorySaveJournal V) (tick : Tick)
  : InMemorySaveJournal V * JournalResult unit :=
  (mkInMemory (List.filter (fun r => tick_as_u64 tick <=? tick_as_u64 (rec_tick r)) (im_entries s)),
   Ok tt).

#[export] Instance InMemorySaveOps (V : Type) : SaveOps V := {|
  Save := InMemorySaveJournal V;
  sj_append := inmem_append;
  sj_flush := inmem_flush;
  sj_truncate_before := inmem_truncate_before |}.

(** ** FNV-1a *)

Definition fnv_offset : Z := 14695981039346656037. (* 0xcbf29ce484222325 *)
Definition fnv_prime : Z := 1099511628211.         (* 0x100000001b3 *)

Fixpoint fnv_loop (hash : Z) (data : string) : Z :=
  match data with
  | EmptyString => hash
  | String byte data' =>
      fnv_loop (wrap64 (Z.lxor hash (Z.of_N (N_of_ascii byte)) * fnv_prime)) data'
  end.
Definition fnv1a_64 (data : string) : Z := fnv_loop fnv_offset data.

Example fnv1a_64_a : fnv1a_64 "a" = 12638187200555641996.
Proof. reflexivity. Qed.

(** ** The journal *)

Definition MAX_COMMIT_HISTORY : nat := Z.to_nat 1024.

Section journal.
Context {V : Type} `{SO : StoreOps V} `{QO : !QueryOps V} `{VO : SaveOps V}.
Context (diff_json : Diff V -> result string string).

Record Journal := mkJournal {
  j_current_tick : Tick;
  j_phase : CommitPhase;
  j_pending_commands : list (CommandEnvelope V);
  j_pending_diffs : list (Diff V);
  j_history : list (CommitRecord V);
  j_save_journal : option Save;
  j_store : Store;
  j_query_engine : option Query }.

Definition journal_new (store : Store) : Journal :=
  mkJournal tick_ZERO PhaseOpen [] [] [] None store None.
Definition journal_with_save_journal (j : Journal) (s : Save) : Journal :=
  mkJournal (j_current_tick j) (j_phase j) (j_pending_commands j) (j_pending_diffs j)
    (j_history j) (Some s) (j_store j) (j_query_engine j).
Definition journal_with_query_engine (j : Journal) (q : Query) : Journal :=
  mkJournal (j_current_tick j) (j_phase j) (j_pending_commands j) (j_pending_diffs j)
    (j_history j) (j_save_journal j) (j_store j) (Some q).

Definition with_phase (j : Journal) (p : CommitPhase) : Journal :=
  mkJournal (j_current_tick j) p (j_pending_commands j) (j_pending_diffs j)
    (j_history j) (j_save_journal j) (j_store j) (j_query_engine j).
Definition with_pending (j : Journal) cs ds : Journal :=
  mkJournal (j_current_tick j) (j_phase j) cs ds
    (j_history j) (j_save_journal j) (j_store j) (j_query_engine j).
Definition with_store (j : Journal) (s : Store) : Journal :=
  mkJournal (j_current_tick j) (j_phase j) (j_pending_commands j) (j_pending_diffs j)
    (j_history j) (j_save_journal j) s (j_query_engine j).
Definition with_query (j : Journal) (q : option Query) : Journal :=
  mkJournal (j_current_tick j) (j_phase j) (j_pending_commands j) (j_pending_diffs j)
    (j_history j) (j_save_journal j) (j_store j) q.
Definition with_save (j : Journal) (s : option Save) : Journal :=
  mkJournal (j_current_tick j) (j_phase j) (j_pending_commands j) (j_pending_diffs j)
    (j_history j) s (j_store j) (j_query_engine j).
Definition with_history (j : Journal) h : Journal :=
  mkJournal (j_current_tick j) (j_phase j) (j_pending_commands j) (j_pending_diffs j)
    h (j_save_journal j) (j_store j) (j_query_engine j).

Definition journal_submit_command (j : Journal) (e : CommandEnvelope V) : JournalResult Journal :=
  if bool_decide (j_phase j <> PhaseOpen) then Err (JSubmitFailed "commit already in progress")
  else if bool_decide (env_tick e <> j_current_tick j)
  then Err (JInvalidTick (tick_as_u64 (j_current_tick j)) (tick_as_u64 (env_tick e)))
  else Ok (with_pending j (j_pending_commands j ++ [e]) (j_pending_diffs j)).

(** [try_for_each] stops at the first refusal, keeping what it queued. *)
Definition journal_submit_commands (j : Journal) (es : list (CommandEnvelope V))
  : Journal * JournalResult unit := try_each journal_submit_command j es.

Definition journal_submit_diff (j : Journal) (d : Diff V) : JournalResult Journal :=
  if bool_decide (j_phase j <> PhaseOpen) then Err (JSubmitFailed "commit already in progress")
  else Ok (with_pending j (j_pending_commands j) (j_pending_diffs j ++ [d])).

Definition journal_submit_batch (j : Journal) (b : DiffBatch V) : Journal * JournalResult unit :=
  try_each journal_submit_diff j (batch_diffs b).

Definition journal_take_pending_diffs (j : Journal) : Journal * list (Diff V) :=
  (with_pending j (j_pending_commands j) [], j_pending_diffs j).
Definition journal_take_pending_commands (j : Journal) : Journal * list (CommandEnvelope V) :=
  (with_pending j [] (j_pending_diffs j), j_pending_commands j).

Definition journal_advance_tick (j : Journal) : Journal :=
  mkJournal (tick_next (j_current_tick j)) (j_phase j) (j_pending_commands j) (j_pending_diffs j)
    (j_history j) (j_save_journal j) (j_store j) (j_query_engine j).

Definition phase_debug (p : CommitPhase) : string :=
  match p with
  | PhaseOpen => "Open" | PhaseCommitting => "Committing" | PhaseCommitted => "Committed"
  end.

Definition journal_clear_pending (j : Journal) : JournalResult Journal :=
  if bool_decide (j_phase j <> PhaseOpen)
  then Err (JInvalidPhase ("cannot clear pending during phase " +:+ phase_debug (j_phase j)))
  else Ok (with_pending j [] []).

(** The hash loop: each diff's JSON is hashed and the hashes are summed. *)
Definition hash_diff (acc : Z) (d : Diff V) : JournalResult Z :=
  let? json := map_err (fun e => JGeneric ("diff serialize: " +:+ e)) (diff_json d) in
  Ok (wrap64 (acc + fnv1a_64 json)).

Definition journal_apply_diffs_and_hash (j : Journal) (diffs : list (Diff V))
  : Journal * JournalResult Z :=
  let tick := j_current_tick j in
  match st_apply_diffs (j_store j) tick diffs with
  | (s, Err e) => (with_store j s, Err (JArrowStore ("apply_diffs: " +:+ e)))
  | (s, Ok _) =>
      match st_generate_snapshot s tick with
      | (s, Err e) => (with_store j s, Err (JArrowStore e))
      | (s, Ok _) => (with_store j s, try_fold hash_diff 0 diffs)
      end
  end.

(** Publication to the query engine: the closure inside [commit]. *)
Fixpoint ingest_tables (s : Store) (tick : Tick) (q : Query) (names : list string)
  : Query * JournalResult unit :=
  match names with
  | [] => (q, Ok tt)
  | name :: names' =>
      let batches := match st_get_table_batches s name tick with Ok b => b | Err _ => no_batches end in
      match st_position_map s name with
      | Err e => (q, Err (JArrowStore ("get_table for '" +:+ name +:+ "': " +:+ e)))
      | Ok position_map =>
          match qe_ingest_snapshot q tick name batches position_map with
          | (q, Err e) => (q, Err (JGeneric ("ingest snapshot for '" +:+ name +:+ "': " +:+ e)))
          | (q, Ok _) => ingest_tables s tick q names'
          end
      end
  end.

Definition journal_publish (s : Store) (tick : Tick) (qe : option Query)
  : option Query * JournalResult unit :=
  match qe with
  | None => (None, Ok tt)
  | Some q =>
      match st_get_snapshot s tick with
      | Err e => (Some q, Err (JArrowStore ("get_snapshot: " +:+ e)))
      | Ok snapshot =>
          match ingest_tables s tick q (snap_table_names snapshot) with
          | (q, Err e) => (Some q, Err e)
          | (q, Ok _) =>
              match qe_store_snapshot q snapshot with
              | (q, Err e) => (Some q, Err (JGeneric ("store snapshot: " +:+ e)))
              | (q, Ok _) => (Some q, Ok tt)
              end
          end
      end
  end.

Definition begin_ingest_opt (qe : option Query) : option Query * JournalResult (option Rollback) :=
  match qe with
  | None => (None, Ok None)
  | Some q =>
      let '(q', r) := qe_begin_ingest q in
      (Some q', map_err (fun e => JGeneric ("begin query ingest: " +:+ e)) (map_ok Some r))
  end.

(** [if let Some(rollback) = ingest_rollback.take() { let _ = rollback.rollback(); }] *)
Definition rollback_ingest (qe : option Query) (rb : option Rollback) : option Query :=
  match qe, rb with
  | Some q, Some r => Some (qe_rollback q r).1
  | _, _ => qe
  end.

(** The block every failing exit runs: versions restored, pending lists put back, phase open. *)
Definition journal_restore (j : Journal) (saved : SavedVersions)
    (diffs : list (Diff V)) (commands : list (CommandEnvelope V)) : Journal :=
  with_phase (with_pending (with_store j (st_restore_table_versions (j_store j) saved).1)
                commands diffs) PhaseOpen.

(** [while self.history.len() > MAX_COMMIT_HISTORY { self.history.pop_front(); }] *)
Fixpoint trim_history (h : list (CommitRecord V)) : list (CommitRecord V) :=
  match h with
  | [] => []
  | _ :: h' => if (MAX_COMMIT_HISTORY <? length h)%nat then trim_history h' else h
  end.

Definition append_opt (sj : option Save) (r : CommitRecord V) : option Save * JournalResult unit :=
  match sj with
  | None => (None, Ok tt)
  | Some s => let '(s', res) := sj_append s r in (Some s', res)
  end.

Definition journal_commit (j : Journal) : Journal * JournalResult CommitResult :=
  if bool_decide (j_phase j <> PhaseOpen) then (j, Err (JCommitFailed "no open commit phase"))
  else
  let j := with_phase j PhaseCommitting in
  let tick := j_current_tick j in
  let '(j, diffs) := journal_take_pending_diffs j in
  let '(j, commands) := journal_take_pending_commands j in
  let diff_count := length diffs in
  let command_count := length commands in
  match st_save_table_versions (j_store j) (diff_table <$> diffs) with
  | Err e => (j, Err (JArrowStore ("save versions: " +:+ e)))
  | Ok saved =>
  match journal_apply_diffs_and_hash j diffs with
  | (j, Err e) => (journal_restore j saved diffs commands, Err e)
  | (j, Ok state_hash) =>
  match begin_ingest_opt (j_query_engine j) with
  | (qe, Err e) => (journal_restore (with_query j qe) saved diffs commands, Err e)
  | (qe, Ok ingest_rollback) =>
  let j := with_query j qe in
  match journal_publish (j_store j) tick (j_query_engine j) with
  | (qe, Err e) =>
      let j := with_query j (rollback_ingest qe ingest_rollback) in
      (journal_restore j saved diffs commands, Err e)
  | (qe, Ok _) =>
  let j := with_query j qe in
  let record := record_with_commands tick diffs commands state_hash in
  match append_opt (j_save_journal j) record with
  | (sj, Err e) =>
      let j := with_save j sj in
      let j := with_query j (rollback_ingest (j_query_engine j) ingest_rollback) in
      (journal_restore j saved (rec_diffs record) (rec_commands record), Err e)
  | (sj, Ok _) =>
      let j := with_save j sj in
      let j := with_history j (trim_history (j_history j ++ [record])) in
      let j := with_phase j PhaseCommitted in
      let j := journal_advance_tick j in
      let j := with_phase j PhaseOpen in
      (j, Ok (mkCommitResult tick diff_count command_count state_hash))
  end end end end end.

(** ** One call on the journal *)

Inductive JournalOp :=
| OpSubmitCommand (e : CommandEnvelope V)
| OpSubmitCommands (es : list (CommandEnvelope V))
| OpSubmitDiff (d : Diff V)
| OpSubmitBatch (b : DiffBatch V)
| OpCommit
| OpClearPending.

Definition keep_or (j : Journal) (r : JournalResult Journal) : Journal * JournalResult unit :=
  match r with Ok j' => (j', Ok tt) | Err e => (j, Err e) end.

Definition journal_step (j : Journal) (op : JournalOp) : Journal * JournalResult unit :=
  match op with
  | OpSubmitCommand e => keep_or j (journal_submit_command j e)
  | OpSubmitCommands es => journal_submit_commands j es
  | OpSubmitDiff d => keep_or j (journal_submit_diff j d)
  | OpSubmitBatch b => journal_submit_batch j b
  | OpCommit => let '(j', r) := journal_commit j in (j', map_ok (fun _ => tt) r)
  | OpClearPending => keep_or j (journal_clear_pending j)
  end.

Definition journal_run (j : Journal) (ops : list JournalOp) : Journal :=
  foldl (fun j op => (journal_step j op).1) j ops.

(** ** The hash of a list of diffs *)

Definition diffs_hash (ds : list (Diff V)) : JournalResult Z := try_fold hash_diff 0 ds.

Definition diff_fnv (d : Diff V) : Z :=
  match diff_json d with Ok json => fnv1a_64 json | Err _ => 0 end.
Definition sum_fnv (ds : list (Diff V)) : Z := foldr (fun d acc => diff_fnv d + acc) 0 ds.

Lemma hash_fold_ok acc ds h :
  0 <= acc < two64 ->
  try_fold hash_diff acc ds = Ok h <->
  Forall (fun d => is_ok (diff_json d) = true) ds /\ h = wrap64 (acc + sum_fnv ds).
Proof.
  revert acc. induction ds as [|d ds IH]; intros acc Hacc; simpl.
  - rewrite Z.add_0_r, wrap64_small by done. split; [intros [= <-]; by split|by intros [_ ->]].
  - rewrite Forall_cons. unfold hash_diff at 1, diff_fnv. destruct (diff_json d) as [json|e]; simpl.
    + rewrite IH by apply wrap64_range. unfold wrap64. rewrite Z.add_mod_idemp_l by done.
      rewrite Z.add_assoc. tauto.
    + split; [done|]. intros [[? _] _]. done.
Qed.

Lemma diffs_hash_perm ds1 ds2 h1 h2 :
  ds1 ≡ₚ ds2 -> diffs_hash ds1 = Ok h1 -> diffs_hash ds2 = Ok h2 -> h1 = h2.
Proof.
  intros Hp. unfold diffs_hash. rewrite !hash_fold_ok by done. intros [_ ->] [_ ->].
  do 2 f_equal. induction Hp; simpl; lia.
Qed.

(** ** History *)

Lemma trim_history_suffix h : exists pre, h = pre ++ trim_history h.
Proof.
  induction h as [|r h IH]; [by exists []|]. cbn [trim_history].
  destruct (_ <? _)%nat; [|by exists []]. destruct IH as [pre E]. exists (r :: pre). simpl. by f_equal.
Qed.

Lemma trim_history_length h : (length (trim_history h) <= MAX_COMMIT_HISTORY)%nat.
Proof.
  induction h as [|r h IH]; cbn [trim_history]; [simpl; lia|].
  destruct (MAX_COMMIT_HISTORY <? length (r :: h))%nat eqn:E; [done|]. by apply Nat.ltb_ge in E.
Qed.

Lemma trim_history_small h : (length h <= MAX_COMMIT_HISTORY)%nat -> trim_history h = h.
Proof.
  destruct h as [|r h]; [done|]. intros H. cbn [trim_history].
  destruct (MAX_COMMIT_HISTORY <? length (r :: h))%nat eqn:E; [apply Nat.ltb_lt in E; lia|done].
Qed.

Lemma trim_history_snoc h r : last (trim_history (h ++ [r])) = Some r.
Proof.
  induction h as [|r' h IH]; [done|]. cbn [trim_history app].
  destruct (_ <? _)%nat; [done|]. change (r' :: h ++ [r]) with ((r' :: h) ++ [r]). apply last_snoc.
Qed.

(** ** What a commit does *)

Definition commit_record (j : Journal) (h : Z) : CommitRecord V :=
  mkRecord (j_current_tick j) (j_pending_diffs j) (j_pending_commands j) h.

(** The state the store is left in by applying and snapshotting, whether or not they succeed. *)
Definition store_after (s : Store) (tick : Tick) (ds : list (Diff V)) (s' : Store) : Prop :=
  s' = (st_apply_diffs s tick ds).1 \/ s' = (st_generate_snapshot (st_apply_diffs s tick ds).1 tick).1.

(** Writes of the publication. *)
Inductive query_write : Query -> Query -> Prop :=
| qw_ingest q tick name b pm : query_write q (qe_ingest_snapshot q tick name b pm).1
| qw_store q snap : query_write q (qe_store_snapshot q snap).1.

Lemma ingest_tables_writes s tick q names : rtc query_write q (ingest_tables s tick q names).1.
Proof.
  revert q. induction names as [|n names IH]; intros q; simpl; [reflexivity|].
  destruct (st_position_map s n) as [pm|e]; [|reflexivity].
  set (b := match st_get_table_batches s n tick with Ok b => b | Err _ => no_batches end).
  pose proof (qw_ingest q tick n b pm) as Hw.
  destruct (qe_ingest_snapshot q tick n b pm) as [q' []]; simpl in *.
  - eapply rtc_l; [exact Hw|apply IH].
  - by apply rtc_once.
Qed.

Lemma publish_writes s tick q :
  exists q', (journal_publish s tick (Some q)).1 = Some q' /\ rtc query_write q q'.
Proof.
  unfold journal_publish. destruct (st_get_snapshot s tick) as [snap|e]; [|by exists q].
  pose proof (ingest_tables_writes s tick q (snap_table_names snap)) as Hw.
  destruct (ingest_tables _ _ _ _) as [q1 []]; simpl in *; [|by exists q1].
  pose proof (qw_store q1 snap) as Hw'. destruct (qe_store_snapshot q1 snap) as [q2 []]; simpl in *;
    (exists q2; split; [done|]; eapply rtc_r; [exact Hw|exact Hw']).
Qed.

(** What a failed commit leaves: everything of the journal but the save journal as it was, the
    store restored from the saved versions, the query engine rolled back. *)
Definition commit_failed (j j' : Journal) (e : JournalError) : Prop :=
  (exists saved s', st_save_table_versions (j_store j) (diff_table <$> j_pending_diffs j) = Ok saved
     /\ store_after (j_store j) (j_current_tick j) (j_pending_diffs j) s'
     /\ j_store j' = (st_restore_table_versions s' saved).1)
  /\ j_current_tick j' = j_current_tick j /\ j_phase j' = PhaseOpen
  /\ j_pending_commands j' = j_pending_commands j /\ j_pending_diffs j' = j_pending_diffs j
  /\ j_history j' = j_history j
  /\ (j_query_engine j' = j_query_engine j
      \/ (exists q q1 m, j_query_engine j = Some q /\ qe_begin_ingest q = (q1, Err m)
            /\ j_query_engine j' = Some q1)
      \/ exists q q1 rb q', j_query_engine j = Some q /\ qe_begin_ingest q = (q1, Ok rb)
           /\ rtc query_write q1 q' /\ j_query_engine j' = Some (qe_rollback q' rb).1)
  /\ (j_save_journal j' = j_save_journal j
      \/ exists h, append_opt (j_save_journal j) (commit_record j h) = (j_save_journal j', Err e)).

Definition commit_succeeded (j j' : Journal) (r : CommitResult) : Prop :=
  let rec := commit_record j (cr_state_hash r) in
  r = mkCommitResult (j_current_tick j) (length (j_pending_diffs j)) (length (j_pending_commands j))
        (cr_state_hash r)
  /\ diffs_hash (j_pending_diffs j) = Ok (cr_state_hash r)
  /\ j_current_tick j' = tick_next (j_current_tick j) /\ j_phase j' = PhaseOpen
  /\ j_pending_commands j' = [] /\ j_pending_diffs j' = []
  /\ j_history j' = trim_history (j_history j ++ [rec])
  /\ append_opt (j_save_journal j) rec = (j_save_journal j', Ok tt)
  /\ exists s1, st_apply_diffs (j_store j) (j_current_tick j) (j_pending_diffs j) = (s1, Ok tt)
       /\ st_generate_snapshot s1 (j_current_tick j) = (j_store j', Ok tt)
       /\ exists qe1 rb, begin_ingest_opt (j_query_engine j) = (qe1, Ok rb)
       /\ journal_publish (j_store j') (j_current_tick j) qe1 = (j_query_engine j', Ok tt).

(** [?] on [save_table_versions] leaves the phase committing and the pending lists empty. *)
Definition commit_stuck (j : Journal) : Journal := with_phase (with_pending j [] []) PhaseCommitting.

#[local] Arguments begin_ingest_opt : simpl never.
#[local] Arguments rollback_ingest : simpl never.
#[local] Arguments journal_publish : simpl never.
#[local] Arguments append_opt : simpl never.

Lemma journal_commit_spec j :
  j_phase j = PhaseOpen ->
  match journal_commit j with
  | (j', Ok r) => commit_succeeded j j' r
  | (j', Err e) =>
      (exists m, st_save_table_versions (j_store j) (diff_table <$> j_pending_diffs j) = Err m
         /\ e = JArrowStore ("save versions: " +:+ m) /\ j' = commit_stuck j)
      \/ commit_failed j j' e
  end.
Proof.
  destruct j as [tick ph cs ds hist sj st qe]. simpl. intros ->. unfold journal_commit. simpl.
  destruct (st_save_table_versions st (diff_table <$> ds)) as [saved|m] eqn:Esave; [|left; by exists m].
  unfold journal_apply_diffs_and_hash. simpl.
  destruct (st_apply_diffs st tick ds) as [s1 [[]|e]] eqn:Eapp.
  2: { right. split; [|simpl; auto 10]. exists saved, s1. simpl.
       split; [done|]. split; [|done]. left. by rewrite Eapp. }
  destruct (st_generate_snapshot s1 tick) as [s2 [[]|e]] eqn:Egen.
  2: { right. split; [|simpl; auto 10]. exists saved, s2. simpl.
       split; [done|]. split; [|done]. right. by rewrite Eapp; simpl; rewrite Egen. }
  assert (Hs2 : store_after st tick ds s2) by (right; rewrite Eapp; simpl; by rewrite Egen).
  destruct (try_fold hash_diff 0 ds) as [h|e] eqn:Eh.
  2: { right. split; [|simpl; auto 10]. exists saved, s2. simpl. done. }
  cbn [j_store j_query_engine j_save_journal j_current_tick with_store with_pending with_phase].
  assert (Hroll : forall rb qe1 qe', begin_ingest_opt qe = (qe1, Ok rb) -> (journal_publish s2 tick qe1).1 = qe' ->
    rollback_ingest qe' rb = qe
    \/ (exists q q1 m, qe = Some q /\ qe_begin_ingest q = (q1, Err m) /\ rollback_ingest qe' rb = Some q1)
    \/ exists q q1 r q', qe = Some q /\ qe_begin_ingest q = (q1, Ok r)
       /\ rtc query_write q1 q' /\ rollback_ingest qe' rb = Some (qe_rollback q' r).1).
  { intros rb qe1 qe' Ebeg <-. destruct qe as [q|]; [|by injection Ebeg as <- <-; left]. right; right.
    unfold begin_ingest_opt in Ebeg. destruct (qe_begin_ingest q) as [q1 [r|]] eqn:Eq; simpl in Ebeg; [|done].
    injection Ebeg as <- <-. destruct (publish_writes s2 tick q1) as (q' & -> & Hw). by exists q, q1, r, q'. }
  destruct (begin_ingest_opt qe) as [qe1 [rb|e]] eqn:Ebeg.
  2: { right. split; [exists saved, s2; done|]. simpl. split_and!; try done; [|by left]. right. left.
       destruct qe as [q|]; [|done]. unfold begin_ingest_opt in Ebeg.
       destruct (qe_begin_ingest q) as [q1 [r|m]] eqn:Eq; simpl in Ebeg; [done|].
       injection Ebeg as <- <-. by exists q, q1, m. }
  specialize (Hroll rb qe1).
  cbn [j_store j_query_engine with_query].
  destruct (journal_publish s2 tick qe1) as [qe' [[]|e]] eqn:Epub.
  2: { right. split; [exists saved, s2; done|]. simpl. auto 10. }
  cbn [j_store j_query_engine j_save_journal with_query].
  destruct (append_opt sj _) as [sj' [[]|e]] eqn:Eapnd.
  2: { right. split; [exists saved, s2; done|]. simpl. specialize (Hroll qe' eq_refl eq_refl).
       split_and!; try done. right. by exists h. }
  unfold commit_succeeded. simpl. split_and!; try done. exists s1. split_and!; try done. by exists qe1, rb.
Qed.

Lemma journal_commit_closed j :
  j_phase j <> PhaseOpen -> journal_commit j = (j, Err (JCommitFailed "no open commit phase")).
Proof. intros H. unfold journal_commit. by rewrite bool_decide_true. Qed.

(** The parts of a commit that succeed make it succeed. *)
Lemma commit_runs j saved s1 s2 h qe1 rb qe2 sj :
  j_phase j = PhaseOpen ->
  st_save_table_versions (j_store j) (diff_table <$> j_pending_diffs j) = Ok saved ->
  st_apply_diffs (j_store j) (j_current_tick j) (j_pending_diffs j) = (s1, Ok tt) ->
  st_generate_snapshot s1 (j_current_tick j) = (s2, Ok tt) -> diffs_hash (j_pending_diffs j) = Ok h ->
  begin_ingest_opt (j_query_engine j) = (qe1, Ok rb) -> journal_publish s2 (j_current_tick j) qe1 = (qe2, Ok tt) ->
  append_opt (j_save_journal j) (commit_record j h) = (sj, Ok tt) ->
  journal_commit j
  = (mkJournal (tick_next (j_current_tick j)) PhaseOpen [] [] (trim_history (j_history j ++ [commit_record j h])) sj s2 qe2,
     Ok (mkCommitResult (j_current_tick j) (length (j_pending_diffs j)) (length (j_pending_commands j)) h)).
Proof.
  destruct j as [tick ph cs ds hist sj0 st qe]. simpl. intros -> Hs Ha Hg Hh Hb Hp Happ. unfold journal_commit. simpl.
  rewrite Hs. unfold journal_apply_diffs_and_hash. simpl. rewrite Ha, Hg. unfold diffs_hash in Hh. rewrite Hh.
  cbn [j_store j_query_engine j_save_journal j_current_tick with_store with_pending with_phase]. rewrite Hb.
  cbn [j_store j_query_engine with_query]. rewrite Hp. cbn [j_store j_query_engine j_save_journal with_query].
  change (record_with_commands tick ds cs h) with (commit_record (mkJournal tick PhaseOpen cs ds hist sj0 st qe) h).
  by rewrite Happ.
Qed.

Lemma commit_ok j j' r : journal_commit j = (j', Ok r) -> j_phase j = PhaseOpen /\ commit_succeeded j j' r.
Proof.
  intros E. destruct (decide (j_phase j = PhaseOpen)) as [Hph|Hph].
  - split; [done|]. pose proof (journal_commit_spec j Hph) as H. by rewrite E in H.
  - by rewrite journal_commit_closed in E.
Qed.

End journal.

(** ** What the other components promise *)

(** The versions a store shows are back as they were once a batch over the saved tables has been
    applied, whether or not it failed half way, and the saved versions restored. *)
Class StoreLaws (V : Type) `{StoreOps V} := {
  StoreView : Type;
  st_view : Store -> StoreView;
  st_restore_saved (s s' : Store) tick ds saved :
    st_save_table_versions s (diff_table <$> ds) = Ok saved ->
    store_after s tick ds s' ->
    st_view (st_restore_table_versions s' saved).1 = st_view s }.

(** A rollback undoes what was published since [begin_ingest]; a refused [begin_ingest] did nothing. *)
Class QueryLaws (V : Type) `{QueryOps V} := {
  QueryView : Type;
  qe_view : Query -> QueryView;
  qe_begin_refused (q q1 : Query) m : qe_begin_ingest q = (q1, Err m) -> qe_view q1 = qe_view q;
  qe_rollback_begin (q q1 q' : Query) rb :
    qe_begin_ingest q = (q1, Ok rb) -> rtc query_write q1 q' ->
    qe_view (qe_rollback q' rb).1 = qe_view q }.

Section journal_laws.
Context {V : Type} `{SO : StoreOps V} `{QO : !QueryOps V} `{VO : SaveOps V}.
Context `{!StoreLaws V} `{!QueryLaws V}.
Context (diff_json : Diff V -> result string string).

Abbreviation commit := (journal_commit diff_json).

Lemma failed_query_view (j j' : Journal) e : commit_failed j j' e ->
  qe_view <$> j_query_engine j' = qe_view <$> j_query_engine j.
Proof.
  intros (_ & _ & _ & _ & _ & _ & Hq & _).
  destruct Hq as [->|[(q & q1 & m & -> & Hb & ->)|(q & q1 & rb & q' & -> & Hb & Hw & ->)]]; [done|..]; simpl; f_equal.
  - by eapply qe_begin_refused.
  - by eapply qe_rollback_begin.
Qed.

(** C6: What a commit of an open journal leaves, on each of its exits. When it succeeds, the diffs
    were applied and snapshotted at the open tick, the record of exactly the pending diffs and
    commands went to the history and the save journal, and the next tick opens with nothing pending.
    When the versions of the tables cannot be saved, the error says so and nothing but the phase and
    the pending lists changed: the phase stays committing and what was pending is dropped. On every
    other failing exit the tick, the pending diffs and commands, the history, the versions the store
    shows (not its maps of row positions) and the state of the query engine are as before and the
    phase is open again, so it can be retried; the save journal saw at most the record it refused. *)
Theorem journal_commit_atomic (j : Journal) :
  j_phase j = PhaseOpen ->
  match commit j with
  | (j', Ok r) => commit_succeeded diff_json j j' r
  | (j', Err e) =>
      (exists m, st_save_table_versions (j_store j) (diff_table <$> j_pending_diffs j) = Err m
         /\ e = JArrowStore ("save versions: " +:+ m)
         /\ j' = with_phase (with_pending j [] []) PhaseCommitting)
      \/ (is_ok (st_save_table_versions (j_store j) (diff_table <$> j_pending_diffs j)) = true
          /\ j_current_tick j' = j_current_tick j /\ j_phase j' = PhaseOpen
          /\ j_pending_commands j' = j_pending_commands j /\ j_pending_diffs j' = j_pending_diffs j
          /\ j_history j' = j_history j
          /\ st_view (j_store j') = st_view (j_store j)
          /\ qe_view <$> j_query_engine j' = qe_view <$> j_query_engine j
          /\ (j_save_journal j' = j_save_journal j
              \/ exists h, append_opt (j_save_journal j) (commit_record j h)
                           = (j_save_journal j', Err e)))
  end.
Proof.
  intros Hph. pose proof (journal_commit_spec diff_json j Hph) as H.
  destruct (commit j) as [j' [r|e]]; [done|]. destruct H as [(m & Hm & -> & ->)|H]; [left; by exists m|right].
  pose proof (failed_query_view _ _ _ H) as Hq.
  destruct H as ((saved & s' & Hsave & Hafter & Hst) & Ht & Hp & Hc & Hd & Hh & _ & Hs).
  split_and!; try done; [by rewrite Hsave|]. rewrite Hst. by eapply st_restore_saved.
Qed.

(** When saving the versions fails, the early return leaves the journal committing with nothing
    pending: what was submitted is lost and no later call has any effect. *)
Theorem journal_commit_save_failure_sticks (j : Journal) (m : string) (ops : list JournalOp) :
  j_phase j = PhaseOpen ->
  st_save_table_versions (j_store j) (diff_table <$> j_pending_diffs j) = Err m ->
  let j' := (commit j).1 in
  (commit j).2 = Err (JArrowStore ("save versions: " +:+ m))
  /\ j_phase j' = PhaseCommitting /\ j_pending_diffs j' = [] /\ j_pending_commands j' = []
  /\ j_current_tick j' = j_current_tick j
  /\ journal_run diff_json j' ops = j'.
Proof.
  intros Hph Hm. pose proof (journal_commit_spec diff_json j Hph) as H.
  destruct (commit j) as [j' [r|e]] eqn:E.
  { unfold journal_commit in E. rewrite bool_decide_false in E by tauto. simpl in E.
    by rewrite Hm in E. }
  destruct H as [(m' & Hm' & -> & ->)|((saved & s' & Hsave & _) & _)]; [|congruence].
  rewrite Hm in Hm'. simplify_eq. simpl. split_and!; try done. clear E.
  set (k := commit_stuck j). assert (Hk : j_phase k <> PhaseOpen) by done. revert Hk. generalize k.
  clear k. intros k Hk. induction ops as [|op ops IH]; [done|]. unfold journal_run. simpl.
  assert ((journal_step diff_json k op).1 = k) as ->; [|exact IH].
  destruct op as [e|[|e es]|d|[src [|d ds]]| |]; simpl; try done.
  - unfold journal_submit_command. by rewrite bool_decide_true.
  - unfold journal_submit_commands. simpl. unfold journal_submit_command at 1. by rewrite bool_decide_true.
  - unfold journal_submit_diff. by rewrite bool_decide_true.
  - unfold journal_submit_batch. simpl. unfold journal_submit_diff at 1. by rewrite bool_decide_true.
  - by rewrite journal_commit_closed.
  - unfold journal_clear_pending. by rewrite bool_decide_true.
Qed.

(** The hash a commit reports is a sum over the submitted diffs alone: two journals that commit the
    same diffs in any two orders report the same hash, whatever their stores hold before or after. *)
Theorem journal_commit_hash_of_diffs (j1 j2 j1' j2' : Journal) (r1 r2 : CommitResult) :
  commit j1 = (j1', Ok r1) -> commit j2 = (j2', Ok r2) ->
  j_pending_diffs j1 ≡ₚ j_pending_diffs j2 ->
  cr_state_hash r1 = cr_state_hash r2.
Proof.
  intros E1 E2 Hp.
  assert (Hok : forall j j' r, commit j = (j', Ok r) -> diffs_hash diff_json (j_pending_diffs j) = Ok (cr_state_hash r)).
  { intros j j' r E. destruct (decide (j_phase j = PhaseOpen)) as [Hph|Hph].
    - pose proof (journal_commit_spec diff_json j Hph) as H. rewrite E in H. apply H.
    - by rewrite journal_commit_closed in E. }
  eapply diffs_hash_perm; [exact Hp| |]; eauto.
Qed.
End journal_laws.

(** ** Submissions to an open journal *)

Section open_journal.
Context {V : Type} `{SO : StoreOps V} `{QO : !QueryOps V} `{VO : SaveOps V}.

(** Diffs are queued in order. *)
Lemma submit_diffs_open (j : Journal) ds :
  j_phase j = PhaseOpen ->
  try_each journal_submit_diff j ds
  = (with_pending j (j_pending_commands j) (j_pending_diffs j ++ ds), Ok tt).
Proof.
  revert j. induction ds as [|d ds IH]; intros j Hj; simpl.
  - rewrite app_nil_r. by destruct j.
  - unfold journal_submit_diff at 1. rewrite bool_decide_false by tauto. rewrite IH by done.
    simpl. by rewrite <- app_assoc.
Qed.

Lemma submit_command_frame (j : Journal) (e : CommandEnvelope V) j' : journal_submit_command j e = Ok j' ->
  exists cs, j' = with_pending j cs (j_pending_diffs j).
Proof.
  unfold journal_submit_command. case_bool_decide; [done|]. case_bool_decide; [done|]. intros [= <-]. by eexists.
Qed.
End open_journal.

(** ** The history and the save journal over any run *)

Section mirror.
Context {V : Type} `{SO : StoreOps V} `{QO : !QueryOps V}.
Context (diff_json : Diff V -> result string string).

#[local] Existing Instance InMemorySaveOps.

(** The [i]-th tick; ticks stop at [Tick::MAX]. *)
Definition nth_tick (i : nat) : Tick := mkTick (Z.min (Z.of_nat i) (u64_max - 1)).

Lemma nth_tick_next i : tick_next (nth_tick i) = nth_tick (S i).
Proof.
  pose proof (tick_next_spec (nth_tick i)) as H. destruct (tick_next (nth_tick i)) as [t].
  simpl in H. unfold nth_tick. f_equal. unfold_width. lia.
Qed.

Definition entry_ok (i : nat) (r : CommitRecord V) : Prop :=
  rec_tick r = nth_tick i
  /\ (forall c, c ∈ rec_commands r -> env_tick c = rec_tick r)
  /\ diffs_hash diff_json (rec_diffs r) = Ok (rec_state_hash r).

Definition log_inv (j : Journal) : Prop :=
  exists log, j_save_journal j = Some (mkInMemory log)
    /\ j_current_tick j = nth_tick (length log)
    /\ (forall i r, log !! i = Some r -> entry_ok i r)
    /\ (exists dropped, log = dropped ++ j_history j)
    /\ length (j_history j) = (length log `min` MAX_COMMIT_HISTORY)%nat
    /\ (forall c, c ∈ j_pending_commands j -> env_tick c = j_current_tick j).

Lemma trim_history_exact (h : list (CommitRecord V)) :
  length (trim_history h) = (length h `min` MAX_COMMIT_HISTORY)%nat.
Proof.
  induction h as [|r h IH]; [done|]. cbn [trim_history].
  destruct (MAX_COMMIT_HISTORY <? length (r :: h))%nat eqn:E.
  - apply Nat.ltb_lt in E. rewrite IH. simpl length in *. lia.
  - apply Nat.ltb_ge in E. lia.
Qed.

Lemma log_inv_pending (j : Journal) cs ds :
  log_inv j -> (forall c, c ∈ cs -> env_tick c = j_current_tick j) -> log_inv (with_pending j cs ds).
Proof. intros (log & H1 & H2 & H3 & H4 & H5 & _) Hcs. by exists log. Qed.

Lemma submit_command_inv (j : Journal) e j' :
  log_inv j -> journal_submit_command j e = Ok j' -> log_inv j'.
Proof.
  intros Hinv H. unfold journal_submit_command in H.
  case_bool_decide; [done|]. case_bool_decide as Ht; [done|]. injection H as <-.
  apply log_inv_pending; [done|]. destruct Hinv as (log & _ & _ & _ & _ & _ & Hc).
  intros c [Hin| ->%list_elem_of_singleton]%elem_of_app; [auto|].
  destruct (decide (env_tick e = j_current_tick j)); tauto.
Qed.

Lemma submit_diff_inv (j : Journal) d j' :
  log_inv j -> journal_submit_diff j d = Ok j' -> log_inv j'.
Proof.
  intros Hinv H. unfold journal_submit_diff in H. case_bool_decide; simplify_eq.
  apply log_inv_pending; [done|]. by destruct Hinv as (log & _ & _ & _ & _ & _ & Hc).
Qed.

Lemma commit_inv (j : Journal) : log_inv j -> log_inv (journal_commit diff_json j).1.
Proof.
  intros (log & Hsj & Ht & Hlog & [dropped Hdrop] & Hlen & Hc).
  destruct (decide (j_phase j = PhaseOpen)) as [Hph|Hph].
  2: { rewrite journal_commit_closed by done. exists log. eauto 10. }
  pose proof (journal_commit_spec diff_json j Hph) as H.
  destruct (journal_commit diff_json j) as [j' [r|e]]; simpl.
  - destruct H as (_ & Hh & Ht' & _ & Hc' & _ & Hhist & Hsj' & _).
    rewrite Hsj in Hsj'. unfold append_opt in Hsj'. simpl in Hsj'. injection Hsj' as Hsj'.
    set (rec := commit_record j (cr_state_hash r)) in *.
    exists (log ++ [rec]). rewrite length_app, Nat.add_1_r. split_and!.
    + done.
    + by rewrite Ht', Ht, nth_tick_next.
    + intros i r' [Hi|[Hi Hr]]%lookup_app_Some; [by apply Hlog|].
      destruct (i - length log)%nat as [|k] eqn:Ek; simpl in Hr; [|by rewrite lookup_nil in Hr].
      injection Hr as <-. assert (i = length log) as -> by lia. split; [done|]. split; [done|done].
    + destruct (trim_history_suffix (j_history j ++ [rec])) as [pre E]. exists (dropped ++ pre).
      by rewrite Hhist, Hdrop, <- !app_assoc, <- E.
    + rewrite Hhist, trim_history_exact, length_app, Hlen. cbn [length]. lia.
    + rewrite Hc'. set_solver.
  - destruct H as [(m & _ & _ & ->)|(_ & Ht' & _ & Hc' & _ & Hh' & _ & Hs)].
    + exists log. simpl. split_and!; [done..|by exists dropped|done|set_solver].
    + exists log. rewrite Ht', Hc', Hh'. split_and!; [|done|done|by exists dropped|done|done].
      destruct Hs as [->|[h Hs]]; [done|]. rewrite Hsj in Hs. by unfold append_opt in Hs.
Qed.

(** C17: From a new journal with an in-memory save journal, whatever is submitted, committed, refused or
    cleared: the save journal holds one record per committed tick, numbered from zero without a gap,
    each with only commands addressed to its tick and the hash of its diffs; the history is the
    last (at most 1024) of them; the open tick is the number of commits; and every pending
    command is addressed to the open tick. *)
Theorem journal_log_mirrors (store : Store) (qe : option Query) (ops : list JournalOp) :
  let j0 := journal_with_save_journal (with_query (journal_new store) qe) inmem_new in
  log_inv (journal_run diff_json j0 ops).
Proof.
  intros j0.
  assert (H0 : log_inv j0).
  { exists []. split_and!; [done|done|by intros|by exists []|done|set_solver]. }
  revert H0. generalize j0. clear j0. induction ops as [|op ops IH]; intros j Hj; [done|].
  apply IH. destruct op as [e|es|d|b| |]; simpl.
  - destruct (journal_submit_command j e) eqn:E; simpl; [by eapply submit_command_inv|done].
  - unfold journal_submit_commands. apply try_each_inv; [|done]. intros; by eapply submit_command_inv.
  - destruct (journal_submit_diff j d) eqn:E; simpl; [by eapply submit_diff_inv|done].
  - unfold journal_submit_batch. apply try_each_inv; [|done]. intros; by eapply submit_diff_inv.
  - pose proof (commit_inv j Hj) as H. by destruct (journal_commit diff_json j).
  - unfold journal_clear_pending. case_bool_decide; simpl; [done|].
    apply log_inv_pending; [done|set_solver].
Qed.
End mirror.

(** ** Concrete components, for the witnesses *)

(** A store that logs the diffs of each table; it fails on an unknown table, and when poisoned. *)
Record LogStore := mkLogStore { ls_tables : gmap string (list (Diff string)); ls_poisoned : bool }.

Definition ls_apply (s : LogStore) (d : Diff string) : result string LogStore :=
  match ls_tables s !! diff_table d with
  | Some l => Ok (mkLogStore (<[diff_table d := l ++ [d]]> (ls_tables s)) (ls_poisoned s))
  | None => Err ("table not found: " +:+ diff_table d)
  end.

#[export] Instance LogStoreOps : StoreOps string := {|
  Store := LogStore;
  SavedVersions := gmap string (list (Diff string));
  Snapshot := LogStore;
  Batches := list (Diff string);
  PositionMap := unit;
  no_batches := [];
  st_save_table_versions s names :=
    if ls_poisoned s then Err "lock poisoned"
    else Ok (filter (fun p => p.1 ∈ names) (ls_tables s));
  st_restore_table_versions s saved := (mkLogStore (saved ∪ ls_tables s) (ls_poisoned s), Ok tt);
  st_apply_diffs s _ ds := try_each ls_apply s ds;
  st_generate_snapshot s _ := (s, Ok tt);
  st_get_snapshot s _ := Ok s;
  snap_table_names s := (map_to_list (ls_tables s)).*1;
  st_get_table_batches s n _ := ok_or (ls_tables s !! n) "table not found";
  st_position_map _ _ := Ok tt |}.

#[export] Instance LogQueryOps : QueryOps string := {|
  Query := gmap string (list (Diff string));
  Rollback := gmap string (list (Diff string));
  qe_begin_ingest q := (q, Ok q);
  qe_ingest_snapshot q _ n b _ := (<[n := b]> q, Ok tt);
  qe_store_snapshot q _ := (q, Ok tt);
  qe_rollback _ rb := (rb, Ok tt) |}.

Lemma ls_apply_all s ds k :
  let s' := (try_each ls_apply s ds).1 in
  (k ∉ (diff_table <$> ds) -> ls_tables s' !! k = ls_tables s !! k)
  /\ (ls_tables s !! k = None -> ls_tables s' !! k = None)
  /\ ls_poisoned s' = ls_poisoned s.
Proof.
  revert s. induction ds as [|d ds IH]; intros s; simpl; [done|].
  unfold ls_apply at 1 3 5. destruct (ls_tables s !! diff_table d) as [l|] eqn:E; simpl; [|done].
  destruct (IH (mkLogStore (<[diff_table d:=l ++ [d]]> (ls_tables s)) (ls_poisoned s)))
    as (H1 & H2 & H3). simpl in *. split_and!; [| |done].
  - rewrite not_elem_of_cons. intros [Hne Hk]. rewrite H1 by done. by rewrite lookup_insert_ne.
  - intros Hk. apply H2. rewrite lookup_insert_ne; [done|congruence].
Qed.

#[export] Program Instance LogStoreLaws : StoreLaws string := {|
  StoreView := LogStore; st_view s := s |}.
Next Obligation.
  intros s s' tick ds saved Hs Hafter. simpl in *. destruct (ls_poisoned s) eqn:Hp; [done|].
  injection Hs as <-.
  assert (s' = (try_each ls_apply s ds).1) as -> by (by destruct Hafter as [->| ->]).
  pose proof (ls_apply_all s ds) as H. destruct s as [m p], (try_each ls_apply _ ds).1 as [m' p'].
  simpl in *. f_equal; [|apply (H "")]. apply map_eq. intros k. specialize (H k) as (H1 & H2 & _).
  rewrite lookup_union, map_lookup_filter. destruct (m !! k) as [l|] eqn:E; simpl.
  - destruct (decide (k ∈ diff_table <$> ds)) as [Hin|Hin].
    + rewrite option_guard_True by done. simpl. by destruct (m' !! k).
    + rewrite option_guard_False by done. simpl. rewrite H1 by done. done.
  - by rewrite H2.
Qed.

#[export] Program Instance LogQueryLaws : QueryLaws string := {|
  QueryView := gmap string (list (Diff string)); qe_view q := q |}.
Next Obligation. simpl. congruence. Qed.
Next Obligation. simpl. congruence. Qed.

Definition table_json (d : Diff string) : result string string := Ok (diff_table d).
Definition sample_diff (t : string) : Diff string := Delete t (mkRowId 1).
Definition sample_journal (poisoned : bool) (ds : list (Diff string)) : Journal :=
  with_pending (journal_with_save_journal
    (with_query (journal_new (mkLogStore {["army" := []]} poisoned)) (Some ∅)) inmem_new) [] ds.

Lemma journal_commit_atomic_witness :
  let j := sample_journal false [sample_diff "army"; sample_diff "navy"] in
  j_store (journal_commit table_json j).1 = mkLogStore {["army" := []]} false.
Proof.
  cbv zeta. pose proof (journal_commit_atomic table_json
    (sample_journal false [sample_diff "army"; sample_diff "navy"]) eq_refl) as H.
  destruct (journal_commit _ _) as [j' [r|e]] eqn:E.
  - apply (f_equal snd) in E. vm_compute in E. discriminate E.
  - destruct H as [(m & Hm & _)|(_ & _ & _ & _ & _ & _ & H & _)]; [vm_compute in Hm; discriminate Hm|exact H].
Defined.

Lemma journal_commit_save_failure_sticks_witness :
  let j := sample_journal true [sample_diff "army"] in
  j_pending_diffs (journal_commit table_json j).1 = []
  /\ journal_run table_json (journal_commit table_json j).1 [OpSubmitDiff (sample_diff "army"); OpCommit]
     = (journal_commit table_json j).1.
Proof.
  destruct (journal_commit_save_failure_sticks table_json (sample_journal true [sample_diff "army"])
    "lock poisoned" [OpSubmitDiff (sample_diff "army"); OpCommit] eq_refl eq_refl)
    as (_ & _ & Hd & _ & _ & Hr).
  split; [exact Hd|exact Hr].
Defined.

Lemma journal_commit_hash_of_diffs_witness :
  let j1 := sample_journal false [sample_diff "army"; Update "army" (mkRowId 2) "size" "9"] in
  let j2 := sample_journal false [Update "army" (mkRowId 2) "size" "9"; sample_diff "army"] in
  map_ok cr_state_hash (journal_commit table_json j1).2
  = map_ok cr_state_hash (journal_commit table_json j2).2.
Proof.
  intros j1 j2. destruct (journal_commit table_json j1) as [j1' [r1|e1]] eqn:E1.
  2: { apply (f_equal snd) in E1. vm_compute in E1. discriminate E1. }
  destruct (journal_commit table_json j2) as [j2' [r2|e2]] eqn:E2.
  2: { apply (f_equal snd) in E2. vm_compute in E2. discriminate E2. }
  simpl. f_equal. apply (journal_commit_hash_of_diffs table_json j1 j2 j1' j2' r1 r2 E1 E2).
  apply perm_swap.
Defined.
