(* ===== verification/Systems.v ===== *)
(** * Systems: phases, simulation systems and the refresh bus ([scharnhorst_scheduler])

    Models [phase.rs], [system.rs], [refresh_signal.rs] and [error.rs]. A [SimSystem] is a record
    of the trait's methods, [execute] being a function of what it is given (the query engine's type
    is a parameter). A poisoned mutex (a panic while it was held) is not modelled. *)

From Stdlib Require Import Ascii String.
From stdpp Require Import base gmap strings list.
From Stdlib Require Import ZArith Lia Sorted.
From S2P Require Import Prelude RustStr CoreTypes Rng Journal.

(** ** Phases *)

Inductive Phase := PreTick | Economy | Diplomacy | Military | PostTick.

#[export] Instance Phase_eq_dec : EqDecision Phase.
Proof. solve_decision. Defined.

Definition phase_order_index (p : Phase) : Z :=
  match p with PreTick => 0 | Economy => 1 | Diplomacy => 2 | Military => 3 | PostTick => 4 end.
Definition phase_all_in_order : list Phase := [PreTick; Economy; Diplomacy; Military; PostTick].
Definition phase_next (p : Phase) : option Phase :=
  match p with
  | PreTick => Some Economy
  | Economy => Some Diplomacy
  | Diplomacy => Some Military
  | Military => Some PostTick
  | PostTick => None
  end.
Definition phase_cmp (p q : Phase) : comparison := phase_order_index p ?= phase_order_index q.
Definition sim_phase_debug (p : Phase) : string :=
  match p with
  | PreTick => "PreTick" | Economy => "Economy" | Diplomacy => "Diplomacy"
  | Military => "Military" | PostTick => "PostTick"
  end.

(** ** Errors *)

Inductive SchedulerError :=
| SystemAlreadyRegistered (id : string)
| SystemNotFound (id : string)
| DependencyCycle (s : string)
| WriteConflict (phase a b table : string)
| SCommitFailed (tick : Z) (reason : string)
| SInvalidTick (expected got : Z)
| SJournal (s : string)
| SArrowStore (s : string)
| SQueryEngine (s : string)
| SSchema (s : string)
| RefreshSignalFailed (consumer : string) (source : SchedulerError)
| SRng (s : string)
| SIo (s : string)
| SInitialized
| SNotInitialized
| RefreshBusLookupFailed (s : string)
| SchemaNotFrozen
| SGeneric (s : string).

Abbreviation SchedulerResult := (result SchedulerError).

(** [JournalError]'s [Display]. *)
Definition journal_error_display (e : JournalError) : string :=
  match e with
  | JCommitFailed s => "commit failed: " +:+ s
  | JSubmitFailed s => "submit failed: " +:+ s
  | JInvalidPhase s => "invalid journal phase for operation: " +:+ s
  | JInvalidTick x g => "invalid tick: expected " +:+ show_u64 x +:+ ", got " +:+ show_u64 g
  | JTableNotFound s => "table not found: " +:+ s
  | JColumnNotFound s => "column not found: " +:+ s
  | JRowNotFound s => "row not found: " +:+ s
  | JDiffValidation s => "diff validation failed: " +:+ s
  | JCommandValidation s => "command validation failed: " +:+ s
  | JSaveJournal s => "save journal error: " +:+ s
  | JArrowStore s => "arrow store error: " +:+ s
  | JSchema s => "schema error: " +:+ s
  | JIo s => "io error: " +:+ s
  | JGeneric s => "generic error: " +:+ s
  | JSqlParse s => "SQL parse error: " +:+ s
  | JSqlExecution s => "SQL execution error: " +:+ s
  | JSqlUnsupported s => "unsupported SQL feature: " +:+ s
  | JSqlTypeError x a => "SQL type error: expected " +:+ x +:+ ", got " +:+ a
  end.

(** [?] on a [JournalResult]: the [From] instance. *)
Definition from_journal {A} (r : JournalResult A) : SchedulerResult A :=
  map_err (fun e => SJournal (journal_error_display e)) r.

(** ** Systems and their registrations *)

Definition RefreshCallback : Type := Z -> Z -> SchedulerResult unit.

Record SimSystem (Engine V : Type) := mkSystem {
  sys_id : string; sys_phase : Phase;
  sys_read_tables : list string; sys_write_tables : list string;
  sys_refresh_callback : option RefreshCallback;
  sys_execute : DeterministicRng -> Engine -> Phase -> Z -> SchedulerResult (list (Diff V)) }.
Arguments mkSystem {Engine V}.
Arguments sys_id {Engine V}.
Arguments sys_phase {Engine V}.
Arguments sys_read_tables {Engine V}.
Arguments sys_write_tables {Engine V}.
Arguments sys_refresh_callback {Engine V}.
Arguments sys_execute {Engine V}.

Record SystemRegistration := mkRegistration {
  reg_system_id : string; reg_phase : Phase;
  reg_read_tables : gset string; reg_write_tables : gset string;
  reg_refresh_callback : option RefreshCallback }.

Definition registration_from_system {Engine V} (s : SimSystem Engine V) : SystemRegistration :=
  mkRegistration (sys_id s) (sys_phase s) (list_to_set (sys_read_tables s))
    (list_to_set (sys_write_tables s)) (sys_refresh_callback s).
Definition reg_is_writer (r : SystemRegistration) : bool := bool_decide (reg_write_tables r <> ∅).
Definition reg_write_sets_disjoint (a b : SystemRegistration) : bool :=
  bool_decide (reg_write_tables a ## reg_write_tables b).
Definition reg_has_write_conflict (a b : SystemRegistration) : bool :=
  bool_decide (reg_phase a = reg_phase b) && negb (reg_write_sets_disjoint a b).
Definition reg_conflicting_tables (a b : SystemRegistration) : gset string :=
  reg_write_tables a ∩ reg_write_tables b.

(** ** The refresh bus *)

Record RefreshSignalHandle := mkHandle { handle_name : string }.
Record RefreshSignalBus := mkBus { bus_consumers : gmap string RefreshCallback }.

Definition bus_new : RefreshSignalBus := mkBus ∅.
Definition bus_register (b : RefreshSignalBus) (name : string) (cb : RefreshCallback)
  : RefreshSignalBus * RefreshSignalHandle :=
  (mkBus (<[name := cb]> (bus_consumers b)), mkHandle name).
Definition bus_unregister_by_name (b : RefreshSignalBus) (name : string)
  : SchedulerResult RefreshSignalBus :=
  match bus_consumers b !! name with
  | Some _ => Ok (mkBus (delete name (bus_consumers b)))
  | None => Err (RefreshBusLookupFailed name)
  end.
Definition bus_unregister (b : RefreshSignalBus) (h : RefreshSignalHandle)
  : SchedulerResult RefreshSignalBus := bus_unregister_by_name b (handle_name h).

(** The copied consumers, called one by one until one refuses. *)
Fixpoint broadcast_to (consumers : list (string * RefreshCallback)) (tick generation : Z)
  : SchedulerResult unit :=
  match consumers with
  | [] => Ok tt
  | (name, cb) :: rest =>
      let? _ := map_err (RefreshSignalFailed name) (cb tick generation) in
      broadcast_to rest tick generation
  end.

(** [order] is the order in which the hash map yields the consumers' names. *)
Definition bus_broadcast (b : RefreshSignalBus) (order : gset string -> list string)
    (tick generation : Z) : SchedulerResult unit :=
  broadcast_to (omap (fun n => pair n <$> bus_consumers b !! n) (order (dom (bus_consumers b))))
    tick generation.

(** ** Facts *)

Lemma broadcast_refused l tick gen e :
  broadcast_to l tick gen = Err e -> exists n e', e = RefreshSignalFailed n e'.
Proof.
  induction l as [|[n cb] l IH]; simpl; [done|]. destruct (cb tick gen); simpl; [done|].
  intros [= <-]. by eexists _, _.
Qed.

Lemma phase_index_inj p q : phase_order_index p = phase_order_index q -> p = q.
Proof. by destruct p, q. Qed.

Lemma conflict_spec a b :
  reg_has_write_conflict a b = true <->
  reg_phase a = reg_phase b /\ reg_conflicting_tables a b <> ∅.
Proof.
  unfold reg_has_write_conflict, reg_write_sets_disjoint, reg_conflicting_tables.
  rewrite andb_true_iff, negb_true_iff, bool_decide_eq_true, bool_decide_eq_false.
  rewrite disjoint_intersection_L. done.
Qed.

Lemma conflict_sym a b : reg_has_write_conflict a b = reg_has_write_conflict b a.
Proof.
  apply eq_true_iff_eq. rewrite !conflict_spec. unfold reg_conflicting_tables.
  rewrite (intersection_comm_L (reg_write_tables a)). split; intros [? ?]; done.
Qed.

Lemma broadcast_ok l tick gen :
  broadcast_to l tick gen = Ok tt <-> forall n cb, (n, cb) ∈ l -> cb tick gen = Ok tt.
Proof.
  induction l as [|[n cb] l IH]; simpl; [set_solver|].
  destruct (cb tick gen) as [[]|e] eqn:E; simpl.
  - rewrite IH. split.
    + intros H n' cb' [[= -> ->]|Hin]%elem_of_cons; [done|by eapply H].
    + intros H n' cb' Hin. apply (H n'). by right.
  - split; [done|]. intros H. rewrite (H n cb) in E by left. done.
Qed.

(** The phases are walked in the order of their indices, each once, and the order relation is the
    one of the indices, total and strict. *)
Theorem phase_order (p q : Phase) :
  p ∈ phase_all_in_order
  /\ StronglySorted (fun a b => phase_cmp a b = Lt) phase_all_in_order
  /\ (phase_next p = Some q <-> phase_order_index q = phase_order_index p + 1)
  /\ (phase_cmp p q = Eq <-> p = q).
Proof.
  split; [destruct p; set_solver|]. split; [repeat constructor|]. split; destruct p, q; simpl; split; done.
Qed.
