(* ===== verification/Scheduler.v ===== *)
(** * Scheduler: registration, the tick and its commit ([scharnhorst_scheduler])

    Models [scheduler.rs] in a release build: systems and registrations, the command queue, the
    phases of a tick, rollback, commit and the refresh broadcast. The scheduler's state owns the
    journal's; what its query engine shows is a function [engine_of] of the journal's store and
    query engine, since they share the tables. The orders in which hash maps yield their keys are arguments. Poisoned mutexes are not
    modelled, nor is tracing. *)

From Stdlib Require Import Ascii String.
From stdpp Require Import base gmap strings list fin_maps.
From Stdlib Require Import ZArith Lia Sorted.
From S2P Require Import Prelude RustStr CoreTypes Rng Journal Systems.

Section scheduler.
Context {V : Type} `{SO : StoreOps V} `{QO : !QueryOps V} `{VO : SaveOps V}.
Context (diff_json : Diff V -> result string string).
Context {Engine : Type} (engine_of : Store -> option Query -> Engine)
  (engine_is_schema_frozen : Engine -> result string bool).

Abbreviation System := (SimSystem Engine V).

Record Scheduler := mkScheduler {
  sc_systems : gmap string System;
  sc_registrations : gmap string SystemRegistration;
  sc_pending_commands : list (CommandEnvelope V);
  sc_journal : Journal;
  sc_refresh_bus : RefreshSignalBus;
  sc_current_tick : Z;
  sc_generation : Z;
  sc_initialized : bool }.

Definition scheduler_new (journal : Journal) : Scheduler :=
  mkScheduler ∅ ∅ [] journal bus_new 0 0 false.

Definition with_queue (s : Scheduler) q : Scheduler :=
  mkScheduler (sc_systems s) (sc_registrations s) q (sc_journal s) (sc_refresh_bus s)
    (sc_current_tick s) (sc_generation s) (sc_initialized s).
Definition with_journal (s : Scheduler) j : Scheduler :=
  mkScheduler (sc_systems s) (sc_registrations s) (sc_pending_commands s) j (sc_refresh_bus s)
    (sc_current_tick s) (sc_generation s) (sc_initialized s).
Definition with_bus (s : Scheduler) b : Scheduler :=
  mkScheduler (sc_systems s) (sc_registrations s) (sc_pending_commands s) (sc_journal s) b
    (sc_current_tick s) (sc_generation s) (sc_initialized s).
Definition with_systems (s : Scheduler) sys regs : Scheduler :=
  mkScheduler sys regs (sc_pending_commands s) (sc_journal s) (sc_refresh_bus s)
    (sc_current_tick s) (sc_generation s) (sc_initialized s).
Definition with_counters (s : Scheduler) tick gen : Scheduler :=
  mkScheduler (sc_systems s) (sc_registrations s) (sc_pending_commands s) (sc_journal s)
    (sc_refresh_bus s) tick gen (sc_initialized s).

(** ** Registration *)

Section with_order.
(** The order of the keys of the systems' maps, of a table set and of the bus. *)
Context (reg_order table_order bus_order : gset string -> list string).

(** [registrations.values()] *)
Definition reg_values (regs : gmap string SystemRegistration) : list SystemRegistration :=
  omap (fun k => regs !! k) (reg_order (dom regs)).

Definition scheduler_register_system (s : Scheduler) (system : System) : SchedulerResult Scheduler :=
  if sc_initialized s then Err SInitialized
  else
    let id := sys_id system in
    let reg := registration_from_system system in
    if bool_decide (is_Some (sc_systems s !! id)) then Err (SystemAlreadyRegistered id)
    else
      match List.filter (reg_has_write_conflict reg) (reg_values (sc_registrations s)) with
      | conflict :: _ =>
          let table := default "<unknown>" (head (table_order (reg_conflicting_tables reg conflict))) in
          Err (WriteConflict (sim_phase_debug (reg_phase reg)) id (reg_system_id conflict) table)
      | [] =>
          let s := match reg_refresh_callback reg with
                   | Some cb => with_bus s (bus_register (sc_refresh_bus s) id cb).1
                   | None => s
                   end in
          Ok (with_systems s (<[id := system]> (sc_systems s)) (<[id := reg]> (sc_registrations s)))
      end.

Definition scheduler_unregister_system (s : Scheduler) (system_id : string) : Scheduler :=
  let s := with_systems s (delete system_id (sc_systems s)) (delete system_id (sc_registrations s)) in
  match bus_unregister_by_name (sc_refresh_bus s) system_id with
  | Ok b => with_bus s b
  | Err _ => s
  end.

Definition scheduler_system_ids (s : Scheduler) : list string := reg_order (dom (sc_systems s)).

Definition scheduler_registration (s : Scheduler) (system_id : string)
  : SchedulerResult SystemRegistration :=
  ok_or (sc_registrations s !! system_id) (SystemNotFound system_id).

(** [map.entry(reg.phase).or_default().push(id)] *)
Fixpoint group_push (p : Phase) (id : string) (groups : list (Phase * list string))
  : list (Phase * list string) :=
  match groups with
  | [] => [(p, [id])]
  | (q, ids) :: groups' =>
      if decide (q = p) then (q, ids ++ [id]) :: groups' else (q, ids) :: group_push p id groups'
  end.

(** The groups' own hash order does not matter: each phase is there once, and they are sorted. *)
Definition systems_by_phase (s : Scheduler) : list (Phase * list string) :=
  let groups := foldl (fun groups id =>
                         match sc_registrations s !! id with
                         | Some reg => group_push (reg_phase reg) id groups
                         | None => groups
                         end) [] (reg_order (dom (sc_registrations s))) in
  sort_by_key (fun g => phase_order_index g.1) groups.

(** ** The command queue *)

Definition scheduler_enqueue_command (s : Scheduler) (e : CommandEnvelope V) : Scheduler :=
  with_queue s (sc_pending_commands s ++ [e]).

(** The queue is drained before the first submission, whatever becomes of it. *)
Definition scheduler_consume_pending_commands (s : Scheduler)
  : Scheduler * SchedulerResult (list (CommandEnvelope V)) :=
  let drained := sc_pending_commands s in
  let s := with_queue s [] in
  match try_each journal_submit_command (sc_journal s) drained with
  | (j, Err e) => (with_journal s j, from_journal (Err e))
  | (j, Ok _) => (with_journal s j, Ok drained)
  end.

Definition scheduler_rollback_consumed_commands (s : Scheduler) (consumed : list (CommandEnvelope V))
  : Scheduler :=
  let j := match journal_clear_pending (sc_journal s) with Ok j => j | Err _ => sc_journal s end in
  let s := with_journal s j in
  with_queue s (foldl (fun q cmd => cmd :: q) (sc_pending_commands s) (rev consumed)).

(** ** The phases of a tick *)

Fixpoint run_systems (s : Scheduler) (phase : Phase) (ids : list string) (tick : Tick) (j : Journal)
  : Journal * SchedulerResult unit :=
  match ids with
  | [] => (j, Ok tt)
  | id :: ids' =>
      match sc_systems s !! id with
      | None => (j, Err (SystemNotFound id))
      | Some system =>
          let rng := rng_new id (tick_as_u64 tick) in
          match sys_execute system rng (engine_of (j_store j) (j_query_engine j)) phase (tick_as_u64 tick) with
          | Err e => (j, Err e)
          | Ok diffs =>
              match try_each journal_submit_diff j diffs with
              | (j, Err e) => (j, from_journal (Err e))
              | (j, Ok _) => run_systems s phase ids' tick j
              end
          end
      end
  end.

Definition scheduler_run_phase (s : Scheduler) (phase : Phase) (ids : list string) (tick : Tick)
  : Scheduler * SchedulerResult unit :=
  let '(j, r) := run_systems s phase ids tick (sc_journal s) in (with_journal s j, r).

Fixpoint run_groups (s : Scheduler) (groups : list (Phase * list string)) (tick : Tick)
  : Scheduler * SchedulerResult unit :=
  match groups with
  | [] => (s, Ok tt)
  | (phase, ids) :: groups' =>
      match scheduler_run_phase s phase ids tick with
      | (s, Err e) => (s, Err e)
      | (s, Ok _) => run_groups s groups' tick
      end
  end.
Definition scheduler_run_phases (s : Scheduler) (tick : Tick) : Scheduler * SchedulerResult unit :=
  run_groups s (systems_by_phase s) tick.

(** ** Commit, broadcast, tick *)

Definition scheduler_atomic_commit (s : Scheduler) : Scheduler * SchedulerResult CommitResult :=
  match journal_commit diff_json (sc_journal s) with
  | (j, Err e) => (with_journal s j, from_journal (Err e))
  | (j, Ok r) =>
      let s := with_journal s j in
      (with_counters s (sc_current_tick s) (wrap64 (sc_generation s + 1)), Ok r)
  end.

Definition scheduler_broadcast_refresh (s : Scheduler) (tick : Tick) (generation : Z)
  : SchedulerResult unit :=
  bus_broadcast (sc_refresh_bus s) bus_order (tick_as_u64 tick) generation.

Definition scheduler_advance_tick (s : Scheduler) : Scheduler * Tick :=
  let prev := sc_current_tick s in
  (with_counters s (wrap64 (prev + 1)) (sc_generation s), tick_next (mkTick prev)).

Definition scheduler_current_tick (s : Scheduler) : Tick := mkTick (sc_current_tick s).

Definition scheduler_tick (s : Scheduler) : Scheduler * SchedulerResult CommitResult :=
  if negb (sc_initialized s) then (s, Err SNotInitialized)
  else
    let tick := scheduler_current_tick s in
    match scheduler_consume_pending_commands s with
    | (s, Err e) => (s, Err e)
    | (s, Ok consumed) =>
        match scheduler_run_phases s tick with
        | (s, Err e) => (scheduler_rollback_consumed_commands s consumed, Err e)
        | (s, Ok _) =>
            match scheduler_atomic_commit s with
            | (s, Ok result) =>
                let s := (scheduler_advance_tick s).1 in
                match scheduler_broadcast_refresh s (cr_tick result) (sc_generation s) with
                | Err e => (s, Err e)
                | Ok _ => (s, Ok result)
                end
            | (s, Err e) => (scheduler_rollback_consumed_commands s consumed, Err e)
            end
        end
    end.

Definition scheduler_register_consumer (s : Scheduler) (name : string) (cb : RefreshCallback)
  : Scheduler * RefreshSignalHandle :=
  let '(b, h) := bus_register (sc_refresh_bus s) name cb in (with_bus s b, h).
Definition scheduler_unregister_consumer (s : Scheduler) (h : RefreshSignalHandle)
  : SchedulerResult Scheduler :=
  let? b := bus_unregister (sc_refresh_bus s) h in Ok (with_bus s b).

(** ** Initialization *)

Fixpoint check_tables (regs : gmap string SystemRegistration) (ids : list string) : SchedulerResult unit :=
  match ids with
  | [] => Ok tt
  | id :: ids' =>
      match regs !! id with
      | Some reg =>
          if bool_decide (reg_read_tables reg = ∅) && bool_decide (reg_write_tables reg = ∅)
          then Err (SGeneric ("system '" +:+ id +:+ "' has no read or write tables declared"))
          else check_tables regs ids'
      | None => check_tables regs ids'
      end
  end.

Fixpoint check_systems (systems : gmap string System) (ids : list string) : SchedulerResult unit :=
  match ids with
  | [] => Ok tt
  | id :: ids' =>
      if bool_decide (is_Some (systems !! id)) then check_systems systems ids'
      else Err (SGeneric ("registration '" +:+ id +:+ "' has no corresponding system"))
  end.

(** The inner loop of the pairwise check, then the outer one. *)
Fixpoint check_against (a : SystemRegistration) (others : list SystemRegistration)
  : SchedulerResult unit :=
  match others with
  | [] => Ok tt
  | b :: others' =>
      if reg_has_write_conflict a b then
        match table_order (reg_conflicting_tables a b) with
        | table :: _ =>
            Err (WriteConflict (sim_phase_debug (reg_phase a)) (reg_system_id a) (reg_system_id b) table)
        | [] => check_against a others'
        end
      else check_against a others'
  end.
Fixpoint check_conflicts (regs : list SystemRegistration) : SchedulerResult unit :=
  match regs with
  | [] => Ok tt
  | a :: regs' => let? _ := check_against a regs' in check_conflicts regs'
  end.

Definition scheduler_initialize (s : Scheduler) : SchedulerResult Scheduler :=
  if sc_initialized s then Ok s
  else
    let? frozen := map_err SQueryEngine (engine_is_schema_frozen (engine_of (j_store (sc_journal s)) (j_query_engine (sc_journal s)))) in
    if negb frozen then Err SchemaNotFrozen
    else
      let order := reg_order (dom (sc_registrations s)) in
      let? _ := check_tables (sc_registrations s) order in
      let? _ := check_systems (sc_systems s) order in
      let? _ := check_conflicts (reg_values (sc_registrations s)) in
      Ok (mkScheduler (sc_systems s) (sc_registrations s) (sc_pending_commands s) (sc_journal s)
            (sc_refresh_bus s) (sc_current_tick s) (sc_generation s) true).
End with_order.
End scheduler.
