(* ===== verification/SchedulerFacts.v ===== *)
(** * SchedulerFacts: what the scheduler guarantees

    The registration invariant and initialization; the outcome of a tick on every branch; what any
    calls do to the registrations and the counters, those that move one counter alone included; the
    order systems run in and its independence of hash-map order. *)

From Stdlib Require Import Ascii String.
From stdpp Require Import base gmap strings list fin_maps.
From Stdlib Require Import ZArith Lia Sorted.
From S2P Require Import Prelude RustStr CoreTypes Rng Journal Systems Scheduler.

(** ** Submissions to an open journal *)

Section submissions.
Context {V : Type} `{SO : StoreOps V} `{QO : !QueryOps V} `{VO : SaveOps V}.

Lemma submit_commands_open (j : Journal) cs :
  j_phase j = PhaseOpen -> (forall c, c ∈ cs -> env_tick c = j_current_tick j) ->
  try_each journal_submit_command j cs
  = (with_pending j (j_pending_commands j ++ cs) (j_pending_diffs j), Ok tt).
Proof.
  revert j. induction cs as [|c cs IH]; intros j Hj Hc; simpl.
  - rewrite app_nil_r. by destruct j.
  - unfold journal_submit_command at 1. rewrite bool_decide_false by tauto.
    rewrite bool_decide_false by (intros H; apply H, Hc; left).
    rewrite IH; [simpl; by rewrite <- app_assoc|done|]. intros c' Hc'. apply Hc. by right.
Qed.

Lemma submit_commands_stale (j : Journal) pre c post :
  j_phase j = PhaseOpen -> (forall d, d ∈ pre -> env_tick d = j_current_tick j) ->
  env_tick c <> j_current_tick j ->
  try_each journal_submit_command j (pre ++ c :: post)
  = (with_pending j (j_pending_commands j ++ pre) (j_pending_diffs j),
     Err (JInvalidTick (tick_as_u64 (j_current_tick j)) (tick_as_u64 (env_tick c)))).
Proof.
  revert j. induction pre as [|d pre IH]; intros j Hj Hpre Hc; simpl.
  - unfold journal_submit_command. rewrite bool_decide_false by tauto.
    rewrite bool_decide_true by done. rewrite app_nil_r. by destruct j.
  - unfold journal_submit_command at 1. rewrite bool_decide_false by tauto.
    rewrite bool_decide_false by (intros H; apply H, Hpre; left).
    rewrite IH; [simpl; by rewrite <- app_assoc|done| |done]. intros d' Hd'. apply Hpre. by right.
Qed.
End submissions.

(** ** The order of the systems *)

Definition flat_groups (groups : list (Phase * list string)) : list (Phase * string) :=
  groups ≫= fun g => (fun id => (g.1, id)) <$> g.2.

Lemma group_push_flat p id groups : flat_groups (group_push p id groups) ≡ₚ (p, id) :: flat_groups groups.
Proof.
  induction groups as [|[q ids] groups IH]; simpl; [done|].
  destruct (decide (q = p)) as [->|Hne]; unfold flat_groups in *; csimpl.
  - rewrite fmap_app. simpl. rewrite <- app_assoc. symmetry. apply Permutation_middle.
  - rewrite IH. symmetry. apply Permutation_middle.
Qed.

Lemma flat_groups_perm g1 g2 : g1 ≡ₚ g2 -> flat_groups g1 ≡ₚ flat_groups g2.
Proof. intros H. unfold flat_groups. by apply bind_Permutation. Qed.

Abbreviation by_index := (fun x y : Phase * string => phase_order_index x.1 <= phase_order_index y.1).

Lemma flat_groups_sorted groups :
  StronglySorted (fun g h => phase_order_index g.1 <= phase_order_index h.1) groups ->
  StronglySorted by_index (flat_groups groups).
Proof.
  induction 1 as [|[p ids] groups Hs IH Hall]; [constructor|].
  simpl in Hall. unfold flat_groups. csimpl. fold (flat_groups groups).
  induction ids as [|id ids IHids]; [done|].
  simpl. constructor; [done|]. apply Forall_app. split.
  - apply Forall_fmap, Forall_forall. intros x _. simpl. lia.
  - apply Forall_forall. intros [q x] Hx. unfold flat_groups in Hx.
    apply list_elem_of_bind in Hx as ([q' ids'] & Hx & Hg).
    apply list_elem_of_fmap in Hx as (y & [= -> ->] & _).
    rewrite Forall_forall in Hall. by apply (Hall (q', ids')).
Qed.

Section order.
Context {V : Type} `{SO : StoreOps V} `{QO : !QueryOps V} `{VO : SaveOps V} {Engine : Type}.

Abbreviation scheduler := (@Scheduler V SO QO VO Engine).

Definition run_order (reg_order : gset string -> list string) (s : scheduler)
  : list (Phase * string) := flat_groups (systems_by_phase reg_order s).

(** Each registered system with its phase, in the order of the hash map. *)
Definition registered (reg_order : gset string -> list string) (s : scheduler)
  : list (Phase * string) :=
  omap (fun id => (fun reg => (reg_phase reg, id)) <$> sc_registrations s !! id)
       (reg_order (dom (sc_registrations s))).

Lemma run_order_perm reg_order s : run_order reg_order s ≡ₚ registered reg_order s.
Proof.
  unfold run_order, systems_by_phase, registered.
  rewrite (flat_groups_perm _ _ (sort_by_key_perm _ _)).
  generalize (reg_order (dom (sc_registrations s))) as ids. intros ids.
  assert (H : forall groups, flat_groups (foldl (fun groups id =>
      match sc_registrations s !! id with
      | Some reg => group_push (reg_phase reg) id groups | None => groups end) groups ids)
    ≡ₚ flat_groups groups ++ omap (fun id => (fun reg => (reg_phase reg, id)) <$> sc_registrations s !! id) ids).
  { induction ids as [|id ids IH]; intros groups; csimpl; [by rewrite app_nil_r|].
    rewrite IH. destruct (sc_registrations s !! id) as [reg|]; csimpl; [|done].
    rewrite group_push_flat. simpl. by rewrite Permutation_middle. }
  apply (H []).
Qed.

Lemma run_order_sorted reg_order s : StronglySorted by_index (run_order reg_order s).
Proof. apply flat_groups_sorted, sort_by_key_sorted. Qed.

Lemma elem_of_run_order reg_order s p id :
  (forall X, reg_order X ≡ₚ elements X) ->
  (p, id) ∈ run_order reg_order s <-> exists reg, sc_registrations s !! id = Some reg /\ reg_phase reg = p.
Proof.
  intros Ho. rewrite run_order_perm. unfold registered. rewrite list_elem_of_omap. split.
  - intros (k & _ & Hk). apply fmap_Some in Hk as (reg & Hk & [= -> ->]). by exists reg.
  - intros (reg & Hreg & <-). exists id. rewrite Ho, elem_of_elements, elem_of_dom, Hreg. split; [by eexists|done].
Qed.

Lemma run_order_hash o1 o2 s :
  (forall X, o1 X ≡ₚ elements X) -> (forall X, o2 X ≡ₚ elements X) ->
  run_order o1 s ≡ₚ run_order o2 s.
Proof.
  intros H1 H2. rewrite !run_order_perm. unfold registered. apply omap_Permutation. by rewrite H1, H2.
Qed.

Lemma run_order_nodup o s : (forall X, o X ≡ₚ elements X) -> NoDup (run_order o s).*2.
Proof.
  intros Ho. rewrite run_order_perm. unfold registered.
  assert (H : NoDup (o (dom (sc_registrations s)))) by (rewrite Ho; apply NoDup_elements).
  induction H as [|id ids Hid Hnd IH]; csimpl; [constructor|].
  destruct (sc_registrations s !! id) as [reg|]; csimpl; [|done].
  constructor; [|done]. intros ([p k] & -> & Hk)%list_elem_of_fmap.
  apply list_elem_of_omap in Hk as (k' & Hk' & (reg' & _ & [= _ ->])%fmap_Some). simpl in Hid. done.
Qed.
End order.

(** ** Registration and initialization *)

Section registration.
Context {V : Type} `{SO : StoreOps V} `{QO : !QueryOps V} `{VO : SaveOps V}.
Context {Engine : Type} (engine_of : Store -> option Query -> Engine)
  (engine_is_schema_frozen : Engine -> result string bool)
  (reg_order table_order : gset string -> list string).
Context (Hreg : forall X, reg_order X ≡ₚ elements X) (Htab : forall X, table_order X ≡ₚ elements X).

Abbreviation scheduler := (@Scheduler V SO QO VO Engine).

(** Both maps hold the same systems under their own ids, and no two systems of one phase declare
    a common write table. *)
Definition systems_inv (s : scheduler) : Prop :=
  (forall id sys, sc_systems s !! id = Some sys -> sys_id sys = id)
  /\ sc_registrations s = registration_from_system <$> sc_systems s
  /\ forall a b ra rb, a <> b ->
       sc_registrations s !! a = Some ra -> sc_registrations s !! b = Some rb ->
       reg_has_write_conflict ra rb = false.

Lemma elem_of_reg_values (regs : gmap string SystemRegistration) r :
  r ∈ reg_values reg_order regs <-> exists id, regs !! id = Some r.
Proof.
  unfold reg_values. rewrite list_elem_of_omap. split.
  - intros (k & _ & Hk). by exists k.
  - intros (k & Hk). exists k. rewrite Hreg, elem_of_elements, elem_of_dom. split; [by eexists|done].
Qed.

Lemma register_system_inv (s s' : scheduler) sys :
  systems_inv s -> scheduler_register_system reg_order table_order s sys = Ok s' -> systems_inv s'.
Proof.
  intros (Hid & Hregs & Hconf) H. unfold scheduler_register_system in H.
  destruct (sc_initialized s); [done|]. case_bool_decide as Hn; [done|].
  destruct (List.filter _ _) as [|c cs] eqn:Hf; [|done].
  assert (Hno : forall id r, sc_registrations s !! id = Some r ->
    reg_has_write_conflict (registration_from_system sys) r = false).
  { intros id r Hr. destruct (reg_has_write_conflict _ r) eqn:E; [|done]. exfalso.
    assert (r ∈ ([] : list SystemRegistration)) as Hin; [|by apply not_elem_of_nil in Hin].
    rewrite <- Hf. apply list_elem_of_Filter. split; [|done]. apply elem_of_reg_values. by exists id. }
  injection H as <-. split; [|split].
  - simpl. destruct (sys_refresh_callback sys); simpl.
    all: intros id sys' [[<- <-]|[_ H]]%lookup_insert_Some; [done|by apply Hid].
  - simpl. destruct (sys_refresh_callback sys); simpl; by rewrite Hregs, fmap_insert.
  - assert (Hboth : forall a b ra rb, a <> b ->
      <[sys_id sys := registration_from_system sys]> (sc_registrations s) !! a = Some ra ->
      <[sys_id sys := registration_from_system sys]> (sc_registrations s) !! b = Some rb ->
      reg_has_write_conflict ra rb = false).
    { intros a b ra rb Hab [[<- <-]|[Ha Hra]]%lookup_insert_Some [[<- <-]|[Hb Hrb]]%lookup_insert_Some.
      - done.
      - by eapply Hno.
      - rewrite conflict_sym. by eapply Hno.
      - by apply (Hconf a b). }
    simpl. by destruct (sys_refresh_callback sys).
Qed.

Lemma unregister_system_inv (s : scheduler) id :
  systems_inv s -> systems_inv (scheduler_unregister_system s id).
Proof.
  intros (Hid & Hregs & Hconf). unfold scheduler_unregister_system.
  assert (H : systems_inv (with_systems s (delete id (sc_systems s)) (delete id (sc_registrations s)))).
  { split; [|split]; simpl.
    - intros k sys [_ H]%lookup_delete_Some. by apply Hid.
    - by rewrite Hregs, fmap_delete.
    - intros a b ra rb Hab [_ Ha]%lookup_delete_Some [_ Hb]%lookup_delete_Some. by apply (Hconf a b). }
  by destruct (bus_unregister_by_name _ _).
Qed.

Lemma check_tables_spec regs ids :
  (forall id, id ∈ ids -> is_Some (regs !! id)) ->
  match check_tables regs ids with
  | Ok _ => forall id r, id ∈ ids -> regs !! id = Some r -> reg_read_tables r <> ∅ \/ reg_write_tables r <> ∅
  | Err e => exists id r, id ∈ ids /\ regs !! id = Some r /\ reg_read_tables r = ∅ /\ reg_write_tables r = ∅
      /\ e = SGeneric ("system '" +:+ id +:+ "' has no read or write tables declared")
  end.
Proof.
  induction ids as [|id ids IH]; intros Hin; simpl; [set_solver|].
  destruct (Hin id) as [r Hr]; [left|]. rewrite Hr. specialize (IH ltac:(intros; apply Hin; by right)).
  destruct (bool_decide (reg_read_tables r = ∅)) eqn:E1, (bool_decide (reg_write_tables r = ∅)) eqn:E2; simpl.
  1: { apply bool_decide_eq_true in E1, E2. exists id, r. split_and!; [left|done..]. }
  all: rewrite ?bool_decide_eq_false in *.
  all: destruct (check_tables regs ids) as [[]|e];
    [intros k rk [->|Hk]%elem_of_cons Hrk; [simplify_eq; tauto|by eapply IH]
    |destruct IH as (k & rk & Hk & ?); exists k, rk; split; [by right|done]].
Qed.

Lemma check_systems_spec (systems : gmap string (SimSystem Engine V)) ids :
  (forall id, id ∈ ids -> is_Some (systems !! id)) -> check_systems systems ids = Ok tt.
Proof.
  induction ids as [|id ids IH]; intros H; simpl; [done|].
  rewrite bool_decide_true by (apply H; left). apply IH. intros k Hk. apply H. by right.
Qed.

Lemma check_conflicts_spec regs :
  ForallOrdPairs (fun a b => reg_has_write_conflict a b = false) regs ->
  check_conflicts table_order regs = Ok tt.
Proof.
  induction 1 as [|a regs Ha _ IH]; simpl; [done|].
  assert (check_against table_order a regs = Ok tt) as ->; [|done].
  clear IH. induction Ha as [|b regs Hb _ IHa]; simpl; [done|]. rewrite Hb. apply IHa.
Qed.

Lemma ForallOrdPairs_omap {A B} (f : A -> option B) (R : B -> B -> Prop) l :
  NoDup l ->
  (forall a b x y, a <> b -> f a = Some x -> f b = Some y -> R x y) ->
  ForallOrdPairs R (omap f l).
Proof.
  intros Hnd HR. induction Hnd as [|a l Ha Hnd IH]; csimpl; [constructor|].
  destruct (f a) as [x|] eqn:Hx; [|done]. constructor; [|done].
  apply Forall_forall. intros y (b & Hb & Hy)%list_elem_of_omap. eapply HR; [|done|done].
  by intros ->.
Qed.

(** Initialization succeeds exactly when the schema is frozen and every system declares a table:
    the invariant that registration maintains makes its other checks redundant. *)
Theorem scheduler_initialize_iff (s : scheduler) :
  systems_inv s -> sc_initialized s = false ->
  match scheduler_initialize engine_of engine_is_schema_frozen reg_order table_order s with
  | Ok s' => sc_initialized s' = true /\ sc_registrations s' = sc_registrations s
      /\ engine_is_schema_frozen (engine_of (j_store (sc_journal s)) (j_query_engine (sc_journal s)))
         = Ok true
      /\ forall id r, sc_registrations s !! id = Some r ->
           reg_read_tables r <> ∅ \/ reg_write_tables r <> ∅
  | Err e =>
      (exists m, engine_is_schema_frozen
                   (engine_of (j_store (sc_journal s)) (j_query_engine (sc_journal s))) = Err m
                 /\ e = SQueryEngine m)
      \/ (engine_is_schema_frozen
            (engine_of (j_store (sc_journal s)) (j_query_engine (sc_journal s))) = Ok false
          /\ e = SchemaNotFrozen)
      \/ exists id r, sc_registrations s !! id = Some r /\ reg_read_tables r = ∅ /\ reg_write_tables r = ∅
           /\ e = SGeneric ("system '" +:+ id +:+ "' has no read or write tables declared")
  end.
Proof.
  intros (Hid & Hregs & Hconf) Hini. unfold scheduler_initialize. rewrite Hini.
  destruct (engine_is_schema_frozen _) as [[]|m] eqn:Hfr; simpl; [|by eauto|by eauto].
  set (order := reg_order (dom (sc_registrations s))).
  assert (Hdom : forall id, id ∈ order <-> is_Some (sc_registrations s !! id)).
  { intros id. unfold order. by rewrite Hreg, elem_of_elements, elem_of_dom. }
  pose proof (check_tables_spec (sc_registrations s) order (fun id H => proj1 (Hdom id) H)) as Ht.
  destruct (check_tables _ _) as [[]|e].
  - rewrite check_systems_spec.
    2: { intros id Hin%Hdom. rewrite Hregs, lookup_fmap, fmap_is_Some in Hin. done. }
    rewrite check_conflicts_spec.
    2: { apply ForallOrdPairs_omap; [rewrite Hreg; apply NoDup_elements|]. exact Hconf. }
    simpl. split_and!; [done..|]. intros id r Hr. eapply Ht; [apply Hdom; by eexists|done].
  - right; right. destruct Ht as (id & r & _ & H). by exists id, r.
Qed.
End registration.

(** ** A tick *)

Section ticks.
Context {V : Type} `{SO : StoreOps V} `{QO : !QueryOps V} `{VO : SaveOps V}.
Context `{!StoreLaws V} `{!QueryLaws V}.
Context (diff_json : Diff V -> result string string).
Context {Engine : Type} (engine_of : Store -> option Query -> Engine).
Context (reg_order bus_order : gset string -> list string).

Abbreviation scheduler := (@Scheduler V SO QO VO Engine).
Abbreviation sched_tick := (scheduler_tick diff_json engine_of reg_order bus_order).

(** What one system returns at a tick, whatever ran before it. *)
Definition exec_one (s : scheduler) (tick : Tick) (engine : Engine) (x : Phase * string)
  : SchedulerResult (list (Diff V)) :=
  match sc_systems s !! x.2 with
  | None => Err (SystemNotFound x.2)
  | Some system =>
      sys_execute system (rng_new x.2 (tick_as_u64 tick)) engine x.1 (tick_as_u64 tick)
  end.

Abbreviation journal_engine j := (engine_of (j_store j) (j_query_engine j)).

(** The diffs of a tick: those of every system, in the order they run. *)
Definition tick_diffs (s : scheduler) : SchedulerResult (list (Diff V)) :=
  map_ok (@concat _) (try_map (exec_one s (scheduler_current_tick s) (journal_engine (sc_journal s)))
                        (run_order reg_order s)).

Definition extends (j j' : Journal) (ds : list (Diff V)) : Prop :=
  j' = with_pending j (j_pending_commands j) (j_pending_diffs j ++ ds).

Lemma run_systems_open s p ids tick (j : Journal) :
  j_phase j = PhaseOpen ->
  exists ds, extends j (run_systems engine_of s p ids tick j).1 ds
    /\ match try_map (exec_one s tick (journal_engine j)) (pair p <$> ids) with
       | Ok dss => (run_systems engine_of s p ids tick j).2 = Ok tt /\ ds = concat dss
       | Err e => (run_systems engine_of s p ids tick j).2 = Err e
       end.
Proof.
  revert j. induction ids as [|id ids IH]; intros j Hj; simpl.
  - exists []. split; [|done]. unfold extends. rewrite app_nil_r. by destruct j.
  - unfold exec_one at 1. simpl. destruct (sc_systems s !! id) as [sys|]; simpl.
    2: { exists []. split; [|done]. unfold extends. rewrite app_nil_r. by destruct j. }
    destruct (sys_execute _ _ _ _ _) as [ds|e]; simpl.
    2: { exists []. split; [|done]. unfold extends. rewrite app_nil_r. by destruct j. }
    rewrite submit_diffs_open by done.
    set (j1 := with_pending j (j_pending_commands j) (j_pending_diffs j ++ ds)).
    destruct (IH j1 Hj) as (ds' & Hext & Hres).
    exists (ds ++ ds'). split; [unfold extends in *; rewrite Hext; simpl; by rewrite <- app_assoc|].
    change (journal_engine j1) with (journal_engine j) in Hres.
    destruct (try_map _ _) as [dss|e]; simpl; [|done]. destruct Hres as [-> ->]. done.
Qed.

Lemma try_map_app {E A B} (f : A -> result E B) l1 l2 :
  try_map f (l1 ++ l2)
  = let? x := try_map f l1 in let? y := try_map f l2 in Ok (x ++ y).
Proof.
  induction l1 as [|a l1 IH]; simpl; [by destruct (try_map f l2)|].
  destruct (f a); [|done]. rewrite IH. destruct (try_map f l1); [|done]. by destruct (try_map f l2).
Qed.

Lemma run_groups_open (s : scheduler) groups tick :
  j_phase (sc_journal s) = PhaseOpen ->
  exists j' ds, extends (sc_journal s) j' ds
    /\ (run_groups engine_of s groups tick).1 = with_journal s j'
    /\ match try_map (exec_one s tick (journal_engine (sc_journal s))) (flat_groups groups) with
       | Ok dss => (run_groups engine_of s groups tick).2 = Ok tt /\ ds = concat dss
       | Err e => (run_groups engine_of s groups tick).2 = Err e
       end.
Proof.
  revert s. induction groups as [|[p ids] groups IH]; intros s Hj; simpl.
  - exists (sc_journal s), []. split; [|by destruct s]. unfold extends. rewrite app_nil_r.
    by destruct (sc_journal s).
  - unfold scheduler_run_phase. destruct (run_systems_open s p ids tick (sc_journal s) Hj) as (ds1 & Hext1 & Hres1).
    change (flat_groups ((p, ids) :: groups)) with ((pair p <$> ids) ++ flat_groups groups).
    rewrite try_map_app. destruct (run_systems _ _ _ _ _ _) as [j1 r1]. simpl in *.
    destruct (try_map _ (pair p <$> ids)) as [dss1|e] eqn:E1; simpl.
    2: { subst r1. by exists j1, ds1. }
    destruct Hres1 as [-> ->].
    destruct (IH (with_journal s j1)) as (j2 & ds2 & Hext2 & Hs2 & Hres2); [by rewrite Hext1|].
    exists j2, (concat dss1 ++ ds2). simpl in *.
    split; [unfold extends in *; rewrite Hext2, Hext1; simpl; by rewrite <- app_assoc|].
    split; [done|].
    assert (Heng : try_map (exec_one (with_journal s j1) tick (journal_engine j1)) (flat_groups groups)
      = try_map (exec_one s tick (journal_engine (sc_journal s))) (flat_groups groups)) by (by rewrite Hext1).
    rewrite Heng in Hres2. destruct (try_map _ (flat_groups groups)) as [dss2|e]; simpl; [|done].
    destruct Hres2 as [-> ->]. split; [done|]. by rewrite concat_app.
Qed.

Lemma rollback_queue (q cs : list (CommandEnvelope V)) :
  foldl (fun q cmd => cmd :: q) q (rev cs) = cs ++ q.
Proof.
  revert q. induction cs as [|c cs IH] using rev_ind; intros q; [done|].
  rewrite rev_unit. simpl. rewrite IH. by rewrite <- app_assoc.
Qed.

(** Ready for a tick: initialized, the journal open at the scheduler's tick, nothing pending. *)
Definition ready (s : scheduler) : Prop :=
  sc_initialized s = true /\ j_phase (sc_journal s) = PhaseOpen
  /\ j_pending_commands (sc_journal s) = [] /\ j_pending_diffs (sc_journal s) = []
  /\ j_current_tick (sc_journal s) = scheduler_current_tick s.

Definition fresh (s : scheduler) : Prop :=
  forall c, c ∈ sc_pending_commands s -> env_tick c = scheduler_current_tick s.

(** The tick never happened: the commands are queued again and the world is as it was. *)
Definition rolled_back (s s' : scheduler) : Prop :=
  ready s' /\ sc_pending_commands s' = sc_pending_commands s
  /\ sc_current_tick s' = sc_current_tick s /\ sc_generation s' = sc_generation s
  /\ sc_systems s' = sc_systems s /\ sc_registrations s' = sc_registrations s
  /\ j_history (sc_journal s') = j_history (sc_journal s)
  /\ st_view (j_store (sc_journal s')) = st_view (j_store (sc_journal s))
  /\ qe_view <$> j_query_engine (sc_journal s') = qe_view <$> j_query_engine (sc_journal s).

(** The queued commands and the systems' diffs were committed and the counters advanced. *)
Definition ticked (s s' : scheduler) (r : CommitResult) : Prop :=
  exists ds, tick_diffs s = Ok ds
  /\ commit_succeeded diff_json (with_pending (sc_journal s) (sc_pending_commands s) ds) (sc_journal s') r
  /\ sc_pending_commands s' = []
  /\ sc_current_tick s' = wrap64 (sc_current_tick s + 1)
  /\ sc_generation s' = wrap64 (sc_generation s + 1).

(** Why a tick was refused: a system failed, or the commit of what they returned. *)
Definition tick_refused (s : scheduler) (e : SchedulerError) : Prop :=
  tick_diffs s = Err e
  \/ exists ds je, tick_diffs s = Ok ds
       /\ (journal_commit diff_json (with_pending (sc_journal s) (sc_pending_commands s) ds)).2 = Err je
       /\ e = SJournal (journal_error_display je).

Lemma clear_open (j : Journal) :
  j_phase j = PhaseOpen -> journal_clear_pending j = Ok (with_pending j [] []).
Proof. intros H. unfold journal_clear_pending. by rewrite bool_decide_false by tauto. Qed.

(** Commands consumed, then a rollback over an open journal whose world is the one before. *)
Lemma rollback_restores (s : scheduler) (j : Journal) :
  ready s -> j_phase j = PhaseOpen -> j_current_tick j = j_current_tick (sc_journal s) ->
  j_history j = j_history (sc_journal s) ->
  st_view (j_store j) = st_view (j_store (sc_journal s)) ->
  qe_view <$> j_query_engine j = qe_view <$> j_query_engine (sc_journal s) ->
  rolled_back s (scheduler_rollback_consumed_commands (with_journal (with_queue s []) j)
                   (sc_pending_commands s)).
Proof.
  intros (Hini & _ & _ & _ & Htick) Hph Ht Hh Hst Hq. unfold scheduler_rollback_consumed_commands.
  cbn [sc_journal with_journal with_queue]. rewrite clear_open by done.
  unfold rolled_back, ready. simpl. rewrite rollback_queue, app_nil_r.
  split_and!; try done. by rewrite Ht.
Qed.

(** Rolling back over the journal a failure to save the versions leaves: its phase is not open, so
    its pending lists, empty already, are not cleared again. *)
Lemma rollback_stuck (s : scheduler) ds :
  ready s ->
  scheduler_rollback_consumed_commands
    (with_journal (with_queue s []) (commit_stuck (with_pending (sc_journal s) (sc_pending_commands s) ds)))
    (sc_pending_commands s)
  = with_journal s (with_phase (sc_journal s) PhaseCommitting).
Proof.
  intros (_ & _ & Hc & Hd & _). unfold scheduler_rollback_consumed_commands.
  cbn [sc_journal with_journal with_queue sc_pending_commands]. rewrite rollback_queue, app_nil_r.
  unfold journal_clear_pending. rewrite bool_decide_true by done.
  destruct s as [? ? ? [? ? pc pd ? ? ? ?] ? ? ? ?]. simpl in *. by subst pc pd.
Qed.

(** The systems' part of a tick: all of them ran and their diffs are pending behind the commands,
    or one failed, the journal being changed in its pending lists only. *)
Lemma run_phases_ready (s : scheduler) j1 :
  ready s -> j1 = with_pending (sc_journal s) (sc_pending_commands s) [] ->
  exists ds, match scheduler_run_phases engine_of reg_order (with_journal (with_queue s []) j1)
                     (scheduler_current_tick s) with
  | (s2, r) => s2 = with_journal (with_queue s [])
                      (with_pending (sc_journal s) (sc_pending_commands s) ds)
               /\ match tick_diffs s with Ok ds' => r = Ok tt /\ ds = ds' | Err e => r = Err e end
  end.
Proof.
  intros (_ & Hph & _) ->. set (s1 := with_journal _ _).
  destruct (run_groups_open s1 (systems_by_phase reg_order s1) (scheduler_current_tick s) Hph)
    as (j2 & ds & Hext & Hs2 & Hres).
  exists ds. unfold scheduler_run_phases. unfold extends in Hext. simpl in Hext. subst j2.
  destruct (run_groups _ _ _ _) as [s2 r2]. simpl in Hs2, Hres. split; [done|].
  change (match try_map (exec_one s (scheduler_current_tick s) (journal_engine (sc_journal s)))
                  (run_order reg_order s) with
          | Ok dss => r2 = Ok tt /\ ds = concat dss
          | Err e => r2 = Err e end) in Hres.
  unfold tick_diffs. by destruct (try_map _ _).
Qed.

(** The scheduler once a commit left the journal [j]. *)
Definition stepped (s : scheduler) (j : Journal) : scheduler :=
  mkScheduler (sc_systems s) (sc_registrations s) [] j (sc_refresh_bus s)
    (wrap64 (sc_current_tick s + 1)) (wrap64 (sc_generation s + 1)) (sc_initialized s).

(** A tick of fresh commands, step by step: the systems, the commit, the broadcast. *)
Lemma tick_unfold (s : scheduler) : ready s -> fresh s ->
  exists ds, match tick_diffs s with
  | Err e => sched_tick s
      = (scheduler_rollback_consumed_commands (with_journal (with_queue s []) (with_pending (sc_journal s) (sc_pending_commands s) ds))
           (sc_pending_commands s), Err e)
  | Ok ds' => ds = ds' /\
      let j2 := with_pending (sc_journal s) (sc_pending_commands s) ds in
      match journal_commit diff_json j2 with
      | (j3, Err e) => sched_tick s
          = (scheduler_rollback_consumed_commands (with_journal (with_queue s []) j3) (sc_pending_commands s), from_journal (Err e))
      | (j3, Ok r) =>
          sched_tick s = match bus_broadcast (sc_refresh_bus s) bus_order (tick_as_u64 (cr_tick r)) (wrap64 (sc_generation s + 1)) with
                         | Ok _ => (stepped s j3, Ok r) | Err e => (stepped s j3, Err e) end
      end
  end.
Proof.
  intros Hr Hfresh. pose proof Hr as (Hini & Hph & Hpc & Hpd & Htick). unfold scheduler_tick.
  replace (negb (sc_initialized s)) with false by (by rewrite Hini). unfold scheduler_consume_pending_commands. cbn [sc_journal with_queue].
  rewrite (submit_commands_open (sc_journal s) (sc_pending_commands s) Hph) by (rewrite Htick; exact Hfresh).
  rewrite Hpc, Hpd. cbn [app]. destruct (run_phases_ready s _ Hr eq_refl) as [ds Hrun]. exists ds.
  destruct (scheduler_run_phases _ _ _ _) as [s2 r2]. destruct Hrun as [-> Hds].
  destruct (tick_diffs s) as [ds'|e]; [|by subst r2]. destruct Hds as [-> ->]. split; [done|]. cbv zeta.
  unfold scheduler_atomic_commit. cbn [sc_journal with_journal].
  destruct (journal_commit diff_json _) as [j3 [r|e]]; cbn [from_journal map_err]; [|done].
  unfold scheduler_broadcast_refresh. cbn. by destruct (bus_broadcast _ _ _ _) as [[]|].
Qed.

(** C5: What a tick of fresh commands leaves of a scheduler that is ready, on each of its exits.
    It succeeds with the commands and the diffs of the systems committed; or the commit stands and
    the error names a consumer that refused the refresh; or a system or the commit failed with the
    error reported, and the commands are back in the queue in order, the journal open and empty, and
    the systems, the ticks, the history, the versions the store shows (not its maps of row
    positions) and the state of the query engine as before. The last exit is the store failing to
    save its versions: then nothing is lost or changed but the phase of the journal, which stays
    committing. *)
Theorem scheduler_tick_atomic (s : scheduler) :
  ready s -> fresh s ->
  match sched_tick s with
  | (s', Ok r) => ticked s s' r
  | (s', Err e) =>
      (rolled_back s s' /\ tick_refused s e)
      \/ (exists r n e', ticked s s' r /\ e = RefreshSignalFailed n e')
      \/ (exists ds m, tick_diffs s = Ok ds
          /\ st_save_table_versions (j_store (sc_journal s)) (diff_table <$> ds) = Err m
          /\ e = SJournal (journal_error_display (JArrowStore ("save versions: " +:+ m)))
          /\ s' = with_journal s (with_phase (sc_journal s) PhaseCommitting))
  end.
Proof.
  intros Hr Hfresh. pose proof Hr as (Hini & Hph & _). destruct (tick_unfold s Hr Hfresh) as [ds Htick].
  destruct (tick_diffs s) as [ds'|e] eqn:Eds;
    [destruct Htick as [-> Htick]|rewrite Htick; left; split; [by apply rollback_restores|by left]].
  cbv zeta in Htick. set (j2 := with_pending _ _ ds') in Htick. pose proof (journal_commit_spec diff_json j2 Hph) as Hc.
  destruct (journal_commit diff_json j2) as [j3 [r|e]] eqn:Ec.
  - assert (Ht : ticked s (stepped s j3) r) by (exists ds'; by split_and!).
    destruct (bus_broadcast _ _ _ _) as [u|e] eqn:Eb; rewrite Htick; [done|]. right; left.
    apply broadcast_refused in Eb as (n & e' & ->). by exists r, n, e'.
  - rewrite Htick. cbn [from_journal map_err]. destruct Hc as [(m & Hm & -> & ->)|Hc].
    { right; right. exists ds', m. split_and!; [done..|]. by apply rollback_stuck. }
    left. split; [|right; exists ds', e; split_and!; [done| |done]; fold j2; by rewrite Ec].
    pose proof (failed_query_view _ _ _ Hc) as Hq.
    destruct Hc as ((saved & s' & Hsave & Hafter & Hst) & Ht & Hp & Hcs & Hd & Hh & _).
    apply (rollback_restores s j3 Hr); try done.
    rewrite Hst. by apply (st_restore_saved (j_store (sc_journal s)) s' (j_current_tick j2) ds').
Qed.

(** A queued command of another tick makes the tick fail after the queue was drained: the command
    and all behind it are in no queue any more, and those before it stay pending in the journal. *)
Theorem scheduler_tick_drops_commands (s : scheduler) pre c post :
  ready s -> sc_pending_commands s = pre ++ c :: post ->
  (forall d, d ∈ pre -> env_tick d = scheduler_current_tick s) ->
  env_tick c <> scheduler_current_tick s ->
  let s' := (sched_tick s).1 in
  (exists m, (sched_tick s).2 = Err (SJournal m))
  /\ sc_pending_commands s' = []
  /\ j_pending_commands (sc_journal s') = pre
  /\ sc_current_tick s' = sc_current_tick s.
Proof.
  intros (Hini & Hph & Hpc & Hpd & Htick) Hq Hpre Hc. unfold scheduler_tick. rewrite Hini. simpl negb.
  cbv iota. unfold scheduler_consume_pending_commands. rewrite Hq. cbn [sc_journal with_queue].
  rewrite <- Htick in Hpre, Hc.
  rewrite (submit_commands_stale (sc_journal s) pre c post Hph Hpre Hc). simpl. rewrite Hpc.
  split; [by eexists|done].
Qed.
(** *** Ticks that succeed *)

Lemma fresh_or_stale (cs : list (CommandEnvelope V)) (t : Tick) :
  (forall c, c ∈ cs -> env_tick c = t)
  \/ exists pre c post, cs = pre ++ c :: post /\ (forall d, d ∈ pre -> env_tick d = t) /\ env_tick c <> t.
Proof.
  induction cs as [|c cs IH]; [left; by intros c ?%elem_of_nil|].
  destruct (decide (env_tick c = t)) as [Hc|Hc].
  - destruct IH as [IH|(pre & c' & post & -> & Hpre & Hc')].
    + left. intros d [->|Hd]%elem_of_cons; [done|by apply IH].
    + right. exists (c :: pre), c', post. split; [done|]. split; [|done]. intros d [->|Hd]%elem_of_cons; [done|by apply Hpre].
  - right. exists [], c, cs. split; [done|]. split; [by intros d ?%elem_of_nil|done].
Qed.

(** A tick that succeeds had fresh commands, and committed them with what the systems said. *)
Lemma tick_ok_fresh (s s' : scheduler) r : ready s -> sched_tick s = (s', Ok r) -> fresh s.
Proof.
  intros (Hini & Hph & Hpc & Hpd & Htick). unfold scheduler_tick. rewrite Hini. simpl negb. cbv iota.
  unfold scheduler_consume_pending_commands. cbn [sc_journal with_queue].
  destruct (fresh_or_stale (sc_pending_commands s) (j_current_tick (sc_journal s))) as [Hfresh|(pre & c & post & Hq & Hpre & Hc)].
  - intros _ d Hd. rewrite <- Htick. by apply Hfresh.
  - by rewrite Hq, (submit_commands_stale (sc_journal s) pre c post Hph Hpre Hc).
Qed.

Lemma tick_ok_parts (s s' : scheduler) r : ready s -> sched_tick s = (s', Ok r) ->
  exists ds j3, tick_diffs s = Ok ds
  /\ journal_commit diff_json (with_pending (sc_journal s) (sc_pending_commands s) ds) = (j3, Ok r)
  /\ s' = stepped s j3
  /\ exists u, bus_broadcast (sc_refresh_bus s) bus_order (tick_as_u64 (cr_tick r)) (wrap64 (sc_generation s + 1)) = Ok u.
Proof.
  intros Hr E. destruct (tick_unfold s Hr (tick_ok_fresh s s' r Hr E)) as [ds H]. rewrite E in H.
  destruct (tick_diffs s) as [ds'|e]; [|done]. destruct H as [-> H]. cbv zeta in H. exists ds'.
  destruct (journal_commit diff_json _) as [j3 [r3|e]]; [|done]. exists j3.
  destruct (bus_broadcast _ _ _ _) as [u|e] eqn:Eb; [|done]. injection H as -> ->. split_and!; [done..|]. by exists u.
Qed.

Lemma tick_succeeds (s s' : scheduler) r : ready s -> sched_tick s = (s', Ok r) ->
  fresh s /\ ticked s s' r /\ sc_initialized s' = true.
Proof.
  intros Hr E. split; [by eapply tick_ok_fresh|]. destruct (tick_ok_parts s s' r Hr E) as (ds & j3 & Hds & Hc & -> & _).
  apply commit_ok in Hc as [_ Hc]. split; [by exists ds|]. by destruct Hr.
Qed.

(** After it the scheduler is ready for the next. *)
Lemma ticked_ready (s s' : scheduler) r : ready s -> ticked s s' r -> sc_initialized s' = true ->
  0 <= sc_current_tick s < u64_max - 1 ->
  ready s' /\ sc_current_tick s' = sc_current_tick s + 1.
Proof.
  intros (_ & _ & _ & _ & Htick) (ds & _ & (_ & _ & Ht & Hph & Hc & Hd & _) & _ & Hct & _) Hini Hb.
  assert (Hw : sc_current_tick s' = sc_current_tick s + 1) by (rewrite Hct; apply wrap64_small; unfold_width; lia).
  split; [|done]. split_and!; try done. rewrite Ht. cbn [j_current_tick with_pending]. rewrite Htick.
  unfold scheduler_current_tick. rewrite Hw. pose proof (tick_next_spec (mkTick (sc_current_tick s))) as Hn.
  destruct (tick_next (mkTick (sc_current_tick s))) as [n]. simpl in Hn. f_equal. unfold_width. lia.
Qed.
End ticks.

(** ** Hash-map order does not reach the world *)

Section determinism.
Context {V : Type} `{SO : StoreOps V} `{QO : !QueryOps V} `{VO : SaveOps V}.
Context {Engine : Type} (engine_of : Store -> option Query -> Engine).

Abbreviation scheduler := (@Scheduler V SO QO VO Engine).

Lemma sorted_by_phase_unique (l1 l2 : list (Phase * string)) :
  StronglySorted by_index l1 -> StronglySorted by_index l2 -> l1 ≡ₚ l2 ->
  (forall x y, x ∈ l1 -> y ∈ l1 -> x.1 = y.1 -> x = y) ->
  l1 = l2.
Proof.
  intros H1. revert l2. induction H1 as [|x l1 Hs1 IH Hx]; intros l2 H2 Hp Hu.
  - by apply Permutation_nil_l in Hp as ->.
  - destruct H2 as [|y l2 Hs2 Hy]; [by apply Permutation_nil_r in Hp|].
    assert (x = y) as ->.
    { rewrite Forall_forall in Hx, Hy.
      assert (Hyx : y = x \/ y ∈ l1) by (apply elem_of_cons; rewrite Hp; left).
      assert (Hxy : x = y \/ x ∈ l2) by (apply elem_of_cons; rewrite <- Hp; left).
      destruct Hyx as [->|Hyx]; [done|]. destruct Hxy as [->|Hxy]; [done|].
      apply Hu; [left|by right|]. apply phase_index_inj.
      specialize (Hx y Hyx). specialize (Hy x Hxy). simpl in *. lia. }
    f_equal. apply IH; [done|by apply Permutation_cons_inv in Hp|].
    intros a b Ha Hb. apply Hu; by right.
Qed.

Lemma StronglySorted_filter {A} (R : A -> A -> Prop) (f : A -> bool) l :
  StronglySorted R l -> StronglySorted R (List.filter f l).
Proof.
  induction 1 as [|x l Hs IH Hx]; simpl; [constructor|]. destruct (f x); [|done].
  constructor; [done|]. apply Forall_forall. intros y [Hy _]%list_elem_of_Filter.
  rewrite Forall_forall in Hx. auto.
Qed.

Lemma Permutation_Filter {A} (f : A -> bool) (l1 l2 : list A) :
  l1 ≡ₚ l2 -> List.filter f l1 ≡ₚ List.filter f l2.
Proof.
  induction 1 as [|x l1 l2 _ IH|x y l|l1 l2 l3 _ IH1 _ IH2]; simpl.
  - done.
  - destruct (f x); [by apply perm_skip|done].
  - destruct (f x), (f y); try done. apply perm_swap.
  - by etrans.
Qed.

Lemma filter_bind {A B} (g : B -> bool) (w : A -> bool) (f : A -> list B) l :
  (forall x, x ∈ l -> w x = false -> List.filter g (f x) = []) ->
  List.filter g (l ≫= f) = List.filter w l ≫= (fun x => List.filter g (f x)).
Proof.
  induction l as [|x l IH]; intros H; csimpl; [done|].
  rewrite List.filter_app, IH by (intros; apply H; [by right|done]).
  destruct (w x) eqn:E; csimpl; [done|]. by rewrite H by (done || left).
Qed.

Definition ok_list {E A} (r : result E (list A)) : list A := match r with Ok l => l | Err _ => [] end.

Lemma try_map_all_ok {E A B} (f : A -> result E (list B)) l :
  (exists dss, try_map f l = Ok dss) <-> forall x, x ∈ l -> is_ok (f x) = true.
Proof.
  induction l as [|a l IH]; simpl; [split; [set_solver|by exists []]|]. split.
  - intros [dss H]. destruct (f a) as [b|] eqn:Ea; [|done]. destruct (try_map f l) as [bs|]; [|done].
    intros x [->|Hx]%elem_of_cons; [by rewrite Ea|]. by apply IH; [exists bs|].
  - intros H. assert (Ha : is_ok (f a) = true) by (apply H; left). destruct (f a) as [b|]; [|done].
    destruct IH as [_ [dss ->]]; [intros; apply H; by right|]. by exists (b :: dss).
Qed.

Lemma try_map_concat {E A B} (f : A -> result E (list B)) l dss :
  try_map f l = Ok dss -> concat dss = l ≫= (fun x => ok_list (f x)).
Proof.
  revert dss. induction l as [|a l IH]; intros dss H; simpl in H; [by simplify_eq|].
  destruct (f a) as [b|] eqn:Ea; [|done]. destruct (try_map f l) as [bs|]; [|done]. simplify_eq. csimpl.
  rewrite (IH bs eq_refl). by rewrite Ea.
Qed.

(** Every diff a system returns is for a table it declared. *)
Definition conforming (s : scheduler) : Prop :=
  forall id sys, sc_systems s !! id = Some sys ->
  forall rng engine p tick ds, sys_execute sys rng engine p tick = Ok ds ->
  forall d, d ∈ ds -> diff_table d ∈ sys_write_tables sys.

Definition table_diffs (t : string) (ds : list (Diff V)) : list (Diff V) :=
  List.filter (fun d => bool_decide (diff_table d = t)) ds.

Definition writes_table (s : scheduler) (t : string) (x : Phase * string) : bool :=
  match sc_systems s !! x.2 with
  | Some sys => bool_decide (t ∈ sys_write_tables sys)
  | None => false
  end.

Lemma writers_unique (s : scheduler) o t x y :
  systems_inv s -> (forall X, o X ≡ₚ elements X) ->
  x ∈ List.filter (writes_table s t) (run_order o s) ->
  y ∈ List.filter (writes_table s t) (run_order o s) -> x.1 = y.1 -> x = y.
Proof.
  destruct x as [p a], y as [q b]. simpl. intros (Hid & Hregs & Hconf) Ho Hx Hy ->.
  apply list_elem_of_Filter in Hx as [Hx Hwx], Hy as [Hy Hwy].
  apply elem_of_run_order in Hx as (ra & Hra & Hpa), Hy as (rb & Hrb & Hpb); [|done..].
  f_equal. destruct (decide (a = b)) as [|Hne]; [done|exfalso].
  specialize (Hconf a b ra rb Hne Hra Hrb). apply not_true_iff_false in Hconf. apply Hconf.
  apply conflict_spec. split; [congruence|].
  rewrite Hregs, lookup_fmap in Hra, Hrb. unfold writes_table in *. simpl in *.
  apply fmap_Some in Hra as (sa & Hsa & ->), Hrb as (sb & Hsb & ->).
  rewrite Hsa in Hwx. rewrite Hsb in Hwy. apply bool_decide_eq_true in Hwx, Hwy.
  unfold reg_conflicting_tables. simpl. set_solver.
Qed.

Lemma exec_conforms (s : scheduler) tick engine t x :
  conforming s -> writes_table s t x = false ->
  table_diffs t (ok_list (exec_one s tick engine x)) = [].
Proof.
  intros Hconf Hw. unfold exec_one, writes_table in *.
  destruct (sc_systems s !! x.2) as [sys|] eqn:Hs; [|done].
  destruct (sys_execute _ _ _ _ _) as [ds|] eqn:He; [|done]. simpl.
  assert (Hds : forall d, d ∈ ds -> diff_table d <> t).
  { intros d Hd <-. apply bool_decide_eq_false in Hw. apply Hw. by eapply Hconf. }
  clear - Hds. induction ds as [|d ds IH]; [done|]. simpl.
  rewrite bool_decide_false by (apply Hds; left). apply IH. intros d' Hd'. apply Hds. by right.
Qed.

(** Whatever order the hash maps yield the systems in, a tick gives each table the same diffs in
    the same order (and so the same commit hash): systems that write only what they declare are
    independent within a phase. *)
Theorem tick_diffs_deterministic (s : scheduler) (o1 o2 : gset string -> list string) ds1 :
  systems_inv s -> conforming s ->
  (forall X, o1 X ≡ₚ elements X) -> (forall X, o2 X ≡ₚ elements X) ->
  tick_diffs engine_of o1 s = Ok ds1 ->
  exists ds2, tick_diffs engine_of o2 s = Ok ds2 /\ ds1 ≡ₚ ds2
    /\ forall t, table_diffs t ds1 = table_diffs t ds2.
Proof.
  intros Hinv Hconf Ho1 Ho2 H. unfold tick_diffs in *.
  set (f := exec_one s (scheduler_current_tick s) _) in *.
  pose proof (run_order_hash o1 o2 s Ho1 Ho2) as Hp.
  destruct (try_map f (run_order o1 s)) as [dss1|] eqn:E1; [|done]. simpl in H. simplify_eq.
  destruct (proj2 (try_map_all_ok f (run_order o2 s))) as [dss2 E2].
  { intros x. rewrite <- Hp. apply (try_map_all_ok f). by exists dss1. }
  rewrite E2. simpl. exists (concat dss2). split; [done|].
  rewrite (try_map_concat f _ _ E1), (try_map_concat f _ _ E2). split; [by rewrite Hp|].
  intros t. unfold table_diffs. rewrite !(filter_bind _ (writes_table s t)).
  - f_equal. apply sorted_by_phase_unique.
    + apply StronglySorted_filter, run_order_sorted.
    + apply StronglySorted_filter, run_order_sorted.
    + by apply Permutation_Filter.
    + intros x y. by apply writers_unique.
  - intros x _. by apply exec_conforms.
  - intros x _. by apply exec_conforms.
Qed.
End determinism.

(** ** Any sequence of calls *)

Section runs.
Context {V : Type} `{SO : StoreOps V} `{QO : !QueryOps V} `{VO : SaveOps V}.
Context (diff_json : Diff V -> result string string).
Context {Engine : Type} (engine_of : Store -> option Query -> Engine)
  (engine_is_schema_frozen : Engine -> result string bool)
  (reg_order table_order bus_order : gset string -> list string).
Context (Hreg : forall X, reg_order X ≡ₚ elements X).

Abbreviation scheduler := (@Scheduler V SO QO VO Engine).
Abbreviation sched_tick := (scheduler_tick diff_json engine_of reg_order bus_order).

(** Every public call that changes the scheduler. [journal_mut] hands out the journal: any call on it
    ([SJournal]), and on its save journal any change ([SSaveJournal]). *)
Inductive SchedulerOp :=
| SRegister (sys : SimSystem Engine V)
| SUnregister (id : string)
| SEnqueue (e : CommandEnvelope V)
| SInitialize
| STick
| SRegisterConsumer (name : string) (cb : RefreshCallback)
| SUnregisterConsumer (h : RefreshSignalHandle)
| SConsumeCommands
| SRunPhases (tick : Tick)
| SRunPhase (phase : Phase) (ids : list string) (tick : Tick)
| SAtomicCommit
| SAdvanceTick
| SJournalCall (op : JournalOp (V := V))
| SSaveJournal (f : Save -> Save).

Definition scheduler_step (s : scheduler) (op : SchedulerOp) : scheduler :=
  let keep r := match r with Ok s' => s' | Err _ => s end in
  match op with
  | SRegister sys => keep (scheduler_register_system reg_order table_order s sys)
  | SUnregister id => scheduler_unregister_system s id
  | SEnqueue e => scheduler_enqueue_command s e
  | SInitialize =>
      keep (scheduler_initialize engine_of engine_is_schema_frozen reg_order table_order s)
  | STick => (sched_tick s).1
  | SRegisterConsumer name cb => (scheduler_register_consumer s name cb).1
  | SUnregisterConsumer h => keep (scheduler_unregister_consumer s h)
  | SConsumeCommands => (scheduler_consume_pending_commands s).1
  | SRunPhases tick => (scheduler_run_phases engine_of reg_order s tick).1
  | SRunPhase phase ids tick => (scheduler_run_phase engine_of s phase ids tick).1
  | SAtomicCommit => (scheduler_atomic_commit diff_json s).1
  | SAdvanceTick => (scheduler_advance_tick s).1
  | SJournalCall op => with_journal s (journal_step diff_json (sc_journal s) op).1
  | SSaveJournal f => with_journal s (with_save (sc_journal s) (f <$> j_save_journal (sc_journal s)))
  end.

Definition scheduler_run (s : scheduler) (ops : list SchedulerOp) : scheduler :=
  foldl scheduler_step s ops.

Lemma submit_commands_tick (j : Journal) cs :
  j_current_tick (try_each journal_submit_command j cs).1 = j_current_tick j.
Proof.
  apply (try_each_inv (fun k => j_current_tick k = j_current_tick j)); [|done].
  intros k c k' <- _ H. unfold journal_submit_command in H. repeat case_bool_decide; by simplify_eq.
Qed.

Lemma submit_diffs_tick (j : Journal) ds :
  j_current_tick (try_each journal_submit_diff j ds).1 = j_current_tick j.
Proof.
  apply (try_each_inv (fun k => j_current_tick k = j_current_tick j)); [|done].
  intros k d k' <- _ H. unfold journal_submit_diff in H. repeat case_bool_decide; by simplify_eq.
Qed.

Lemma run_systems_tick s p ids tick (j : Journal) :
  j_current_tick (run_systems engine_of s p ids tick j).1 = j_current_tick j.
Proof.
  revert j. induction ids as [|id ids IH]; intros j; simpl; [done|].
  destruct (sc_systems s !! id); [|done]. destruct (sys_execute _ _ _ _ _) as [ds|]; [|done].
  pose proof (submit_diffs_tick j ds) as H. destruct (try_each _ _ _) as [j' []]; [|done].
  simpl in H. by rewrite IH.
Qed.

(** What the calls that run or commit a tick cannot touch: the registered systems. *)
Definition same_setup (s s' : scheduler) : Prop :=
  sc_systems s' = sc_systems s /\ sc_registrations s' = sc_registrations s.

(** The counters are those of [s] but for [g] commits with their generation, [a] advances of the
    tick, and [c] commits of the journal. *)
Definition counted (s s' : scheduler) (g a c : Z) : Prop :=
  sc_generation s' = wrap64 (sc_generation s + g) /\ sc_current_tick s' = wrap64 (sc_current_tick s + a)
  /\ j_current_tick (sc_journal s') = mkTick (Z.min (tick_as_u64 (j_current_tick (sc_journal s)) + c) (u64_max - 1)).

Definition in_range (s : scheduler) : Prop :=
  0 <= sc_generation s < two64 /\ 0 <= sc_current_tick s < two64
  /\ 0 <= tick_as_u64 (j_current_tick (sc_journal s)) <= u64_max - 1.

Lemma counted_same (s s' : scheduler) : in_range s ->
  sc_generation s' = sc_generation s -> sc_current_tick s' = sc_current_tick s ->
  j_current_tick (sc_journal s') = j_current_tick (sc_journal s) -> counted s s' 0 0 0.
Proof.
  intros (Hg & Ht & Hj) Eg Et Ej. unfold counted. rewrite Eg, Et, Ej, !Z.add_0_r, !wrap64_small by done.
  split_and!; try done. destruct (j_current_tick (sc_journal s)) as [t]. simpl in *. f_equal. lia.
Qed.

Lemma counted_range (s s' : scheduler) g a c : in_range s -> 0 <= c -> counted s s' g a c -> in_range s'.
Proof.
  intros (_ & _ & Hj) Hc (Eg & Et & Ej). unfold in_range. rewrite Eg, Et, Ej. simpl.
  split; [apply wrap64_range|]. split; [apply wrap64_range|]. unfold_width. lia.
Qed.

Lemma tick_next_min (t : Tick) : tick_as_u64 t <= u64_max - 1 ->
  tick_next t = mkTick (Z.min (tick_as_u64 t + 1) (u64_max - 1)).
Proof.
  intros H. pose proof (tick_next_spec t) as Hn. destruct (tick_next t) as [n], t as [t]. simpl in *. f_equal. lia.
Qed.

Lemma run_groups_frame (s : scheduler) groups tick :
  let s' := (run_groups engine_of s groups tick).1 in
  same_setup s s' /\ sc_current_tick s' = sc_current_tick s /\ sc_generation s' = sc_generation s
  /\ j_current_tick (sc_journal s') = j_current_tick (sc_journal s).
Proof.
  revert s. induction groups as [|[p ids] groups IH]; intros s; simpl; [done|].
  unfold scheduler_run_phase. pose proof (run_systems_tick s p ids tick (sc_journal s)) as H.
  destruct (run_systems _ _ _ _ _ _) as [j []]; simpl in *; [|done].
  destruct (IH (with_journal s j)) as ([H1 H2] & H3 & H4 & H5). simpl in *.
  split; [by split|]. split_and!; [done..|congruence].
Qed.

Lemma rollback_frame (s : scheduler) cs :
  let s' := scheduler_rollback_consumed_commands s cs in
  same_setup s s' /\ sc_current_tick s' = sc_current_tick s /\ sc_generation s' = sc_generation s
  /\ j_current_tick (sc_journal s') = j_current_tick (sc_journal s).
Proof.
  simpl. split; [done|]. split_and!; [done..|]. unfold journal_clear_pending. by case_bool_decide.
Qed.

Lemma commit_tick (j : Journal) :
  match journal_commit diff_json j with
  | (j', Ok _) => j_current_tick j' = tick_next (j_current_tick j)
  | (j', Err _) => j_current_tick j' = j_current_tick j
  end.
Proof.
  destruct (decide (j_phase j = PhaseOpen)) as [Hph|Hph]; [|by rewrite journal_commit_closed].
  pose proof (journal_commit_spec diff_json j Hph) as H.
  destruct (journal_commit diff_json j) as [j' [r|e]]; [by apply H|].
  destruct H as [(m & _ & _ & ->)|(_ & H & _)]; done.
Qed.

Lemma consume_frame (s : scheduler) :
  let s' := (scheduler_consume_pending_commands s).1 in
  same_setup s s' /\ sc_current_tick s' = sc_current_tick s /\ sc_generation s' = sc_generation s
  /\ j_current_tick (sc_journal s') = j_current_tick (sc_journal s).
Proof.
  unfold scheduler_consume_pending_commands. cbn [sc_journal with_queue].
  pose proof (submit_commands_tick (sc_journal s) (sc_pending_commands s)) as Ht.
  by destruct (try_each _ _ _) as [j1 [u|e]].
Qed.

Lemma atomic_commit_counted (s : scheduler) : in_range s ->
  let s' := (scheduler_atomic_commit diff_json s).1 in
  let n := Z.b2z (is_ok (scheduler_atomic_commit diff_json s).2) in
  same_setup s s' /\ counted s s' n 0 n.
Proof.
  intros Hr. unfold scheduler_atomic_commit. pose proof (commit_tick (sc_journal s)) as Hc.
  destruct (journal_commit diff_json (sc_journal s)) as [j' [r|e]]; simpl.
  - split; [done|]. destruct Hr as (Hg & Ht & Hj). unfold counted. simpl.
    rewrite Z.add_0_r, (wrap64_small (sc_current_tick s)) by done. split_and!; [done..|]. rewrite Hc. apply tick_next_min, Hj.
  - split; [done|]. by apply counted_same.
Qed.

Lemma tick_counted (s : scheduler) : in_range s ->
  let s' := (sched_tick s).1 in
  same_setup s s' /\ exists n, (n = 0 \/ n = 1) /\ counted s s' n n n.
Proof.
  intros Hr. unfold scheduler_tick.
  destruct (negb _); [split; [done|exists 0; split; [by left|by apply counted_same]]|].
  destruct (consume_frame s) as ([Hs1 Hr1] & Ht1 & Hg1 & Hj1).
  destruct (scheduler_consume_pending_commands s) as [s1 [cs|e]]; cbn [fst] in *.
  2: { split; [by split|]. exists 0. split; [by left|by apply counted_same]. }
  pose proof (run_groups_frame s1 (systems_by_phase reg_order s1) (scheduler_current_tick s))
    as ([Hs2 Hr2] & Ht2 & Hg2 & Hj2).
  unfold scheduler_run_phases. destruct (run_groups _ _ _ _) as [s2 [u2|e]]; cbn [fst] in *.
  2: { pose proof (rollback_frame s2 cs) as ([Hs3 Hr3] & Ht3 & Hg3 & Hj3).
       split; [split; congruence|]. exists 0. split; [by left|]. apply counted_same; [done|congruence..]. }
  assert (Hsame : counted s s2 0 0 0) by (apply counted_same; [done|congruence..]).
  assert (Hr' : in_range s2) by (by apply (counted_range s s2 0 0 0)).
  destruct (atomic_commit_counted s2 Hr') as ([Hs3 Hr3] & Hg3 & Ht3 & Hj3).
  destruct (scheduler_atomic_commit diff_json s2) as [s3 [r|e]]; cbn [fst snd is_ok Z.b2z] in *.
  - assert (H : forall x, (let s := x in match scheduler_broadcast_refresh bus_order s (cr_tick r) (sc_generation s) with
      | Ok _ => (s, Ok r) | Err e => (s, Err e) end : scheduler * SchedulerResult CommitResult).1 = x).
    { intros x. simpl. by destruct (scheduler_broadcast_refresh _ _ _ _). }
    rewrite H. split; [split; simpl; congruence|]. exists 1. split; [by right|].
    destruct Hr' as (_ & Hb & _). unfold counted. simpl. rewrite Ht3, Hg3, Hj3, Hg2, Hg1, Hj2, Hj1, Z.add_0_r, (wrap64_small (sc_current_tick s2)) by done.
    by rewrite Ht2, Ht1.
  - pose proof (rollback_frame s3 cs) as ([Hs4 Hr4] & Ht4 & Hg4 & Hj4).
    split; [split; congruence|]. exists 0. split; [by left|]. unfold counted in *.
    rewrite Ht4, Hg4, Hj4, Hg3, Ht3, Hj3, Hg2, Ht2, Hj2, Hg1, Ht1, Hj1. done.
Qed.

(** *** The calls that move one counter alone *)

Definition advances (s : scheduler) (op : SchedulerOp) : bool :=
  match op with SAdvanceTick => true | _ => false end.
Definition commits_alone (s : scheduler) (op : SchedulerOp) : bool :=
  match op with SAtomicCommit => is_ok (scheduler_atomic_commit diff_json s).2 | _ => false end.
Definition commits_journal (s : scheduler) (op : SchedulerOp) : bool :=
  match op with SJournalCall OpCommit => is_ok (journal_commit diff_json (sc_journal s)).2 | _ => false end.

Fixpoint run_count (p : scheduler -> SchedulerOp -> bool) (s : scheduler) (ops : list SchedulerOp) : Z :=
  match ops with
  | [] => 0
  | op :: ops' => Z.b2z (p s op) + run_count p (scheduler_step s op) ops'
  end.

Lemma run_count_snoc p s ops op :
  run_count p s (ops ++ [op]) = run_count p s ops + Z.b2z (p (scheduler_run s ops) op).
Proof.
  revert s. induction ops as [|o ops IH]; intros s; cbn [app run_count]; [cbn; lia|]. rewrite IH.
  change (scheduler_run s (o :: ops)) with (scheduler_run (scheduler_step s o) ops). lia.
Qed.

Lemma run_count_range p s ops : 0 <= run_count p s ops <= Z.of_nat (length ops).
Proof.
  revert s. induction ops as [|op ops IH]; intros s; cbn [run_count length]; [lia|].
  specialize (IH (scheduler_step s op)). destruct (p s op); cbn [Z.b2z]; lia.
Qed.

Lemma journal_call_tick (j : Journal) op :
  j_current_tick (journal_step diff_json j op).1
  = match op with
    | OpCommit => if is_ok (journal_commit diff_json j).2 then tick_next (j_current_tick j) else j_current_tick j
    | _ => j_current_tick j
    end.
Proof.
  destruct op as [e|es|d|b| |]; simpl.
  - pose proof (submit_commands_tick j [e]) as H. simpl in H. by destruct (journal_submit_command j e).
  - apply submit_commands_tick.
  - pose proof (submit_diffs_tick j [d]) as H. simpl in H. by destruct (journal_submit_diff j d).
  - apply submit_diffs_tick.
  - pose proof (commit_tick j) as H. by destruct (journal_commit diff_json j) as [j' [r|e]].
  - unfold journal_clear_pending. by case_bool_decide.
Qed.

(** Each call keeps the invariant of the systems and moves the counters by what it is. *)
Lemma step_counted (s : scheduler) op : systems_inv s -> in_range s ->
  systems_inv (scheduler_step s op)
  /\ exists n, (n = 0 \/ n = 1 /\ commits_alone s op = false /\ advances s op = false /\ commits_journal s op = false)
     /\ counted s (scheduler_step s op) (n + Z.b2z (commits_alone s op)) (n + Z.b2z (advances s op))
          (n + Z.b2z (commits_alone s op) + Z.b2z (commits_journal s op)).
Proof.
  intros Hinv Hr.
  assert (Hkeep : forall s' : scheduler, same_setup s s' -> sc_generation s' = sc_generation s ->
    sc_current_tick s' = sc_current_tick s -> j_current_tick (sc_journal s') = j_current_tick (sc_journal s) ->
    systems_inv s' /\ counted s s' 0 0 0).
  { intros s' [Es Er] Eg Et Ej. split; [by unfold systems_inv; rewrite Es, Er|by apply counted_same]. }
  assert (Hzero : forall s' : scheduler, systems_inv s' /\ counted s s' 0 0 0 ->
    systems_inv s' /\ exists n, (n = 0 \/ n = 1 /\ false = false /\ false = false /\ false = false) /\ counted s s' (n + 0) (n + 0) (n + 0 + 0)).
  { intros s' [H1 H2]. split; [done|]. exists 0. by split; [left|]. }
  destruct op as [sys|id|e| | |name cb|h| |tick|p ids tick| | |op|f]; cbn [scheduler_step commits_alone advances commits_journal Z.b2z].
  - apply Hzero. destruct (scheduler_register_system _ _ _ _) as [s'|e] eqn:E; [|by apply Hkeep].
    split; [by eapply register_system_inv|].
    unfold scheduler_register_system in E. destruct (sc_initialized s); [done|].
    case_bool_decide; [done|]. destruct (List.filter _ _); [|done]. simpl in E.
    apply counted_same; [done|..]; destruct (sys_refresh_callback sys); by simplify_eq.
  - apply Hzero. split; [by apply unregister_system_inv|].
    apply counted_same; [done|..]; unfold scheduler_unregister_system; by destruct (bus_unregister_by_name _ _).
  - by apply Hzero, Hkeep.
  - apply Hzero. unfold scheduler_initialize. destruct (sc_initialized s); [by apply Hkeep|].
    destruct (engine_is_schema_frozen _) as [[]|]; cbn [map_err negb]; [|by apply Hkeep..].
    destruct (check_tables _ _); [|by apply Hkeep]. destruct (check_systems _ _); [|by apply Hkeep].
    destruct (check_conflicts _ _); by apply Hkeep.
  - destruct (tick_counted s Hr) as ([Es Er] & n & Hn & Hc). split; [by unfold systems_inv; rewrite Es, Er|].
    exists n. rewrite !Z.add_0_r. split; [|done]. destruct Hn as [->| ->]; [by left|by right].
  - by apply Hzero, Hkeep.
  - apply Hzero. unfold scheduler_unregister_consumer. by destruct (bus_unregister _ _); apply Hkeep.
  - destruct (consume_frame s) as (H1 & H2 & H3 & H4). by apply Hzero, Hkeep.
  - destruct (run_groups_frame s (systems_by_phase reg_order s) tick) as (H1 & H2 & H3 & H4). by apply Hzero, Hkeep.
  - apply Hzero. unfold scheduler_run_phase. pose proof (run_systems_tick s p ids tick (sc_journal s)) as H.
    destruct (run_systems _ _ _ _ _ _) as [j r]. by apply Hkeep.
  - destruct (atomic_commit_counted s Hr) as ([Es Er] & Hc). split; [by unfold systems_inv; rewrite Es, Er|].
    exists 0. split; [by left|]. by rewrite !Z.add_0_l, Z.add_0_r.
  - split; [done|]. exists 0. split; [by left|]. destruct Hr as (Hg & Ht & Hj). unfold counted. simpl.
    rewrite !Z.add_0_r, wrap64_small by done. split_and!; [done..|].
    destruct (j_current_tick (sc_journal s)) as [t]. simpl in *. f_equal. lia.
  - split; [done|]. exists 0. split; [by left|]. pose proof (journal_call_tick (sc_journal s) op) as H.
    destruct op as [e|es|d|b| |]; try (by apply (counted_same s)). destruct Hr as (Hg & Ht & Hj). unfold counted.
    cbn [sc_generation sc_current_tick sc_journal with_journal]. rewrite H, !Z.add_0_r, !wrap64_small by done.
    split_and!; [done..|]. destruct (is_ok _); cbn [Z.b2z]; [apply tick_next_min, Hj|].
    destruct (j_current_tick (sc_journal s)) as [t]. simpl in *. f_equal. lia.
  - by apply Hzero, Hkeep.
Qed.

(** The counters after a run: the ticks that committed, and what the other calls added. *)
Lemma scheduler_run_counts (store : Store) (ops : list SchedulerOp) :
  let s0 := scheduler_new (journal_new store) in
  let s := scheduler_run s0 ops in
  let a := run_count advances s0 ops in
  let b := run_count commits_alone s0 ops in
  let c := run_count commits_journal s0 ops in
  Z.of_nat (length ops) < u64_max - 1 ->
  systems_inv s
  /\ exists n, 0 <= n /\ n + a + b + c <= Z.of_nat (length ops)
     /\ sc_generation s = n + b /\ sc_current_tick s = n + a
     /\ tick_as_u64 (j_current_tick (sc_journal s)) = n + b + c.
Proof.
  cbv zeta. set (s0 := scheduler_new (journal_new store)).
  induction ops as [|op ops IH] using rev_ind; intros Hlen.
  { simpl. split; [split; [|split]; simpl; [done|by rewrite fmap_empty|done]|]. by exists 0. }
  rewrite length_app in *. cbn [length] in *. destruct IH as (Hinv & n & Hn & Hle & Eg & Et & Ej); [lia|].
  rewrite !run_count_snoc. unfold scheduler_run in *. rewrite foldl_app. cbn [foldl].
  pose proof (run_count_range advances s0 ops). pose proof (run_count_range commits_alone s0 ops).
  pose proof (run_count_range commits_journal s0 ops).
  set (s := foldl scheduler_step s0 ops) in *.
  assert (Hr : in_range s) by (unfold in_range; rewrite Eg, Et, Ej; unfold_width; lia).
  destruct (step_counted s op Hinv Hr) as (Hinv' & m & Hm & Eg' & Et' & Ej'). split; [done|].
  exists (n + m). rewrite Ej'. cbn [tick_as_u64]. rewrite Eg', Et', Eg, Et, Ej.
  assert (Hone : 0 <= m /\ m + Z.b2z (commits_alone s op) + Z.b2z (advances s op) + Z.b2z (commits_journal s op) <= 1).
  { destruct Hm as [->|(-> & -> & -> & ->)]; [|done].
    destruct op as [| | | | | | | | | | | |[]|]; cbn [commits_alone advances commits_journal Z.b2z];
      try destruct (is_ok _); cbn [Z.b2z]; lia. }
  assert (0 <= Z.b2z (commits_alone s op) /\ 0 <= Z.b2z (advances s op) /\ 0 <= Z.b2z (commits_journal s op))
    by (by destruct (commits_alone s op), (advances s op), (commits_journal s op)).
  rewrite !wrap64_small by (unfold_width; lia). unfold_width. lia.
Qed.

Lemma scheduler_run_systems (store : Store) (ops : list SchedulerOp) :
  Z.of_nat (length ops) < u64_max - 1 ->
  systems_inv (scheduler_run (scheduler_new (journal_new store)) ops).
Proof. intros H. by apply scheduler_run_counts. Qed.

Definition in_step_call (op : SchedulerOp) : bool :=
  match op with SAdvanceTick | SAtomicCommit | SJournalCall OpCommit => false | _ => true end.

Lemma run_count_none p s ops :
  (forall s op, in_step_call op = true -> p s op = false) -> forallb in_step_call ops = true ->
  run_count p s ops = 0.
Proof.
  intros Hp. revert s. induction ops as [|op ops IH]; intros s H; cbn [run_count]; [done|].
  simpl in H. apply andb_true_iff in H as [H1 H2]. by rewrite Hp, IH.
Qed.

(** C24: From a new scheduler over a new journal, after any sequence of fewer than 2^64 - 2 of its
    public calls (the engine is not replaced): the two system maps agree under the systems' own ids
    and no two systems of a phase declare a common write table. The counters differ by exactly the
    calls that move one alone: the tick is ahead of the generation by the bare [advance_tick]s less
    the bare [atomic_commit]s that succeeded, and the tick of the journal is ahead of the generation
    by the commits made on the journal directly. So a run without these three keeps the scheduler's
    tick, its generation and the journal's tick equal. *)
Theorem scheduler_run_invariant (store : Store) (ops : list SchedulerOp) :
  Z.of_nat (length ops) < u64_max - 1 ->
  let s0 := scheduler_new (journal_new store) in
  let s := scheduler_run s0 ops in
  systems_inv s
  /\ 0 <= sc_generation s <= Z.of_nat (length ops)
  /\ sc_current_tick s = sc_generation s + run_count advances s0 ops - run_count commits_alone s0 ops
  /\ tick_as_u64 (j_current_tick (sc_journal s)) = sc_generation s + run_count commits_journal s0 ops
  /\ (forallb in_step_call ops = true ->
       sc_current_tick s = sc_generation s /\ j_current_tick (sc_journal s) = scheduler_current_tick s).
Proof.
  intros Hlen. cbv zeta. set (s0 := scheduler_new (journal_new store)).
  destruct (scheduler_run_counts store ops Hlen) as (Hinv & n & Hn & Hle & Eg & Et & Ej). fold s0 in Hinv, Hle, Eg, Et, Ej.
  pose proof (run_count_range advances s0 ops). pose proof (run_count_range commits_alone s0 ops).
  pose proof (run_count_range commits_journal s0 ops).
  split; [done|]. split; [lia|]. split; [lia|]. split; [lia|]. intros Hops.
  assert (Hz : run_count advances s0 ops = 0 /\ run_count commits_alone s0 ops = 0 /\ run_count commits_journal s0 ops = 0).
  { split_and!; apply run_count_none; try done; intros s op; destruct op as [| | | | | | | | | | | |[]|]; done. }
  destruct Hz as (Ea & Eb & Ec). rewrite Ea in *. rewrite Eb in *. rewrite Ec in *. split; [lia|].
  unfold scheduler_current_tick. rewrite Et. destruct (j_current_tick _) as [t]. simpl in Ej. f_equal. lia.
Qed.
End runs.

(** ** A small world, for the witnesses *)

Definition sample_system (id : string) (p : Phase) (table : string) (ok : bool) : SimSystem unit string :=
  mkSystem id p [] [table] None
    (fun rng _ _ _ => if ok then Ok [Insert table (mkRowId (rng_next_u64 rng).2) ∅]
                      else Err (SGeneric "system failed")).

Definition sample_engine : Store -> option Query -> unit :=
  fun _ _ => tt.
Definition frozen_engine (e : unit) : result string bool := Ok true.

Definition sample_command (t : Z) : CommandEnvelope string :=
  mkEnvelope (mkTick t) "player" (Raw "chat" "hello").

Definition sample_world : LogStore := mkLogStore {["army" := []; "trade" := []]} false.

Abbreviation world_step := (scheduler_step table_json sample_engine frozen_engine elements elements elements).
Abbreviation world_run := (scheduler_run table_json sample_engine frozen_engine elements elements elements).
Abbreviation world_tick := (scheduler_tick table_json sample_engine elements elements).

Definition sample_ops (ok : bool) (tick : Z) : list SchedulerOp :=
  [SRegister (sample_system "war" Military "army" true);
   SRegister (sample_system "market" Economy "trade" ok);
   SInitialize; SEnqueue (sample_command 0); SEnqueue (sample_command tick)].
Definition sample_scheduler (ok : bool) (tick : Z) : Scheduler :=
  world_run (scheduler_new (journal_new sample_world)) (sample_ops ok tick).

Lemma sample_ready ok : ready (sample_scheduler ok 0) /\ fresh (sample_scheduler ok 0).
Proof.
  destruct ok; (split; [repeat split; vm_compute; reflexivity|]); intros c Hc;
    apply list_elem_of_In in Hc; vm_compute in Hc; destruct Hc as [<-|[<-|[]]]; reflexivity.
Qed.

Lemma scheduler_tick_atomic_witness :
  match world_tick (sample_scheduler true 0) with
  | (s', Ok r) => ticked table_json sample_engine elements (sample_scheduler true 0) s' r
  | (_, Err _) => False
  end
  /\ rolled_back (sample_scheduler false 0) (world_tick (sample_scheduler false 0)).1.
Proof.
  split.
  - pose proof (scheduler_tick_atomic table_json sample_engine elements elements
                  (sample_scheduler true 0) (proj1 (sample_ready true)) (proj2 (sample_ready true))) as H.
    destruct (world_tick _) as [s' [r|e]] eqn:E; [exact H|].
    apply (f_equal snd) in E. vm_compute in E. discriminate E.
  - pose proof (scheduler_tick_atomic table_json sample_engine elements elements
                  (sample_scheduler false 0) (proj1 (sample_ready false)) (proj2 (sample_ready false))) as H.
    destruct (world_tick _) as [s' [r|e]] eqn:E.
    + apply (f_equal snd) in E. vm_compute in E. discriminate E.
    + destruct H as [[H _]|[(r & n & e' & _ & He)|(ds & m & _ & Hm & _)]]; [exact H| |vm_compute in Hm; discriminate Hm].
      exfalso. apply (f_equal snd) in E. vm_compute in E. rewrite He in E. discriminate E.
Defined.

Lemma scheduler_tick_drops_commands_witness :
  let s' := (world_tick (sample_scheduler true 7)).1 in
  sc_pending_commands s' = [] /\ j_pending_commands (sc_journal s') = [sample_command 0].
Proof.
  destruct (scheduler_tick_drops_commands table_json sample_engine elements elements
    (sample_scheduler true 7) [sample_command 0] (sample_command 7) []) as (_ & Hq & Hj & _).
  - repeat split; vm_compute; reflexivity.
  - vm_compute. reflexivity.
  - intros d Hd. apply list_elem_of_singleton in Hd as ->. vm_compute. reflexivity.
  - vm_compute. discriminate.
  - split; [exact Hq|exact Hj].
Defined.

Lemma scheduler_run_invariant_witness :
  systems_inv (sample_scheduler true 0)
  /\ j_current_tick (sc_journal (sample_scheduler true 0)) = scheduler_current_tick (sample_scheduler true 0).
Proof.
  destruct (scheduler_run_invariant table_json sample_engine frozen_engine elements elements elements
    (fun X => Permutation_refl _) sample_world (sample_ops true 0)) as (H1 & _ & _ & _ & H2).
  - vm_compute. reflexivity.
  - split; [exact H1|apply H2; reflexivity].
Defined.

Lemma scheduler_initialize_iff_witness :
  exists s', scheduler_initialize sample_engine frozen_engine elements elements
    (world_run (scheduler_new (journal_new sample_world))
       [SRegister (sample_system "war" Military "army" true)]) = Ok s' /\ sc_initialized s' = true.
Proof.
  set (s := world_run _ _).
  assert (Hinv : systems_inv s).
  { apply (scheduler_run_systems table_json sample_engine frozen_engine elements elements elements
      (fun X => Permutation_refl _) sample_world
      [SRegister (sample_system "war" Military "army" true)]). vm_compute. reflexivity. }
  pose proof (scheduler_initialize_iff sample_engine frozen_engine elements elements
    (fun X => Permutation_refl _) (fun X => Permutation_refl _) s Hinv eq_refl) as H.
  destruct (scheduler_initialize _ _ _ _ s) as [s'|e] eqn:E.
  - exists s'. split; [reflexivity|apply H].
  - apply (f_equal is_ok) in E. vm_compute in E. discriminate E.
Defined.

Definition two_systems : gmap string (SimSystem unit string) :=
  <["market" := sample_system "market" Economy "trade" true]>
    {["war" := sample_system "war" Economy "army" true]}.
Definition two_system_scheduler : Scheduler :=
  mkScheduler two_systems (registration_from_system <$> two_systems) []
    (journal_new sample_world) bus_new 0 0 true.

Lemma two_systems_lookup id sys :
  two_systems !! id = Some sys ->
  (id = "market" /\ sys = sample_system "market" Economy "trade" true)
  \/ (id = "war" /\ sys = sample_system "war" Economy "army" true).
Proof.
  unfold two_systems. intros [[<- <-]|[_ [<- <-]%lookup_singleton_Some]]%lookup_insert_Some; auto.
Qed.

Lemma tick_diffs_deterministic_witness :
  exists ds, tick_diffs sample_engine (fun X => rev (elements X)) two_system_scheduler = Ok ds
    /\ length (table_diffs "army" ds) = 1%nat.
Proof.
  destruct (tick_diffs sample_engine elements two_system_scheduler) as [ds1|e] eqn:E;
    [|apply (f_equal is_ok) in E; vm_compute in E; discriminate E].
  destruct (tick_diffs_deterministic sample_engine two_system_scheduler elements
    (fun X => rev (elements X)) ds1) as (ds2 & H2 & _ & Ht).
  - split; [|split; [reflexivity|]].
    + intros id sys [[-> ->]|[-> ->]]%two_systems_lookup; reflexivity.
    + intros a b ra rb Hab Ha Hb. simpl in Ha, Hb. rewrite lookup_fmap in Ha, Hb.
      apply fmap_Some in Ha as (sa & Ha & ->), Hb as (sb & Hb & ->).
      apply two_systems_lookup in Ha as [[-> ->]|[-> ->]], Hb as [[-> ->]|[-> ->]];
        try (destruct Hab; reflexivity); vm_compute; reflexivity.
  - intros id sys Hs rng engine p tick ds He d Hd.
    apply two_systems_lookup in Hs as [[-> ->]|[-> ->]]; injection He as <-;
      apply list_elem_of_singleton in Hd as ->; left.
  - reflexivity.
  - intros X. symmetry. apply Permutation_rev.
  - exact E.
  - exists ds2. split; [exact H2|]. rewrite <- Ht.
    assert (Hc : map_ok (fun ds => length (table_diffs "army" ds))
                   (tick_diffs sample_engine elements two_system_scheduler) = Ok 1%nat)
      by (vm_compute; reflexivity).
    rewrite E in Hc. unfold map_ok in Hc. injection Hc as Hc. exact Hc.
Defined.
