(* ===== verification/Content.v ===== *)
(** * Content: mod overlays, name resolution, fingerprints and the load lifecycle

    Models [error.rs], [overlay.rs], [name_resolution.rs], [lifecycle.rs] and the registry of
    [fingerprint.rs] of [scharnhorst_content]. The order in which a hash table yields its keys is
    an argument. An [i64] addition wraps, as in a release build. *)

From Stdlib Require Import Ascii String.
From stdpp Require Import base gmap strings list fin_maps.
From Stdlib Require Import ZArith Lia Sorted.
From S2P Require Import Prelude RustStr CoreTypes SchemaTables Relations Registry.

Inductive ContentError :=
| OverlayNotFound (path : string)
| OverlayConflict (msg : string)
| NameResolutionFailed (name : string)
| DuplicateName (name : string)
| CompilationFailed (table reason : string)
| SchemaMismatch (expected got : string)
| ModFingerprintMismatch (mod_id expected got : string)
| CManifestSerialization (msg : string)
| InvalidPhaseTransition (from to : string)
| PhaseAlreadyCompleted (phase : string)
| CRegistryFrozen
| CIo (msg : string)
| CGeneric (msg : string)
| CCore (e : CoreError)
| CSchema (e : SchemaError)
| CArrowStore (msg : string).

Abbreviation ContentResult := (result ContentError).

(** ** Overlays *)

Inductive MergeStrategy := Replace | Append | Prepend | MergeAdd | MergeMin | MergeMax.

Record OverlayEntry := mkOverlay {
  oe_path : string; oe_value : string; oe_strategy : MergeStrategy }.

Record OverlayLayer := mkLayer {
  ol_mod_id : string; ol_priority : Z; ol_entries : gmap string OverlayEntry }.

Definition layer_new (mod_id : string) (priority : Z) : OverlayLayer := mkLayer mod_id priority ∅.
Definition layer_with_entry (l : OverlayLayer) (e : OverlayEntry) : OverlayLayer :=
  mkLayer (ol_mod_id l) (ol_priority l) (<[oe_path e := e]> (ol_entries l)).
Definition layer_get (l : OverlayLayer) (path : string) : option OverlayEntry := ol_entries l !! path.

Record OverlayResolver := mkResolver {
  or_base : gmap string string; or_layers : list OverlayLayer }.

Definition resolver_new : OverlayResolver := mkResolver ∅ [].
Definition resolver_with_base (r : OverlayResolver) (path value : string) : OverlayResolver :=
  mkResolver (<[path := value]> (or_base r)) (or_layers r).
Definition resolver_add_layer (r : OverlayResolver) (l : OverlayLayer) : OverlayResolver :=
  mkResolver (or_base r) (sort_by_key ol_priority (or_layers r ++ [l])).

(** An [i64] sum, wrapping. *)
Definition wrap_i64 (z : Z) : Z := (z + 9223372036854775808) mod two64 - 9223372036854775808.

Definition parse_operand (what side s : string) : ContentResult Z :=
  map_err (fun _ => OverlayConflict ("cannot " +:+ what +:+ " non-integer " +:+ side +:+ ": " +:+ s))
    (parse_i64 s).

Definition apply_strategy (base overlay : string) (strategy : MergeStrategy) : ContentResult string :=
  match strategy with
  | Replace => Ok overlay
  | Append => Ok (base +:+ overlay)
  | Prepend => Ok (overlay +:+ base)
  | MergeAdd =>
      let? b := parse_operand "add" "base" base in
      let? o := parse_operand "add" "overlay" overlay in
      Ok (show_i64 (wrap_i64 (b + o)))
  | MergeMin =>
      let? b := parse_operand "min" "base" base in
      let? o := parse_operand "min" "overlay" overlay in
      Ok (show_i64 (Z.min b o))
  | MergeMax =>
      let? b := parse_operand "max" "base" base in
      let? o := parse_operand "max" "overlay" overlay in
      Ok (show_i64 (Z.max b o))
  end.

Definition apply_layer (path : string) (current : string) (l : OverlayLayer) : ContentResult string :=
  match layer_get l path with
  | Some e => apply_strategy current (oe_value e) (oe_strategy e)
  | None => Ok current
  end.

Definition resolver_resolve (r : OverlayResolver) (path : string) : ContentResult string :=
  let? base := ok_or (or_base r !! path) (OverlayNotFound path) in
  try_fold (apply_layer path) base (or_layers r).

Section paths.
Context (hash_order : gset string -> list string).

Definition resolver_known_paths (r : OverlayResolver) : list string :=
  hash_order (dom (or_base r)) ++ (or_layers r ≫= fun l => hash_order (dom (ol_entries l))).

Fixpoint resolve_all (r : OverlayResolver) (paths : list string) (acc : gmap string string)
  : ContentResult (gmap string string) :=
  match paths with
  | [] => Ok acc
  | p :: paths' => let? v := resolver_resolve r p in resolve_all r paths' (<[p := v]> acc)
  end.
Definition resolver_apply (r : OverlayResolver) : ContentResult (gmap string string) :=
  resolve_all r (resolver_known_paths r) ∅.
End paths.

(** ** Names *)

Record NameResolver := mkNames {
  nr_name_to_id : gmap string RowId; nr_id_to_name : gmap RowId string; nr_next_id : Z }.

Definition names_new : NameResolver := mkNames ∅ ∅ 0.

(** The insertion both [register] and [resolve_or_assign] end with. *)
Definition names_assign (n : NameResolver) (name : string) : NameResolver * RowId :=
  let id := mkRowId (nr_next_id n) in
  (mkNames (<[name := id]> (nr_name_to_id n)) (<[id := name]> (nr_id_to_name n))
     (saturating_add_u64 (nr_next_id n) 1), id).

Definition names_register (n : NameResolver) (name : string) : ContentResult (NameResolver * RowId) :=
  if decide (is_Some (nr_name_to_id n !! name)) then Err (DuplicateName name)
  else Ok (names_assign n name).
Definition names_resolve (n : NameResolver) (name : string) : ContentResult RowId :=
  ok_or (nr_name_to_id n !! name) (NameResolutionFailed name).
Definition names_name_of (n : NameResolver) (id : RowId) : ContentResult string :=
  ok_or (nr_id_to_name n !! id) (NameResolutionFailed (show_u64 (row_id_as_u64 id))).
Definition names_contains_name (n : NameResolver) (name : string) : bool :=
  bool_decide (is_Some (nr_name_to_id n !! name)).
Definition names_contains_id (n : NameResolver) (id : RowId) : bool :=
  bool_decide (is_Some (nr_id_to_name n !! id)).
Definition names_resolve_or_assign (n : NameResolver) (name : string) : NameResolver * RowId :=
  match nr_name_to_id n !! name with
  | Some id => (n, id)
  | None => names_assign n name
  end.
Definition names_len (n : NameResolver) : nat := size (nr_name_to_id n).

Record NamespaceResolver := mkSpaces { ns_tables : gmap string NameResolver; ns_next_id : Z }.

Definition spaces_new : NamespaceResolver := mkSpaces ∅ 0.
Definition names_with_next (n : NameResolver) (next : Z) : NameResolver :=
  mkNames (nr_name_to_id n) (nr_id_to_name n) next.
(** [namespace] hands out a reference: [f] is what the caller does through it. *)
Definition spaces_namespace {A} (s : NamespaceResolver) (table : string)
    (f : NameResolver -> NameResolver * A) : NamespaceResolver * A :=
  let resolver := names_with_next (default names_new (ns_tables s !! table)) (ns_next_id s) in
  let '(resolver, a) := f resolver in
  (mkSpaces (<[table := resolver]> (ns_tables s)) (ns_next_id s), a).
Definition spaces_sync_next_id (s : NamespaceResolver) : NamespaceResolver :=
  mkSpaces (ns_tables s) (map_fold (fun _ r acc => Z.max (nr_next_id r) acc) 0 (ns_tables s)).
Definition spaces_resolve (s : NamespaceResolver) (table name : string) : ContentResult RowId :=
  let? r := ok_or (ns_tables s !! table) (NameResolutionFailed ("table: " +:+ table)) in
  names_resolve r name.
Definition spaces_resolve_or_assign (s : NamespaceResolver) (table name : string)
  : NamespaceResolver * RowId :=
  let resolver := names_with_next (default names_new (ns_tables s !! table)) (ns_next_id s) in
  let '(resolver, id) := names_resolve_or_assign resolver name in
  (mkSpaces (<[table := resolver]> (ns_tables s)) (nr_next_id resolver), id).
Definition spaces_name_of (s : NamespaceResolver) (table : string) (id : RowId) : ContentResult string :=
  let? r := ok_or (ns_tables s !! table) (NameResolutionFailed ("table: " +:+ table)) in
  names_name_of r id.

(** ** Fingerprints *)

Record FingerprintRegistry := mkFingerprints { fr_fingerprints : list ModFingerprint }.

Definition fingerprints_register (r : FingerprintRegistry) (f : ModFingerprint) : FingerprintRegistry :=
  mkFingerprints (fr_fingerprints r ++ [f]).
Definition fingerprints_find (r : FingerprintRegistry) (mod_id : string) : option ModFingerprint :=
  find_mod_fingerprint (fr_fingerprints r) mod_id.
Definition fingerprints_contains (r : FingerprintRegistry) (mod_id : string) : bool :=
  bool_decide (is_Some (fingerprints_find r mod_id)).

Record FingerprintComparison := mkComparison {
  fc_missing : list ModFingerprint; fc_extra : list ModFingerprint;
  fc_mismatched : list (ModFingerprint * ModFingerprint) }.

Definition comparison_is_exact_match (c : FingerprintComparison) : bool :=
  match fc_missing c, fc_extra c, fc_mismatched c with [], [], [] => true | _, _, _ => false end.

Definition fingerprints_compare (r : FingerprintRegistry) (available : list ModFingerprint)
  : FingerprintComparison :=
  let stored_ids : gset string := list_to_set (mf_mod_id <$> fr_fingerprints r) in
  let available_ids : gset string := list_to_set (mf_mod_id <$> available) in
  mkComparison
    (List.filter (fun f => negb (bool_decide (mf_mod_id f ∈ available_ids))) (fr_fingerprints r))
    (List.filter (fun f => negb (bool_decide (mf_mod_id f ∈ stored_ids))) available)
    (omap (fun stored =>
       avail ← find_mod_fingerprint available (mf_mod_id stored);
       if negb (bool_decide (mf_content_hash avail = mf_content_hash stored))
          || negb (bool_decide (mf_version avail = mf_version stored))
       then Some (stored, avail) else None) (fr_fingerprints r)).

(** ** The load lifecycle *)

Inductive LoadPhase :=
| SnapshotDeserialize | ModCoordination | SchemaMigration
| ContentCompilation | SchemaFreeze | SimulationStart.

#[export] Instance LoadPhase_eq_dec : EqDecision LoadPhase.
Proof. solve_decision. Defined.

Definition load_phase_name (p : LoadPhase) : string :=
  match p with
  | SnapshotDeserialize => "SnapshotDeserialize"
  | ModCoordination => "ModCoordination"
  | SchemaMigration => "SchemaMigration"
  | ContentCompilation => "ContentCompilation"
  | SchemaFreeze => "SchemaFreeze"
  | SimulationStart => "SimulationStart"
  end.

Definition load_phase_next (p : LoadPhase) : option LoadPhase :=
  match p with
  | SnapshotDeserialize => Some ModCoordination
  | ModCoordination => Some SchemaMigration
  | SchemaMigration => Some ContentCompilation
  | ContentCompilation => Some SchemaFreeze
  | SchemaFreeze => Some SimulationStart
  | SimulationStart => None
  end.

(** The derived order is the order of declaration. *)
Definition load_phase_index (p : LoadPhase) : nat :=
  match p with
  | SnapshotDeserialize => 0 | ModCoordination => 1 | SchemaMigration => 2
  | ContentCompilation => 3 | SchemaFreeze => 4 | SimulationStart => 5
  end.

Record LoadLifecycle := mkLifecycle {
  ll_current : option LoadPhase; ll_completed : list LoadPhase;
  ll_manifest : option SchemaManifest; ll_migrated : option MigratedSchemaManifest;
  ll_final_mods : list ModFingerprint; ll_frozen : bool }.

Definition load_new : LoadLifecycle := mkLifecycle None [] None None [] false.
Definition with_progress (l : LoadLifecycle) current completed : LoadLifecycle :=
  mkLifecycle current completed (ll_manifest l) (ll_migrated l) (ll_final_mods l) (ll_frozen l).
Definition load_is_completed (l : LoadLifecycle) (p : LoadPhase) : bool :=
  bool_decide (p ∈ ll_completed l).

Definition load_advance (l : LoadLifecycle) : ContentResult (LoadLifecycle * LoadPhase) :=
  let? next := match ll_current l with
               | None => Ok SnapshotDeserialize
               | Some phase =>
                   ok_or (load_phase_next phase) (InvalidPhaseTransition (load_phase_name phase) "(none)")
               end in
  match ll_current l with
  | Some current =>
      if load_is_completed l current then Err (PhaseAlreadyCompleted (load_phase_name current))
      else Ok (with_progress l (Some next) (ll_completed l ++ [current]), next)
  | None => Ok (with_progress l (Some next) (ll_completed l), next)
  end.

Definition load_finish (l : LoadLifecycle) : LoadLifecycle :=
  let completed := match ll_current l with
                   | Some current => if load_is_completed l current then ll_completed l
                                     else ll_completed l ++ [current]
                   | None => ll_completed l
                   end in
  with_progress l None completed.

Definition load_start_phase (l : LoadLifecycle) (p : LoadPhase) : ContentResult LoadLifecycle :=
  match ll_current l with
  | Some current =>
      if (load_phase_index p <=? load_phase_index current)%nat
      then Err (InvalidPhaseTransition (load_phase_name current) (load_phase_name p))
      else Ok (with_progress l (Some p) (ll_completed l))
  | None => Ok (with_progress l (Some p) (ll_completed l))
  end.

Definition load_set_manifest (l : LoadLifecycle) (m : SchemaManifest) : LoadLifecycle :=
  mkLifecycle (ll_current l) (ll_completed l) (Some m) (ll_migrated l) (ll_final_mods l) (ll_frozen l).
Definition load_set_migrated_manifest (l : LoadLifecycle) (m : MigratedSchemaManifest) : LoadLifecycle :=
  mkLifecycle (ll_current l) (ll_completed l) (ll_manifest l) (Some m) (ll_final_mods l) (ll_frozen l).
Definition load_set_final_mods (l : LoadLifecycle) (f : list ModFingerprint) : LoadLifecycle :=
  mkLifecycle (ll_current l) (ll_completed l) (ll_manifest l) (ll_migrated l) f (ll_frozen l).
Definition load_set_frozen (l : LoadLifecycle) (b : bool) : LoadLifecycle :=
  mkLifecycle (ll_current l) (ll_completed l) (ll_manifest l) (ll_migrated l) (ll_final_mods l) b.
Definition load_is_finished (l : LoadLifecycle) : bool := (length (ll_completed l) =? 6)%nat.

(** The driver's loop; the phase runner may write to the lifecycle, so the loop may not end: [None]
    is out of fuel. *)
Fixpoint coordinator_run (runner : LoadLifecycle -> LoadPhase -> LoadLifecycle * ContentResult unit)
    (fuel : nat) (l : LoadLifecycle) : option (ContentResult LoadLifecycle) :=
  match fuel with
  | O => None
  | S fuel =>
      match load_advance l with
      | Err e => Some (Err e)
      | Ok (l, phase) =>
          match runner l phase with
          | (_, Err e) => Some (Err e)
          | (l, Ok _) =>
              if bool_decide (ll_current l = Some SimulationStart) then Some (Ok (load_finish l))
              else coordinator_run runner fuel l
          end
      end
  end.

(** ** Overlays: the order of the mods *)

Abbreviation by_priority := (StronglySorted (fun a b : OverlayLayer => ol_priority a <= ol_priority b)).

Lemma sort_by_key_sorted_id {A} (key : A -> Z) l :
  StronglySorted (fun a b => key a <= key b) l -> sort_by_key key l = l.
Proof.
  induction 1 as [|x l Hs IH Hx]; simpl; [done|]. rewrite IH.
  destruct l as [|y l]; simpl; [done|]. apply Forall_inv in Hx.
  by rewrite (proj2 (Z.leb_le _ _)).
Qed.

(** Two stable sorts of the same layers, in whatever order, agree when no two priorities do. *)
Lemma sorted_layers_unique l1 l2 :
  by_priority l1 -> by_priority l2 -> l1 ≡ₚ l2 ->
  NoDup (ol_priority <$> l1) -> l1 = l2.
Proof.
  intros H1. revert l2. induction H1 as [|x l1 Hs1 IH Hx]; intros l2 H2 Hp Hnd.
  - by apply Permutation_nil_l in Hp as ->.
  - destruct H2 as [|y l2 Hs2 Hy]; [by apply Permutation_nil_r in Hp|].
    csimpl. rewrite fmap_cons in Hnd. apply NoDup_cons in Hnd as [Hni Hnd].
    assert (x = y) as ->.
    { rewrite Forall_forall in Hx, Hy.
      assert (Hyx : y = x \/ y ∈ l1) by (apply elem_of_cons; rewrite Hp; left).
      assert (Hxy : x = y \/ x ∈ l2) by (apply elem_of_cons; rewrite <- Hp; left).
      destruct Hyx as [->|Hyx]; [done|]. destruct Hxy as [->|Hxy]; [done|]. exfalso. apply Hni.
      specialize (Hx y Hyx). specialize (Hy x Hxy). simpl in *.
      apply list_elem_of_fmap. exists y. split; [lia|done]. }
    f_equal. apply IH; [done|by apply Permutation_cons_inv in Hp|done].
Qed.

Lemma add_layers_sorted ls r :
  by_priority (or_layers r) ->
  let r' := foldl resolver_add_layer r ls in
  by_priority (or_layers r') /\ or_layers r' ≡ₚ or_layers r ++ ls /\ or_base r' = or_base r.
Proof.
  revert r. induction ls as [|l ls IH]; intros r Hr; simpl; [by rewrite app_nil_r|].
  destruct (IH (resolver_add_layer r l)) as (H1 & H2 & H3); [apply sort_by_key_sorted|].
  split; [done|]. split; [|done]. rewrite H2. simpl. rewrite sort_by_key_perm.
  by rewrite <- app_assoc.
Qed.

(** Mods with distinct priorities resolve to the same values in whatever order they are added:
    the layers end up sorted by priority, each applied to the result of those below it. *)
Theorem overlay_order_independent (r : OverlayResolver) (ls1 ls2 : list OverlayLayer) (path : string) :
  by_priority (or_layers r) -> ls1 ≡ₚ ls2 ->
  NoDup (ol_priority <$> (or_layers r ++ ls1)) ->
  let r1 := foldl resolver_add_layer r ls1 in
  let r2 := foldl resolver_add_layer r ls2 in
  by_priority (or_layers r1) /\ or_layers r1 ≡ₚ or_layers r ++ ls1
  /\ resolver_resolve r1 path = resolver_resolve r2 path.
Proof.
  intros Hr Hp Hnd r1 r2.
  destruct (add_layers_sorted ls1 r Hr) as (H1 & H1p & H1b).
  destruct (add_layers_sorted ls2 r Hr) as (H2 & H2p & H2b). fold r1 in H1, H1p, H1b.
  fold r2 in H2, H2p, H2b. split; [done|]. split; [done|].
  assert (or_layers r1 = or_layers r2) as E.
  { apply sorted_layers_unique; [done|done|by rewrite H1p, H2p, Hp|by rewrite H1p]. }
  unfold resolver_resolve. by rewrite H1b, H2b, E.
Qed.

Definition sample_layer (m : string) (p : Z) (s : MergeStrategy) (v : string) : OverlayLayer :=
  layer_with_entry (layer_new m p) (mkOverlay "tax" v s).
Definition sample_resolver : OverlayResolver := resolver_with_base resolver_new "tax" "10".

Lemma overlay_order_independent_witness :
  resolver_resolve (foldl resolver_add_layer sample_resolver
    [sample_layer "b" 2 MergeMax "12"; sample_layer "a" 1 MergeAdd "5"]) "tax"
  = resolver_resolve (foldl resolver_add_layer sample_resolver
    [sample_layer "a" 1 MergeAdd "5"; sample_layer "b" 2 MergeMax "12"]) "tax"
  /\ resolver_resolve (foldl resolver_add_layer sample_resolver
    [sample_layer "a" 1 MergeAdd "5"; sample_layer "b" 2 MergeMax "12"]) "tax" = Ok "15".
Proof.
  split; [|vm_compute; reflexivity].
  apply (overlay_order_independent sample_resolver
    [sample_layer "b" 2 MergeMax "12"; sample_layer "a" 1 MergeAdd "5"]
    [sample_layer "a" 1 MergeAdd "5"; sample_layer "b" 2 MergeMax "12"] "tax").
  - constructor.
  - apply perm_swap.
  - apply (bool_decide_unpack _). vm_compute. exact I.
Defined.

Section apply.
Context (hash_order : gset string -> list string) (Hord : forall X, hash_order X ≡ₚ elements X).

Lemma elem_of_known_paths r p :
  p ∈ resolver_known_paths hash_order r <->
  is_Some (or_base r !! p) \/ exists l, l ∈ or_layers r /\ is_Some (layer_get l p).
Proof.
  unfold resolver_known_paths. rewrite elem_of_app, Hord, elem_of_elements, elem_of_dom.
  rewrite list_elem_of_bind. setoid_rewrite Hord. setoid_rewrite elem_of_elements.
  setoid_rewrite elem_of_dom. unfold layer_get. naive_solver.
Qed.

Lemma resolve_all_spec r paths acc :
  match resolve_all r paths acc with
  | Ok m => (forall p, p ∈ paths -> exists v, resolver_resolve r p = Ok v /\ m !! p = Some v)
      /\ forall p, p ∉ paths -> m !! p = acc !! p
  | Err e => exists p, p ∈ paths /\ resolver_resolve r p = Err e
  end.
Proof.
  revert acc. induction paths as [|p paths IH]; intros acc; simpl; [set_solver|].
  destruct (resolver_resolve r p) as [v|e] eqn:Ep.
  2: { exists p. split; [left|done]. }
  specialize (IH (<[p := v]> acc)). destruct (resolve_all r paths _) as [m|e].
  - destruct IH as [H1 H2]. split.
    + intros q [->|Hq]%elem_of_cons; [|by apply H1].
      destruct (decide (p ∈ paths)) as [Hin|Hni]; [by apply H1|].
      exists v. split; [done|]. by rewrite (H2 p Hni), lookup_insert_eq.
    + intros q [Hne Hq]%not_elem_of_cons. rewrite (H2 q Hq). by rewrite lookup_insert_ne.
  - destruct IH as (q & Hq & ?). exists q. split; [by right|done].
Qed.

(** [apply] resolves every known path, and fails as a whole when one does not resolve; a single
    overlay on a path that has no base value is enough. *)
Theorem overlay_apply_all_or_error (r : OverlayResolver) :
  match resolver_apply hash_order r with
  | Ok m => forall p, m !! p = (match resolver_resolve r p with Ok v => Some v | Err _ => None end)
  | Err e => exists p, p ∈ resolver_known_paths hash_order r /\ resolver_resolve r p = Err e
  end
  /\ forall l p, l ∈ or_layers r -> is_Some (layer_get l p) -> or_base r !! p = None ->
       exists e, resolver_apply hash_order r = Err e.
Proof.
  unfold resolver_apply.
  pose proof (resolve_all_spec r (resolver_known_paths hash_order r) ∅) as H.
  destruct (resolve_all r _ ∅) as [m|e].
  - destruct H as [H1 H2]. split.
    + intros p. destruct (decide (p ∈ resolver_known_paths hash_order r)) as [Hin|Hni].
      * destruct (H1 p Hin) as (v & -> & ->). done.
      * rewrite (H2 p Hni), lookup_empty. unfold resolver_resolve.
        destruct (or_base r !! p) eqn:Eb; [|done]. exfalso. apply Hni, elem_of_known_paths.
        left. by eexists.
    + intros l p Hl Hp Hb. exfalso.
      destruct (H1 p) as (v & Hv & _); [apply elem_of_known_paths; right; by exists l|].
      unfold resolver_resolve in Hv. by rewrite Hb in Hv.
  - split; [done|]. intros. by exists e.
Qed.
End apply.

Lemma overlay_apply_all_or_error_witness :
  exists e, resolver_apply elements (resolver_add_layer resolver_new (sample_layer "a" 1 Replace "5"))
    = Err e.
Proof.
  destruct (overlay_apply_all_or_error elements (fun X => Permutation_refl _)
    (resolver_add_layer resolver_new (sample_layer "a" 1 Replace "5"))) as [_ H].
  apply (H (sample_layer "a" 1 Replace "5") "tax"); [left|vm_compute; eexists; reflexivity|reflexivity].
Defined.

(** Two operands whose sum leaves [i64] wrap (or panic, with overflow checks on). *)
Example overlay_add_wraps :
  apply_strategy "9223372036854775807" "1" MergeAdd = Ok "-9223372036854775808".
Proof. vm_compute. reflexivity. Qed.

(** ** Names and ids *)

Definition names_inv (n : NameResolver) : Prop :=
  (forall name id, nr_name_to_id n !! name = Some id <-> nr_id_to_name n !! id = Some name)
  /\ (forall id, is_Some (nr_id_to_name n !! id) -> 0 <= row_id_as_u64 id < nr_next_id n)
  /\ 0 <= nr_next_id n.

Lemma names_assign_inv n name :
  names_inv n -> nr_next_id n < u64_max -> nr_name_to_id n !! name = None ->
  names_inv (names_assign n name).1
  /\ nr_next_id (names_assign n name).1 = nr_next_id n + 1.
Proof.
  intros (Hbij & Hlt & H0) Hmax Hname. unfold names_assign, saturating_add_u64. simpl.
  assert (Hid : nr_id_to_name n !! mkRowId (nr_next_id n) = None).
  { apply eq_None_not_Some. intros Hs. apply Hlt in Hs. simpl in Hs. lia. }
  split; [|unfold_width; lia]. split; [|split]; simpl; [| |unfold_width; lia].
  - intros m id. rewrite !lookup_insert_Some. rewrite Hbij. split.
    + intros [[<- <-]|[Hne Hm]]; [by left|right]. split; [|done]. intros <-. congruence.
    + intros [[<- <-]|[Hne Hm]]; [by left|right]. split; [|done]. intros <-.
      apply Hbij in Hm. congruence.
  - intros id. rewrite lookup_insert_is_Some. intros [<-|[_ Hs]]; simpl; [unfold_width; lia|].
    apply Hlt in Hs. unfold_width. lia.
Qed.

Definition names_assign_all (n : NameResolver) (names : list string) : NameResolver :=
  foldl (fun n name => (names_resolve_or_assign n name).1) n names.

Lemma names_assign_all_inv n names :
  names_inv n -> nr_next_id n + Z.of_nat (length names) <= u64_max ->
  let n' := names_assign_all n names in
  names_inv n' /\ (forall name id, nr_name_to_id n !! name = Some id -> nr_name_to_id n' !! name = Some id)
  /\ (forall name, name ∈ names -> is_Some (nr_name_to_id n' !! name)).
Proof.
  revert n. induction names as [|name names IH]; intros n Hinv Hb; [set_solver|].
  simpl in Hb. unfold names_assign_all. simpl. fold (names_assign_all (names_resolve_or_assign n name).1 names).
  unfold names_resolve_or_assign. destruct (nr_name_to_id n !! name) as [id|] eqn:E.
  - destruct (IH n) as (H1 & H2 & H3); [done|lia|]. split; [done|]. split; [done|].
    intros m [->|Hm]%elem_of_cons; [|auto]. eexists. by apply H2.
  - destruct (names_assign_inv n name) as [Hinv' Hnext]; [done|lia|done|].
    destruct (IH (names_assign n name).1) as (H1 & H2 & H3); [done|rewrite Hnext; lia|].
    split; [done|]. split.
    + intros m id Hm. apply H2. simpl. rewrite lookup_insert_ne; [done|]. congruence.
    + intros m [->|Hm]%elem_of_cons; [|auto]. eexists. apply H2. simpl. by rewrite lookup_insert_eq.
Qed.

(** Assigning ids to any names (fewer than 2^64 of them) gives a bijection: each name resolves to
    one id, distinct names to distinct ids, the id names it back, and later assignments never
    change an id. *)
Theorem names_stable_bijection (before after : list string) :
  Z.of_nat (length (before ++ after)) <= u64_max ->
  let n := names_assign_all names_new before in
  let n' := names_assign_all n after in
  forall a, a ∈ before -> exists id,
    names_resolve n a = Ok id /\ names_resolve n' a = Ok id /\ names_name_of n' id = Ok a
    /\ forall b, names_resolve n' b = Ok id -> b = a.
Proof.
  intros Hlen n n' a Ha. rewrite length_app in Hlen.
  assert (H0 : names_inv names_new).
  { split; [|split]; [done|by intros id [? ?]|done]. }
  destruct (names_assign_all_inv names_new before) as (H1 & _ & H3); [done|simpl; lia|].
  fold n in H1, H3. destruct (H3 a Ha) as [id Hid]. exists id.
  assert (Hnext : nr_next_id n <= Z.of_nat (length before)).
  { clear -H0 Hlen. unfold n. assert (Hg : forall names m, names_inv m ->
      nr_next_id m + Z.of_nat (length names) <= u64_max ->
      nr_next_id (names_assign_all m names) <= nr_next_id m + Z.of_nat (length names)).
    { induction names as [|x names IH]; intros m Hm Hb; [simpl; lia|].
      unfold names_assign_all. simpl in Hb |- *.
      fold (names_assign_all (names_resolve_or_assign m x).1 names).
      unfold names_resolve_or_assign. destruct (nr_name_to_id m !! x) eqn:E.
      - simpl. specialize (IH m Hm). lia.
      - destruct (names_assign_inv m x) as [Hi Hn]; [done|lia|done|].
        specialize (IH _ Hi). lia. }
    specialize (Hg before names_new H0). simpl in Hg. lia. }
  destruct (names_assign_all_inv n after) as (H1' & H2' & _); [done|lia|]. fold n' in H1', H2'.
  apply H2' in Hid as Hid'. unfold names_resolve, names_name_of. rewrite Hid, Hid'. simpl.
  destruct H1' as (Hbij & _). apply Hbij in Hid' as Hback. rewrite Hback. split_and!; [done..|].
  intros b Hb. destruct (nr_name_to_id n' !! b) as [ib|] eqn:Eb; [|done]. simpl in Hb. simplify_eq.
  apply Hbij in Eb. congruence.
Qed.

Lemma names_stable_bijection_witness :
  exists id, names_resolve (names_assign_all names_new ["FRA"; "ENG"; "FRA"]) "ENG" = Ok id
    /\ names_resolve (names_assign_all (names_assign_all names_new ["FRA"; "ENG"; "FRA"]) ["SPA"]) "ENG" = Ok id.
Proof.
  destruct (names_stable_bijection ["FRA"; "ENG"; "FRA"] ["SPA"]) with (a := "ENG") as (id & H1 & H2 & _).
  - vm_compute. discriminate.
  - right. left.
  - exists id. split; [exact H1|exact H2].
Defined.

(** ** The six phases *)

Definition six_phases : list LoadPhase :=
  [SnapshotDeserialize; ModCoordination; SchemaMigration; ContentCompilation; SchemaFreeze; SimulationStart].

(** A runner that leaves the progress fields to the driver. *)
Definition keeps_progress (runner : LoadLifecycle -> LoadPhase -> LoadLifecycle * ContentResult unit) :=
  forall l p, ll_current (runner l p).1 = ll_current l /\ ll_completed (runner l p).1 = ll_completed l.

(** Run from the phase before [todo], having completed [done_]. *)
Lemma coordinator_run_from runner : keeps_progress runner ->
  forall todo done_ cur l fuel,
  six_phases = done_ ++ cur :: todo ->
  ll_current l = Some cur -> ll_completed l = done_ -> cur <> SimulationStart ->
  (length todo <= fuel)%nat ->
  match coordinator_run runner fuel l with
  | Some (Ok l') => ll_current l' = None /\ ll_completed l' = six_phases
  | Some (Err e) => exists p l0, p ∈ todo /\ (runner l0 p).2 = Err e
  | None => False
  end.
Proof.
  intros Hk todo. induction todo as [|p todo IH]; intros done_ cur l fuel Hsix Hcur Hdone Hne Hfuel.
  { exfalso. apply Hne. apply (f_equal last) in Hsix. rewrite last_snoc in Hsix. by injection Hsix. }
  destruct fuel as [|fuel]; [simpl in Hfuel; lia|]. simpl.
  assert (Hnext : load_phase_next cur = Some p).
  { assert (H : forall d : list LoadPhase, six_phases = d ++ cur :: p :: todo -> load_phase_next cur = Some p).
    { clear. intros d H. unfold six_phases in H.
      repeat (destruct d as [|? d]; simplify_eq/=; try done). }
    by eapply H. }
  assert (Hni : cur ∉ done_).
  { assert (Hnd : NoDup six_phases) by (apply (bool_decide_unpack _); exact I).
    rewrite Hsix in Hnd. apply NoDup_app in Hnd as (_ & Hnd & _). intros Hin. apply (Hnd cur Hin). left. }
  unfold load_advance, load_is_completed. rewrite Hcur, Hnext. simpl. rewrite Hdone.
  rewrite bool_decide_false by done.
  set (l1 := with_progress l (Some p) (done_ ++ [cur])).
  destruct (Hk l1 p) as [Hc Hd]. destruct (runner l1 p) as [l2 [[]|e]] eqn:Er; simpl in Hc, Hd.
  2: { exists p, l1. split; [left|by rewrite Er]. }
  case_bool_decide as Hstart.
  - rewrite Hc in Hstart. simpl in Hstart. injection Hstart as ->. unfold load_finish, load_is_completed. rewrite Hc, Hd. simpl.
    split; [done|]. assert (todo = []) as ->.
    { destruct todo; [done|]. exfalso. clear -Hsix. unfold six_phases in Hsix.
      repeat (destruct done_ as [|? done_]; simplify_eq/=). }
    case_bool_decide as Hin; simpl; [|by rewrite Hsix, <- app_assoc].
    exfalso. assert (Hnd : NoDup six_phases) by (apply (bool_decide_unpack _); exact I).
    rewrite Hsix in Hnd. change (done_ ++ [cur; SimulationStart]) with (done_ ++ [cur] ++ [SimulationStart]) in Hnd.
    rewrite app_assoc in Hnd. apply NoDup_app in Hnd as (_ & Hnd & _). apply (Hnd _ Hin). left.
  - assert (Hp : p <> SimulationStart) by (intros ->; by apply Hstart).
    specialize (IH (done_ ++ [cur]) p l2 fuel). destruct (coordinator_run runner fuel l2) as [[l'|e]|].
    + apply IH; [by rewrite <- app_assoc|done|done|done|simpl in Hfuel; lia].
    + destruct IH as (q & l0 & Hq & ?); [by rewrite <- app_assoc|done|done|done|simpl in Hfuel; lia|].
      exists q, l0. split; [by right|done].
    + apply IH; [by rewrite <- app_assoc|done|done|done|simpl in Hfuel; lia].
Qed.

(** A load driven by a runner that leaves the progress to the driver ends within six steps: either
    all six phases completed in order, or the error is one the runner gave for one of them. *)
Theorem lifecycle_runs_six_phases
    (runner : LoadLifecycle -> LoadPhase -> LoadLifecycle * ContentResult unit) (fuel : nat) :
  keeps_progress runner -> (6 <= fuel)%nat ->
  match coordinator_run runner fuel load_new with
  | Some (Ok l) => ll_current l = None /\ ll_completed l = six_phases /\ load_is_finished l = true
  | Some (Err e) => exists p l0, p ∈ six_phases /\ (runner l0 p).2 = Err e
  | None => False
  end.
Proof.
  intros Hk Hf. destruct fuel as [|fuel]; [lia|]. simpl. set (l1 := with_progress load_new _ _).
  destruct (Hk l1 SnapshotDeserialize) as [Hc Hd].
  destruct (runner l1 SnapshotDeserialize) as [l2 [[]|e]] eqn:Er; simpl in Hc, Hd.
  2: { exists SnapshotDeserialize, l1. split; [left|by rewrite Er]. }
  rewrite bool_decide_false by (rewrite Hc; done).
  pose proof (coordinator_run_from runner Hk [ModCoordination; SchemaMigration; ContentCompilation;
    SchemaFreeze; SimulationStart] [] SnapshotDeserialize l2 fuel eq_refl Hc Hd) as H.
  destruct (coordinator_run runner fuel l2) as [[l|e]|].
  - destruct H as [H1 H2]; [done|simpl; lia|]. split; [done|]. split; [done|].
    unfold load_is_finished. by rewrite H2.
  - destruct H as (p & l0 & Hp & He); [done|simpl; lia|]. exists p, l0. split; [by right|done].
  - apply H; [done|simpl; lia].
Qed.

Lemma lifecycle_runs_six_phases_witness :
  match coordinator_run (fun l p => (load_set_frozen l true, Ok tt)) 6 load_new with
  | Some (Ok l) => ll_completed l = six_phases
  | _ => False
  end.
Proof.
  pose proof (lifecycle_runs_six_phases (fun l p => (load_set_frozen l true, Ok tt)) 6
    (fun l p => conj eq_refl eq_refl) (le_n 6)) as H.
  destruct (coordinator_run _ _ _) as [[l|e]|] eqn:E.
  - apply H.
  - vm_compute in E. discriminate E.
  - exact H.
Defined.
