(* ===== verification/RuleCore.v ===== *)
(** * RuleCore: errors, modifiers and scopes of the rule interpreter ([scharnhorst_rules])

    Models [error.rs] (with the errors it carries from [scharnhorst_query] and
    [scharnhorst_arrow_store]), [modifier.rs] and [scope.rs]. An error a wrapper carries as text is
    its text; the others keep their constructors, prefixed where two enumerations share a name. *)

From Stdlib Require Import Ascii String.
From stdpp Require Import base gmap strings list fin_maps.
From Stdlib Require Import ZArith Lia.
From S2P Require Import Prelude RustStr CoreTypes FixedPoint SchemaTables Relations Journal.

(** ** Errors *)

Inductive ArrowStoreError :=
| ATableNotFound (name : string)
| ATableAlreadyExists (name : string)
| APartitionNotFound (name : string)
| ASnapshotNotFound (tick : Z)
| ATickNotFound (table : string) (tick : Z)
| AIndexNotFound (name : string)
| ADuplicateRowId (table : string) (row_id : Z)
| APrimaryKeyViolation (table key : string)
| AForeignKeyViolation (table key : string)
| AInvalidMutationMode (name : string)
| ASchema (msg : string)
| AArrow (msg : string)
| AIo (msg : string)
| ALockPoisoned (msg : string)
| ALifecycle (msg : string)
| AUnimplemented (msg : string)
| ATypeMismatch (column expected got : string)
| AGeneric (msg : string).

Inductive QueryError :=
| QTableNotFound (name : string)
| QColumnNotFound (column table : string)
| QTypeMismatch (column expected got : string)
| QSnapshotNotAvailable (tick : Z)
| QSchemaRegistry (msg : string)
| QArrow (msg : string)
| QDataFusion (msg : string)
| QSql (msg : string)
| QSqlNotAllowed (msg : string)
| QUnifiedRead (msg : string)
| QInspector (msg : string)
| QRelationNotFound (key : string)
| QTicksMismatch (requested : Tick) (actual : option Tick)
| QInvalidQuery (msg : string)
| QIndexOutOfBounds (i : Z)
| QUnsupportedOperation (msg : string)
| QSqlWrite (msg : string)
| QCore (e : CoreError)
| QSchema (e : SchemaError)
| QArrowStore (e : ArrowStoreError).

Abbreviation QueryResult := (result QueryError).

Inductive RuleError :=
| REvaluation (msg : string)
| RScope (msg : string)
| RUnknownRelation (msg : string)
| RUnknownVariable (name : string)
| RTypeMismatch (expected got : string)
| RCache (msg : string)
| RQueryEngine (msg : string)
| RJournalWrapper (msg : string)
| RModifier (msg : string)
| RUnsupportedOperation (msg : string)
| RGeneric (msg : string)
| RCore (e : CoreError)
| RSchema (e : SchemaError)
| RQuery (e : QueryError)
| RJournal (e : JournalError).

Abbreviation RuleResult := (result RuleError).

(** ** Modifiers *)

Inductive ModifierOp := ModAdd | ModMul | ModOverride.

#[export] Instance ModifierOp_eq_dec : EqDecision ModifierOp.
Proof. solve_decision. Defined.

Record Modifier := mkModifier {
  mod_target_table : string; mod_target_column : string;
  mod_op : ModifierOp; mod_value : FixedPoint }.

Definition modifier_new (table column : string) (op : ModifierOp) (value : FixedPoint) : Modifier :=
  mkModifier table column op value.

Definition modifier_apply (m : Modifier) (base : FixedPoint) : RuleResult FixedPoint :=
  match mod_op m with
  | ModAdd =>
      let? value := map_err RCore (fp_rescale (mod_value m) (fp_scale base)) in
      map_err RCore (fp_add base value)
  | ModMul =>
      let? value := map_err RCore (fp_rescale (mod_value m) (fp_scale base)) in
      map_err RCore (fp_mul base value)
  | ModOverride => Ok (mod_value m)
  end.

Record ModifierRegistry := mkModifiers { mods_entries : gmap (string * string) (list Modifier) }.

Definition modifiers_new : ModifierRegistry := mkModifiers ∅.

Definition modifiers_register (r : ModifierRegistry) (m : Modifier) : ModifierRegistry :=
  let key := (mod_target_table m, mod_target_column m) in
  mkModifiers (<[key := default [] (mods_entries r !! key) ++ [m]]> (mods_entries r)).

Definition modifiers_clear_field (r : ModifierRegistry) (table column : string) : ModifierRegistry :=
  mkModifiers (delete (table, column) (mods_entries r)).

Definition modifiers_for (r : ModifierRegistry) (table column : string) : option (list Modifier) :=
  mods_entries r !! (table, column).

(** The fold that deals the modifiers into three vectors. *)
Definition deal_modifier (acc : list Modifier * list Modifier * list Modifier) (m : Modifier)
  : list Modifier * list Modifier * list Modifier :=
  let '(a, mu, o) := acc in
  match mod_op m with
  | ModAdd => (a ++ [m], mu, o)
  | ModMul => (a, mu ++ [m], o)
  | ModOverride => (a, mu, o ++ [m])
  end.

Definition apply_all (base : FixedPoint) (ms : list Modifier) : RuleResult FixedPoint :=
  try_fold (fun acc m => modifier_apply m acc) base ms.

Definition modifiers_aggregate (r : ModifierRegistry) (table column : string) (base : FixedPoint)
  : RuleResult FixedPoint :=
  let mods := default [] (modifiers_for r table column) in
  let '(adds, muls, overrides) := List.fold_left deal_modifier mods ([], [], []) in
  let? after_add := apply_all base adds in
  let? after_mul := apply_all after_add muls in
  match last overrides with
  | None => Ok after_mul
  | Some m => modifier_apply m after_mul
  end.

Definition modifiers_len (r : ModifierRegistry) : nat := map_weight length (mods_entries r).
Definition modifiers_is_empty (r : ModifierRegistry) : bool := bool_decide (mods_entries r = ∅).

(** ** Scopes *)

Inductive JumpDirection := Forward | Reverse.

#[export] Instance JumpDirection_eq_dec : EqDecision JumpDirection.
Proof. solve_decision. Defined.

Record ScopeJump := mkJump { jump_relation : string; jump_direction : JumpDirection }.
Record ScopeFrame := mkFrame {
  frame_table : string; frame_row : RowId; frame_jump : option ScopeJump }.
(** The stack's top is the head of the list. *)
Record Scope := mkScope { sc_table : string; sc_row : RowId; sc_stack : list ScopeFrame }.

Definition jump_forward (relation : string) : ScopeJump := mkJump relation Forward.
Definition jump_reverse (relation : string) : ScopeJump := mkJump relation Reverse.

Definition scope_new (table : string) (row : RowId) : Scope := mkScope table row [].
Definition scope_stack_depth (s : Scope) : nat := length (sc_stack s).

Definition scope_push (s : Scope) (table : string) (row : RowId) (jump : option ScopeJump) : Scope :=
  mkScope table row (mkFrame (sc_table s) (sc_row s) jump :: sc_stack s).

Definition scope_pop (s : Scope) : RuleResult Scope :=
  match sc_stack s with
  | [] => Err (RScope "scope stack underflow")
  | f :: stack => Ok (mkScope (frame_table f) (frame_row f) stack)
  end.

Definition edge_key (e : RelationEdge) : string := edge_from e +:+ " -> " +:+ edge_to e.

Definition jump_target (e : RelationEdge) (d : JumpDirection) : string :=
  match d with Forward => edge_to e | Reverse => edge_from e end.

Definition scope_apply_jump (s : Scope) (e : RelationEdge) (d : JumpDirection) (target_row : RowId)
  : RuleResult Scope :=
  Ok (scope_push s (jump_target e d) target_row (Some (mkJump (edge_key e) d))).

(** Bottom to top. *)
Definition scope_chain (s : Scope) : list (string * RowId) :=
  rev ((fun f => (frame_table f, frame_row f)) <$> sc_stack s) ++ [(sc_table s, sc_row s)].

Definition scope_reset (s : Scope) (table : string) (row : RowId) : Scope := mkScope table row [].

(** ** Aggregation *)

Definition is_op (op : ModifierOp) (m : Modifier) : bool := bool_decide (mod_op m = op).
Definition targets (table column : string) (m : Modifier) : bool :=
  bool_decide ((mod_target_table m, mod_target_column m) = (table, column)).

(** What a sequence of registrations holds of one kind for one field. *)
Definition field_modifiers (ms : list Modifier) (table column : string) (op : ModifierOp)
  : list Modifier := List.filter (is_op op) (List.filter (targets table column) ms).

Definition register_all (ms : list Modifier) : ModifierRegistry :=
  List.fold_left modifiers_register ms modifiers_new.

Lemma deal_modifiers ms a mu o :
  List.fold_left deal_modifier ms (a, mu, o)
  = (a ++ List.filter (is_op ModAdd) ms, mu ++ List.filter (is_op ModMul) ms,
     o ++ List.filter (is_op ModOverride) ms).
Proof.
  revert a mu o. induction ms as [|m ms IH]; intros a mu o; simpl; [by rewrite !app_nil_r|].
  unfold is_op in *. destruct (mod_op m); simpl; rewrite IH; simpl; by rewrite <- ?app_assoc.
Qed.

Lemma register_fold_for ms table column l r :
  default [] (modifiers_for r table column) = l ->
  default [] (modifiers_for (List.fold_left modifiers_register ms r) table column)
  = l ++ List.filter (targets table column) ms.
Proof.
  revert l r. induction ms as [|m ms IH]; intros l r H; simpl; [by rewrite app_nil_r|].
  destruct (targets table column m) eqn:Hm; unfold targets in Hm.
  - apply bool_decide_eq_true in Hm. rewrite (IH (l ++ [m])), <- app_assoc; [done|].
    unfold modifiers_for, modifiers_register in *. simpl. rewrite Hm, lookup_insert_eq. simpl.
    by rewrite H.
  - apply bool_decide_eq_false in Hm. apply IH. unfold modifiers_for, modifiers_register in *.
    simpl. by rewrite lookup_insert_ne.
Qed.

Lemma register_all_for ms table column :
  default [] (modifiers_for (register_all ms) table column)
  = List.filter (targets table column) ms.
Proof. unfold register_all. by rewrite (register_fold_for ms table column [] modifiers_new). Qed.

Lemma aggregate_pipeline ms table column base :
  modifiers_aggregate (register_all ms) table column base
  = let? after_add := apply_all base (field_modifiers ms table column ModAdd) in
    let? after_mul := apply_all after_add (field_modifiers ms table column ModMul) in
    match last (field_modifiers ms table column ModOverride) with
    | None => Ok after_mul
    | Some m => modifier_apply m after_mul
    end.
Proof. unfold modifiers_aggregate. by rewrite register_all_for, deal_modifiers. Qed.

(** The effective value of a field depends only on the modifiers registered for that field, kind
    by kind: how registrations of different kinds, or of other fields, are interleaved makes no
    difference; and when nothing overflows the last override decides. *)
Theorem aggregate_by_kind (ms1 ms2 : list Modifier) (table column : string) (base : FixedPoint) :
  (forall op, field_modifiers ms1 table column op = field_modifiers ms2 table column op) ->
  modifiers_aggregate (register_all ms1) table column base
    = modifiers_aggregate (register_all ms2) table column base
  /\ match last (field_modifiers ms1 table column ModOverride),
           modifiers_aggregate (register_all ms1) table column base with
     | Some o, Ok v => v = mod_value o
     | _, _ => True
     end.
Proof.
  intros H. rewrite !aggregate_pipeline, !H. split; [done|].
  destruct (last (field_modifiers ms2 table column ModOverride)) as [o|] eqn:Hl; [|done].
  destruct (apply_all base _) as [a|]; simpl; [|done]. destruct (apply_all a _); simpl; [|done].
  apply last_Some in Hl as [l Hl]. assert (Ho : mod_op o = ModOverride).
  { assert (Hin : o ∈ field_modifiers ms2 table column ModOverride) by (rewrite Hl; set_solver).
    unfold field_modifiers in Hin. apply list_elem_of_Filter in Hin as [_ Hin].
    by apply bool_decide_eq_true in Hin. }
  unfold modifier_apply. by rewrite Ho.
Qed.

Definition tax (op : ModifierOp) (raw : Z) : Modifier := modifier_new "actor" "tax" op (fp_new raw 2).

Lemma aggregate_by_kind_witness :
  modifiers_aggregate (register_all [tax ModMul 50; tax ModAdd 1000]) "actor" "tax" (fp_new 10000 2)
    = Ok (fp_new 5500 2)
  /\ modifiers_aggregate (register_all [tax ModMul 50; tax ModAdd 1000]) "actor" "tax" (fp_new 10000 2)
     = modifiers_aggregate (register_all [tax ModAdd 1000; modifier_new "a" "b" ModAdd (fp_new 1 0);
         tax ModMul 50]) "actor" "tax" (fp_new 10000 2).
Proof. split; [reflexivity|]. apply aggregate_by_kind. intros []; reflexivity. Defined.

(** What a modifier contributes at a scale, and the sum of a list of them. *)
Definition rescaled_raw (scale : Z) (m : Modifier) : Z :=
  match fp_rescale (mod_value m) scale with Ok v => fp_raw v | Err _ => 0 end.
Definition total_raw (scale : Z) (ms : list Modifier) : Z :=
  foldr (fun m acc => rescaled_raw scale m + acc) 0 ms.

Definition only_adds (ms : list Modifier) : Prop := Forall (fun m => mod_op m = ModAdd) ms.

Lemma total_raw_perm scale ms ms' : ms ≡ₚ ms' -> total_raw scale ms = total_raw scale ms'.
Proof. unfold total_raw. induction 1; simpl; lia. Qed.

Lemma Filter_perm {A} (f : A -> bool) l l' : l ≡ₚ l' -> List.filter f l ≡ₚ List.filter f l'.
Proof.
  induction 1; simpl; repeat case_match; try done;
    [by constructor|apply perm_swap|by etrans].
Qed.

Lemma apply_adds_exact ms base r :
  only_adds ms -> apply_all base ms = Ok r ->
  r = fp_new (fp_raw base + total_raw (fp_scale base) ms) (fp_scale base)
  /\ Forall (fun m => is_ok (fp_rescale (mod_value m) (fp_scale base)) = true) ms.
Proof.
  intros Hms. revert base. induction Hms as [|m ms Hm Hms IH]; intros base.
  { intros [= ->]. simpl. rewrite Z.add_0_r. by destruct r. }
  change (apply_all base (m :: ms)) with (let? b := modifier_apply m base in apply_all b ms).
  unfold modifier_apply. simpl. unfold rescaled_raw. rewrite Hm.
  destruct (fp_rescale (mod_value m) (fp_scale base)) as [v|] eqn:Hv; simpl; [|done].
  destruct (fp_add base v) as [b|] eqn:Hb; simpl; [|done].
  apply fp_add_ok in Hb as (_ & _ & ->).
  intros H. apply IH in H as [-> Hok]. simpl in *. split; [f_equal; lia|].
  constructor; [by rewrite Hv|done].
Qed.

Lemma only_adds_filter f ms : only_adds ms -> only_adds (List.filter f ms).
Proof.
  unfold only_adds. rewrite !Forall_forall. intros H m Hm. apply H.
  by apply list_elem_of_Filter in Hm as [? _].
Qed.

Lemma only_adds_kinds ms :
  only_adds ms ->
  List.filter (is_op ModAdd) ms = ms /\ List.filter (is_op ModMul) ms = []
  /\ List.filter (is_op ModOverride) ms = [].
Proof.
  unfold is_op. induction 1 as [|m l Hm Hf (IH1 & IH2 & IH3)]; simpl; [done|].
  rewrite Hm. simpl. by rewrite IH1, IH2, IH3.
Qed.

Lemma aggregate_adds_ok ms table column base r :
  only_adds ms -> modifiers_aggregate (register_all ms) table column base = Ok r ->
  r = fp_new (fp_raw base + total_raw (fp_scale base) (List.filter (targets table column) ms))
        (fp_scale base)
  /\ Forall (fun m => is_ok (fp_rescale (mod_value m) (fp_scale base)) = true)
       (List.filter (targets table column) ms).
Proof.
  intros Hms. rewrite aggregate_pipeline. unfold field_modifiers.
  pose proof (only_adds_filter (targets table column) ms Hms) as Hf.
  destruct (only_adds_kinds _ Hf) as (-> & -> & ->). simpl.
  destruct (apply_all base _) eqn:E; simpl; [|done]. intros [= <-]. by apply apply_adds_exact.
Qed.

(** Additive modifiers sum exactly: each is rounded once, to the scale of the base value, and the
    effective value is the base plus their sum, the same for any order of registration that does
    not overflow on the way. *)
Theorem aggregate_adds_exact (ms : list Modifier) (table column : string) (base r : FixedPoint) :
  only_adds ms ->
  modifiers_aggregate (register_all ms) table column base = Ok r ->
  r = fp_new (fp_raw base + total_raw (fp_scale base) (List.filter (targets table column) ms))
        (fp_scale base)
  /\ Forall (fun m => is_ok (fp_rescale (mod_value m) (fp_scale base)) = true)
       (List.filter (targets table column) ms)
  /\ (forall ms' r', ms' ≡ₚ ms ->
        modifiers_aggregate (register_all ms') table column base = Ok r' -> r' = r).
Proof.
  intros Hms Hr. destruct (aggregate_adds_ok _ _ _ _ _ Hms Hr) as [Hv Hok].
  split; [done|]. split; [done|]. intros ms' r' Hp Hr'.
  apply aggregate_adds_ok in Hr' as [-> _]; [|unfold only_adds; by rewrite Hp].
  rewrite Hv. f_equal. f_equal. by apply total_raw_perm, Filter_perm.
Qed.

Lemma aggregate_adds_exact_witness :
  modifiers_aggregate (register_all [tax ModAdd 1050; tax ModAdd (-25)]) "actor" "tax" (fp_new 100 1)
    = Ok (fp_new 203 1)
  /\ forall r, modifiers_aggregate (register_all [tax ModAdd (-25); tax ModAdd 1050]) "actor" "tax"
       (fp_new 100 1) = Ok r -> r = fp_new 203 1.
Proof.
  split; [reflexivity|]. intros r Hr.
  destruct (aggregate_adds_exact [tax ModAdd 1050; tax ModAdd (-25)] "actor" "tax" (fp_new 100 1)
    (fp_new 203 1)) as (_ & _ & H); [by repeat constructor|reflexivity|].
  apply (H [tax ModAdd (-25); tax ModAdd 1050] r); [apply perm_swap|done].
Defined.

(** A multiplicative modifier is rounded to the scale of the base value before it multiplies: on
    an integer column (scale 0) a factor strictly between one half and three halves, such as the
    [1.1] of a ten per cent bonus, is 1 and leaves the value as it was. *)
Theorem mul_modifier_lost_on_integers (table column : string) (m : Modifier) (n : Z) :
  i64 n -> fp_wf (mod_value m) -> mod_op m = ModMul ->
  (mod_target_table m, mod_target_column m) = (table, column) ->
  1 <= fp_scale (mod_value m) <= 18 ->
  10 ^ fp_scale (mod_value m) < 2 * fp_raw (mod_value m) < 3 * 10 ^ fp_scale (mod_value m) ->
  modifiers_aggregate (register_all [m]) table column (fp_new n 0) = Ok (fp_new n 0).
Proof.
  intros Hn Hwf Hop Ht Hs Hv. rewrite aggregate_pipeline.
  assert (Hk : forall op, field_modifiers [m] table column op = if decide (op = ModMul) then [m] else []).
  { intros op. unfold field_modifiers. simpl. unfold targets, is_op.
    rewrite bool_decide_eq_true_2 by done. simpl. rewrite Hop. by destruct op. }
  rewrite !Hk. unfold apply_all. simpl. unfold modifier_apply. rewrite Hop. simpl.
  set (v := mod_value m) in *. rewrite (fp_rescale_spec v 0 Hwf) by lia.
  destruct (Z.eqb_spec 0 (fp_scale v)); [lia|].
  destruct (Z.ltb_spec 18 (Z.abs (0 - fp_scale v))); [lia|].
  destruct (Z.ltb_spec (fp_scale v) 0); [lia|]. rewrite Z.sub_0_r.
  assert (Hr : round_half_even (fp_raw v) (10 ^ fp_scale v) = 1).
  { unfold round_half_even. pose proof (pow10_pos (fp_scale v)).
    pose proof (Z.div_mod (fp_raw v) (10 ^ fp_scale v)) as Hd.
    pose proof (Z.mod_pos_bound (fp_raw v) (10 ^ fp_scale v)) as Hm.
    set (d := 10 ^ fp_scale v) in *. set (q := fp_raw v / d) in *. set (r := fp_raw v mod d) in *.
    specialize (Hd ltac:(lia)). specialize (Hm ltac:(lia)).
    assert (q = 0 \/ q = 1) as [Hq|Hq] by nia; rewrite Hq in *; simpl;
      destruct (Z.compare_spec (2 * r) d); lia. }
  rewrite Hr. unfold fp_mul. simpl. rewrite Z.mul_1_r.
  unfold checked_i64 at 1. rewrite checked_in by done. simpl.
  change (checked_pow10_i64 0) with (Some 1). simpl.
  unfold checked_div_i64. simpl. rewrite Z.quot_1_r. unfold checked_i64. by rewrite checked_in.
Qed.

Lemma mul_modifier_lost_on_integers_witness :
  modifiers_aggregate (register_all [tax ModMul 110]) "actor" "tax" (fp_new 500 0)
    = Ok (fp_new 500 0).
Proof.
  apply (mul_modifier_lost_on_integers "actor" "tax" (tax ModMul 110) 500);
    by_eval.
Defined.

(** ** Scopes *)

Definition jump := (RelationEdge * JumpDirection * RowId)%type.
Definition follow (s : Scope) (j : jump) : RuleResult Scope :=
  let '(e, d, row) := j in scope_apply_jump s e d row.
Fixpoint pop_times (n : nat) (s : Scope) : RuleResult Scope :=
  match n with
  | O => Ok s
  | S n' => let? s' := scope_pop s in pop_times n' s'
  end.

Lemma follow_chain s j s' :
  follow s j = Ok s' ->
  scope_chain s' = scope_chain s ++ [(jump_target j.1.1 j.1.2, j.2)] /\ scope_pop s' = Ok s.
Proof.
  destruct j as [[e d] row]. intros [= <-]. split; [|by destruct s].
  done.
Qed.

Lemma pop_times_S n s s1 s2 :
  pop_times n s = Ok s1 -> scope_pop s1 = Ok s2 -> pop_times (S n) s = Ok s2.
Proof.
  revert s. induction n as [|n IH]; intros s H1 H2; simpl in *.
  - injection H1 as ->. by rewrite H2.
  - destruct (scope_pop s) as [s'|]; [|done]. apply (IH s' H1 H2).
Qed.

(** Jumps and pops are balanced: following any jumps always succeeds and extends the chain by
    their targets, as many pops come back to the scope they left, and one pop more does what it
    would have done there (from a root scope, the underflow error). *)
Theorem scope_jumps_balanced (s : Scope) (jumps : list jump) :
  exists s', try_fold follow s jumps = Ok s'
  /\ scope_chain s' = scope_chain s ++ ((fun j => (jump_target j.1.1 j.1.2, j.2)) <$> jumps)
  /\ scope_stack_depth s' = (scope_stack_depth s + length jumps)%nat
  /\ pop_times (length jumps) s' = Ok s
  /\ pop_times (S (length jumps)) s' = scope_pop s.
Proof.
  revert s. induction jumps as [|j jumps IH]; intros s.
  { exists s. simpl. rewrite app_nil_r, Nat.add_0_r. split_and!; try done. by destruct (scope_pop s). }
  destruct (follow s j) as [s1|] eqn:Hj; [|by destruct j as [[]]].
  destruct (IH s1) as (s' & Hf & Hc & Hd & Hp & Hp1). exists s'.
  destruct (follow_chain _ _ _ Hj) as [Hc1 Hp2].
  assert (Hback : pop_times (S (length jumps)) s' = Ok s) by by rewrite Hp1.
  split_and!.
  - simpl. by rewrite Hj.
  - rewrite Hc, Hc1. simpl. by rewrite <- app_assoc.
  - rewrite Hd. destruct j as [[e d] row]. injection Hj as <-. unfold scope_stack_depth. simpl. lia.
  - exact Hback.
  - destruct (scope_pop s) as [s2|e] eqn:E; [by eapply pop_times_S|].
    clear -Hback E. revert Hback. simpl length. generalize (S (length jumps)). revert s'.
    intros s' n. revert s'. induction n as [|n IH]; intros s' H; simpl in *.
    + injection H as ->. by rewrite E.
    + destruct (scope_pop s') as [s1|] eqn:E1; [|done]. apply (IH s1 H).
Qed.
