(* ===== verification/RuleCache.v ===== *)
(** * RuleCache: the prefetch cache of the rule interpreter

    Models [cache.rs]. A cached row's view is of the parameter type [View] (an [Arc] shared by the
    rows of one table, compared by value here). The order in which the hash table yields its
    entries is the argument [order]: [min_by_key] takes the first least entry in it, [find] the
    first that fits. The second part refines the cache into a
    list of rows, the newest access first, and that list, where the code's eviction is in order, into
    the textbook LRU list. *)

From Stdlib Require Import Ascii String.
From stdpp Require Import base gmap strings list fin_maps sorting.
From Stdlib Require Import ZArith Lia Sorted.
From S2P Require Import Prelude RustStr CoreTypes RuleCore.

Abbreviation CacheKey := (string * Z)%type.

Definition cache_key (table : string) (row_id : RowId) : CacheKey := (table, row_id_as_u64 row_id).

Section cache.
Context {View : Type}.

Record CachedRow := mkCachedRow {
  cached_tick : Tick; cached_table : string; cached_row_id : RowId; cached_view : View }.
Record CacheEntry := mkEntry { ce_row : CachedRow; ce_last_access : Z }.

Record PrefetchCache := mkCache {
  pc_capacity : nat; pc_entries : gmap CacheKey CacheEntry; pc_current_tick : Tick;
  pc_access_counter : Z; pc_dirty : bool }.

Definition CACHE_DEFAULT_CAPACITY : nat := Z.to_nat 1024.

Definition cache_new (capacity : nat) : PrefetchCache := mkCache capacity ∅ tick_ZERO 0 false.
Definition cache_with_tick (c : PrefetchCache) (tick : Tick) : PrefetchCache :=
  mkCache (pc_capacity c) (pc_entries c) tick (pc_access_counter c) (pc_dirty c).
Definition cache_with_entries (c : PrefetchCache) entries : PrefetchCache :=
  mkCache (pc_capacity c) entries (pc_current_tick c) (pc_access_counter c) (pc_dirty c).

(** [clear] also forgets the access counter and the dirty flag. *)
Definition cache_clear (c : PrefetchCache) : PrefetchCache :=
  mkCache (pc_capacity c) ∅ (pc_current_tick c) 0 false.

Definition cache_set_tick (c : PrefetchCache) (tick : Tick) : PrefetchCache :=
  if bool_decide (pc_current_tick c <> tick) then cache_with_tick (cache_clear c) tick else c.

Definition cache_len (c : PrefetchCache) : nat := size (pc_entries c).
Definition cache_is_empty (c : PrefetchCache) : bool := bool_decide (pc_entries c = ∅).

(** A hit moves the entry to the newest access. *)
Definition cache_get (c : PrefetchCache) (table : string) (row_id : RowId)
  : PrefetchCache * option CachedRow :=
  let key := cache_key table row_id in
  match pc_entries c !! key with
  | None => (c, None)
  | Some e =>
      let n := saturating_add_u64 (pc_access_counter c) 1 in
      (mkCache (pc_capacity c) (<[key := mkEntry (ce_row e) n]> (pc_entries c))
         (pc_current_tick c) n (pc_dirty c), Some (ce_row e))
  end.

Definition cache_mark_dirty (c : PrefetchCache) : PrefetchCache :=
  mkCache (pc_capacity c) (pc_entries c) (pc_current_tick c) (pc_access_counter c) true.
Definition cache_is_dirty (c : PrefetchCache) : bool := pc_dirty c.
(** [DerivedState::rebuild_from_authority] *)
Definition cache_rebuild_from_authority (c : PrefetchCache) (tick : Tick) : PrefetchCache :=
  cache_with_tick (cache_clear c) tick.

Context (order : gmap CacheKey CacheEntry -> list (CacheKey * CacheEntry)).

(** [iter().find(..)] *)
Definition cache_find_view (c : PrefetchCache) (table : string) (tick : Tick) : option View :=
  (fun ke => cached_view (ce_row ke.2)) <$>
    List.find (fun ke => bool_decide (cached_tick (ce_row ke.2) = tick)
                         && bool_decide (cached_table (ce_row ke.2) = table))
      (order (pc_entries c)).

(** [iter().min_by_key(..)]: the first of the least. *)
Fixpoint min_by_access (l : list (CacheKey * CacheEntry)) : option (CacheKey * CacheEntry) :=
  match l with
  | [] => None
  | x :: l' =>
      match min_by_access l' with
      | Some y => if ce_last_access y.2 <? ce_last_access x.2 then Some y else Some x
      | None => Some x
      end
  end.

Definition cache_evict_lru (c : PrefetchCache) : PrefetchCache :=
  match min_by_access (order (pc_entries c)) with
  | Some (key, _) => cache_with_entries c (delete key (pc_entries c))
  | None => c
  end.

Definition cache_insert (c : PrefetchCache) (row : CachedRow) : PrefetchCache * RuleResult unit :=
  let c := if (pc_capacity c <=? cache_len c)%nat then cache_evict_lru c else c in
  let key := cache_key (cached_table row) (cached_row_id row) in
  let n := saturating_add_u64 (pc_access_counter c) 1 in
  (mkCache (pc_capacity c) (<[key := mkEntry row n]> (pc_entries c)) (pc_current_tick c) n (pc_dirty c),
   Ok tt).

(** The loop of [prefetch], the view read. *)
Fixpoint prefetch_rows (c : PrefetchCache) (table : string) (view : View) (row_ids : list RowId)
  : PrefetchCache * RuleResult unit :=
  match row_ids with
  | [] => (c, Ok tt)
  | row_id :: row_ids' =>
      match pc_entries c !! cache_key table row_id with
      | Some _ => prefetch_rows c table view row_ids'
      | None =>
          match cache_insert c (mkCachedRow (pc_current_tick c) table row_id view) with
          | (c', Ok _) => prefetch_rows c' table view row_ids'
          | (c', Err e) => (c', Err e)
          end
      end
  end.

(** [source.read(request)] and [response.get(table)] are one argument: the view of a table at a
    tick, or the text of the error. *)
Definition cache_prefetch (read : Tick -> string -> result string View) (c : PrefetchCache)
    (table : string) (row_ids : list RowId) : PrefetchCache * RuleResult unit :=
  match read (pc_current_tick c) table with
  | Err e => (c, Err (RQueryEngine e))
  | Ok view => prefetch_rows c table view row_ids
  end.
End cache.
Arguments CachedRow : clear implicits.
Arguments CacheEntry : clear implicits.
Arguments PrefetchCache : clear implicits.

(** ** The specification: a list of rows, the newest access first, the oldest dropped *)

Section lru.
Context {View : Type}.
Abbreviation Row := (CachedRow View).
Abbreviation Entry := (CacheEntry View).
Abbreviation Cache := (PrefetchCache View).

Definition without {A} (k : CacheKey) (l : list (CacheKey * A)) : list (CacheKey * A) :=
  List.filter (fun kx => negb (bool_decide (kx.1 = k))) l.
Definition find_key {A} (k : CacheKey) (l : list (CacheKey * A)) : option A :=
  snd <$> List.find (fun kx => bool_decide (kx.1 = k)) l.

Definition lru_get (l : list (CacheKey * Row)) (k : CacheKey) : list (CacheKey * Row) * option Row :=
  match find_key k l with
  | Some r => ((k, r) :: without k l, Some r)
  | None => (l, None)
  end.
(** The textbook operation: the row goes to the front, and what exceeds the capacity falls off the end. *)
Definition lru_put (capacity : nat) (l : list (CacheKey * Row)) (k : CacheKey) (r : Row)
  : list (CacheKey * Row) := take capacity ((k, r) :: without k l).

(** What [insert] makes of the list: it makes room before it looks whether the key is there. *)
Definition evicting_put (capacity : nat) (l : list (CacheKey * Row)) (k : CacheKey) (r : Row)
  : list (CacheKey * Row) :=
  (k, r) :: without k (if (capacity <=? length l)%nat then removelast l else l).
Definition row_key (r : Row) : CacheKey := cache_key (cached_table r) (cached_row_id r).

Section prefetch.
Context (put : list (CacheKey * Row) -> CacheKey -> Row -> list (CacheKey * Row)).
Fixpoint list_prefetch (l : list (CacheKey * Row)) (tick : Tick) (table : string) (view : View) (row_ids : list RowId)
  : list (CacheKey * Row) :=
  match row_ids with
  | [] => l
  | id :: ids =>
      let l' := match find_key (cache_key table id) l with
                | Some _ => l
                | None => put l (cache_key table id) (mkCachedRow tick table id view)
                end in
      list_prefetch l' tick table view ids
  end.
End prefetch.

Inductive CacheOp :=
| CGet (table : string) (row_id : RowId)
| CInsert (r : Row)
| CPrefetch (table : string) (row_ids : list RowId)
| CSetTick (tick : Tick)
| CRebuild (tick : Tick)
| CClear
| CMarkDirty.

(** How many accesses an operation may count. *)
Definition op_accesses (op : CacheOp) : nat :=
  match op with CGet _ _ | CInsert _ => 1 | CPrefetch _ ids => length ids | _ => 0 end.

Context (order : gmap CacheKey Entry -> list (CacheKey * Entry)).
Context (read : Tick -> string -> result string View).

Definition cache_step (c : Cache) (op : CacheOp) : Cache * option Row :=
  match op with
  | CGet table id => cache_get c table id
  | CInsert r => ((cache_insert order c r).1, None)
  | CPrefetch table ids => ((cache_prefetch order read c table ids).1, None)
  | CSetTick tick => (cache_set_tick c tick, None)
  | CRebuild tick => (cache_rebuild_from_authority c tick, None)
  | CClear => (cache_clear c, None)
  | CMarkDirty => (cache_mark_dirty c, None)
  end.

(** A list of rows with the tick, over an operation that puts a row. *)
Definition list_step (put : list (CacheKey * Row) -> CacheKey -> Row -> list (CacheKey * Row))
    (s : Tick * list (CacheKey * Row)) (op : CacheOp) : (Tick * list (CacheKey * Row)) * option Row :=
  let '(tick, l) := s in
  match op with
  | CGet table id => let '(l', o) := lru_get l (cache_key table id) in ((tick, l'), o)
  | CInsert r => ((tick, put l (row_key r) r), None)
  | CPrefetch table ids =>
      ((tick, match read tick table with
              | Ok view => list_prefetch put l tick table view ids
              | Err _ => l
              end), None)
  | CSetTick tick' => ((tick', if bool_decide (tick <> tick') then [] else l), None)
  | CRebuild tick' => ((tick', []), None)
  | CClear => ((tick, []), None)
  | CMarkDirty => ((tick, l), None)
  end.
Definition lru_step (capacity : nat) := list_step (lru_put capacity).
Definition evicting_step (capacity : nat) := list_step (evicting_put capacity).

(** No row is inserted that the list holds already while it is full ([prefetch] skips such rows). *)
Definition op_fits (capacity : nat) (s : Tick * list (CacheKey * Row)) (op : CacheOp) : bool :=
  match op with
  | CInsert r => bool_decide (find_key (row_key r) s.2 = None) || (length s.2 <? capacity)%nat
  | _ => true
  end.
Fixpoint run_fits (capacity : nat) (s : Tick * list (CacheKey * Row)) (ops : list CacheOp) : bool :=
  match ops with
  | [] => true
  | op :: ops' => op_fits capacity s op && run_fits capacity (lru_step capacity s op).1 ops'
  end.

(** The results of a sequence of operations, with the state they leave. *)
Fixpoint run_ops {S A B} (step : S -> A -> S * B) (s : S) (ops : list A) : S * list B :=
  match ops with
  | [] => (s, [])
  | op :: ops' =>
      let '(s1, b) := step s op in
      let '(s2, bs) := run_ops step s1 ops' in (s2, b :: bs)
  end.

(** ** Refinement *)

Definition stamp (ke : CacheKey * Entry) : Z := ce_last_access ke.2.
Definition forget (ke : CacheKey * Entry) : CacheKey * Row := (ke.1, ce_row ke.2).

(** [L] is the content of the cache, the newest access first. *)
Record represents (entries : gmap CacheKey Entry) (counter : Z) (L : list (CacheKey * Entry)) : Prop := {
  rep_nodup : NoDup L.*1;
  rep_entries : entries = list_to_map L;
  rep_sorted : StronglySorted (fun x y => stamp y < stamp x) L;
  rep_bound : Forall (fun x => stamp x <= counter) L }.

Definition cache_rel (c : Cache) (l : list (CacheKey * Row)) : Prop :=
  exists L, represents (pc_entries c) (pc_access_counter c) L /\ forget <$> L = l.

Lemma elem_of_without {A} k (l : list (CacheKey * A)) x : x ∈ without k l <-> x ∈ l /\ x.1 <> k.
Proof.
  unfold without. rewrite list_elem_of_Filter, negb_true_iff, bool_decide_eq_false. done.
Qed.

Lemma without_NoDup {A} k (l : list (CacheKey * A)) : NoDup l.*1 -> NoDup (without k l).*1.
Proof.
  induction l as [|[k' x] l IH]; simpl; [done|]. intros [Hk Hl]%NoDup_cons.
  unfold without. simpl. case_bool_decide; simpl; [by apply IH|].
  constructor; [|by apply IH]. contradict Hk.
  apply list_elem_of_fmap in Hk as (y & Hy & Hin). apply elem_of_without in Hin as [Hin _].
  rewrite Hy. by apply list_elem_of_fmap_2.
Qed.

Lemma without_map {A} k (l : list (CacheKey * A)) :
  list_to_map (without k l) = delete k (list_to_map l : gmap CacheKey A).
Proof.
  induction l as [|[k' x] l IH]; simpl; [by rewrite delete_empty|].
  unfold without. simpl. case_bool_decide as Hk; simpl in *; subst.
  - rewrite delete_insert_eq. exact IH.
  - rewrite delete_insert_ne by done. by f_equal.
Qed.

Lemma without_sorted {A} (R : relation (CacheKey * A)) k l :
  StronglySorted R l -> StronglySorted R (without k l).
Proof.
  induction 1 as [|x l Hl IH Hx]; [constructor|]. unfold without. simpl.
  case_bool_decide; simpl; [done|]. constructor; [done|].
  rewrite Forall_forall in *. intros y Hy. apply Hx. by apply elem_of_without in Hy as [? _].
Qed.

Lemma without_forget k L : without k (forget <$> L) = forget <$> without k L.
Proof.
  induction L as [|x L IH]; [done|]. unfold without. simpl.
  case_bool_decide; simpl; [exact IH|f_equal; exact IH].
Qed.

Lemma find_key_forget k L : find_key k (forget <$> L) = ce_row <$> find_key k L.
Proof.
  induction L as [|x L IH]; [done|]. unfold find_key. simpl. case_bool_decide; [done|exact IH].
Qed.

Lemma find_key_map {A} k (l : list (CacheKey * A)) :
  find_key k l = (list_to_map l : gmap CacheKey A) !! k.
Proof.
  induction l as [|[k' x] l IH]; [done|]. unfold find_key. simpl.
  case_bool_decide; subst; simpl; [by rewrite lookup_insert_eq|].
  rewrite lookup_insert_ne by done. exact IH.
Qed.

(** A new access: [e] goes to the front with a stamp above the counter. *)
Lemma represents_access entries counter L k r :
  represents entries counter L ->
  represents (<[k := mkEntry r (counter + 1)]> entries) (counter + 1)
    ((k, mkEntry r (counter + 1)) :: without k L).
Proof.
  intros [Hnd -> Hs Hb]. split; simpl.
  - constructor; [|by apply without_NoDup]. intros Hin.
    apply list_elem_of_fmap in Hin as (y & Hy & Hin). by apply elem_of_without in Hin as [_ []].
  - by rewrite without_map, insert_delete_eq.
  - constructor; [by apply without_sorted|]. rewrite Forall_forall in *. intros y Hy.
    apply elem_of_without in Hy as [Hy _]. apply Hb in Hy. unfold stamp in *. simpl. lia.
  - constructor; [unfold stamp; simpl; lia|]. rewrite Forall_forall in *. intros y Hy.
    apply elem_of_without in Hy as [Hy _]. apply Hb in Hy. lia.
Qed.

Lemma represents_size entries counter L : represents entries counter L -> size entries = length L.
Proof.
  intros [Hnd -> _ _]. rewrite <- length_map_to_list. by rewrite map_to_list_to_map.
Qed.

Lemma min_by_access_spec (l : list (CacheKey * Entry)) :
  match min_by_access l with
  | Some y => y ∈ l /\ forall z, z ∈ l -> stamp y <= stamp z
  | None => l = []
  end.
Proof.
  induction l as [|x l IH]; simpl; [done|]. destruct (min_by_access l) as [y|].
  - destruct IH as [Hy Hmin]. unfold stamp in *.
    destruct (Z.ltb_spec (ce_last_access y.2) (ce_last_access x.2));
      (split; [set_solver|]); intros z [->|Hz]%elem_of_cons; try lia; specialize (Hmin z Hz); lia.
  - subst. split; [set_solver|]. intros z [->|Hz]%elem_of_cons; [lia|set_solver].
Qed.

Lemma without_not_in {A} k (l : list (CacheKey * A)) : k ∉ l.*1 -> without k l = l.
Proof.
  induction l as [|x l IH]; simpl; [done|]. intros Hk. unfold without. simpl.
  rewrite bool_decide_eq_false_2 by set_solver. simpl. f_equal. apply IH. set_solver.
Qed.

Lemma without_app {A} k (l1 l2 : list (CacheKey * A)) :
  without k (l1 ++ l2) = without k l1 ++ without k l2.
Proof. apply List.filter_app. Qed.

Hypothesis order_perm : forall m, order m ≡ₚ map_to_list m.

(** The victim is the last of the list, whatever order the table is searched in. *)
Lemma represents_evict entries counter L :
  represents entries counter L ->
  match min_by_access (order entries) with
  | Some (key, _) => represents (delete key entries) counter (removelast L)
  | None => L = []
  end.
Proof.
  intros [Hnd -> Hs Hb]. pose proof (min_by_access_spec (order (list_to_map L))) as H.
  assert (Hp : order (list_to_map L) ≡ₚ L) by by rewrite order_perm, map_to_list_to_map.
  destruct (min_by_access _) as [[key e]|].
  2: { apply Permutation_nil_r. by rewrite <- Hp, H. }
  destruct H as [Hin Hmin]. rewrite Hp in Hin. setoid_rewrite Hp in Hmin.
  induction L as [|x L _] using rev_ind; [set_solver|].
  rewrite removelast_last. apply StronglySorted_app in Hs as (Hlast & Hs & _).
  rewrite fmap_app in Hnd. apply NoDup_app in Hnd as (Hnd & Hx & _). simpl in Hx.
  assert ((key, e) = x) as <-.
  { apply elem_of_app in Hin as [Hin|Hin]; [|set_solver].
    assert (Hx1 : x ∈ [x]) by set_solver. assert (Hx2 : x ∈ L ++ [x]) by set_solver.
    specialize (Hlast (key, e) x Hin Hx1). specialize (Hmin x Hx2). lia. }
  apply Forall_app in Hb as [Hb _]. split; try done.
  rewrite <- without_map, without_app, without_not_in.
  2: { intros Hk. apply (Hx _ Hk). simpl. set_solver. }
  unfold without. simpl. rewrite bool_decide_eq_true_2 by done. simpl. by rewrite app_nil_r.
Qed.

Lemma removelast_fmap {A B} (f : A -> B) l : removelast (f <$> l) = f <$> removelast l.
Proof.
  induction l as [|x l _] using rev_ind; [done|]. rewrite fmap_app. simpl.
  by rewrite !removelast_last.
Qed.

Lemma saturating_add_1 n : n + 1 <= u64_max -> saturating_add_u64 n 1 = n + 1.
Proof. unfold saturating_add_u64. lia. Qed.

Lemma cache_insert_rel c l r :
  cache_rel c l -> pc_access_counter c + 1 <= u64_max ->
  let c' := (cache_insert order c r).1 in
  cache_rel c' (evicting_put (pc_capacity c) l (row_key r) r)
  /\ pc_access_counter c' = pc_access_counter c + 1
  /\ pc_capacity c' = pc_capacity c /\ pc_current_tick c' = pc_current_tick c.
Proof.
  intros (L & HL & <-) Hn. unfold cache_insert. simpl.
  assert (He : exists L', represents (pc_entries (if (pc_capacity c <=? cache_len c)%nat
      then cache_evict_lru order c else c)) (pc_access_counter c) L'
    /\ forget <$> L' = (if (pc_capacity c <=? length (forget <$> L))%nat
        then removelast (forget <$> L) else forget <$> L)
    /\ pc_access_counter (if (pc_capacity c <=? cache_len c)%nat
         then cache_evict_lru order c else c) = pc_access_counter c
    /\ pc_capacity (if (pc_capacity c <=? cache_len c)%nat
         then cache_evict_lru order c else c) = pc_capacity c
    /\ pc_current_tick (if (pc_capacity c <=? cache_len c)%nat
         then cache_evict_lru order c else c) = pc_current_tick c).
  { rewrite length_fmap. unfold cache_len. rewrite (represents_size _ _ _ HL).
    destruct (_ <=? _)%nat; [|by exists L]. unfold cache_evict_lru.
    pose proof (represents_evict _ _ _ HL) as H. destruct (min_by_access _) as [[key e]|]; simpl.
    - exists (removelast L). by rewrite removelast_fmap.
    - subst. by exists []. }
  destruct He as (L' & HL' & Hf & -> & -> & ->). rewrite saturating_add_1 by done.
  split_and!; try done. exists ((row_key r, mkEntry r (pc_access_counter c + 1)) :: without (row_key r) L').
  split; [by apply represents_access|]. unfold evicting_put. simpl. by rewrite <- without_forget, Hf.
Qed.

Lemma cache_get_rel c l table id :
  cache_rel c l -> pc_access_counter c + 1 <= u64_max ->
  let c' := (cache_get c table id).1 in
  cache_rel c' (lru_get l (cache_key table id)).1
  /\ (cache_get c table id).2 = (lru_get l (cache_key table id)).2
  /\ pc_access_counter c <= pc_access_counter c' <= pc_access_counter c + 1
  /\ pc_capacity c' = pc_capacity c /\ pc_current_tick c' = pc_current_tick c.
Proof.
  intros (L & HL & <-) Hn. unfold cache_get, lru_get. rewrite find_key_forget, find_key_map.
  rewrite <- (rep_entries _ _ _ HL). destruct (pc_entries c !! _) as [e|]; simpl.
  - rewrite saturating_add_1 by done. split_and!; try done; try lia.
    exists ((cache_key table id, mkEntry (ce_row e) (pc_access_counter c + 1))
            :: without (cache_key table id) L).
    split; [by apply represents_access|]. simpl. by rewrite without_forget.
  - split_and!; try done; try lia. by exists L.
Qed.

Lemma prefetch_rows_cons c table view id ids :
  prefetch_rows order c table view (id :: ids)
  = match pc_entries c !! cache_key table id with
    | Some _ => prefetch_rows order c table view ids
    | None => prefetch_rows order
        (cache_insert order c (mkCachedRow (pc_current_tick c) table id view)).1 table view ids
    end.
Proof. reflexivity. Qed.

Lemma cache_prefetch_rel table view ids : forall c l,
  cache_rel c l -> pc_access_counter c + Z.of_nat (length ids) <= u64_max ->
  let c' := (prefetch_rows order c table view ids).1 in
  cache_rel c' (list_prefetch (evicting_put (pc_capacity c)) l (pc_current_tick c) table view ids)
  /\ pc_access_counter c <= pc_access_counter c' <= pc_access_counter c + Z.of_nat (length ids)
  /\ pc_capacity c' = pc_capacity c /\ pc_current_tick c' = pc_current_tick c.
Proof.
  induction ids as [|id ids IH]; intros c l Hc Hn; [simpl in *; by split_and!; try lia|].
  rewrite prefetch_rows_cons. cbn [list_prefetch length] in *. rewrite Nat2Z.inj_succ in *.
  assert (Hf : find_key (cache_key table id) l = ce_row <$> pc_entries c !! cache_key table id).
  { destruct Hc as (L & HL & <-). by rewrite find_key_forget, find_key_map, <- (rep_entries _ _ _ HL). }
  rewrite Hf. destruct (pc_entries c !! _) as [e|]; cbn [fmap option_fmap option_map].
  - destruct (IH c l Hc) as (H1 & H2 & H3 & H4); [lia|]. split_and!; done || lia.
  - destruct (cache_insert_rel c l (mkCachedRow (pc_current_tick c) table id view) Hc)
      as (H1 & H2 & H3 & H4); [lia|].
    destruct (cache_insert order c _) as [c1 r1]. cbn [fst] in *.
    destruct (IH c1 _ H1) as (G1 & G2 & G3 & G4); [lia|].
    rewrite H3, H4 in G1. rewrite G3, G4. split_and!; done || lia.
Qed.

Lemma without_length {A} k (l : list (CacheKey * A)) : (length (without k l) <= length l)%nat.
Proof. unfold without. induction l; simpl; [lia|]. case_bool_decide; simpl; lia. Qed.

Lemma without_found {A} k (l : list (CacheKey * A)) r :
  find_key k l = Some r -> (length (without k l) < length l)%nat.
Proof.
  induction l as [|x l IH]; [done|]. unfold find_key, without. simpl.
  case_bool_decide; simpl; intros H'; [pose proof (without_length k l); unfold without in *; lia|].
  apply IH in H'. unfold without in H'. lia.
Qed.

Lemma evicting_put_length capacity (l : list (CacheKey * Row)) k r :
  (length l <= Nat.max 1 capacity -> length (evicting_put capacity l k r) <= Nat.max 1 capacity)%nat.
Proof.
  intros Hl. unfold evicting_put. simpl.
  pose proof (without_length k (if (capacity <=? length l)%nat then removelast l else l)).
  destruct (Nat.leb_spec capacity (length l)); [|lia].
  induction l as [|x l _] using rev_ind; simpl in *; [lia|].
  rewrite removelast_last, length_app in *. simpl in *. lia.
Qed.

Lemma evicting_prefetch_length capacity tick table view ids (l : list (CacheKey * Row)) :
  (length l <= Nat.max 1 capacity ->
   length (list_prefetch (evicting_put capacity) l tick table view ids) <= Nat.max 1 capacity)%nat.
Proof.
  revert l. induction ids as [|id ids IH]; intros l Hl; simpl; [done|]. apply IH.
  destruct (find_key _ _); [done|]. by apply evicting_put_length.
Qed.

(** What holds after each operation. *)
Record refines (capacity : nat) (c : Cache) (s : Tick * list (CacheKey * Row)) : Prop := {
  ref_rel : cache_rel c s.2;
  ref_tick : pc_current_tick c = s.1;
  ref_capacity : pc_capacity c = capacity;
  ref_length : (length s.2 <= Nat.max 1 capacity)%nat;
  ref_counter : 0 <= pc_access_counter c }.

Lemma cache_rel_empty capacity tick counter dirty : cache_rel (mkCache capacity ∅ tick counter dirty) [].
Proof. exists []. split; [|done]. split; try constructor. Qed.

Lemma cache_step_refines capacity c s op :
  refines capacity c s -> pc_access_counter c + Z.of_nat (op_accesses op) <= u64_max ->
  refines capacity (cache_step c op).1 (evicting_step capacity s op).1
  /\ (cache_step c op).2 = (evicting_step capacity s op).2
  /\ pc_access_counter (cache_step c op).1 <= pc_access_counter c + Z.of_nat (op_accesses op).
Proof.
  intros [Hr Ht Hc Hl Hn] Hb. destruct s as [tick l]. simpl in *. subst.
  unfold evicting_step. destruct op as [table id|r|table ids|t|t| |]; cbn [cache_step list_step fst snd op_accesses] in *.
  - destruct (cache_get_rel c l table id Hr Hb) as (H1 & H2 & H3 & H4 & H5).
    destruct (cache_get c table id) as [c' o'], (lru_get l _) as [l' o] eqn:El. simpl in *.
    split_and!; [split; simpl; try done|done|lia].
    + unfold lru_get in El. destruct (find_key _ l) eqn:Ef; simplify_eq; [|done].
      apply without_found in Ef. simpl. lia.
    + lia.
  - destruct (cache_insert_rel c l r Hr Hb) as (H1 & H2 & H3 & H4).
    destruct (cache_insert order c r) as [c' o]. cbn [fst snd] in *.
    split_and!; [split; cbn [fst snd]; try done|done|lia]; [by apply evicting_put_length|lia].
  - unfold cache_prefetch. destruct (read (pc_current_tick c) table) as [view|e]; simpl.
    + destruct (cache_prefetch_rel table view ids c l Hr Hb) as (H1 & H2 & H3 & H4).
      split_and!; [split; simpl; try done|done|lia]; [by apply evicting_prefetch_length|lia].
    + split_and!; [by split|done|lia].
  - unfold cache_set_tick. case_bool_decide; simpl.
    + split_and!; [split; simpl; try done; try lia|done|lia]. apply cache_rel_empty.
    + split_and!; [split; simpl; try done|done|lia].
  - unfold cache_rebuild_from_authority, cache_with_tick, cache_clear. simpl.
    split_and!; [split; simpl; try done; try lia|done|lia]. apply cache_rel_empty.
  - unfold cache_clear. simpl. split_and!; [split; simpl; try done; try lia|done|lia]. apply cache_rel_empty.
  - unfold cache_mark_dirty. simpl. split_and!; [by split|done|lia].
Qed.

Definition total_accesses (ops : list CacheOp) : nat := foldr (fun op n => (op_accesses op + n)%nat) O ops.

Lemma cache_run_refines capacity ops : forall c s,
  refines capacity c s -> pc_access_counter c + Z.of_nat (total_accesses ops) <= u64_max ->
  refines capacity (run_ops cache_step c ops).1 (run_ops (evicting_step capacity) s ops).1
  /\ (run_ops cache_step c ops).2 = (run_ops (evicting_step capacity) s ops).2.
Proof.
  induction ops as [|op ops IH]; intros c s H Hb; simpl in *; [done|].
  destruct (cache_step_refines _ _ _ op H) as (H1 & H2 & H3); [lia|].
  destruct (cache_step c op) as [c1 o1], (evicting_step capacity s op) as [s1 o2]. simpl in *. subst.
  destruct (IH c1 s1 H1) as [G1 G2]; [lia|].
  destruct (run_ops cache_step c1 ops), (run_ops (evicting_step capacity) s1 ops). simpl in *.
  by subst.
Qed.
(** *** Where inserting is the textbook operation *)

Lemma find_key_none {A} k (l : list (CacheKey * A)) : find_key k l = None -> k ∉ l.*1.
Proof.
  rewrite find_key_map. intros H Hin. by apply not_elem_of_list_to_map_2 in H.
Qed.

Lemma removelast_take {A} (l : list A) : removelast l = take (pred (length l)) l.
Proof.
  induction l as [|x l _] using rev_ind; [done|]. rewrite removelast_last, length_app. simpl.
  rewrite Nat.add_1_r. cbn [pred]. by rewrite take_app_length.
Qed.

Lemma evicting_put_lru capacity (l : list (CacheKey * Row)) k r :
  (1 <= capacity)%nat -> (length l <= capacity)%nat -> find_key k l = None \/ (length l < capacity)%nat ->
  evicting_put capacity l k r = lru_put capacity l k r.
Proof.
  intros Hc Hl Hfit. unfold evicting_put, lru_put. destruct (Nat.leb_spec capacity (length l)) as [Hfull|Hroom].
  - destruct Hfit as [Hk%find_key_none|]; [|lia]. assert (El : length l = capacity) by lia.
    destruct capacity as [|n]; [lia|]. cbn [take]. f_equal. rewrite removelast_take, El, (without_not_in k l) by done. cbn [pred].
    apply without_not_in. contradict Hk. apply list_elem_of_fmap in Hk as (y & -> & Hy%elem_of_take).
    destruct Hy as (i & Hi & _). apply list_elem_of_fmap_2. by eapply list_elem_of_lookup_2.
  - rewrite take_ge; [done|]. simpl. pose proof (without_length k l). lia.
Qed.

Lemma lru_put_length capacity (l : list (CacheKey * Row)) k r : (length (lru_put capacity l k r) <= capacity)%nat.
Proof. unfold lru_put. rewrite length_take. lia. Qed.

Lemma prefetch_lru capacity tick table view ids : forall l : list (CacheKey * Row),
  (1 <= capacity)%nat -> (length l <= capacity)%nat ->
  list_prefetch (evicting_put capacity) l tick table view ids = list_prefetch (lru_put capacity) l tick table view ids
  /\ (length (list_prefetch (lru_put capacity) l tick table view ids) <= capacity)%nat.
Proof.
  induction ids as [|id ids IH]; intros l Hc Hl; cbn [list_prefetch]; [done|].
  destruct (find_key (cache_key table id) l) eqn:E; [by apply IH|].
  rewrite evicting_put_lru by (done || by left). apply IH; [done|apply lru_put_length].
Qed.

Lemma run_lru capacity ops : forall s, (1 <= capacity)%nat -> (length s.2 <= capacity)%nat -> run_fits capacity s ops = true ->
  run_ops (evicting_step capacity) s ops = run_ops (lru_step capacity) s ops
  /\ (length (run_ops (lru_step capacity) s ops).1.2 <= capacity)%nat.
Proof.
  induction ops as [|op ops IH]; intros s Hc Hl Hfit; [done|]. cbn [run_ops run_fits] in *.
  apply andb_true_iff in Hfit as [Hop Hfit].
  assert (Hs : evicting_step capacity s op = lru_step capacity s op /\ (length (lru_step capacity s op).1.2 <= capacity)%nat).
  { destruct s as [tick l]. unfold evicting_step, lru_step. cbn [snd] in *.
    destruct op as [table id|r|table ids|t|t| |]; cbn [list_step fst snd] in *.
    - split; [done|]. unfold lru_get. destruct (find_key _ l) eqn:Ef; simpl; [|done]. apply without_found in Ef. lia.
    - cbn [op_fits snd] in Hop. apply orb_true_iff in Hop. rewrite bool_decide_eq_true, Nat.ltb_lt in Hop.
      rewrite evicting_put_lru by done. split; [done|apply lru_put_length].
    - destruct (read tick table) as [view|]; [|done]. destruct (prefetch_lru capacity tick table view ids l Hc Hl) as [-> H]. done.
    - split; [done|]. case_bool_decide; simpl; lia.
    - split; [done|]. simpl. lia.
    - split; [done|]. simpl. lia.
    - done. }
  destruct Hs as [-> Hlen]. destruct (lru_step capacity s op) as [s1 o]. cbn [fst] in *.
  destruct (IH s1 Hc Hlen Hfit) as [-> H]. by destruct (run_ops (lru_step capacity) s1 ops).
Qed.
End lru.

(** What the cache does in every case: a list that makes room before each insertion. *)
Lemma cache_refines_list {View} (order : gmap CacheKey (CacheEntry View) -> list (CacheKey * CacheEntry View))
    (read : Tick -> string -> result string View) (capacity : nat) (ops : list CacheOp) :
  (forall m, order m ≡ₚ map_to_list m) -> Z.of_nat (total_accesses ops) <= u64_max ->
  let '(c, answers) := run_ops (cache_step order read) (cache_new capacity) ops in
  let '(s, answers') := run_ops (evicting_step read capacity) (tick_ZERO, []) ops in
  answers = answers'
  /\ (forall k, ce_row <$> pc_entries c !! k = find_key k s.2)
  /\ pc_current_tick c = s.1
  /\ cache_len c = length s.2.
Proof.
  intros Horder Hops. destruct (cache_run_refines order read Horder capacity ops (cache_new capacity) (tick_ZERO, []))
    as [[(L & HL & Hl) Ht Hc Hlen _] H2]; [|done|].
  { split; simpl; [apply cache_rel_empty|done|done|lia|lia]. }
  destruct (run_ops (cache_step order read) _ ops) as [c out], (run_ops (evicting_step read capacity) _ ops) as [s out'].
  simpl in *. rewrite <- Hl in *. rewrite length_fmap in *. unfold cache_len.
  rewrite (represents_size _ _ _ HL). split_and!; try done.
  intros k. by rewrite find_key_forget, find_key_map, <- (rep_entries _ _ _ HL).
Qed.

(** C20: The cache is a least-recently-used list: of a capacity of at least one, and while no [insert]
    is of a row that is cached already when the cache is full (then the code evicts another row:
    [cache_insert_present_evicts]). Whatever order its hash table iterates in, a run of operations
    from an empty cache answers every lookup as the list does, holds row by row and tick what the list
    holds, and never holds more rows than its capacity. (Fewer than [2^64] accesses: past them the
    counter saturates and the order of accesses is lost.) *)
Theorem cache_refines_lru {View} (order : gmap CacheKey (CacheEntry View) -> list (CacheKey * CacheEntry View))
    (read : Tick -> string -> result string View) (capacity : nat) (ops : list CacheOp) :
  (forall m, order m ≡ₚ map_to_list m) -> Z.of_nat (total_accesses ops) <= u64_max ->
  (1 <= capacity)%nat -> run_fits read capacity (tick_ZERO, []) ops = true ->
  let '(c, answers) := run_ops (cache_step order read) (cache_new capacity) ops in
  let '(s, answers') := run_ops (lru_step read capacity) (tick_ZERO, []) ops in
  answers = answers'
  /\ (forall k, ce_row <$> pc_entries c !! k = find_key k s.2)
  /\ pc_current_tick c = s.1
  /\ cache_len c = length s.2
  /\ (cache_len c <= capacity)%nat.
Proof.
  intros Horder Hops Hc Hfit. pose proof (cache_refines_list order read capacity ops Horder Hops) as H.
  destruct (run_lru read capacity ops (tick_ZERO, []) Hc (Nat.le_0_l _) Hfit) as [E Hlen]. rewrite E in H.
  destruct (run_ops (cache_step order read) _ ops) as [c out], (run_ops (lru_step read capacity) _ ops) as [s out'].
  cbn [fst] in Hlen. destruct H as (H1 & H2 & H3 & H4). split_and!; [done..|by rewrite H4].
Qed.

Definition read_name (tick : Tick) (table : string) : result string string := Ok table.
Definition army (id : Z) : CachedRow string := mkCachedRow tick_ZERO "army" (mkRowId id) "army".
Definition touch_oldest : list CacheOp :=
  [CInsert (army 1); CInsert (army 2); CGet "army" (mkRowId 1);
   CPrefetch "army" [mkRowId 1; mkRowId 3]; CGet "army" (mkRowId 2); CGet "army" (mkRowId 1)].

Lemma cache_refines_lru_witness :
  (run_ops (cache_step map_to_list read_name) (cache_new 2) touch_oldest).2
    = [None; None; Some (army 1); None; None; Some (army 1)].
Proof.
  pose proof (cache_refines_lru map_to_list read_name 2 touch_oldest (fun m => reflexivity _)
    ltac:(vm_compute; discriminate) ltac:(repeat constructor) eq_refl) as H.
  destruct (run_ops (cache_step map_to_list read_name) (cache_new 2) touch_oldest) as [c answers].
  destruct (run_ops (evicting_step read_name 2) (tick_ZERO, []) touch_oldest) as [s answers'] eqn:E.
  apply (f_equal snd) in E. vm_compute in E. simpl in E. subst answers'.
  apply H.
Defined.

(** Inserting a row that is cached already evicts another row when the cache is full, although
    nothing had to make room; and a cache of capacity 0 keeps one row. *)
Example cache_insert_present_evicts :
  (run_ops (cache_step map_to_list read_name) (cache_new 2)
     [CInsert (army 1); CInsert (army 2); CInsert (army 2); CGet "army" (mkRowId 1)]).2
    = [None; None; None; None]
  /\ (run_ops (cache_step map_to_list read_name) (cache_new 0)
     [CInsert (army 1); CGet "army" (mkRowId 1)]).2 = [None; Some (army 1)].
Proof. split; vm_compute; reflexivity. Qed.
