(* ===== verification/Float64.v ===== *)
(** * Float64: the conversions between [FixedPoint] and [f64]

    Models [FixedPoint::try_from_f64] and [to_f64] of [fixed_point.rs] over the Standard Library's
    specification of binary64 arithmetic, [spec_float] with 53 bits of precision and [emax] 1024.
    The precision of [f64::powi] is left open by its documentation: [FloatPlatform] asks only what
    holds of every implementation, that it is exact where the powers of ten are ([0] to [22]). *)

From Stdlib Require Import ZArith Lia SpecFloat.
From stdpp Require Import base tactics.
From S2P Require Import Prelude CoreTypes FixedPoint.

Abbreviation f64 := spec_float.
Definition f64_mul : f64 -> f64 -> f64 := SFmul 53 1024.
Definition f64_div : f64 -> f64 -> f64 := SFdiv 53 1024.
(** [z as f64], to nearest, ties to even *)
Definition f64_of_Z (z : Z) : f64 := binary_normalize 53 1024 z 0 false.

Class FloatPlatform := {
  f64_powi10 : Z -> f64; (* [10_f64.powi(n)] *)
  f64_powi10_exact : forall n, 0 <= n <= 22 -> f64_powi10 n = f64_of_Z (10 ^ n) }.

(** [scale as i32] *)
Definition as_i32 (n : Z) : Z := (n + 2147483648) mod 4294967296 - 2147483648.

(** [x.round()], half away from zero, seen as an integer when it is one *)
Inductive rounded := RoundNan | RoundInf (negative : bool) | RoundInt (z : Z).
Definition f64_round (x : f64) : rounded :=
  match x with
  | S754_nan => RoundNan
  | S754_infinity s => RoundInf s
  | S754_zero _ => RoundInt 0
  | S754_finite s m e =>
      let n := if 0 <=? e then Z.pos m * 2 ^ e else (2 * Z.pos m + 2 ^ (- e)) / (2 * 2 ^ (- e)) in
      RoundInt (if s then - n else n)
  end.
(** Comparison with an integral bound: false on a NaN. *)
Definition rounded_gt (r : rounded) (bound : Z) : bool :=
  match r with RoundNan => false | RoundInf s => negb s | RoundInt z => bound <? z end.
Definition rounded_lt (r : rounded) (bound : Z) : bool :=
  match r with RoundNan => false | RoundInf s => s | RoundInt z => z <? bound end.
(** [raw as i64] saturates, and takes a NaN to 0. *)
Definition rounded_as_i64 (r : rounded) : Z :=
  match r with
  | RoundNan => 0
  | RoundInf s => if s then i64_min else i64_max
  | RoundInt z => Z.max i64_min (Z.min i64_max z)
  end.

Definition fp_try_from_f64 `{FloatPlatform} (value : f64) (scale : Z) : CoreResult FixedPoint :=
  let factor := f64_powi10 (as_i32 scale) in
  let raw := f64_round (f64_mul value factor) in
  (* [i64::MAX as f64] is 2^63 *)
  if rounded_gt raw (i64_max + 1) || rounded_lt raw i64_min then Err ArithmeticOverflow
  else Ok (fp_new (rounded_as_i64 raw) scale).

Definition fp_to_f64 `{FloatPlatform} (a : FixedPoint) : f64 :=
  f64_div (f64_of_Z (fp_raw a)) (f64_powi10 (as_i32 (fp_scale a))).

(** A platform: powers of ten rounded to nearest. *)
#[export] Program Instance nearest_platform : FloatPlatform := {|
  f64_powi10 n := if n <? 0 then f64_div (f64_of_Z 1) (f64_of_Z (10 ^ (- n))) else f64_of_Z (10 ^ n) |}.
Next Obligation. intros n Hn. simpl. destruct (Z.ltb_spec n 0); [lia|done]. Qed.

Example f64_half : fp_try_from_f64 (f64_div (f64_of_Z 25) (f64_of_Z 10)) 0 = Ok (fp_new 3 0).
Proof. vm_compute. reflexivity. Qed.
Example f64_to : fp_to_f64 (fp_new 250 2) = f64_div (f64_of_Z 5) (f64_of_Z 2).
Proof. vm_compute. reflexivity. Qed.

(** ** Rounding loses nothing where nothing has to be dropped *)

Abbreviation exact m := (Build_shr_record m false false).

Lemma digits_log2 p : Z.pos (digits2_pos p) = Z.log2 (Z.pos p) + 1.
Proof.
  assert (H : forall p, digits2_pos p = Pos.size p) by (clear; induction p; simpl; congruence).
  rewrite H. destruct p; simpl; lia.
Qed.

Lemma shr_1_double z : 0 < z -> shr_1 (exact (2 * z)) = exact z.
Proof. by destruct z. Qed.

Lemma iter_shr_1 p : forall z, 0 < z -> iter_pos shr_1 p (exact (z * 2 ^ Z.pos p)) = exact z.
Proof.
  induction p as [p IH|p IH|]; intros z Hz; cbn [iter_pos].
  - rewrite Pos2Z.inj_xI. replace (z * 2 ^ (2 * Z.pos p + 1)) with (2 * (z * 2 ^ Z.pos p * 2 ^ Z.pos p)).
    + rewrite shr_1_double by nia. rewrite IH by nia. by apply IH.
    + rewrite Z.pow_add_r, Z.pow_twice_r by lia. lia.
  - change (Z.pos p~0) with (2 * Z.pos p). replace (z * 2 ^ (2 * Z.pos p)) with (z * 2 ^ Z.pos p * 2 ^ Z.pos p).
    + rewrite IH by nia. by apply IH.
    + rewrite Z.pow_twice_r. lia.
  - change (2 ^ 1) with 2. rewrite Z.mul_comm. by apply shr_1_double.
Qed.

Lemma shr_exact z k e : 0 < z -> 0 <= k -> shr (exact (z * 2 ^ k)) e k = (exact z, e + k).
Proof.
  intros Hz Hk. destruct k as [|p|p]; [|simpl; by rewrite iter_shr_1|lia].
  simpl. by rewrite Z.mul_1_r, Z.add_0_r.
Qed.

(** A 53-bit mantissa, shifted up by [k] bits, is rounded back to itself. *)
Lemma round_aux_exact s m k e :
  2 ^ 52 <= Z.pos m < 2 ^ 53 -> 0 <= k -> -1074 <= e <= 971 ->
  binary_round_aux 53 1024 s (Z.pos m * 2 ^ k) (e - k) loc_Exact = S754_finite s m e.
Proof.
  intros Hm Hk He.
  assert (Hshr : forall j, 0 <= j -> shr_fexp 53 1024 (Z.pos m * 2 ^ j) (e - j) loc_Exact = (exact (Z.pos m), e)).
  { intros j Hj. unfold shr_fexp.
    assert (Hd : Zdigits2 (Z.pos m * 2 ^ j) = 53 + j).
    { assert (0 < Z.pos m * 2 ^ j) as Hpos by nia.
      assert (Hl : Z.log2 (Z.pos m * 2 ^ j) = 52 + j).
      { rewrite Z.log2_mul_pow2 by lia. rewrite (Z.log2_unique (Z.pos m) 52) by lia. lia. }
      destruct (Z.pos m * 2 ^ j) as [|p|p] eqn:E; [lia| |lia]. simpl. rewrite digits_log2. lia. }
    rewrite Hd. unfold fexp, emin. replace (Z.max _ _ - (e - j)) with j by lia.
    simpl shr_record_of_loc. rewrite shr_exact by lia. f_equal. lia. }
  unfold binary_round_aux. rewrite Hshr by done. cbn [shr_m loc_of_shr_record round_nearest_even].
  pose proof (Hshr 0 ltac:(lia)) as H0. rewrite Z.mul_1_r, Z.sub_0_r in H0. rewrite H0. simpl.
  destruct (Z.leb_spec e (1024 - 53)); [done|lia].
Qed.

(** An integer below [2^53] as a float: its mantissa fills the 53 bits. *)
Definition normal (z : Z) (x : f64) : Prop :=
  exists m e, x = S754_finite (z <? 0) m e /\ 2 ^ 52 <= Z.pos m < 2 ^ 53 /\ -52 <= e <= 0
  /\ Z.pos m = Z.abs z * 2 ^ (- e).

Lemma iter_xO p d : Z.pos (Pos.iter xO p d) = Z.pos p * 2 ^ Z.pos d.
Proof.
  induction d as [|d IH] using Pos.peano_ind; [simpl; lia|].
  rewrite Pos.iter_succ, Pos2Z.inj_succ, Z.pow_succ_r by lia.
  change (Z.pos (Pos.iter xO p d)~0) with (2 * Z.pos (Pos.iter xO p d)). rewrite IH. lia.
Qed.

Lemma f64_of_Z_normal z : z <> 0 -> Z.abs z < 2 ^ 53 -> normal z (f64_of_Z z).
Proof.
  intros Hz Hb.
  assert (H : forall s p, Z.pos p < 2 ^ 53 -> exists m e, binary_round 53 1024 s p 0 = S754_finite s m e
    /\ 2 ^ 52 <= Z.pos m < 2 ^ 53 /\ -52 <= e <= 0 /\ Z.pos m = Z.pos p * 2 ^ (- e)).
  { intros s p Hp. unfold binary_round, shl_align. rewrite digits_log2.
    pose proof (Z.log2_spec (Z.pos p) ltac:(lia)) as Hl. pose proof (Z.log2_nonneg (Z.pos p)).
    assert (Hl52 : Z.log2 (Z.pos p) <= 52) by (apply Z.log2_le_pow2 || (assert (Z.log2 (Z.pos p) < 53); [apply Z.log2_lt_pow2; lia|lia])).
    set (l := Z.log2 (Z.pos p)) in *. unfold fexp, emin.
    replace (Z.max (l + 1 + 0 - 53) (3 - 1024 - 53) - 0) with (l - 52) by lia.
    assert (exists q, (match l - 52 with Z.neg d => (Pos.iter xO p d, Z.max (l + 1 + 0 - 53) (3 - 1024 - 53)) | _ => (p, 0) end) = (q, l - 52)
      /\ Z.pos q = Z.pos p * 2 ^ (52 - l)) as (q & -> & Hq).
    { destruct (l - 52) as [|d|d] eqn:E; [|lia|].
      - exists p. split; [done|]. replace (52 - l) with 0 by lia. lia.
      - exists (Pos.iter xO p d). split; [f_equal; lia|]. rewrite iter_xO. repeat f_equal. lia. }
    assert (Hqr : 2 ^ 52 <= Z.pos q < 2 ^ 53).
    { rewrite Hq. replace (2 ^ 52) with (2 ^ l * 2 ^ (52 - l)) by (rewrite <- Z.pow_add_r by lia; f_equal; lia).
      replace (2 ^ 53) with (2 ^ Z.succ l * 2 ^ (52 - l)) by (rewrite <- Z.pow_add_r by lia; f_equal; lia).
      assert (0 < 2 ^ (52 - l)) by lia. nia. }
    exists q, (l - 52). pose proof (round_aux_exact s q 0 (l - 52) Hqr) as Hr.
    rewrite Z.mul_1_r, Z.sub_0_r in Hr. rewrite Hr by lia. split_and!; try lia; [done|].
    rewrite Hq. do 2 f_equal. lia. }
  unfold normal, f64_of_Z, binary_normalize. destruct z as [|p|p]; [done|..]; apply H; simpl in *; lia.
Qed.

Lemma normal_digits m : 2 ^ 52 <= Z.pos m < 2 ^ 53 -> Zdigits2 (Z.pos m) = 53.
Proof. intros Hm. simpl. rewrite digits_log2, (Z.log2_unique (Z.pos m) 52) by lia. done. Qed.

Lemma f64_one : f64_of_Z 1 = S754_finite false 4503599627370496 (-52).
Proof. reflexivity. Qed.

Lemma f64_mul_one z x : normal z x -> f64_mul x (f64_of_Z 1) = x.
Proof.
  intros (m & e & -> & Hm & He & _). rewrite f64_one. unfold f64_mul. simpl SFmul.
  rewrite xorb_false_r, Pos2Z.inj_mul. change 4503599627370496 with (2 ^ 52).
  apply (round_aux_exact _ m 52 e); lia.
Qed.

(** Dividing by a power of two moves the exponent. *)
Lemma f64_div_pow2 z m e s k : 2 ^ 52 <= Z.pos m < 2 ^ 53 -> -52 <= e <= 0 -> 0 <= k <= 53 -> z = S754_finite s m e ->
  f64_div z (S754_finite false 4503599627370496 (k - 52)) = S754_finite s m (e - k).
Proof.
  intros Hm He Hk ->. unfold f64_div, SFdiv, SFdiv_core_binary.
  rewrite normal_digits by done. change (Zdigits2 (Z.pos 4503599627370496)) with 53.
  unfold fexp, emin. replace (Z.min _ _) with (e - k - 1) by lia.
  replace (e - (k - 52) - (e - k - 1)) with 53 by lia. rewrite Z.shiftl_mul_pow2 by lia.
  change (Z.pos 4503599627370496) with (2 ^ 52).
  replace (Z.pos m * 2 ^ 53) with (Z.pos m * 2 ^ 1 * 2 ^ 52) by lia.
  assert (Hq : Z.pos m * 2 ^ 1 * 2 ^ 52 / 2 ^ 52 = Z.pos m * 2 ^ 1) by (apply Z.div_mul; lia).
  assert (Hr : (Z.pos m * 2 ^ 1 * 2 ^ 52) mod 2 ^ 52 = 0) by (apply Z.mod_mul; lia).
  unfold Z.div, Z.modulo in Hq, Hr. destruct (Z.div_eucl _ _) as [q r]. subst q r.
  change (new_location (2 ^ 52) 0) with loc_Exact. rewrite xorb_false_r.
  apply (round_aux_exact _ m 1 (e - k)); lia.
Qed.

Lemma f64_div_one z x : normal z x -> f64_div x (f64_of_Z 1) = x.
Proof.
  intros (m & e & -> & Hm & He & _). rewrite f64_one. change (-52) with (0 - 52) at 1.
  rewrite (f64_div_pow2 _ m e _ 0) by (done || lia). by rewrite Z.sub_0_r.
Qed.

Lemma f64_round_normal z x : normal z x -> f64_round x = RoundInt z.
Proof.
  intros (m & e & -> & Hm & He & Habs). simpl. rewrite Habs.
  assert (Hn : (if 0 <=? e then Z.abs z * 2 ^ (- e) * 2 ^ e
                else (2 * (Z.abs z * 2 ^ (- e)) + 2 ^ (- e)) / (2 * 2 ^ (- e))) = Z.abs z).
  { destruct (Z.leb_spec 0 e).
    - replace e with 0 by lia. lia.
    - assert (0 < 2 ^ (- e)) by lia. symmetry. apply (Z.div_unique _ _ _ (2 ^ (- e))); lia. }
  rewrite Hn. destruct (Z.ltb_spec z 0); f_equal; lia.
Qed.

(** Integers below [2^53] in magnitude survive the passage through [f64] exactly. *)
Theorem fp_f64_roundtrip `{FloatPlatform} (z : Z) :
  Z.abs z < 2 ^ 53 -> fp_try_from_f64 (fp_to_f64 (fp_new z 0)) 0 = Ok (fp_new z 0).
Proof.
  intros Hz. unfold fp_try_from_f64, fp_to_f64. change (as_i32 _) with 0.
  rewrite f64_powi10_exact by lia. change (10 ^ 0) with 1. cbn [fp_raw].
  destruct (decide (z = 0)) as [->|Hz0]; [reflexivity|].
  pose proof (f64_of_Z_normal z Hz0 Hz) as Hn.
  rewrite (f64_div_one z), (f64_mul_one z), (f64_round_normal z) by done. simpl.
  unfold_width. simpl in Hz.
  destruct (Z.ltb_spec (9223372036854775807 + 1) z), (Z.ltb_spec z (-9223372036854775808)); try lia.
  simpl. do 2 f_equal. lia.
Qed.

Lemma fp_f64_roundtrip_witness :
  fp_try_from_f64 (fp_to_f64 (fp_new (-9007199254740991) 0)) 0 = Ok (fp_new (-9007199254740991) 0).
Proof. apply (fp_f64_roundtrip (-9007199254740991)). by_eval. Defined.

(** [try_from_f64] on every input: what is refused is what rounds beyond the 64-bit range, but for
    [2^63] itself, which becomes [i64::MAX]; a NaN is accepted and becomes zero. *)
Theorem fp_try_from_f64_cases `{FloatPlatform} (value : f64) (scale : Z) :
  fp_try_from_f64 value scale =
    match f64_round (f64_mul value (f64_powi10 (as_i32 scale))) with
    | RoundNan => Ok (fp_new 0 scale)
    | RoundInf _ => Err ArithmeticOverflow
    | RoundInt z =>
        if in_range i64_min i64_max z then Ok (fp_new z scale)
        else if z =? i64_max + 1 then Ok (fp_new i64_max scale)
        else Err ArithmeticOverflow
    end.
Proof.
  unfold fp_try_from_f64. destruct (f64_round _) as [|s|z]; [done|by destruct s|].
  unfold rounded_gt, rounded_lt, rounded_as_i64, in_range. unfold_width.
  destruct (Z.ltb_spec (9223372036854775807 + 1) z), (Z.ltb_spec z (-9223372036854775808)),
    (Z.leb_spec (-9223372036854775808) z), (Z.leb_spec z 9223372036854775807); try lia; simpl.
  all: try (destruct (Z.eqb_spec z (9223372036854775807 + 1)); try lia); try done.
  all: do 2 f_equal; lia.
Qed.
