(* ===== verification/RngFloat.v ===== *)
(** * RngFloat: the random numbers of the unit interval ([rng.rs])

    Models [next_f64] over the binary64 arithmetic of [Float64.v]. *)

From Stdlib Require Import ZArith Lia SpecFloat.
From stdpp Require Import base tactics.
From S2P Require Import Prelude Rng CoreTypes FixedPoint Float64.

Definition rng_next_f64 (r : DeterministicRng) : DeterministicRng * f64 :=
  let '(r, bits) := rng_next_u64 r in
  let mantissa := Z.shiftr bits 11 in
  (r, f64_div (f64_of_Z mantissa) (f64_of_Z (Z.shiftl 1 53))).

(** A float and the fraction [m / 2^k] it is equal to. *)
Definition is_fraction (x : f64) (m k : Z) : Prop :=
  match x with
  | S754_zero false => m = 0
  | S754_finite false p e => e <= 0 /\ Z.pos p * 2 ^ k = m * 2 ^ (- e)
  | _ => False
  end.

Lemma shifted_word z : word z -> 0 <= Z.shiftr z 11 < 2 ^ 53.
Proof.
  intros [H0 H1]. rewrite Z.shiftr_div_pow2 by lia. split; [apply Z.div_pos; lia|].
  apply Z.div_lt_upper_bound; [lia|]. unfold_width. lia.
Qed.

(** The top 53 bits of the next word, divided by [2^53] without rounding: a fraction of the unit
    interval, below one. *)
Theorem next_f64_exact (r : DeterministicRng) :
  let m := Z.shiftr (rng_next_u64 r).2 11 in
  (rng_next_f64 r).1 = (rng_next_u64 r).1 /\ 0 <= m < 2 ^ 53 /\ is_fraction (rng_next_f64 r).2 m 53.
Proof.
  assert (Hw : word (rng_next_u64 r).2).
  { unfold rng_next_u64. destruct (sm_next_wf (rng_sm r)) as [_ H]. by destruct (sm_next_u64 (rng_sm r)). }
  unfold rng_next_f64. destruct (rng_next_u64 r) as [r' bits]. cbn [fst snd] in *.
  apply shifted_word in Hw. set (m := Z.shiftr bits 11) in *. split; [done|]. split; [done|].
  destruct (decide (m = 0)) as [->|Hm0]; [done|].
  destruct (f64_of_Z_normal m Hm0) as (p & e & -> & Hp & He & Hv); [lia|].
  replace (m <? 0) with false by (symmetry; apply Z.ltb_ge; lia).
  change (f64_of_Z (Z.shiftl 1 53)) with (S754_finite false 4503599627370496 (53 - 52)).
  rewrite (f64_div_pow2 _ p e false 53) by (done || lia). cbn [is_fraction]. split; [lia|].
  rewrite Hv, Z.abs_eq by lia. replace (- (e - 53)) with (- e + 53) by lia. rewrite Z.pow_add_r by lia. lia.
Qed.
