(* ===== verification/Rules.v ===== *)
(** * Rules: expressions, effects and their evaluator ([scharnhorst_rules])

    Models [expr.rs], [effect.rs] and [evaluator.rs]. A [HashMap<String, Expr>] is the list of its
    entries in the order the table iterates in (its keys are distinct); so is the map of an
    [EvalValue]. Evaluation has no effect on the evaluator, although it takes [&mut self]: it is a
    function, and only effects and jumps return a new state. What the evaluator calls of the query
    engine is the class [RuleQuery]; [serde_json]'s constructors are the class [JsonOps]. The
    journal is the one of [Journal.v]. A poisoned lock (a panic while it was held) is not modelled. *)

From Stdlib Require Import Ascii String.
From stdpp Require Import base gmap strings list fin_maps sorting.
From Stdlib Require Import ZArith Lia.
From S2P Require Import Prelude RustStr CoreTypes FixedPoint SchemaTables Relations Registry Journal.
From S2P Require Import RuleCore RuleCache Float64.

(** ** Expressions *)

Record ColumnPath := mkPath { path_table : string; path_column : string }.
Record VarRef := mkVar { var_name : string }.
Inductive CompareOp := CmpEq | CmpNe | CmpLt | CmpLe | CmpGt | CmpGe.
Inductive ArithmeticOp := OpAdd | OpSub | OpMul | OpDiv | OpRem.

Inductive Expr :=
| EConst (v : FixedPoint)
| EBool (b : bool)
| EString (s : string)
| ERowId (r : RowId)
| EColumn (p : ColumnPath)
| EVar (v : VarRef)
| ENot (inner : Expr)
| EAnd (items : list Expr)
| EOr (items : list Expr)
| ECompare (op : CompareOp) (lhs rhs : Expr)
| EArithmetic (op : ArithmeticOp) (lhs rhs : Expr)
| EIf (cond then_branch else_branch : Expr)
| ECall (func : string) (args : list (string * Expr))
| EList (items : list Expr)
| EMap (entries : list (string * Expr)).

Inductive Effect :=
| EffUpdateColumn (table column : string) (value : Expr)
| EffInsertRow (table : string) (row : RowId) (values : list (string * Expr))
| EffSetVariable (name : string) (value : Expr)
| EffSequence (effects : list Effect).

(** ** Values *)

Inductive EvalValue :=
| VFixedPoint (v : FixedPoint)
| VBool (b : bool)
| VString (s : string)
| VRowId (r : RowId)
| VList (items : list EvalValue)
| VMap (entries : list (string * EvalValue)).

Definition variant_name (v : EvalValue) : string :=
  match v with
  | VFixedPoint _ => "FixedPoint" | VBool _ => "Bool" | VString _ => "String"
  | VRowId _ => "RowId" | VList _ => "List" | VMap _ => "Map"
  end.

Definition BuiltinFn : Type := list EvalValue -> RuleResult EvalValue.

(** The closures of [add], [sub], [mul], [div], [min] and [max] differ in [f] only. *)
Definition builtin_binary (name : string) (f : FixedPoint -> FixedPoint -> RuleResult FixedPoint)
  : BuiltinFn := fun args =>
  match args with
  | x :: y :: _ =>
      match x, y with
      | VFixedPoint a, VFixedPoint b => let? r := f a b in Ok (VFixedPoint r)
      | _, _ => Err (RTypeMismatch "FixedPoint" (variant_name x))
      end
  | _ => Err (REvaluation (name +:+ " requires at least 2 arguments"))
  end.
Definition builtin_not : BuiltinFn := fun args =>
  match args with
  | [] => Err (REvaluation "not requires 1 argument")
  | VBool b :: _ => Ok (VBool (negb b))
  | v :: _ => Err (RTypeMismatch "bool" (variant_name v))
  end.

(** [<], [<=], [>], [>=] from [partial_cmp] *)
Definition fp_lt (a b : FixedPoint) : bool := match fp_partial_cmp a b with Some Lt => true | _ => false end.
Definition fp_le (a b : FixedPoint) : bool :=
  match fp_partial_cmp a b with Some (Lt | Eq) => true | _ => false end.
Definition fp_gt (a b : FixedPoint) : bool := match fp_partial_cmp a b with Some Gt => true | _ => false end.
Definition fp_ge (a b : FixedPoint) : bool :=
  match fp_partial_cmp a b with Some (Gt | Eq) => true | _ => false end.
(** [Ord::min] and [Ord::max], the trait's provided methods *)
Definition fp_min (a b : FixedPoint) : FixedPoint := if fp_lt b a then b else a.
Definition fp_max (a b : FixedPoint) : FixedPoint := if fp_lt b a then a else b.

Definition core_op (f : FixedPoint -> FixedPoint -> CoreResult FixedPoint) a b : RuleResult FixedPoint :=
  map_err RCore (f a b).

Definition default_builtins : gmap string BuiltinFn * gmap string nat :=
  (list_to_map
     [("add", builtin_binary "add" (core_op fp_add)); ("sub", builtin_binary "sub" (core_op fp_sub));
      ("mul", builtin_binary "mul" (core_op fp_mul)); ("div", builtin_binary "div" (core_op fp_div));
      ("min", builtin_binary "min" (fun a b => Ok (fp_min a b)));
      ("max", builtin_binary "max" (fun a b => Ok (fp_max a b))); ("not", builtin_not)],
   list_to_map
     [("add", 2%nat); ("sub", 2%nat); ("mul", 2%nat); ("div", 2%nat); ("min", 2%nat);
      ("max", 2%nat); ("not", 1%nat)]).

Definition compare_fixed_point (op : CompareOp) (a b : FixedPoint) : bool :=
  match op with
  | CmpEq => fp_eq a b
  | CmpNe => negb (fp_eq a b)
  | CmpLt => fp_lt a b
  | CmpLe => fp_le a b
  | CmpGt => fp_gt a b
  | CmpGe => fp_ge a b
  end.
Definition compare_bool (op : CompareOp) (a b : bool) : bool :=
  match op with
  | CmpEq => Bool.eqb a b
  | CmpNe => negb (Bool.eqb a b)
  | _ => false
  end.
(** [str]'s order: bytes, lexicographically. *)
Definition compare_string (op : CompareOp) (a b : string) : bool :=
  match op, String.compare a b with
  | CmpEq, Eq | CmpNe, (Lt | Gt) | CmpLt, Lt | CmpLe, (Lt | Eq) | CmpGt, Gt | CmpGe, (Gt | Eq) => true
  | _, _ => false
  end.
Definition compare_row_id (op : CompareOp) (a b : RowId) : bool :=
  let x := row_id_as_u64 a in
  let y := row_id_as_u64 b in
  match op with
  | CmpEq => x =? y | CmpNe => negb (x =? y)
  | CmpLt => x <? y | CmpLe => x <=? y | CmpGt => y <? x | CmpGe => y <=? x
  end.

(** ** What the evaluator calls *)

Inductive ColumnKind := KInt64 | KUInt64 | KFloat64 | KBoolean | KUtf8 | KLargeUtf8 | KNull | KUnknown.

Definition column_kind_debug (k : ColumnKind) : string :=
  match k with
  | KInt64 => "Int64" | KUInt64 => "UInt64" | KFloat64 => "Float64" | KBoolean => "Boolean"
  | KUtf8 => "Utf8" | KLargeUtf8 => "LargeUtf8" | KNull => "Null" | KUnknown => "Unknown"
  end.

(** A [TableReadView] is known by its position map, a [RowLookupView] by its typed reads. *)
Class RuleQuery (Query : Type) := {
  RowView : Type;
  TableView : Type;
  rq_registry : Query -> QueryResult SchemaRegistry;
  rq_column_kind : Query -> string -> string -> QueryResult ColumnKind;
  rq_lookup_row : Query -> string -> RowId -> QueryResult RowView;
  rq_read_single_table : Query -> Tick -> string -> QueryResult TableView;
  row_get_i64 : RowView -> string -> QueryResult (option Z);
  row_get_f64 : RowView -> string -> QueryResult (option f64);
  row_get_bool : RowView -> string -> QueryResult (option bool);
  row_get_string : RowView -> string -> QueryResult (option string);
  view_position_map : TableView -> RowPositionMap }.

Class JsonOps (V : Type) := {
  json_from_f64 : f64 -> option V; (* [Number::from_f64]: none when not finite *)
  json_bool : bool -> V;
  json_string : string -> V;
  json_u64 : Z -> V;
  json_array : list V -> V;
  json_object : gmap string V -> V }.

(** [#[error("...")]] of [CoreError] *)
Definition core_error_text (e : CoreError) : string :=
  match e with
  | InvalidId s => "invalid identifier: " +:+ s
  | InvalidFormat s => "invalid format: " +:+ s
  | ArithmeticOverflow => "arithmetic overflow"
  | DivisionByZero => "division by zero"
  | InvalidFixedPointScale expected got =>
      "invalid fixed-point scale: expected " +:+ show_u64 expected +:+ ", got " +:+ show_u64 got
  | CoreSchema s => "schema error: " +:+ s
  | DuplicateRegistration s => "duplicate tier registration: " +:+ s
  | InvalidPhase s => "invalid lifecycle phase: " +:+ s
  | CoreIo s => "io error: " +:+ s
  | CoreGeneric s => "generic: " +:+ s
  end.

Section query.
Context {Query : Type} `{RuleQuery Query}.

Definition query_table_schema (q : Query) (name : string) : QueryResult TableSpec :=
  let? reg := rq_registry q in map_err QSchema (registry_get reg name).

Definition query_resolve_relation_edge (q : Query) (key : string) : QueryResult RelationEdge :=
  let? reg := rq_registry q in
  ok_or (List.find (fun e => bool_decide (edge_key e = key)) (rg_edges (sr_relations reg)))
    (QRelationNotFound key).
End query.

(** ** Evaluation of sub-expressions, over the evaluation [eval] of one *)

Section sub.
Context (eval : Expr -> RuleResult EvalValue).

Fixpoint eval_and (items : list Expr) : RuleResult EvalValue :=
  match items with
  | [] => Ok (VBool true)
  | e :: items' =>
      match eval e with
      | Err x => Err x
      | Ok (VBool false) => Ok (VBool false)
      | Ok (VBool true) => eval_and items'
      | Ok _ => Err (RTypeMismatch "bool" "non-bool")
      end
  end.

Fixpoint eval_or (items : list Expr) : RuleResult EvalValue :=
  match items with
  | [] => Ok (VBool false)
  | e :: items' =>
      match eval e with
      | Err x => Err x
      | Ok (VBool true) => Ok (VBool true)
      | Ok (VBool false) => eval_or items'
      | Ok _ => Err (RTypeMismatch "bool" "non-bool")
      end
  end.

Fixpoint eval_entries (entries : list (string * Expr)) : RuleResult (list (string * EvalValue)) :=
  match entries with
  | [] => Ok []
  | (k, e) :: entries' =>
      let? v := eval e in let? vs := eval_entries entries' in Ok ((k, v) :: vs)
  end.

(** The value every entry would have. *)
Fixpoint eval_table (entries : list (string * Expr)) : list (string * RuleResult EvalValue) :=
  match entries with
  | [] => []
  | (k, e) :: entries' => (k, eval e) :: eval_table entries'
  end.
End sub.

Definition compare_values (op : CompareOp) (lval rval : EvalValue) : RuleResult EvalValue :=
  match lval, rval with
  | VFixedPoint a, VFixedPoint b => Ok (VBool (compare_fixed_point op a b))
  | VBool a, VBool b => Ok (VBool (compare_bool op a b))
  | VString a, VString b => Ok (VBool (compare_string op a b))
  | VRowId a, VRowId b => Ok (VBool (compare_row_id op a b))
  | a, b => Err (RTypeMismatch (variant_name a) (variant_name b))
  end.

Definition arithmetic_values (op : ArithmeticOp) (lval rval : EvalValue) : RuleResult EvalValue :=
  match lval, rval with
  | VFixedPoint a, VFixedPoint b =>
      match op with
      | OpAdd => map_ok VFixedPoint (core_op fp_add a b)
      | OpSub => map_ok VFixedPoint (core_op fp_sub a b)
      | OpMul => map_ok VFixedPoint (core_op fp_mul a b)
      | OpDiv => map_ok VFixedPoint (core_op fp_div a b)
      | OpRem => Err (RUnsupportedOperation "remainder not supported for FixedPoint")
      end
  | a, b => Err (RTypeMismatch "FixedPoint" (variant_name a +:+ " / " +:+ variant_name b))
  end.

Definition assoc_get {A} (k : string) (l : list (string * A)) : option A :=
  snd <$> List.find (fun ka => bool_decide (ka.1 = k)) l.

(** [keys.sort()], then each argument in that order: the first error in it. *)
Definition args_in_order (func : string) (table : list (string * RuleResult EvalValue))
  : RuleResult (list EvalValue) :=
  let sorted_keys := merge_sort String.le table.*1 in
  try_map (fun k =>
    match assoc_get k table with
    | Some r => r
    | None => Err (REvaluation ("missing argument '" +:+ k +:+ "' in call to '" +:+ func +:+ "'"))
    end) sorted_keys.

(** ** The evaluator *)

Section evaluator.
Context {Query : Type} {RQ : RuleQuery Query} {FP : FloatPlatform}.
Context {V : Type} {JO : JsonOps V} {SO : StoreOps V} {QO : QueryOps V} {VO : SaveOps V}.

Record Evaluator := mkEvaluator {
  ev_query_engine : Query;
  ev_journal : Journal (V := V);
  ev_scope : Scope;
  ev_cache : PrefetchCache TableView;
  ev_modifiers : ModifierRegistry;
  ev_variables : gmap string EvalValue;
  ev_builtins : gmap string BuiltinFn;
  ev_builtin_arg_counts : gmap string nat }.

Definition evaluator_new (query_engine : Query) (journal : Journal (V := V)) (root_table : string)
    (root_row : RowId) : Evaluator :=
  mkEvaluator query_engine journal (scope_new root_table root_row) (cache_new CACHE_DEFAULT_CAPACITY)
    modifiers_new ∅ default_builtins.1 default_builtins.2.

Definition ev_with_journal (ev : Evaluator) j : Evaluator :=
  mkEvaluator (ev_query_engine ev) j (ev_scope ev) (ev_cache ev) (ev_modifiers ev)
    (ev_variables ev) (ev_builtins ev) (ev_builtin_arg_counts ev).
Definition ev_with_scope (ev : Evaluator) s : Evaluator :=
  mkEvaluator (ev_query_engine ev) (ev_journal ev) s (ev_cache ev) (ev_modifiers ev)
    (ev_variables ev) (ev_builtins ev) (ev_builtin_arg_counts ev).
Definition ev_with_cache (ev : Evaluator) c : Evaluator :=
  mkEvaluator (ev_query_engine ev) (ev_journal ev) (ev_scope ev) c (ev_modifiers ev)
    (ev_variables ev) (ev_builtins ev) (ev_builtin_arg_counts ev).
Definition ev_with_modifiers (ev : Evaluator) m : Evaluator :=
  mkEvaluator (ev_query_engine ev) (ev_journal ev) (ev_scope ev) (ev_cache ev) m
    (ev_variables ev) (ev_builtins ev) (ev_builtin_arg_counts ev).

Definition evaluator_advance_tick (ev : Evaluator) (tick : Tick) : Evaluator :=
  ev_with_cache ev (cache_set_tick (ev_cache ev) tick).
Definition evaluator_current_tick (ev : Evaluator) : Tick := pc_current_tick (ev_cache ev).
Definition evaluator_scope_pop (ev : Evaluator) : Evaluator * RuleResult unit :=
  match scope_pop (ev_scope ev) with
  | Ok s => (ev_with_scope ev s, Ok tt)
  | Err e => (ev, Err e)
  end.
Definition evaluator_scope_reset (ev : Evaluator) (table : string) (row : RowId) : Evaluator :=
  ev_with_scope ev (scope_reset (ev_scope ev) table row).
Definition evaluator_bind_var (ev : Evaluator) (name : string) (v : EvalValue) : Evaluator :=
  mkEvaluator (ev_query_engine ev) (ev_journal ev) (ev_scope ev) (ev_cache ev) (ev_modifiers ev)
    (<[name := v]> (ev_variables ev)) (ev_builtins ev) (ev_builtin_arg_counts ev).
Definition evaluator_resolve_var (ev : Evaluator) (v : VarRef) : RuleResult EvalValue :=
  ok_or (ev_variables ev !! var_name v) (RUnknownVariable (var_name v)).
(** The arity table is not written. *)
Definition evaluator_register_function (ev : Evaluator) (name : string) (f : BuiltinFn) : Evaluator :=
  mkEvaluator (ev_query_engine ev) (ev_journal ev) (ev_scope ev) (ev_cache ev) (ev_modifiers ev)
    (ev_variables ev) (<[name := f]> (ev_builtins ev)) (ev_builtin_arg_counts ev).

Definition evaluate_column (ev : Evaluator) (path : ColumnPath) : RuleResult EvalValue :=
  let row_id := sc_row (ev_scope ev) in
  let qe := ev_query_engine ev in
  let table := path_table path in
  let column := path_column path in
  let? kind := map_err RQuery (rq_column_kind qe table column) in
  let? lookup := map_err RQuery (rq_lookup_row qe table row_id) in
  match kind with
  | KInt64 | KUInt64 =>
      let? val := map_err RQuery (row_get_i64 lookup column) in
      let fp := fp_new (default 0 val) 0 in
      map_ok VFixedPoint (modifiers_aggregate (ev_modifiers ev) table column fp)
  | KFloat64 =>
      let? val := map_err RQuery (row_get_f64 lookup column) in
      let? fp := map_err (fun e => REvaluation (core_error_text e))
                   (fp_try_from_f64 (default (SpecFloat.S754_zero false) val) 2) in
      map_ok VFixedPoint (modifiers_aggregate (ev_modifiers ev) table column fp)
  | KBoolean =>
      let? val := map_err RQuery (row_get_bool lookup column) in Ok (VBool (default false val))
  | KUtf8 | KLargeUtf8 =>
      let? val := map_err RQuery (row_get_string lookup column) in Ok (VString (default "" val))
  | other =>
      Err (REvaluation ("unsupported column type " +:+ column_kind_debug other +:+ " for "
                        +:+ table +:+ "." +:+ column))
  end.

(** [evaluate_call], the arguments' values given. *)
Definition call_function (ev : Evaluator) (func : string)
    (table : list (string * RuleResult EvalValue)) : RuleResult EvalValue :=
  let arity_error :=
    match ev_builtin_arg_counts ev !! func with
    | Some expected =>
        if negb (length table =? expected)%nat then
          Some (REvaluation ("function '" +:+ func +:+ "' expects " +:+ show_u64 (Z.of_nat expected)
                +:+ " arguments, got " +:+ show_u64 (Z.of_nat (length table))))
        else None
    | None => None
    end in
  match arity_error with
  | Some e => Err e
  | None =>
      let? evaluated_args := args_in_order func table in
      let? f := ok_or (ev_builtins ev !! func)
                  (RUnsupportedOperation ("unknown function: " +:+ func)) in
      f evaluated_args
  end.

Fixpoint evaluate (ev : Evaluator) (expr : Expr) {struct expr} : RuleResult EvalValue :=
  match expr with
  | EConst fp => Ok (VFixedPoint fp)
  | EBool b => Ok (VBool b)
  | EString s => Ok (VString s)
  | ERowId id => Ok (VRowId id)
  | EColumn path => evaluate_column ev path
  | EVar var => evaluator_resolve_var ev var
  | ENot inner =>
      let? value := evaluate ev inner in
      match value with
      | VBool b => Ok (VBool (negb b))
      | _ => Err (RTypeMismatch "bool" (variant_name value))
      end
  | EAnd items => eval_and (evaluate ev) items
  | EOr items => eval_or (evaluate ev) items
  | ECompare op lhs rhs =>
      let? lval := evaluate ev lhs in
      let? rval := evaluate ev rhs in
      compare_values op lval rval
  | EArithmetic op lhs rhs =>
      let? lval := evaluate ev lhs in
      let? rval := evaluate ev rhs in
      arithmetic_values op lval rval
  | EIf cond then_branch else_branch =>
      let? cond_val := evaluate ev cond in
      match cond_val with
      | VBool true => evaluate ev then_branch
      | VBool false => evaluate ev else_branch
      | _ => Err (RTypeMismatch "bool" (variant_name cond_val))
      end
  | ECall func args => call_function ev func (eval_table (evaluate ev) args)
  | EList items => map_ok VList (try_map (evaluate ev) items)
  | EMap entries => map_ok VMap (eval_entries (evaluate ev) entries)
  end.

(** ** JSON *)

Section json.
Context (to_json : EvalValue -> RuleResult V).
Fixpoint json_entries (entries : list (string * EvalValue)) : RuleResult (list (string * V)) :=
  match entries with
  | [] => Ok []
  | (k, v) :: entries' =>
      let? j := to_json v in let? js := json_entries entries' in Ok ((k, j) :: js)
  end.
End json.

(** Insertion one by one: a later entry of the same key wins. *)
Definition collect_map {A} (l : list (string * A)) : gmap string A :=
  List.fold_left (fun m kx => <[kx.1 := kx.2]> m) l ∅.

Fixpoint eval_value_to_json (v : EvalValue) : RuleResult V :=
  match v with
  | VFixedPoint fp =>
      ok_or (json_from_f64 (fp_to_f64 fp)) (REvaluation "cannot convert FixedPoint to JSON number")
  | VBool b => Ok (json_bool b)
  | VString s => Ok (json_string s)
  | VRowId id => Ok (json_u64 (row_id_as_u64 id))
  | VList items => map_ok json_array (try_map eval_value_to_json items)
  | VMap entries => map_ok (fun l => json_object (collect_map l)) (json_entries eval_value_to_json entries)
  end.

(** ** Effects *)

Definition evaluator_submit_diff (ev : Evaluator) (d : Diff V) : Evaluator * RuleResult unit :=
  match journal_submit_diff (ev_journal ev) d with
  | Ok j => (ev_with_journal ev j, Ok tt)
  | Err e => (ev, Err (RJournal e))
  end.
Definition evaluator_submit_command (ev : Evaluator) (envelope : CommandEnvelope V)
  : Evaluator * RuleResult unit :=
  match journal_submit_command (ev_journal ev) envelope with
  | Ok j => (ev_with_journal ev j, Ok tt)
  | Err e => (ev, Err (RJournal e))
  end.

(** The loop of [InsertRow]: each entry is evaluated and converted before the next. *)
Fixpoint evaluate_row (ev : Evaluator) (values : list (string * Expr)) (acc : gmap string V)
  : RuleResult (gmap string V) :=
  match values with
  | [] => Ok acc
  | (col, expr) :: values' =>
      let? val := evaluate ev expr in
      let? json_val := eval_value_to_json val in
      evaluate_row ev values' (<[col := json_val]> acc)
  end.

Fixpoint run_effects (step : Evaluator -> Effect -> Evaluator * RuleResult unit) (ev : Evaluator)
    (effects : list Effect) {struct effects} : Evaluator * RuleResult unit :=
  match effects with
  | [] => (ev, Ok tt)
  | e :: effects' =>
      match step ev e with
      | (ev', Ok _) => run_effects step ev' effects'
      | (ev', Err x) => (ev', Err x)
      end
  end.

Fixpoint evaluate_effect (ev : Evaluator) (effect : Effect) {struct effect}
  : Evaluator * RuleResult unit :=
  match effect with
  | EffUpdateColumn table column value =>
      match (let? val := evaluate ev value in eval_value_to_json val) with
      | Ok json_val => evaluator_submit_diff ev (Update table (sc_row (ev_scope ev)) column json_val)
      | Err e => (ev, Err e)
      end
  | EffInsertRow table row values =>
      match evaluate_row ev values ∅ with
      | Ok evaluated => evaluator_submit_diff ev (Insert table row evaluated)
      | Err e => (ev, Err e)
      end
  | EffSetVariable name value =>
      match evaluate ev value with
      | Ok val => (evaluator_bind_var ev name val, Ok tt)
      | Err e => (ev, Err e)
      end
  | EffSequence effects => run_effects evaluate_effect ev effects
  end.

(** ** Jumps *)

Context (row_order : gmap Z (Z * Z) -> list Z).
Context (cache_order : gmap CacheKey (CacheEntry TableView) -> list (CacheKey * CacheEntry TableView)).

(** [RowPositionMap::row_ids], in the order of its hash table *)
Definition rpm_row_ids (m : RowPositionMap) : list RowId := mkRowId <$> row_order (rpm_entries m).

Definition read_i64 (qe : Query) (table column null_msg : string) (row : RowId) : RuleResult Z :=
  let? look := map_err RQuery (rq_lookup_row qe table row) in
  let? val := map_err RQuery (row_get_i64 look column) in
  ok_or val (RScope null_msg).

(** The loops of [resolve_target_row]: the first row whose [column] is [target]. *)
Fixpoint find_row_with (qe : Query) (table column null_msg : string) (target : Z) (rows : list RowId)
  : RuleResult (option RowId) :=
  match rows with
  | [] => Ok None
  | row_id :: rows' =>
      let? val := read_i64 qe table column null_msg row_id in
      if val =? target then Ok (Some row_id) else find_row_with qe table column null_msg target rows'
  end.

Definition primary_key_name (qe : Query) (table : string) : RuleResult string :=
  let? spec := map_err RQuery (query_table_schema qe table) in
  let? pk := ok_or (table_primary_key_column spec)
               (RScope ("table '" +:+ table +:+ "' has no primary key column")) in
  Ok (col_name pk).

Definition resolve_target_row (ev : Evaluator) (edge : RelationEdge) (d : JumpDirection)
  : RuleResult RowId :=
  let qe := ev_query_engine ev in
  let row := sc_row (ev_scope ev) in
  let tick := pc_current_tick (ev_cache ev) in
  match d with
  | Forward =>
      let? fk_val := read_i64 qe (edge_from edge) (edge_from_column edge) "FK value is null" row in
      let? pk_col := primary_key_name qe (edge_to edge) in
      let? view := map_err RQuery (rq_read_single_table qe tick (edge_to edge)) in
      let? found := find_row_with qe (edge_to edge) pk_col "target row has null PK" fk_val
                      (rpm_row_ids (view_position_map view)) in
      ok_or found (RScope ("target row not found: " +:+ edge_from edge +:+ " -> " +:+ edge_to edge
        +:+ " (fk=" +:+ show_i64 fk_val +:+ ")"))
  | Reverse =>
      let? pk_col := primary_key_name qe (edge_to edge) in
      let? current_pk := read_i64 qe (edge_to edge) pk_col "current row PK is null" row in
      let? view := map_err RQuery (rq_read_single_table qe tick (edge_from edge)) in
      let? found := find_row_with qe (edge_from edge) (edge_from_column edge) "row has null FK" current_pk
                      (rpm_row_ids (view_position_map view)) in
      ok_or found (RScope ("target row not found: " +:+ edge_from edge +:+ " <- " +:+ edge_to edge
        +:+ " (pk=" +:+ show_i64 current_pk +:+ ")"))
  end.

Definition pin_in_cache (ev : Evaluator) (row_id : RowId) : Evaluator * RuleResult unit :=
  let table := sc_table (ev_scope ev) in
  let tick := pc_current_tick (ev_cache ev) in
  match (match cache_find_view cache_order (ev_cache ev) table tick with
         | Some view => Ok view
         | None => map_err RQuery (rq_read_single_table (ev_query_engine ev) tick table)
         end) with
  | Err e => (ev, Err e)
  | Ok view =>
      let '(c, r) := cache_insert cache_order (ev_cache ev) (mkCachedRow tick table row_id view) in
      (ev_with_cache ev c, r)
  end.

Definition evaluator_jump_to (ev : Evaluator) (relation_name : string) (d : JumpDirection)
  : Evaluator * RuleResult unit :=
  match (let? edge := map_err RQuery (query_resolve_relation_edge (ev_query_engine ev) relation_name) in
         let? target_row := resolve_target_row ev edge d in
         let? s := scope_apply_jump (ev_scope ev) edge d target_row in
         Ok (target_row, s)) with
  | Err e => (ev, Err e)
  | Ok (target_row, s) => pin_in_cache (ev_with_scope ev s) target_row
  end.
End evaluator.
Arguments Evaluator Query {RQ} V {SO QO VO}.
