(* ===== verification/RuleSamples.v ===== *)
(** * RuleSamples: instances the examples of the rule interpreter run on

    A query engine that is a map of integer tables, JSON as text, and an evaluator over both with
    the journal of [Journal.v] on its sample store. *)

From Stdlib Require Import Ascii String SpecFloat.
From stdpp Require Import base gmap strings list fin_maps.
From Stdlib Require Import ZArith Lia.
From S2P Require Import Prelude RustStr CoreTypes FixedPoint SchemaTables Relations Registry Journal.
From S2P Require Import RuleCore RuleCache Float64 Rules.

Record MemQuery := mkMem {
  mem_registry : SchemaRegistry; mem_tables : gmap string (gmap Z (gmap string Z)) }.

Definition mem_rows (q : MemQuery) (table : string) : QueryResult (gmap Z (gmap string Z)) :=
  ok_or (mem_tables q !! table) (QTableNotFound table).

#[export] Instance MemRuleQuery : RuleQuery MemQuery := {|
  RowView := gmap string Z;
  TableView := RowPositionMap;
  rq_registry q := Ok (mem_registry q);
  rq_column_kind q table column := map_ok (fun _ => KInt64) (mem_rows q table);
  rq_lookup_row q table row :=
    let? rows := mem_rows q table in
    ok_or (rows !! row_id_as_u64 row) (QInvalidQuery ("row not found in table '" +:+ table +:+ "'"));
  rq_read_single_table q tick table :=
    map_ok (fun rows => mkRPM ((fun _ => (0, 0)) <$> rows)) (mem_rows q table);
  row_get_i64 row column := Ok (row !! column);
  row_get_f64 row column := Err (QTypeMismatch column "Float64Array" "Int64");
  row_get_bool row column := Err (QTypeMismatch column "BooleanArray" "Int64");
  row_get_string row column := Err (QTypeMismatch column "StringArray" "Int64");
  view_position_map v := v |}.

#[export] Instance TextJson : JsonOps string := {|
  json_from_f64 x :=
    match x with
    | S754_finite s m e => Some ((if s then "-" else "") +:+ show_i64 (Z.pos m) +:+ "p" +:+ show_i64 e)
    | S754_zero _ => Some "0"
    | _ => None
    end;
  json_bool b := if b then "true" else "false";
  json_string s := s;
  json_u64 := show_u64;
  json_array l := String.concat "," l;
  json_object m := String.concat "," ((fun kv => kv.1 +:+ ":" +:+ kv.2) <$> map_to_list m) |}.

(** Provinces belong to actors: [province.owner] refers to [actor.id]. *)
Definition owner_edge : RelationEdge := mkEdge "province" "actor" OneToMany "owner" (Some "id").
Definition id_table (name : string) : TableSpec :=
  mkTable name [column_new "id" SemId "int64"] {["id" := 0%nat]} Authority.
Definition sample_registry : SchemaRegistry :=
  mkRegistry {["province" := id_table "province"; "actor" := id_table "actor"]}
    (mkGraph [owner_edge] {["province" := [0%nat]]}) true [] None.
Definition sample_actors : gmap Z (gmap string Z) :=
  {[ 10 := {["id" := 100; "gold" := 500]}; 11 := {["id" := 101; "gold" := 70]} ]}.
Definition sample_query : MemQuery := mkMem sample_registry
  {["actor" := sample_actors; "province" := {[ 1 := {["id" := 1; "owner" := 100]}; 2 := {["id" := 2; "owner" := 100]} ]} ]}.
Definition sample_evaluator (table : string) (row : Z) : Evaluator MemQuery string :=
  evaluator_new sample_query (sample_journal false []) table (mkRowId row).

Definition keys_up (m : gmap Z (Z * Z)) : list Z := (map_to_list m).*1.
Definition keys_down (m : gmap Z (Z * Z)) : list Z := reverse (keys_up m).

Example sample_column :
  evaluate (sample_evaluator "actor" 10)
    (ECall "add" [("y", EConst (fp_new 5 0)); ("x", EColumn (mkPath "actor" "gold"))])
  = Ok (VFixedPoint (fp_new 505 0)).
Proof. vm_compute. reflexivity. Qed.
(** Arguments are bound by the order of their names, whatever the names are. *)
Example sample_division :
  evaluate (sample_evaluator "actor" 10)
    (ECall "div" [("numerator", EConst (fp_new 6 0)); ("denominator", EConst (fp_new 3 0))])
  = Ok (VFixedPoint (fp_new 0 0)).
Proof. vm_compute. reflexivity. Qed.
(** A replaced function keeps the arity of the one it replaces. *)
Example sample_replaced_arity :
  evaluate (evaluator_register_function (sample_evaluator "actor" 10) "add" (fun vs => Ok (VList vs)))
    (ECall "add" [("a", EBool true)])
  = Err (REvaluation "function 'add' expects 2 arguments, got 1").
Proof. vm_compute. reflexivity. Qed.
