(* ===== verification/RulesFacts.v ===== *)
(** * RulesFacts: what the rule evaluator promises

    Over the definitions of [Rules.v]: evaluation and effects do not depend on the order in which
    hash tables iterate, and effects only append to the journal's pending diffs. *)

From Stdlib Require Import Ascii String.
From stdpp Require Import base gmap strings list fin_maps sorting.
From Stdlib Require Import ZArith Lia Sorted.
From S2P Require Import Prelude RustStr CoreTypes FixedPoint SchemaTables Relations Registry Journal.
From S2P Require Import RuleCore RuleCache Float64 Rules RuleSamples.

(** ** Induction on expressions *)

Section expr_induction.
Context (P : Expr -> Prop).
Hypothesis Pconst : forall v, P (EConst v).
Hypothesis Pbool : forall b, P (EBool b).
Hypothesis Pstring : forall s, P (EString s).
Hypothesis Prow : forall r, P (ERowId r).
Hypothesis Pcolumn : forall p, P (EColumn p).
Hypothesis Pvar : forall v, P (EVar v).
Hypothesis Pnot : forall e, P e -> P (ENot e).
Hypothesis Pand : forall l, Forall P l -> P (EAnd l).
Hypothesis Por : forall l, Forall P l -> P (EOr l).
Hypothesis Pcompare : forall op a b, P a -> P b -> P (ECompare op a b).
Hypothesis Parith : forall op a b, P a -> P b -> P (EArithmetic op a b).
Hypothesis Pif : forall a b c, P a -> P b -> P c -> P (EIf a b c).
Hypothesis Pcall : forall f l, Forall (fun ke => P ke.2) l -> P (ECall f l).
Hypothesis Plist : forall l, Forall P l -> P (EList l).
Hypothesis Pmap : forall l, Forall (fun ke => P ke.2) l -> P (EMap l).

Fixpoint expr_deep_ind (e : Expr) : P e :=
  let all := fix all (l : list Expr) : Forall P l :=
    match l with [] => Forall_nil_2 _ | e :: l' => Forall_cons_2 _ _ _ (expr_deep_ind e) (all l') end in
  let entries := fix entries (l : list (string * Expr)) : Forall (fun ke => P ke.2) l :=
    match l with
    | [] => Forall_nil_2 _
    | (k, e) :: l' => Forall_cons_2 (fun ke => P ke.2) (k, e) _ (expr_deep_ind e) (entries l')
    end in
  match e with
  | EConst v => Pconst v
  | EBool b => Pbool b
  | EString s => Pstring s
  | ERowId r => Prow r
  | EColumn p => Pcolumn p
  | EVar v => Pvar v
  | ENot e => Pnot e (expr_deep_ind e)
  | EAnd l => Pand l (all l)
  | EOr l => Por l (all l)
  | ECompare op a b => Pcompare op a b (expr_deep_ind a) (expr_deep_ind b)
  | EArithmetic op a b => Parith op a b (expr_deep_ind a) (expr_deep_ind b)
  | EIf a b c => Pif a b c (expr_deep_ind a) (expr_deep_ind b) (expr_deep_ind c)
  | ECall f l => Pcall f l (entries l)
  | EList l => Plist l (all l)
  | EMap l => Pmap l (entries l)
  end.
End expr_induction.

Section effect_induction.
Context (P : Effect -> Prop).
Hypothesis Pupdate : forall t c e, P (EffUpdateColumn t c e).
Hypothesis Pinsert : forall t r l, P (EffInsertRow t r l).
Hypothesis Pset : forall n e, P (EffSetVariable n e).
Hypothesis Pseq : forall l, Forall P l -> P (EffSequence l).

Fixpoint effect_deep_ind (e : Effect) : P e :=
  let all := fix all (l : list Effect) : Forall P l :=
    match l with [] => Forall_nil_2 _ | e :: l' => Forall_cons_2 _ _ _ (effect_deep_ind e) (all l') end in
  match e with
  | EffUpdateColumn t c e => Pupdate t c e
  | EffInsertRow t r l => Pinsert t r l
  | EffSetVariable n e => Pset n e
  | EffSequence l => Pseq l (all l)
  end.
End effect_induction.

Section value_induction.
Context (P : EvalValue -> Prop).
Hypothesis Pfixed : forall v, P (VFixedPoint v).
Hypothesis Pbool : forall b, P (VBool b).
Hypothesis Pstring : forall s, P (VString s).
Hypothesis Prow : forall r, P (VRowId r).
Hypothesis Plist : forall l, Forall P l -> P (VList l).
Hypothesis Pmap : forall l, Forall (fun ke => P ke.2) l -> P (VMap l).

Fixpoint value_deep_ind (v : EvalValue) : P v :=
  let all := fix all (l : list EvalValue) : Forall P l :=
    match l with [] => Forall_nil_2 _ | e :: l' => Forall_cons_2 _ _ _ (value_deep_ind e) (all l') end in
  let entries := fix entries (l : list (string * EvalValue)) : Forall (fun ke => P ke.2) l :=
    match l with
    | [] => Forall_nil_2 _
    | (k, e) :: l' => Forall_cons_2 (fun ke => P ke.2) (k, e) _ (value_deep_ind e) (entries l')
    end in
  match v with
  | VFixedPoint v => Pfixed v
  | VBool b => Pbool b
  | VString s => Pstring s
  | VRowId r => Prow r
  | VList l => Plist l (all l)
  | VMap l => Pmap l (entries l)
  end.
End value_induction.

(** ** The same expression, its hash tables iterated in another order *)

(** Entries are matched key by key and then permuted; keys are distinct. *)
Inductive entries_eqv {A B} (R : A -> B -> Prop) (l : list (string * A)) (l' : list (string * B)) : Prop :=
| Entries_eqv mid :
    Forall2 (fun x y => x.1 = y.1 /\ R x.2 y.2) l mid -> mid ≡ₚ l' -> NoDup l.*1 -> entries_eqv R l l'.

Definition is_leaf (e : Expr) : bool :=
  match e with
  | EConst _ | EBool _ | EString _ | ERowId _ | EColumn _ | EVar _ => true
  | _ => false
  end.

Inductive expr_eqv : Expr -> Expr -> Prop :=
| Eqv_leaf e : is_leaf e = true -> expr_eqv e e
| Eqv_not a a' : expr_eqv a a' -> expr_eqv (ENot a) (ENot a')
| Eqv_and l l' : Forall2 expr_eqv l l' -> expr_eqv (EAnd l) (EAnd l')
| Eqv_or l l' : Forall2 expr_eqv l l' -> expr_eqv (EOr l) (EOr l')
| Eqv_compare op a a' b b' :
    expr_eqv a a' -> expr_eqv b b' -> expr_eqv (ECompare op a b) (ECompare op a' b')
| Eqv_arith op a a' b b' :
    expr_eqv a a' -> expr_eqv b b' -> expr_eqv (EArithmetic op a b) (EArithmetic op a' b')
| Eqv_if a a' b b' c c' :
    expr_eqv a a' -> expr_eqv b b' -> expr_eqv c c' -> expr_eqv (EIf a b c) (EIf a' b' c')
| Eqv_call f l l' : entries_eqv expr_eqv l l' -> expr_eqv (ECall f l) (ECall f l')
| Eqv_list l l' : Forall2 expr_eqv l l' -> expr_eqv (EList l) (EList l')
| Eqv_map l l' : entries_eqv expr_eqv l l' -> expr_eqv (EMap l) (EMap l').

Inductive value_eqv : EvalValue -> EvalValue -> Prop :=
| Veqv_refl v : value_eqv v v
| Veqv_list l l' : Forall2 value_eqv l l' -> value_eqv (VList l) (VList l')
| Veqv_map l l' : entries_eqv value_eqv l l' -> value_eqv (VMap l) (VMap l').

Inductive effect_eqv : Effect -> Effect -> Prop :=
| Feqv_update t c e e' : expr_eqv e e' -> effect_eqv (EffUpdateColumn t c e) (EffUpdateColumn t c e')
| Feqv_insert t r l l' : entries_eqv expr_eqv l l' -> effect_eqv (EffInsertRow t r l) (EffInsertRow t r l')
| Feqv_set n e e' : expr_eqv e e' -> effect_eqv (EffSetVariable n e) (EffSetVariable n e')
| Feqv_seq l l' : Forall2 effect_eqv l l' -> effect_eqv (EffSequence l) (EffSequence l').

Lemma assoc_get_map {A} k (l : list (string * A)) :
  assoc_get k l = (list_to_map l : gmap string A) !! k.
Proof.
  induction l as [|[k' x] l IH]; [done|]. unfold assoc_get. simpl.
  case_bool_decide; subst; simpl; [by rewrite lookup_insert_eq|].
  rewrite lookup_insert_ne by done. exact IH.
Qed.

Lemma assoc_get_perm {A} k (l l' : list (string * A)) :
  l ≡ₚ l' -> NoDup l.*1 -> assoc_get k l = assoc_get k l'.
Proof. intros Hp Hn. by rewrite !assoc_get_map, (list_to_map_proper l l'). Qed.

Lemma assoc_get_rel {A B} (R : A -> B -> Prop) (l : list (string * A)) (l' : list (string * B)) k :
  Forall2 (fun x y => x.1 = y.1 /\ R x.2 y.2) l l' ->
  match assoc_get k l, assoc_get k l' with
  | Some x, Some y => R x y
  | None, None => k ∉ l.*1
  | _, _ => False
  end.
Proof.
  induction 1 as [|[k1 x] [k2 y] l l' [Hk Hxy] Hl IH]; [set_solver|].
  unfold assoc_get in *. simpl in *. subst k2. case_bool_decide; simpl; [done|].
  destruct (List.find _ l), (List.find _ l'); simpl in *; try done. set_solver.
Qed.

Lemma Forall2_keys {A B} (R : A -> B -> Prop) (l : list (string * A)) (l' : list (string * B)) :
  Forall2 (fun x y => x.1 = y.1 /\ R x.2 y.2) l l' -> l.*1 = l'.*1.
Proof. induction 1 as [|x y l l' [Hk _] _ IH]; [done|]. rewrite !fmap_cons. by f_equal. Qed.

Lemma sorted_keys_perm (l l' : list string) :
  l ≡ₚ l' -> merge_sort String.le l = merge_sort String.le l'.
Proof.
  intros Hp. apply (StronglySorted_unique String.le).
  - apply (StronglySorted_merge_sort _).
  - apply (StronglySorted_merge_sort _).
  - by rewrite !merge_sort_Permutation.
Qed.

Lemma eval_table_fmap f l : eval_table f l = (fun ke => (ke.1, f ke.2)) <$> l.
Proof. induction l as [|[k e] l IH]; simpl; [done|]. by rewrite IH. Qed.

Lemma eval_entries_map f l :
  eval_entries f l = try_map (fun ke => let? v := f ke.2 in Ok (ke.1, v)) l.
Proof. induction l as [|[k e] l IH]; simpl; [done|]. rewrite IH. by destruct (f e). Qed.

Lemma try_map_keys {A B} (f : A -> RuleResult B) (l : list (string * A)) l' :
  try_map (fun ke => let? v := f ke.2 in Ok (ke.1, v)) l = Ok l' -> l'.*1 = l.*1.
Proof.
  revert l'. induction l as [|[k e] l IH]; intros l'; simpl; [by intros [= <-]|].
  destruct (f e); simpl; [|done]. destruct (try_map _ l); simpl; [|done].
  intros [= <-]. simpl. f_equal. by apply IH.
Qed.

Lemma json_entries_map {V} (f : EvalValue -> RuleResult V) l :
  json_entries f l = try_map (fun ke => let? v := f ke.2 in Ok (ke.1, v)) l.
Proof. induction l as [|[k e] l IH]; simpl; [done|]. rewrite IH. by destruct (f e). Qed.

(** A loop over the entries of a table gives the same entries, or fails, in any order. *)
Lemma entries_loop_rel {A B C D} (S : C -> D -> Prop)
    (f : A -> RuleResult C) (g : B -> RuleResult D) l mid l' :
  Forall2 (fun x y => x.1 = y.1 /\ res_rel S (f x.2) (g y.2)) l mid -> mid ≡ₚ l' -> NoDup l.*1 ->
  res_rel (entries_eqv S)
    (try_map (fun ke => let? v := f ke.2 in Ok (ke.1, v)) l)
    (try_map (fun ke => let? v := g ke.2 in Ok (ke.1, v)) l').
Proof.
  intros Hl Hp Hn.
  assert (H1 : res_rel (Forall2 (fun x y => x.1 = y.1 /\ S x.2 y.2))
    (try_map (fun ke => let? v := f ke.2 in Ok (ke.1, v)) l)
    (try_map (fun ke => let? v := g ke.2 in Ok (ke.1, v)) mid)).
  { apply try_map_rel. eapply Forall2_impl; [exact Hl|]. intros [k x] [k' y] [Hk Hr]. simpl in *.
    eapply res_rel_bind; [exact Hr|]. intros a b Hab. by split. }
  pose proof (try_map_perm (fun ke => let? v := g ke.2 in Ok (ke.1, v)) _ _ Hp) as H2.
  destruct (try_map _ l) as [r|] eqn:E, (try_map _ mid), (try_map _ l'); simpl in *; try done.
  apply try_map_keys in E. econstructor; [exact H1|exact H2|]. by rewrite E.
Qed.

Lemma value_eqv_bool v v' : value_eqv v v' ->
  match v, v' with VBool b, VBool b' => b = b' | VBool _, _ | _, VBool _ => False | _, _ => True end.
Proof. intros H. inversion H; subst; [by destruct v'|done|done]. Qed.

Lemma value_eqv_name v v' : value_eqv v v' -> variant_name v = variant_name v'.
Proof. intros H. inversion H; subst; done. Qed.

Lemma compare_values_eqv op a a' b b' :
  value_eqv a a' -> value_eqv b b' ->
  res_rel value_eqv (compare_values op a b) (compare_values op a' b').
Proof.
  intros Ha Hb. inversion Ha; subst; inversion Hb; subst; [apply res_rel_refl, Veqv_refl|..];
    by try destruct a'; try destruct b'.
Qed.

Lemma arithmetic_values_eqv op a a' b b' :
  value_eqv a a' -> value_eqv b b' ->
  res_rel value_eqv (arithmetic_values op a b) (arithmetic_values op a' b').
Proof.
  intros Ha Hb. inversion Ha; subst; inversion Hb; subst; [apply res_rel_refl, Veqv_refl|..];
    by try destruct a'; try destruct b'.
Qed.

Lemma builtin_binary_eqv name f vs vs' :
  Forall2 value_eqv vs vs' -> res_rel value_eqv (builtin_binary name f vs) (builtin_binary name f vs').
Proof.
  intros H. destruct H as [|x x' l l' Hx H]; [done|]. destruct H as [|y y' l l' Hy H]; [done|].
  simpl. inversion Hx; subst; [|done..]. inversion Hy; subst; [|by case_match..].
  destruct x'; try done. destruct y'; try done. destruct (f _ _); simpl; [constructor|done].
Qed.

Lemma builtin_not_eqv vs vs' :
  Forall2 value_eqv vs vs' -> res_rel value_eqv (builtin_not vs) (builtin_not vs').
Proof.
  intros H. destruct H as [|x x' l l' Hx H]; [done|]. simpl.
  inversion Hx; subst; [|done..]. destruct x'; simpl; try done. constructor.
Qed.

Lemma collect_map_list_to_map {A} (l : list (string * A)) :
  NoDup l.*1 -> collect_map l = list_to_map l.
Proof.
  unfold collect_map. rewrite <- (map_union_empty (list_to_map l)). generalize (∅ : gmap string A).
  induction l as [|[k x] l IH]; intros m Hn; simpl in *; [by rewrite map_empty_union|].
  apply NoDup_cons in Hn as [Hk Hn]. rewrite IH by done.
  rewrite <- insert_union_r; [by rewrite insert_union_l|]. by apply not_elem_of_list_to_map_1.
Qed.

Lemma collect_map_eqv {A} (l l' : list (string * A)) :
  entries_eqv eq l l' -> collect_map l = collect_map l'.
Proof.
  intros [mid Hl Hp Hn]. assert (l = mid) as <-.
  { clear -Hl. induction Hl as [|[k x] [k' y] l l' [Hk Hx] _ IH]; [done|]. simpl in *. by subst. }
  assert (Hn' : NoDup l'.*1) by by rewrite <- Hp.
  rewrite !collect_map_list_to_map by done. by apply list_to_map_proper.
Qed.

Section determinism.
Context {Query : Type} {RQ : RuleQuery Query} {FP : FloatPlatform}.
Context {V : Type} {JO : JsonOps V} {SO : StoreOps V} {QO : QueryOps V} {VO : SaveOps V}.
Abbreviation evaluator := (Evaluator Query V).

(** Two evaluators that differ at most in the order their variables' maps iterate in. *)
Record ev_eqv (ev1 ev2 : evaluator) : Prop := {
  eqv_query : ev_query_engine ev1 = ev_query_engine ev2;
  eqv_journal : ev_journal ev1 = ev_journal ev2;
  eqv_scope : ev_scope ev1 = ev_scope ev2;
  eqv_modifiers : ev_modifiers ev1 = ev_modifiers ev2;
  eqv_variables : forall k,
    match ev_variables ev1 !! k, ev_variables ev2 !! k with
    | Some v, Some v' => value_eqv v v'
    | None, None => True
    | _, _ => False
    end;
  eqv_builtins : ev_builtins ev1 = ev_builtins ev2;
  eqv_arg_counts : ev_builtin_arg_counts ev1 = ev_builtin_arg_counts ev2 }.

Lemma ev_eqv_refl ev : ev_eqv ev ev.
Proof. split; try done. intros k. destruct (ev_variables ev !! k); [constructor|done]. Qed.

(** A registered function does not look at the order of a map either; the default ones do not. *)
Definition builtins_respect (ev : evaluator) : Prop :=
  forall name f, ev_builtins ev !! name = Some f ->
  forall vs vs', Forall2 value_eqv vs vs' -> res_rel value_eqv (f vs) (f vs').

Lemma default_builtins_respect ev : ev_builtins ev = default_builtins.1 -> builtins_respect ev.
Proof.
  intros H name f. rewrite H. simpl. intros Hf vs vs' Hvs.
  repeat (apply lookup_insert_Some in Hf as [[_ <-]|[_ Hf]];
          [by apply builtin_binary_eqv || by apply builtin_not_eqv|]).
  by rewrite lookup_empty in Hf.
Qed.

Lemma args_in_order_eqv func l mid l' :
  Forall2 (fun x y => x.1 = y.1 /\ res_rel value_eqv x.2 y.2) l mid -> mid ≡ₚ l' -> NoDup l.*1 ->
  res_rel (Forall2 value_eqv) (args_in_order func l) (args_in_order func l').
Proof.
  intros Hl Hp Hn. pose proof (Forall2_keys _ _ _ Hl) as Hk. unfold args_in_order.
  rewrite Hk in *. assert (Hp' : mid.*1 ≡ₚ l'.*1) by by rewrite Hp.
  rewrite (sorted_keys_perm _ _ Hp'). apply try_map_rel.
  assert (Hin : Forall (fun k => k ∈ mid.*1) (merge_sort String.le l'.*1)).
  { rewrite Forall_forall. intros k Hk'. by rewrite merge_sort_Permutation, <- Hp' in Hk'. }
  induction Hin as [|k ks Hin _ IH]; constructor; [|done].
  rewrite <- (assoc_get_perm k mid l') by done. pose proof (assoc_get_rel _ _ _ k Hl) as Hr.
  destruct (assoc_get k l), (assoc_get k mid); done.
Qed.

Lemma eval_connectives_eqv f g l l' :
  Forall2 (fun x y => res_rel value_eqv (f x) (g y)) l l' ->
  res_rel value_eqv (eval_and f l) (eval_and g l') /\ res_rel value_eqv (eval_or f l) (eval_or g l').
Proof.
  induction 1 as [|x y l k Hx Hl [IH1 IH2]]; simpl; [split; constructor|].
  destruct (f x) as [a|], (g y) as [b|]; simpl in *; try done.
  pose proof (value_eqv_bool _ _ Hx). destruct a, b; simpl; try done. subst.
  case_match; split; done || constructor.
Qed.

Lemma call_function_eqv ev1 ev2 func l mid l' :
  ev_eqv ev1 ev2 -> builtins_respect ev1 ->
  Forall2 (fun x y => x.1 = y.1 /\ res_rel value_eqv x.2 y.2) l mid -> mid ≡ₚ l' -> NoDup l.*1 ->
  res_rel value_eqv (call_function ev1 func l) (call_function ev2 func l').
Proof.
  intros Hev Hb Hl Hp Hn. unfold call_function.
  rewrite <- (eqv_arg_counts _ _ Hev), <- (eqv_builtins _ _ Hev).
  rewrite <- (Permutation_length Hp), <- (Forall2_length _ _ _ Hl). cbv zeta.
  match goal with |- res_rel _ (match ?x with Some e => Err e | None => _ end) _ => destruct x end; [done|].
  eapply res_rel_bind; [by eapply args_in_order_eqv|].
  intros vs vs' Hvs. destruct (ev_builtins ev1 !! func) as [fn|] eqn:Ef; simpl; [|done]. by eapply Hb.
Qed.

(** The induction hypothesis, item by item and entry by entry. *)
Lemma items_eqv (P : Expr -> Expr -> Prop) l l' :
  Forall (fun x => forall y, expr_eqv x y -> P x y) l -> Forall2 expr_eqv l l' -> Forall2 P l l'.
Proof. intros H Hl. eapply Forall_Forall2_impl; [exact H|exact Hl|]. auto. Qed.
Lemma entries_ih (P : Expr -> Expr -> Prop) (l mid : list (string * Expr)) :
  Forall (fun ke => forall y, expr_eqv ke.2 y -> P ke.2 y) l ->
  Forall2 (fun x y => x.1 = y.1 /\ expr_eqv x.2 y.2) l mid ->
  Forall2 (fun x y => x.1 = y.1 /\ P x.2 y.2) l mid.
Proof. intros H Hl. eapply Forall_Forall2_impl; [exact H|exact Hl|]. simpl. naive_solver. Qed.

Lemma evaluate_eqv ev1 ev2 e :
  ev_eqv ev1 ev2 -> builtins_respect ev1 ->
  forall e', expr_eqv e e' -> res_rel value_eqv (evaluate ev1 e) (evaluate ev2 e').
Proof.
  intros Hev Hb.
  pose proof (items_eqv (fun x y => res_rel value_eqv (evaluate ev1 x) (evaluate ev2 y))) as Hitems.
  pose proof (entries_ih (fun x y => res_rel value_eqv (evaluate ev1 x) (evaluate ev2 y))) as Hentries.
  induction e using expr_deep_ind; intros e' He; inversion He; subst; simpl; try constructor; try done.
  - unfold evaluate_column.
    rewrite (eqv_scope _ _ Hev), (eqv_query _ _ Hev), (eqv_modifiers _ _ Hev).
    apply res_rel_refl, Veqv_refl.
  - unfold evaluator_resolve_var. pose proof (eqv_variables _ _ Hev (var_name v)) as Hv.
    destruct (ev_variables ev1 !! _), (ev_variables ev2 !! _); simpl; try done.
  - eapply res_rel_bind; [by apply IHe|]. intros u u' Hu. pose proof (value_eqv_bool _ _ Hu).
    destruct u, u'; simpl; try done. subst. constructor.
  - by apply eval_connectives_eqv, Hitems.
  - by apply eval_connectives_eqv, Hitems.
  - eapply res_rel_bind; [by apply IHe1|]. intros u u' Hu.
    eapply res_rel_bind; [by apply IHe2|]. intros w w' Hw. by apply compare_values_eqv.
  - eapply res_rel_bind; [by apply IHe1|]. intros u u' Hu.
    eapply res_rel_bind; [by apply IHe2|]. intros w w' Hw. by apply arithmetic_values_eqv.
  - eapply res_rel_bind; [by apply IHe1|]. intros u u' Hu. pose proof (value_eqv_bool _ _ Hu).
    destruct u, u'; simpl; try done. subst. case_match; [by apply IHe2|by apply IHe3].
  - match goal with H : entries_eqv _ _ _ |- _ => destruct H as [mid Hl Hp Hn] end.
    pose proof (Hentries _ _ H Hl) as Hr. rewrite !eval_table_fmap.
    apply (call_function_eqv _ _ _ _ ((fun ke => (ke.1, evaluate ev2 ke.2)) <$> mid)); [done|done|by apply Forall2_fmap|by rewrite Hp|].
    rewrite <- list_fmap_compose. exact Hn.
  - match goal with Hl : Forall2 _ _ _ |- _ => pose proof (try_map_rel _ _ _ _ _ (Hitems _ _ H Hl)) as Hr end.
    destruct (try_map _ l), (try_map _ l'); simpl in *; try done. by constructor.
  - match goal with H : entries_eqv _ _ _ |- _ => destruct H as [mid Hl Hp Hn] end.
    rewrite !eval_entries_map.
    pose proof (entries_loop_rel value_eqv _ _ _ _ _ (Hentries _ _ H Hl) Hp Hn) as H2.
    destruct (try_map _ l), (try_map _ l'); simpl in *; try done. by constructor.
Qed.

Lemma value_to_json_eqv v : forall v', value_eqv v v' ->
  res_rel eq (eval_value_to_json (V := V) v) (eval_value_to_json v').
Proof.
  induction v using value_deep_ind; intros v' Hv; inversion Hv; subst; try (by apply res_rel_refl); simpl.
  - match goal with Hl : Forall2 _ _ _ |- _ =>
      pose proof (try_map_rel eq _ _ _ _ (Forall_Forall2_impl _ _ _ _ _ H Hl (fun x y Hx => Hx y))) as Hr end.
    destruct (try_map _ l), (try_map _ l'); simpl in *; try done.
    f_equal. by apply list_eq_Forall2.
  - match goal with H : entries_eqv _ _ _ |- _ => destruct H as [mid Hl Hp Hn] end.
    assert (Hr : Forall2 (fun x y => x.1 = y.1
      /\ res_rel eq (eval_value_to_json (V := V) x.2) (eval_value_to_json y.2)) l mid).
    { eapply Forall_Forall2_impl; [exact H|exact Hl|]. intros [k x] [k' y] Hx [Hk Hxy]. simpl in *.
      split; [done|]. by apply Hx. }
    rewrite !json_entries_map. pose proof (entries_loop_rel eq _ _ _ _ _ Hr Hp Hn) as H2.
    destruct (try_map _ l), (try_map _ l'); simpl in *; try done.
    f_equal. by apply collect_map_eqv.
Qed.

(** The value of an expression, as JSON. *)
Definition eval_json (ev : evaluator) (e : Expr) : RuleResult V :=
  let? val := evaluate ev e in eval_value_to_json val.

Lemma eval_json_eqv ev1 ev2 e e' :
  ev_eqv ev1 ev2 -> builtins_respect ev1 -> expr_eqv e e' ->
  res_rel eq (eval_json ev1 e) (eval_json ev2 e').
Proof.
  intros Hev Hb He. unfold eval_json. eapply res_rel_bind; [by apply evaluate_eqv|].
  intros v v' Hv. by apply value_to_json_eqv.
Qed.

Lemma evaluate_row_map ev l acc :
  evaluate_row ev l acc
  = let? r := try_map (fun ke => let? v := eval_json ev ke.2 in Ok (ke.1, v)) l in
    Ok (List.fold_left (fun m kx => <[kx.1 := kx.2]> m) r acc).
Proof.
  revert acc. induction l as [|[k e] l IH]; intros acc; simpl; [done|]. unfold eval_json at 1.
  destruct (evaluate ev e); simpl; [|done]. destruct (eval_value_to_json _); simpl; [|done].
  rewrite IH. by destruct (try_map _ l).
Qed.

Lemma evaluate_row_eqv ev1 ev2 l l' :
  ev_eqv ev1 ev2 -> builtins_respect ev1 -> entries_eqv expr_eqv l l' ->
  res_rel eq (evaluate_row ev1 l ∅) (evaluate_row ev2 l' ∅).
Proof.
  intros Hev Hb [mid Hl Hp Hn]. rewrite !evaluate_row_map.
  assert (Hr : Forall2 (fun x y => x.1 = y.1 /\ res_rel eq (eval_json ev1 x.2) (eval_json ev2 y.2)) l mid).
  { eapply Forall2_impl; [exact Hl|]. intros [k x] [k' y] [Hk Hxy]. simpl in *.
    split; [done|]. by apply eval_json_eqv. }
  eapply res_rel_bind; [exact (entries_loop_rel eq _ _ _ _ _ Hr Hp Hn)|].
  intros r r' Hr'. simpl. by apply (collect_map_eqv r r').
Qed.

(** ** The frame of an effect *)

(** What an effect leaves alone; it appends [ds] to the pending diffs. *)
Record effect_frame (ev ev' : evaluator) (ds : list (Diff V)) : Prop := {
  frame_query : ev_query_engine ev' = ev_query_engine ev;
  frame_scope : ev_scope ev' = ev_scope ev;
  frame_cache : ev_cache ev' = ev_cache ev;
  frame_modifiers : ev_modifiers ev' = ev_modifiers ev;
  frame_builtins : ev_builtins ev' = ev_builtins ev;
  frame_arg_counts : ev_builtin_arg_counts ev' = ev_builtin_arg_counts ev;
  frame_journal : ev_journal ev' = with_pending (ev_journal ev)
    (j_pending_commands (ev_journal ev)) (j_pending_diffs (ev_journal ev) ++ ds) }.

Lemma effect_frame_refl ev : effect_frame ev ev [].
Proof. split; try done. rewrite app_nil_r. by destruct (ev_journal ev). Qed.

Lemma effect_frame_trans ev1 ev2 ev3 ds1 ds2 :
  effect_frame ev1 ev2 ds1 -> effect_frame ev2 ev3 ds2 -> effect_frame ev1 ev3 (ds1 ++ ds2).
Proof.
  intros [A1 A2 A3 A4 A5 A6 A7] [B1 B2 B3 B4 B5 B6 B7].
  split; try congruence. rewrite B7, A7. simpl. by rewrite app_assoc.
Qed.

Definition diff_target (d : Diff V) : string * option RowId := (diff_table d, diff_row_id d).

(** The rows an effect writes, in order, for a scope on [row]. *)
Fixpoint effect_targets (row : RowId) (eff : Effect) : list (string * option RowId) :=
  match eff with
  | EffUpdateColumn table _ _ => [(table, Some row)]
  | EffInsertRow table r _ => [(table, Some r)]
  | EffSetVariable _ _ => []
  | EffSequence effects => flat_map (effect_targets row) effects
  end.

(** The diffs submitted are the effect's, up to its first failure. *)
Definition submits (row : RowId) (targets : list (string * option RowId)) (ok : bool)
    (ds : list (Diff V)) : Prop :=
  if ok then diff_target <$> ds = targets
  else exists rest, targets = (diff_target <$> ds) ++ rest.

Lemma submit_diff_frame ev d :
  exists ds, effect_frame ev (evaluator_submit_diff ev d).1 ds
  /\ submits (sc_row (ev_scope ev)) [diff_target d] (is_ok (evaluator_submit_diff ev d).2) ds
  /\ ev_variables (evaluator_submit_diff ev d).1 = ev_variables ev.
Proof.
  unfold evaluator_submit_diff, journal_submit_diff. case_bool_decide; simpl.
  - exists []. split_and!; [apply effect_frame_refl| |done]. by exists [diff_target d].
  - exists [d]. by split_and!.
Qed.

Lemma evaluate_effect_frame eff : forall ev,
  exists ds, effect_frame ev (evaluate_effect ev eff).1 ds
  /\ submits (sc_row (ev_scope ev)) (effect_targets (sc_row (ev_scope ev)) eff)
       (is_ok (evaluate_effect ev eff).2) ds.
Proof.
  assert (Hnone : forall ev targets, exists ds, effect_frame ev ev ds
    /\ submits (sc_row (ev_scope ev)) targets false ds).
  { intros ev targets. exists []. split; [apply effect_frame_refl|]. by exists targets. }
  induction eff as [t c e|t r l|n e|l IH] using effect_deep_ind; intros ev; simpl.
  - destruct (let? _ := _ in _) as [j|]; simpl; [|apply Hnone].
    destruct (submit_diff_frame ev (Update t (sc_row (ev_scope ev)) c j)) as (ds & H1 & H2 & _).
    by exists ds.
  - destruct (evaluate_row ev l ∅) as [j|]; simpl; [|apply Hnone].
    destruct (submit_diff_frame ev (Insert t r j)) as (ds & H1 & H2 & _). by exists ds.
  - destruct (evaluate ev e) as [v|]; simpl; [|apply Hnone]. exists []. split; [|done].
    split; try done. simpl. rewrite app_nil_r. by destruct (ev_journal ev).
  - revert ev. induction IH as [|e l He _ IH]; intros ev; simpl.
    { exists []. split; [apply effect_frame_refl|done]. }
    destruct (He ev) as (ds1 & F1 & S1). destruct (evaluate_effect ev e) as [ev1 [[]|x]]; simpl in *.
    + destruct (IH ev1) as (ds2 & F2 & S2). exists (ds1 ++ ds2).
      split; [by eapply effect_frame_trans|]. rewrite (frame_scope _ _ _ F1) in S2.
      destruct (is_ok _); simpl in *; rewrite fmap_app, S1; [by rewrite S2|].
      destruct S2 as [rest ->]. exists rest. by rewrite app_assoc.
    + exists ds1. split; [done|]. destruct S1 as [rest ->]. eexists. by rewrite <- app_assoc.
Qed.

Lemma submit_diff_eqv ev1 ev2 d :
  ev_eqv ev1 ev2 ->
  ev_eqv (evaluator_submit_diff ev1 d).1 (evaluator_submit_diff ev2 d).1
  /\ is_ok (evaluator_submit_diff ev1 d).2 = is_ok (evaluator_submit_diff ev2 d).2.
Proof.
  intros Hev. unfold evaluator_submit_diff. rewrite <- (eqv_journal _ _ Hev).
  destruct (journal_submit_diff _ d); simpl; [|done]. split; [|done]. destruct Hev. by split.
Qed.

Lemma evaluate_effect_eqv eff : forall ev1 ev2 eff',
  ev_eqv ev1 ev2 -> builtins_respect ev1 -> effect_eqv eff eff' ->
  ev_eqv (evaluate_effect ev1 eff).1 (evaluate_effect ev2 eff').1
  /\ is_ok (evaluate_effect ev1 eff).2 = is_ok (evaluate_effect ev2 eff').2.
Proof.
  induction eff as [t c e|t r l|n e|l IH] using effect_deep_ind; intros ev1 ev2 eff' Hev Hb He;
    inversion He; subst; simpl.
  - fold (eval_json ev1 e) (eval_json ev2 e'). rewrite (eqv_scope _ _ Hev).
    pose proof (eval_json_eqv _ _ _ _ Hev Hb H3) as Hj.
    destruct (eval_json ev1 e), (eval_json ev2 e'); simpl in *; try done. subst.
    by apply submit_diff_eqv.
  - pose proof (evaluate_row_eqv _ _ _ _ Hev Hb H3) as Hj.
    destruct (evaluate_row ev1 l ∅), (evaluate_row ev2 l' ∅); simpl in *; try done. subst.
    by apply submit_diff_eqv.
  - pose proof (evaluate_eqv _ _ _ Hev Hb _ H2) as Hj.
    destruct (evaluate ev1 e) as [v|], (evaluate ev2 e') as [v'|]; simpl in *; try done.
    split; [|done]. destruct Hev. split; simpl; try done. intros k.
    destruct (decide (n = k)) as [->|]; [rewrite !lookup_insert_eq; done|].
    rewrite !lookup_insert_ne by done. apply eqv_variables0.
  - revert ev1 ev2 Hev Hb. clear He. match goal with H : Forall2 _ _ _ |- _ => revert IH; induction H as [|x y l k Hxy Hl IHl] end;
      intros IH ev1 ev2 Hev Hb; simpl; [done|]. inversion IH as [|? ? Hx Hr]; subst.
    destruct (Hx ev1 ev2 y Hev Hb Hxy) as [H1 H2]. destruct (evaluate_effect_frame x ev1) as (ds & F & _).
    destruct (evaluate_effect ev1 x) as [ev1' [[]|]], (evaluate_effect ev2 y) as [ev2' [[]|]]; simpl in *; try done.
    apply IHl; [done|done|]. intros name f Hf. apply (Hb name). by rewrite <- (frame_builtins _ _ _ F).
Qed.

(** C16: Peers whose hash tables iterate in different orders run a rule alike: an effect and the same
    effect with the entries of its argument, map and row literals in another order submit the same
    diffs to the journal and leave the evaluators in the same state, and one fails exactly when the
    other does (with which error can differ, when several entries fail). *)
Theorem effects_ignore_hash_order (ev1 ev2 : evaluator) (eff eff' : Effect) :
  ev_eqv ev1 ev2 -> builtins_respect ev1 -> effect_eqv eff eff' ->
  ev_journal (evaluate_effect ev1 eff).1 = ev_journal (evaluate_effect ev2 eff').1
  /\ is_ok (evaluate_effect ev1 eff).2 = is_ok (evaluate_effect ev2 eff').2
  /\ ev_eqv (evaluate_effect ev1 eff).1 (evaluate_effect ev2 eff').1.
Proof.
  intros Hev Hb He. destruct (evaluate_effect_eqv _ _ _ _ Hev Hb He) as [H1 H2].
  by split; [apply eqv_journal|].
Qed.

(** An effect reaches the world only through the journal's pending diffs: it appends the diffs of
    its updates and insertions, in order, up to the first that fails, and a failure does not take
    back those before it; nothing else of the evaluator or of the journal changes, but for the
    variables it binds. *)
Theorem effects_only_append (ev : evaluator) (eff : Effect) :
  exists ds,
    effect_frame ev (evaluate_effect ev eff).1 ds
    /\ match (evaluate_effect ev eff).2 with
       | Ok _ => diff_target <$> ds = effect_targets (sc_row (ev_scope ev)) eff
       | Err _ => exists rest, effect_targets (sc_row (ev_scope ev)) eff = (diff_target <$> ds) ++ rest
       end.
Proof.
  destruct (evaluate_effect_frame eff ev) as (ds & H1 & H2). exists ds. split; [done|].
  unfold submits in H2. by destruct (evaluate_effect ev eff).2.
Qed.
End determinism.

Definition founding (swap : bool) : Effect :=
  let x := ("x", EConst (fp_new 1 0)) in
  let y := ("y", EConst (fp_new 2 0)) in
  let id := ("id", ECall "sub" (if swap then [y; x] else [x; y])) in
  let owner := ("owner", EColumn (mkPath "actor" "id")) in
  EffSequence [EffSetVariable "n" (EBool true);
               EffInsertRow "province" (mkRowId 3) (if swap then [owner; id] else [id; owner])].

Lemma founding_eqv : effect_eqv (founding false) (founding true).
Proof.
  constructor. constructor; [constructor; by constructor|]. constructor; [|constructor].
  constructor. econstructor; [|apply perm_swap|].
  - constructor; [split; [done|]|constructor; [split; [done|by constructor]|constructor]].
    constructor. econstructor; [|apply perm_swap|]; [|repeat constructor; set_solver].
    constructor; [split; [done|by constructor]|constructor; [split; [done|by constructor]|constructor]].
  - repeat constructor; set_solver.
Qed.

Lemma effects_ignore_hash_order_witness :
  j_pending_diffs (ev_journal (evaluate_effect (sample_evaluator "actor" 10) (founding true)).1)
    = [Insert "province" (mkRowId 3) {["id" := "-4503599627370496p-52"; "owner" := "7036874417766400p-46"]}]
  /\ ev_journal (evaluate_effect (sample_evaluator "actor" 10) (founding false)).1
     = ev_journal (evaluate_effect (sample_evaluator "actor" 10) (founding true)).1.
Proof.
  split; [vm_compute; reflexivity|].
  apply (effects_ignore_hash_order (sample_evaluator "actor" 10) (sample_evaluator "actor" 10)
    (founding false) (founding true));
    [apply ev_eqv_refl|by apply default_builtins_respect|exact founding_eqv].
Defined.
