(* ===== verification/RulesTyping.v ===== *)
(** * RulesTyping: a type checker for rule expressions, and its soundness

    The source checks types while it evaluates. [infer] is the static reading of those checks: an
    expression it accepts fails at run time only for the reasons arithmetic and the query engine
    have. The second part is the algebra of the short-circuiting connectives. *)

From Stdlib Require Import Ascii String.
From stdpp Require Import base gmap strings list fin_maps sorting.
From Stdlib Require Import ZArith Lia Sorted.
From S2P Require Import Prelude RustStr CoreTypes FixedPoint SchemaTables Relations Registry Journal.
From S2P Require Import RuleCore RuleCache Float64 Rules RuleSamples RulesFacts.

(** ** Types *)

Inductive Ty := TFixed | TBool | TString | TRowId | TList | TMap.

#[export] Instance Ty_eq_dec : EqDecision Ty.
Proof. solve_decision. Defined.

Definition value_type (v : EvalValue) : Ty :=
  match v with
  | VFixedPoint _ => TFixed | VBool _ => TBool | VString _ => TString
  | VRowId _ => TRowId | VList _ => TList | VMap _ => TMap
  end.

Definition column_type (k : ColumnKind) : option Ty :=
  match k with
  | KInt64 | KUInt64 | KFloat64 => Some TFixed
  | KBoolean => Some TBool
  | KUtf8 | KLargeUtf8 => Some TString
  | KNull | KUnknown => None
  end.

Definition scalar (t : Ty) : bool := match t with TList | TMap => false | _ => true end.

(** Arity, argument type and result type of the default functions *)
Definition signature (func : string) : option (nat * Ty * Ty) :=
  (list_to_map
    [("add", (2%nat, TFixed, TFixed)); ("sub", (2%nat, TFixed, TFixed)); ("mul", (2%nat, TFixed, TFixed));
     ("div", (2%nat, TFixed, TFixed)); ("min", (2%nat, TFixed, TFixed)); ("max", (2%nat, TFixed, TFixed));
     ("not", (1%nat, TBool, TBool))] : gmap string (nat * Ty * Ty)) !! func.

(** The errors a well-typed expression can still meet. *)
Definition runtime_error (e : RuleError) : bool :=
  match e with
  | RQuery _ => true
  | RCore (ArithmeticOverflow | DivisionByZero | InvalidFixedPointScale _ _) => true
  | REvaluation msg => bool_decide (msg = core_error_text ArithmeticOverflow)
  | _ => false
  end.

Definition well_behaved (t : Ty) (r : RuleResult EvalValue) : Prop :=
  match r with Ok v => value_type v = t | Err e => runtime_error e = true end.

(** ** Arithmetic fails only with arithmetic errors *)

Definition fp_error (e : CoreError) : bool :=
  match e with ArithmeticOverflow | DivisionByZero | InvalidFixedPointScale _ _ => true | _ => false end.
Definition fp_behaved {A} (r : CoreResult A) : Prop :=
  match r with Ok _ => True | Err e => fp_error e = true end.

Lemma fp_bind {A B} (r : CoreResult A) (k : A -> CoreResult B) :
  fp_behaved r -> (forall a, fp_behaved (k a)) -> fp_behaved (let? a := r in k a).
Proof. destruct r; simpl; auto. Qed.

Lemma fp_ok_or {A} (o : option A) : fp_behaved (ok_or o ArithmeticOverflow).
Proof. destruct o; simpl; done. Qed.

Lemma fp_scale_check a b : fp_behaved (fp_ensure_same_scale a b).
Proof. unfold fp_ensure_same_scale. by case_match. Qed.

#[export] Hint Resolve fp_ok_or fp_scale_check : engine.

Ltac fp_steps := repeat first [apply fp_bind; [auto with engine|intros ?]| case_match | done | simpl; done].

Lemma fp_ops_behaved a b n :
  fp_behaved (fp_rescale a n) /\ fp_behaved (fp_add a b) /\ fp_behaved (fp_sub a b)
  /\ fp_behaved (fp_mul a b) /\ fp_behaved (fp_div a b).
Proof.
  unfold fp_rescale, fp_add, fp_sub, fp_mul, fp_div. split_and!; fp_steps.
Qed.

Lemma fp_from_f64_behaved `{FloatPlatform} x n :
  match fp_try_from_f64 x n with Ok _ => True | Err e => e = ArithmeticOverflow end.
Proof. unfold fp_try_from_f64. by destruct (_ || _). Qed.

Lemma rcore_behaved (r : CoreResult FixedPoint) :
  fp_behaved r -> well_behaved TFixed (map_ok VFixedPoint (map_err RCore r)).
Proof. destruct r as [|[]]; simpl; done. Qed.

(** The result of an aggregation is a value or an arithmetic error. *)
Definition agg_behaved (r : RuleResult FixedPoint) : Prop :=
  match r with Ok _ => True | Err e => runtime_error e = true end.

Lemma agg_bind (r : RuleResult FixedPoint) k :
  agg_behaved r -> (forall a, agg_behaved (k a)) -> agg_behaved (let? a := r in k a).
Proof. destruct r; simpl; auto. Qed.

Lemma agg_core r : fp_behaved r -> agg_behaved (map_err RCore r).
Proof. destruct r as [|[]]; simpl; done. Qed.

Lemma modifier_apply_behaved m base : agg_behaved (modifier_apply m base).
Proof.
  unfold modifier_apply. case_match; simpl; try done.
  all: apply agg_bind; [apply agg_core, (fp_ops_behaved _ base)|intros a; apply agg_core].
  all: apply (fp_ops_behaved base a 0).
Qed.

Lemma apply_all_behaved ms base : agg_behaved (apply_all base ms).
Proof.
  revert base. induction ms as [|m ms IH]; intros base; [done|]. unfold apply_all in *. simpl.
  apply agg_bind; [apply modifier_apply_behaved|exact IH].
Qed.

Lemma aggregate_behaved reg table column base :
  well_behaved TFixed (map_ok VFixedPoint (modifiers_aggregate reg table column base)).
Proof.
  assert (H : agg_behaved (modifiers_aggregate reg table column base)).
  { unfold modifiers_aggregate. destruct (List.fold_left _ _ _) as [[adds muls] ovs].
    apply agg_bind; [apply apply_all_behaved|intros a]. apply agg_bind; [apply apply_all_behaved|intros b].
    case_match; [apply modifier_apply_behaved|done]. }
  by destruct (modifiers_aggregate _ _ _ _).
Qed.

Section typing.
Context {Query : Type} {RQ : RuleQuery Query} {FP : FloatPlatform}.
Context {V : Type} {JO : JsonOps V} {SO : StoreOps V} {QO : QueryOps V} {VO : SaveOps V}.
Abbreviation evaluator := (Evaluator Query V).

(** ** The checker *)

Fixpoint infer (ev : evaluator) (e : Expr) {struct e} : option Ty :=
  match e with
  | EConst _ => Some TFixed
  | EBool _ => Some TBool
  | EString _ => Some TString
  | ERowId _ => Some TRowId
  | EColumn p =>
      match rq_column_kind (ev_query_engine ev) (path_table p) (path_column p) with
      | Ok k => column_type k
      | Err _ => None
      end
  | EVar v => value_type <$> ev_variables ev !! var_name v
  | ENot a => if bool_decide (infer ev a = Some TBool) then Some TBool else None
  | EAnd items | EOr items =>
      if forallb (fun a => bool_decide (infer ev a = Some TBool)) items then Some TBool else None
  | ECompare _ a b =>
      match infer ev a, infer ev b with
      | Some t, Some t' => if bool_decide (t = t') && scalar t then Some TBool else None
      | _, _ => None
      end
  | EArithmetic op a b =>
      match op with
      | OpRem => None
      | _ => if bool_decide (infer ev a = Some TFixed) && bool_decide (infer ev b = Some TFixed)
             then Some TFixed else None
      end
  | EIf c a b =>
      match infer ev a, infer ev b with
      | Some t, Some t' =>
          if bool_decide (infer ev c = Some TBool) && bool_decide (t = t') then Some t else None
      | _, _ => None
      end
  | ECall f args =>
      match signature f with
      | Some (n, targ, tres) =>
          if (length args =? n)%nat && forallb (fun ke => bool_decide (infer ev (snd ke) = Some targ)) args
          then Some tres else None
      | None => None
      end
  | EList items => if forallb (fun a => bool_decide (is_Some (infer ev a))) items then Some TList else None
  | EMap entries =>
      if forallb (fun ke => bool_decide (is_Some (infer ev (snd ke)))) entries then Some TMap else None
  end.

(** ** Soundness *)

Definition default_functions (ev : evaluator) : Prop :=
  ev_builtins ev = default_builtins.1 /\ ev_builtin_arg_counts ev = default_builtins.2.

(** A value of any type, or a run-time error. *)
Definition no_type_error {A} (r : RuleResult A) : Prop :=
  match r with Ok _ => True | Err e => runtime_error e = true end.

Lemma well_behaved_err t r : well_behaved t r -> no_type_error r.
Proof. destruct r; simpl; done. Qed.

Lemma try_map_behaved {A B} (P : B -> Prop) (f : A -> RuleResult B) l :
  Forall (fun x => match f x with Ok v => P v | Err e => runtime_error e = true end) l ->
  match try_map f l with Ok vs => Forall P vs /\ length vs = length l | Err e => runtime_error e = true end.
Proof.
  induction 1 as [|x l Hx _ IH]; simpl; [done|]. destruct (f x); simpl; [|done].
  destruct (try_map f l); simpl; [|done]. destruct IH as [IH ->]. split; [by constructor|done].
Qed.

Lemma evaluate_column_behaved ev p k t :
  rq_column_kind (ev_query_engine ev) (path_table p) (path_column p) = Ok k ->
  column_type k = Some t -> well_behaved t (evaluate_column ev p).
Proof.
  intros Hk Ht. unfold evaluate_column. rewrite Hk. simpl.
  destruct (rq_lookup_row _ _ _) as [r|]; simpl; [|done].
  destruct k; simplify_eq/=.
  - destruct (row_get_i64 r _); simpl; [apply aggregate_behaved|done].
  - destruct (row_get_i64 r _); simpl; [apply aggregate_behaved|done].
  - destruct (row_get_f64 r _) as [x|]; simpl; [|done].
    pose proof (fp_from_f64_behaved (default (SpecFloat.S754_zero false) x) 2) as Hf.
    destruct (fp_try_from_f64 _ 2); simpl; [apply aggregate_behaved|by subst].
  - by destruct (row_get_bool r _).
  - by destruct (row_get_string r _).
  - by destruct (row_get_string r _).
Qed.

Lemma args_in_order_behaved func t table :
  Forall (fun ke => well_behaved t ke.2) table ->
  match args_in_order func table with
  | Ok vs => Forall (fun v => value_type v = t) vs /\ length vs = length table
  | Err e => runtime_error e = true
  end.
Proof.
  intros Ht. unfold args_in_order.
  assert (Hlen : length (merge_sort String.le table.*1) = length table).
  { rewrite (Permutation_length (merge_sort_Permutation _ _)). apply length_fmap. }
  rewrite <- Hlen. apply try_map_behaved. rewrite Forall_forall. intros k Hk.
  rewrite merge_sort_Permutation in Hk. unfold assoc_get.
  destruct (List.find _ table) as [[k' r]|] eqn:Ef; simpl.
  - apply List.find_some in Ef as [Hin _]. rewrite <- list_elem_of_In in Hin.
    rewrite Forall_forall in Ht. exact (Ht _ Hin).
  - apply list_elem_of_fmap in Hk as (x & -> & Hin). apply list_elem_of_In in Hin.
    apply List.find_none with (x := x) in Ef; [|done]. simpl in Ef.
    by rewrite bool_decide_eq_true_2 in Ef.
Qed.

Lemma builtin_behaved f n targ tres fn vs :
  signature f = Some (n, targ, tres) -> default_builtins.1 !! f = Some fn ->
  Forall (fun v => value_type v = targ) vs -> length vs = n -> well_behaved tres (fn vs).
Proof.
  intros Hs Hf Hvs Hn.
  assert (Hbin : forall name g, targ = TFixed -> tres = TFixed -> n = 2%nat ->
    (forall a b, well_behaved TFixed (map_ok VFixedPoint (g a b))) ->
    well_behaved tres (builtin_binary name g vs)).
  { intros name g -> -> -> Hg. destruct vs as [|x [|y [|]]]; try done.
    inversion Hvs as [|? ? Hx Hvs']; subst. inversion Hvs' as [|? ? Hy _]; subst.
    destruct x as [a| | | | |]; try done. destruct y as [b| | | | |]; try done. simpl.
    specialize (Hg a b). by destruct (g a b). }
  unfold signature in Hs. simpl in Hs, Hf.
  repeat (apply lookup_insert_Some in Hs as [[<- [= <- <- <-]]|[? Hs]];
    [repeat (apply lookup_insert_Some in Hf as [[? Hf]|[? Hf]]; [try done|]);
     try (by rewrite lookup_empty in Hf)|]).
  all: try (by rewrite lookup_empty in Hs).
  all: subst fn.
  all: try (apply Hbin; [done|done|done|]; intros a b; try done; apply rcore_behaved, (fp_ops_behaved a b 0)).
  destruct vs as [|x [|]]; try done. inversion Hvs as [|? ? Hx _]; subst. by destruct x.
Qed.

Lemma connectives_behaved (f : Expr -> RuleResult EvalValue) l :
  Forall (fun a => well_behaved TBool (f a)) l ->
  well_behaved TBool (eval_and f l) /\ well_behaved TBool (eval_or f l).
Proof.
  induction 1 as [|a l Ha _ [IH1 IH2]]; simpl; [done|].
  destruct (f a) as [[|[]| | | |]|]; simpl in *; done.
Qed.

Lemma signature_builtin f n targ tres :
  signature f = Some (n, targ, tres) ->
  is_Some (default_builtins.1 !! f) /\ default_builtins.2 !! f = Some n.
Proof.
  unfold signature. simpl. intros Es.
  repeat (apply lookup_insert_Some in Es as [[<- [= <- <- <-]]|[? Es]];
    [split; [eexists|]; simpl; simplify_map_eq; done|]).
  by rewrite lookup_empty in Es.
Qed.

Lemma call_behaved ev f n targ tres table :
  default_functions ev -> signature f = Some (n, targ, tres) -> length table = n ->
  Forall (fun ke => well_behaved targ ke.2) table -> well_behaved tres (call_function ev f table).
Proof.
  intros [Hfn Hcount] Hs Hn Ht. destruct (signature_builtin _ _ _ _ Hs) as [[fn Hf] Hc].
  unfold call_function. rewrite Hcount, Hc, Hn, Nat.eqb_refl. cbn [negb].
  pose proof (args_in_order_behaved f _ _ Ht) as Ha.
  destruct (args_in_order f _) as [vs|]; [|done]. destruct Ha as [Hv Hl].
  unfold BuiltinFn in *. rewrite Hfn, Hf. simpl. eapply builtin_behaved; [done..|by rewrite Hl].
Qed.

(** What the checker's [forallb] gives, under an induction hypothesis. *)
Lemma checked_items {A} (P : A -> Prop) (Q : A -> Prop) `{forall x, Decision (Q x)} l :
  Forall (fun x => Q x -> P x) l -> forallb (fun x => bool_decide (Q x)) l = true -> Forall P l.
Proof.
  induction 1 as [|x l Hx _ IH]; simpl; [constructor|]. intros [H1 H2]%andb_prop.
  constructor; [by apply Hx; apply bool_decide_eq_true in H1|by apply IH].
Qed.

Lemma collected_behaved {A B} (f : A -> RuleResult B) l :
  Forall (fun a => no_type_error (f a)) l -> no_type_error (try_map f l).
Proof.
  intros H. pose proof (try_map_behaved (fun _ => True) f l H) as Hm. by destruct (try_map f l).
Qed.

Lemma infer_sound ev e :
  default_functions ev -> forall t, infer ev e = Some t -> well_behaved t (evaluate ev e).
Proof.
  intros Hfun. induction e using expr_deep_ind; intros t Ht; simpl in Ht; simplify_eq; try done.
  - simpl. destruct (rq_column_kind _ _ _) eqn:Ek; [|done]. by eapply evaluate_column_behaved.
  - simpl. unfold evaluator_resolve_var. destruct (ev_variables ev !! _); by simplify_eq/=.
  - case_bool_decide as Hd; simplify_eq. specialize (IHe _ Hd). simpl.
    destruct (evaluate ev e) as [[]|]; simpl in *; done.
  - destruct (forallb _ l) eqn:Ed; simplify_eq. apply connectives_behaved.
    eapply checked_items; [|exact Ed]. eapply Forall_impl; [exact H|]. auto.
  - destruct (forallb _ l) eqn:Ed; simplify_eq. apply connectives_behaved.
    eapply checked_items; [|exact Ed]. eapply Forall_impl; [exact H|]. auto.
  - destruct (infer ev e1) as [t1|], (infer ev e2) as [t2|]; try done.
    case_bool_decide; subst; simpl in Ht; [|done]. destruct (scalar t2) eqn:Es; simplify_eq.
    specialize (IHe1 _ eq_refl). specialize (IHe2 _ eq_refl). simpl.
    destruct (evaluate ev e1) as [v1|]; simpl in *; [|done].
    destruct (evaluate ev e2) as [v2|]; simpl in *; [|done]. subst. by destruct v1, v2.
  - assert (op <> OpRem /\ infer ev e1 = Some TFixed /\ infer ev e2 = Some TFixed /\ t = TFixed) as (Hop & H1 & H2 & ->).
    { destruct op; try done; repeat case_bool_decide; simplify_eq/=; done. }
    specialize (IHe1 _ H1). specialize (IHe2 _ H2). simpl.
    destruct (evaluate ev e1) as [[x| | | | |]|], (evaluate ev e2) as [[y| | | | |]|]; simpl in *; try done.
    destruct op; try done; apply rcore_behaved, (fp_ops_behaved x y 0).
  - destruct (infer ev e2) as [t2|], (infer ev e3) as [t3|]; try done.
    repeat case_bool_decide; simplify_eq/=. specialize (IHe1 _ eq_refl) || specialize (IHe1 _ H).
    destruct (evaluate ev e1) as [[|[]| | | |]|]; simpl in *; try done; auto.
  - destruct (signature f) as [[[n targ] tres]|] eqn:Es; [|done].
    destruct (Nat.eqb_spec (length l) n) as [Hn|]; [|done].
    destruct (forallb _ l) eqn:Ed; simplify_eq/=. rewrite eval_table_fmap.
    eapply call_behaved; [done|done|apply length_fmap|]. apply Forall_fmap.
    eapply checked_items; [|exact Ed]. eapply Forall_impl; [exact H|]. simpl. auto.
  - destruct (forallb _ l) eqn:Ed; simplify_eq. simpl.
    assert (Hl : no_type_error (try_map (evaluate ev) l)).
    { apply collected_behaved. eapply checked_items; [|exact Ed]. eapply Forall_impl; [exact H|].
      intros a Ha [t Ht]. by eapply well_behaved_err, Ha. }
    by destruct (try_map _ l).
  - destruct (forallb _ l) eqn:Ed; simplify_eq. simpl. rewrite eval_entries_map.
    assert (Hl : no_type_error (try_map (fun ke => let? v := evaluate ev ke.2 in Ok (ke.1, v)) l)).
    { apply collected_behaved. eapply checked_items; [|exact Ed]. eapply Forall_impl; [exact H|].
      intros [k a] Ha [t Ht]. simpl in *. specialize (Ha t Ht). by destruct (evaluate ev a). }
    by destruct (try_map _ l).
Qed.

(** C18: Well-typed rules do not go wrong: an expression the checker accepts evaluates, with the default
    functions, to a value of the type it was given, or fails for a reason of arithmetic (overflow,
    division by zero, unequal scales) or of the query engine; never for a type, an arity, an
    unknown variable or an unknown function. *)
Theorem evaluate_type_sound (ev : evaluator) (e : Expr) (t : Ty) :
  default_functions ev -> infer ev e = Some t ->
  match evaluate ev e with
  | Ok v => value_type v = t
  | Err x => runtime_error x = true
  end.
Proof. intros Hd Hi. exact (infer_sound ev e Hd t Hi). Qed.

(** ** Short-circuiting connectives *)

Definition evaluates_to (ev : evaluator) (b : bool) (e : Expr) : Prop := evaluate ev e = Ok (VBool b).

Lemma eval_and_true ev l :
  eval_and (evaluate ev) l = Ok (VBool true) <-> Forall (evaluates_to ev true) l.
Proof.
  unfold evaluates_to. induction l as [|e l IH]; simpl; [by split|]. rewrite Forall_cons.
  destruct (evaluate ev e) as [[|[]| | | |]|]; rewrite ?IH; naive_solver.
Qed.

Lemma eval_and_false ev l :
  eval_and (evaluate ev) l = Ok (VBool false) <->
  exists l1 e l2, l = l1 ++ e :: l2 /\ Forall (evaluates_to ev true) l1 /\ evaluates_to ev false e.
Proof.
  unfold evaluates_to. induction l as [|e l IH]; simpl.
  { split; [done|]. by intros ([] & ? & ? & ? & _). }
  assert (Hcons : (exists l1 e' l2, e :: l = l1 ++ e' :: l2
      /\ Forall (fun e => evaluate ev e = Ok (VBool true)) l1 /\ evaluate ev e' = Ok (VBool false)) <->
    evaluate ev e = Ok (VBool false) \/ (evaluate ev e = Ok (VBool true)
      /\ eval_and (evaluate ev) l = Ok (VBool false))).
  { rewrite IH. split.
    - intros ([|e1 l1] & e' & l2 & [= -> ->] & Hl & He); [by left|]. inversion Hl; subst.
      right. split; [done|]. by exists l1, e', l2.
    - intros [He|[He (l1 & e' & l2 & -> & Hl & He')]]; [by exists [], e, l|].
      exists (e :: l1), e', l2. split; [done|]. split; [by constructor|done]. }
  rewrite Hcons. destruct (evaluate ev e) as [[|[]| | | |]|]; naive_solver.
Qed.

Lemma eval_or_not ev l b :
  eval_or (evaluate ev) (ENot <$> l) = Ok (VBool b)
  <-> eval_and (evaluate ev) l = Ok (VBool (negb b)).
Proof.
  induction l as [|e l IH]; simpl; [by destruct b|].
  destruct (evaluate ev e) as [[|[]| | | |]|]; simpl; try naive_solver. destruct b; naive_solver.
Qed.

Lemma eval_connective_bool ev l v :
  (eval_and (evaluate ev) l = Ok v -> exists b, v = VBool b)
  /\ (eval_or (evaluate ev) l = Ok v -> exists b, v = VBool b).
Proof.
  induction l as [|e l [IH1 IH2]]; simpl; [split; intros [= <-]; by eexists|].
  destruct (evaluate ev e) as [[|[]| | | |]|]; split; intros H; try done; auto;
    injection H as <-; by eexists.
Qed.

(** Conjunction and disjunction are the boolean ones, from the left and no further than needed: an
    [And] is true when all its items are, false when an item is false after only true ones (what
    follows it is not evaluated, and may be wrong), and nothing else when it has a value; and the
    two are dual through [Not]. *)
Theorem connectives_short_circuit (ev : evaluator) (items : list Expr) (v : EvalValue) :
  (evaluate ev (EAnd items) = Ok v <->
     v = VBool true /\ Forall (evaluates_to ev true) items
     \/ v = VBool false /\ exists l1 e l2, items = l1 ++ e :: l2
          /\ Forall (evaluates_to ev true) l1 /\ evaluates_to ev false e)
  /\ (evaluate ev (EOr (ENot <$> items)) = Ok v <-> evaluate ev (ENot (EAnd items)) = Ok v).
Proof.
  simpl. split.
  - rewrite <- eval_and_true, <- eval_and_false. split.
    + intros H. destruct (proj1 (eval_connective_bool ev items v) H) as [[] ->]; auto.
    + by intros [[-> H]|[-> H]].
  - split; intros H.
    + destruct (proj2 (eval_connective_bool ev _ v) H) as [b ->]. apply eval_or_not in H.
      rewrite H. by destruct b.
    + destruct (eval_and _ items) as [w|] eqn:E; simpl in H; [|done].
      destruct (proj1 (eval_connective_bool ev items w) E) as [b ->]. injection H as <-.
      apply eval_or_not. by rewrite negb_involutive.
Qed.
End typing.

Definition is_rich : Expr :=
  EAnd [ECompare CmpGt (EColumn (mkPath "actor" "gold")) (EConst (fp_new 100 0));
        ENot (ECall "not" [("value", EBool true)])].

Lemma evaluate_type_sound_witness :
  evaluate (sample_evaluator "actor" 10) is_rich = Ok (VBool true)
  /\ infer (sample_evaluator "actor" 10) is_rich = Some TBool
  /\ forall v, evaluate (sample_evaluator "actor" 10) is_rich = Ok v -> value_type v = TBool.
Proof.
  split; [vm_compute; reflexivity|]. split; [vm_compute; reflexivity|]. intros v Hv.
  pose proof (evaluate_type_sound (sample_evaluator "actor" 10) is_rich TBool) as H.
  rewrite Hv in H. apply H; [by split|vm_compute; reflexivity].
Defined.
