(* ===== verification/RuleJumps.v ===== *)
(** * RuleJumps: scope jumps along relations, and the rows effects reach

    A jump changes the evaluator only when it finds its row; forward jumps are independent of the
    order of the position map, reverse jumps are not. *)

From Stdlib Require Import Ascii String.
From stdpp Require Import base gmap strings list fin_maps.
From Stdlib Require Import ZArith Lia.
From S2P Require Import Prelude RustStr CoreTypes FixedPoint SchemaTables Relations Registry Journal.
From S2P Require Import RuleCore RuleCache Float64 Rules RuleSamples RulesFacts.

Section jumps.
Context {Query : Type} {RQ : RuleQuery Query} {FP : FloatPlatform}.
Context {V : Type} {JO : JsonOps V} {SO : StoreOps V} {QO : QueryOps V} {VO : SaveOps V}.
Abbreviation evaluator := (Evaluator Query V).
Context (cache_order : gmap CacheKey (CacheEntry TableView) -> list (CacheKey * CacheEntry TableView)).

Definition order_of_keys (row_order : gmap Z (Z * Z) -> list Z) : Prop :=
  forall m, row_order m ≡ₚ (map_to_list m).*1.

Lemma rpm_row_ids_elem row_order m r :
  order_of_keys row_order -> r ∈ rpm_row_ids row_order m <-> rpm_contains m r = true.
Proof.
  intros Ho. unfold rpm_row_ids, rpm_contains. rewrite list_elem_of_fmap, bool_decide_eq_true.
  setoid_rewrite (Ho (rpm_entries m)). split.
  - intros (k & -> & Hk). apply list_elem_of_fmap in Hk as ([k' x] & -> & Hin). simpl.
    apply elem_of_map_to_list in Hin. by eexists.
  - intros [x Hx]. exists (row_id_as_u64 r). split; [by destruct r|].
    apply list_elem_of_fmap. exists (row_id_as_u64 r, x). by rewrite elem_of_map_to_list.
Qed.

Lemma find_row_with_found qe table column msg target rows r :
  find_row_with qe table column msg target rows = Ok (Some r) ->
  r ∈ rows /\ read_i64 qe table column msg r = Ok target.
Proof.
  induction rows as [|r0 rows IH]; simpl; [done|]. destruct (read_i64 _ _ _ _ r0) as [z|] eqn:E; simpl; [|done].
  destruct (Z.eqb_spec z target); [intros [= <-]; subst; set_solver|]. intros H. apply IH in H. set_solver.
Qed.

(** What links the row a jump arrives at to the row it left. *)
Definition linked (ev : evaluator) (e : RelationEdge) (d : JumpDirection) (row : RowId) : Prop :=
  let qe := ev_query_engine ev in
  let here := sc_row (ev_scope ev) in
  exists pk key msg1 msg2, primary_key_name qe (edge_to e) = Ok pk
  /\ match d with
     | Forward => read_i64 qe (edge_from e) (edge_from_column e) msg1 here = Ok key
                  /\ read_i64 qe (edge_to e) pk msg2 row = Ok key
     | Reverse => read_i64 qe (edge_to e) pk msg1 here = Ok key
                  /\ read_i64 qe (edge_from e) (edge_from_column e) msg2 row = Ok key
     end.

Lemma resolve_target_row_ok row_order ev e d row :
  order_of_keys row_order -> resolve_target_row row_order ev e d = Ok row ->
  linked ev e d row
  /\ exists view, rq_read_single_table (ev_query_engine ev) (evaluator_current_tick ev) (jump_target e d) = Ok view
       /\ rpm_contains (view_position_map view) row = true.
Proof.
  intros Ho. unfold resolve_target_row, linked, evaluator_current_tick. destruct d; simpl.
  - destruct (read_i64 _ _ _ _ _) as [key|] eqn:E1; simpl; [|done].
    destruct (primary_key_name _ _) as [pk|] eqn:E2; simpl; [|done].
    destruct (rq_read_single_table _ _ _) as [view|] eqn:E3; simpl; [|done].
    destruct (find_row_with _ _ _ _ _ _) as [[r|]|] eqn:E4; simpl; [|done..]. intros [= <-].
    apply find_row_with_found in E4 as [Hin Hr]. rewrite rpm_row_ids_elem in Hin by done.
    split; [by do 4 eexists|by eexists].
  - destruct (primary_key_name _ _) as [pk|] eqn:E2; simpl; [|done].
    destruct (read_i64 _ _ _ _ _) as [key|] eqn:E1; simpl; [|done].
    destruct (rq_read_single_table _ _ _) as [view|] eqn:E3; simpl; [|done].
    destruct (find_row_with _ _ _ _ _ _) as [[r|]|] eqn:E4; simpl; [|done..]. intros [= <-].
    apply find_row_with_found in E4 as [Hin Hr]. rewrite rpm_row_ids_elem in Hin by done.
    split; [by do 4 eexists|by eexists].
Qed.

(** Pinning inserts the row; it fails only if its table cannot be read. *)
Lemma pin_in_cache_ok ev row view :
  rq_read_single_table (ev_query_engine ev) (evaluator_current_tick ev) (sc_table (ev_scope ev)) = Ok view ->
  exists c entry, pin_in_cache cache_order ev row = (ev_with_cache ev c, Ok tt)
  /\ pc_entries c !! cache_key (sc_table (ev_scope ev)) row = Some entry
  /\ cached_row_id (ce_row entry) = row /\ cached_tick (ce_row entry) = evaluator_current_tick ev
  /\ pc_current_tick c = evaluator_current_tick ev.
Proof.
  intros Hv. unfold pin_in_cache. unfold evaluator_current_tick in *.
  assert (exists view', match cache_find_view cache_order (ev_cache ev) (sc_table (ev_scope ev)) (pc_current_tick (ev_cache ev)) with
     | Some view => Ok view
     | None => map_err RQuery (rq_read_single_table (ev_query_engine ev) (pc_current_tick (ev_cache ev)) (sc_table (ev_scope ev)))
     end = Ok view') as [view' ->].
  { rewrite Hv. destruct (cache_find_view _ _ _ _); by eexists. }
  unfold cache_insert. simpl. do 2 eexists. split; [done|]. simpl. rewrite lookup_insert_eq.
  split_and!; try done.
  unfold cache_evict_lru. destruct (_ <=? _)%nat; [destruct (min_by_access _) as [[]|]|]; done.
Qed.

(** A jump either fails and leaves the evaluator as it was, or resolves the named edge to a row of
    the table at its other end that the key columns link to the current row, moves the scope there
    (popping comes back), pins that row in the cache at the current tick, and changes nothing else. *)
Theorem jump_to_follows_edge (row_order : gmap Z (Z * Z) -> list Z) (ev : evaluator) (name : string)
    (d : JumpDirection) :
  order_of_keys row_order ->
  match evaluator_jump_to row_order cache_order ev name d with
  | (ev', Err _) => ev' = ev
  | (ev', Ok _) =>
      exists e row c entry,
        query_resolve_relation_edge (ev_query_engine ev) name = Ok e /\ edge_key e = name
        /\ linked ev e d row
        /\ ev' = ev_with_cache (ev_with_scope ev (scope_push (ev_scope ev) (jump_target e d) row
                   (Some (mkJump name d)))) c
        /\ scope_pop (ev_scope ev') = Ok (ev_scope ev)
        /\ pc_entries c !! cache_key (jump_target e d) row = Some entry
        /\ cached_row_id (ce_row entry) = row
        /\ cached_tick (ce_row entry) = evaluator_current_tick ev
  end.
Proof.
  intros Ho. unfold evaluator_jump_to.
  destruct (query_resolve_relation_edge _ name) as [e|] eqn:Ee; simpl; [|done].
  assert (Hname : edge_key e = name).
  { unfold query_resolve_relation_edge in Ee. destruct (rq_registry _); simpl in Ee; [|done].
    destruct (List.find _ _) eqn:Ef; simplify_eq/=. apply List.find_some in Ef as [_ Ef].
    by apply bool_decide_eq_true in Ef. }
  destruct (resolve_target_row row_order ev e d) as [row|] eqn:Er; simpl; [|done].
  destruct (resolve_target_row_ok _ _ _ _ _ Ho Er) as (Hl & view & Hv & _).
  set (ev1 := ev_with_scope ev _).
  destruct (pin_in_cache_ok ev1 row view Hv) as (c & entry & -> & H1 & H2 & H3 & _).
  exists e, row, c, entry. subst ev1. rewrite Hname. split_and!; try done.
  unfold scope_pop. simpl. by destruct (ev_scope ev).
Qed.

(** ** The order of the position map *)

(** Every row of the table has its own value in the column. *)
Definition unique_column (qe : Query) (table column : string) (view : TableView) : Prop :=
  (forall r msg, rpm_contains (view_position_map view) r = true ->
     exists z, read_i64 qe table column msg r = Ok z)
  /\ (forall r1 r2 msg z, read_i64 qe table column msg r1 = Ok z ->
        read_i64 qe table column msg r2 = Ok z -> r1 = r2).

Lemma find_row_with_unique qe table column msg target rows1 rows2 :
  (forall r, r ∈ rows1 -> exists z, read_i64 qe table column msg r = Ok z) ->
  (forall r1 r2 z, read_i64 qe table column msg r1 = Ok z ->
     read_i64 qe table column msg r2 = Ok z -> r1 = r2) ->
  rows1 ≡ₚ rows2 ->
  find_row_with qe table column msg target rows1 = find_row_with qe table column msg target rows2.
Proof.
  intros Hok Huniq Hp. revert Hok.
  induction Hp as [|r l l' Hl IH|r1 r2 l|l1 l2 l3 H1 IH1 H2 IH2]; intros Hok; simpl.
  - done.
  - destruct (read_i64 _ _ _ _ r); simpl; [|done]. rewrite IH; [done|]. intros. apply Hok. by right.
  - destruct (Hok r2) as [z2 E2]; [set_solver|]. destruct (Hok r1) as [z1 E1]; [set_solver|].
    rewrite E1, E2. simpl. destruct (Z.eqb_spec z2 target), (Z.eqb_spec z1 target); try done.
    subst. by rewrite (Huniq _ _ _ E1 E2).
  - rewrite IH1 by done. apply IH2. intros r Hr. apply Hok. by rewrite H1.
Qed.

(** Where the primary key is one (present and distinct in every row of the table it is read from),
    a forward jump does not depend on the order in which the position map yields its rows. *)
Theorem forward_jump_order_independent (order1 order2 : gmap Z (Z * Z) -> list Z) (ev : evaluator)
    (name : string) :
  order_of_keys order1 -> order_of_keys order2 ->
  (forall e pk view, query_resolve_relation_edge (ev_query_engine ev) name = Ok e ->
     primary_key_name (ev_query_engine ev) (edge_to e) = Ok pk ->
     rq_read_single_table (ev_query_engine ev) (evaluator_current_tick ev) (edge_to e) = Ok view ->
     unique_column (ev_query_engine ev) (edge_to e) pk view) ->
  evaluator_jump_to order1 cache_order ev name Forward = evaluator_jump_to order2 cache_order ev name Forward.
Proof.
  intros H1 H2 Huniq. unfold evaluator_jump_to, resolve_target_row, evaluator_current_tick in *.
  destruct (query_resolve_relation_edge _ name) as [e|] eqn:Ee; simpl; [|done].
  destruct (read_i64 _ _ _ _ _) as [key|]; simpl; [|done].
  destruct (primary_key_name _ _) as [pk|] eqn:Ep; simpl; [|done].
  destruct (rq_read_single_table _ _ _) as [view|] eqn:Ev; simpl; [|done].
  destruct (Huniq e pk view eq_refl Ep Ev) as [Hok Hinj].
  rewrite (find_row_with_unique _ _ _ _ _ (rpm_row_ids order1 (view_position_map view))
    (rpm_row_ids order2 (view_position_map view))); [done| | |].
  - intros r Hr. apply Hok. by apply (rpm_row_ids_elem order1).
  - intros r1 r2 z. apply Hinj.
  - unfold rpm_row_ids. by rewrite (H1 _), (H2 _).
Qed.
End jumps.

Lemma keys_up_order : order_of_keys keys_up.
Proof. by intros m. Qed.
Lemma keys_down_order : order_of_keys keys_down.
Proof. intros m. unfold keys_down. by rewrite reverse_Permutation. Qed.

Lemma sample_actors_mem : mem_rows sample_query "actor" = Ok sample_actors.
Proof. reflexivity. Qed.

Lemma sample_actors_lookup r : r <> 10 -> r <> 11 -> sample_actors !! r = None.
Proof. intros. unfold sample_actors. by rewrite lookup_insert_ne, lookup_singleton_ne. Qed.

Lemma sample_actor_rows r :
  rpm_contains (mkRPM ((fun _ => (0, 0)) <$> sample_actors)) (mkRowId r) = true -> r = 10 \/ r = 11.
Proof.
  unfold rpm_contains. intros H. apply bool_decide_eq_true in H as [x Hx].
  cbn [rpm_entries row_id_as_u64] in Hx. rewrite lookup_fmap in Hx.
  destruct (decide (r = 10)), (decide (r = 11)); try lia. by rewrite sample_actors_lookup in Hx.
Qed.

Lemma sample_actor_read msg r z :
  read_i64 sample_query "actor" "id" msg (mkRowId r) = Ok z <-> r = 10 /\ z = 100 \/ r = 11 /\ z = 101.
Proof.
  assert (H10 : read_i64 sample_query "actor" "id" msg (mkRowId 10) = Ok 100) by (vm_compute; reflexivity).
  assert (H11 : read_i64 sample_query "actor" "id" msg (mkRowId 11) = Ok 101) by (vm_compute; reflexivity).
  destruct (decide (r = 10)) as [->|]; [rewrite H10; naive_solver lia|].
  destruct (decide (r = 11)) as [->|]; [rewrite H11; naive_solver lia|].
  unfold read_i64. cbn [rq_lookup_row MemRuleQuery row_id_as_u64]. rewrite sample_actors_mem.
  cbn. rewrite sample_actors_lookup by done. simpl. naive_solver.
Qed.

Lemma jump_to_follows_edge_witness :
  let ev := sample_evaluator "province" 2 in
  sc_row (ev_scope (evaluator_jump_to keys_up map_to_list ev "province -> actor" Forward).1) = mkRowId 10
  /\ scope_pop (ev_scope (evaluator_jump_to keys_up map_to_list ev "province -> actor" Forward).1)
     = Ok (ev_scope ev).
Proof.
  cbv zeta. split; [vm_compute; reflexivity|].
  pose proof (jump_to_follows_edge map_to_list keys_up (sample_evaluator "province" 2) "province -> actor"
    Forward keys_up_order) as H.
  destruct (evaluator_jump_to keys_up map_to_list _ _ _) as [ev' [u|e]] eqn:E.
  - destruct H as (e & row & c & entry & _ & _ & _ & _ & Hpop & _). exact Hpop.
  - apply (f_equal (fun x => is_ok x.2)) in E. vm_compute in E. discriminate E.
Defined.

Lemma forward_jump_order_independent_witness :
  evaluator_jump_to keys_up map_to_list (sample_evaluator "province" 2) "province -> actor" Forward
  = evaluator_jump_to keys_down map_to_list (sample_evaluator "province" 2) "province -> actor" Forward.
Proof.
  apply (forward_jump_order_independent map_to_list keys_up keys_down);
    [exact keys_up_order|exact keys_down_order|].
  intros e pk view He Hpk Hv. vm_compute in He. injection He as <-. vm_compute in Hpk. injection Hpk as <-.
  cbn [rq_read_single_table MemRuleQuery ev_query_engine sample_evaluator evaluator_new] in Hv.
  change (edge_to _) with "actor" in Hv. rewrite sample_actors_mem in Hv. injection Hv as <-. split.
  - intros [r] msg Hr. apply sample_actor_rows in Hr as [->| ->];
      [exists 100|exists 101]; apply sample_actor_read; lia.
  - intros [r1] [r2] msg z H1 H2. apply sample_actor_read in H1, H2. f_equal. lia.
Defined.

(** A reverse jump takes the first row that refers to the current one, in the order of a hash
    table: with the same data, two orders arrive at different rows. *)
Theorem reverse_jump_depends_on_order :
  exists order1 order2, order_of_keys order1 /\ order_of_keys order2
  /\ let ev := sample_evaluator "actor" 10 in
     sc_row (ev_scope (evaluator_jump_to order1 map_to_list ev "province -> actor" Reverse).1)
     <> sc_row (ev_scope (evaluator_jump_to order2 map_to_list ev "province -> actor" Reverse).1).
Proof.
  exists keys_up, keys_down. split; [exact keys_up_order|]. split; [exact keys_down_order|].
  vm_compute. discriminate.
Qed.

(** ** Effects and numbers *)

(** The values of effects pass through [f64]: an update to [2^53 + 1] and one to [2^53] submit the
    same diff, whatever the evaluator, the scale being 0. *)
Theorem effect_value_loses_precision {Query V} `{RQ : RuleQuery Query} `{FP : FloatPlatform}
    `{JO : JsonOps V} `{SO : StoreOps V} `{QO : !QueryOps V} `{VO : SaveOps V}
    (ev : Evaluator Query V) (table column : string) :
  fp_eq (fp_new 9007199254740993 0) (fp_new 9007199254740992 0) = false
  /\ evaluate_effect ev (EffUpdateColumn table column (EConst (fp_new 9007199254740993 0)))
     = evaluate_effect ev (EffUpdateColumn table column (EConst (fp_new 9007199254740992 0))).
Proof.
  split; [reflexivity|].
  assert (Hf : fp_to_f64 (fp_new 9007199254740993 0) = fp_to_f64 (fp_new 9007199254740992 0)).
  { unfold fp_to_f64. change (as_i32 (fp_scale _)) with 0. rewrite f64_powi10_exact by lia.
    vm_compute. reflexivity. }
  simpl. by rewrite Hf.
Qed.
