(* ===== verification/Arrow.v ===== *)
(** * Arrow: what the store uses of the Arrow and [serde_json] crates

    Both are third-party code, so they are classes: [ArrowOps] are the calls on arrays, schemas and
    record batches, [JsonRead] the accessors of a JSON value; [ArrowLaws] states the documented
    behaviour the store relies on. [ArrowVec.v] instantiates both, for examples. A downcast
    to a concrete array type succeeds when the array's data type is that type's. *)

From Stdlib Require Import Ascii String.
From stdpp Require Import base gmap strings list fin_maps.
From Stdlib Require Import ZArith Lia SpecFloat.
From S2P Require Import Prelude RustStr Float64.

(** The types the source names, and the others. *)
Inductive DataType :=
| DInt64 | DInt32 | DUInt64 | DFloat64 | DBoolean | DUtf8 | DLargeUtf8
| DOther (name : string).

#[export] Instance DataType_eq_dec : EqDecision DataType.
Proof. solve_decision. Defined.

(** [{:?}] and [to_string()] of a data type *)
Definition data_type_debug (dt : DataType) : string :=
  match dt with
  | DInt64 => "Int64" | DInt32 => "Int32" | DUInt64 => "UInt64" | DFloat64 => "Float64"
  | DBoolean => "Boolean" | DUtf8 => "Utf8" | DLargeUtf8 => "LargeUtf8" | DOther n => n
  end.

Inductive Scalar := SInt (z : Z) | SFloat (x : f64) | SBool (b : bool) | SText (s : string).

#[export] Instance f64_eq_dec : EqDecision f64.
Proof. solve_decision. Defined.
#[export] Instance Scalar_eq_dec : EqDecision Scalar.
Proof. solve_decision. Defined.

Definition scalar_int (v : Scalar) : option Z := match v with SInt z => Some z | _ => None end.
Definition scalar_float (v : Scalar) : option f64 := match v with SFloat x => Some x | _ => None end.
Definition scalar_bool (v : Scalar) : option bool := match v with SBool b => Some b | _ => None end.
Definition scalar_text (v : Scalar) : option string := match v with SText s => Some s | _ => None end.

Definition i32_min : Z := -2147483648.
Definition i32_max : Z := 2147483647.

(** The values an array of a type holds. *)
Definition scalar_fits (dt : DataType) (v : Scalar) : bool :=
  match dt, v with
  | DInt64, SInt z => in_range i64_min i64_max z
  | DInt32, SInt z => in_range i32_min i32_max z
  | DUInt64, SInt z => in_range 0 u64_max z
  | DFloat64, SFloat _ => true
  | DBoolean, SBool _ => true
  | DUtf8, SText _ | DLargeUtf8, SText _ => true
  | DOther _, _ => true
  | _, _ => false
  end.

Definition default_scalar (dt : DataType) : Scalar :=
  match dt with
  | DFloat64 => SFloat (S754_zero false) | DBoolean => SBool false
  | DUtf8 | DLargeUtf8 => SText "" | _ => SInt 0
  end.

Record Field := mkField { fld_name : string; fld_data_type : DataType; fld_nullable : bool }.

#[export] Instance Field_eq_dec : EqDecision Field.
Proof. solve_decision. Defined.

Definition cell_fits (dt : DataType) (c : option Scalar) : bool :=
  match c with None => true | Some v => scalar_fits dt v end.

(** [arr_null_buffer] is [nulls()]: the bytes of its buffer and the bit its first element is at. *)
Class ArrowOps := {
  Arr : Type;
  RecordBatch : Type;
  arr_data_type : Arr -> DataType;
  arr_len : Arr -> nat;
  arr_is_null : Arr -> nat -> bool;
  arr_value : Arr -> nat -> Scalar;
  arr_null_buffer : Arr -> option (nat * list Z);
  arr_of_cells : DataType -> list (option Scalar) -> Arr;
  arr_of_values : DataType -> list Scalar -> option (list bool) -> Arr;
  arr_slice : Arr -> nat -> nat -> Arr;
  arr_debug : Arr -> string;
  rb_try_new : list Field -> list Arr -> result string RecordBatch;
  rb_schema : RecordBatch -> list Field;
  rb_columns : RecordBatch -> list Arr;
  rb_num_rows : RecordBatch -> nat;
  schema_index_of : list Field -> string -> result string nat }.

Definition arr_cells `{ArrowOps} (a : Arr) : list (option Scalar) :=
  (fun i => if arr_is_null a i then None else Some (arr_value a i)) <$> seq 0 (arr_len a).

(** The validity bits start at the first bit of their buffer. *)
Definition arr_aligned `{ArrowOps} (a : Arr) : Prop :=
  match arr_null_buffer a with None => True | Some (off, _) => off = O end.

(** What [RecordBatch::try_new] checks of a column. *)
Definition column_ok `{ArrowOps} (rows : nat) (f : Field) (a : Arr) : Prop :=
  arr_data_type a = fld_data_type f /\ arr_len a = rows
  /\ (fld_nullable f = false -> None ∉ arr_cells a).

Definition bit_at (bytes : list Z) (i : nat) : bool :=
  Z.testbit (nth (i / 8) bytes 0) (Z.of_nat (i mod 8)).

Class ArrowLaws `{ArrowOps} := {
  of_cells_type dt l : arr_data_type (arr_of_cells dt l) = dt;
  of_cells_cells dt l : forallb (cell_fits dt) l = true -> arr_cells (arr_of_cells dt l) = l;
  of_cells_aligned dt l : arr_aligned (arr_of_cells dt l);
  of_values_type dt l nulls : arr_data_type (arr_of_values dt l nulls) = dt;
  of_values_cells dt l : forallb (scalar_fits dt) l = true ->
    arr_cells (arr_of_values dt l None) = Some <$> l;
  of_values_nulls dt l bits : forallb (scalar_fits dt) l = true -> length bits = length l ->
    arr_cells (arr_of_values dt l (Some bits))
    = zip_with (fun (b : bool) v => if b then Some v else None) bits l;
  of_values_aligned dt l nulls : arr_aligned (arr_of_values dt l nulls);
  slice_type a off n : arr_data_type (arr_slice a off n) = arr_data_type a;
  slice_cells a off n : (off + n <= arr_len a)%nat ->
    arr_cells (arr_slice a off n) = take n (drop off (arr_cells a));
  values_fit a i : (i < arr_len a)%nat -> scalar_fits (arr_data_type a) (arr_value a i) = true;
  no_null_buffer a i : arr_null_buffer a = None -> arr_is_null a i = false;
  null_buffer_bits a off bytes i : arr_null_buffer a = Some (off, bytes) -> (i < arr_len a)%nat ->
    (off + i < 8 * length bytes)%nat /\ arr_is_null a i = negb (bit_at bytes (off + i));
  null_buffer_bytes a off bytes b : arr_null_buffer a = Some (off, bytes) -> b ∈ bytes -> 0 <= b < 256;
  rb_columns_ok b : rb_columns b <> [] /\ Forall2 (column_ok (rb_num_rows b)) (rb_schema b) (rb_columns b);
  rb_try_new_ok schema cols b : rb_try_new schema cols = Ok b ->
    rb_schema b = schema /\ rb_columns b = cols;
  rb_try_new_total schema cols rows : cols <> [] -> Forall2 (column_ok rows) schema cols ->
    is_ok (rb_try_new schema cols) = true;
  schema_index_of_ok schema name i : schema_index_of schema name = Ok i ->
    exists f, schema !! i = Some f /\ fld_name f = name }.

(** Accessors of a [serde_json::Value]; [jr_text] is [to_string], [jr_debug] is [{:?}]. *)
Class JsonRead (V : Type) := {
  json_null : V;
  jr_is_null : V -> bool;
  jr_as_i64 : V -> option Z;
  jr_as_u64 : V -> option Z;
  jr_as_f64 : V -> option f64;
  jr_as_bool : V -> option bool;
  jr_as_str : V -> option string;
  jr_text : V -> string;
  jr_debug : V -> string }.

Class JsonLaws (V : Type) `{JsonRead V} := {
  jr_null_is_null : jr_is_null json_null = true;
  jr_i64_range v z : jr_as_i64 v = Some z -> i64 z;
  jr_u64_range v z : jr_as_u64 v = Some z -> u64 z }.
