(* ===== verification/ArrowVec.v ===== *)
(** * ArrowVec: arrays as vectors, JSON as a tree

    Instances of the classes of [Arrow.v] for the examples: an array is its slots behind the bits a
    slice skipped, a record batch a list of columns that passed the checks of [try_new]. *)

From Stdlib Require Import Ascii String.
From stdpp Require Import base gmap strings list fin_maps.
From Stdlib Require Import ZArith Lia SpecFloat.
From S2P Require Import Prelude RustStr Float64 Arrow.

(** ** Packed bits *)

Fixpoint byte_of (l : list bool) : Z :=
  match l with [] => 0 | b :: l' => Z.b2z b + 2 * byte_of l' end.

Fixpoint pack_bits (fuel : nat) (l : list bool) : list Z :=
  match fuel, l with
  | S fuel, _ :: _ => byte_of (take 8 l) :: pack_bits fuel (drop 8 l)
  | _, _ => []
  end.
Definition pack (l : list bool) : list Z := pack_bits (length l) l.

Lemma byte_of_testbit l k : Z.testbit (byte_of l) (Z.of_nat k) = nth k l false.
Proof.
  revert k. induction l as [|b l IH]; intros k.
  - simpl. rewrite Z.bits_0. by destruct k.
  - change (byte_of (b :: l)) with (Z.b2z b + 2 * byte_of l). rewrite Z.add_comm. destruct k as [|k].
    + by rewrite Z.testbit_0_r.
    + rewrite Nat2Z.inj_succ, Z.testbit_succ_r by lia. by rewrite IH.
Qed.

Lemma byte_of_range l : (length l <= 8)%nat -> 0 <= byte_of l < 256.
Proof.
  intros Hl. assert (0 <= byte_of l < 2 ^ Z.of_nat (length l)) as [H0 H1].
  { clear Hl. induction l as [|b l IH]; [simpl; lia|]. change (byte_of (b :: l)) with (Z.b2z b + 2 * byte_of l).
    rewrite length_cons, Nat2Z.inj_succ, Z.pow_succ_r by lia. destruct b; simpl Z.b2z; lia. }
  split; [done|]. eapply Z.lt_le_trans; [exact H1|]. change 256 with (2 ^ 8). apply Z.pow_le_mono_r; lia.
Qed.

Lemma pack_bits_spec fuel l i :
  (length l <= fuel)%nat -> (i < length l)%nat ->
  (i < 8 * length (pack_bits fuel l))%nat /\ bit_at (pack_bits fuel l) i = nth i l false.
Proof.
  revert l i. induction fuel as [|fuel IH]; intros l i Hf Hi; [lia|].
  destruct l as [|b l]; [simpl in Hi; lia|]. set (k := b :: l) in *.
  change (pack_bits (S fuel) k) with (byte_of (take 8 k) :: pack_bits fuel (drop 8 k)).
  rewrite length_cons. unfold bit_at. destruct (decide (i < 8)%nat) as [H8|H8].
  - split; [lia|]. rewrite Nat.div_small, Nat.mod_small by done. cbn [nth].
    rewrite byte_of_testbit. rewrite <- (take_drop 8 k) at 2. symmetry. apply app_nth1.
    rewrite length_take. lia.
  - destruct (IH (drop 8 k) (i - 8)%nat) as [H1 H2]; [rewrite length_drop; subst k; simpl in *; lia|
      rewrite length_drop; lia|].
    split; [lia|]. replace i with ((i - 8) + 1 * 8)%nat by lia. rewrite Nat.div_add, Nat.Div0.mod_add by lia.
    rewrite Nat.add_1_r. cbn [nth]. unfold bit_at in H2. rewrite H2.
    replace (i - 8 + 1 * 8)%nat with (8 + (i - 8))%nat by lia.
    rewrite <- (take_drop 8 k) at 2. rewrite app_nth2; rewrite length_take; [f_equal; lia|lia].
Qed.

Lemma pack_bits_bytes fuel l b : b ∈ pack_bits fuel l -> 0 <= b < 256.
Proof.
  revert l. induction fuel as [|fuel IH]; intros l; [by intros ?%elem_of_nil|].
  destruct l as [|c l]; [by intros ?%elem_of_nil|]. cbn [pack_bits].
  intros [->|H]%elem_of_cons; [|by eapply IH]. apply byte_of_range. rewrite length_take. lia.
Qed.

(** ** Arrays *)

(** A slot is its validity and its value. *)
Record VecArr := mkVec {
  va_type : DataType; va_skipped : list bool; va_slots : list (bool * Scalar); va_nullable : bool }.

Definition va_value (a : VecArr) (i : nat) : Scalar :=
  match va_slots a !! i with
  | Some (_, v) => if scalar_fits (va_type a) v then v else default_scalar (va_type a)
  | None => default_scalar (va_type a)
  end.
Definition va_is_null (a : VecArr) (i : nat) : bool :=
  va_nullable a && negb (nth i (va_slots a).*1 false).
Definition va_slice (a : VecArr) (off n : nat) : VecArr :=
  mkVec (va_type a) (va_skipped a ++ (take off (va_slots a)).*1) (take n (drop off (va_slots a)))
    (va_nullable a).
Definition slot_of (dt : DataType) (c : option Scalar) : bool * Scalar :=
  match c with Some v => (true, v) | None => (false, default_scalar dt) end.
Definition va_cells (a : VecArr) : list (option Scalar) :=
  (fun i => if va_is_null a i then None else Some (va_value a i)) <$> seq 0 (length (va_slots a)).

Definition column_check (rows : nat) (f : Field) (a : VecArr) : bool :=
  bool_decide (va_type a = fld_data_type f) && bool_decide (length (va_slots a) = rows)
  && (fld_nullable f || bool_decide (None ∉ va_cells a)).
Fixpoint columns_check (rows : nat) (schema : list Field) (cols : list VecArr) : bool :=
  match schema, cols with
  | [], [] => true
  | f :: schema, a :: cols => column_check rows f a && columns_check rows schema cols
  | _, _ => false
  end.
Definition batch_rows (cols : list VecArr) : nat :=
  match cols with [] => O | a :: _ => length (va_slots a) end.
Definition batch_check (p : list Field * list VecArr) : bool :=
  match p.2 with [] => false | _ => columns_check (batch_rows p.2) p.1 p.2 end.

Definition VecBatch : Type := { p : list Field * list VecArr | batch_check p = true }.

Definition vb_try_new (schema : list Field) (cols : list VecArr) : result string VecBatch :=
  match bool_dec (batch_check (schema, cols)) true with
  | left H => Ok (exist _ (schema, cols) H)
  | right _ => Err "Invalid argument error: columns do not fit the schema"
  end.

Fixpoint index_of (schema : list Field) (name : string) (i : nat) : option nat :=
  match schema with
  | [] => None
  | f :: schema' => if bool_decide (fld_name f = name) then Some i else index_of schema' name (S i)
  end.

#[export] Instance VecArrow : ArrowOps := {|
  Arr := VecArr;
  RecordBatch := VecBatch;
  arr_data_type := va_type;
  arr_len a := length (va_slots a);
  arr_is_null := va_is_null;
  arr_value := va_value;
  arr_null_buffer a :=
    if va_nullable a then Some (length (va_skipped a), pack (va_skipped a ++ (va_slots a).*1)) else None;
  arr_of_cells dt l := mkVec dt [] (slot_of dt <$> l) true;
  arr_of_values dt l nulls :=
    match nulls with
    | None => mkVec dt [] (pair true <$> l) false
    | Some bits => mkVec dt [] (zip bits l) true
    end;
  arr_slice := va_slice;
  arr_debug a := "PrimitiveArray";
  rb_try_new := vb_try_new;
  rb_schema b := (`b).1;
  rb_columns b := (`b).2;
  rb_num_rows b := batch_rows (`b).2;
  schema_index_of schema name := ok_or (index_of schema name 0) "Unable to get field" |}.

(** ** The laws *)

Lemma default_fits dt : scalar_fits dt (default_scalar dt) = true.
Proof. by destruct dt. Qed.

Lemma slot_of_fst dt l : (slot_of dt <$> l).*1 = (fun c => bool_decide (is_Some c)) <$> l.
Proof. rewrite <- list_fmap_compose. apply list_fmap_ext. by intros i [v|] _. Qed.

Lemma va_cells_lookup (a : VecArr) i : (i < length (va_slots a))%nat ->
  va_cells a !! i = Some (if va_is_null a i then None else Some (va_value a i)).
Proof.
  intros Hi. unfold va_cells. rewrite list_lookup_fmap, lookup_seq_lt by done. done.
Qed.

Lemma nth_fst_slot (l : list (bool * Scalar)) i : nth i l.*1 false = default false (fst <$> l !! i).
Proof. rewrite nth_lookup. by rewrite list_lookup_fmap. Qed.

Lemma va_cells_slots dt (l : list (bool * Scalar)) b :
  forallb (fun p => scalar_fits dt p.2) l = true ->
  va_cells (mkVec dt [] l b) = (fun p => if b && negb p.1 then None else Some p.2) <$> l.
Proof.
  intros Hf. rewrite forallb_forall in Hf. apply list_eq. intros i. destruct (l !! i) as [[c v]|] eqn:E.
  - rewrite va_cells_lookup by (by eapply lookup_lt_Some). unfold va_is_null, va_value. simpl.
    rewrite nth_fst_slot, list_lookup_fmap, E. simpl.
    assert (Hv : scalar_fits dt (c, v).2 = true)
      by (apply Hf, list_elem_of_In; by eapply list_elem_of_lookup_2).
    simpl in Hv. by rewrite Hv.
  - unfold va_cells. rewrite !list_lookup_fmap, E. rewrite lookup_seq_ge; [done|].
    by apply lookup_ge_None.
Qed.

Lemma forallb_fmap {A B} (f : A -> B) (p : B -> bool) l : forallb p (f <$> l) = forallb (fun x => p (f x)) l.
Proof. induction l as [|x l IH]; simpl; [done|]. by f_equal. Qed.

Lemma forallb_impl {A} (p q : A -> bool) l :
  (forall x, p x = true -> q x = true) -> forallb p l = true -> forallb q l = true.
Proof. rewrite !forallb_forall. auto. Qed.

Lemma va_slice_cells (a : VecArr) off n : (off + n <= length (va_slots a))%nat ->
  va_cells (va_slice a off n) = take n (drop off (va_cells a)).
Proof.
  intros Hn. assert (Hlen : length (va_slots (va_slice a off n)) = n)
    by (simpl; rewrite length_take, length_drop; lia).
  apply list_eq. intros i. destruct (decide (i < n)%nat) as [Hi|Hi].
  - rewrite va_cells_lookup by lia. rewrite lookup_take_lt, lookup_drop, va_cells_lookup by lia.
    unfold va_is_null, va_value. simpl. rewrite !nth_fst_slot, lookup_take_lt, lookup_drop by done. done.
  - rewrite lookup_take_ge by lia. unfold va_cells. rewrite list_lookup_fmap, lookup_seq_ge by lia. done.
Qed.

Lemma columns_check_ok rows schema cols : columns_check rows schema cols = true <->
  Forall2 (@column_ok VecArrow rows) schema cols.
Proof.
  assert (Hc : forall f a, column_check rows f a = true <-> @column_ok VecArrow rows f a).
  { intros f a. unfold column_check, column_ok. rewrite !andb_true_iff, orb_true_iff, !bool_decide_eq_true.
    change (@arr_cells VecArrow a) with (va_cells a). destruct (fld_nullable f); simpl; naive_solver. }
  revert cols. induction schema as [|f schema IH]; intros [|a cols]; simpl;
    [split; [constructor|done]|split; [done|inversion 1]|split; [done|inversion 1]|].
  rewrite andb_true_iff, Hc, IH. split; [intros []; by constructor|inversion 1; done].
Qed.

Lemma columns_check_rows rows schema a cols :
  columns_check rows schema (a :: cols) = true -> rows = length (va_slots a).
Proof. intros H%columns_check_ok. inversion H as [|f ? ? ? (? & <- & ?)]; subst. done. Qed.

Lemma index_of_ok schema name i j : index_of schema name i = Some j ->
  exists f, schema !! (j - i)%nat = Some f /\ fld_name f = name /\ (i <= j)%nat.
Proof.
  revert i. induction schema as [|f schema IH]; intros i; simpl; [done|].
  case_bool_decide as Hf; [intros [= ->]|intros H].
  - exists f. by rewrite Nat.sub_diag.
  - destruct (IH _ H) as (g & Hg & Hn & Hle). exists g. split; [|split; [done|lia]].
    by replace (j - i)%nat with (S (j - S i)) by lia.
Qed.

#[export] Instance VecArrowLaws : ArrowLaws.
Proof.
  split; try done.
  - intros dt l Hl. change (va_cells (mkVec dt [] (slot_of dt <$> l) true) = l).
    rewrite va_cells_slots.
    + rewrite <- list_fmap_compose. rewrite <- (list_fmap_id l) at 2. apply list_fmap_ext.
      by intros i [v|] _.
    + rewrite forallb_fmap. eapply forallb_impl; [|exact Hl]. intros [v|]; simpl; [done|].
      intros _. apply default_fits.
  - intros dt l [bits|]; done.
  - intros dt l Hl. change (va_cells (mkVec dt [] (pair true <$> l) false) = Some <$> l).
    rewrite va_cells_slots by (by rewrite forallb_fmap). rewrite <- list_fmap_compose. done.
  - intros dt l bits Hl Hlen. change (va_cells (mkVec dt [] (zip bits l) true) = zip_with
      (fun (b : bool) v => if b then Some v else None) bits l).
    rewrite va_cells_slots.
    + revert l Hl Hlen. induction bits as [|b bits IH]; intros [|v l] Hl Hlen; simpl in *; try done.
      f_equal; [by destruct b|]. apply IH; [by apply andb_prop in Hl as [_ ?]|lia].
    + revert l Hl Hlen. induction bits as [|b bits IH]; intros [|v l] Hl Hlen; simpl in *; try done.
      apply andb_prop in Hl as [-> Hl]. apply IH; [done|lia].
  - by intros dt l [bits|].
  - apply va_slice_cells.
  - intros a i _. simpl. unfold va_value. destruct (va_slots a !! i) as [[c v]|]; [|apply default_fits].
    destruct (scalar_fits (va_type a) v) eqn:E; [done|apply default_fits].
  - intros a i. simpl. unfold va_is_null. by destruct (va_nullable a).
  - intros a off bytes i. simpl. unfold va_is_null. destruct (va_nullable a); [|done].
    intros [= <- <-] Hi. set (l := va_skipped a ++ (va_slots a).*1).
    destruct (pack_bits_spec (length l) l (length (va_skipped a) + i)) as [H1 H2]; [done| |].
    { subst l. rewrite length_app, length_fmap. lia. }
    split; [exact H1|]. change (pack l) with (pack_bits (length l) l). rewrite H2. simpl. f_equal.
    subst l. rewrite app_nth2 by lia. f_equal. lia.
  - intros a off bytes b. simpl. destruct (va_nullable a); [|done]. intros [= <- <-]. apply pack_bits_bytes.
  - intros [[schema cols] Hb]. simpl. unfold batch_check in Hb. simpl in Hb.
    destruct cols as [|a cols]; [done|]. split; [done|]. by apply columns_check_ok.
  - intros schema cols b. simpl. unfold vb_try_new. destruct (bool_dec _ _); [|done]. by intros [= <-].
  - intros schema cols rows Hne Hc. apply columns_check_ok in Hc as Hk. simpl. unfold vb_try_new.
    destruct (bool_dec _ _) as [|Hn]; [done|]. destruct Hn. unfold batch_check. simpl.
    destruct cols as [|a cols]; [done|]. apply columns_check_rows in Hk as Hr. by subst rows.
  - intros schema name i. simpl. destruct (index_of schema name 0) as [j|] eqn:E; [|done].
    intros [= <-]. destruct (index_of_ok _ _ _ _ E) as (f & Hf & Hn & _). exists f.
    by rewrite Nat.sub_0_r in Hf.
Qed.

(** ** JSON *)

Inductive Json :=
| JNull
| JBool (b : bool)
| JInt (z : Z)
| JFloat (x : f64)
| JStr (s : string)
| JArr (l : list Json)
| JObj (m : list (string * Json)).

#[export] Instance JsonTree : JsonRead Json := {|
  json_null := JNull;
  jr_is_null v := match v with JNull => true | _ => false end;
  jr_as_i64 v := match v with JInt z => checked_i64 z | _ => None end;
  jr_as_u64 v := match v with JInt z => checked_u64 z | _ => None end;
  jr_as_f64 v := match v with JInt z => Some (f64_of_Z z) | JFloat x => Some x | _ => None end;
  jr_as_bool v := match v with JBool b => Some b | _ => None end;
  jr_as_str v := match v with JStr s => Some s | _ => None end;
  jr_text v := match v with JInt z => show_i64 z | JStr s => s | _ => "..." end;
  jr_debug v := match v with JInt z => "Number(" +:+ show_i64 z +:+ ")" | JStr s => "String(" +:+ s +:+ ")" | _ => "..." end |}.

#[export] Instance JsonTreeLaws : JsonLaws Json.
Proof.
  split; [done|..]; intros [| |z'| | | |] z; simpl; try done; by intros [-> ?]%checked_Some.
Qed.
