(* ===== verification/ArrowBatch.v ===== *)
(** * ArrowBatch: types, conversion from JSON, and patching of record batches

    Models the type registry and the free functions of [store.rs] on arrays and batches, and
    [build_null_patch] of [versioned_table.rs]. A patched primitive array copies the raw bytes of
    the validity buffer; the theorem is that this gives the cells one expects when the buffer
    starts at its first bit. A call of [RecordBatch::column] out of range panics: it is [None]. *)

From Stdlib Require Import Ascii String.
From stdpp Require Import base gmap strings list fin_maps.
From Stdlib Require Import ZArith Lia SpecFloat.
From S2P Require Import Prelude RustStr CoreTypes RuleCore Float64 Arrow ArrowVec.

Abbreviation StoreResult := (result ArrowStoreError).

(** [Display] of [f64], of the standard library *)
Class FloatText := { show_f64 : f64 -> string }.

(** [v as i64], [v as u64]: towards zero, saturating, a NaN to 0 *)
Definition f64_trunc (x : f64) : rounded :=
  match x with
  | S754_nan => RoundNan
  | S754_infinity s => RoundInf s
  | S754_zero _ => RoundInt 0
  | S754_finite s m e =>
      let n := if 0 <=? e then Z.pos m * 2 ^ e else Z.pos m / 2 ^ (- e) in
      RoundInt (if s then - n else n)
  end.
Definition f64_as_i64 (x : f64) : Z := rounded_as_i64 (f64_trunc x).
Definition f64_as_u64 (x : f64) : Z :=
  match f64_trunc x with
  | RoundNan => 0
  | RoundInf s => if s then 0 else u64_max
  | RoundInt z => Z.max 0 (Z.min u64_max z)
  end.

(** ** Conversions from JSON *)

Section json.
Context {V : Type} `{JsonRead V} `{FloatText}.

Definition json_to_i64 (value : V) : StoreResult Z :=
  match jr_as_i64 value with
  | Some v => Ok v
  | None =>
      match jr_as_f64 value with
      | Some v =>
          if SFleb (f64_of_Z i64_min) v && SFleb v (f64_of_Z i64_max) then Ok (f64_as_i64 v)
          else Err (ASchema ("value " +:+ show_f64 v +:+ " out of range for i64"))
      | None => Err (ASchema ("expected i64, got " +:+ jr_debug value))
      end
  end.

Definition json_to_i32 (value : V) : StoreResult Z :=
  let? val := ok_or (match jr_as_i64 value with
                     | Some v => Some v
                     | None => f64_as_i64 <$> jr_as_f64 value
                     end) (ASchema ("expected i32, got " +:+ jr_debug value)) in
  if in_range i32_min i32_max val then Ok val
  else Err (ASchema ("value " +:+ show_i64 val +:+ " out of range for i32")).

Definition json_to_u64 (value : V) : StoreResult Z :=
  match jr_as_u64 value, jr_as_i64 value, jr_as_f64 value with
  | Some v, _, _ => Ok v
  | None, Some v, _ =>
      if 0 <=? v then Ok v else Err (ASchema ("negative value " +:+ show_i64 v +:+ " for u64"))
  | None, None, Some v =>
      if SFleb (S754_zero false) v && SFltb v (f64_of_Z u64_max)
           && SFeqb (f64_of_Z (f64_as_u64 v)) v
      then Ok (f64_as_u64 v)
      else Err (ASchema ("value " +:+ show_f64 v +:+ " out of range for u64"))
  | None, None, None => Err (ASchema ("expected u64, got " +:+ jr_debug value))
  end.

Definition json_to_f64 (value : V) : StoreResult f64 :=
  ok_or (match jr_as_f64 value with
         | Some v => Some v
         | None => f64_of_Z <$> jr_as_i64 value
         end) (ASchema ("expected f64, got " +:+ jr_debug value)).

Definition json_to_bool (value : V) : StoreResult bool :=
  ok_or (jr_as_bool value) (ASchema ("expected bool, got " +:+ jr_debug value)).

Definition json_to_string (value : V) : StoreResult string :=
  match jr_as_str value with
  | Some s => Ok s
  | None =>
      if jr_is_null value then Ok ""
      else Err (ASchema ("expected utf8 string, got " +:+ jr_text value))
  end.

(** A key of [ReplaceTable] as a row id: a number, or the digits of one. *)
Definition json_value_to_u64 (value : V) : option Z :=
  match jr_as_str value with
  | Some s => match parse_u64 s with Ok n => Some n | Err _ => None end
  | None => jr_as_u64 value
  end.

Definition unsupported_json (dt : DataType) : ArrowStoreError :=
  ASchema ("unsupported data type for JSON conversion: " +:+ data_type_debug dt).

(** The cell of [json_value_to_array]. *)
Definition json_value_to_cell (value : V) (dt : DataType) : StoreResult (option Scalar) :=
  match dt with
  | DOther _ => Err (unsupported_json dt)
  | _ =>
    if jr_is_null value then Ok None
    else map_ok Some
      match dt with
      | DInt64 => map_ok SInt (json_to_i64 value)
      | DInt32 => map_ok SInt (json_to_i32 value)
      | DUInt64 => map_ok SInt (json_to_u64 value)
      | DFloat64 => map_ok SFloat (json_to_f64 value)
      | DBoolean => map_ok SBool (json_to_bool value)
      | DUtf8 | DLargeUtf8 => map_ok SText (json_to_string value)
      | DOther _ => Err (unsupported_json dt)
      end
  end.

Context `{ArrowOps}.

Definition json_value_to_array (value : V) (dt : DataType) : StoreResult Arr :=
  let? cell := json_value_to_cell value dt in Ok (arr_of_cells dt [cell]).

(** ** The type registry *)

Record TypeEntry := mkTypeEntry {
  te_data_type : DataType; te_json_to_array : V -> StoreResult Arr; te_null_array : StoreResult Arr }.
Record TypeRegistry := mkTypeRegistry { tr_entries : gmap string TypeEntry }.

Definition type_registry_new : TypeRegistry := mkTypeRegistry ∅.
Definition type_registry_register (r : TypeRegistry) (name : string) (e : TypeEntry) : TypeRegistry :=
  mkTypeRegistry (<[name := e]> (tr_entries r)).
Definition type_registry_get (r : TypeRegistry) (name : string) : option TypeEntry := tr_entries r !! name.
Definition type_registry_contains (r : TypeRegistry) (name : string) : bool :=
  bool_decide (is_Some (tr_entries r !! name)).
Definition resolve_data_type (r : TypeRegistry) (name : string) : StoreResult DataType :=
  ok_or (te_data_type <$> tr_entries r !! name) (ASchema ("unsupported storage type: " +:+ name)).

Definition builtin_entry {A} (dt : DataType) (conv : V -> StoreResult A) (wrap : A -> Scalar) : TypeEntry :=
  mkTypeEntry dt (fun value => let? v := conv value in Ok (arr_of_cells dt [Some (wrap v)]))
    (Ok (arr_of_cells dt [Some (default_scalar dt)])).

Definition default_type_registry : TypeRegistry :=
  let reg := type_registry_new in
  let reg := type_registry_register reg "i64" (builtin_entry DInt64 json_to_i64 SInt) in
  let reg := type_registry_register reg "i32" (builtin_entry DInt32 json_to_i32 SInt) in
  let reg := type_registry_register reg "u64" (builtin_entry DUInt64 json_to_u64 SInt) in
  let reg := type_registry_register reg "f64" (builtin_entry DFloat64 json_to_f64 SFloat) in
  let reg := type_registry_register reg "utf8" (builtin_entry DUtf8 json_to_string SText) in
  let reg := type_registry_register reg "large_utf8" (builtin_entry DLargeUtf8 json_to_string SText) in
  type_registry_register reg "bool" (builtin_entry DBoolean json_to_bool SBool).

(** ** One-row batches *)

Definition json_map_to_record_batch (values : gmap string V) (schema : list Field)
  : StoreResult RecordBatch :=
  let? columns := try_map (fun f =>
    json_value_to_array (default json_null (values !! fld_name f)) (fld_data_type f)) schema in
  map_err (fun e => AArrow ("json_map_to_record_batch: " +:+ e)) (rb_try_new schema columns).

Definition slice_array_to_single (a : Arr) (idx : nat) : StoreResult Arr := Ok (arr_slice a idx 1).

Definition make_null_array (dt : DataType) : StoreResult Arr :=
  match dt with
  | DOther _ => Err (ASchema ("unsupported null array type: " +:+ data_type_debug dt))
  | _ => Ok (arr_of_cells dt [None])
  end.

Definition build_update_patch (src : RecordBatch) (row_idx col_idx : nat) (new_value : V)
  : StoreResult RecordBatch :=
  let? columns := try_map (fun '(c, a) =>
    if bool_decide (c = col_idx) then json_value_to_array new_value (arr_data_type a)
    else slice_array_to_single a row_idx) (imap pair (rb_columns src)) in
  map_err (fun e => AArrow ("build_update_patch: " +:+ e)) (rb_try_new (rb_schema src) columns).

Definition build_null_patch (src : RecordBatch) (row_idx : nat) : StoreResult RecordBatch :=
  let? columns := try_map (fun '(f, a) =>
    if fld_nullable f then make_null_array (arr_data_type a)
    else slice_array_to_single a row_idx) (zip (rb_schema src) (rb_columns src)) in
  map_err (fun e => AArrow ("build_null_patch: " +:+ e)) (rb_try_new (rb_schema src) columns).
End json.
Arguments TypeEntry V {_}.
Arguments TypeRegistry V {_}.

(** ** Patching *)

Section patching.
Context `{ArrowOps}.

Definition set_valid (bytes : list Z) (row : nat) (valid : bool) : list Z :=
  if (row / 8 <? length bytes)%nat then
    let byte := nth (row / 8) bytes 0 in
    let bit := Z.shiftl 1 (Z.of_nat (row mod 8)) in
    <[(row / 8)%nat := if valid then Z.lor byte bit else Z.land byte (Z.lxor 255 bit)]> bytes
  else bytes.

Definition patch_primitive_step (patch : Arr) (len : nat) (st : list Scalar * list Z) (p : nat * nat)
  : list Scalar * list Z :=
  let '(values, null_bytes) := st in let '(target_row, patch_row) := p in
  if (len <=? target_row)%nat || (arr_len patch <=? patch_row)%nat then st
  else if arr_is_null patch patch_row then (values, set_valid null_bytes target_row false)
  else (<[target_row := arr_value patch patch_row]> values, set_valid null_bytes target_row true).

Definition patch_primitive_array (dt : DataType) (orig patch : Arr) (patches : list (nat * nat))
  : StoreResult Arr :=
  if negb (bool_decide (arr_data_type orig = dt)) then Err (ASchema "primitive downcast failed")
  else if negb (bool_decide (arr_data_type patch = dt)) then Err (ASchema "primitive patch downcast failed")
  else
    let len := arr_len orig in
    let num_bytes := ((len + 7) / 8)%nat in
    let null_bytes :=
      match arr_null_buffer orig with
      | Some (_, src) => take (num_bytes `min` length src) src
      | None => replicate num_bytes 255
      end in
    let '(values, null_bytes) :=
      foldl (patch_primitive_step patch len) (arr_value orig <$> seq 0 len, null_bytes) patches in
    let nulls :=
      if existsb (fun b => negb (b =? 255)) null_bytes
      then Some ((fun i => (i / 8 <? length null_bytes)%nat && bit_at null_bytes i) <$> seq 0 len)
      else None in
    Ok (arr_of_values dt values nulls).

Definition patch_cell (patch : Arr) (cells : list (option Scalar)) (p : nat * nat) : list (option Scalar) :=
  let '(target_row, patch_row) := p in
  if (target_row <? length cells)%nat && (patch_row <? arr_len patch)%nat then
    <[target_row := if arr_is_null patch patch_row then None else Some (arr_value patch patch_row)]> cells
  else cells.

(** [patch_boolean_array] and [patch_string_array] differ in the array type only. *)
Definition patch_cells_array (what : string) (dt : DataType) (orig patch : Arr) (patches : list (nat * nat))
  : StoreResult Arr :=
  if negb (bool_decide (arr_data_type orig = dt)) then Err (ASchema (what +:+ " downcast failed"))
  else if negb (bool_decide (arr_data_type patch = dt)) then Err (ASchema (what +:+ " patch downcast failed"))
  else Ok (arr_of_cells dt (foldl (patch_cell patch) (arr_cells orig) patches)).
Definition patch_boolean_array : Arr -> Arr -> list (nat * nat) -> StoreResult Arr :=
  patch_cells_array "boolean" DBoolean.
Definition patch_string_array : DataType -> Arr -> Arr -> list (nat * nat) -> StoreResult Arr :=
  patch_cells_array "string".

Definition patch_array_values (orig patch : Arr) (patches : list (nat * nat)) : StoreResult Arr :=
  match arr_data_type orig with
  | DInt64 => patch_primitive_array DInt64 orig patch patches
  | DInt32 => patch_primitive_array DInt32 orig patch patches
  | DUInt64 => patch_primitive_array DUInt64 orig patch patches
  | DFloat64 => patch_primitive_array DFloat64 orig patch patches
  | DBoolean => patch_boolean_array orig patch patches
  | DUtf8 => patch_string_array DUtf8 orig patch patches
  | DLargeUtf8 => patch_string_array DLargeUtf8 orig patch patches
  | other => Err (ASchema ("unsupported patch type: " +:+ data_type_debug other))
  end.

Fixpoint patch_columns (cols : list Arr) (patch_cols : list Arr) (patches : list (nat * nat))
  : option (StoreResult (list Arr)) :=
  match cols, patch_cols with
  | [], _ => Some (Ok [])
  | _ :: _, [] => None
  | a :: cols, p :: patch_cols =>
      match patch_array_values a p patches with
      | Err e => Some (Err e)
      | Ok a' => map_ok (cons a') <$> patch_columns cols patch_cols patches
      end
  end.

Definition patch_record_batch (original patch_batch : RecordBatch) (patches : list (nat * nat))
  : option (StoreResult RecordBatch) :=
  columns ← patch_columns (rb_columns original) (rb_columns patch_batch) patches;
  Some (let? columns := columns in
        map_err (fun e => AArrow ("rebuild patched batch: " +:+ e))
          (rb_try_new (rb_schema original) columns)).

Context `{FloatText}.

Definition array_value_to_string (a : Arr) (row_idx : nat) : string :=
  if arr_is_null a row_idx then "null"
  else match arr_data_type a, arr_value a row_idx with
       | DOther _, _ => arr_debug a
       | _, SInt z => show_i64 z
       | _, SFloat x => show_f64 x
       | _, SBool b => if b then "true" else "false"
       | _, SText s => s
       end.
End patching.
