(* ===== verification/ArrowBatchFacts.v ===== *)
(** * ArrowBatchFacts: patching a batch changes the patched cells and no other

    Over any arrays that satisfy [ArrowLaws]. A primitive array is patched through the bytes of its
    validity buffer, a boolean or string array cell by cell: both give the same cells. *)

From Stdlib Require Import Ascii String.
From stdpp Require Import base gmap strings list fin_maps.
From Stdlib Require Import ZArith Lia SpecFloat.
From S2P Require Import Prelude RustStr CoreTypes RuleCore Float64 Arrow ArrowVec ArrowBatch.

(** ** Validity bits *)

Lemma bit_of_shift r k : 0 <= r -> 0 <= k -> Z.testbit (Z.shiftl 1 r) k = bool_decide (k = r).
Proof.
  intros Hr Hk. rewrite Z.shiftl_1_l, Z.pow2_bits_eqb by done.
  case_bool_decide; destruct (Z.eqb_spec r k); done || lia.
Qed.

Lemma bit_255 k : 0 <= k < 8 -> Z.testbit 255 k = true.
Proof.
  intros Hk. change 255 with (Z.ones 8). apply Z.ones_spec_low. lia.
Qed.

Lemma byte_set_bit (byte r k : Z) (valid : bool) : 0 <= r -> 0 <= k < 8 ->
  Z.testbit (if valid then Z.lor byte (Z.shiftl 1 r) else Z.land byte (Z.lxor 255 (Z.shiftl 1 r))) k
  = if bool_decide (k = r) then valid else Z.testbit byte k.
Proof.
  intros Hr Hk. destruct valid.
  - rewrite Z.lor_spec, bit_of_shift by lia. case_bool_decide; [apply orb_true_r|apply orb_false_r].
  - rewrite Z.land_spec, Z.lxor_spec, bit_of_shift, bit_255 by lia.
    case_bool_decide; [apply andb_false_r|apply andb_true_r].
Qed.

Lemma set_valid_length bytes row valid : length (set_valid bytes row valid) = length bytes.
Proof. unfold set_valid. destruct (_ <? _)%nat; [apply length_insert|done]. Qed.

Lemma set_valid_bit bytes row valid i : (row / 8 < length bytes)%nat ->
  bit_at (set_valid bytes row valid) i = if bool_decide (i = row) then valid else bit_at bytes i.
Proof.
  intros Hr. unfold set_valid. destruct (Nat.ltb_spec (row / 8) (length bytes)); [|lia].
  pose proof (Nat.div_mod_eq i 8) as Hi. pose proof (Nat.div_mod_eq row 8) as Hrow.
  pose proof (Nat.mod_upper_bound i 8 ltac:(lia)). pose proof (Nat.mod_upper_bound row 8 ltac:(lia)).
  unfold bit_at. rewrite (nth_lookup (<[_ := _]> _)). destruct (decide (i / 8 = row / 8)%nat) as [He|Hne].
  - rewrite He, list_lookup_insert_eq by done. cbn [default from_option id]. rewrite byte_set_bit by lia.
    repeat case_bool_decide; try done; subst; lia.
  - rewrite list_lookup_insert_ne by done. rewrite nth_lookup. rewrite bool_decide_false; [done|].
    intros ->. done.
Qed.

(** ** Primitive arrays *)

Section patching.
Context `{ArrowLaws}.

Lemma arr_cells_length a : length (arr_cells a) = arr_len a.
Proof. unfold arr_cells. by rewrite length_fmap, length_seq. Qed.

Lemma arr_cells_lookup a i : (i < arr_len a)%nat ->
  arr_cells a !! i = Some (if arr_is_null a i then None else Some (arr_value a i)).
Proof. intros Hi. unfold arr_cells. by rewrite list_lookup_fmap, lookup_seq_lt. Qed.

Lemma arr_cells_fit a : forallb (cell_fits (arr_data_type a)) (arr_cells a) = true.
Proof.
  apply forallb_forall. intros c Hc%list_elem_of_In. apply list_elem_of_fmap in Hc as (i & -> & Hi).
  apply elem_of_seq in Hi. destruct (arr_is_null a i); [done|]. apply values_fit. lia.
Qed.

(** Slots and validity bytes, read as cells. *)
Definition slots_cells (values : list Scalar) (bytes : list Z) : list (option Scalar) :=
  imap (fun i v => if bit_at bytes i then Some v else None) values.

Lemma slots_cells_lookup values bytes i :
  slots_cells values bytes !! i = (fun v => if bit_at bytes i then Some v else None) <$> values !! i.
Proof. apply list_lookup_imap. Qed.

Definition slots_ok (dt : DataType) (len : nat) (st : list Scalar * list Z) : Prop :=
  length st.1 = len /\ (forall i, (i < len)%nat -> (i / 8 < length st.2)%nat)
  /\ forallb (scalar_fits dt) st.1 = true.

Lemma forallb_insert {A} (f : A -> bool) l i x :
  forallb f l = true -> f x = true -> forallb f (<[i := x]> l) = true.
Proof.
  rewrite !forallb_forall. intros Hl Hx y Hy%list_elem_of_In.
  apply list_elem_of_lookup in Hy as [j Hj]. destruct (decide (i = j)) as [->|Hne].
  - apply list_lookup_insert_Some in Hj as [(_ & -> & _)|[? _]]; done.
  - rewrite list_lookup_insert_ne in Hj by done. apply Hl, list_elem_of_In. by eapply list_elem_of_lookup_2.
Qed.

Lemma patch_step_cells patch len st p :
  slots_ok (arr_data_type patch) len st ->
  slots_ok (arr_data_type patch) len (patch_primitive_step patch len st p)
  /\ slots_cells (patch_primitive_step patch len st p).1 (patch_primitive_step patch len st p).2
     = patch_cell patch (slots_cells st.1 st.2) p.
Proof.
  destruct st as [values bytes], p as [t r]. intros (Hlen & Hb & Hfit). cbn [fst snd] in *.
  unfold patch_primitive_step, patch_cell.
  assert (Hsl : length (slots_cells values bytes) = len) by (unfold slots_cells; by rewrite length_imap).
  rewrite Hsl. destruct (Nat.leb_spec len t), (Nat.leb_spec (arr_len patch) r), (Nat.ltb_spec t len),
    (Nat.ltb_spec r (arr_len patch)); cbn [orb andb fst snd]; try lia; try done.
  destruct (arr_is_null patch r); cbn [fst snd].
  - split; [unfold slots_ok; cbn [fst snd]; rewrite set_valid_length; done|]. apply list_eq. intros i.
    rewrite slots_cells_lookup, set_valid_bit by auto. destruct (decide (i = t)) as [->|Hne].
    + rewrite bool_decide_true, list_lookup_insert_eq by (done || lia).
      destruct (lookup_lt_is_Some_2 values t) as [v ->]; [lia|done].
    + rewrite bool_decide_false, list_lookup_insert_ne by done. by rewrite slots_cells_lookup.
  - split.
    { unfold slots_ok. cbn [fst snd]. rewrite set_valid_length, length_insert. split_and!; try done.
      apply forallb_insert; [done|by apply values_fit]. }
    apply list_eq. intros i. rewrite slots_cells_lookup, set_valid_bit by auto.
    destruct (decide (i = t)) as [->|Hne].
    + rewrite bool_decide_true, !list_lookup_insert_eq by (done || lia). done.
    + rewrite bool_decide_false, !list_lookup_insert_ne by done. by rewrite slots_cells_lookup.
Qed.

Lemma patch_steps_cells patch len patches st :
  slots_ok (arr_data_type patch) len st ->
  let st' := foldl (patch_primitive_step patch len) st patches in
  slots_ok (arr_data_type patch) len st'
  /\ slots_cells st'.1 st'.2 = foldl (patch_cell patch) (slots_cells st.1 st.2) patches.
Proof.
  revert st. induction patches as [|p patches IH]; intros st Hst; simpl; [done|].
  destruct (patch_step_cells patch len st p Hst) as [Hst' Hc]. rewrite <- Hc. by apply IH.
Qed.

Lemma bit_at_take bytes n i : (i / 8 < n)%nat -> bit_at (take n bytes) i = bit_at bytes i.
Proof. intros Hn. unfold bit_at. by rewrite !nth_lookup, lookup_take_lt. Qed.

Lemma bit_at_255 bytes i : (i / 8 < length bytes)%nat -> Forall (fun b => b = 255) bytes -> bit_at bytes i = true.
Proof.
  intros Hi Hb. unfold bit_at. destruct (lookup_lt_is_Some_2 bytes (i / 8)) as [b Hl]; [done|].
  rewrite nth_lookup, Hl. rewrite Forall_lookup in Hb. rewrite (Hb _ _ Hl). apply bit_255.
  pose proof (Nat.mod_upper_bound i 8 ltac:(lia)). lia.
Qed.

Lemma div_ceil_8 i len : (i < len)%nat -> (i / 8 < (len + 7) / 8)%nat.
Proof.
  intros Hi. pose proof (Nat.div_mod_eq i 8). pose proof (Nat.div_mod_eq (len + 7) 8).
  pose proof (Nat.mod_upper_bound (len + 7) 8 ltac:(lia)). lia.
Qed.

(** The bytes the patch starts from are the array's validity. *)
Lemma initial_bytes (a : Arr) :
  arr_aligned a ->
  let n := ((arr_len a + 7) / 8)%nat in
  let bytes := match arr_null_buffer a with
               | Some (_, src) => take (n `min` length src) src
               | None => replicate n 255
               end in
  (forall i, (i < arr_len a)%nat -> (i / 8 < length bytes)%nat)
  /\ forall i, (i < arr_len a)%nat -> bit_at bytes i = negb (arr_is_null a i).
Proof.
  intros Hal n bytes. unfold arr_aligned in Hal. subst bytes.
  destruct (arr_null_buffer a) as [[off src]|] eqn:E.
  - subst off. assert (Hsrc : forall i, (i < arr_len a)%nat ->
      (i / 8 < n `min` length src)%nat /\ bit_at src i = negb (arr_is_null a i)).
    { intros i Hi. destruct (null_buffer_bits a 0 src i E Hi) as [Hl ->]. rewrite negb_involutive.
      split; [|done]. pose proof (div_ceil_8 i _ Hi). pose proof (Nat.div_mod_eq i 8). subst n. lia. }
    split; intros i Hi; destruct (Hsrc i Hi) as [Hlt Hb]; [rewrite length_take; lia|].
    by rewrite bit_at_take.
  - assert (Hr : forall i, (i < arr_len a)%nat -> (i / 8 < length (replicate n 255%Z))%nat)
      by (intros; rewrite length_replicate; by apply div_ceil_8).
    split; [exact Hr|]. intros i Hi. rewrite (no_null_buffer a i E). apply bit_at_255; [by apply Hr|].
    apply Forall_forall. by intros b [-> _]%elem_of_replicate.
Qed.

Definition patched (orig patch : Arr) (patches : list (nat * nat)) (a : Arr) : Prop :=
  arr_cells a = foldl (patch_cell patch) (arr_cells orig) patches
  /\ arr_data_type a = arr_data_type orig /\ arr_aligned a.

(** Slots and validity bytes go into a new array as the cells they are. *)
Lemma of_values_slots dt len values bytes :
  slots_ok dt len (values, bytes) ->
  arr_cells (arr_of_values dt values
    (if existsb (fun b => negb (b =? 255)) bytes
     then Some ((fun i => (i / 8 <? length bytes)%nat && bit_at bytes i) <$> seq 0 len)
     else None)) = slots_cells values bytes.
Proof.
  intros (Hlen & Hb & Hfit). cbn [fst snd] in *. destruct (existsb _ bytes) eqn:E.
  - rewrite of_values_nulls by (try done; by rewrite length_fmap, length_seq).
    apply list_eq. intros i. rewrite slots_cells_lookup, lookup_zip_with, list_lookup_fmap.
    destruct (values !! i) as [v|] eqn:Hv; cbn [fmap option_fmap option_map mbind option_bind].
    + apply lookup_lt_Some in Hv. rewrite lookup_seq_lt by lia.
      cbn [fmap option_fmap option_map mbind option_bind Nat.add].
      rewrite (proj2 (Nat.ltb_lt _ _)) by (apply Hb; lia). done.
    + by destruct (seq 0 len !! i).
  - rewrite of_values_cells by done. apply list_eq. intros i. rewrite slots_cells_lookup, list_lookup_fmap.
    destruct (values !! i) as [v|] eqn:Hv; [|done]. apply lookup_lt_Some in Hv. cbn.
    rewrite bit_at_255; [done|apply Hb; lia|]. apply Forall_forall. intros b Hbin.
    destruct (Z.eqb_spec b 255) as [|Hne]; [done|]. apply (f_equal negb) in E. simpl in E.
    apply negb_true_iff in E. exfalso. revert E. apply not_false_iff_true, existsb_exists.
    exists b. split; [by apply list_elem_of_In|]. by apply negb_true_iff, Z.eqb_neq.
Qed.

Lemma patch_primitive_ok dt orig patch patches :
  arr_data_type orig = dt -> arr_data_type patch = dt -> arr_aligned orig ->
  exists a, patch_primitive_array dt orig patch patches = Ok a /\ patched orig patch patches a.
Proof.
  intros Ho Hp Hal. unfold patch_primitive_array. rewrite !bool_decide_true by done. cbn [negb].
  destruct (initial_bytes orig Hal) as [Hb Hbits].
  set (bytes := match arr_null_buffer orig with Some _ => _ | None => _ end) in *.
  set (st := (arr_value orig <$> seq 0 (arr_len orig), bytes)).
  assert (Hst : slots_ok (arr_data_type patch) (arr_len orig) st).
  { split_and!; [simpl; by rewrite length_fmap, length_seq|exact Hb|]. rewrite Hp, <- Ho.
    apply forallb_forall. intros v Hv%list_elem_of_In. apply list_elem_of_fmap in Hv as (i & -> & Hi).
    apply elem_of_seq in Hi. apply values_fit. lia. }
  destruct (patch_steps_cells patch (arr_len orig) patches st Hst) as [Hst' Hc].
  destruct (foldl _ st patches) as [values' bytes'] eqn:E. rewrite Hp in Hst'.
  eexists. split; [done|]. split_and!; [|by rewrite of_values_type|apply of_values_aligned].
  rewrite of_values_slots by done. cbn [fst snd] in Hc. rewrite Hc. f_equal.
  apply list_eq. intros i. unfold st. cbn [fst snd]. rewrite slots_cells_lookup.
  unfold arr_cells. rewrite !list_lookup_fmap. destruct (seq 0 (arr_len orig) !! i) as [j|] eqn:Ej; [|done].
  apply lookup_seq in Ej as [-> Hi]. simpl plus. cbn. rewrite Hbits by done.
  by destruct (arr_is_null orig i).
Qed.

Lemma patch_cell_fit dt patch l p :
  arr_data_type patch = dt -> forallb (cell_fits dt) l = true ->
  forallb (cell_fits dt) (patch_cell patch l p) = true.
Proof.
  intros Hp Hl. destruct p as [t r]. unfold patch_cell. destruct (Nat.ltb_spec t (length l)); [|done].
  destruct (Nat.ltb_spec r (arr_len patch)); [|done]. cbn [andb]. apply forallb_insert; [done|].
  destruct (arr_is_null patch r); [done|]. subst dt. by apply values_fit.
Qed.

Lemma patch_cells_ok what dt orig patch patches :
  arr_data_type orig = dt -> arr_data_type patch = dt ->
  exists a, patch_cells_array what dt orig patch patches = Ok a /\ patched orig patch patches a.
Proof.
  intros Ho Hp. unfold patch_cells_array. rewrite !bool_decide_true by done. eexists. split; [done|].
  split_and!; [|by rewrite of_cells_type|apply of_cells_aligned]. apply of_cells_cells.
  pose proof (arr_cells_fit orig) as Hf. rewrite Ho in Hf. revert Hf. generalize (arr_cells orig).
  induction patches as [|p patches IH]; intros l Hl; [done|]. simpl. apply IH. by apply patch_cell_fit.
Qed.

Definition supported (dt : DataType) : bool := match dt with DOther _ => false | _ => true end.

Lemma patch_array_values_ok orig patch patches :
  supported (arr_data_type orig) = true -> arr_data_type patch = arr_data_type orig -> arr_aligned orig ->
  exists a, patch_array_values orig patch patches = Ok a /\ patched orig patch patches a.
Proof.
  intros Hs Hp Hal. unfold patch_array_values.
  destruct (arr_data_type orig) eqn:E; try done; try (by apply patch_primitive_ok); by apply patch_cells_ok.
Qed.

Lemma foldl_patch_length patch l patches : length (foldl (patch_cell patch) l patches) = length l.
Proof.
  revert l. induction patches as [|[t r] patches IH]; intros l; [done|]. simpl. rewrite IH. unfold patch_cell.
  destruct (_ && _); [by rewrite length_insert|done].
Qed.
End patching.

(** ** Batches as lists of rows *)

Section batches.
Context `{ArrowLaws}.

Definition rb_row (b : RecordBatch) (i : nat) : list (option Scalar) :=
  (fun a => nth i (arr_cells a) None) <$> rb_columns b.
Definition rb_rows (b : RecordBatch) : list (list (option Scalar)) :=
  rb_row b <$> seq 0 (rb_num_rows b).

(** A column the store can patch. *)
Definition good_column (a : Arr) : Prop := supported (arr_data_type a) = true /\ arr_aligned a.
Definition good_batch (b : RecordBatch) : Prop := Forall good_column (rb_columns b).

Lemma rb_rows_length b : length (rb_rows b) = rb_num_rows b.
Proof. unfold rb_rows. by rewrite length_fmap, length_seq. Qed.

Lemma rb_rows_lookup b i : (i < rb_num_rows b)%nat -> rb_rows b !! i = Some (rb_row b i).
Proof. intros Hi. unfold rb_rows. by rewrite list_lookup_fmap, lookup_seq_lt. Qed.

Lemma column_ok_rows b rows :
  Forall2 (column_ok rows) (rb_schema b) (rb_columns b) -> rb_num_rows b = rows.
Proof.
  intros Hc. destruct (rb_columns_ok b) as [Hne Hok].
  destruct Hc as [|f a schema cols (_ & Hr & _) _]; [done|]. inversion Hok as [|? ? ? ? (_ & Hr' & _)]. congruence.
Qed.

Lemma rb_new_ok what schema cols b :
  map_err (fun e => AArrow (what +:+ e)) (rb_try_new schema cols) = Ok b ->
  rb_schema b = schema /\ rb_columns b = cols.
Proof. destruct (rb_try_new schema cols) eqn:E; [|done]. intros [= <-]. by apply rb_try_new_ok. Qed.

Lemma rb_new_total what schema cols rows :
  cols <> [] -> Forall2 (column_ok rows) schema cols ->
  exists b, map_err (fun e => AArrow (what +:+ e)) (rb_try_new schema cols) = Ok b
  /\ rb_schema b = schema /\ rb_columns b = cols /\ rb_num_rows b = rows.
Proof.
  intros Hne Hc. pose proof (rb_try_new_total schema cols rows Hne Hc) as Hok.
  destruct (rb_try_new schema cols) as [b|] eqn:E; [|done]. exists b.
  destruct (rb_try_new_ok _ _ _ E) as [Hs Hcols]. split_and!; try done.
  apply column_ok_rows. by rewrite Hs, Hcols.
Qed.

Lemma patch_cell_no_null patch l p : None ∉ arr_cells patch -> None ∉ l -> None ∉ patch_cell patch l p.
Proof.
  intros Hp Hl. destruct p as [t r]. unfold patch_cell. destruct (Nat.ltb_spec t (length l)); [|done].
  destruct (Nat.ltb_spec r (arr_len patch)) as [Hr|]; [|done]. cbn [andb].
  intros Hin. apply list_elem_of_lookup in Hin as [j Hj].
  apply list_lookup_insert_Some in Hj as [(-> & Hv & _)|[_ Hj]].
  - apply Hp. pose proof (arr_cells_lookup patch r Hr) as Hc. rewrite Hv in Hc.
    by eapply list_elem_of_lookup_2.
  - apply Hl. by eapply list_elem_of_lookup_2.
Qed.

Lemma patched_column rows prows f a p patches a' :
  column_ok rows f a -> column_ok prows f p -> patched a p patches a' -> column_ok rows f a'.
Proof.
  intros (Ht & Hl & Hn) (_ & _ & Hpn) (Hc & Ht' & _). split_and!.
  - congruence.
  - by rewrite <- arr_cells_length, Hc, foldl_patch_length, arr_cells_length.
  - intros Hnull. rewrite Hc. specialize (Hn Hnull). specialize (Hpn Hnull). clear Hc.
    revert Hn. generalize (arr_cells a). induction patches as [|q patches IH]; intros l Hn; [done|].
    simpl. apply IH. by apply patch_cell_no_null.
Qed.

Lemma patch_columns_ok rows prows schema cols pcols patches :
  Forall2 (column_ok rows) schema cols -> Forall2 (column_ok prows) schema pcols ->
  Forall good_column cols ->
  exists cols', patch_columns cols pcols patches = Some (Ok cols')
  /\ Forall2 (column_ok rows) schema cols' /\ Forall good_column cols'
  /\ arr_cells <$> cols' = zip_with (fun a p => foldl (patch_cell p) (arr_cells a) patches) cols pcols.
Proof.
  intros Hc. revert pcols. induction Hc as [|f a schema cols Ha Hc IH]; intros pcols Hp Hg.
  { exists []. by inversion Hp. }
  inversion Hp as [|? p ? pcols' Hp1 Hp2]; subst. inversion Hg as [|? ? [Hs Hal] Hg']; subst.
  destruct (patch_array_values_ok a p patches) as (a' & Ea & Hpa); [done| |done|].
  { destruct Ha as [-> _], Hp1 as [-> _]. done. }
  destruct (IH _ Hp2 Hg') as (cols' & E & Hc' & Hg'' & Hcells). exists (a' :: cols').
  simpl. rewrite Ea, E. split_and!; [done| | |].
  - constructor; [by eapply patched_column|done].
  - constructor; [|done]. destruct Hpa as (_ & Ht & ?). split; [by rewrite Ht|done].
  - simpl. f_equal; [by destruct Hpa|done].
Qed.

(** A patch over the schema of its batch always goes through. *)
Lemma patch_record_batch_ok orig patch patches :
  good_batch orig -> rb_schema patch = rb_schema orig ->
  exists b, patch_record_batch orig patch patches = Some (Ok b)
  /\ rb_schema b = rb_schema orig /\ rb_num_rows b = rb_num_rows orig /\ good_batch b
  /\ arr_cells <$> rb_columns b
     = zip_with (fun a p => foldl (patch_cell p) (arr_cells a) patches) (rb_columns orig) (rb_columns patch).
Proof.
  intros Hg Hs. destruct (rb_columns_ok orig) as [Hne Hc], (rb_columns_ok patch) as [_ Hp].
  rewrite Hs in Hp. destruct (patch_columns_ok _ _ _ _ _ patches Hc Hp Hg) as (cols' & E & Hc' & Hg' & Hcells).
  assert (Hne' : cols' <> []).
  { intros ->. apply Forall2_length in Hc'. apply Forall2_length in Hc. rewrite Hc in Hc'.
    by destruct (rb_columns orig). }
  unfold patch_record_batch. rewrite E. cbn [mbind option_bind].
  destruct (rb_new_total "rebuild patched batch: " _ _ _ Hne' Hc') as (b & -> & Hbs & Hbc & Hbn).
  exists b. unfold good_batch. rewrite Hbc. done.
Qed.

(** The patch of one row replaces that row. *)
Lemma patch_one_row orig patch off :
  good_batch orig -> rb_schema patch = rb_schema orig ->
  (off < rb_num_rows orig)%nat -> rb_num_rows patch = 1%nat ->
  exists b, patch_record_batch orig patch [(off, 0%nat)] = Some (Ok b)
  /\ rb_schema b = rb_schema orig /\ rb_num_rows b = rb_num_rows orig /\ good_batch b
  /\ rb_rows b = <[off := rb_row patch 0]> (rb_rows orig).
Proof.
  intros Hg Hs Hoff H1. destruct (patch_record_batch_ok orig patch [(off, 0%nat)] Hg Hs)
    as (b & E & Hbs & Hbn & Hbg & Hcells). exists b. split_and!; try done.
  destruct (rb_columns_ok orig) as [_ Hc], (rb_columns_ok patch) as [_ Hp]. rewrite Hs, H1 in Hp.
  assert (Hrow : forall i, rb_row b i = if decide (i = off) then rb_row patch 0 else rb_row orig i).
  { intros i. unfold rb_row.
    transitivity ((fun c => nth i c None) <$> (arr_cells <$> rb_columns b)); [by rewrite <- list_fmap_compose|].
    rewrite Hcells. clear - Hc Hp Hoff. revert Hp. generalize (rb_columns patch).
    induction Hc as [|f a schema cols (Ht & Hl & _) Hc IH]; intros pcols Hp; inversion Hp as [|? p ? pcols' (_ & Hpl & _) Hp'];
      subst; cbn [zip_with foldl] in *; [by case_decide|]. rewrite !fmap_cons, (IH _ Hp'). clear IH.
    assert (Hcell : patch_cell p (arr_cells a) (off, 0%nat) = <[off := nth 0 (arr_cells p) None]> (arr_cells a)).
    { unfold patch_cell. rewrite arr_cells_length, Hpl, (proj2 (Nat.ltb_lt _ _)) by lia. cbn [andb Nat.ltb Nat.leb].
      f_equal. rewrite nth_lookup, arr_cells_lookup by lia. done. }
    rewrite Hcell, nth_lookup. case_decide as Hi.
    - subst i. rewrite list_lookup_insert_eq by (rewrite arr_cells_length; lia). done.
    - rewrite list_lookup_insert_ne by done. by rewrite <- nth_lookup. }
  apply list_eq. intros i. unfold rb_rows. rewrite Hbn. destruct (decide (i = off)) as [->|Hne].
  - rewrite list_lookup_insert_eq by (by rewrite length_fmap, length_seq).
    rewrite list_lookup_fmap, lookup_seq_lt by done. simpl. by rewrite Hrow, decide_True.
  - rewrite list_lookup_insert_ne, !list_lookup_fmap by done. destruct (seq 0 _ !! i) as [j|] eqn:Ej; [|done].
    apply lookup_seq in Ej as [-> _]. simpl. by rewrite Hrow, decide_False.
Qed.
End batches.

(** ** One-row batches *)

Section one_row.
Context `{ArrowLaws} {V : Type} `{JsonLaws V} `{FloatText}.

Lemma f64_as_i64_range x : i64 (f64_as_i64 x).
Proof. unfold f64_as_i64, rounded_as_i64. destruct (f64_trunc x) as [|[]|z]; unfold_width; lia. Qed.
Lemma f64_as_u64_range x : u64 (f64_as_u64 x).
Proof. unfold f64_as_u64. destruct (f64_trunc x) as [|[]|z]; unfold_width; lia. Qed.

Lemma in_range_true lo hi z : lo <= z <= hi -> in_range lo hi z = true.
Proof. intros [Hlo Hhi]. unfold in_range. apply andb_true_iff. split; apply Z.leb_le; done. Qed.

Lemma json_to_i64_range (v : V) z : json_to_i64 v = Ok z -> in_range i64_min i64_max z = true.
Proof.
  unfold json_to_i64. destruct (jr_as_i64 v) as [n|] eqn:E.
  - intros [= <-]. apply in_range_true. exact (jr_i64_range v n E).
  - destruct (jr_as_f64 v) as [x|]; [|done]. destruct (_ && _); [|done]. intros [= <-].
    apply in_range_true. exact (f64_as_i64_range x).
Qed.
Lemma json_to_u64_range (v : V) z : json_to_u64 v = Ok z -> in_range 0 u64_max z = true.
Proof.
  unfold json_to_u64. destruct (jr_as_u64 v) as [n|] eqn:E.
  - intros [= <-]. apply in_range_true. exact (jr_u64_range v n E).
  - destruct (jr_as_i64 v) as [n|] eqn:Ei.
    + destruct (Z.leb_spec 0 n); [|done]. intros [= <-]. apply jr_i64_range in Ei.
      apply in_range_true. unfold_width. lia.
    + destruct (jr_as_f64 v) as [x|]; [|done]. destruct (_ && _); [|done]. intros [= <-].
      apply in_range_true. exact (f64_as_u64_range x).
Qed.
Lemma json_to_i32_range (v : V) z : json_to_i32 v = Ok z -> in_range i32_min i32_max z = true.
Proof.
  unfold json_to_i32. intros Hz. res_simpl. destruct (in_range _ _ _) eqn:E'; [|done]. congruence.
Qed.

Lemma json_cell_fits (v : V) dt c : json_value_to_cell v dt = Ok c ->
  cell_fits dt c = true /\ supported dt = true.
Proof.
  unfold json_value_to_cell. intros Hc. destruct dt; try done; (split; [|done]);
    (destruct (jr_is_null v); [by injection Hc as <-|]);
    match type of Hc with context [map_ok _ (?f v)] => destruct (f v) as [x|] eqn:E; [|done] end;
    simpl in Hc; injection Hc as <-; simpl; try done;
    eauto using json_to_i64_range, json_to_i32_range, json_to_u64_range.
Qed.

Lemma json_array_cells (v : V) dt a : json_value_to_array v dt = Ok a ->
  exists c, json_value_to_cell v dt = Ok c /\ arr_cells a = [c] /\ arr_data_type a = dt /\ good_column a.
Proof.
  unfold json_value_to_array. destruct (json_value_to_cell v dt) as [c|] eqn:E; [|done].
  intros [= <-]. destruct (json_cell_fits v dt c E) as [Hf Hs]. exists c. split_and!; [done| |apply of_cells_type|].
  - apply of_cells_cells. simpl. by rewrite Hf.
  - split; [by rewrite of_cells_type|apply of_cells_aligned].
Qed.

(** Columns of one cell each make a batch of the one row of these cells. *)
Lemma one_row_batch what schema cols cs b :
  map_err (fun e => AArrow (what +:+ e)) (rb_try_new schema cols) = Ok b ->
  Forall2 (fun a c => arr_cells a = [c]) cols cs ->
  rb_schema b = schema /\ rb_columns b = cols /\ rb_num_rows b = 1%nat /\ rb_row b 0 = cs.
Proof.
  intros Hb Hc. apply rb_new_ok in Hb as [Hs Hcols]. split_and!; try done.
  - destruct (rb_columns_ok b) as [Hne Hok]. rewrite Hcols in *. destruct Hc as [|a c cols cs Ha _]; [done|].
    inversion Hok as [|? ? ? ? (_ & <- & _)]. by rewrite <- arr_cells_length, Ha.
  - unfold rb_row. rewrite Hcols. clear - Hc. induction Hc as [|a c cols cs Ha _ IH]; [done|].
    rewrite fmap_cons, Ha, IH. done.
Qed.

Lemma slice_one_cell (a : Arr) i : (i < arr_len a)%nat ->
  arr_cells (arr_slice a i 1) = [nth i (arr_cells a) None].
Proof.
  intros Hi. rewrite slice_cells by lia. pose proof (arr_cells_lookup a i Hi) as Hl.
  rewrite nth_lookup, Hl. by rewrite (drop_S _ _ _ Hl).
Qed.

Lemma json_map_batch_ok (values : gmap string V) schema b :
  json_map_to_record_batch values schema = Ok b ->
  rb_schema b = schema /\ rb_num_rows b = 1%nat /\ good_batch b
  /\ try_map (fun f => json_value_to_cell (default json_null (values !! fld_name f)) (fld_data_type f)) schema
     = Ok (rb_row b 0).
Proof.
  unfold json_map_to_record_batch. destruct (try_map _ schema) as [cols|] eqn:E; [|done]. intros Hb.
  apply try_map_Ok in E.
  assert (exists cs, Forall2 (fun a c => arr_cells a = [c]) cols cs /\ Forall good_column cols
    /\ Forall2 (fun f c => json_value_to_cell (default json_null (values !! fld_name f)) (fld_data_type f) = Ok c)
         schema cs) as (cs & Hcs & Hg & Hcell).
  { clear Hb. induction E as [|f a schema cols Ha _ (cs & Hx1 & Hx2 & Hx3)]; [by exists []|].
    apply json_array_cells in Ha as (c & Hc & Ha & _ & Hg). exists (c :: cs). split_and!; by constructor. }
  destruct (one_row_batch _ _ _ _ _ Hb Hcs) as (Hs & Hcols & Hn & Hr). split_and!; try done.
  - unfold good_batch. by rewrite Hcols.
  - rewrite Hr. by apply try_map_Ok.
Qed.

(** The row a deletion leaves behind: null where it may be. *)
Definition nulled (schema : list Field) (row : list (option Scalar)) : list (option Scalar) :=
  zip_with (fun f c => if fld_nullable f then None else c) schema row.

Lemma build_null_patch_ok src i :
  good_batch src -> (i < rb_num_rows src)%nat ->
  exists p, build_null_patch src i = Ok p /\ rb_schema p = rb_schema src /\ rb_num_rows p = 1%nat
  /\ rb_row p 0 = nulled (rb_schema src) (rb_row src i).
Proof.
  intros Hg Hi. destruct (rb_columns_ok src) as [Hne Hok]. unfold build_null_patch.
  assert (exists cols, try_map (fun '(f, a) => if fld_nullable f then make_null_array (arr_data_type a)
      else slice_array_to_single a i) (zip (rb_schema src) (rb_columns src)) = Ok cols
    /\ Forall2 (fun a c => arr_cells a = [c]) cols (nulled (rb_schema src) (rb_row src i))
    /\ Forall2 (column_ok 1) (rb_schema src) cols) as (cols & E & Hcs & Hc1).
  { unfold rb_row, nulled. unfold good_batch in Hg. clear Hne. revert Hg.
    induction Hok as [|f a schema cols (Ht & Hl & Hn) Hok IH]; intros Hg; [by exists []|].
    inversion Hg as [|? ? [Hs _] Hg']; subst. destruct (IH Hg') as (cols' & E & Hcs & Hc).
    assert (exists b, (if fld_nullable f then make_null_array (arr_data_type a) else slice_array_to_single a i) = Ok b
      /\ arr_cells b = [if fld_nullable f then None else nth i (arr_cells a) None]
      /\ arr_data_type b = fld_data_type f) as (b & Eb & Hb & Hbt).
    { destruct (fld_nullable f).
      - exists (arr_of_cells (arr_data_type a) [None]). rewrite of_cells_cells, of_cells_type by done.
        split_and!; [|done|done]. unfold make_null_array. by destruct (arr_data_type a).
      - exists (arr_slice a i 1). rewrite slice_one_cell, slice_type by lia. done. }
    exists (b :: cols'). simpl. rewrite Eb, E. split_and!; [done|by constructor|]. constructor; [|done].
    split_and!; [done|by rewrite <- arr_cells_length, Hb|]. intros Hnull. rewrite Hb, Hnull.
    specialize (Hn Hnull). intros Hin%list_elem_of_singleton. apply Hn.
    rewrite nth_lookup, arr_cells_lookup in Hin by lia. simpl in Hin. rewrite Hin.
    eapply list_elem_of_lookup_2. rewrite (arr_cells_lookup a i) by lia. by rewrite <- Hin. }
  rewrite E.
  assert (cols <> []) as Hne'.
  { intros ->. apply Forall2_length in Hc1. apply Forall2_length in Hok. rewrite Hok in Hc1.
    by destruct (rb_columns src). }
  destruct (rb_new_total "build_null_patch: " _ _ _ Hne' Hc1) as (p & Ep & Hs & _ & Hn). exists p.
  destruct (one_row_batch _ _ _ _ _ Ep Hcs) as (_ & _ & _ & Hr). done.
Qed.
End one_row.
