(* ===== verification/StoreIndex.v ===== *)
(** * StoreIndex: key indices and partitions of the store ([scharnhorst_arrow_store])

    Models [index.rs] and [partition.rs]. A key index has a layer with the newest position of each
    key and, when history is enabled, a layer with all of them; the second part shows both layers
    are views of one log of insertions. *)

From Stdlib Require Import Ascii String.
From stdpp Require Import base gmap strings list fin_maps sorting.
From Stdlib Require Import ZArith Lia.
From S2P Require Import Prelude RustStr CoreTypes RuleCore Arrow ArrowVec ArrowBatch.

(** ** Key indices *)

(** Tick, batch index, row index. *)
Definition KeyPosition : Type := Tick * nat * nat.
Definition kp_tick (p : KeyPosition) : Z := tick_as_u64 p.1.1.

Record PrimaryKeyIndex := mkPK {
  pk_latest_entries : gmap string KeyPosition;
  pk_historical_entries : option (gmap string (list KeyPosition)) }.

Definition pk_with_history (enabled : bool) : PrimaryKeyIndex :=
  mkPK ∅ (if enabled then Some ∅ else None).
Definition pk_new : PrimaryKeyIndex := mkPK ∅ (Some ∅).

Definition pk_insert (x : PrimaryKeyIndex) (key : string) (tick : Tick) (batch_idx row_idx : nat)
  : PrimaryKeyIndex :=
  let should_update :=
    match pk_latest_entries x !! key with
    | Some old => kp_tick old <=? tick_as_u64 tick
    | None => true
    end in
  mkPK (if should_update then <[key := (tick, batch_idx, row_idx)]> (pk_latest_entries x)
        else pk_latest_entries x)
    ((fun hist => <[key := default [] (hist !! key) ++ [(tick, batch_idx, row_idx)]]> hist)
       <$> pk_historical_entries x).

Definition pk_lookup (x : PrimaryKeyIndex) (key : string) : option (list KeyPosition) :=
  hist ← pk_historical_entries x; hist !! key.
Definition pk_lookup_latest (x : PrimaryKeyIndex) (key : string) : option KeyPosition :=
  pk_latest_entries x !! key.
Definition pk_remove_key (x : PrimaryKeyIndex) (key : string)
  : PrimaryKeyIndex * option (list KeyPosition) :=
  (mkPK (delete key (pk_latest_entries x)) (delete key <$> pk_historical_entries x),
   hist ← pk_historical_entries x; hist !! key).
Definition pk_keys (x : PrimaryKeyIndex) : gset string := dom (pk_latest_entries x).
Definition pk_is_empty (x : PrimaryKeyIndex) : bool := bool_decide (pk_latest_entries x = ∅).
Definition pk_len (x : PrimaryKeyIndex) : nat := size (pk_latest_entries x).
Definition pk_history_enabled (x : PrimaryKeyIndex) : bool :=
  match pk_historical_entries x with Some _ => true | None => false end.

(** The same two layers, for a column that refers to another table. *)
Record ForeignKeyIndex := mkFK {
  fk_column_name : string; fk_target_table : string; fk_layers : PrimaryKeyIndex }.
Definition fk_new (column target : string) : ForeignKeyIndex := mkFK column target pk_new.
Definition fk_with_history (column target : string) (enabled : bool) : ForeignKeyIndex :=
  mkFK column target (pk_with_history enabled).
Definition fk_insert (x : ForeignKeyIndex) (key : string) (tick : Tick) (batch_idx row_idx : nat)
  : ForeignKeyIndex :=
  mkFK (fk_column_name x) (fk_target_table x) (pk_insert (fk_layers x) key tick batch_idx row_idx).
Definition fk_lookup (x : ForeignKeyIndex) : string -> option (list KeyPosition) := pk_lookup (fk_layers x).
Definition fk_lookup_latest (x : ForeignKeyIndex) : string -> option KeyPosition :=
  pk_lookup_latest (fk_layers x).
Definition fk_remove_key (x : ForeignKeyIndex) (key : string) : ForeignKeyIndex * option (list KeyPosition) :=
  let '(layers, removed) := pk_remove_key (fk_layers x) key in
  (mkFK (fk_column_name x) (fk_target_table x) layers, removed).

Record RowLocation := mkLocation {
  loc_tick : Tick; loc_batch_index : nat; loc_row_index : nat; loc_row_id : RowId }.

(** ** Partitions *)

Section partitions.
Context `{ArrowOps}.

Record Partition := mkPartition { pt_region_id : string; pt_batches : list RecordBatch }.
Definition partition_new (region : string) : Partition := mkPartition region [].
Definition partition_add_batch (p : Partition) (b : RecordBatch) : Partition :=
  mkPartition (pt_region_id p) (pt_batches p ++ [b]).
Definition partition_is_empty (p : Partition) : bool := match pt_batches p with [] => true | _ => false end.

Record PartitionMap := mkPartitionMap { pm_partitions : gmap string Partition }.
Definition partitions_new : PartitionMap := mkPartitionMap ∅.
Definition partitions_get (m : PartitionMap) (region : string) : StoreResult Partition :=
  ok_or (pm_partitions m !! region) (APartitionNotFound region).
(** [get_mut] hands out a reference, written here by a function. *)
Definition partitions_get_mut (m : PartitionMap) (region : string) (f : Partition -> Partition)
  : StoreResult PartitionMap :=
  let? p := partitions_get m region in Ok (mkPartitionMap (<[region := f p]> (pm_partitions m))).
Definition partitions_get_or_create (m : PartitionMap) (region : string) (f : Partition -> Partition)
  : PartitionMap :=
  mkPartitionMap (<[region := f (default (partition_new region) (pm_partitions m !! region))]> (pm_partitions m)).
Definition partitions_insert (m : PartitionMap) (region : string) (p : Partition) : PartitionMap :=
  mkPartitionMap (<[region := p]> (pm_partitions m)).
Definition partitions_remove (m : PartitionMap) (region : string) : PartitionMap * option Partition :=
  (mkPartitionMap (delete region (pm_partitions m)), pm_partitions m !! region).
Definition partitions_contains (m : PartitionMap) (region : string) : bool :=
  bool_decide (is_Some (pm_partitions m !! region)).
Definition partitions_is_empty (m : PartitionMap) : bool := bool_decide (size (pm_partitions m) = O).
Definition partitions_len (m : PartitionMap) : nat := size (pm_partitions m).

Record PartitionSnapshot := mkPSnapshot {
  ps_region_id : string; ps_tick : Tick; ps_batches : list RecordBatch }.
Definition partition_snapshot_is_empty (p : PartitionSnapshot) : bool :=
  match ps_batches p with [] => true | _ => false end.
End partitions.

(** ** Both layers as views of a log *)

Inductive IndexOp :=
| OpInsertKey (key : string) (pos : KeyPosition)
| OpRemoveKey (key : string).

Definition index_step (x : PrimaryKeyIndex) (op : IndexOp) : PrimaryKeyIndex :=
  match op with
  | OpInsertKey key (tick, b, r) => pk_insert x key tick b r
  | OpRemoveKey key => (pk_remove_key x key).1
  end.

(** The positions logged for a key since it was last removed. *)
Definition log_step (key : string) (l : list KeyPosition) (op : IndexOp) : list KeyPosition :=
  match op with
  | OpInsertKey k pos => if bool_decide (k = key) then l ++ [pos] else l
  | OpRemoveKey k => if bool_decide (k = key) then [] else l
  end.
Definition key_log (ops : list IndexOp) (key : string) : list KeyPosition := foldl (log_step key) [] ops.

(** The last of the positions of the newest tick. *)
Definition newer (best : option KeyPosition) (p : KeyPosition) : option KeyPosition :=
  match best with
  | Some q => if kp_tick q <=? kp_tick p then Some p else Some q
  | None => Some p
  end.
Definition newest (l : list KeyPosition) : option KeyPosition := foldl newer None l.

Definition log_entry (l : list KeyPosition) : option (list KeyPosition) :=
  match l with [] => None | _ => Some l end.

Lemma newest_snoc l p : newest (l ++ [p]) = newer (newest l) p.
Proof. unfold newest. by rewrite foldl_app. Qed.

Lemma index_views enabled ops :
  let x := foldl index_step (pk_with_history enabled) ops in
  (forall key, pk_lookup_latest x key = newest (key_log ops key))
  /\ (enabled = false -> pk_historical_entries x = None)
  /\ (enabled = true -> exists h, pk_historical_entries x = Some h
      /\ forall key, h !! key = log_entry (key_log ops key)).
Proof.
  induction ops as [|op ops IH] using rev_ind; intros x.
  { subst x. split_and!; [done|by intros ->|]. intros ->. by exists ∅. }
  subst x. rewrite foldl_app. cbn [foldl].
  set (x := foldl index_step (pk_with_history enabled) ops) in *. destruct IH as (Hl & Hoff & Hon).
  assert (Hlog : forall key, key_log (ops ++ [op]) key = log_step key (key_log ops key) op)
    by (intros; unfold key_log; by rewrite foldl_app).
  destruct op as [k [[t b] r]|k]; cbn [index_step].
  - split_and!.
    + intros key. rewrite Hlog. cbn [log_step]. unfold pk_lookup_latest, pk_insert in *. cbn [pk_latest_entries].
      case_bool_decide as Hk.
      * subst k. rewrite newest_snoc, <- Hl. unfold newer.
        destruct (pk_latest_entries x !! key) as [q|] eqn:E; [|by rewrite lookup_insert_eq].
        change (kp_tick (t, b, r)) with (tick_as_u64 t).
        destruct (kp_tick q <=? tick_as_u64 t); [by rewrite lookup_insert_eq|done].
      * rewrite <- Hl. destruct (match _ with Some _ => _ | None => _ end); [|done].
        by rewrite lookup_insert_ne.
    + intros He. cbn [pk_insert pk_historical_entries]. by rewrite Hoff.
    + intros He. destruct (Hon He) as (h & Hh & Hk). cbn [pk_insert pk_historical_entries]. rewrite Hh.
      eexists. split; [done|]. intros key. rewrite Hlog. cbn [log_step]. case_bool_decide as Hk'.
      * subst k. rewrite lookup_insert_eq, Hk. destruct (key_log ops key) as [|q l]; done.
      * by rewrite lookup_insert_ne.
  - split_and!.
    + intros key. rewrite Hlog. cbn [log_step]. unfold pk_lookup_latest, pk_remove_key in *.
      cbn [fst pk_latest_entries]. case_bool_decide as Hk.
      * subst k. by rewrite lookup_delete_eq.
      * by rewrite lookup_delete_ne.
    + intros He. cbn [pk_remove_key fst pk_historical_entries]. by rewrite Hoff.
    + intros He. destruct (Hon He) as (h & Hh & Hk). cbn [pk_remove_key fst pk_historical_entries].
      rewrite Hh. eexists. split; [done|]. intros key. rewrite Hlog. cbn [log_step]. case_bool_decide as Hk'.
      * subst k. by rewrite lookup_delete_eq.
      * by rewrite lookup_delete_ne.
Qed.

Lemma newest_spec l :
  match newest l with
  | None => l = []
  | Some p => p ∈ l /\ forall q, q ∈ l -> kp_tick q <= kp_tick p
  end.
Proof.
  induction l as [|p l IH] using rev_ind; [done|]. rewrite newest_snoc. unfold newer.
  destruct (newest l) as [q|].
  - destruct IH as [Hq Hmax]. destruct (Z.leb_spec (kp_tick q) (kp_tick p)) as [Hle|Hlt].
    + split; [set_solver|]. intros q' [Hq'|Hq']%elem_of_app; [apply Hmax in Hq'; lia|].
      apply list_elem_of_singleton in Hq' as ->. lia.
    + split; [set_solver|]. intros q' [Hq'|Hq']%elem_of_app; [by apply Hmax|].
      apply list_elem_of_singleton in Hq' as ->. lia.
  - subst l. split; [set_solver|]. intros q' Hq'%list_elem_of_singleton. subst. lia.
Qed.

(** C34: After any insertions and removals, the latest entry of a key is the last of those of its newest
    tick among the positions inserted since the key was removed, with or without history; with
    history the full lookup gives exactly these positions in order, so the two layers hold the same
    keys and the latest entry's tick is the greatest. *)
Theorem index_refines_log (enabled : bool) (ops : list IndexOp) (key : string) :
  let x := foldl index_step (pk_with_history enabled) ops in
  pk_lookup x key = (if enabled then log_entry (key_log ops key) else None)
  /\ match pk_lookup_latest x key with
     | None => key_log ops key = []
     | Some p => newest (key_log ops key) = Some p /\ p ∈ key_log ops key
                 /\ forall q, q ∈ key_log ops key -> kp_tick q <= kp_tick p
     end.
Proof.
  intros x. destruct (index_views enabled ops) as (Hl & Hoff & Hon). fold x in Hl, Hoff, Hon. split.
  - unfold pk_lookup. destruct enabled.
    + destruct (Hon eq_refl) as (h & -> & Hk). simpl. apply Hk.
    + by rewrite (Hoff eq_refl).
  - rewrite Hl. pose proof (newest_spec (key_log ops key)) as Hn. by destruct (newest _).
Qed.

(** ** Building an index *)

(** Rows keyed under one tick, as [build_primary_key_index] goes through a version. *)
Definition index_group (x : PrimaryKeyIndex) (tick : Tick) (rows : list (string * nat * nat)) : PrimaryKeyIndex :=
  foldl (fun x '(key, b, r) => pk_insert x key tick b r) x rows.

Definition group_ops (g : Tick * list (string * nat * nat)) : list IndexOp :=
  (fun '(key, b, r) => OpInsertKey key (g.1, b, r)) <$> g.2.

Lemma index_group_ops x t rows : index_group x t rows = foldl index_step x (group_ops (t, rows)).
Proof.
  revert x. induction rows as [|[[k b] r] rows IH]; intros x; [done|]. simpl. by rewrite <- IH.
Qed.

Lemma index_groups_ops x (groups : list (Tick * list (string * nat * nat))) :
  foldl (fun x g => index_group x g.1 g.2) x groups = foldl index_step x (groups ≫= group_ops).
Proof.
  revert x. induction groups as [|[t rows] groups IH]; intros x; [done|].
  rewrite bind_cons, foldl_app, <- IH. cbn [foldl fst snd]. by rewrite index_group_ops.
Qed.

Definition inserted (key : string) (op : IndexOp) : list KeyPosition :=
  match op with OpInsertKey k pos => if bool_decide (k = key) then [pos] else [] | OpRemoveKey _ => [] end.

Lemma key_log_inserts ops key l : (forall op, op ∈ ops -> exists k pos, op = OpInsertKey k pos) ->
  foldl (log_step key) l ops = l ++ (ops ≫= inserted key).
Proof.
  revert l. induction ops as [|op ops IH]; intros l Hops; [by rewrite app_nil_r|].
  rewrite bind_cons. cbn [foldl]. rewrite IH by set_solver.
  destruct (Hops op ltac:(left)) as (k & pos & ->). simpl. case_bool_decide; [by rewrite <- app_assoc|done].
Qed.

Lemma newest_group t l acc : (forall p, p ∈ l -> kp_tick p = t) ->
  foldl newer acc l = match last l with
                      | None => acc
                      | Some p => newer acc p
                      end.
Proof.
  revert acc. induction l as [|p l IH] using rev_ind; intros acc Hl; [done|].
  rewrite foldl_app, last_snoc, IH by set_solver. simpl. destruct (last l) as [q|] eqn:El; [|done].
  assert (Hq : kp_tick q = t) by (apply Hl, elem_of_app; left; by apply last_Some_elem_of).
  assert (Hp : kp_tick p = t) by (apply Hl; set_solver).
  unfold newer at 2. destruct acc as [a|]; [|unfold newer; by rewrite Hp, Hq, Z.leb_refl].
  destruct (Z.leb_spec (kp_tick a) (kp_tick q)) as [H1|H1]; unfold newer.
  - rewrite Hq, Hp, Z.leb_refl. destruct (Z.leb_spec (kp_tick a) t); [done|lia].
  - done.
Qed.

Definition group_log (key : string) (g : Tick * list (string * nat * nat)) : list KeyPosition :=
  group_ops g ≫= inserted key.

Lemma group_log_tick key g p : p ∈ group_log key g -> kp_tick p = tick_as_u64 g.1.
Proof.
  unfold group_log, group_ops. intros (op & Hp & Hop)%list_elem_of_bind.
  apply list_elem_of_fmap in Hop as ([[k b] r] & -> & _). simpl in Hp.
  case_bool_decide; [|by apply elem_of_nil in Hp]. by apply list_elem_of_singleton in Hp as ->.
Qed.

Lemma newer_swap acc p q : kp_tick p <> kp_tick q -> newer (newer acc p) q = newer (newer acc q) p.
Proof.
  intros Hne. unfold newer. destruct acc as [a|];
    repeat match goal with |- context [?x <=? ?y] => destruct (Z.leb_spec x y) end; try done; lia.
Qed.

Lemma newest_groups_perm key g1 g2 acc :
  g1 ≡ₚ g2 -> NoDup g1.*1 ->
  foldl newer acc (g1 ≫= group_log key) = foldl newer acc (g2 ≫= group_log key).
Proof.
  intros Hp. revert acc. induction Hp as [|g g1 g2 Hp IH|g h g1|g1 g2 g3 Hp1 IH1 Hp2 IH2]; intros acc Hnd.
  - done.
  - rewrite !bind_cons, !foldl_app. apply IH. simpl in Hnd. by apply NoDup_cons in Hnd as [_ ?].
  - rewrite !bind_cons, !foldl_app. f_equal. simpl in Hnd. apply NoDup_cons in Hnd as [Hn _].
    assert (Hne : tick_as_u64 h.1 <> tick_as_u64 g.1).
    { intros Heq. apply Hn. apply elem_of_cons. left. destruct h as [[t] ?], g as [[t'] ?]. simpl in *. congruence. }
    pose proof (group_log_tick key h) as Hh. pose proof (group_log_tick key g) as Hg.
    assert (Ho : forall acc, foldl newer acc (group_log key h)
      = match last (group_log key h) with None => acc | Some p => newer acc p end)
      by (intros a; by eapply newest_group).
    assert (Ho' : forall acc, foldl newer acc (group_log key g)
      = match last (group_log key g) with None => acc | Some p => newer acc p end)
      by (intros a; by eapply newest_group).
    rewrite !Ho, !Ho'. destruct (last (group_log key h)) as [p|] eqn:Ep, (last (group_log key g)) as [q|] eqn:Eq; try done.
    apply newer_swap. rewrite (Hh p), (Hg q) by (by apply last_Some_elem_of). done.
  - rewrite IH1 by done. apply IH2. by rewrite <- Hp1.
Qed.

Lemma build_groups_latest (groups : list (Tick * list (string * nat * nat))) key :
  pk_lookup_latest (foldl (fun x g => index_group x g.1 g.2) pk_new groups) key
  = newest (groups ≫= group_log key).
Proof.
  rewrite index_groups_ops. change pk_new with (pk_with_history true).
  destruct (index_views true (groups ≫= group_ops)) as (Hl & _). rewrite Hl. f_equal.
  unfold key_log. rewrite key_log_inserts.
  - simpl. clear Hl. induction groups as [|g groups IH]; [done|].
    rewrite !bind_cons, bind_app. rewrite IH. reflexivity.
  - intros op (g & Hop & _)%list_elem_of_bind. unfold group_ops in Hop.
    apply list_elem_of_fmap in Hop as ([[k b] r] & -> & _). by eexists _, _.
Qed.

(** Whatever order the hash map yields the versions in, the latest entries are the same. *)
Lemma build_groups_perm g1 g2 key : g1 ≡ₚ g2 -> NoDup g1.*1 ->
  pk_lookup_latest (foldl (fun x g => index_group x g.1 g.2) pk_new g1) key
  = pk_lookup_latest (foldl (fun x g => index_group x g.1 g.2) pk_new g2) key.
Proof. intros. rewrite !build_groups_latest. by apply newest_groups_perm. Qed.
