(* ===== verification/ArrowStore.v ===== *)
(** * ArrowStore: versioned tables, snapshots and the application of diffs

    Models [versioned_table.rs], [snapshot.rs], [store.rs] and [store_guard.rs] of
    [scharnhorst_arrow_store]. A table is a clone wherever the source clones it; the locks are not
    modelled, since the store is driven by one thread at a time (a poisoned lock neither). A call
    that may fail after writing returns the state it leaves with its outcome; [None] is a panic.
    The order in which a hash map yields its entries is an argument. *)

From Stdlib Require Import Ascii String.
From stdpp Require Import base gmap strings list fin_maps sorting.
From Stdlib Require Import ZArith Lia.
From S2P Require Import Prelude RustStr CoreTypes SchemaTables RuleCore Arrow ArrowVec ArrowBatch StoreIndex.

(** ** Tables *)

Inductive MutationMode := AppendOnly | Patchable | RebuildPerTick.

Section tables.
Context `{ArrowOps}.

Record VersionedTable := mkVT {
  vt_name : string;
  vt_mutation_mode : MutationMode;
  vt_spec : option TableSpec;
  vt_versions : gmap Tick (list RecordBatch);
  vt_primary_key_index : PrimaryKeyIndex;
  vt_foreign_key_indices : list ForeignKeyIndex;
  vt_partitions : PartitionMap;
  vt_position_map : RowPositionMap }.

Definition vt_new (name : string) (mode : MutationMode) : VersionedTable :=
  mkVT name mode None ∅ pk_new [] partitions_new rpm_new.

Definition vt_set_spec (t : VersionedTable) (spec : TableSpec) : VersionedTable :=
  mkVT (vt_name t) (vt_mutation_mode t) (Some spec) (vt_versions t) (vt_primary_key_index t)
    (vt_foreign_key_indices t) (vt_partitions t) (vt_position_map t).
Definition vt_with_mode (t : VersionedTable) (mode : MutationMode) : VersionedTable :=
  mkVT (vt_name t) mode (vt_spec t) (vt_versions t) (vt_primary_key_index t)
    (vt_foreign_key_indices t) (vt_partitions t) (vt_position_map t).
Definition vt_with_versions (t : VersionedTable) (versions : gmap Tick (list RecordBatch)) : VersionedTable :=
  mkVT (vt_name t) (vt_mutation_mode t) (vt_spec t) versions (vt_primary_key_index t)
    (vt_foreign_key_indices t) (vt_partitions t) (vt_position_map t).
Definition vt_with_pk (t : VersionedTable) (pk : PrimaryKeyIndex) : VersionedTable :=
  mkVT (vt_name t) (vt_mutation_mode t) (vt_spec t) (vt_versions t) pk
    (vt_foreign_key_indices t) (vt_partitions t) (vt_position_map t).
Definition vt_with_fks (t : VersionedTable) (fks : list ForeignKeyIndex) : VersionedTable :=
  mkVT (vt_name t) (vt_mutation_mode t) (vt_spec t) (vt_versions t) (vt_primary_key_index t)
    fks (vt_partitions t) (vt_position_map t).
Definition vt_with_partitions (t : VersionedTable) (p : PartitionMap) : VersionedTable :=
  mkVT (vt_name t) (vt_mutation_mode t) (vt_spec t) (vt_versions t) (vt_primary_key_index t)
    (vt_foreign_key_indices t) p (vt_position_map t).
Definition vt_with_positions (t : VersionedTable) (m : RowPositionMap) : VersionedTable :=
  mkVT (vt_name t) (vt_mutation_mode t) (vt_spec t) (vt_versions t) (vt_primary_key_index t)
    (vt_foreign_key_indices t) (vt_partitions t) m.

Definition vt_insert_version (t : VersionedTable) (tick : Tick) (batches : list RecordBatch) : VersionedTable :=
  vt_with_versions t (<[tick := batches]> (vt_versions t)).
Definition vt_get_version (t : VersionedTable) (tick : Tick) : option (list RecordBatch) := vt_versions t !! tick.

(** [ticks.sort(); ticks.into_iter().last()] *)
Definition max_tick (ticks : list Tick) : option Tick := last (sort_by_key tick_as_u64 ticks).
Definition vt_latest_tick (t : VersionedTable) : option Tick := max_tick (map_to_list (vt_versions t)).*1.

Definition vt_add_foreign_key_index (t : VersionedTable) (x : ForeignKeyIndex) : VersionedTable :=
  vt_with_fks t (vt_foreign_key_indices t ++ [x]).

(** ** Snapshots *)

Record WorldSnapshot := mkSnapshot {
  ws_tick : Tick;
  ws_tables : gmap string VersionedTable;
  ws_partition_views : gmap string (gmap string PartitionSnapshot) }.

Definition snapshot_new (tick : Tick) : WorldSnapshot := mkSnapshot tick ∅ ∅.
Definition snapshot_register_table (s : WorldSnapshot) (name : string) (t : VersionedTable) : WorldSnapshot :=
  mkSnapshot (ws_tick s) (<[name := t]> (ws_tables s)) (ws_partition_views s).
Definition snapshot_with_table (tick : Tick) (name : string) (t : VersionedTable) : WorldSnapshot :=
  snapshot_register_table (snapshot_new tick) name t.
Definition snapshot_table_count (s : WorldSnapshot) : nat := size (ws_tables s).
Definition snapshot_get_table (s : WorldSnapshot) (name : string) : StoreResult VersionedTable :=
  ok_or (ws_tables s !! name) (ATableNotFound name).
Definition snapshot_table_batches (s : WorldSnapshot) (name : string) : StoreResult (list RecordBatch) :=
  let? table := snapshot_get_table s name in
  Ok (default [] (vt_get_version table (ws_tick s))).
Definition snapshot_register_partition (s : WorldSnapshot) (name : string) (p : PartitionSnapshot)
  : WorldSnapshot :=
  mkSnapshot (ws_tick s) (ws_tables s)
    (<[name := <[ps_region_id p := p]> (default ∅ (ws_partition_views s !! name))]> (ws_partition_views s)).
Definition snapshot_has_table (s : WorldSnapshot) (name : string) : bool :=
  bool_decide (is_Some (ws_tables s !! name)).
Definition snapshot_has_partition (s : WorldSnapshot) (name region : string) : bool :=
  match ws_partition_views s !! name with
  | Some m => bool_decide (is_Some (m !! region))
  | None => false
  end.
End tables.

(** ** Rows by diffs *)

Section rows.
Context {V : Type} `{AO : ArrowOps} `{JR : JsonRead V} `{FT : FloatText}.
Context (ver_order : gmap Tick (list RecordBatch) -> list (Tick * list RecordBatch)).
Context (group_order : gmap nat (list (nat * nat)) -> list (nat * list (nat * nat))).

(** The patches of each batch: (row in the batch, row in the patch). *)
Fixpoint group_patches (i : nat) (locations : list RowLocation) (grouped : gmap nat (list (nat * nat)))
  : gmap nat (list (nat * nat)) :=
  match locations with
  | [] => grouped
  | loc :: locations =>
      group_patches (S i) locations
        (<[loc_batch_index loc :=
             default [] (grouped !! loc_batch_index loc) ++ [(loc_row_index loc, i)]]> grouped)
  end.

(** The batches patched one group after the other, until one cannot be. *)
Fixpoint patch_groups (versions : list RecordBatch) (batch : RecordBatch)
    (groups : list (nat * list (nat * nat))) : option (list RecordBatch * StoreResult unit) :=
  match groups with
  | [] => Some (versions, Ok tt)
  | (batch_idx, patches) :: groups =>
      match versions !! batch_idx with
      | None => patch_groups versions batch groups
      | Some b =>
          patched ← patch_record_batch b batch patches;
          match patched with
          | Err e => Some (versions, Err e)
          | Ok b' => patch_groups (<[batch_idx := b']> versions) batch groups
          end
      end
  end.

Definition apply_patch_to_versions (table : VersionedTable) (table_name : string) (tick : Tick)
    (locations : list RowLocation) (batch : RecordBatch) : option (VersionedTable * StoreResult unit) :=
  match locations with
  | [] => Some (table, Ok tt)
  | _ :: _ =>
      match vt_versions table !! tick with
      | None => Some (table, Err (ATickNotFound table_name (tick_as_u64 tick)))
      | Some versions =>
          '(versions, r) ← patch_groups versions batch (group_order (group_patches 0 locations ∅));
          Some (vt_insert_version table tick versions, r)
      end
  end.

(** The newest tick whose version has a batch of that index. *)
Definition locate_tick (table : VersionedTable) (batch_idx : nat) : option Tick :=
  max_tick (filter (fun p => (batch_idx < length p.2)%nat) (map_to_list (vt_versions table))).*1.

Definition find_version (table : VersionedTable) (table_name : string) (loc_tick : Tick)
  : StoreResult (list RecordBatch) :=
  ok_or (vt_versions table !! loc_tick) (ATickNotFound table_name (tick_as_u64 loc_tick)).

(** The guards of an update, up to the batch the row is in. *)
Definition locate_for_update (table : VersionedTable) (table_name : string) (row : RowId)
  : StoreResult (RowLocation * RecordBatch) :=
  let? pos := ok_or (rpm_position_of (vt_position_map table) row)
    (AGeneric ("row not found in position map: table=" +:+ table_name +:+ ", row_id="
               +:+ show_u64 (row_id_as_u64 row))) in
  let batch_idx := Z.to_nat pos.1 in let row_offset := Z.to_nat pos.2 in
  let? loc_tick := ok_or (locate_tick table batch_idx)
    (AGeneric ("no tick found containing batch_idx " +:+ show_u64 pos.1 +:+ " for table " +:+ table_name)) in
  let? batches := find_version table table_name loc_tick in
  let? batch := ok_or (batches !! batch_idx)
    (AGeneric ("batch index " +:+ show_u64 pos.1 +:+ " out of range for table " +:+ table_name)) in
  if (rb_num_rows batch <=? row_offset)%nat
  then Err (AGeneric ("row offset " +:+ show_u64 pos.2 +:+ " out of range in batch " +:+ show_u64 pos.1))
  else Ok (mkLocation loc_tick batch_idx row_offset row, batch).

Definition apply_update_to_table (table : VersionedTable) (table_name : string) (patch_tick : Tick)
    (row : RowId) (column : string) (value : V) : option (VersionedTable * StoreResult unit) :=
  let prepared :=
    let? (loc, batch) := locate_for_update table table_name row in
    let? col_idx := map_err (fun _ => ASchema ("column '" +:+ column +:+ "' not found in table '" +:+ table_name +:+ "'"))
      (schema_index_of (rb_schema batch) column) in
    let? patch_batch := build_update_patch batch (loc_row_index loc) col_idx value in
    Ok (loc, patch_batch) in
  match prepared with
  | Err e => Some (table, Err e)
  | Ok (loc, patch_batch) => apply_patch_to_versions table table_name (loc_tick loc) [loc] patch_batch
  end.

Definition locate_for_delete (table : VersionedTable) (table_name : string) (row : RowId)
  : StoreResult (RowLocation * RecordBatch) :=
  let? pos := ok_or (rpm_position_of (vt_position_map table) row)
    (AGeneric ("row not found in position map for delete: table=" +:+ table_name +:+ ", row_id="
               +:+ show_u64 (row_id_as_u64 row))) in
  let batch_idx := Z.to_nat pos.1 in let row_offset := Z.to_nat pos.2 in
  let? loc_tick := ok_or (locate_tick table batch_idx)
    (AGeneric ("no tick found for delete: table=" +:+ table_name +:+ ", batch_idx=" +:+ show_u64 pos.1)) in
  let? batches := find_version table table_name loc_tick in
  let invalid := AGeneric ("invalid location for delete: batch=" +:+ show_u64 pos.1 +:+ ", row=" +:+ show_u64 pos.2) in
  let? batch := ok_or (batches !! batch_idx) invalid in
  if (rb_num_rows batch <=? row_offset)%nat then Err invalid
  else Ok (mkLocation loc_tick batch_idx row_offset row, batch).

Definition apply_delete_to_table (table : VersionedTable) (table_name : string) (patch_tick : Tick)
    (row : RowId) : option (VersionedTable * StoreResult unit) :=
  let prepared :=
    let? (loc, batch) := locate_for_delete table table_name row in
    let? null_patch := build_null_patch batch (loc_row_index loc) in
    Ok (loc, null_patch) in
  match prepared with
  | Err e => Some (table, Err e)
  | Ok (loc, null_patch) =>
      '(table, r) ← apply_patch_to_versions table table_name (loc_tick loc) [loc] null_patch;
      Some match r with
           | Err e => (table, Err e)
           | Ok _ => (vt_with_positions table (rpm_remove (vt_position_map table) row).1, Ok tt)
           end
  end.

Definition schema_of_spec (spec : TableSpec) (reg : TypeRegistry V) : StoreResult (list Field) :=
  try_map (fun col =>
    let? dt := resolve_data_type reg (col_storage_type col) in
    Ok (mkField (col_name col) dt (col_nullable col))) (ts_columns spec).

Definition resolve_table_schema (table : VersionedTable) (values : gmap string V) (reg : TypeRegistry V)
  : StoreResult (option (list Field)) :=
  match vt_spec table with
  | Some spec => let? fields := schema_of_spec spec reg in Ok (Some fields)
  | None =>
      match (ver_order (vt_versions table)).*2 ≫= id with
      | batch :: _ => Ok (Some (rb_schema batch))
      | [] =>
          if bool_decide (values = ∅) then Ok None
          else Ok (Some ((fun k => mkField k DUtf8 true) <$> merge_sort String.le (elements (dom values))))
      end
  end.

Definition table_key_name (table : VersionedTable) : option string :=
  spec ← vt_spec table; col_name <$> table_primary_key_column spec.

Definition pk_text (value : V) : string :=
  match jr_as_str value with Some s => s | None => jr_text value end.

Definition apply_insert_to_table (table : VersionedTable) (table_name : string) (tick : Tick)
    (row : RowId) (values : gmap string V) (reg : TypeRegistry V) : VersionedTable * StoreResult unit :=
  let prepared :=
    let? schema := resolve_table_schema table values reg in
    let? schema := ok_or schema (ASchema ("cannot determine schema for insert into table '" +:+ table_name +:+ "'")) in
    if rpm_contains (vt_position_map table) row then Err (ADuplicateRowId table_name (row_id_as_u64 row))
    else json_map_to_record_batch values schema in
  match prepared with
  | Err e => (table, Err e)
  | Ok batch =>
      let pk_col_name := table_key_name table in
      let version := default [] (vt_versions table !! tick) ++ [batch] in
      let table := vt_insert_version table tick version in
      let batch_idx := (length version - 1)%nat in
      let table :=
        match pk_col_name ≫= (fun pk_name => values !! pk_name) with
        | Some pk_value =>
            vt_with_pk table (pk_insert (vt_primary_key_index table) (pk_text pk_value) tick batch_idx 0)
        | None => table
        end in
      (vt_with_positions table (rpm_insert (vt_position_map table) row (Z.of_nat batch_idx) 0), Ok tt)
  end.

(** The row id of a row of [ReplaceTable]: its primary key, or its position. *)
Definition replace_row_id (pk_col_name : option string) (table_name : string) (i : nat)
    (row_map : gmap string V) (positions : RowPositionMap) : StoreResult RowId :=
  match pk_col_name with
  | None => Ok (mkRowId (Z.of_nat i))
  | Some pk_name =>
      let? pk_value := ok_or (row_map !! pk_name)
        (ASchema ("primary key column '" +:+ pk_name +:+ "' missing in ReplaceTable row for table '"
                  +:+ table_name +:+ "'")) in
      let? id := ok_or (json_value_to_u64 pk_value)
        (ASchema ("primary key column '" +:+ pk_name
                  +:+ "' value is not a valid u64 in ReplaceTable for table '" +:+ table_name +:+ "'")) in
      if rpm_contains positions (mkRowId id) then Err (ADuplicateRowId table_name id)
      else Ok (mkRowId id)
  end.

(** The loop over the rows: the positions it leaves, with the batches. *)
Fixpoint replace_rows (pk_col_name : option string) (table_name : string) (schema : list Field)
    (i : nat) (rows : list (gmap string V)) (positions : RowPositionMap) (batches : list RecordBatch)
  : RowPositionMap * StoreResult (list RecordBatch) :=
  match rows with
  | [] => (positions, Ok batches)
  | row_map :: rows =>
      match replace_row_id pk_col_name table_name i row_map positions with
      | Err e => (positions, Err e)
      | Ok row_id =>
          let positions := rpm_insert positions row_id (Z.of_nat i) 0 in
          match json_map_to_record_batch row_map schema with
          | Err e => (positions, Err e)
          | Ok batch => replace_rows pk_col_name table_name schema (S i) rows positions (batches ++ [batch])
          end
      end
  end.

Definition apply_replace_to_table (table : VersionedTable) (table_name : string) (tick : Tick)
    (rows : list (gmap string V)) (reg : TypeRegistry V) : VersionedTable * StoreResult unit :=
  let schema :=
    row ← head rows;
    match resolve_table_schema table row reg with Ok schema => schema | Err _ => None end in
  match schema with
  | None => (table, Err (ASchema ("cannot determine schema for ReplaceTable on '" +:+ table_name +:+ "'")))
  | Some schema =>
      let '(positions, r) := replace_rows (table_key_name table) table_name schema 0 rows rpm_new [] in
      let table := vt_with_positions table positions in
      match r with
      | Err e => (table, Err e)
      | Ok batches => (vt_insert_version table tick batches, Ok tt)
      end
  end.
End rows.

(** ** The store *)

Section store.
Context (V : Type) `{AO : ArrowOps}.

Record ArrowStore := mkStore {
  as_tables : gmap string VersionedTable;
  as_table_id_map : gmap TableId string;
  as_snapshots : gmap Tick WorldSnapshot;
  as_next_table_id : Z;
  as_generation : Z;
  as_type_registry : TypeRegistry V;
  as_lifecycle : LifecycleGuard }.
End store.
Arguments mkStore {V AO}.
Arguments as_tables {V AO}.
Arguments as_table_id_map {V AO}.
Arguments as_snapshots {V AO}.
Arguments as_next_table_id {V AO}.
Arguments as_generation {V AO}.
Arguments as_type_registry {V AO}.
Arguments as_lifecycle {V AO}.

Section operations.
Context {V : Type} `{AO : ArrowOps} `{JR : JsonRead V} `{FT : FloatText}.
Context (ver_order : gmap Tick (list RecordBatch) -> list (Tick * list RecordBatch)).
Context (group_order : gmap nat (list (nat * nat)) -> list (nat * list (nat * nat))).

Abbreviation Store := (ArrowStore V).

Definition store_new : Store := mkStore ∅ ∅ ∅ 0 0 default_type_registry guard_new.

Definition with_all_tables (s : Store) (tables : gmap string VersionedTable) : Store :=
  mkStore tables (as_table_id_map s) (as_snapshots s) (as_next_table_id s) (as_generation s)
    (as_type_registry s) (as_lifecycle s).
Definition with_table (s : Store) (name : string) (t : VersionedTable) : Store :=
  with_all_tables s (<[name := t]> (as_tables s)).

Definition init_guard (s : Store) : StoreResult unit :=
  if lifecycle_is_simulation (guard_lifecycle (as_lifecycle s))
  then Err (ALifecycle "operation not allowed during simulation") else Ok tt.
Definition commit_guard (s : Store) : StoreResult unit :=
  if lifecycle_is_initialization (guard_lifecycle (as_lifecycle s))
  then Err (ALifecycle "commit operation not allowed during initialization") else Ok tt.

Definition get_entry (s : Store) (name : string) : StoreResult VersionedTable :=
  ok_or (as_tables s !! name) (ATableNotFound name).

(** *** Tables *)

Definition register_type (s : Store) (name : string) (e : TypeEntry V) : StoreResult Store :=
  let? _ := init_guard s in
  Ok (mkStore (as_tables s) (as_table_id_map s) (as_snapshots s) (as_next_table_id s) (as_generation s)
        (type_registry_register (as_type_registry s) name e) (as_lifecycle s)).

Definition create_table (s : Store) (spec : TableSpec) (mode : MutationMode) : StoreResult (Store * TableId) :=
  let? _ := init_guard s in
  if bool_decide (is_Some (as_tables s !! ts_name spec)) then Err (ATableAlreadyExists (ts_name spec))
  else
    let id := mkTableId (as_next_table_id s) in
    let table := vt_set_spec (vt_new (ts_name spec) mode) spec in
    Ok (mkStore (<[ts_name spec := table]> (as_tables s)) (<[id := ts_name spec]> (as_table_id_map s))
          (as_snapshots s) (wrap64 (as_next_table_id s + 1)) (as_generation s) (as_type_registry s)
          (as_lifecycle s), id).

(** [id_order] is the order in which the id map is searched. *)
Definition drop_table (id_order : gmap TableId string -> list (TableId * string)) (s : Store) (name : string)
  : Store * StoreResult unit :=
  match init_guard s with
  | Err e => (s, Err e)
  | Ok _ =>
      let id_to_remove := fst <$> List.find (fun p => bool_decide (p.2 = name)) (id_order (as_table_id_map s)) in
      let ids := match id_to_remove with
                 | Some id => delete id (as_table_id_map s)
                 | None => as_table_id_map s
                 end in
      let r := map_ok (fun _ => tt) (get_entry s name) in
      (mkStore (delete name (as_tables s)) ids (as_snapshots s) (as_next_table_id s) (as_generation s)
         (as_type_registry s) (as_lifecycle s), r)
  end.

Definition get_table (s : Store) (name : string) : StoreResult VersionedTable := get_entry s name.
Definition table_count (s : Store) : nat := size (as_tables s).

Definition set_mutation_mode (s : Store) (name : string) (mode : MutationMode) : StoreResult Store :=
  let? _ := init_guard s in
  let? table := get_entry s name in Ok (with_table s name (vt_with_mode table mode)).
Definition mutation_mode (s : Store) (name : string) : StoreResult MutationMode :=
  map_ok vt_mutation_mode (get_entry s name).

Definition get_table_batches (s : Store) (name : string) (tick : Tick) : StoreResult (list RecordBatch) :=
  let? table := get_entry s name in Ok (default [] (vt_versions table !! tick)).

(** *** Ingestion *)

Definition append_batches (s : Store) (name : string) (tick : Tick) (batches : list RecordBatch)
  : StoreResult Store :=
  let? _ := init_guard s in
  let? table := get_entry s name in
  Ok (with_table s name (vt_insert_version table tick (default [] (vt_versions table !! tick) ++ batches))).

Definition patch_rows (s : Store) (name : string) (tick : Tick) (locations : list RowLocation)
    (batch : RecordBatch) : option (Store * StoreResult unit) :=
  match commit_guard s with
  | Err e => Some (s, Err e)
  | Ok _ =>
      match locations with
      | [] => Some (s, Ok tt)
      | _ :: _ =>
          match get_entry s name with
          | Err e => Some (s, Err e)
          | Ok table =>
              '(table, r) ← apply_patch_to_versions group_order table name tick locations batch;
              Some (with_table s name table, r)
          end
      end
  end.

(** Consecutive row ids over all the batches. *)
Fixpoint count_rows (batch_idx : nat) (counter : Z) (rows : list nat) (m : RowPositionMap) : RowPositionMap :=
  match rows with
  | [] => m
  | n :: rows =>
      count_rows (S batch_idx) (counter + Z.of_nat n) rows
        (foldl (fun m off => rpm_insert m (mkRowId (counter + Z.of_nat off)) (Z.of_nat batch_idx) (Z.of_nat off))
           m (seq 0 n))
  end.
Definition rebuild_table (s : Store) (name : string) (tick : Tick) (batches : list RecordBatch)
  : StoreResult Store :=
  let? _ := init_guard s in
  let? table := get_entry s name in
  let table := vt_with_positions table (count_rows 0 0 (rb_num_rows <$> batches) rpm_new) in
  Ok (with_table s name (vt_insert_version table tick batches)).

(** *** Snapshots *)

Definition partition_views_of (tick : Tick) (t : VersionedTable) : gmap string PartitionSnapshot :=
  map_imap (fun region p => Some (mkPSnapshot region tick (pt_batches p))) (pm_partitions (vt_partitions t)).
(** A table without a partition registers none, and gets no entry. *)
Definition snapshot_of (s : Store) (tick : Tick) : WorldSnapshot :=
  mkSnapshot tick (as_tables s)
    (filter (fun p => p.2 <> ∅) (partition_views_of tick <$> as_tables s)).

Definition do_generate_snapshot (s : Store) (tick : Tick) : Store * WorldSnapshot :=
  let snapshot := snapshot_of s tick in
  (mkStore (as_tables s) (as_table_id_map s) (<[tick := snapshot]> (as_snapshots s)) (as_next_table_id s)
     (wrap64 (as_generation s + 1)) (as_type_registry s) (as_lifecycle s), snapshot).
Definition generate_snapshot (s : Store) (tick : Tick) : StoreResult (Store * WorldSnapshot) :=
  let? _ := commit_guard s in Ok (do_generate_snapshot s tick).
Definition get_snapshot (s : Store) (tick : Tick) : StoreResult WorldSnapshot :=
  ok_or (as_snapshots s !! tick) (ASnapshotNotFound (tick_as_u64 tick)).
Definition latest_snapshot (s : Store) : option WorldSnapshot :=
  tick ← max_tick (map_to_list (as_snapshots s)).*1; as_snapshots s !! tick.

(** *** Indices *)

(** The rows of a batch, keyed by a column. *)
Definition keyed_rows (col_idx batch_idx : nat) (batch : RecordBatch) : list (string * nat * nat) :=
  match rb_columns batch !! col_idx with
  | Some a => (fun row_idx => (array_value_to_string a row_idx, batch_idx, row_idx)) <$> seq 0 (rb_num_rows batch)
  | None => []
  end.

(** The loops over batches and versions leave the index as far as they got. *)
Fixpoint index_batches (column : string) (tick : Tick) (batch_idx : nat) (batches : list RecordBatch)
    (x : PrimaryKeyIndex) : PrimaryKeyIndex * StoreResult unit :=
  match batches with
  | [] => (x, Ok tt)
  | batch :: batches =>
      match schema_index_of (rb_schema batch) column with
      | Err e => (x, Err (ASchema ("column " +:+ column +:+ " not found: " +:+ e)))
      | Ok col_idx =>
          index_batches column tick (S batch_idx) batches (index_group x tick (keyed_rows col_idx batch_idx batch))
      end
  end.
Fixpoint index_versions (column : string) (versions : list (Tick * list RecordBatch)) (x : PrimaryKeyIndex)
  : PrimaryKeyIndex * StoreResult unit :=
  match versions with
  | [] => (x, Ok tt)
  | (tick, batches) :: versions =>
      match index_batches column tick 0 batches x with
      | (x, Err e) => (x, Err e)
      | (x, Ok _) => index_versions column versions x
      end
  end.

Definition primary_key_name_or_err (t : VersionedTable) : StoreResult string :=
  let? spec := ok_or (vt_spec t) (ASchema "no table spec for PK index") in
  let? col := ok_or (table_primary_key_column spec) (ASchema "no primary key column defined") in
  Ok (col_name col).

Definition build_primary_key_index (s : Store) (name : string) : Store * StoreResult unit :=
  match (let? _ := init_guard s in
         let? table := get_entry s name in
         let? pk_name := primary_key_name_or_err table in Ok (table, pk_name)) with
  | Err e => (s, Err e)
  | Ok (table, pk_name) =>
      let '(x, r) := index_versions pk_name (ver_order (vt_versions table)) pk_new in
      (with_table s name (vt_with_pk table x), r)
  end.

Definition build_foreign_key_index (s : Store) (name column target_table : string) : StoreResult Store :=
  let? _ := init_guard s in
  let? table := get_entry s name in
  let '(layers, r) := index_versions column (ver_order (vt_versions table)) pk_new in
  let? _ := r in
  Ok (with_table s name (vt_add_foreign_key_index table (mkFK column target_table layers))).

Definition primary_key_index (s : Store) (name : string) : StoreResult PrimaryKeyIndex :=
  map_ok vt_primary_key_index (get_entry s name).
Definition foreign_key_indices (s : Store) (name : string) : StoreResult (list ForeignKeyIndex) :=
  map_ok vt_foreign_key_indices (get_entry s name).

(** *** Partitions *)

Definition partition_map (s : Store) (name : string) : StoreResult PartitionMap :=
  map_ok vt_partitions (get_entry s name).
Definition partition_map_mut {R} (s : Store) (name : string) (f : PartitionMap -> PartitionMap * R)
  : StoreResult (Store * R) :=
  let? _ := init_guard s in
  let? table := get_entry s name in
  let '(p, r) := f (vt_partitions table) in
  Ok (with_table s name (vt_with_partitions table p), r).
Definition get_partition (s : Store) (name region : string) : StoreResult Partition :=
  let? table := get_entry s name in partitions_get (vt_partitions table) region.

(** *** Truncation, lifecycle *)

Definition truncate_before (s : Store) (tick : Tick) : StoreResult Store :=
  let? _ := commit_guard s in
  let keep {A} (m : gmap Tick A) : gmap Tick A := filter (fun p => tick_as_u64 tick <= tick_as_u64 p.1) m in
  Ok (mkStore ((fun t => vt_with_versions t (keep (vt_versions t))) <$> as_tables s) (as_table_id_map s)
        (keep (as_snapshots s)) (as_next_table_id s) (as_generation s) (as_type_registry s) (as_lifecycle s)).

Definition advance_to_simulation (s : Store) : StoreResult Store :=
  let? g := map_err (fun e => ALifecycle match e with InvalidPhase m => "invalid lifecycle phase: " +:+ m | _ => "" end)
    (guard_advance_to_simulation (as_lifecycle s)) in
  Ok (mkStore (as_tables s) (as_table_id_map s) (as_snapshots s) (as_next_table_id s) (as_generation s)
        (as_type_registry s) g).

(** *** Diffs *)

Definition apply_to_table (s : Store) (name : string)
    (f : VersionedTable -> option (VersionedTable * StoreResult unit)) : option (Store * StoreResult unit) :=
  match get_entry s name with
  | Err e => Some (s, Err e)
  | Ok table => '(table, r) ← f table; Some (with_table s name table, r)
  end.

Definition apply_diff (s : Store) (tick : Tick) (d : Diff V) : option (Store * StoreResult unit) :=
  match d with
  | Update table row column value =>
      apply_to_table s table (fun t => apply_update_to_table group_order t table tick row column value)
  | Insert table row values =>
      apply_to_table s table (fun t => Some (apply_insert_to_table ver_order t table tick row values (as_type_registry s)))
  | Delete table row => apply_to_table s table (fun t => apply_delete_to_table group_order t table tick row)
  | ReplaceTable table rows =>
      apply_to_table s table (fun t => Some (apply_replace_to_table ver_order t table tick rows (as_type_registry s)))
  end.

(** The versions of the tables of these names that there are. *)
Definition versions_of (s : Store) (names : list string) : gmap string (gmap Tick (list RecordBatch)) :=
  vt_versions <$> filter (fun p => p.1 ∈ names) (as_tables s).
Definition put_versions (s : Store) (saved : gmap string (gmap Tick (list RecordBatch))) : Store :=
  with_all_tables s (map_imap (fun name t =>
    Some match saved !! name with Some v => vt_with_versions t v | None => t end) (as_tables s)).

Fixpoint apply_loop (s : Store) (tick : Tick) (saved : gmap string (gmap Tick (list RecordBatch)))
    (diffs : list (Diff V)) : option (Store * StoreResult unit) :=
  match diffs with
  | [] => Some (s, Ok tt)
  | d :: diffs =>
      '(s, r) ← apply_diff s tick d;
      match r with
      | Ok _ => apply_loop s tick saved diffs
      | Err e => Some (put_versions s saved, Err e)
      end
  end.

Definition apply_diffs (s : Store) (tick : Tick) (diffs : list (Diff V)) : option (Store * StoreResult unit) :=
  match commit_guard s with
  | Err e => Some (s, Err e)
  | Ok _ => apply_loop s tick (versions_of s (diff_table <$> diffs)) diffs
  end.

Definition save_table_versions (s : Store) (names : list string)
  : StoreResult (gmap string (gmap Tick (list RecordBatch))) := Ok (versions_of s names).
Definition restore_table_versions (s : Store) (saved : gmap string (gmap Tick (list RecordBatch)))
  : Store * StoreResult unit := (put_versions s saved, Ok tt).
End operations.
