(* ===== verification/StoreFacts.v ===== *)
(** * StoreFacts: what applying diffs to the store guarantees

    A batch of diffs is atomic in the versions of the tables, and never panics ([StoreJournal.v] makes
    of it what the journal asks, [StoreLaws]). The positions of rows are not rolled back, which the
    last theorem shows makes a failed tick impossible to retry. *)

From Stdlib Require Import Ascii String.
From stdpp Require Import base gmap strings list fin_maps sorting.
From Stdlib Require Import ZArith Lia.
From S2P Require Import Prelude RustStr CoreTypes SchemaTables Journal RuleCore Arrow ArrowVec ArrowBatch.
From S2P Require Import ArrowBatchFacts StoreIndex ArrowStore.

Section facts.
Context {V : Type} `{AO : ArrowOps} `{AL : !ArrowLaws} `{JR : JsonRead V} `{FT : FloatText}.
Context (ver_order : gmap Tick (list RecordBatch) -> list (Tick * list RecordBatch)).
Context (group_order : gmap nat (list (nat * nat)) -> list (nat * list (nat * nat))).

Abbreviation Store := (ArrowStore V).
Abbreviation apply := (apply_diff ver_order group_order).
Abbreviation apply_all := (apply_diffs ver_order group_order).

(** ** No panic *)

Lemma patch_columns_no_panic cols pcols patches :
  (length cols <= length pcols)%nat -> is_Some (patch_columns cols pcols patches).
Proof.
  revert pcols. induction cols as [|a cols IH]; intros [|p pcols] Hl; simpl in *; try (by eexists); [lia|].
  destruct (patch_array_values a p patches); [|by eexists].
  destruct (IH pcols ltac:(lia)) as [r ->]. by eexists.
Qed.

Lemma patch_batch_no_panic b patch patches :
  length (rb_columns patch) = length (rb_columns b) -> is_Some (patch_record_batch b patch patches).
Proof.
  intros Hl. unfold patch_record_batch.
  destruct (patch_columns_no_panic (rb_columns b) (rb_columns patch) patches) as [r ->]; [lia|by eexists].
Qed.

Lemma update_patch_columns src i c (v : V) p :
  build_update_patch src i c v = Ok p -> length (rb_columns p) = length (rb_columns src).
Proof.
  unfold build_update_patch. destruct (try_map _ _) as [cols|] eqn:E; [|done].
  intros Hb. apply rb_new_ok in Hb as [_ ->]. apply try_map_Ok, Forall2_length in E.
  by rewrite length_imap in E.
Qed.

Lemma null_patch_columns src i p :
  build_null_patch src i = Ok p -> length (rb_columns p) = length (rb_columns src).
Proof.
  unfold build_null_patch. destruct (try_map _ _) as [cols|] eqn:E; [|done].
  intros Hb. apply rb_new_ok in Hb as [_ ->]. apply try_map_Ok, Forall2_length in E.
  destruct (rb_columns_ok src) as [_ Hok]. apply Forall2_length in Hok.
  rewrite length_zip_with in E. lia.
Qed.

(** The iteration order of the groups of patches is one of their entries. *)
Definition orders_groups : Prop := forall m, group_order m ≡ₚ map_to_list m.

(** A single location gives a single group. *)
Lemma one_patch (loc : RowLocation) : orders_groups ->
  group_order (group_patches 0 [loc] ∅) = [(loc_batch_index loc, [(loc_row_index loc, 0%nat)])].
Proof.
  intros Ho. apply Permutation_singleton_r. etrans; [apply Ho|]. simpl.
  rewrite lookup_empty. simpl. rewrite insert_empty. by rewrite map_to_list_singleton.
Qed.

Lemma apply_one_patch table name tick loc patch versions b :
  orders_groups -> vt_versions table !! tick = Some versions -> versions !! loc_batch_index loc = Some b ->
  apply_patch_to_versions group_order table name tick [loc] patch
  = (patched ← patch_record_batch b patch [(loc_row_index loc, 0%nat)];
     Some match patched with
          | Err e => (vt_insert_version table tick versions, Err e)
          | Ok b' => (vt_insert_version table tick (<[loc_batch_index loc := b']> versions), Ok tt)
          end).
Proof.
  intros Ho Hv Hb. unfold apply_patch_to_versions. rewrite Hv, one_patch by done. simpl. rewrite Hb.
  by destruct (patch_record_batch _ _ _) as [[b'|e]|].
Qed.

Lemma insert_version_same table tick versions :
  vt_versions table !! tick = Some versions -> vt_insert_version table tick versions = table.
Proof.
  intros Hv. unfold vt_insert_version, vt_with_versions. rewrite insert_id by done. by destruct table.
Qed.

Lemma locate_for_update_ok table name row loc b : locate_for_update table name row = Ok (loc, b) ->
  exists versions, vt_versions table !! loc_tick loc = Some versions
  /\ versions !! loc_batch_index loc = Some b /\ (loc_row_index loc < rb_num_rows b)%nat
  /\ rpm_position_of (vt_position_map table) row
     = Some (default (0, 0) (rpm_position_of (vt_position_map table) row))
  /\ locate_tick table (loc_batch_index loc) = Some (loc_tick loc)
  /\ loc_batch_index loc = Z.to_nat (default (0, 0) (rpm_position_of (vt_position_map table) row)).1
  /\ loc_row_index loc = Z.to_nat (default (0, 0) (rpm_position_of (vt_position_map table) row)).2.
Proof.
  unfold locate_for_update, find_version. destruct (rpm_position_of _ row) as [pos|]; [|done]. cbn [ok_or].
  destruct (locate_tick table _) as [t|] eqn:Et; [|done]. cbn [ok_or].
  destruct (vt_versions table !! t) as [versions|] eqn:Ev; [|done]. cbn [ok_or].
  destruct (versions !! Z.to_nat pos.1) as [b'|] eqn:Eb; [|done]. cbn [ok_or].
  destruct (Nat.leb_spec (rb_num_rows b') (Z.to_nat pos.2)); [done|]. intros [= <- <-]. by exists versions.
Qed.

(** An update and a deletion locate their row alike; only their errors differ. *)
Lemma locate_for_delete_ok table name row loc b :
  locate_for_delete table name row = Ok (loc, b) <-> locate_for_update table name row = Ok (loc, b).
Proof.
  unfold locate_for_update, locate_for_delete, find_version.
  destruct (rpm_position_of _ row) as [pos|]; [|done]. cbn [ok_or].
  destruct (locate_tick table _) as [t|]; [|done]. cbn [ok_or].
  destruct (vt_versions table !! t) as [versions|]; [|done]. cbn [ok_or].
  destruct (versions !! Z.to_nat pos.1) as [b'|]; [|done]. cbn [ok_or].
  by destruct (_ <=? _)%nat.
Qed.

(** ** What one diff leaves alone *)

(** Everything of a table but its versions, positions and primary key index. *)
Definition same_frame (t t' : VersionedTable) : Prop :=
  vt_name t' = vt_name t /\ vt_mutation_mode t' = vt_mutation_mode t /\ vt_spec t' = vt_spec t
  /\ vt_foreign_key_indices t' = vt_foreign_key_indices t /\ vt_partitions t' = vt_partitions t.

Lemma update_spec table name tick row column (value : V) :
  orders_groups ->
  exists table' r, apply_update_to_table group_order table name tick row column value = Some (table', r)
  /\ same_frame table table' /\ vt_position_map table' = vt_position_map table
  /\ (is_ok r = false -> table' = table).
Proof.
  intros Ho. unfold apply_update_to_table.
  destruct (locate_for_update table name row) as [[loc b]|e] eqn:El; cbn [map_err]; [|by eexists table, _].
  destruct (schema_index_of _ _) as [c|] eqn:Ec; cbn [map_err]; [|by eexists table, _].
  destruct (build_update_patch _ _ _ _) as [p|] eqn:Ep; cbn [map_err]; [|by eexists table, _].
  apply locate_for_update_ok in El as (versions & Hv & Hb & _).
  rewrite (apply_one_patch _ _ _ _ _ _ _ Ho Hv Hb).
  destruct (patch_batch_no_panic b p [(loc_row_index loc, 0%nat)]) as [r ->];
    [by eapply update_patch_columns|]. cbn [mbind option_bind].
  destruct r as [b'|e]; eexists _, _; (split; [done|]); [done|]. by rewrite insert_version_same.
Qed.

Lemma delete_spec table name tick row :
  orders_groups ->
  exists table' r, apply_delete_to_table group_order table name tick row = Some (table', r)
  /\ same_frame table table'
  /\ vt_position_map table' = (if is_ok r then (rpm_remove (vt_position_map table) row).1 else vt_position_map table)
  /\ (is_ok r = false -> table' = table).
Proof.
  intros Ho. unfold apply_delete_to_table.
  destruct (locate_for_delete table name row) as [[loc b]|e] eqn:El; cbn [map_err]; [|by eexists table, _].
  destruct (build_null_patch _ _) as [p|] eqn:Ep; cbn [map_err]; [|by eexists table, _].
  apply locate_for_delete_ok, locate_for_update_ok in El as (versions & Hv & Hb & _).
  rewrite (apply_one_patch _ _ _ _ _ _ _ Ho Hv Hb).
  destruct (patch_batch_no_panic b p [(loc_row_index loc, 0%nat)]) as [r ->];
    [by eapply null_patch_columns|]. cbn [mbind option_bind].
  destruct r as [b'|e]; eexists _, _; (split; [done|]); [done|]. by rewrite insert_version_same.
Qed.

Lemma insert_frame table name tick row (values : gmap string V) reg :
  let '(table', r) := apply_insert_to_table ver_order table name tick row values reg in
  same_frame table table' /\ (is_ok r = false -> table' = table)
  /\ (is_ok r = true -> rpm_contains (vt_position_map table') row = true).
Proof.
  unfold apply_insert_to_table. destruct (match resolve_table_schema _ _ _ _ with Ok _ => _ | Err _ => _ end) as [b|e]; [|done].
  split_and!; [|done|].
  - unfold same_frame. by destruct (table_key_name table ≫= _).
  - intros _. unfold rpm_contains. cbn [vt_position_map vt_with_positions rpm_insert rpm_entries].
    rewrite lookup_insert_eq. by apply bool_decide_eq_true.
Qed.

Lemma replace_frame table name tick (rows : list (gmap string V)) reg :
  same_frame table (apply_replace_to_table ver_order table name tick rows reg).1.
Proof.
  unfold apply_replace_to_table. destruct (head rows ≫= _); [|done].
  by destruct (replace_rows _ _ _ _ _ _ _) as [m [bs|e]].
Qed.

(** A diff touches one table, of which the frame stays; it never panics. *)
Lemma apply_diff_spec (s : Store) tick (d : Diff V) : orders_groups ->
  exists s' r, apply s tick d = Some (s', r)
  /\ (s' = s \/ exists t t', as_tables s !! diff_table d = Some t /\ same_frame t t'
      /\ s' = with_table s (diff_table d) t').
Proof.
  intros Ho.
  assert (Htab : forall name f, (forall t, as_tables s !! name = Some t ->
      exists t' r, f t = Some (t', r) /\ same_frame t t') ->
    exists s' r, apply_to_table s name f = Some (s', r)
    /\ (s' = s \/ exists t t', as_tables s !! name = Some t /\ same_frame t t' /\ s' = with_table s name t')).
  { intros name f Hf. unfold apply_to_table, get_entry. destruct (as_tables s !! name) as [t|] eqn:E; simpl.
    - destruct (Hf t eq_refl) as (t' & r & -> & Hs). eexists _, _. split; [done|]. right. by eexists _, _.
    - eexists _, _. split; [done|by left]. }
  destruct d as [table row column value|table row values|table row|table rows]; apply Htab; intros t _.
  - destruct (update_spec t table tick row column value Ho) as (t' & r & E & Hs & _). by exists t', r.
  - pose proof (insert_frame t table tick row values (as_type_registry s)) as Hf.
    destruct (apply_insert_to_table _ _ _ _ _ _ _) as [t' r]. destruct Hf as [Hf _]. by exists t', r.
  - destruct (delete_spec t table tick row Ho) as (t' & r & E & Hs & _). by exists t', r.
  - pose proof (replace_frame t table tick rows (as_type_registry s)) as Hf.
    destruct (apply_replace_to_table _ _ _ _ _ _) as [t' r]. by exists t', r.
Qed.

(** ** Atomicity *)

Definition store_view (s : Store) : gmap string (gmap Tick (list RecordBatch)) := vt_versions <$> as_tables s.

(** The rest of the store: everything but the tables. *)
Definition same_store (s s' : Store) : Prop :=
  as_table_id_map s' = as_table_id_map s /\ as_snapshots s' = as_snapshots s
  /\ as_next_table_id s' = as_next_table_id s /\ as_generation s' = as_generation s
  /\ as_type_registry s' = as_type_registry s /\ as_lifecycle s' = as_lifecycle s.

(** Diffs over tables of [names]: the others are as before, these keep their frames. *)
Definition touched (names : list string) (s s' : Store) : Prop :=
  same_store s s'
  /\ forall k, match as_tables s !! k, as_tables s' !! k with
               | Some t, Some t' => same_frame t t' /\ (k ∉ names -> t' = t)
               | None, None => True
               | _, _ => False
               end.

Lemma same_frame_refl t : same_frame t t.
Proof. done. Qed.
Lemma same_frame_trans t1 t2 t3 : same_frame t1 t2 -> same_frame t2 t3 -> same_frame t1 t3.
Proof. unfold same_frame. intuition congruence. Qed.
Lemma same_store_trans s1 s2 s3 : same_store s1 s2 -> same_store s2 s3 -> same_store s1 s3.
Proof. unfold same_store. intuition congruence. Qed.

Lemma touched_refl names s : touched names s s.
Proof. split; [done|]. intros k. by destruct (as_tables s !! k). Qed.

Lemma touched_trans names s1 s2 s3 : touched names s1 s2 -> touched names s2 s3 -> touched names s1 s3.
Proof.
  intros [Hs1 H1] [Hs2 H2]. split; [by eapply same_store_trans|]. intros k. specialize (H1 k). specialize (H2 k).
  destruct (as_tables s1 !! k), (as_tables s2 !! k), (as_tables s3 !! k); try done.
  destruct H1 as [Hf1 He1], H2 as [Hf2 He2]. split; [by eapply same_frame_trans|].
  intros Hk. by rewrite He2, He1.
Qed.

Lemma touched_one names s name t t' :
  as_tables s !! name = Some t -> same_frame t t' -> name ∈ names -> touched names s (with_table s name t').
Proof.
  intros Ht Hf Hin. split; [done|]. intros k. simpl. destruct (decide (k = name)) as [->|Hne].
  - rewrite Ht, lookup_insert_eq. done.
  - rewrite lookup_insert_ne by done. by destruct (as_tables s !! k).
Qed.

Lemma put_versions_view s s' names : touched names s s' ->
  store_view (put_versions s' (versions_of s names)) = store_view s.
Proof.
  intros [_ Ht]. apply map_eq. intros k. specialize (Ht k). unfold store_view, put_versions, versions_of. simpl.
  rewrite !lookup_fmap, map_lookup_imap, lookup_fmap, map_lookup_filter.
  destruct (as_tables s !! k) as [t|], (as_tables s' !! k) as [t'|]; simpl; try done.
  destruct Ht as [_ He]. destruct (decide (k ∈ names)) as [Hin|Hin].
  - by rewrite option_guard_True.
  - rewrite option_guard_False by done. simpl. by rewrite He.
Qed.

Lemma put_versions_touched s s' names : touched names s s' ->
  touched names s (put_versions s' (versions_of s names)).
Proof.
  intros [Hs Ht]. split; [done|]. intros k. specialize (Ht k). unfold put_versions, versions_of. simpl.
  rewrite map_lookup_imap, lookup_fmap, map_lookup_filter.
  destruct (as_tables s !! k) as [t|], (as_tables s' !! k) as [t'|]; simpl; try done.
  destruct Ht as [Hf He]. destruct (decide (k ∈ names)) as [Hin|Hin].
  - by rewrite option_guard_True.
  - rewrite option_guard_False by done. simpl. split; [done|]. intros _. by apply He.
Qed.

Lemma apply_diff_touched (s : Store) tick (d : Diff V) names : orders_groups -> diff_table d ∈ names ->
  exists s' r, apply s tick d = Some (s', r) /\ touched names s s'.
Proof.
  intros Ho Hin. destruct (apply_diff_spec s tick d Ho) as (s' & r & E & Hs'). exists s', r. split; [done|].
  destruct Hs' as [->|(t & t' & Ht & Hf & ->)]; [apply touched_refl|by eapply touched_one].
Qed.

Lemma apply_loop_spec (s0 s : Store) tick names (ds : list (Diff V)) :
  orders_groups -> touched names s0 s -> (forall d, d ∈ ds -> diff_table d ∈ names) ->
  exists s' r, apply_loop ver_order group_order s tick (versions_of s0 names) ds = Some (s', r)
  /\ touched names s0 s' /\ (is_ok r = false -> store_view s' = store_view s0).
Proof.
  intros Ho. revert s. induction ds as [|d ds IH]; intros s Ht Hin; simpl; [by eexists _, _|].
  destruct (apply_diff_touched s tick d names Ho) as (s1 & r & -> & Ht1); [apply Hin; left|].
  assert (Ht' : touched names s0 s1) by (by eapply touched_trans).
  cbn [mbind option_bind]. destruct r as [[]|e].
  - apply IH; [done|]. intros d' Hd'. apply Hin. by right.
  - eexists _, _. split; [done|]. split; [by apply put_versions_touched|]. intros _. by apply put_versions_view.
Qed.

Lemma apply_diffs_spec (s : Store) tick (ds : list (Diff V)) : orders_groups ->
  exists s' r, apply_all s tick ds = Some (s', r) /\ touched (diff_table <$> ds) s s'
  /\ (is_ok r = false -> store_view s' = store_view s).
Proof.
  intros Ho. unfold apply_diffs. destruct (commit_guard s); [|eexists _, _; split; [done|]; split; [apply touched_refl|done]].
  apply apply_loop_spec; [done|apply touched_refl|]. intros d Hd. apply list_elem_of_fmap. by exists d.
Qed.

(** C15: Applying diffs never panics and is all or nothing in the versions: whatever the diffs, when it
    fails every table has the versions it had, and in any case tables that no diff names are
    untouched, no table appears or disappears, and names, modes, specifications, foreign key
    indices, partitions, snapshots, the type registry and the lifecycle are as before. *)
Theorem apply_diffs_atomic (s : Store) (tick : Tick) (ds : list (Diff V)) :
  orders_groups ->
  match apply_all s tick ds with
  | None => False
  | Some (s', r) =>
      (is_ok r = false -> store_view s' = store_view s)
      /\ same_store s s'
      /\ forall k, match as_tables s !! k, as_tables s' !! k with
                   | Some t, Some t' => same_frame t t' /\ (k ∉ (diff_table <$> ds) -> t' = t)
                   | None, None => True
                   | _, _ => False
                   end
  end.
Proof.
  intros Ho. destruct (apply_diffs_spec s tick ds Ho) as (s' & r & -> & [Hs Ht] & Hv). done.
Qed.

(** ** Row ids are not rolled back *)

(** The table of that name knows the row. *)
Definition row_held (s : Store) (name : string) (row : RowId) : Prop :=
  exists t, as_tables s !! name = Some t /\ rpm_contains (vt_position_map t) row = true.

(** Diffs that cannot make the table forget the row. *)
Definition spares (name : string) (row : RowId) (d : Diff V) : bool :=
  match d with
  | Delete table r => negb (bool_decide (table = name)) || negb (bool_decide (r = row))
  | ReplaceTable table _ => negb (bool_decide (table = name))
  | _ => true
  end.

(** The same batch applied again, once at each of the ticks. *)
Fixpoint retries (s : Store) (batch : list (Diff V)) (ticks : list Tick) : option (list (StoreResult unit)) :=
  match ticks with
  | [] => Some []
  | tick :: ticks =>
      '(s', r) ← apply_all s tick batch;
      rs ← retries s' batch ticks; Some (r :: rs)
  end.

Lemma insert_keeps_rows table name tick row row' (values : gmap string V) reg :
  rpm_contains (vt_position_map table) row = true ->
  rpm_contains (vt_position_map (apply_insert_to_table ver_order table name tick row' values reg).1) row = true.
Proof.
  intros H. unfold apply_insert_to_table. destruct (match resolve_table_schema _ _ _ _ with Ok _ => _ | Err _ => _ end); [|done].
  unfold rpm_contains in *. apply bool_decide_eq_true. apply bool_decide_eq_true in H.
  destruct (table_key_name table ≫= _); cbn [fst vt_position_map vt_with_positions rpm_insert rpm_entries vt_with_pk vt_insert_version vt_with_versions];
    by apply lookup_insert_is_Some'; right.
Qed.

Lemma remove_keeps_rows m row row' : row' <> row -> rpm_contains m row = true -> rpm_contains (rpm_remove m row').1 row = true.
Proof.
  intros Hne H. unfold rpm_contains in *. apply bool_decide_eq_true. apply bool_decide_eq_true in H.
  cbn [fst rpm_remove rpm_entries]. rewrite lookup_delete_ne; [done|]. destruct row, row'. cbn. congruence.
Qed.

(** A row that is known is known after any diff that spares it, whether the diff fails or not. *)
Lemma diff_keeps_row (s s' : Store) tick (d : Diff V) r name row : orders_groups ->
  row_held s name row -> spares name row d = true -> apply s tick d = Some (s', r) -> row_held s' name row.
Proof.
  intros Ho (t & Ht & Hc) Hs Happ.
  assert (Hk : forall table f, apply_to_table s table f = Some (s', r) ->
    (table = name -> forall t' r', f t = Some (t', r') -> rpm_contains (vt_position_map t') row = true) -> row_held s' name row).
  { intros table f E Hf. unfold apply_to_table, get_entry in E.
    destruct (as_tables s !! table) as [t0|] eqn:Et; cbn [ok_or] in E; [|injection E as <- _; by exists t].
    destruct (f t0) as [[t1 r1]|] eqn:Ef; [|done]. injection E as <- _. unfold row_held. simpl.
    destruct (decide (table = name)) as [->|Hne].
    - rewrite lookup_insert_eq. exists t1. split; [done|]. assert (t0 = t) as -> by congruence. eapply Hf; [done|exact Ef].
    - rewrite lookup_insert_ne by done. by exists t. }
  destruct d as [table row' column value|table row' values|table row'|table rows]; eapply Hk; try exact Happ; cbn beta.
  - intros _ t' r' E. destruct (update_spec t table tick row' column value Ho) as (? & ? & E' & _ & Hp & _).
    rewrite E in E'. injection E' as <- <-. by rewrite Hp.
  - intros -> t' r' [= E]. assert (t' = _) as -> by (symmetry; exact (f_equal fst E)). by apply insert_keeps_rows.
  - intros -> t' r' E. destruct (delete_spec t name tick row' Ho) as (? & ? & E' & _ & Hp & _).
    rewrite E in E'. injection E' as <- <-. rewrite Hp. destruct (is_ok _); [|done]. apply remove_keeps_rows; [|done].
    cbn in Hs. rewrite bool_decide_true in Hs by done. cbn in Hs. by apply negb_true_iff, bool_decide_eq_false in Hs.
  - intros ->. cbn in Hs. by rewrite bool_decide_true in Hs.
Qed.

Lemma put_versions_keeps_row (s : Store) saved name row : row_held s name row -> row_held (put_versions s saved) name row.
Proof.
  intros (t & Ht & Hc). eexists. simpl. rewrite map_lookup_imap, Ht. cbn. split; [done|].
  by destruct (saved !! name).
Qed.

(** It is never inserted again. *)
Lemma held_insert_fails (s s' : Store) tick name row (values : gmap string V) r :
  row_held s name row -> apply s tick (Insert name row values) = Some (s', r) -> is_ok r = false.
Proof.
  intros (t & Ht & Hc). cbn [apply_diff]. unfold apply_to_table, get_entry. rewrite Ht. cbn [ok_or mbind option_bind].
  unfold apply_insert_to_table. destruct (resolve_table_schema _ _ _ _) as [[F|]|]; cbn [ok_or];
    [rewrite Hc|..]; by intros [= _ <-].
Qed.

Lemma loop_keeps_row tick saved name row (ds : list (Diff V)) : orders_groups -> forall (s s' : Store) r,
  row_held s name row -> forallb (spares name row) ds = true ->
  apply_loop ver_order group_order s tick saved ds = Some (s', r) -> row_held s' name row.
Proof.
  intros Ho. induction ds as [|d ds IH]; intros s s' r Hh Hs; cbn [apply_loop forallb] in *; [by intros [= <- _]|].
  apply andb_true_iff in Hs as [Hd Hs]. destruct (apply s tick d) as [[s1 r1]|] eqn:E; [|done]. cbn [mbind option_bind].
  apply diff_keeps_row with (name := name) (row := row) in E; [|done..].
  destruct r1; [by apply IH|]. intros [= <- _]. by apply put_versions_keeps_row.
Qed.

(** The first part of a batch that went well: what was saved does not matter. *)
Lemma loop_prefix tick saved saved' (ds ds' : list (Diff V)) : forall (s s1 : Store),
  apply_loop ver_order group_order s tick saved ds = Some (s1, Ok tt) ->
  apply_loop ver_order group_order s tick saved' (ds ++ ds') = apply_loop ver_order group_order s1 tick saved' ds'.
Proof.
  induction ds as [|d ds IH]; intros s s1; cbn [apply_loop app]; [by intros [= <-]|].
  destruct (apply s tick d) as [[s2 [[]|e]]|]; cbn [mbind option_bind]; [by apply IH|done..].
Qed.

Lemma loop_last_insert tick saved name row (values : gmap string V) (ds : list (Diff V)) : forall (s s1 : Store),
  apply_loop ver_order group_order s tick saved (ds ++ [Insert name row values]) = Some (s1, Ok tt) -> row_held s1 name row.
Proof.
  induction ds as [|d ds IH]; intros s s1; cbn [apply_loop app].
  - destruct (apply s tick _) as [[s2 [[]|e]]|] eqn:E; cbn [mbind option_bind]; [|done..]. intros [= <-].
    revert E. cbn [apply_diff]. unfold apply_to_table, get_entry. destruct (as_tables s !! name) as [t|]; [|done]. cbn [ok_or].
    pose proof (insert_frame t name tick row values (as_type_registry s)) as Hi.
    destruct (apply_insert_to_table _ _ _ _ _ _ _) as [t' r]. cbn [mbind option_bind]. intros [= <- ->].
    destruct Hi as (_ & _ & Hc). exists t'. simpl. rewrite lookup_insert_eq. by split; [|apply Hc].
  - destruct (apply s tick d) as [[s2 [[]|e]]|]; cbn [mbind option_bind]; [by apply IH|done..].
Qed.

Lemma held_batch_fails tick saved name row (values : gmap string V) (ds ds' : list (Diff V)) : orders_groups ->
  forall (s s' : Store) r, row_held s name row -> forallb (spares name row) ds = true ->
  apply_loop ver_order group_order s tick saved (ds ++ Insert name row values :: ds') = Some (s', r) -> is_ok r = false.
Proof.
  intros Ho. induction ds as [|d ds IH]; intros s s' r Hh Hs; cbn [apply_loop app forallb] in *.
  - destruct (apply s tick _) as [[s2 r2]|] eqn:E; [|done]. cbn [mbind option_bind].
    apply held_insert_fails in E; [|done]. destruct r2; [done|]. by intros [= _ <-].
  - apply andb_true_iff in Hs as [Hd Hs]. destruct (apply s tick d) as [[s2 r2]|] eqn:E; [|done]. cbn [mbind option_bind].
    apply diff_keeps_row with (name := name) (row := row) in E; [|done..]. destruct r2; [by apply IH|]. by intros [= _ <-].
Qed.

Lemma retries_fail name row (values : gmap string V) (ds ds' : list (Diff V)) ticks : orders_groups ->
  forallb (spares name row) (ds ++ ds') = true -> forall s : Store, row_held s name row ->
  exists rs, retries s (ds ++ Insert name row values :: ds') ticks = Some rs
  /\ length rs = length ticks /\ Forall (fun r => is_ok r = false) rs.
Proof.
  intros Ho Hs. rewrite forallb_app in Hs. apply andb_true_iff in Hs as [Hs Hs'].
  set (batch := ds ++ Insert name row values :: ds').
  assert (Hb : forallb (spares name row) batch = true) by (unfold batch; rewrite forallb_app; cbn; by rewrite Hs, Hs').
  induction ticks as [|tick ticks IH]; intros s Hh; cbn [retries]; [by exists []|].
  destruct (apply_diffs_spec s tick batch Ho) as (s' & r & E & _). rewrite E. cbn [mbind option_bind].
  assert (is_ok r = false /\ row_held s' name row) as [Hr Hh'].
  { revert E. unfold apply_diffs. destruct (commit_guard s); [|intros [= <- <-]; by split].
    intros E. split; [exact (held_batch_fails _ _ _ _ _ _ _ Ho _ _ _ Hh Hs E)|exact (loop_keeps_row _ _ _ _ _ Ho _ _ _ Hh Hb E)]. }
  destruct (IH s' Hh') as (rs & -> & Hl & Hf). cbn [mbind option_bind]. exists (r :: rs). cbn. by auto with f_equal.
Qed.

(** C36: What a failed batch inserted stays in the position maps, so the batch can never be applied
    again. Take a batch that inserts a row and fails somewhere after that insertion, and in which no
    diff deletes that row or replaces its table: the versions are those from before it, but the row
    is still known, and every later attempt with the same batch fails too, at whatever ticks and
    however often. *)
Theorem failed_insert_blocks_retry (s s1 s2 : Store) tick name row (values : gmap string V) ds ds' e ticks :
  orders_groups -> forallb (spares name row) (ds ++ ds') = true ->
  apply_all s tick (ds ++ [Insert name row values]) = Some (s1, Ok tt) ->
  let batch := ds ++ Insert name row values :: ds' in
  apply_all s tick batch = Some (s2, Err e) ->
  store_view s2 = store_view s /\ row_held s2 name row
  /\ exists rs, retries s2 batch ticks = Some rs /\ length rs = length ticks /\ Forall (fun r => is_ok r = false) rs.
Proof.
  intros Ho Hs H1 batch H2.
  assert (Hh : row_held s2 name row).
  { revert H1 H2. unfold apply_diffs. destruct (commit_guard s); [|done]. intros H1.
    unfold batch. rewrite (app_assoc ds [_] ds' : ds ++ Insert name row values :: ds' = _), (loop_prefix _ _ _ _ _ _ _ H1).
    intros H2. rewrite forallb_app in Hs. apply andb_true_iff in Hs as [_ Hs].
    eapply loop_keeps_row; [done| |exact Hs|exact H2]. by eapply loop_last_insert. }
  split; [|split; [done|by apply retries_fail]].
  destruct (apply_diffs_spec s tick batch Ho) as (s3 & r & E & _ & Hv). rewrite H2 in E. injection E as <- <-. by apply Hv.
Qed.
End facts.
