(* ===== verification/StoreRows.v ===== *)
(** * StoreRows: a table as a map from row ids to rows

    The abstract contract of a table: [rows_apply] says what a diff does to a finite map from row
    ids to rows. The table of the store, with its versions, batches, validity bytes and position
    map, refines it as long as all its rows were inserted under one tick, its home, whatever the ticks
    of updates and deletions; the last part shows that
    a row inserted under a later tick takes the place of an earlier one. *)

From Stdlib Require Import Ascii String.
From stdpp Require Import base gmap strings list fin_maps sorting.
From Stdlib Require Import ZArith Lia.
From S2P Require Import Prelude RustStr CoreTypes SchemaTables RuleCore Arrow ArrowVec ArrowBatch.
From S2P Require Import ArrowBatchFacts StoreIndex ArrowStore StoreFacts.

(** ** The contract *)

Section spec.
Context {V : Type} `{AO : ArrowOps} `{JR : JsonRead V} `{FT : FloatText}.

Abbreviation Row := (list (option Scalar)).

Definition to_option {E A} (r : result E A) : option A := match r with Ok a => Some a | Err _ => None end.

(** A null only where the schema admits one. *)
Fixpoint nulls_fit (F : list Field) (row : Row) : bool :=
  match F, row with
  | [], [] => true
  | f :: F, c :: row => (fld_nullable f || bool_decide (is_Some c)) && nulls_fit F row
  | _, _ => false
  end.
Definition row_fits (F : list Field) (row : Row) : bool := negb (bool_decide (F = [])) && nulls_fit F row.

Definition row_cells (F : list Field) (values : gmap string V) : StoreResult Row :=
  try_map (fun f => json_value_to_cell (default json_null (values !! fld_name f)) (fld_data_type f)) F.
Definition row_of (F : list Field) (values : gmap string V) : option Row :=
  row ← to_option (row_cells F values); guard (row_fits F row = true);; Some row.

Fixpoint rows_replace (pk : option string) (F : list Field) (i : nat) (rows : list (gmap string V))
    (acc : gmap Z Row) : option (gmap Z Row) :=
  match rows with
  | [] => Some acc
  | values :: rows =>
      id ← match pk with
           | None => Some (Z.of_nat i)
           | Some k => v ← values !! k; id ← json_value_to_u64 v; guard (acc !! id = None);; Some id
           end;
      row ← row_of F values;
      rows_replace pk F (S i) rows (<[id := row]> acc)
  end.

(** What a diff makes of the rows of its table: nothing, when it is refused. *)
Definition rows_apply (pk : option string) (F : list Field) (d : Diff V) (rows : gmap Z Row)
  : option (gmap Z Row) :=
  match d with
  | Update _ r column value =>
      old ← rows !! row_id_as_u64 r;
      i ← to_option (schema_index_of F column);
      f ← F !! i;
      cell ← to_option (json_value_to_cell value (fld_data_type f));
      guard (row_fits F (<[i := cell]> old) = true);;
      Some (<[row_id_as_u64 r := <[i := cell]> old]> rows)
  | Insert _ r values =>
      guard (rows !! row_id_as_u64 r = None);;
      row ← row_of F values; Some (<[row_id_as_u64 r := row]> rows)
  | Delete _ r => _ ← rows !! row_id_as_u64 r; Some (delete (row_id_as_u64 r) rows)
  | ReplaceTable _ [] => None
  | ReplaceTable _ (values :: rest) => rows_replace pk F 0 (values :: rest) ∅
  end.
End spec.

(** ** Batches of one row *)

Section one_row.
Context {V : Type} `{AO : ArrowOps} `{AL : !ArrowLaws} `{JR : JsonRead V} `{JL : !JsonLaws V} `{FT : FloatText}.

Lemma columns_ok_fit F cols cs :
  Forall2 (fun a c => arr_cells a = [c]) cols cs ->
  Forall2 (fun f a => arr_data_type a = fld_data_type f) F cols ->
  nulls_fit F cs = true <-> Forall2 (column_ok 1) F cols.
Proof.
  intros Hc. revert F. induction Hc as [|a c cols cs Ha Hc IH]; intros F Ht; inversion Ht as [|f ? F' ? Hf Ht']; subst; simpl.
  - split; [constructor|done].
  - rewrite andb_true_iff, orb_true_iff, bool_decide_eq_true, (IH _ Ht'). split.
    + intros [Hn Hrest]. constructor; [|done]. split_and!; [done|by rewrite <- arr_cells_length, Ha|].
      intros Hnull. rewrite Ha, list_elem_of_singleton. intros <-. destruct Hn as [Hn|[? ?]]; congruence.
    + inversion 1 as [|? ? ? ? (_ & _ & Hn) Hrest]; subst. split; [|done].
      destruct (fld_nullable f); [by left|right]. specialize (Hn eq_refl). rewrite Ha in Hn.
      destruct c; [by eexists|]. destruct Hn. left.
Qed.

Lemma one_row_total what F cols cs :
  Forall2 (fun a c => arr_cells a = [c]) cols cs ->
  Forall2 (fun f a => arr_data_type a = fld_data_type f) F cols ->
  if row_fits F cs
  then exists b, map_err (fun e => AArrow (what +:+ e)) (rb_try_new F cols) = Ok b
       /\ rb_schema b = F /\ rb_columns b = cols /\ rb_num_rows b = 1%nat /\ rb_row b 0 = cs
  else exists e, map_err (fun e => AArrow (what +:+ e)) (rb_try_new F cols) = Err e.
Proof.
  intros Hc Ht. pose proof (columns_ok_fit _ _ _ Hc Ht) as Hfit. unfold row_fits.
  destruct (bool_decide (F = []) || negb (nulls_fit F cs)) eqn:E.
  - assert (negb (bool_decide (F = [])) && nulls_fit F cs = false) as ->
      by (destruct (bool_decide (F = [])), (nulls_fit F cs); done).
    destruct (map_err _ _) as [b|e] eqn:Eb; [exfalso|by exists e].
    apply rb_new_ok in Eb as [Hs Hcols]. destruct (rb_columns_ok b) as [Hne Hok]. rewrite Hs, Hcols in *.
    apply orb_true_iff in E as [E|E].
    + apply bool_decide_eq_true in E. subst F. by inversion Hok; subst.
    + assert (rb_num_rows b = 1%nat) as Hn.
      { destruct Hc as [|a c cols cs Ha _]; [done|]. inversion Hok as [|? ? ? ? (_ & <- & _)].
        by rewrite <- arr_cells_length, Ha. }
      rewrite Hn in Hok. apply Hfit in Hok. by rewrite Hok in E.
  - apply orb_false_iff in E as [E1 E2]. rewrite E1. apply negb_false_iff in E2. rewrite E2. cbn [negb andb].
    assert (Hne : cols <> []).
    { intros ->. inversion Ht; subst. by apply bool_decide_eq_false in E1. }
    destruct (rb_new_total what F cols 1 Hne) as (b & Eb & _); [by apply Hfit|].
    exists b. split; [done|]. by apply (one_row_batch _ _ _ _ _ Eb).
Qed.

Lemma row_arrays (F : list Field) (values : gmap string V) row :
  row_cells F values = Ok row ->
  exists cols, try_map (fun f => json_value_to_array (default json_null (values !! fld_name f)) (fld_data_type f)) F = Ok cols
  /\ Forall2 (fun a c => arr_cells a = [c]) cols row
  /\ Forall2 (fun f a => arr_data_type a = fld_data_type f) F cols /\ Forall good_column cols.
Proof.
  unfold row_cells. intros Hr. apply try_map_Ok in Hr. induction Hr as [|f c F row Hf _ (cols & E & H1 & H2 & H3)].
  - by exists [].
  - simpl. assert (Ha : json_value_to_array (default json_null (values !! fld_name f)) (fld_data_type f)
      = Ok (arr_of_cells (fld_data_type f) [c])) by (unfold json_value_to_array; by rewrite Hf).
    rewrite Ha, E. eexists. split; [done|]. apply json_array_cells in Ha as (c' & Hc' & Ha & Ht & Hg).
    rewrite Hf in Hc'. injection Hc' as <-. split_and!; by constructor.
Qed.

Lemma json_map_total (F : list Field) (values : gmap string V) :
  match row_of F values with
  | Some row => exists b, json_map_to_record_batch values F = Ok b /\ rb_schema b = F
                /\ rb_num_rows b = 1%nat /\ good_batch b /\ rb_row b 0 = row
  | None => exists e, json_map_to_record_batch values F = Err e
  end.
Proof.
  unfold row_of. destruct (row_cells F values) as [row|e] eqn:E; cbn [to_option mbind option_bind].
  - destruct (row_arrays _ _ _ E) as (cols & Ecols & H1 & H2 & H3). unfold json_map_to_record_batch. rewrite Ecols.
    pose proof (one_row_total "json_map_to_record_batch: " F cols row H1 H2) as Ht.
    destruct (row_fits F row); [rewrite option_guard_True by done|rewrite option_guard_False by done]; [|done].
    destruct Ht as (b & Eb & Hs & Hcols & Hn & Hrow). cbn. exists b. unfold good_batch. by rewrite Hcols.
  - destruct (json_map_to_record_batch values F) as [b|e'] eqn:Eb; [|by exists e'].
    apply json_map_batch_ok in Eb as (_ & _ & _ & Hc). unfold row_cells in E. congruence.
Qed.

(** The columns of an update's patch: the new value in its column, slices in the others. *)
Definition update_columns (src : RecordBatch) (i col : nat) (value : V) : StoreResult (list Arr) :=
  try_map (fun '(c, a) =>
    if bool_decide (c = col) then json_value_to_array value (arr_data_type a)
    else slice_array_to_single a i) (imap pair (rb_columns src)).

Lemma update_columns_ok (src : RecordBatch) i col f (value : V) c :
  (i < rb_num_rows src)%nat -> rb_schema src !! col = Some f ->
  json_value_to_cell value (fld_data_type f) = Ok c ->
  exists cols, update_columns src i col value = Ok cols
  /\ Forall2 (fun a c => arr_cells a = [c]) cols (<[col := c]> (rb_row src i))
  /\ Forall2 (fun f a => arr_data_type a = fld_data_type f) (rb_schema src) cols.
Proof.
  intros Hi Hf Hc. destruct (rb_columns_ok src) as [_ Hok].
  set (new := arr_of_cells (fld_data_type f) [c]).
  assert (Hnew : json_value_to_array value (fld_data_type f) = Ok new)
    by (unfold json_value_to_array; by rewrite Hc).
  apply json_array_cells in Hnew as Hcell. destruct Hcell as (c' & Hc' & Hcell & Htype & _).
  rewrite Hc in Hc'. injection Hc' as <-.
  exists (<[col := new]> ((fun a => arr_slice a i 1) <$> rb_columns src)). split_and!.
  - apply try_map_Ok, Forall2_same_length_lookup_2; [by rewrite length_imap, length_insert, length_fmap|].
    intros j [k a] b Hj Hb. rewrite list_lookup_imap in Hj.
    destruct (rb_columns src !! j) as [a'|] eqn:Ea; [|done]. simpl in Hj. injection Hj as <- ->.
    destruct (decide (j = col)) as [->|Hne].
    + rewrite list_lookup_insert_eq in Hb by (rewrite length_fmap; by eapply lookup_lt_Some).
      injection Hb as <-. rewrite bool_decide_true by done.
      destruct (Forall2_lookup_lr _ _ _ _ _ _ Hok Hf Ea) as [-> _]. done.
    + rewrite list_lookup_insert_ne, list_lookup_fmap, Ea in Hb by done. injection Hb as <-.
      by rewrite bool_decide_false.
  - apply Forall2_insert; [|done]. unfold rb_row. apply Forall2_fmap, Forall_Forall2_diag, Forall_forall.
    intros a Ha. apply list_elem_of_lookup in Ha as [j Hj]. apply slice_one_cell.
    by destruct (Forall2_lookup_r _ _ _ _ _ Hok Hj) as (g & _ & _ & -> & _).
  - rewrite <- (list_insert_id (rb_schema src) col f Hf). apply Forall2_insert; [|done].
    apply Forall2_fmap_r. eapply Forall2_impl; [exact Hok|]. intros g a (<- & _). apply slice_type.
Qed.

Lemma update_patch_total (src : RecordBatch) i col f (value : V) :
  (i < rb_num_rows src)%nat -> rb_schema src !! col = Some f ->
  match (cell ← to_option (json_value_to_cell value (fld_data_type f));
         guard (row_fits (rb_schema src) (<[col := cell]> (rb_row src i)) = true);;
         Some (<[col := cell]> (rb_row src i))) with
  | Some row => exists p, build_update_patch src i col value = Ok p /\ rb_schema p = rb_schema src
                /\ rb_num_rows p = 1%nat /\ rb_row p 0 = row
  | None => exists e, build_update_patch src i col value = Err e
  end.
Proof.
  intros Hi Hf. unfold build_update_patch. fold (update_columns src i col value).
  destruct (json_value_to_cell value (fld_data_type f)) as [c|e] eqn:Ec; cbn [to_option mbind option_bind].
  - destruct (update_columns_ok _ _ _ _ _ _ Hi Hf Ec) as (cols & -> & H1 & H2).
    pose proof (one_row_total "build_update_patch: " _ _ _ H1 H2) as Ht.
    destruct (row_fits _ _); [rewrite option_guard_True by done|by rewrite option_guard_False by done].
    destruct Ht as (b & Eb & Hs & _ & Hn & Hr). cbn. by exists b.
  - destruct (update_columns src i col value) as [cols|e'] eqn:E; [|by exists e']. exfalso.
    apply try_map_Ok in E. destruct (rb_columns_ok src) as [_ Hok].
    destruct (Forall2_lookup_l _ _ _ _ _ Hok Hf) as (a & Ha & Ht & _).
    destruct (Forall2_lookup_l _ _ _ col (col, a) E) as (b & _ & Hb); [by rewrite list_lookup_imap, Ha|].
    rewrite bool_decide_true, Ht in Hb by done. unfold json_value_to_array in Hb. by rewrite Ec in Hb.
Qed.
End one_row.

(** ** Batches and positions as a map *)

Section representation.
Context `{AO : ArrowOps} `{AL : !ArrowLaws}.

Abbreviation Row := (list (option Scalar)).
Abbreviation Positions := (gmap Z (Z * Z)).

Definition row_at (bs : list RecordBatch) (p : Z * Z) : option Row :=
  b ← bs !! Z.to_nat p.1; rb_rows b !! Z.to_nat p.2.

(** The rows of the batches, under the row ids whose positions they have. *)
Record rep (F : list Field) (bs : list RecordBatch) (pos : Positions) (rows : gmap Z Row) : Prop := {
  rep_batches : Forall (fun b => good_batch b /\ rb_schema b = F) bs;
  rep_positive : forall id p, pos !! id = Some p -> 0 <= p.1 /\ 0 <= p.2;
  rep_distinct : forall id id' p, pos !! id = Some p -> pos !! id' = Some p -> id = id';
  rep_rows : forall id, rows !! id = pos !! id ≫= row_at bs;
  rep_present : forall id p, pos !! id = Some p -> is_Some (row_at bs p) }.

Lemma rep_nil F : rep F [] ∅ ∅.
Proof. split; [constructor|..]; intros *; rewrite ?lookup_empty; done. Qed.

Lemma rep_none F bs pos rows id : rep F bs pos rows -> rows !! id = None <-> pos !! id = None.
Proof.
  intros Hr. rewrite (rep_rows _ _ _ _ Hr). destruct (pos !! id) as [p|] eqn:E; [|done].
  destruct (rep_present _ _ _ _ Hr _ _ E) as [row Hrow]. simpl. rewrite Hrow. done.
Qed.

Lemma row_at_lt bs p row : row_at bs p = Some row -> (Z.to_nat p.1 < length bs)%nat.
Proof. unfold row_at. destruct (bs !! _) eqn:E; [|done]. intros _. by eapply lookup_lt_Some. Qed.

Lemma row_at_app bs b p : (Z.to_nat p.1 < length bs)%nat -> row_at (bs ++ [b]) p = row_at bs p.
Proof. intros Hp. unfold row_at. by rewrite lookup_app_l. Qed.

(** One more batch, of one row. *)
Lemma rep_snoc F bs pos rows id b :
  rep F bs pos rows -> good_batch b -> rb_schema b = F -> rb_num_rows b = 1%nat ->
  rep F (bs ++ [b]) (<[id := (Z.of_nat (length bs), 0)]> pos) (<[id := rb_row b 0]> rows).
Proof.
  intros Hr Hg Hs H1. set (new := (Z.of_nat (length bs), 0)).
  assert (Hnew : row_at (bs ++ [b]) new = Some (rb_row b 0)).
  { unfold row_at, new. simpl. rewrite Nat2Z.id, lookup_app_r, Nat.sub_diag by lia. simpl.
    rewrite rb_rows_lookup by lia. done. }
  assert (Hold : forall id' p, pos !! id' = Some p -> row_at (bs ++ [b]) p = row_at bs p /\ p <> new).
  { intros id' p Hp. destruct (rep_present _ _ _ _ Hr _ _ Hp) as [row Hrow]. apply row_at_lt in Hrow.
    split; [by apply row_at_app|]. intros ->. unfold new in Hrow. simpl in Hrow. lia. }
  split.
  - apply Forall_app. split; [by apply (rep_batches _ _ _ _ Hr)|]. by constructor.
  - intros id' p [[<- <-]|[_ Hp]]%lookup_insert_Some; [simpl; lia|by apply (rep_positive _ _ _ _ Hr id')].
  - intros i j p [[<- <-]|[Hi Hp]]%lookup_insert_Some [[<- Hq]|[Hj Hq]]%lookup_insert_Some; try done.
    + by destruct (Hold _ _ Hq).
    + subst p. by destruct (Hold _ _ Hp).
    + by apply (rep_distinct _ _ _ _ Hr i j p).
  - intros i. destruct (decide (id = i)) as [->|Hne].
    + rewrite !lookup_insert_eq. done.
    + rewrite !lookup_insert_ne by done. rewrite (rep_rows _ _ _ _ Hr).
      destruct (pos !! i) as [p|] eqn:Ep; [|done]. simpl. by destruct (Hold _ _ Ep) as [-> _].
  - intros i p [[<- <-]|[_ Hp]]%lookup_insert_Some; [by eexists|].
    destruct (Hold _ _ Hp) as [-> _]. by apply (rep_present _ _ _ _ Hr i).
Qed.

(** One row replaced in its batch. *)
Lemma rep_set F bs pos rows id p b b' row' :
  rep F bs pos rows -> pos !! id = Some p -> bs !! Z.to_nat p.1 = Some b ->
  good_batch b' -> rb_schema b' = F -> rb_num_rows b' = rb_num_rows b ->
  rb_rows b' = <[Z.to_nat p.2 := row']> (rb_rows b) ->
  rep F (<[Z.to_nat p.1 := b']> bs) pos (<[id := row']> rows).
Proof.
  intros Hr Hp Hb Hg Hs Hn Hrows. pose proof (lookup_lt_Some _ _ _ Hb) as Hlt.
  destruct (rep_positive _ _ _ _ Hr _ _ Hp) as [Hp1 Hp2].
  assert (Hoff : (Z.to_nat p.2 < rb_num_rows b)%nat).
  { destruct (rep_present _ _ _ _ Hr _ _ Hp) as [row Hrow]. unfold row_at in Hrow. rewrite Hb in Hrow.
    simpl in Hrow. rewrite <- rb_rows_length. by eapply lookup_lt_Some. }
  assert (Hat : forall id' q, pos !! id' = Some q ->
    row_at (<[Z.to_nat p.1 := b']> bs) q = if decide (id' = id) then Some row' else row_at bs q).
  { intros id' q Hq. unfold row_at. destruct (rep_positive _ _ _ _ Hr _ _ Hq) as [Hq1 Hq2].
    destruct (decide (Z.to_nat q.1 = Z.to_nat p.1)) as [He|Hne].
    - rewrite He, list_lookup_insert_eq by done. simpl. rewrite Hrows. case_decide as Hid.
      + subst id'. assert (q = p) as -> by congruence. by rewrite list_lookup_insert_eq by (by rewrite rb_rows_length).
      + rewrite list_lookup_insert_ne; [by rewrite Hb|]. intros Heq. apply Hid.
        apply (rep_distinct _ _ _ _ Hr id' id p); [|done]. rewrite Hq. f_equal. destruct p, q. simpl in *. f_equal; lia.
    - rewrite list_lookup_insert_ne by done. rewrite decide_False; [done|].
      intros ->. assert (q = p) by congruence. by subst. }
  split.
  - apply Forall_insert; [by apply (rep_batches _ _ _ _ Hr)|done].
  - apply (rep_positive _ _ _ _ Hr).
  - apply (rep_distinct _ _ _ _ Hr).
  - intros i. destruct (decide (i = id)) as [->|Hne].
    + rewrite lookup_insert_eq, Hp. simpl. by rewrite (Hat id p Hp), decide_True.
    + rewrite lookup_insert_ne by done. rewrite (rep_rows _ _ _ _ Hr).
      destruct (pos !! i) as [q|] eqn:Eq; [|done]. simpl. by rewrite (Hat i q Eq), decide_False.
  - intros i q Hq. rewrite (Hat i q Hq). case_decide; [by eexists|]. by apply (rep_present _ _ _ _ Hr i).
Qed.

Lemma rep_delete F bs pos rows id : rep F bs pos rows -> rep F bs (delete id pos) (delete id rows).
Proof.
  intros Hr. split.
  - apply (rep_batches _ _ _ _ Hr).
  - intros i p [_ Hp]%lookup_delete_Some. by apply (rep_positive _ _ _ _ Hr i).
  - intros i j p [_ Hp]%lookup_delete_Some [_ Hq]%lookup_delete_Some. by apply (rep_distinct _ _ _ _ Hr i j p).
  - intros i. destruct (decide (i = id)) as [->|Hne]; [by rewrite !lookup_delete_eq|].
    rewrite !lookup_delete_ne by done. apply (rep_rows _ _ _ _ Hr).
  - intros i p [_ Hp]%lookup_delete_Some. by apply (rep_present _ _ _ _ Hr i).
Qed.
End representation.

(** ** A table refines the contract *)

Section refinement.
Context {V : Type} `{AO : ArrowOps} `{AL : !ArrowLaws} `{JR : JsonRead V} `{JL : !JsonLaws V} `{FT : FloatText}.
Context (ver_order : gmap Tick (list RecordBatch) -> list (Tick * list RecordBatch)).
Context (group_order : gmap nat (list (nat * nat)) -> list (nat * list (nat * nat))).
Context (Ho : orders_groups group_order).

Abbreviation Row := (list (option Scalar)).

Definition apply_on_table (t : VersionedTable) (tick : Tick) (d : Diff V) (reg : TypeRegistry V)
  : option (VersionedTable * StoreResult unit) :=
  match d with
  | Update table row column value => apply_update_to_table group_order t table tick row column value
  | Insert table row values => Some (apply_insert_to_table ver_order t table tick row values reg)
  | Delete table row => apply_delete_to_table group_order t table tick row
  | ReplaceTable table rows => Some (apply_replace_to_table ver_order t table tick rows reg)
  end.

Lemma apply_diff_table (s : ArrowStore V) tick (d : Diff V) :
  apply_diff ver_order group_order s tick d
  = apply_to_table s (diff_table d) (fun t => apply_on_table t tick d (as_type_registry s)).
Proof. by destruct d. Qed.

(** All versions of the table are of one tick, and its rows are those of the map. *)
Definition table_represents (F : list Field) (tick : Tick) (t : VersionedTable) (rows : gmap Z Row) : Prop :=
  exists bs, (vt_versions t = {[tick := bs]} \/ vt_versions t = ∅ /\ bs = [])
  /\ rep F bs (rpm_entries (vt_position_map t)) rows.

Lemma locate_singleton t tick bs n :
  vt_versions t = {[tick := bs]} -> (n < length bs)%nat -> locate_tick t n = Some tick.
Proof.
  intros Hv Hn. unfold locate_tick. rewrite Hv, map_to_list_singleton, filter_cons_True by done. done.
Qed.

Lemma locate_represented F tick t rows name row :
  table_represents F tick t rows ->
  match rows !! row_id_as_u64 row with
  | None => (exists e, locate_for_update t name row = Err e) /\ (exists e, locate_for_delete t name row = Err e)
  | Some cells => exists bs p b,
      vt_versions t = {[tick := bs]} /\ rep F bs (rpm_entries (vt_position_map t)) rows
      /\ rpm_entries (vt_position_map t) !! row_id_as_u64 row = Some p
      /\ bs !! Z.to_nat p.1 = Some b /\ good_batch b /\ rb_schema b = F
      /\ (Z.to_nat p.2 < rb_num_rows b)%nat /\ rb_row b (Z.to_nat p.2) = cells
      /\ locate_for_update t name row = Ok (mkLocation tick (Z.to_nat p.1) (Z.to_nat p.2) row, b)
      /\ locate_for_delete t name row = Ok (mkLocation tick (Z.to_nat p.1) (Z.to_nat p.2) row, b)
  end.
Proof.
  intros (bs & Hv & Hr). destruct (rows !! row_id_as_u64 row) as [cells|] eqn:E.
  - rewrite (rep_rows _ _ _ _ Hr) in E. destruct (_ !! _) as [p|] eqn:Ep; [|done]. simpl in E.
    pose proof (row_at_lt _ _ _ E) as Hlt.
    destruct Hv as [Hv|[_ ->]]; [|by simpl in Hlt; lia].
    unfold row_at in E. destruct (bs !! Z.to_nat p.1) as [b|] eqn:Eb; [|done]. simpl in E.
    pose proof (lookup_lt_Some _ _ _ E) as Hoff. rewrite rb_rows_length in Hoff.
    pose proof (rep_batches _ _ _ _ Hr) as Hbs. rewrite Forall_lookup in Hbs. destruct (Hbs _ _ Eb) as [Hg Hs].
    assert (Hup : locate_for_update t name row = Ok (mkLocation tick (Z.to_nat p.1) (Z.to_nat p.2) row, b)).
    { unfold locate_for_update, rpm_position_of, find_version. rewrite Ep. cbn [ok_or].
      rewrite (locate_singleton t tick bs) by done. cbn [ok_or]. rewrite Hv, lookup_singleton_eq. cbn [ok_or].
      rewrite Eb. cbn [ok_or]. by rewrite (proj2 (Nat.leb_gt _ _)). }
    exists bs, p, b. split_and!; try done.
    + rewrite rb_rows_lookup in E by done. congruence.
    + by apply locate_for_delete_ok.
  - apply (rep_none _ _ _ _ _ Hr) in E.
    split; [unfold locate_for_update|unfold locate_for_delete]; unfold rpm_position_of; rewrite E; by eexists.
Qed.

(** Writing one row back through a patch. *)
Lemma patch_represented F tick t rows name row cells bs p b patch :
  vt_versions t = {[tick := bs]} -> rep F bs (rpm_entries (vt_position_map t)) rows ->
  rpm_entries (vt_position_map t) !! row_id_as_u64 row = Some p ->
  bs !! Z.to_nat p.1 = Some b -> good_batch b -> rb_schema b = F -> (Z.to_nat p.2 < rb_num_rows b)%nat ->
  rb_schema patch = F -> rb_num_rows patch = 1%nat -> rb_row patch 0 = cells ->
  exists t', apply_patch_to_versions group_order t name tick
               [mkLocation tick (Z.to_nat p.1) (Z.to_nat p.2) row] patch = Some (t', Ok tt)
  /\ table_represents F tick t' (<[row_id_as_u64 row := cells]> rows)
  /\ vt_position_map t' = vt_position_map t /\ vt_spec t' = vt_spec t.
Proof.
  intros Hv Hr Hp Hb Hg Hs Hoff Hps Hpn Hpr.
  destruct (patch_one_row b patch (Z.to_nat p.2) Hg) as (b' & Eb' & Hs' & Hn' & Hg' & Hrows'); [congruence|done|done|].
  rewrite (apply_one_patch _ _ _ tick _ _ bs b) by (done || by rewrite Hv, lookup_singleton_eq). simpl.
  rewrite Eb'. cbn [mbind option_bind]. eexists. split; [done|]. split_and!; [|done|done].
  exists (<[Z.to_nat p.1 := b']> bs). split.
  - left. simpl. rewrite Hv. apply insert_singleton_eq.
  - simpl. rewrite <- Hpr. eapply rep_set; try done; congruence.
Qed.

Lemma update_refines F tick t rows table row column (value : V) :
  table_represents F tick t rows ->
  match rows_apply (table_key_name t) F (Update table row column value) rows with
  | Some rows' => exists t', apply_update_to_table group_order t table tick row column value = Some (t', Ok tt)
                  /\ table_represents F tick t' rows' /\ vt_spec t' = vt_spec t
  | None => exists e, apply_update_to_table group_order t table tick row column value = Some (t, Err e)
  end.
Proof.
  intros Hrep. pose proof (locate_represented F tick t rows table row Hrep) as Hl. cbn [rows_apply].
  unfold apply_update_to_table.
  destruct (rows !! row_id_as_u64 row) as [cells|]; cbn [mbind option_bind];
    [|destruct Hl as [[e ->] _]; by exists e].
  destruct Hl as (bs & p & b & Hv & Hr & Hp & Hb & Hg & Hs & Hoff & Hcells & -> & _).
  rewrite Hs. destruct (schema_index_of F column) as [i|e] eqn:Ei; cbn [to_option mbind option_bind map_err]; [|by eexists].
  destruct (schema_index_of_ok _ _ _ Ei) as (f & Hf & _). rewrite Hf. cbn [mbind option_bind].
  rewrite <- Hs in Hf. pose proof (update_patch_total b (Z.to_nat p.2) i f value Hoff Hf) as Hpatch.
  rewrite Hcells, Hs in Hpatch. cbn [loc_row_index].
  destruct (to_option (json_value_to_cell _ _)) as [c|]; cbn [mbind option_bind] in *.
  2: { destruct Hpatch as [e ->]. by exists e. }
  destruct (decide (row_fits F (<[i:=c]> cells) = true)) as [Hfit|Hfit].
  - rewrite option_guard_True in Hpatch by done. rewrite option_guard_True by done.
    cbn [mbind option_bind] in *. destruct Hpatch as (patch & -> & Hps & Hpn & Hpr). cbn [loc_tick].
    destruct (patch_represented F tick t rows table row _ bs p b patch Hv Hr Hp Hb Hg Hs Hoff Hps Hpn Hpr)
      as (t' & E & Hrep' & _ & Hsp). by exists t'.
  - rewrite option_guard_False in Hpatch by done. rewrite option_guard_False by done.
    cbn [mbind option_bind] in *. destruct Hpatch as [e ->]. by exists e.
Qed.

Lemma delete_refines F tick t rows table row :
  table_represents F tick t rows ->
  match rows_apply (V := V) (table_key_name t) F (Delete table row) rows with
  | Some rows' => exists t', apply_delete_to_table group_order t table tick row = Some (t', Ok tt)
                  /\ table_represents F tick t' rows' /\ vt_spec t' = vt_spec t
  | None => exists e, apply_delete_to_table group_order t table tick row = Some (t, Err e)
  end.
Proof.
  intros Hrep. pose proof (locate_represented F tick t rows table row Hrep) as Hl. cbn [rows_apply].
  unfold apply_delete_to_table.
  destruct (rows !! row_id_as_u64 row) as [cells|]; cbn [mbind option_bind];
    [|destruct Hl as [_ [e ->]]; by exists e].
  destruct Hl as (bs & p & b & Hv & Hr & Hp & Hb & Hg & Hs & Hoff & Hcells & _ & ->).
  destruct (build_null_patch_ok b (Z.to_nat p.2) Hg Hoff) as (patch & Epatch & Hps & Hpn & Hpr).
  cbn [loc_row_index]. rewrite Epatch. cbn [loc_tick]. rewrite Hs in Hps.
  destruct (patch_represented F tick t rows table row _ bs p b patch Hv Hr Hp Hb Hg Hs Hoff Hps Hpn Hpr)
    as (t' & -> & (bs' & Hv' & Hr') & Hpos & Hsp). cbn [mbind option_bind].
  eexists. split; [done|]. split; [|done]. exists bs'. split; [done|]. simpl. rewrite Hpos in *.
  apply rep_delete with (id := row_id_as_u64 row) in Hr'. by rewrite delete_insert_eq in Hr'.
Qed.

Lemma insert_refines F tick t rows table row (values : gmap string V) reg spec :
  vt_spec t = Some spec -> schema_of_spec spec reg = Ok F -> table_represents F tick t rows ->
  match rows_apply (table_key_name t) F (Insert table row values) rows with
  | Some rows' => exists t', apply_insert_to_table ver_order t table tick row values reg = (t', Ok tt)
                  /\ table_represents F tick t' rows' /\ vt_spec t' = vt_spec t
  | None => exists e, apply_insert_to_table ver_order t table tick row values reg = (t, Err e)
  end.
Proof.
  intros Hsp HF (bs & Hv & Hr). cbn [rows_apply]. unfold apply_insert_to_table, resolve_table_schema.
  rewrite Hsp, HF. cbn [ok_or]. unfold rpm_contains.
  destruct (decide (rows !! row_id_as_u64 row = None)) as [Hn|Hn].
  2: { rewrite option_guard_False by done. rewrite bool_decide_true; [by eexists|].
       apply not_eq_None_Some. by rewrite <- rep_none. }
  rewrite option_guard_True by done. cbn [mbind option_bind].
  rewrite bool_decide_false by (apply eq_None_not_Some; by apply (rep_none _ _ _ _ _ Hr)).
  pose proof (json_map_total F values) as Hb. destruct (row_of F values) as [cells|]; cbn [mbind option_bind].
  2: { destruct Hb as [e ->]. by exists e. }
  destruct Hb as (b & -> & Hs & H1 & Hg & Hrow).
  assert (Hver : default [] (vt_versions t !! tick) = bs).
  { destruct Hv as [->|[-> ->]]; [by rewrite lookup_singleton_eq|by rewrite lookup_empty]. }
  rewrite Hver, length_app. cbn [length]. replace (length bs + 1 - 1)%nat with (length bs) by lia.
  eexists. split; [done|]. split; [|by destruct (table_key_name t ≫= _)].
  exists (bs ++ [b]). split.
  - left. assert (<[tick := bs ++ [b]]> (vt_versions t) = {[tick := bs ++ [b]]}) as <-.
    { destruct Hv as [->|[-> _]]; [apply insert_singleton_eq|apply insert_empty]. }
    by destruct (table_key_name t ≫= _).
  - rewrite <- Hrow. destruct (table_key_name t ≫= _); by apply rep_snoc.
Qed.

Lemma replace_rows_refines F pk table rows_in i positions batches (acc : gmap Z Row) :
  length batches = i -> rep F batches (rpm_entries positions) acc ->
  match rows_replace (V := V) pk F i rows_in acc with
  | Some rows' => exists positions' batches',
      replace_rows pk table F i rows_in positions batches = (positions', Ok batches')
      /\ rep F batches' (rpm_entries positions') rows'
  | None => exists positions' e, replace_rows pk table F i rows_in positions batches = (positions', Err e)
  end.
Proof.
  revert i positions batches acc. induction rows_in as [|values rows_in IH]; intros i positions batches acc Hi Hr.
  { by exists positions, batches. }
  cbn [rows_replace replace_rows]. unfold replace_row_id.
  assert (Hstep : forall id, match (row ← row_of F values; rows_replace pk F (S i) rows_in (<[id := row]> acc)) with
    | Some rows' => exists positions' batches',
        (let positions := rpm_insert positions (mkRowId id) (Z.of_nat i) 0 in
         match json_map_to_record_batch values F with
         | Err e => (positions, Err e)
         | Ok batch => replace_rows pk table F (S i) rows_in positions (batches ++ [batch])
         end) = (positions', Ok batches') /\ rep F batches' (rpm_entries positions') rows'
    | None => exists positions' e,
        (let positions := rpm_insert positions (mkRowId id) (Z.of_nat i) 0 in
         match json_map_to_record_batch values F with
         | Err e => (positions, Err e)
         | Ok batch => replace_rows pk table F (S i) rows_in positions (batches ++ [batch])
         end) = (positions', Err e)
    end).
  { intros id. pose proof (json_map_total F values) as Hb. destruct (row_of F values) as [cells|]; cbn [mbind option_bind].
    2: { destruct Hb as [e ->]. by eexists _, e. }
    destruct Hb as (b & -> & Hs & H1 & Hg & <-). apply IH; [rewrite length_app; simpl; lia|].
    subst i. by apply rep_snoc. }
  destruct pk as [k|]; [|apply Hstep].
  destruct (values !! k) as [v|]; cbn [mbind option_bind ok_or]; [|by eexists _, _].
  destruct (json_value_to_u64 v) as [id|]; cbn [mbind option_bind ok_or]; [|by eexists _, _].
  unfold rpm_contains. cbn [row_id_as_u64]. destruct (decide (acc !! id = None)) as [Hn|Hn].
  - rewrite option_guard_True by done. cbn [mbind option_bind].
    rewrite bool_decide_false by (apply eq_None_not_Some; by apply (rep_none _ _ _ _ _ Hr)). apply Hstep.
  - rewrite option_guard_False by done. cbn [mbind option_bind].
    rewrite bool_decide_true by (apply not_eq_None_Some; by rewrite <- (rep_none _ _ _ _ _ Hr)). by eexists _, _.
Qed.

Lemma replace_refines F tick t rows table (rows_in : list (gmap string V)) reg spec :
  vt_spec t = Some spec -> schema_of_spec spec reg = Ok F -> table_represents F tick t rows ->
  match rows_apply (table_key_name t) F (ReplaceTable table rows_in) rows with
  | Some rows' => exists t', apply_replace_to_table ver_order t table tick rows_in reg = (t', Ok tt)
                  /\ table_represents F tick t' rows' /\ vt_spec t' = vt_spec t
  | None => exists t' e, apply_replace_to_table ver_order t table tick rows_in reg = (t', Err e)
  end.
Proof.
  intros Hsp HF (bs & Hv & Hr). unfold apply_replace_to_table. destruct rows_in as [|values rows_in].
  { by eexists _, _. }
  cbn [rows_apply head mbind option_bind]. unfold resolve_table_schema. rewrite Hsp, HF.
  pose proof (replace_rows_refines F (table_key_name t) table (values :: rows_in) 0 rpm_new [] ∅ eq_refl (rep_nil F)) as Hrr.
  destruct (rows_replace _ _ _ _ _) as [rows'|].
  - destruct Hrr as (positions & batches & -> & Hrep). eexists. split; [done|]. split; [|done].
    exists batches. split; [|done]. left. simpl.
    destruct Hv as [->|[-> _]]; [apply insert_singleton_eq|apply insert_empty].
  - destruct Hrr as (positions & e & ->). by eexists _, _.
Qed.

(** A table is its map of rows: as long as its rows were written under one tick, a diff of that tick
    succeeds exactly when the map admits it (the row is there, or new; the values convert to the
    column types; no null where the schema forbids it; the keys of a replacement distinct), and
    then leaves a table that represents the changed map; a refused update, insertion or deletion
    leaves the table as it was. *)
Lemma table_refines_rows F tick t rows (d : Diff V) reg spec :
  vt_spec t = Some spec -> schema_of_spec spec reg = Ok F -> table_represents F tick t rows ->
  match rows_apply (table_key_name t) F d rows with
  | Some rows' => exists t', apply_on_table t tick d reg = Some (t', Ok tt)
                  /\ table_represents F tick t' rows' /\ vt_spec t' = Some spec
  | None => exists t' e, apply_on_table t tick d reg = Some (t', Err e)
            /\ ((forall table new, d <> ReplaceTable table new) -> t' = t)
  end.
Proof.
  intros Hsp HF Hrep. destruct d as [table row column value|table row values|table row|table new]; cbn [apply_on_table].
  - pose proof (update_refines F tick t rows table row column value Hrep) as H. rewrite <- Hsp.
    destruct (rows_apply _ _ _ _); [done|]. destruct H as [e ->]. by eexists _, _.
  - pose proof (insert_refines F tick t rows table row values reg spec Hsp HF Hrep) as H. rewrite <- Hsp.
    destruct (rows_apply _ _ _ _); [destruct H as (t' & -> & H); by exists t'|]. destruct H as [e ->]. by eexists _, _.
  - pose proof (delete_refines F tick t rows table row Hrep) as H. rewrite <- Hsp.
    destruct (rows_apply _ _ _ _); [done|]. destruct H as [e ->]. by eexists _, _.
  - pose proof (replace_refines F tick t rows table new reg spec Hsp HF Hrep) as H. rewrite <- Hsp.
    destruct (rows_apply _ _ _ _); [destruct H as (t' & -> & H); by exists t'|].
    destruct H as (t' & e & ->). eexists _, _. split; [done|]. intros Hd. by destruct (Hd table new).
Qed.
End refinement.

(** ** The store refines a map of tables *)

Section world.
Context {V : Type} `{AO : ArrowOps} `{AL : !ArrowLaws} `{JR : JsonRead V} `{JL : !JsonLaws V} `{FT : FloatText}.
Context (ver_order : gmap Tick (list RecordBatch) -> list (Tick * list RecordBatch)).
Context (group_order : gmap nat (list (nat * nat)) -> list (nat * list (nat * nat))).
Context (Ho : orders_groups group_order).

Abbreviation Row := (list (option Scalar)).

(** Primary key and columns of each table. *)
Abbreviation Layout := (gmap string (option string * list Field)).
Abbreviation World := (gmap string (gmap Z Row)).

Definition world_apply (M : Layout) (W : World) (d : Diff V) : option World :=
  rows ← W !! diff_table d; meta ← M !! diff_table d;
  rows' ← rows_apply meta.1 meta.2 d rows; Some (<[diff_table d := rows']> W).
Fixpoint world_apply_all (M : Layout) (W : World) (ds : list (Diff V)) : option World :=
  match ds with
  | [] => Some W
  | d :: ds => W' ← world_apply M W d; world_apply_all M W' ds
  end.

Definition table_rep (tick : Tick) (reg : TypeRegistry V) (t : VersionedTable)
    (meta : option string * list Field) (rows : gmap Z Row) : Prop :=
  exists spec, vt_spec t = Some spec /\ schema_of_spec spec reg = Ok meta.2
  /\ col_name <$> table_primary_key_column spec = meta.1 /\ table_represents meta.2 tick t rows.

(** [H k] is the tick the rows of the table [k] were inserted under. *)
Definition store_rep_home (M : Layout) (H : string -> Tick) (s : ArrowStore V) (W : World) : Prop :=
  forall k, match as_tables s !! k, M !! k, W !! k with
            | Some t, Some meta, Some rows => table_rep (H k) (as_type_registry s) t meta rows
            | None, None, None => True
            | _, _, _ => False
            end.
Definition store_rep (M : Layout) (tick : Tick) : ArrowStore V -> World -> Prop := store_rep_home M (fun _ => tick).

(** A diff may come in any tick, but for those that insert rows. *)
Definition at_home (H : string -> Tick) (tick : Tick) (d : Diff V) : bool :=
  match d with
  | Update _ _ _ _ | Delete _ _ => true
  | Insert table _ _ | ReplaceTable table _ => bool_decide (tick = H table)
  end.

Lemma apply_at_home H tick t (d : Diff V) reg : at_home H tick d = true ->
  apply_on_table ver_order group_order t tick d reg = apply_on_table ver_order group_order t (H (diff_table d)) d reg.
Proof. by destruct d; cbn [at_home diff_table]; intros Hd; [|apply bool_decide_eq_true in Hd as ->| |apply bool_decide_eq_true in Hd as ->]. Qed.

Lemma apply_diff_rep M H tick (s : ArrowStore V) W (d : Diff V) :
  store_rep_home M H s W -> at_home H tick d = true ->
  match world_apply M W d with
  | Some W' => exists s', apply_diff ver_order group_order s tick d = Some (s', Ok tt) /\ store_rep_home M H s' W'
  | None => exists s' e, apply_diff ver_order group_order s tick d = Some (s', Err e)
  end.
Proof.
  intros Hrep Hd. rewrite apply_diff_table. unfold world_apply, apply_to_table, get_entry.
  pose proof (Hrep (diff_table d)) as Hk. destruct (as_tables s !! diff_table d) as [t|] eqn:Et, (M !! diff_table d) as [meta|] eqn:Em,
    (W !! diff_table d) as [rows|] eqn:Er; try done; cbn [mbind option_bind ok_or]; [|by eexists _, _].
  destruct Hk as (spec & Hsp & HF & Hpk & Hr). rewrite (apply_at_home H) by done.
  pose proof (table_refines_rows ver_order group_order Ho meta.2 (H (diff_table d)) t rows d _ spec Hsp HF Hr) as Ht.
  assert (table_key_name t = meta.1) as Hname by (unfold table_key_name; by rewrite Hsp).
  rewrite Hname in Ht. destruct (rows_apply meta.1 meta.2 d rows) as [rows'|]; cbn [mbind option_bind].
  2: { destruct Ht as (t' & e & -> & _). by eexists _, _. }
  destruct Ht as (t' & -> & Hr' & Hsp'). cbn [mbind option_bind]. eexists. split; [done|].
  intros k. simpl. destruct (decide (k = diff_table d)) as [->|Hne].
  - rewrite !lookup_insert_eq, Em. by exists spec.
  - rewrite !lookup_insert_ne by done. apply Hrep.
Qed.

Lemma apply_loop_home M H tick saved (s : ArrowStore V) W (ds : list (Diff V)) :
  store_rep_home M H s W -> forallb (at_home H tick) ds = true ->
  match world_apply_all M W ds with
  | Some W' => exists s', apply_loop ver_order group_order s tick saved ds = Some (s', Ok tt) /\ store_rep_home M H s' W'
  | None => exists s' e, apply_loop ver_order group_order s tick saved ds = Some (s', Err e)
  end.
Proof.
  revert s W. induction ds as [|d ds IH]; intros s W Hrep Hds; [by exists s|].
  apply andb_true_iff in Hds as [Hd Hds]. cbn [world_apply_all apply_loop].
  pose proof (apply_diff_rep M H tick s W d Hrep Hd) as Ha.
  destruct (world_apply M W d) as [W'|]; cbn [mbind option_bind].
  - destruct Ha as (s' & -> & Hrep'). cbn [mbind option_bind]. by apply IH.
  - destruct Ha as (s' & e & ->). by eexists _, _.
Qed.

Lemma at_one_tick tick (ds : list (Diff V)) : forallb (at_home (fun _ => tick) tick) ds = true.
Proof. induction ds as [|d ds IH]; [done|]. cbn [forallb]. rewrite IH. by destruct d; cbn [at_home]; rewrite ?bool_decide_true. Qed.

End world.

(** ** Rows of different ticks share positions *)

Section aliasing.
Context {V : Type} `{AO : ArrowOps} `{AL : !ArrowLaws} `{JR : JsonRead V} `{JL : !JsonLaws V} `{FT : FloatText}.
Context (ver_order : gmap Tick (list RecordBatch) -> list (Tick * list RecordBatch)).

Lemma max_tick_max (l : list Tick) t :
  t ∈ l -> (forall t', t' ∈ l -> tick_as_u64 t' <= tick_as_u64 t) -> max_tick l = Some t.
Proof.
  intros Hin Hmax. unfold max_tick. pose proof (sort_by_key_perm tick_as_u64 l) as Hp.
  pose proof (sort_by_key_sorted tick_as_u64 l) as Hs.
  destruct (last (sort_by_key tick_as_u64 l)) as [m|] eqn:E.
  - apply last_Some in E as (l' & E). rewrite E in *. f_equal.
    assert (Hm : m ∈ l) by (rewrite <- Hp; set_solver).
    assert (Htm : tick_as_u64 t <= tick_as_u64 m).
    { rewrite <- Hp in Hin. apply elem_of_app in Hin as [Hin|Hin%list_elem_of_singleton]; [|by subst].
      apply StronglySorted_app in Hs as (Hs & _ & _). by apply Hs; [|left]. }
    specialize (Hmax m Hm). destruct m, t. simpl in *. f_equal. lia.
  - apply last_None in E. rewrite E in Hp. apply Permutation_nil_l in Hp. subst. by apply elem_of_nil in Hin.
Qed.

(** The position map stores no tick: once a row is inserted under a newer tick, an earlier row whose
    position is the first batch resolves to the new row, so reading, updating or deleting either
    of the two row ids reaches the same, newest row. *)
Theorem later_insert_aliases (t t' : VersionedTable) name (tick : Tick) old new (values : gmap string V) reg :
  (forall k, is_Some (vt_versions t !! k) -> tick_as_u64 k < tick_as_u64 tick) ->
  rpm_position_of (vt_position_map t) old = Some (0, 0) ->
  apply_insert_to_table ver_order t name tick new values reg = (t', Ok tt) ->
  exists b, vt_versions t' !! tick = Some [b]
  /\ locate_for_update t' name old = Ok (mkLocation tick 0 0 old, b)
  /\ locate_for_update t' name new = Ok (mkLocation tick 0 0 new, b).
Proof.
  intros Hnew Hold. unfold apply_insert_to_table.
  destruct (resolve_table_schema ver_order t values reg) as [schema|]; [|done].
  destruct schema as [F|]; cbn [ok_or]; [|done]. destruct (rpm_contains _ new) eqn:Ec; [done|].
  destruct (json_map_to_record_batch values F) as [b|] eqn:Eb; [|done].
  apply json_map_batch_ok in Eb as (_ & Hn & _).
  assert (Hno : vt_versions t !! tick = None).
  { destruct (vt_versions t !! tick) eqn:E; [|done]. specialize (Hnew tick ltac:(by eexists)). lia. }
  rewrite Hno. cbn [default from_option app length Nat.sub]. intros [= <-].
  set (t1 := vt_with_positions _ _).
  assert (Hv : vt_versions t1 = <[tick := [b]]> (vt_versions t)) by (unfold t1; by destruct (table_key_name t ≫= _)).
  assert (Hp : rpm_entries (vt_position_map t1) = <[row_id_as_u64 new := (0, 0)]> (rpm_entries (vt_position_map t)))
    by (unfold t1; by destruct (table_key_name t ≫= _)).
  assert (Hloc : forall row, rpm_position_of (vt_position_map t1) row = Some (0, 0) ->
    locate_for_update t1 name row = Ok (mkLocation tick 0 0 row, b)).
  { intros row Hrow. unfold locate_for_update, find_version. rewrite Hrow. cbn [ok_or fst snd].
    assert (locate_tick t1 (Z.to_nat 0) = Some tick) as ->.
    { unfold locate_tick. apply max_tick_max.
      - apply list_elem_of_fmap. exists (tick, [b]). split; [done|]. apply list_elem_of_filter. split; [simpl; lia|].
        apply elem_of_map_to_list. rewrite Hv. apply lookup_insert_eq.
      - intros k Hk. apply list_elem_of_fmap in Hk as ([k' bs] & -> & Hk). apply list_elem_of_filter in Hk as [_ Hk].
        apply elem_of_map_to_list in Hk. rewrite Hv in Hk. simpl.
        apply lookup_insert_Some in Hk as [[-> _]|[_ Hk]]; [lia|]. specialize (Hnew k' ltac:(by eexists)). lia. }
    cbn [ok_or]. rewrite Hv, lookup_insert_eq. cbn [ok_or].
    change ([b] !! Z.to_nat 0) with (Some b). cbn [ok_or]. by rewrite Hn. }
  exists b. split_and!.
  - rewrite Hv. apply lookup_insert_eq.
  - apply Hloc. unfold rpm_position_of in *. rewrite Hp.
    destruct (decide (row_id_as_u64 old = row_id_as_u64 new)) as [->|Hne]; [apply lookup_insert_eq|].
    by rewrite lookup_insert_ne.
  - apply Hloc. unfold rpm_position_of. rewrite Hp. apply lookup_insert_eq.
Qed.
End aliasing.
