(* ===== verification/StoreRuns.v ===== *)
(** * StoreRuns: any sequence of calls on the store

    The calls of [InitStore] and [CommitStore] as steps. Once the store simulates, its schema is
    frozen whatever is called; a snapshot, once taken, is what later reads of its tick see. *)

From Stdlib Require Import Ascii String.
From stdpp Require Import base gmap strings list fin_maps sorting.
From Stdlib Require Import ZArith Lia.
From S2P Require Import Prelude RustStr CoreTypes SchemaTables Journal RuleCore Arrow ArrowVec ArrowBatch.
From S2P Require Import ArrowBatchFacts StoreIndex ArrowStore StoreFacts.

Section runs.
Context {V : Type} `{AO : ArrowOps} `{AL : !ArrowLaws} `{JR : JsonRead V} `{FT : FloatText}.
Context (ver_order : gmap Tick (list RecordBatch) -> list (Tick * list RecordBatch)).
Context (group_order : gmap nat (list (nat * nat)) -> list (nat * list (nat * nat))).
Context (id_order : gmap TableId string -> list (TableId * string)).
Context (Ho : orders_groups group_order).

Abbreviation Store := (ArrowStore V).

Inductive StoreOp :=
| SRegisterType (name : string) (e : TypeEntry V)
| SCreateTable (spec : TableSpec) (mode : MutationMode)
| SDropTable (name : string)
| SSetMode (name : string) (mode : MutationMode)
| SAppend (name : string) (tick : Tick) (batches : list RecordBatch)
| SRebuild (name : string) (tick : Tick) (batches : list RecordBatch)
| SBuildPrimary (name : string)
| SBuildForeign (name column target : string)
| SPartitions (name : string) (f : PartitionMap -> PartitionMap)
| SAdvance
| SPatchRows (name : string) (tick : Tick) (locations : list RowLocation) (batch : RecordBatch)
| SSnapshot (tick : Tick)
| STruncate (tick : Tick)
| SApply (tick : Tick) (ds : list (Diff V))
| SRestore (saved : gmap string (gmap Tick (list RecordBatch))).

Definition kept (s : Store) (r : StoreResult Store) : Store := match r with Ok s' => s' | Err _ => s end.

(** The store a call leaves; a panicking call leaves it as it was. *)
Definition store_step (s : Store) (op : StoreOp) : Store :=
  match op with
  | SRegisterType name e => kept s (register_type s name e)
  | SCreateTable spec mode => kept s (map_ok fst (create_table s spec mode))
  | SDropTable name => (drop_table id_order s name).1
  | SSetMode name mode => kept s (set_mutation_mode s name mode)
  | SAppend name tick batches => kept s (append_batches s name tick batches)
  | SRebuild name tick batches => kept s (rebuild_table s name tick batches)
  | SBuildPrimary name => (build_primary_key_index ver_order s name).1
  | SBuildForeign name column target => kept s (build_foreign_key_index ver_order s name column target)
  | SPartitions name f => kept s (map_ok fst (partition_map_mut s name (fun p => (f p, tt))))
  | SAdvance => kept s (advance_to_simulation s)
  | SPatchRows name tick locations batch => from_option fst s (patch_rows group_order s name tick locations batch)
  | SSnapshot tick => kept s (map_ok fst (generate_snapshot s tick))
  | STruncate tick => kept s (truncate_before s tick)
  | SApply tick ds => from_option fst s (apply_diffs ver_order group_order s tick ds)
  | SRestore saved => (restore_table_versions s saved).1
  end.
Definition store_run (s : Store) (ops : list StoreOp) : Store := foldl store_step s ops.

(** What the simulation may not change: which tables there are, with everything but their rows. *)
Definition same_schema (s s' : Store) : Prop :=
  as_lifecycle s' = as_lifecycle s /\ as_table_id_map s' = as_table_id_map s
  /\ as_type_registry s' = as_type_registry s /\ as_next_table_id s' = as_next_table_id s
  /\ forall k, match as_tables s !! k, as_tables s' !! k with
               | Some t, Some t' => same_frame t t'
               | None, None => True
               | _, _ => False
               end.

Lemma same_schema_refl s : same_schema s s.
Proof. split_and!; try done. intros k. by destruct (as_tables s !! k). Qed.

Lemma same_schema_trans s1 s2 s3 : same_schema s1 s2 -> same_schema s2 s3 -> same_schema s1 s3.
Proof.
  intros (H1 & H2 & H3 & H4 & H5) (K1 & K2 & K3 & K4 & K5). split_and!; try congruence.
  intros k. specialize (H5 k). specialize (K5 k).
  destruct (as_tables s1 !! k), (as_tables s2 !! k), (as_tables s3 !! k); try done. by eapply same_frame_trans.
Qed.

Lemma schema_with_table s name t t' : as_tables s !! name = Some t -> same_frame t t' ->
  same_schema s (with_table s name t').
Proof.
  intros Ht Hf. split_and!; try done. intros k. simpl. destruct (decide (k = name)) as [->|Hne].
  - by rewrite Ht, lookup_insert_eq.
  - rewrite lookup_insert_ne by done. by destruct (as_tables s !! k).
Qed.

Lemma schema_map_tables s (f : string -> VersionedTable -> VersionedTable) s' :
  (forall k t, same_frame t (f k t)) ->
  as_lifecycle s' = as_lifecycle s -> as_table_id_map s' = as_table_id_map s ->
  as_type_registry s' = as_type_registry s -> as_next_table_id s' = as_next_table_id s ->
  (forall k, as_tables s' !! k = f k <$> as_tables s !! k) -> same_schema s s'.
Proof.
  intros Hf H1 H2 H3 H4 Hk. split_and!; try done. intros k. rewrite Hk. by destruct (as_tables s !! k); simpl.
Qed.

Lemma touched_schema names s s' : touched names s s' -> same_schema s s'.
Proof.
  intros [(H1 & H2 & H3 & H4 & H5 & H6) Ht]. split_and!; try done. intros k. specialize (Ht k).
  destruct (as_tables s !! k), (as_tables s' !! k); try done. by destruct Ht.
Qed.

Lemma patch_to_versions_frame t name tick locations batch t' r :
  apply_patch_to_versions group_order t name tick locations batch = Some (t', r) -> same_frame t t'.
Proof.
  unfold apply_patch_to_versions. destruct locations; [by intros [= <- _]|].
  destruct (vt_versions t !! tick); [|by intros [= <- _]].
  destruct (patch_groups _ _ _) as [[versions r']|]; [|done]. by intros [= <- _].
Qed.

(** In simulation every call of the initialization is refused, and the others write rows only. *)
Lemma simulation_step (s : Store) op :
  lifecycle_is_simulation (guard_lifecycle (as_lifecycle s)) = true -> same_schema s (store_step s op).
Proof.
  intros Hsim. assert (Hi : init_guard s = Err (ALifecycle "operation not allowed during simulation"))
    by (unfold init_guard; by rewrite Hsim).
  destruct op; simpl.
  1-2, 4-6, 8-9: unfold register_type, create_table, set_mutation_mode, append_batches, rebuild_table,
    build_foreign_key_index, partition_map_mut; rewrite Hi; apply same_schema_refl.
  - unfold drop_table. rewrite Hi. apply same_schema_refl.
  - unfold build_primary_key_index. rewrite Hi. apply same_schema_refl.
  - unfold advance_to_simulation, guard_advance_to_simulation. rewrite Hsim. apply same_schema_refl.
  - unfold patch_rows. destruct (commit_guard s); [|apply same_schema_refl].
    destruct locations as [|loc locations]; [apply same_schema_refl|]. unfold get_entry.
    destruct (as_tables s !! name) as [t|] eqn:Et; [|apply same_schema_refl]. cbn [ok_or].
    destruct (apply_patch_to_versions _ _ _ _ _ _) as [[t' r]|] eqn:E; [|apply same_schema_refl].
    eapply schema_with_table; [done|]. by eapply patch_to_versions_frame.
  - unfold generate_snapshot. destruct (commit_guard s); [|apply same_schema_refl].
    cbn [map_ok kept fst do_generate_snapshot]. split_and!; try done. intros k. simpl.
    destruct (as_tables s !! k); [apply same_frame_refl|done].
  - unfold truncate_before. destruct (commit_guard s); [|apply same_schema_refl]. simpl.
    apply (schema_map_tables _ (fun _ t => vt_with_versions t
      (filter (fun p => tick_as_u64 tick <= tick_as_u64 p.1) (vt_versions t)))); try done.
    intros k. simpl. by rewrite lookup_fmap.
  - destruct (apply_diffs_spec ver_order group_order s tick ds Ho) as (s' & r & -> & Ht & _).
    by eapply touched_schema.
  - apply (schema_map_tables _ (fun k t => match saved !! k with Some v => vt_with_versions t v | None => t end)); try done.
    + intros k t. by destruct (saved !! k).
    + intros k. simpl. rewrite map_lookup_imap. by destruct (as_tables s !! k).
Qed.

(** Once in simulation, always in simulation, and the schema is frozen: after any calls there are the
    same tables with the same names, modes, specifications, foreign key indices and partitions, the
    same table ids and the same storage types. *)
Theorem simulation_freezes_schema (s : Store) (ops : list StoreOp) :
  lifecycle_is_simulation (guard_lifecycle (as_lifecycle s)) = true -> same_schema s (store_run s ops).
Proof.
  revert s. induction ops as [|op ops IH]; intros s Hsim; [apply same_schema_refl|]. simpl.
  pose proof (simulation_step s op Hsim) as Hstep. eapply same_schema_trans; [exact Hstep|].
  apply IH. by destruct Hstep as (-> & _).
Qed.

(** ** Snapshots *)

Definition keeps_snapshot (tick : Tick) (op : StoreOp) : Prop :=
  match op with
  | SSnapshot t => t <> tick
  | STruncate t => tick_as_u64 t <= tick_as_u64 tick
  | _ => True
  end.

Lemma step_snapshots (s : Store) op tick snap :
  as_snapshots s !! tick = Some snap -> keeps_snapshot tick op ->
  as_snapshots (store_step s op) !! tick = Some snap.
Proof.
  intros Hs Hk. destruct op; simpl in *; try done.
  - unfold register_type. by destruct (init_guard s).
  - unfold create_table. destruct (init_guard s); [|done]. simpl. by case_bool_decide.
  - unfold drop_table. by destruct (init_guard s).
  - unfold set_mutation_mode. destruct (init_guard s), (get_entry s name); done.
  - unfold append_batches. destruct (init_guard s), (get_entry s name); done.
  - unfold rebuild_table. destruct (init_guard s), (get_entry s name); done.
  - unfold build_primary_key_index. destruct (init_guard s); [|done]. destruct (get_entry s name); [|done]. simpl.
    destruct (primary_key_name_or_err a0); [|done]. by destruct (index_versions _ _ _).
  - unfold build_foreign_key_index. destruct (init_guard s); [|done]. destruct (get_entry s name); [|done]. simpl.
    by destruct (index_versions _ _ _) as [x []].
  - unfold partition_map_mut. destruct (init_guard s), (get_entry s name); done.
  - unfold advance_to_simulation. by destruct (guard_advance_to_simulation _).
  - unfold patch_rows. destruct (commit_guard s); [|done]. destruct locations; [done|].
    destruct (get_entry s name); [|done]. by destruct (apply_patch_to_versions _ _ _ _ _ _) as [[]|].
  - unfold generate_snapshot. destruct (commit_guard s); [|done]. simpl. by rewrite lookup_insert_ne.
  - unfold truncate_before. destruct (commit_guard s); [|done]. simpl. by apply map_lookup_filter_Some.
  - destruct (apply_diffs_spec ver_order group_order s tick0 ds Ho) as (s' & r & -> & [Hst _] & _).
    simpl. by destruct Hst as (_ & -> & _).
Qed.

(** C25: A snapshot is immutable: after it is taken, any calls that do not take that tick's snapshot again
    nor truncate beyond it leave it readable and the same, the tables as they were at that time. *)
Theorem snapshot_immutable (s s1 : Store) (tick : Tick) (snap : WorldSnapshot) (ops : list StoreOp) :
  generate_snapshot s tick = Ok (s1, snap) -> Forall (keeps_snapshot tick) ops ->
  get_snapshot (store_run s1 ops) tick = Ok snap /\ ws_tick snap = tick /\ ws_tables snap = as_tables s.
Proof.
  unfold generate_snapshot. destruct (commit_guard s); [|done]. simpl. intros [= <- <-] Hops. split; [|done].
  set (s1 := mkStore _ _ _ _ _ _ _). assert (Hs : as_snapshots s1 !! tick = Some (snapshot_of s tick))
    by apply lookup_insert_eq.
  unfold get_snapshot. clearbody s1. revert s1 Hs. induction Hops as [|op ops Hop _ IH]; intros s1 Hs; simpl; [by rewrite Hs|].
  apply IH. by apply step_snapshots.
Qed.
End runs.
