(* ===== verification/StoreOrders.v ===== *)
(** * StoreOrders: the order of hash maps and of other tables' diffs does not reach the store

    A store whose tables have specifications ends in the same state whatever order its hash maps
    yield their entries in, and however the diffs of different tables are interleaved. *)

From Stdlib Require Import Ascii String.
From stdpp Require Import base gmap strings list fin_maps sorting.
From Stdlib Require Import ZArith Lia.
From S2P Require Import Prelude RustStr CoreTypes Journal Scheduler SchedulerFacts SchemaTables RuleCore Arrow ArrowVec ArrowBatch.
From S2P Require Import ArrowBatchFacts StoreIndex ArrowStore StoreFacts StoreRows StoreRuns.

(** Every table has a specification. *)
Definition specified {V} `{AO : ArrowOps} (s : ArrowStore V) : Prop :=
  forall k t, as_tables s !! k = Some t -> is_Some (vt_spec t).

(** ** One table *)

Section table.
Context {V : Type} `{AO : ArrowOps} `{AL : !ArrowLaws} `{JR : JsonRead V} `{FT : FloatText}.
Context (ver_order : gmap Tick (list RecordBatch) -> list (Tick * list RecordBatch)).
Context (group_order : gmap nat (list (nat * nat)) -> list (nat * list (nat * nat))).
Context (Ho : orders_groups group_order).

Abbreviation on_table := (apply_on_table ver_order group_order).

(** The diffs of a table, one after the other; nothing when one is refused. *)
Fixpoint table_run (tick : Tick) (reg : TypeRegistry V) (t : VersionedTable) (ds : list (Diff V)) : option VersionedTable :=
  match ds with
  | [] => Some t
  | d :: ds => match on_table t tick d reg with Some (t', Ok _) => table_run tick reg t' ds | _ => None end
  end.

Lemma on_table_spec t tick d reg t' r : on_table t tick d reg = Some (t', r) -> vt_spec t' = vt_spec t.
Proof.
  destruct d as [table row column value|table row values|table row|table rows]; cbn [apply_on_table]; intros E.
  - destruct (update_spec group_order t table tick row column value Ho) as (t1 & r1 & E1 & Hf & _).
    rewrite E in E1. injection E1 as <- <-. apply Hf.
  - pose proof (insert_frame ver_order t table tick row values reg) as Hf. injection E as E.
    rewrite E in Hf. destruct Hf as [Hf _]. apply Hf.
  - destruct (delete_spec group_order t table tick row Ho) as (t1 & r1 & E1 & Hf & _).
    rewrite E in E1. injection E1 as <- <-. apply Hf.
  - pose proof (replace_frame ver_order t table tick rows reg) as Hf. injection E as E. rewrite E in Hf. apply Hf.
Qed.

(** *** The loop over all diffs is the loops over the tables' *)

Definition tables_run (s s' : ArrowStore V) (tick : Tick) (ds : list (Diff V)) : Prop :=
  forall k, match as_tables s !! k with
            | Some t => exists t', table_run tick (as_type_registry s) t (table_diffs k ds) = Some t' /\ as_tables s' !! k = Some t'
            | None => table_diffs k ds = [] /\ as_tables s' !! k = None
            end.

Lemma table_diffs_cons k d (ds : list (Diff V)) :
  table_diffs k (d :: ds) = if decide (diff_table d = k) then d :: table_diffs k ds else table_diffs k ds.
Proof. unfold table_diffs. cbn [List.filter]. destruct (decide _); [by rewrite bool_decide_true|by rewrite bool_decide_false]. Qed.

Lemma apply_loop_tables tick saved (ds : list (Diff V)) : forall s s' : ArrowStore V,
  apply_loop ver_order group_order s tick saved ds = Some (s', Ok tt) ->
  s' = with_all_tables s (as_tables s') /\ tables_run s s' tick ds.
Proof.
  induction ds as [|d ds IH]; intros s s' E; cbn [apply_loop] in E.
  { injection E as <-. split; [by destruct s|]. intros k. cbn. destruct (as_tables s !! k); [by eexists|done]. }
  rewrite apply_diff_table in E. unfold apply_to_table, get_entry in E.
  destruct (as_tables s !! diff_table d) as [t|] eqn:Et; cbn [ok_or mbind option_bind] in E; [|done].
  destruct (on_table t tick d (as_type_registry s)) as [[t1 [[]|e]]|] eqn:E1; cbn [mbind option_bind] in E; [|done..].
  destruct (IH _ _ E) as [Hs Hk]. split; [rewrite Hs; done|]. intros k. specialize (Hk k). cbn [as_tables with_table with_all_tables] in Hk.
  rewrite table_diffs_cons. destruct (decide (diff_table d = k)) as [<-|Hne].
  - rewrite lookup_insert_eq in Hk. rewrite Et. cbn [table_run]. rewrite E1. exact Hk.
  - rewrite lookup_insert_ne in Hk by done. exact Hk.
Qed.

Lemma apply_loop_runs tick saved (ds : list (Diff V)) : forall s : ArrowStore V,
  (forall k, match as_tables s !! k with
             | Some t => is_Some (table_run tick (as_type_registry s) t (table_diffs k ds))
             | None => table_diffs k ds = []
             end) ->
  exists s', apply_loop ver_order group_order s tick saved ds = Some (s', Ok tt).
Proof.
  induction ds as [|d ds IH]; intros s Hk; cbn [apply_loop]; [by eexists|].
  pose proof (Hk (diff_table d)) as Hd. rewrite table_diffs_cons, decide_True in Hd by done.
  rewrite apply_diff_table. unfold apply_to_table, get_entry.
  destruct (as_tables s !! diff_table d) as [t|] eqn:Et; [|done]. cbn [ok_or mbind option_bind table_run] in *.
  destruct (on_table t tick d (as_type_registry s)) as [[t1 [[]|e]]|] eqn:E1; [|by destruct Hd..]. cbn [mbind option_bind].
  apply IH. intros k. cbn [as_tables with_table with_all_tables as_type_registry]. specialize (Hk k). rewrite table_diffs_cons in Hk.
  destruct (decide (diff_table d = k)) as [<-|Hne].
  - by rewrite lookup_insert_eq.
  - by rewrite lookup_insert_ne.
Qed.
End table.

(** ** Two orders *)

Section orders.
Context {V : Type} `{AO : ArrowOps} `{AL : !ArrowLaws} `{JR : JsonRead V} `{FT : FloatText}.
Context (ver1 ver2 : gmap Tick (list RecordBatch) -> list (Tick * list RecordBatch)).
Context (group1 group2 : gmap nat (list (nat * nat)) -> list (nat * list (nat * nat))).
Context (H1 : orders_groups group1) (H2 : orders_groups group2).

Lemma patch_orders t name tick loc patch :
  apply_patch_to_versions group1 t name tick [loc] patch = apply_patch_to_versions group2 t name tick [loc] patch.
Proof. unfold apply_patch_to_versions. by rewrite !one_patch. Qed.

Lemma schema_orders t (values : gmap string V) reg : is_Some (vt_spec t) ->
  resolve_table_schema ver1 t values reg = resolve_table_schema ver2 t values reg.
Proof. intros [spec E]. unfold resolve_table_schema. by rewrite E. Qed.

(** Where the table has a specification, no hash order is looked at. *)
Lemma on_table_orders t tick (d : Diff V) reg : is_Some (vt_spec t) ->
  apply_on_table ver1 group1 t tick d reg = apply_on_table ver2 group2 t tick d reg.
Proof.
  intros Hs. destruct d as [table row column value|table row values|table row|table rows]; cbn [apply_on_table].
  - unfold apply_update_to_table. destruct (match locate_for_update _ _ _ with Ok _ => _ | Err _ => _ end) as [[loc p]|]; [|done].
    apply patch_orders.
  - unfold apply_insert_to_table. by rewrite (schema_orders t values reg Hs).
  - unfold apply_delete_to_table. destruct (match locate_for_delete _ _ _ with Ok _ => _ | Err _ => _ end) as [[loc p]|]; [|done].
    by rewrite patch_orders.
  - unfold apply_replace_to_table. destruct rows as [|row rows]; [done|]. cbn [head mbind option_bind].
    by rewrite (schema_orders t row reg Hs).
Qed.

Lemma table_run_orders tick reg (ds : list (Diff V)) : forall t, is_Some (vt_spec t) ->
  table_run ver1 group1 tick reg t ds = table_run ver2 group2 tick reg t ds.
Proof.
  induction ds as [|d ds IH]; intros t Hs; cbn [table_run]; [done|]. rewrite on_table_orders by done.
  destruct (apply_on_table ver2 group2 t tick d reg) as [[t' [u|e]]|] eqn:E; [|done..].
  apply IH. by rewrite (on_table_spec ver2 group2 H2 _ _ _ _ _ _ E).
Qed.

(** Diffs that agree table by table take a store to the same store. *)
Lemma apply_diffs_orders (s s' : ArrowStore V) tick (ds1 ds2 : list (Diff V)) :
  specified s -> (forall k, table_diffs k ds1 = table_diffs k ds2) ->
  apply_diffs ver1 group1 s tick ds1 = Some (s', Ok tt) -> apply_diffs ver2 group2 s tick ds2 = Some (s', Ok tt).
Proof.
  intros Hs Hd. unfold apply_diffs. destruct (commit_guard s); [|done]. intros E.
  apply (apply_loop_tables ver1 group1) in E as [Es' Hrun].
  destruct (apply_loop_runs ver2 group2 tick (versions_of s (diff_table <$> ds2)) ds2 s) as [s2 E2].
  { intros k. specialize (Hrun k). destruct (as_tables s !! k) as [t|] eqn:Et.
    - destruct Hrun as (t' & Hr & _). rewrite <- Hd, <- table_run_orders by (by eapply Hs). by eexists.
    - destruct Hrun as [Hr _]. by rewrite <- Hd. }
  rewrite E2. apply (apply_loop_tables ver2 group2) in E2 as [Es2 Hrun2]. do 2 f_equal. rewrite Es2, Es'. f_equal.
  apply map_eq. intros k. specialize (Hrun k). specialize (Hrun2 k). destruct (as_tables s !! k) as [t|] eqn:Et.
  - destruct Hrun as (t1 & Hr1 & ->), Hrun2 as (t2 & Hr2 & ->).
    rewrite <- Hd, <- table_run_orders in Hr2 by (by eapply Hs). congruence.
  - destruct Hrun as [_ ->], Hrun2 as [_ ->]. done.
Qed.
End orders.
