(* ===== verification/WorldView.v ===== *)
(** * WorldView: reading a snapshot row by row

    Models [world_view.rs] of [scharnhorst_arrow_store]: the names, counts and types of a snapshot,
    the iterator over the rows of a table, and the typed getters of a row. Going through the
    iterator gives every row of every batch once, in order, and then no more. *)

From Stdlib Require Import Ascii String.
From stdpp Require Import base gmap strings list fin_maps sorting.
From Stdlib Require Import ZArith Lia.
From S2P Require Import Prelude RustStr CoreTypes SchemaTables RuleCore Float64 Arrow ArrowVec ArrowBatch.
From S2P Require Import ArrowBatchFacts StoreIndex ArrowStore.

Section view.
Context `{AO : ArrowOps}.

Record WorldView := mkWorldView { wv_snapshot : WorldSnapshot; wv_tick : Tick }.

Definition world_view_new (s : WorldSnapshot) : WorldView := mkWorldView s (ws_tick s).

Definition wv_table_names (w : WorldView) : list string :=
  merge_sort String.le (elements (dom (ws_tables (wv_snapshot w)))).

Definition total_rows (batches : list RecordBatch) : nat := sum_list_with rb_num_rows batches.
Definition wv_row_count (w : WorldView) (name : string) : StoreResult nat :=
  map_ok total_rows (snapshot_table_batches (wv_snapshot w) name).

Definition wv_column_names (w : WorldView) (name : string) : StoreResult (list string) :=
  let? batches := snapshot_table_batches (wv_snapshot w) name in
  match batches with
  | [] => Ok []
  | first :: _ => Ok (fld_name <$> rb_schema first)
  end.

(** [field_with_name] is the field at [index_of]. *)
Definition wv_column_type (w : WorldView) (name column : string) : StoreResult string :=
  let? batches := snapshot_table_batches (wv_snapshot w) name in
  let? first := ok_or (head batches) (ASchema ("table '" +:+ name +:+ "' has no data batches")) in
  let missing := ASchema ("column '" +:+ column +:+ "' not found in table '" +:+ name +:+ "'") in
  let? i := map_err (fun _ => missing) (schema_index_of (rb_schema first) column) in
  let? f := ok_or (rb_schema first !! i) missing in
  Ok (data_type_debug (fld_data_type f)).

(** ** The iterator *)

Record WorldViewRow := mkWvRow { wr_columns : list Arr; wr_row_idx : nat }.
Record WorldViewRowIter := mkWvIter {
  wi_batches : list (list Arr * nat); wi_batch_idx : nat; wi_row_in_batch : nat }.

Definition row_iter_new (batches : list RecordBatch) : WorldViewRowIter :=
  mkWvIter ((fun b => (rb_columns b, rb_num_rows b)) <$> batches) 0 0.

(** The loop of [next]; [None] when the fuel runs out. *)
Fixpoint row_iter_loop (fuel : nat) (it : WorldViewRowIter) : option (WorldViewRowIter * option WorldViewRow) :=
  match fuel with
  | O => None
  | S fuel =>
      match wi_batches it !! wi_batch_idx it with
      | None => Some (it, None)
      | Some (cols, num_rows) =>
          if (wi_row_in_batch it <? num_rows)%nat
          then Some (mkWvIter (wi_batches it) (wi_batch_idx it) (S (wi_row_in_batch it)),
                     Some (mkWvRow cols (wi_row_in_batch it)))
          else row_iter_loop fuel (mkWvIter (wi_batches it) (S (wi_batch_idx it)) 0)
      end
  end.
Definition row_iter_next (it : WorldViewRowIter) : option (WorldViewRowIter * option WorldViewRow) :=
  row_iter_loop (S (length (wi_batches it))) it.

Definition wv_iter_rows (w : WorldView) (name : string) : StoreResult WorldViewRowIter :=
  map_ok row_iter_new (snapshot_table_batches (wv_snapshot w) name).

(** ** Getters *)

Definition wr_column (r : WorldViewRow) (col_idx : nat) : StoreResult Arr :=
  ok_or (wr_columns r !! col_idx)
    (AGeneric ("column index " +:+ show_u64 (Z.of_nat col_idx) +:+ " out of bounds (len="
               +:+ show_u64 (Z.of_nat (length (wr_columns r))) +:+ ")")).

(** A downcast to the array of one of the types, then the value unless it is null. *)
Definition wr_typed {A} (dts : list DataType) (expected : string) (proj : Scalar -> option A)
    (r : WorldViewRow) (col_idx : nat) : StoreResult (option A) :=
  let? a := wr_column r col_idx in
  if bool_decide (arr_data_type a ∈ dts)
  then Ok (if arr_is_null a (wr_row_idx r) then None else proj (arr_value a (wr_row_idx r)))
  else Err (ATypeMismatch (show_u64 (Z.of_nat col_idx)) expected (data_type_debug (arr_data_type a))).

Definition wr_get_i64 : WorldViewRow -> nat -> StoreResult (option Z) := wr_typed [DInt64] "Int64" scalar_int.
Definition wr_get_f64 : WorldViewRow -> nat -> StoreResult (option f64) :=
  wr_typed [DFloat64] "Float64" scalar_float.
Definition wr_get_string : WorldViewRow -> nat -> StoreResult (option string) :=
  wr_typed [DUtf8; DLargeUtf8] "Utf8 or LargeUtf8" scalar_text.
Definition wr_get_bool : WorldViewRow -> nat -> StoreResult (option bool) :=
  wr_typed [DBoolean] "Boolean" scalar_bool.

(** ** What iterating yields *)

(** [n] calls of [next] that yield a row, and the iterator then. *)
Inductive iterates : WorldViewRowIter -> list WorldViewRow -> WorldViewRowIter -> Prop :=
| iterates_nil it : iterates it [] it
| iterates_cons it it' it'' r rs :
    row_iter_next it = Some (it', Some r) -> iterates it' rs it'' -> iterates it (r :: rs) it''.

(** The rows of a batch from an offset. *)
Definition rows_from (cols : list Arr) (num_rows off : nat) : list WorldViewRow :=
  mkWvRow cols <$> seq off (num_rows - off).
Definition rows_left (it : WorldViewRowIter) : list WorldViewRow :=
  match drop (wi_batch_idx it) (wi_batches it) with
  | [] => []
  | (cols, n) :: rest => rows_from cols n (wi_row_in_batch it) ++ (rest ≫= fun b => rows_from b.1 b.2 0)
  end.

Lemma row_iter_loop_spec fuel it : (length (wi_batches it) - wi_batch_idx it < fuel)%nat ->
  match rows_left it with
  | [] => exists it', row_iter_loop fuel it = Some (it', None) /\ rows_left it' = []
          /\ wi_batches it' = wi_batches it
  | r :: rs => exists it', row_iter_loop fuel it = Some (it', Some r) /\ rows_left it' = rs
               /\ wi_batches it' = wi_batches it
  end.
Proof.
  revert it. induction fuel as [|fuel IH]; intros [bs i off] Hf; unfold rows_left; simpl in *; [lia|].
  destruct (bs !! i) as [[cols n]|] eqn:E.
  2: { rewrite drop_ge by (by apply lookup_ge_None). eexists. split; [done|]. simpl.
       by rewrite drop_ge by (by apply lookup_ge_None). }
  rewrite (drop_S _ _ _ E). unfold rows_from at 1. destruct (Nat.ltb_spec off n) as [Hlt|Hge].
  - destruct (n - off)%nat as [|k] eqn:Ek; [lia|]. simpl. eexists. split; [done|]. simpl.
    rewrite (drop_S _ _ _ E). unfold rows_from. by replace (n - S off)%nat with k by lia.
  - replace (n - off)%nat with O by lia. simpl.
    specialize (IH (mkWvIter bs (S i) 0)). unfold rows_left in IH. simpl in IH.
    apply lookup_lt_Some in E. destruct (drop (S i) bs) as [|[cols' n'] rest]; simpl in *; apply IH; lia.
Qed.

Lemma row_iter_next_spec it :
  match rows_left it with
  | [] => exists it', row_iter_next it = Some (it', None) /\ rows_left it' = []
  | r :: rs => exists it', row_iter_next it = Some (it', Some r) /\ rows_left it' = rs
  end.
Proof.
  pose proof (row_iter_loop_spec (S (length (wi_batches it))) it ltac:(lia)) as H.
  destruct (rows_left it); destruct H as (it' & H1 & H2 & _); by exists it'.
Qed.

Lemma iterates_left it : exists it', iterates it (rows_left it) it' /\ rows_left it' = [].
Proof.
  remember (rows_left it) as rs eqn:E. revert it E. induction rs as [|r rs IH]; intros it E.
  - exists it. split; [constructor|done].
  - pose proof (row_iter_next_spec it) as H. rewrite <- E in H. destruct H as (it1 & H1 & H2).
    destruct (IH it1) as (it' & Hi & He); [done|]. exists it'. split; [|done]. by econstructor.
Qed.

Definition batch_rows_of (b : RecordBatch) : list WorldViewRow :=
  mkWvRow (rb_columns b) <$> seq 0 (rb_num_rows b).

Lemma rows_left_new batches : rows_left (row_iter_new batches) = batches ≫= batch_rows_of.
Proof.
  assert (Hb : forall bs, ((fun b => (rb_columns b, rb_num_rows b)) <$> bs) ≫= (fun b => rows_from b.1 b.2 0)
    = bs ≫= batch_rows_of).
  { induction bs as [|b bs IH]; [done|]. rewrite fmap_cons, !bind_cons, IH. unfold rows_from. cbn [fst snd].
    by rewrite Nat.sub_0_r. }
  unfold rows_left, row_iter_new. cbn [wi_batch_idx wi_batches wi_row_in_batch]. rewrite drop_0, <- Hb.
  by destruct batches as [|b batches].
Qed.

(** C38: Iterating over a table of a snapshot ends, having given every row of every batch of the
    snapshot's tick exactly once and in order; from then on [next] gives nothing. *)
Theorem iter_rows_complete (w : WorldView) (name : string) (batches : list RecordBatch) :
  snapshot_table_batches (wv_snapshot w) name = Ok batches ->
  exists it it', wv_iter_rows w name = Ok it /\ iterates it (batches ≫= batch_rows_of) it'
  /\ (forall rs it'', iterates it' rs it'' -> rs = [])
  /\ exists it'', row_iter_next it' = Some (it'', None).
Proof.
  intros Hb. unfold wv_iter_rows. rewrite Hb. destruct (iterates_left (row_iter_new batches)) as (it' & Hi & He).
  rewrite rows_left_new in Hi. pose proof (row_iter_next_spec it') as Hn. rewrite He in Hn.
  destruct Hn as (it'' & Hn & _). eexists _, it'. split; [done|]. split; [done|]. split; [|by exists it''].
  intros rs it3 Hr. destruct Hr as [|? ? ? ? ? Hr]; [done|]. congruence.
Qed.
End view.
