(* ===== verification/ReadViews.v ===== *)
(** * ReadViews: typed columns, cursors and the views of tables

    Models [typed_access.rs] and [unified_read.rs] of [scharnhorst_query]. A view merges the batches
    of its table and rebases the position map; the theorem is that looking a row up in the view is
    looking it up in the batches it was built from. [concat_batches] is third-party. *)

From Stdlib Require Import Ascii String.
From stdpp Require Import base gmap strings list fin_maps.
From Stdlib Require Import ZArith Lia.
From S2P Require Import Prelude RustStr CoreTypes SchemaTables RuleCore Float64 Rules Arrow ArrowVec ArrowBatch.
From S2P Require Import ArrowBatchFacts StoreIndex ArrowStore WorldView.

(** [array_type_name] is [std::any::type_name] of the array of a type. *)
Class ConcatOps `{ArrowOps} := {
  rb_concat : list Field -> list RecordBatch -> result string RecordBatch;
  array_type_name : DataType -> string }.

Class ConcatLaws `{ConcatOps} := {
  rb_concat_ok schema bs b : rb_concat schema bs = Ok b ->
    rb_schema b = schema /\ rb_rows b = bs ≫= rb_rows }.

(** ** Typed access *)

Section typed.
Context `{AO : ArrowOps} `{CO : !ConcatOps}.

Record ColumnView := mkColumnView { cv_array : Arr; cv_field_name : string }.

Definition cv_kind (v : ColumnView) : ColumnKind :=
  match arr_data_type (cv_array v) with
  | DInt64 => KInt64 | DUInt64 => KUInt64 | DFloat64 => KFloat64 | DBoolean => KBoolean
  | DUtf8 => KUtf8 | DLargeUtf8 => KLargeUtf8
  | DInt32 => KUnknown
  | DOther n => if String.eqb n "Null" then KNull else KUnknown
  end.
Definition cv_len (v : ColumnView) : nat := arr_len (cv_array v).

(** [downcast_ref], to the array of a type *)
Definition typed_array (column : string) (a : Arr) (dt : DataType) : QueryResult Arr :=
  if bool_decide (arr_data_type a = dt) then Ok a
  else Err (QTypeMismatch column (array_type_name dt) (data_type_debug (arr_data_type a))).
Definition cv_as_typed_array (v : ColumnView) (dt : DataType) : QueryResult Arr :=
  typed_array (cv_field_name v) (cv_array v) dt.

(** [get] of a slice, and of a column once downcast *)
Definition slice_get {A} (proj : Scalar -> option A) (a : Arr) (row : nat) : QueryResult (option A) :=
  if (arr_len a <=? row)%nat then Err (QIndexOutOfBounds (Z.of_nat row))
  else Ok (if arr_is_null a row then None else proj (arr_value a row)).
Definition slice_iter_valid {A} (proj : Scalar -> option A) (a : Arr) : list A :=
  omap (fun i => if arr_is_null a i then None else proj (arr_value a i)) (seq 0 (arr_len a)).

(** The slices, by the type of their array. *)
Definition bool_slice_get : Arr -> nat -> QueryResult (option bool) := slice_get scalar_bool.
Definition bool_slice_iter_valid : Arr -> list bool := slice_iter_valid scalar_bool.
Definition i64_slice_get : Arr -> nat -> QueryResult (option Z) := slice_get scalar_int.
Definition i64_slice_iter_valid : Arr -> list Z := slice_iter_valid scalar_int.
Definition f64_slice_get : Arr -> nat -> QueryResult (option f64) := slice_get scalar_float.
Definition f64_slice_iter_valid : Arr -> list f64 := slice_iter_valid scalar_float.
Definition string_slice_get : Arr -> nat -> QueryResult (option string) := slice_get scalar_text.
Definition string_slice_iter_valid : Arr -> list string := slice_iter_valid scalar_text.

Definition cv_get {A} (dt : DataType) (proj : Scalar -> option A) (v : ColumnView) (row : nat)
  : QueryResult (option A) :=
  let? a := cv_as_typed_array v dt in slice_get proj a row.
Definition cv_get_i64 : ColumnView -> nat -> QueryResult (option Z) := cv_get DInt64 scalar_int.
Definition cv_get_u64 : ColumnView -> nat -> QueryResult (option Z) := cv_get DUInt64 scalar_int.
Definition cv_get_f64 : ColumnView -> nat -> QueryResult (option f64) := cv_get DFloat64 scalar_float.
Definition cv_get_bool : ColumnView -> nat -> QueryResult (option bool) := cv_get DBoolean scalar_bool.
Definition cv_get_string : ColumnView -> nat -> QueryResult (option string) := cv_get DUtf8 scalar_text.

(** *** The cursor *)

Record RowCursor := mkCursor {
  rc_columns : list (string * ColumnView); rc_row_count : nat; rc_current_row : nat }.

Definition mismatched_len {A} (len : A -> nat) (row_count : nat) (cols : list (string * A)) : option QueryError :=
  (fun p => QInvalidQuery ("column '" +:+ p.1 +:+ "' has " +:+ show_u64 (Z.of_nat (len p.2)) +:+ " rows, expected "
                           +:+ show_u64 (Z.of_nat row_count)))
  <$> List.find (fun p => negb (len p.2 =? row_count)%nat) cols.

Definition first_len {A} (len : A -> nat) (cols : list (string * A)) : nat :=
  default O ((fun p => len p.2) <$> head cols).

Definition row_cursor_new (columns : list (string * ColumnView)) : QueryResult RowCursor :=
  let row_count := first_len cv_len columns in
  match mismatched_len cv_len row_count columns with
  | Some e => Err e
  | None => Ok (mkCursor columns row_count 0)
  end.
Definition cursor_advance (c : RowCursor) : RowCursor * bool :=
  if (rc_current_row c + 1 <? rc_row_count c)%nat
  then (mkCursor (rc_columns c) (rc_row_count c) (rc_current_row c + 1), true)
  else (c, false).
Definition cursor_reset (c : RowCursor) : RowCursor := mkCursor (rc_columns c) (rc_row_count c) 0.
Definition cursor_get_column (c : RowCursor) (name : string) : QueryResult ColumnView :=
  ok_or (snd <$> List.find (fun p => String.eqb p.1 name) (rc_columns c)) (QColumnNotFound name "").
Definition cursor_get_typed {A} (get : ColumnView -> nat -> QueryResult (option A)) (c : RowCursor) (name : string)
  : QueryResult (option A) :=
  let? col := cursor_get_column c name in get col (rc_current_row c).
(** [try_into] a [u64]: a negative id is none. *)
Definition cursor_get_row_id (c : RowCursor) (id_column : string) : QueryResult (option RowId) :=
  map_ok (fun v => v ← v; mkRowId <$> checked_u64 v) (cursor_get_typed cv_get_i64 c id_column).

(** *** The columnar reader *)

Record BatchColumnReader := mkReader { br_arrays : list (string * Arr); br_row_count : nat }.

Definition batch_reader_new (arrays : list (string * Arr)) : QueryResult BatchColumnReader :=
  let row_count := first_len arr_len arrays in
  match mismatched_len arr_len row_count arrays with
  | Some e => Err e
  | None => Ok (mkReader arrays row_count)
  end.
Definition reader_array_ref (r : BatchColumnReader) (name : string) : QueryResult Arr :=
  ok_or (snd <$> List.find (fun p => String.eqb p.1 name) (br_arrays r)) (QColumnNotFound name "").
Definition reader_typed_array (r : BatchColumnReader) (name : string) (dt : DataType) : QueryResult Arr :=
  let? a := reader_array_ref r name in typed_array name a dt.
Definition reader_bool_slice (r : BatchColumnReader) (name : string) : QueryResult Arr := reader_typed_array r name DBoolean.
Definition reader_i64_slice (r : BatchColumnReader) (name : string) : QueryResult Arr := reader_typed_array r name DInt64.
Definition reader_f64_slice (r : BatchColumnReader) (name : string) : QueryResult Arr := reader_typed_array r name DFloat64.
Definition reader_string_slice (r : BatchColumnReader) (name : string) : QueryResult Arr := reader_typed_array r name DUtf8.

(** ** Views *)

Record TableReadView := mkView {
  tv_table_name : string; tv_tick : Tick; tv_batches : list RecordBatch;
  tv_schema : TableSpec; tv_position_map : RowPositionMap }.

Fixpoint batch_offsets (offset : Z) (row_counts : list Z) : list Z :=
  match row_counts with
  | [] => []
  | n :: row_counts => offset :: batch_offsets (saturating_add_u64 offset n) row_counts
  end.

Definition rebase_position_map (m : RowPositionMap) (row_counts : list Z) : RowPositionMap :=
  mkRPM (omap (fun p =>
    batch_base ← batch_offsets 0 row_counts !! Z.to_nat p.1;
    row_count ← row_counts !! Z.to_nat p.1;
    if p.2 <? row_count then Some (0, saturating_add_u64 batch_base p.2) else None) (rpm_entries m)).

Definition build_position_map (batches : list RecordBatch) : RowPositionMap :=
  count_rows 0 0 (rb_num_rows <$> batches) rpm_new.

Definition table_read_view_new (name : string) (tick : Tick) (batches : list RecordBatch) (schema : TableSpec)
    (position_map : option RowPositionMap) : TableReadView :=
  let row_counts := (fun b => Z.of_nat (rb_num_rows b)) <$> batches in
  let merged :=
    match batches with
    | b :: _ :: _ => match rb_concat (rb_schema b) batches with Ok merged => Some merged | Err _ => None end
    | _ => None
    end in
  let new_batches := match merged with Some b => [b] | None => batches end in
  mkView name tick new_batches schema
    match position_map, merged with
    | Some m, Some _ => rebase_position_map m row_counts
    | Some m, None => m
    | None, _ => build_position_map new_batches
    end.

Definition view_batch_count (v : TableReadView) : nat := length (tv_batches v).
Definition view_total_rows (v : TableReadView) : nat := total_rows (tv_batches v).
Definition view_column_spec (v : TableReadView) (name : string) : QueryResult ColumnSpec :=
  ok_or (table_column_by_name (tv_schema v) name) (QColumnNotFound name (tv_table_name v)).

Definition first_batch (v : TableReadView) : QueryResult RecordBatch :=
  ok_or (head (tv_batches v))
    (QInvalidQuery ("table '" +:+ tv_table_name v +:+ "' has no batches at tick " +:+ show_u64 (tick_as_u64 (tv_tick v)))).
(** The fields of a batch with their columns: as many, by the checks of [try_new]. *)
Definition named_columns (b : RecordBatch) : list (string * Arr) := zip (fld_name <$> rb_schema b) (rb_columns b).
Definition named_views (b : RecordBatch) : list (string * ColumnView) :=
  (fun p => (p.1, mkColumnView p.2 p.1)) <$> named_columns b.

Definition first_batch_reader (v : TableReadView) : QueryResult BatchColumnReader :=
  let? b := first_batch v in batch_reader_new (named_columns b).
Definition first_batch_cursor (v : TableReadView) : QueryResult RowCursor :=
  let? b := first_batch v in row_cursor_new (named_views b).
(** Collected into a map: the last column of a name stays. *)
Definition columns_map (cols : list (string * ColumnView)) : gmap string ColumnView :=
  foldl (fun m p => <[p.1 := p.2]> m) ∅ cols.
Definition first_batch_columns (v : TableReadView) : QueryResult (gmap string ColumnView) :=
  let? b := first_batch v in Ok (columns_map (named_views b)).

(** *** A row of a view *)

Record RowLookup := mkLookup { rl_row_id : RowId; rl_batch_index : Z; rl_row_offset : Z }.
Record RowLookupView := mkLookupView { lv_lookup : RowLookup; lv_view : TableReadView }.

Definition lookup_column_view (v : RowLookupView) (column : string) : QueryResult ColumnView :=
  let batch_idx := rl_batch_index (lv_lookup v) in
  let table := tv_table_name (lv_view v) in
  let? batch := ok_or (tv_batches (lv_view v) !! Z.to_nat batch_idx)
    (QInvalidQuery ("batch index " +:+ show_u64 batch_idx +:+ " out of range for table '" +:+ table +:+ "'")) in
  let missing := QColumnNotFound column table in
  let? col_idx := map_err (fun _ => missing) (schema_index_of (rb_schema batch) column) in
  let? a := ok_or (rb_columns batch !! col_idx) missing in
  Ok (mkColumnView a column).

Definition lookup_get {A} (get : ColumnView -> nat -> QueryResult (option A)) (v : RowLookupView) (column : string)
  : QueryResult (option A) :=
  let? cv := lookup_column_view v column in get cv (Z.to_nat (rl_row_offset (lv_lookup v))).
Definition lookup_get_i64 : RowLookupView -> string -> QueryResult (option Z) := lookup_get cv_get_i64.
Definition lookup_get_u64 : RowLookupView -> string -> QueryResult (option Z) := lookup_get cv_get_u64.
Definition lookup_get_f64 : RowLookupView -> string -> QueryResult (option f64) := lookup_get cv_get_f64.
Definition lookup_get_bool : RowLookupView -> string -> QueryResult (option bool) := lookup_get cv_get_bool.
Definition lookup_get_string : RowLookupView -> string -> QueryResult (option string) := lookup_get cv_get_string.

(** ** Requests and responses *)

Record ReadRequest := mkRequest { rq_tick : Tick; rq_table_names : list string }.
Record ReadResponse := mkResponse { rs_tick : Tick; rs_views : gmap string TableReadView }.

Definition request_new (tick : Tick) : ReadRequest := mkRequest tick [].
Definition request_with_table (r : ReadRequest) (name : string) : ReadRequest :=
  mkRequest (rq_tick r) (rq_table_names r ++ [name]).
Definition request_with_tables (r : ReadRequest) (names : list string) : ReadRequest :=
  mkRequest (rq_tick r) (rq_table_names r ++ names).
Definition response_new (tick : Tick) : ReadResponse := mkResponse tick ∅.
Definition response_insert (r : ReadResponse) (v : TableReadView) : ReadResponse :=
  mkResponse (rs_tick r) (<[tv_table_name v := v]> (rs_views r)).
Definition response_get (r : ReadResponse) (name : string) : QueryResult TableReadView :=
  ok_or (rs_views r !! name) (QTableNotFound name).

(** The views of the requested tables, from a map of views. *)
Definition read_views (views : gmap string TableReadView) (req : ReadRequest) : QueryResult ReadResponse :=
  try_fold (fun response name =>
    let? view := ok_or (views !! name) (QTableNotFound name) in Ok (response_insert response view))
    (response_new (rq_tick req)) (rq_table_names req).

Record InMemoryReadSource := mkReadSource { im_views : gmap string TableReadView }.

Definition read_source_new : InMemoryReadSource := mkReadSource ∅.
Definition read_source_register (s : InMemoryReadSource) (v : TableReadView) : InMemoryReadSource :=
  mkReadSource (<[tv_table_name v := v]> (im_views s)).
Definition read_source_unregister (s : InMemoryReadSource) (name : string) : QueryResult InMemoryReadSource :=
  let? _ := ok_or (im_views s !! name) (QTableNotFound name) in Ok (mkReadSource (delete name (im_views s))).
Definition read_source_clear (s : InMemoryReadSource) : InMemoryReadSource := mkReadSource ∅.
Definition read_source_read (s : InMemoryReadSource) (req : ReadRequest) : QueryResult ReadResponse :=
  read_views (im_views s) req.
End typed.

(** ** Looking rows up *)

Section lookups.
Context `{AO : ArrowOps} `{AL : !ArrowLaws} `{CO : !ConcatOps} `{CL : !ConcatLaws}.

(** The row an id is positioned at in batches. *)
Definition row_of_id (batches : list RecordBatch) (m : RowPositionMap) (row : RowId) : option (list (option Scalar)) :=
  pos ← rpm_position_of m row;
  b ← batches !! Z.to_nat pos.1;
  rb_rows b !! Z.to_nat pos.2.

(** Positions are indices. *)
Definition rpm_indices (m : RowPositionMap) : Prop :=
  map_Forall (fun _ pos => 0 <= pos.1 /\ 0 <= pos.2) (rpm_entries m).

Lemma batch_offsets_lookup offset (bs : list RecordBatch) i b :
  bs !! i = Some b -> 0 <= offset -> offset + Z.of_nat (total_rows bs) <= u64_max ->
  batch_offsets offset ((fun b => Z.of_nat (rb_num_rows b)) <$> bs) !! i
  = Some (offset + Z.of_nat (total_rows (take i bs))).
Proof.
  revert offset i. induction bs as [|c bs IH]; intros offset [|i] Hi H0 Hmax; simpl in *; try done.
  - f_equal. lia.
  - rewrite IH; [|done|unfold saturating_add_u64; unfold_width; lia|unfold saturating_add_u64; lia].
    unfold saturating_add_u64. f_equal. unfold total_rows in *. simpl in *. lia.
Qed.

Lemma concat_lookup (bs : list RecordBatch) i b off :
  bs !! i = Some b -> (off < rb_num_rows b)%nat ->
  (bs ≫= rb_rows) !! (total_rows (take i bs) + off)%nat = rb_rows b !! off.
Proof.
  revert i. induction bs as [|c bs IH]; intros [|i] Hi Ho; try done; rewrite bind_cons.
  - injection Hi as ->. apply lookup_app_l. by rewrite rb_rows_length.
  - rewrite lookup_app_r; rewrite rb_rows_length; simpl; unfold total_rows; simpl; [|lia].
    rewrite <- (IH i) by done. f_equal. unfold total_rows. lia.
Qed.

Lemma total_rows_take bs i b : bs !! i = Some b -> (total_rows (take i bs) + rb_num_rows b <= total_rows bs)%nat.
Proof.
  revert i. induction bs as [|c bs IH]; intros [|i] Hi; unfold total_rows in *; simpl in *; simplify_eq; [lia|].
  specialize (IH i Hi). lia.
Qed.

Lemma row_of_id_rebased bs m row merged :
  rpm_indices m -> Z.of_nat (total_rows bs) <= u64_max -> rb_rows merged = bs ≫= rb_rows ->
  row_of_id [merged] (rebase_position_map m ((fun b => Z.of_nat (rb_num_rows b)) <$> bs)) row = row_of_id bs m row.
Proof.
  intros Hm Hmax Hrows. unfold row_of_id, rpm_position_of, rebase_position_map. cbn [rpm_entries].
  rewrite lookup_omap. destruct (rpm_entries m !! row_id_as_u64 row) as [[bi off]|] eqn:E; [|done].
  destruct (Hm _ _ E) as [Hb Ho]. cbn [mbind option_bind fst snd] in *.
  destruct (bs !! Z.to_nat bi) as [b|] eqn:Eb.
  2: { rewrite list_lookup_fmap, Eb. by destruct (batch_offsets _ _ !! _). }
  rewrite (batch_offsets_lookup 0 bs _ b Eb) by lia. rewrite list_lookup_fmap, Eb. cbn [fmap option_fmap option_map mbind option_bind].
  pose proof (total_rows_take _ _ _ Eb) as Hle. rewrite Z.add_0_l. destruct (Z.ltb_spec off (Z.of_nat (rb_num_rows b))) as [Hlt|Hge].
  - cbn [mbind option_bind fst snd]. change ([merged] !! Z.to_nat 0) with (Some merged). cbn [mbind option_bind].
    unfold saturating_add_u64. rewrite Z.min_r by lia. rewrite Hrows.
    replace (Z.to_nat (Z.of_nat (total_rows (take (Z.to_nat bi) bs)) + off))
      with (total_rows (take (Z.to_nat bi) bs) + Z.to_nat off)%nat by lia.
    apply concat_lookup; [done|lia].
  - cbn [mbind option_bind]. symmetry. apply lookup_ge_None. rewrite rb_rows_length. lia.
Qed.

(** Looking a row up in a view is looking it up in the batches and the position map the view was
    built from, whether the batches were merged and the map rebased or not; a position outside the
    batches stays without a row. *)
Lemma view_row_lookup name tick batches schema m row :
  rpm_indices m -> Z.of_nat (total_rows batches) <= u64_max ->
  let v := table_read_view_new name tick batches schema (Some m) in
  row_of_id (tv_batches v) (tv_position_map v) row = row_of_id batches m row.
Proof.
  intros Hm Hmax. unfold table_read_view_new. cbn [tv_batches tv_position_map].
  destruct batches as [|b [|c batches]]; [done|done|]. set (bs := b :: c :: batches) in *.
  destruct (rb_concat (rb_schema b) bs) as [merged|e] eqn:E; [|done]. apply rb_concat_ok in E as [_ Hrows].
  by apply row_of_id_rebased.
Qed.

Lemma view_no_position name tick batches schema m row :
  rpm_position_of m row = None ->
  rpm_position_of (tv_position_map (table_read_view_new name tick batches schema (Some m))) row = None.
Proof.
  intros Hm. unfold table_read_view_new. cbn [tv_position_map].
  destruct batches as [|b [|c batches]]; [done|done|]. destruct (rb_concat _ _); [|done].
  unfold rebase_position_map, rpm_position_of in *. cbn [rpm_entries]. by rewrite lookup_omap, Hm.
Qed.

Lemma view_schemas name tick batches schema m F :
  Forall (fun b => rb_schema b = F) batches ->
  Forall (fun b => rb_schema b = F) (tv_batches (table_read_view_new name tick batches schema m)).
Proof.
  intros HF. unfold table_read_view_new. cbn [tv_batches]. destruct batches as [|b [|c batches]]; [done|done|].
  destruct (rb_concat _ _) as [merged|] eqn:E; [|done]. apply rb_concat_ok in E as [Hs _].
  constructor; [|constructor]. rewrite Hs. by inversion HF.
Qed.

(** A typed read of a column finds its cell. *)
Lemma slice_get_cells {A} (proj : Scalar -> option A) a row :
  slice_get proj a row
  = match arr_cells a !! row with
    | None => Err (QIndexOutOfBounds (Z.of_nat row))
    | Some c => Ok (c ≫= proj)
    end.
Proof.
  unfold slice_get. destruct (Nat.leb_spec (arr_len a) row).
  - rewrite (proj2 (lookup_ge_None _ _)); [done|by rewrite arr_cells_length].
  - unfold arr_cells. rewrite list_lookup_fmap, lookup_seq_lt by done. simpl. by destruct (arr_is_null a row).
Qed.

Lemma slice_iter_valid_cells {A} (proj : Scalar -> option A) a :
  slice_iter_valid proj a = omap (fun c => c ≫= proj) (arr_cells a).
Proof.
  unfold slice_iter_valid, arr_cells. induction (seq 0 (arr_len a)) as [|i l IH]; [done|].
  simpl. destruct (arr_is_null a i); simpl; [exact IH|]. destruct (proj _); [f_equal|]; exact IH.
Qed.

(** The values a slice iterates over are those its rows give one by one, and no row outside gives one. *)
Lemma slice_valid_are_gets {A} (proj : Scalar -> option A) (a : Arr) :
  slice_iter_valid proj a = omap (fun row => match slice_get proj a row with Ok v => v | Err _ => None end) (seq 0 (arr_len a))
  /\ forall row, (arr_len a <= row)%nat -> slice_get proj a row = Err (QIndexOutOfBounds (Z.of_nat row)).
Proof.
  split.
  - unfold slice_iter_valid. apply list_omap_ext, Forall_Forall2_diag, Forall_forall.
    intros row Hrow%elem_of_seq. unfold slice_get. by rewrite (proj2 (Nat.leb_gt _ _)) by lia.
  - intros row Hrow. unfold slice_get. by rewrite (proj2 (Nat.leb_le _ _)).
Qed.

(** The row a lookup is of. *)
Definition lookup_cells (lv : RowLookupView) : option (list (option Scalar)) :=
  b ← tv_batches (lv_view lv) !! Z.to_nat (rl_batch_index (lv_lookup lv));
  rb_rows b !! Z.to_nat (rl_row_offset (lv_lookup lv)).

Lemma lookup_get_cell {A} dt (proj : Scalar -> option A) lv F cells column i f c :
  Forall (fun b => rb_schema b = F) (tv_batches (lv_view lv)) -> lookup_cells lv = Some cells ->
  schema_index_of F column = Ok i -> F !! i = Some f -> cells !! i = Some c ->
  lookup_get (cv_get dt proj) lv column
  = if bool_decide (fld_data_type f = dt) then Ok (c ≫= proj)
    else Err (QTypeMismatch column (array_type_name dt) (data_type_debug (fld_data_type f))).
Proof.
  intros HF Hc Hi Hf Hcell. unfold lookup_cells in Hc. unfold lookup_get, lookup_column_view.
  destruct (tv_batches (lv_view lv) !! _) as [b|] eqn:Eb; [|done]. cbn [mbind option_bind ok_or] in *.
  rewrite Forall_forall in HF. specialize (HF b ltac:(by eapply list_elem_of_lookup_2)). subst F. rewrite Hi. cbn [map_err].
  set (off := Z.to_nat (rl_row_offset (lv_lookup lv))) in *.
  assert (Hoff : (off < rb_num_rows b)%nat) by (rewrite <- rb_rows_length; by eapply lookup_lt_Some).
  rewrite rb_rows_lookup in Hc by done. injection Hc as <-. unfold rb_row in Hcell. rewrite list_lookup_fmap in Hcell.
  destruct (rb_columns b !! i) as [a|] eqn:Ea; [|done]. injection Hcell as <-. cbn [ok_or].
  destruct (rb_columns_ok b) as [_ Hcols].
  destruct (Forall2_lookup_lr _ _ _ _ _ _ Hcols Hf Ea) as (Hty & Hlen & _).
  unfold cv_get, cv_as_typed_array, typed_array. cbn [cv_array cv_field_name]. rewrite Hty. case_bool_decide; [|done].
  rewrite slice_get_cells. rewrite <- Hlen in Hoff.
  destruct (arr_cells a !! off) as [c'|] eqn:Ec; [|apply lookup_ge_None in Ec; rewrite arr_cells_length in Ec; lia].
  by rewrite (nth_lookup_Some _ _ _ _ Ec).
Qed.

(** The typed reads of a lookup give the cells of a row; no getter reads the other types. *)
Definition reads_as (lv : RowLookupView) (F : list Field) (cells : list (option Scalar)) : Prop :=
  forall column i f c, schema_index_of F column = Ok i -> F !! i = Some f -> cells !! i = Some c ->
  match fld_data_type f with
  | DInt64 => lookup_get_i64 lv column = Ok (c ≫= scalar_int)
  | DUInt64 => lookup_get_u64 lv column = Ok (c ≫= scalar_int)
  | DFloat64 => lookup_get_f64 lv column = Ok (c ≫= scalar_float)
  | DBoolean => lookup_get_bool lv column = Ok (c ≫= scalar_bool)
  | DUtf8 => lookup_get_string lv column = Ok (c ≫= scalar_text)
  | DInt32 | DLargeUtf8 | DOther _ =>
      is_ok (lookup_get_i64 lv column) || is_ok (lookup_get_u64 lv column) || is_ok (lookup_get_f64 lv column)
      || is_ok (lookup_get_bool lv column) || is_ok (lookup_get_string lv column) = false
  end.

Lemma lookup_reads_as lv F cells :
  Forall (fun b => rb_schema b = F) (tv_batches (lv_view lv)) -> lookup_cells lv = Some cells -> reads_as lv F cells.
Proof.
  intros HF Hc column i f c Hi Hf Hcell.
  assert (Hget : forall A dt (proj : Scalar -> option A), lookup_get (cv_get dt proj) lv column
    = if bool_decide (fld_data_type f = dt) then Ok (c ≫= proj)
      else Err (QTypeMismatch column (array_type_name dt) (data_type_debug (fld_data_type f))))
    by (intros; by eapply lookup_get_cell).
  unfold lookup_get_i64, lookup_get_u64, lookup_get_f64, lookup_get_bool, lookup_get_string,
    cv_get_i64, cv_get_u64, cv_get_f64, cv_get_bool, cv_get_string.
  destruct (fld_data_type f) eqn:E; rewrite !Hget; done.
Qed.
End lookups.
