(* ===== verification/ErrorText.v ===== *)
(** * ErrorText: the texts of the errors of the store, the schema and the query engine

    [Display] of the error types, from the [#[error("...")]] attributes; the journal keeps the
    errors of the components it calls as these texts. *)

From Stdlib Require Import Ascii String.
From stdpp Require Import base strings list.
From Stdlib Require Import ZArith.
From S2P Require Import Prelude RustStr CoreTypes SchemaTables Rules RuleCore.

Definition store_error_text (e : ArrowStoreError) : string :=
  match e with
  | ATableNotFound s => "table not found: " +:+ s
  | ATableAlreadyExists s => "table already exists: " +:+ s
  | APartitionNotFound s => "partition not found: " +:+ s
  | ASnapshotNotFound t => "snapshot not found for tick " +:+ show_u64 t
  | ATickNotFound table tick =>
      "tick not found: tick " +:+ show_u64 tick +:+ " does not exist in table " +:+ table
  | AIndexNotFound s => "index not found: " +:+ s
  | ADuplicateRowId table row => "duplicate RowId " +:+ show_u64 row +:+ " in table '" +:+ table +:+ "'"
  | APrimaryKeyViolation table key =>
      "primary key violation: duplicate key " +:+ key +:+ " in table " +:+ table
  | AForeignKeyViolation table key =>
      "foreign key violation: key " +:+ key +:+ " in table " +:+ table +:+ " references missing row"
  | AInvalidMutationMode s => "invalid mutation mode for operation on table " +:+ s
  | ASchema s => "schema error: " +:+ s
  | AArrow s => "arrow error: " +:+ s
  | AIo s => "io error: " +:+ s
  | ALockPoisoned s => "lock poisoned: " +:+ s
  | ALifecycle s => "lifecycle error: " +:+ s
  | AUnimplemented s => "unimplemented: " +:+ s
  | ATypeMismatch column expected got =>
      "type mismatch for column " +:+ column +:+ ": expected " +:+ expected +:+ ", got " +:+ got
  | AGeneric s => "generic error: " +:+ s
  end.

Definition schema_error_text (e : SchemaError) : string :=
  match e with
  | TableAlreadyExists s => "table already exists: " +:+ s
  | TableNotFound s => "table not found: " +:+ s
  | InvalidTableName s => "invalid table name: '" +:+ s +:+ "' — must be non-empty"
  | ColumnNotFound s => "column not found: " +:+ s
  | DuplicateColumn s => "duplicate column name: " +:+ s
  | RelationAlreadyExists from to => "relation already exists between " +:+ from +:+ " and " +:+ to
  | RelationNotFound from to => "relation not found: " +:+ from +:+ " -> " +:+ to
  | CircularRelation s => "circular relation detected: " +:+ s
  | InvalidSemantic s => "invalid semantic: " +:+ s
  | RegistryFrozen => "schema registry is frozen"
  | MigrationVersionMismatch expected actual =>
      "migration version mismatch: expected " +:+ expected +:+ ", found " +:+ actual
  | NoMigrationPath from to => "no migration path found from " +:+ from +:+ " to " +:+ to
  | ManifestSerialization s => "manifest serialization failed: " +:+ s
  | ManifestDeserialization s => "manifest deserialization failed: " +:+ s
  | SchemaPhaseError s => "phase error: " +:+ s
  | SchemaGeneric s => s
  | SchemaCore e => core_error_text e
  end.

(** [{:?}] of a tick and of an optional tick *)
Definition tick_debug (t : Tick) : string := "Tick(" +:+ show_u64 (tick_as_u64 t) +:+ ")".
Definition opt_tick_debug (t : option Tick) : string :=
  match t with Some t => "Some(" +:+ tick_debug t +:+ ")" | None => "None" end.

Definition query_error_text (e : QueryError) : string :=
  match e with
  | QTableNotFound s => "table not found: " +:+ s
  | QColumnNotFound column table => "column not found: " +:+ column +:+ " in table " +:+ table
  | QTypeMismatch column expected got =>
      "type mismatch for column " +:+ column +:+ ": expected " +:+ expected +:+ ", got " +:+ got
  | QSnapshotNotAvailable t => "snapshot not available for tick " +:+ show_u64 t
  | QSchemaRegistry s => "schema registry error: " +:+ s
  | QArrow s => "arrow error: " +:+ s
  | QDataFusion s => "datafusion error: " +:+ s
  | QSql s => "SQL error: " +:+ s
  | QSqlNotAllowed s => "SQL not allowed: " +:+ s
  | QUnifiedRead s => "unified read error: " +:+ s
  | QInspector s => "inspector error: " +:+ s
  | QRelationNotFound s => "relation not found: " +:+ s
  | QTicksMismatch requested actual =>
      "tick mismatch: requested " +:+ tick_debug requested +:+ ", actual " +:+ opt_tick_debug actual
  | QInvalidQuery s => "invalid query: " +:+ s
  | QIndexOutOfBounds i => "index out of bounds: " +:+ show_u64 i
  | QUnsupportedOperation s => "unsupported operation: " +:+ s
  | QSqlWrite s => "SQL write error: " +:+ s
  | QCore e => core_error_text e
  | QSchema e => schema_error_text e
  | QArrowStore e => store_error_text e
  end.
