(* ===== verification/QueryEngine.v ===== *)
(** * QueryEngine: the engine every read goes through

    Models [engine.rs] of [scharnhorst_query] less SQL ([QuerySql.v]): the schema registry it owns, the cache of
    table views, the latest tick and snapshot, and the staging of the views a commit publishes.
    The locks and the order of the two atomic accesses are not modelled: calls are one at a time. *)

From Stdlib Require Import Ascii String.
From stdpp Require Import base gmap strings list fin_maps.
From Stdlib Require Import ZArith Lia.
From S2P Require Import Prelude RustStr CoreTypes SchemaTables Relations Registry RuleCore Float64 Rules Arrow ArrowVec.
From S2P Require Import ArrowBatch ArrowBatchFacts StoreIndex ArrowStore WorldView ReadViews.

(** ** Validation of paths *)

Record ValidatablePath := mkVPath {
  vp_path : string; vp_table : string; vp_columns : list string; vp_relations : list string }.

Inductive ValidationErrorKind := MissingTable | MissingColumn | MissingRelation.
Record ValidationError := mkVError { ve_path : string; ve_kind : ValidationErrorKind; ve_message : string }.

Definition missing_column (p : ValidatablePath) (column : string) : ValidationError :=
  mkVError (vp_path p) MissingColumn ("column '" +:+ column +:+ "' not found in table '" +:+ vp_table p +:+ "'").
Definition missing_relation (p : ValidatablePath) (key : string) : ValidationError :=
  mkVError (vp_path p) MissingRelation ("relation '" +:+ key +:+ "' not found for path '" +:+ vp_path p +:+ "'").
Definition missing_table (p : ValidatablePath) : ValidationError :=
  mkVError (vp_path p) MissingTable ("table '" +:+ vp_table p +:+ "' not found for path '" +:+ vp_path p +:+ "'").

Definition validate_path (reg : SchemaRegistry) (p : ValidatablePath) : list ValidationError :=
  match registry_get reg (vp_table p) with
  | Ok spec =>
      (missing_column p <$> filter (fun c => table_column_by_name spec c = None) (vp_columns p))
      ++ (missing_relation p <$>
            filter (fun key => existsb (fun e => String.eqb (edge_key e) key) (rg_edges (sr_relations reg)) = false)
              (vp_relations p))
  | Err _ => [missing_table p]
  end.

Definition validate (reg : SchemaRegistry) (paths : list ValidatablePath) : list ValidationError :=
  paths ≫= validate_path reg.

(** A path the schema admits. *)
Definition path_valid (reg : SchemaRegistry) (p : ValidatablePath) : Prop :=
  exists spec, sr_tables reg !! vp_table p = Some spec
  /\ (forall c, c ∈ vp_columns p -> is_Some (table_column_by_name spec c))
  /\ (forall key, key ∈ vp_relations p -> exists e, e ∈ rg_edges (sr_relations reg) /\ edge_key e = key).

Lemma edges_exist reg key :
  existsb (fun e => String.eqb (edge_key e) key) (rg_edges (sr_relations reg)) = true
  <-> exists e, e ∈ rg_edges (sr_relations reg) /\ edge_key e = key.
Proof.
  rewrite existsb_exists. split; intros (e & Hin & He); exists e; rewrite <- ?list_elem_of_In in *.
  - by apply String.eqb_eq in He.
  - split; [done|by apply String.eqb_eq].
Qed.

Lemma filter_nil_Forall {A} (P : A -> Prop) `{!forall x, Decision (P x)} l :
  filter P l = [] <-> forall x, x ∈ l -> ~ P x.
Proof.
  split.
  - intros Hf x Hx Hp. assert (Hin : x ∈ filter P l) by by apply list_elem_of_filter. rewrite Hf in Hin. by apply elem_of_nil in Hin.
  - intros Hl. destruct (filter P l) as [|x l'] eqn:E; [done|].
    assert (Hin : x ∈ filter P l) by (rewrite E; left). apply list_elem_of_filter in Hin as [Hp Hin]. by destruct (Hl x).
Qed.

Lemma fmap_nil {A B} (f : A -> B) l : f <$> l = [] <-> l = [].
Proof. by destruct l. Qed.

Lemma validate_path_nil reg p : validate_path reg p = [] <-> path_valid reg p.
Proof.
  unfold validate_path, path_valid, registry_get. destruct (sr_tables reg !! vp_table p) as [spec|]; simpl.
  2: { split; [done|]. intros (? & ? & _). done. }
  rewrite app_nil, !fmap_nil, !filter_nil_Forall. split.
  - intros [Hc Hr]. exists spec. split_and!; [done| |].
    + intros c Hin. destruct (table_column_by_name spec c) eqn:E; [by eexists|by destruct (Hc c)].
    + intros key Hin. apply edges_exist. specialize (Hr key Hin). by destruct (existsb _ _).
  - intros (spec' & [= <-] & Hc & Hr). split.
    + intros c Hin Hn. destruct (Hc c Hin). congruence.
    + intros key Hin Hf. apply Hr, edges_exist in Hin. congruence.
Qed.

(** Validation finds what is wrong and nothing else: no error for a list of paths exactly when every
    path names a registered table, columns it has and relations of the graph; and every error
    belongs to one of the paths. *)
Theorem validate_complete (reg : SchemaRegistry) (paths : list ValidatablePath) :
  (validate reg paths = [] <-> Forall (path_valid reg) paths)
  /\ forall e, e ∈ validate reg paths -> exists p, p ∈ paths /\ ve_path e = vp_path p /\ ~ path_valid reg p.
Proof.
  split.
  - unfold validate. induction paths as [|p paths IH]; [split; [constructor|done]|].
    rewrite bind_cons, app_nil, IH, Forall_cons, validate_path_nil. done.
  - intros e (p & He & Hp)%list_elem_of_bind. exists p. split; [done|]. split.
    + unfold validate_path in He. destruct (registry_get reg (vp_table p)).
      * apply elem_of_app in He as [He|He]; by apply list_elem_of_fmap in He as (? & -> & _).
      * by apply list_elem_of_singleton in He as ->.
    + rewrite <- validate_path_nil. intros Hn. rewrite Hn in He. by apply elem_of_nil in He.
Qed.

(** ** The engine *)

Section engine.
Context `{AO : ArrowOps} `{CO : !ConcatOps}.

Record PendingSnapshotIngest := mkPending { pi_tick : option Tick; pi_views : gmap string TableReadView }.
Definition pending_new : PendingSnapshotIngest := mkPending None ∅.

(** [qn_latest_tick] is the atomic, [u64::MAX] for none. *)
Record QueryEngine := mkEngine {
  qn_registry : SchemaRegistry;
  qn_inspector : gmap string TableSpec;
  qn_latest_tick : Z;
  qn_view_cache : gmap string TableReadView;
  qn_latest_snapshot : option WorldSnapshot;
  qn_pending : option PendingSnapshotIngest }.

Definition engine_new (reg : SchemaRegistry) : QueryEngine := mkEngine reg ∅ u64_max ∅ None None.

Definition with_registry (q : QueryEngine) (reg : SchemaRegistry) : QueryEngine :=
  mkEngine reg (qn_inspector q) (qn_latest_tick q) (qn_view_cache q) (qn_latest_snapshot q) (qn_pending q).
Definition with_inspector (q : QueryEngine) (i : gmap string TableSpec) : QueryEngine :=
  mkEngine (qn_registry q) i (qn_latest_tick q) (qn_view_cache q) (qn_latest_snapshot q) (qn_pending q).
Definition with_latest_tick (q : QueryEngine) (t : Z) : QueryEngine :=
  mkEngine (qn_registry q) (qn_inspector q) t (qn_view_cache q) (qn_latest_snapshot q) (qn_pending q).
Definition with_cache (q : QueryEngine) (c : gmap string TableReadView) : QueryEngine :=
  mkEngine (qn_registry q) (qn_inspector q) (qn_latest_tick q) c (qn_latest_snapshot q) (qn_pending q).
Definition with_snapshot (q : QueryEngine) (s : option WorldSnapshot) : QueryEngine :=
  mkEngine (qn_registry q) (qn_inspector q) (qn_latest_tick q) (qn_view_cache q) s (qn_pending q).
Definition with_pending_ingest (q : QueryEngine) (p : option PendingSnapshotIngest) : QueryEngine :=
  mkEngine (qn_registry q) (qn_inspector q) (qn_latest_tick q) (qn_view_cache q) (qn_latest_snapshot q) p.

(** *** Schema *)

Definition register_table_schema (q : QueryEngine) (spec : TableSpec) : QueryResult QueryEngine :=
  let? reg := map_err QSchema (registry_register (qn_registry q) spec) in
  Ok (with_inspector (with_registry q reg) (<[ts_name spec := spec]> (qn_inspector q))).
Definition table_schema (q : QueryEngine) (name : string) : QueryResult TableSpec :=
  map_err QSchema (registry_get (qn_registry q) name).
Definition resolve_relation_edge (q : QueryEngine) (key : string) : QueryResult RelationEdge :=
  ok_or (List.find (fun e => bool_decide (edge_key e = key)) (rg_edges (sr_relations (qn_registry q))))
    (QRelationNotFound key).
Definition engine_validate (q : QueryEngine) (paths : list ValidatablePath) : QueryResult (list ValidationError) :=
  Ok (validate (qn_registry q) paths).
Definition is_schema_frozen (q : QueryEngine) : bool := sr_frozen (qn_registry q).
Definition freeze_schema_registry (q : QueryEngine) : QueryEngine := with_registry q (registry_freeze (qn_registry q)).

(** *** Reading *)

Definition engine_latest_tick (q : QueryEngine) : option Tick :=
  if qn_latest_tick q =? u64_max then None else Some (mkTick (qn_latest_tick q)).

Definition engine_read (q : QueryEngine) (req : ReadRequest) : QueryResult ReadResponse :=
  let cache_tick := engine_latest_tick q in
  if bool_decide (rq_tick req <> tick_ZERO) && bool_decide (cache_tick <> Some (rq_tick req))
  then Err (QTicksMismatch (rq_tick req) cache_tick)
  else read_views (qn_view_cache q) req.

Definition read_single_table (q : QueryEngine) (tick : Tick) (name : string) : QueryResult TableReadView :=
  let? resp := engine_read q (request_with_table (request_new tick) name) in response_get resp name.

Definition cached_view (q : QueryEngine) (name : string) : QueryResult TableReadView :=
  ok_or (qn_view_cache q !! name) (QTableNotFound name).

Definition column_view (q : QueryEngine) (name column : string) : QueryResult ColumnView :=
  let? view := cached_view q name in
  let? cols := first_batch_columns view in
  ok_or (cols !! column) (QColumnNotFound column name).
Definition row_cursor (q : QueryEngine) (name : string) : QueryResult RowCursor :=
  let? view := cached_view q name in first_batch_cursor view.
Definition batch_reader (q : QueryEngine) (name : string) : QueryResult BatchColumnReader :=
  let? view := cached_view q name in first_batch_reader view.

(** [{:?}] of a row id *)
Definition row_id_debug (r : RowId) : string := "RowId(" +:+ show_u64 (row_id_as_u64 r) +:+ ")".

Definition lookup_row (q : QueryEngine) (name : string) (row : RowId) : QueryResult RowLookupView :=
  let? tick := ok_or (engine_latest_tick q) (QInvalidQuery "no tick available") in
  let? view := read_single_table q tick name in
  let? pos := ok_or (rpm_position_of (tv_position_map view) row)
    (QInvalidQuery ("row " +:+ row_id_debug row +:+ " not found in table '" +:+ name +:+ "'")) in
  Ok (mkLookupView (mkLookup row pos.1 pos.2) view).

Definition engine_snapshot (q : QueryEngine) : QueryResult WorldView :=
  map_ok world_view_new (ok_or (qn_latest_snapshot q) (QInvalidQuery "no snapshot available")).
Definition clear_cache (q : QueryEngine) : QueryEngine := with_cache q ∅.
(** [order] is that of the keys of the hash map. *)
Definition cached_table_names (order : gmap string TableReadView -> list string) (q : QueryEngine) : list string :=
  order (qn_view_cache q).

(** *** Publication *)

Definition sentinel_error : QueryError := QUnsupportedOperation "Tick sentinel collision: u64::MAX is reserved".

Definition engine_ingest_snapshot (q : QueryEngine) (tick : Tick) (name : string) (batches : list RecordBatch)
    (position_map : RowPositionMap) : QueryEngine * QueryResult unit :=
  if tick_as_u64 tick =? u64_max then (q, Err sentinel_error)
  else
    match table_schema q name with
    | Err e => (q, Err e)
    | Ok schema =>
        let view := table_read_view_new name tick batches schema (Some position_map) in
        match qn_pending q with
        | Some st =>
            match pi_tick st with
            | Some existing =>
                if bool_decide (existing <> tick) then (q, Err (QTicksMismatch tick (Some existing)))
                else (with_pending_ingest q (Some (mkPending (Some existing) (<[name := view]> (pi_views st)))), Ok tt)
            | None => (with_pending_ingest q (Some (mkPending (Some tick) (<[name := view]> (pi_views st)))), Ok tt)
            end
        | None =>
            (with_latest_tick (with_cache q (<[name := view]> (qn_view_cache q))) (tick_as_u64 tick), Ok tt)
        end
    end.

Definition store_world_snapshot (q : QueryEngine) (snapshot : WorldSnapshot) : QueryEngine * QueryResult unit :=
  let tick := ws_tick snapshot in
  if tick_as_u64 tick =? u64_max then (q, Err sentinel_error)
  else
    let mismatch := st ← qn_pending q; staged ← pi_tick st;
                    if bool_decide (staged <> tick) then Some staged else None in
    match mismatch, qn_pending q with
    | Some staged, _ => (q, Err (QTicksMismatch tick (Some staged)))
    | None, Some st =>
        (with_latest_tick (with_snapshot (with_cache (with_pending_ingest q None) (pi_views st)) (Some snapshot))
           (tick_as_u64 tick), Ok tt)
    | None, None => (with_snapshot q (Some snapshot), Ok tt)
    end.

Record IngestRollback := mkRollback {
  rb_saved_cache : gmap string TableReadView; rb_saved_tick : Z; rb_saved_snapshot : option WorldSnapshot }.

(** The engine with a staging area, and what a rollback needs. *)
Definition begin_ingest (q : QueryEngine) : result string (QueryEngine * IngestRollback) :=
  match qn_pending q with
  | Some _ => Err "query ingest already active"
  | None =>
      Ok (with_pending_ingest q (Some pending_new),
          mkRollback (qn_view_cache q) (qn_latest_tick q) (qn_latest_snapshot q))
  end.

Definition ingest_rollback (q : QueryEngine) (r : IngestRollback) : QueryEngine :=
  with_latest_tick (with_pending_ingest (with_snapshot (with_cache q (rb_saved_cache r)) (rb_saved_snapshot r)) None)
    (rb_saved_tick r).
End engine.
