(* ===== verification/Inspector.v ===== *)
(** * Inspector: pages and summaries of tables, rings of writes, single statements

    Models [inspector.rs] and [debug_write.rs] of [scharnhorst_query], and from [engine.rs] the ring
    of diff summaries and the check that a query is one statement. A page is the slice of the
    table's rows its index and size say; a ring keeps the newest entries. *)

From Stdlib Require Import Ascii String.
From stdpp Require Import base gmap strings list fin_maps.
From Stdlib Require Import ZArith Lia.
From S2P Require Import Prelude RustStr CoreTypes SchemaTables RuleCore Float64 Arrow ArrowVec ArrowBatch.
From S2P Require Import ArrowBatchFacts StoreIndex ArrowStore WorldView ReadViews.

(** ** Pages *)

Section pages.
Context `{AO : ArrowOps} `{FT : FloatText}.

Record InspectorPage := mkPage {
  ip_table_name : string; ip_column_names : list string; ip_rows : list (list string);
  ip_page_index : Z; ip_page_size : Z; ip_total_rows : nat }.

Definition page_has_next (p : InspectorPage) : bool :=
  wrap64 (wrap64 (ip_page_index p + 1) * ip_page_size p) <? Z.of_nat (ip_total_rows p).
Definition page_has_prev (p : InspectorPage) : bool := 0 <? ip_page_index p.

Abbreviation Schemas := (gmap string TableSpec).

Definition inspector_register (i : Schemas) (spec : TableSpec) : Schemas := <[ts_name spec := spec]> i.
Definition inspector_unregister (i : Schemas) (name : string) : Schemas := delete name i.
Definition inspector_schema (i : Schemas) (name : string) : QueryResult TableSpec :=
  ok_or (i !! name) (QTableNotFound name).

(** The columns of a batch by name; of columns of one name the last stays. *)
Definition inspector_column_views (i : Schemas) (name : string) (b : RecordBatch) : QueryResult (gmap string ColumnView) :=
  let? _ := inspector_schema i name in Ok (columns_map (named_views b)).

Definition format_cell (a : Arr) (row : nat) : string :=
  if arr_is_null a row then "NULL"
  else match arr_data_type a, arr_value a row with
       | DInt64, SInt z => show_i64 z
       | DFloat64, SFloat x => show_f64 x
       | DBoolean, SBool b => if b then "true" else "false"
       | DUtf8, SText s | DLargeUtf8, SText s => s
       | other, _ => data_type_debug other
       end.

(** [Vec] of the formatted cells of a row *)
Definition format_row (b : RecordBatch) (r : nat) : list string := (fun a => format_cell a r) <$> rb_columns b.

(** The loop over the batches, from [global_row]; it breaks once past [end]. *)
Fixpoint page_rows (start stop global_row : nat) (batches : list RecordBatch) : list (list string) :=
  match batches with
  | [] => []
  | b :: batches =>
      let batch_end := (global_row + rb_num_rows b)%nat in
      let overlap_start := (start `max` global_row)%nat in
      let overlap_end := (stop `min` batch_end)%nat in
      let rows :=
        if (overlap_start <? overlap_end)%nat
        then format_row b <$> seq (overlap_start - global_row) (overlap_end - overlap_start)
        else [] in
      rows ++ (if (stop <=? batch_end)%nat then [] else page_rows start stop batch_end batches)
  end.

Definition inspect_page (i : Schemas) (name : string) (batches : list RecordBatch) (page_index page_size : Z)
  : QueryResult InspectorPage :=
  let? schema := inspector_schema i name in
  let total := total_rows batches in
  let start := Z.min u64_max (page_index * page_size) in
  if Z.of_nat total <? start then Err (QIndexOutOfBounds start)
  else
    let stop := Z.min (wrap64 (start + page_size)) (Z.of_nat total) in
    Ok (mkPage name (col_name <$> ts_columns schema)
          (page_rows (Z.to_nat start) (Z.to_nat stop) 0 batches) page_index page_size total).

(** *** Summaries *)

Record ColumnSummary := mkColumnSummary {
  cs_name : string; cs_data_type : string; cs_null_count : nat; cs_value_count : nat }.
Record TableSummary := mkTableSummary {
  sum_name : string; sum_row_count : nat; sum_columns : list ColumnSummary }.

(** [null_count()] *)
Definition arr_null_count (a : Arr) : nat := length (filter (fun i => arr_is_null a i = true) (seq 0 (arr_len a))).

(** [None] when a batch has no column of that index: [column] panics. *)
Definition column_counts (batches : list RecordBatch) (idx : nat) : option (nat * nat) :=
  foldl (fun acc b => '(na, va) ← acc; a ← rb_columns b !! idx;
                      let nb := arr_null_count a in Some (na + nb, va + (arr_len a - nb))%nat)
    (Some (0, 0)%nat) batches.

Definition summarize_table (i : Schemas) (name : string) (batches : list RecordBatch)
  : option (QueryResult TableSummary) :=
  match inspector_schema i name with
  | Err e => Some (Err e)
  | Ok schema =>
      summaries ← mapM (fun '(idx, col) =>
        '(nulls, values) ← column_counts batches idx;
        Some (mkColumnSummary (col_name col) (col_storage_type col) nulls values)) (imap pair (ts_columns schema));
      Some (Ok (mkTableSummary name (total_rows batches) summaries))
  end.

(** *** What a page shows *)

Definition table_rows (batches : list RecordBatch) : list (list string) :=
  batches ≫= fun b => format_row b <$> seq 0 (rb_num_rows b).

Lemma table_rows_length batches : length (table_rows batches) = total_rows batches.
Proof.
  unfold table_rows, total_rows. induction batches as [|b batches IH]; [done|].
  rewrite bind_cons, length_app, length_fmap, length_seq, IH. done.
Qed.

Lemma take_drop_seq {A} (f : nat -> A) n k m :
  take k (drop m (f <$> seq 0 n)) = f <$> seq m (k `min` (n - m)).
Proof.
  apply list_eq. intros i. destruct (decide (i < k)%nat) as [Hk|Hk].
  - rewrite lookup_take_lt, lookup_drop, !list_lookup_fmap by done. f_equal.
    destruct (decide (m + i < n)%nat) as [Hn|Hn].
    + rewrite !lookup_seq_lt by lia. done.
    + rewrite !lookup_seq_ge by lia. done.
  - rewrite lookup_take_ge by lia. rewrite list_lookup_fmap, lookup_seq_ge by lia. done.
Qed.

Lemma page_rows_slice start stop g batches : (start <= stop)%nat ->
  page_rows start stop g batches = take (stop - (start `max` g)) (drop (start - g) (table_rows batches)).
Proof.
  intros Hs. revert g. induction batches as [|b batches IH]; intros g; cbn [page_rows].
  { unfold table_rows. simpl. by rewrite drop_nil, take_nil. }
  unfold table_rows. rewrite bind_cons. fold (table_rows batches).
  set (rows := format_row b <$> seq 0 (rb_num_rows b)). set (n := rb_num_rows b) in *.
  assert (Hlen : length rows = n) by (subst rows; by rewrite length_fmap, length_seq).
  assert (Hfirst : (if (start `max` g <? stop `min` (g + n))%nat
      then format_row b <$> seq (start `max` g - g) (stop `min` (g + n) - start `max` g) else [])
    = take (stop - (start `max` g)) (drop (start - g) rows)).
  { subst rows. rewrite take_drop_seq. destruct (Nat.ltb_spec (start `max` g) (stop `min` (g + n))).
    - f_equal. f_equal; lia.
    - replace ((stop - start `max` g) `min` (n - (start - g)))%nat with O by lia. done. }
  rewrite Hfirst, drop_app, take_app, Hlen, length_drop, Hlen. f_equal.
  destruct (Nat.leb_spec stop (g + n)).
  - symmetry. apply nil_length_inv. rewrite length_take. lia.
  - rewrite IH. f_equal; [|f_equal]; lia.
Qed.

(** C39: A page is a slice: for any index and size the page shows exactly the rows from index times size
    on, at most size of them, of all the table's rows in order; it is refused exactly when it would
    begin beyond the last row; and it says there is a next page exactly when rows are left. *)
Theorem inspect_page_slice (i : Schemas) name batches page_index page_size schema :
  i !! name = Some schema -> u64 page_index -> u64 page_size -> Z.of_nat (total_rows batches) <= i64_max ->
  match inspect_page i name batches page_index page_size with
  | Err e => e = QIndexOutOfBounds (Z.min u64_max (page_index * page_size))
             /\ Z.of_nat (total_rows batches) < page_index * page_size
  | Ok p => page_index * page_size <= Z.of_nat (total_rows batches)
            /\ ip_rows p = take (Z.to_nat page_size) (drop (Z.to_nat (page_index * page_size)) (table_rows batches))
            /\ ip_total_rows p = total_rows batches
            /\ (page_has_next p = true
                <-> drop (Z.to_nat ((page_index + 1) * page_size)) (table_rows batches) <> [])
  end.
Proof.
  intros Hi Hidx Hsize Htot. unfold inspect_page, inspector_schema. rewrite Hi. cbn [ok_or].
  set (total := total_rows batches) in *. assert (Hlen : length (table_rows batches) = total) by apply table_rows_length.
  unfold u64 in *. assert (Hmax : u64_max = 2 * i64_max + 1) by reflexivity.
  destruct (Z.ltb_spec (Z.of_nat total) (Z.min u64_max (page_index * page_size))) as [Hlt|Hge]; [split; [done|lia]|].
  assert (Hstart : page_index * page_size <= Z.of_nat total) by lia. rewrite Z.min_r by lia.
  assert (Hsmall : page_index = 0 \/ page_size <= Z.of_nat total) by (destruct (decide (page_index = 0)); [by left|right; nia]).
  assert (Hsum : page_index * page_size + page_size <= u64_max) by (destruct Hsmall as [->|]; lia).
  rewrite wrap64_small by (split; [nia|unfold two64, u64_max in *; lia]).
  split; [done|]. cbn [ip_rows ip_total_rows]. split_and!; [|done|].
  - rewrite page_rows_slice by lia. rewrite Nat.max_0_r, Nat.sub_0_r.
    set (a := Z.to_nat (page_index * page_size)) in *.
    destruct (decide (page_index * page_size + page_size <= Z.of_nat total)).
    + f_equal. lia.
    + rewrite !take_ge; [done| |]; rewrite length_drop, Hlen; lia.
  - unfold page_has_next. cbn [ip_page_index ip_page_size ip_total_rows].
    assert (Hnext : wrap64 (wrap64 (page_index + 1) * page_size) = (page_index + 1) * page_size).
    { destruct (decide (page_index = u64_max)) as [->|Hne].
      - assert (page_size = 0) as -> by (unfold u64_max, i64_max in *; nia). by rewrite !Z.mul_0_r.
      - rewrite (wrap64_small (page_index + 1)) by (unfold two64, u64_max in *; lia).
        apply wrap64_small. split; [nia|]. unfold two64, u64_max in *. lia. }
    rewrite Hnext, Z.ltb_lt. split.
    + intros Hlt Hnil. apply (f_equal length) in Hnil. rewrite length_drop, Hlen in Hnil. simpl in Hnil. nia.
    + intros Hne. destruct (Z.lt_ge_cases ((page_index + 1) * page_size) (Z.of_nat total)) as [|Hge']; [done|].
      destruct Hne. apply drop_ge. rewrite Hlen. lia.
Qed.
End pages.
