(* ===== verification/DebugTools.v ===== *)
(** * DebugTools: rings of writes, and queries of a single statement

    Models [debug_write.rs] of [scharnhorst_query] and, from [engine.rs], the ring of diff summaries
    and [strip_single_trailing_statement_semicolon]. Both rings keep the newest entries in order.
    Texts are their UTF-8 bytes; quotes and semicolons are single bytes. *)

From Stdlib Require Import Ascii String.
From stdpp Require Import base gmap strings list fin_maps.
From Stdlib Require Import ZArith Lia.
From S2P Require Import Prelude RustStr CoreTypes RuleCore Arrow.

(** ** The debug write journal *)

Inductive DebugWriteOp :=
| WAppend (table : string) (tick : Tick) (row_count : Z)
| WPatch (table : string) (tick : Tick) (row_indices : list Z)
| WDelete (table : string) (tick : Tick) (row_indices : list Z)
| WRebuild (table : string) (tick : Tick) (row_count : Z).

Definition write_op_table_name (op : DebugWriteOp) : string :=
  match op with WAppend t _ _ | WPatch t _ _ | WDelete t _ _ | WRebuild t _ _ => t end.
Definition write_op_tick (op : DebugWriteOp) : Tick :=
  match op with WAppend _ t _ | WPatch _ t _ | WDelete _ t _ | WRebuild _ t _ => t end.

Record DebugWriteJournal := mkDebugJournal { dj_capacity : nat; dj_ops : list DebugWriteOp; dj_enabled : bool }.

Definition debug_journal_new (capacity : nat) : DebugWriteJournal := mkDebugJournal capacity [] true.
Definition debug_journal_set_enabled (j : DebugWriteJournal) (enabled : bool) : DebugWriteJournal :=
  mkDebugJournal (dj_capacity j) (dj_ops j) enabled.
Definition debug_journal_record (j : DebugWriteJournal) (op : DebugWriteOp) : DebugWriteJournal :=
  if negb (dj_enabled j) then j
  else
    let ops := if (dj_capacity j <=? length (dj_ops j))%nat then tail (dj_ops j) else dj_ops j in
    mkDebugJournal (dj_capacity j) (ops ++ [op]) (dj_enabled j).
Definition debug_journal_clear (j : DebugWriteJournal) : DebugWriteJournal :=
  mkDebugJournal (dj_capacity j) [] (dj_enabled j).
Definition debug_journal_latest (j : DebugWriteJournal) : option DebugWriteOp := last (dj_ops j).
Definition debug_journal_ops_for_table (j : DebugWriteJournal) (table : string) : list DebugWriteOp :=
  filter (fun op => write_op_table_name op = table) (dj_ops j).

Definition diff_to_debug_write_op {V} (d : Diff V) (tick : Tick) : DebugWriteOp :=
  match d with
  | Update table _ _ _ => WPatch table tick []
  | Insert table _ _ => WAppend table tick 1
  | Delete table _ => WDelete table tick []
  | ReplaceTable table _ => WRebuild table tick 0
  end.

(** ** The ring of diff summaries *)

Record DiffSummary := mkSummary {
  ds_tick : Z; ds_table_name : string; ds_diff_kind : string; ds_summary : string }.
Record DiffSummaryRing := mkRing { dr_capacity : nat; dr_entries : list DiffSummary }.

Definition ring_new (capacity : nat) : DiffSummaryRing := mkRing capacity [].

(** [while len >= capacity { pop_front() }]; [None] when it never ends. *)
Fixpoint make_room (capacity : nat) (entries : list DiffSummary) : option (list DiffSummary) :=
  match entries with
  | [] => if (capacity =? 0)%nat then None else Some []
  | _ :: rest => if (capacity <=? length entries)%nat then make_room capacity rest else Some entries
  end.
Fixpoint ring_push (r : DiffSummaryRing) (summaries : list DiffSummary) : option DiffSummaryRing :=
  match summaries with
  | [] => Some r
  | e :: summaries =>
      entries ← make_room (dr_capacity r) (dr_entries r);
      ring_push (mkRing (dr_capacity r) (entries ++ [e])) summaries
  end.
Definition ring_clear (r : DiffSummaryRing) : DiffSummaryRing := mkRing (dr_capacity r) [].

Section summaries.
Context {V : Type} `{JR : JsonRead V}.

Definition diff_summary (tick : Tick) (d : Diff V) : DiffSummary :=
  let row r := show_u64 (row_id_as_u64 r) in
  match d with
  | Update t r column value =>
      mkSummary (tick_as_u64 tick) t "Update" (t +:+ "." +:+ column +:+ "@" +:+ row r +:+ " = " +:+ jr_text value)
  | Insert t r values =>
      mkSummary (tick_as_u64 tick) t "Insert"
        ("insert into " +:+ t +:+ " (" +:+ show_u64 (Z.of_nat (size values)) +:+ " cols) @" +:+ row r)
  | Delete t r => mkSummary (tick_as_u64 tick) t "Delete" ("delete from " +:+ t +:+ " @" +:+ row r)
  | ReplaceTable t rows =>
      mkSummary (tick_as_u64 tick) t "ReplaceTable"
        ("replace " +:+ t +:+ " (" +:+ show_u64 (Z.of_nat (length rows)) +:+ " rows)")
  end.

Definition push_diff_summaries (r : DiffSummaryRing) (diffs : list (Diff V)) (tick : Tick) : option DiffSummaryRing :=
  ring_push r (diff_summary tick <$> diffs).
End summaries.

(** *** Rings keep the newest entries *)

(** The last [n] entries. *)
Definition newest_entries {A} (n : nat) (l : list A) : list A := drop (length l - n) l.

Lemma newest_all {A} n (l : list A) : (length l <= n)%nat -> newest_entries n l = l.
Proof. intros H. unfold newest_entries. by replace (length l - n)%nat with O by lia. Qed.

Lemma newest_length {A} n (l : list A) : length (newest_entries n l) = (length l `min` n)%nat.
Proof. unfold newest_entries. rewrite length_drop. lia. Qed.

(** Keeping the newest twice is keeping them once. *)
Lemma newest_app {A} n (l k : list A) : newest_entries n (newest_entries n l ++ k) = newest_entries n (l ++ k).
Proof.
  destruct (decide (length l <= n)%nat) as [Hl|Hl]; [by rewrite (newest_all n l)|].
  unfold newest_entries. rewrite !length_app, length_drop.
  replace (length l - (length l - n) + length k - n)%nat with (length k) by lia.
  rewrite (drop_app (drop _ l)), (drop_app l), drop_drop, length_drop.
  f_equal; f_equal; lia.
Qed.

Lemma record_newest j op : dj_enabled j = true -> (0 < dj_capacity j)%nat ->
  (length (dj_ops j) <= dj_capacity j)%nat ->
  debug_journal_record j op = mkDebugJournal (dj_capacity j) (newest_entries (dj_capacity j) (dj_ops j ++ [op])) true.
Proof.
  intros He Hc Hl. unfold debug_journal_record. rewrite He. cbn [negb]. f_equal.
  unfold newest_entries. rewrite length_app, Nat.add_1_r. destruct (Nat.leb_spec (dj_capacity j) (length (dj_ops j))).
  - assert (length (dj_ops j) = dj_capacity j) as -> by lia.
    replace (S (dj_capacity j) - dj_capacity j)%nat with 1%nat by lia.
    destruct (dj_ops j) as [|o ops]; [simpl in *; lia|done].
  - by replace (S (length (dj_ops j)) - dj_capacity j)%nat with O by lia.
Qed.

Lemma make_room_newest capacity entries : (0 < capacity)%nat ->
  make_room capacity entries = Some (newest_entries (capacity - 1) entries).
Proof.
  intros Hc. induction entries as [|e entries IH]; cbn [make_room].
  - destruct (Nat.eqb_spec capacity 0); [lia|]. done.
  - destruct (Nat.leb_spec capacity (length (e :: entries))) as [Hle|Hlt].
    + rewrite IH. f_equal. unfold newest_entries. cbn [length] in *.
      by replace (S (length entries) - (capacity - 1))%nat with (S (length entries - (capacity - 1))) by lia.
    + f_equal. symmetry. apply newest_all. lia.
Qed.

Lemma newest_entries_snoc {A} n (l : list A) x : (0 < n)%nat ->
  newest_entries (n - 1) l ++ [x] = newest_entries n (l ++ [x]).
Proof.
  intros Hn. unfold newest_entries. rewrite length_app, Nat.add_1_r.
  replace (S (length l) - n)%nat with (length l - (n - 1))%nat by lia.
  rewrite drop_app. by replace (length l - (n - 1) - length l)%nat with O by lia.
Qed.

Lemma ring_push_newest r l : (0 < dr_capacity r)%nat ->
  exists r', ring_push r l = Some r' /\ dr_capacity r' = dr_capacity r
  /\ (l <> [] -> dr_entries r' = newest_entries (dr_capacity r) (dr_entries r ++ l)).
Proof.
  revert r. induction l as [|e l IH]; intros r Hc; [by exists r|]. cbn [ring_push].
  rewrite make_room_newest by done. cbn [mbind option_bind].
  rewrite newest_entries_snoc by done. set (r1 := mkRing _ _).
  destruct (decide (l = [])) as [->|Hne]; [by exists r1|].
  destruct (IH r1 Hc) as (r' & -> & Hcap & He). exists r'. split; [done|]. split; [done|]. intros _.
  rewrite He by done. subst r1. cbn [dr_capacity dr_entries]. rewrite newest_app, <- app_assoc. done.
Qed.

(** Both rings keep the newest writes in order: an enabled debug journal, and the ring of diff
    summaries, hold the last (at most their capacity) of all that was recorded, whatever the number
    of calls; pushing always ends unless the capacity is zero. *)
Theorem rings_keep_newest {V} `{JsonRead V} (capacity : nat) (ops : list DebugWriteOp)
    (commits : list (list (Diff V) * Tick)) :
  (0 < capacity)%nat ->
  foldl debug_journal_record (debug_journal_new capacity) ops
    = mkDebugJournal capacity (newest_entries capacity ops) true
  /\ foldl (fun r p => r ← r; push_diff_summaries r p.1 p.2) (Some (ring_new capacity)) commits
     = Some (mkRing capacity (newest_entries capacity (commits ≫= fun p => diff_summary p.2 <$> p.1))).
Proof.
  intros Hc. split.
  - induction ops as [|op ops IH] using rev_ind; [done|]. rewrite foldl_app, IH. cbn [foldl].
    rewrite record_newest; cbn [dj_enabled dj_capacity dj_ops]; [|done|done|rewrite newest_length; lia].
    by rewrite newest_app.
  - induction commits as [|[ds tick] commits IH] using rev_ind; [done|]. rewrite foldl_app, IH. cbn [foldl].
    cbn [mbind option_bind fst snd]. unfold push_diff_summaries.
    destruct (ring_push_newest (mkRing capacity (newest_entries capacity
      (commits ≫= fun p => diff_summary p.2 <$> p.1))) (diff_summary tick <$> ds) Hc) as ([c es] & E & Hcap & He).
    rewrite E. cbn [dr_capacity dr_entries] in *. subst c. do 2 f_equal. rewrite bind_app. cbn [mbind list_bind fst snd]. rewrite app_nil_r.
    destruct ds as [|d ds]; [|rewrite He by done; by rewrite newest_app].
    cbn in E. injection E as <-. by rewrite app_nil_r.
Qed.

(** ** One statement *)

Definition quote_char : ascii := "'".
Definition dquote_char : ascii := ascii_of_nat 34.
Definition semicolon_char : ascii := ";".

(** The loop over the characters: how many semicolons stand outside quotes, and where the last. *)
Fixpoint scan_sql (quote : option ascii) (i : nat) (s : list ascii) (count : nat) (last : option nat)
  : nat * option nat :=
  match s with
  | [] => (count, last)
  | c :: s1 =>
      match quote with
      | Some q =>
          if Ascii.eqb c q then
            match s1 with
            | c' :: s2 =>
                if Ascii.eqb q quote_char && Ascii.eqb c' q then scan_sql quote (S (S i)) s2 count last
                else scan_sql None (S i) s1 count last
            | [] => scan_sql None (S i) s1 count last
            end
          else scan_sql quote (S i) s1 count last
      | None =>
          if Ascii.eqb c quote_char || Ascii.eqb c dquote_char then scan_sql (Some c) (S i) s1 count last
          else if Ascii.eqb c semicolon_char then scan_sql None (S i) s1 (S count) (Some i)
          else scan_sql None (S i) s1 count last
      end
  end.

(** [trim_end] *)
Definition trim_end_list (l : list ascii) : list ascii :=
  let r := rev l in rev (drop_all_ws (List.length r) true r).

Definition strip_single_trailing_statement_semicolon (sql : string) : QueryResult string :=
  let s := list_ascii_of_string sql in
  let refused := Err (QSqlNotAllowed "multi-statement SQL not allowed") in
  match scan_sql None 0 s 0 None with
  | (0%nat, _) => Ok sql
  | (1%nat, Some i) =>
      if bool_decide (trim (string_of_list_ascii (drop (S i) s)) = "")
      then Ok (string_of_list_ascii (trim_end_list (take i s))) else refused
  | _ => refused
  end.

(** The positions of the semicolons outside quotes. *)
Fixpoint semicolons (quote : option ascii) (i : nat) (s : list ascii) : list nat :=
  match s with
  | [] => []
  | c :: s1 =>
      match quote with
      | Some q =>
          if Ascii.eqb c q then
            match s1 with
            | c' :: s2 =>
                if Ascii.eqb q quote_char && Ascii.eqb c' q then semicolons quote (S (S i)) s2
                else semicolons None (S i) s1
            | [] => semicolons None (S i) s1
            end
          else semicolons quote (S i) s1
      | None =>
          if Ascii.eqb c quote_char || Ascii.eqb c dquote_char then semicolons (Some c) (S i) s1
          else if Ascii.eqb c semicolon_char then i :: semicolons None (S i) s1
          else semicolons None (S i) s1
      end
  end.

Lemma scan_semicolons s : forall quote i count last0,
  scan_sql quote i s count last0
  = (count + length (semicolons quote i s),
     match last (semicolons quote i s) with Some j => Some j | None => last0 end)%nat.
Proof.
  induction s as [|c s1 IH IH2] using two_step_ind; intros quote i count last0; cbn [scan_sql semicolons].
  { by rewrite Nat.add_0_r. }
  destruct quote as [q|].
  - destruct (Ascii.eqb c q); [|apply IH]. destruct s1 as [|c' s2]; [apply IH|].
    destruct (Ascii.eqb q quote_char && Ascii.eqb c' q); [by eapply IH2|apply IH].
  - destruct (Ascii.eqb c quote_char || Ascii.eqb c dquote_char); [apply IH|].
    destruct (Ascii.eqb c semicolon_char); [|apply IH]. rewrite IH. cbn [length]. f_equal; [lia|].
    destruct (semicolons None (S i) s1); [done|]. rewrite (last_cons i). by destruct (last _).
Qed.

Lemma semicolons_bound s : forall quote i j, j ∈ semicolons quote i s -> (i <= j < i + length s)%nat.
Proof.
  induction s as [|c s1 IH IH2] using two_step_ind; intros quote i j; cbn [semicolons]; [by intros ?%elem_of_nil|].
  assert (Hnext : forall q', j ∈ semicolons q' (S i) s1 -> (i <= j < i + length (c :: s1))%nat)
    by (intros q' Hj; apply IH in Hj; simpl; lia).
  destruct quote as [q|].
  - destruct (Ascii.eqb c q); [|apply Hnext]. destruct s1 as [|c' s2]; [apply Hnext|].
    destruct (Ascii.eqb q quote_char && Ascii.eqb c' q); [|apply Hnext].
    intros Hj. eapply IH2 in Hj; [|done]. simpl. lia.
  - destruct (Ascii.eqb c quote_char || Ascii.eqb c dquote_char); [apply Hnext|].
    destruct (Ascii.eqb c semicolon_char); [|apply Hnext].
    intros [->|Hj]%elem_of_cons; [simpl; lia|by apply Hnext in Hj].
Qed.

Lemma semicolons_prefix r s : forall quote i, semicolons quote i s `prefix_of` semicolons quote i (s ++ r).
Proof.
  induction s as [|c s1 IH IH2] using two_step_ind; intros quote i; [apply prefix_nil|]. cbn [semicolons app].
  destruct quote as [q|].
  - destruct (Ascii.eqb c q); [|apply IH]. destruct s1 as [|c' s2]; [apply prefix_nil|]. cbn [app].
    destruct (Ascii.eqb q quote_char && Ascii.eqb c' q); [by eapply IH2|]. apply (IH None).
  - destruct (Ascii.eqb c quote_char || Ascii.eqb c dquote_char); [apply IH|].
    destruct (Ascii.eqb c semicolon_char); [|apply IH]. by apply prefix_cons.
Qed.

Lemma drop_ws_suffix flip l l' : drop_ws flip l = Some l' -> l' `suffix_of` l.
Proof.
  unfold drop_ws. destruct l as [|a r1]; [done|]. destruct (ws1 _); [intros [= <-]; by exists [a]|].
  destruct r1 as [|b r2]; [done|]. destruct (if flip then _ else _); [intros [= <-]; by exists [a; b]|].
  destruct r2 as [|c r3]; [done|]. destruct (if flip then _ else _); [intros [= <-]; by exists [a; b; c]|done].
Qed.

Lemma drop_all_ws_suffix fuel flip l : drop_all_ws fuel flip l `suffix_of` l.
Proof.
  revert l. induction fuel as [|fuel IH]; intros l; [done|]. simpl. destruct (drop_ws flip l) eqn:E; [|done].
  etrans; [apply IH|]. by eapply drop_ws_suffix.
Qed.

Lemma trim_end_prefix l : exists r, l = trim_end_list l ++ r.
Proof.
  unfold trim_end_list. destruct (drop_all_ws_suffix (List.length (rev l)) true (rev l)) as [k E].
  exists (rev k). rewrite <- rev_app_distr, <- E. by rewrite rev_involutive.
Qed.

Definition no_semicolon (sql : string) : Prop := semicolons None 0 (list_ascii_of_string sql) = [].

(** What is accepted is one statement: the text handed to the SQL engine has no semicolon outside
    quotes, and it is the query itself, or the query up to its only such semicolon, behind which
    there was nothing but white space. *)
Theorem accepted_sql_single (sql cleaned : string) :
  strip_single_trailing_statement_semicolon sql = Ok cleaned ->
  no_semicolon cleaned
  /\ (cleaned = sql
      \/ exists i, semicolons None 0 (list_ascii_of_string sql) = [i]
         /\ trim (string_of_list_ascii (drop (S i) (list_ascii_of_string sql))) = ""
         /\ cleaned = string_of_list_ascii (trim_end_list (take i (list_ascii_of_string sql)))).
Proof.
  unfold strip_single_trailing_statement_semicolon. set (s := list_ascii_of_string sql).
  rewrite scan_semicolons. unfold no_semicolon. destruct (semicolons None 0 s) as [|i [|i' l]] eqn:Es; simpl.
  - intros [= <-]. split; [exact Es|by left].
  - case_bool_decide as Hrest; [|done]. intros [= <-]. split; [|right; by exists i].
    rewrite list_ascii_of_string_of_list_ascii. destruct (trim_end_prefix (take i s)) as [r Hr].
    set (t := trim_end_list _) in *.
    assert (Hp : semicolons None 0 t `prefix_of` [i]).
    { rewrite <- Es. rewrite <- (take_drop i s), Hr, <- app_assoc. apply semicolons_prefix. }
    destruct (semicolons None 0 t) as [|j l] eqn:Et; [done|]. exfalso.
    assert (j = i) as -> by (destruct Hp as [k Hk]; by injection Hk).
    pose proof (semicolons_bound t None 0 i) as Hb. rewrite Et in Hb.
    assert (Hlen : (length t <= length (take i s))%nat) by (rewrite Hr, length_app; lia).
    rewrite length_take in Hlen. specialize (Hb ltac:(left)). lia.
  - done.
Qed.
