(* ===== verification/StoreJournal.v ===== *)
(** * StoreJournal: the journal over the Arrow store and the query engine

    The store and the engine are instances of what the journal asks of them, and satisfy its laws;
    so the theorems on commits hold of the three together. A commit makes of the world of rows what
    its diffs say, and what it publishes is what the next reads see; diffs the world admits are
    committed. *)

From Stdlib Require Import Ascii String.
From stdpp Require Import base gmap strings list fin_maps sorting.
From Stdlib Require Import ZArith Lia.
From S2P Require Import Prelude RustStr CoreTypes SchemaTables Relations Registry Journal RuleCore Float64 Rules.
From S2P Require Import Arrow ArrowVec ArrowBatch ArrowBatchFacts StoreIndex ArrowStore StoreFacts StoreRows StoreRuns.
From S2P Require Import WorldView ReadViews ErrorText QueryEngine.

Section instances.
Context {V : Type} `{AO : ArrowOps} `{AL : !ArrowLaws} `{JR : JsonRead V} `{FT : FloatText} `{CO : !ConcatOps}.
Context (ver_order : gmap Tick (list RecordBatch) -> list (Tick * list RecordBatch)).
Context (group_order : gmap nat (list (nat * nat)) -> list (nat * list (nat * nat))).
Context (name_order : gmap string VersionedTable -> list string).
Context (Ho : orders_groups group_order).

(** The errors are passed on as texts; [apply_diffs] never panics ([apply_diffs_spec]). *)
Definition arrow_store_ops : StoreOps V := {|
  Store := ArrowStore V;
  SavedVersions := gmap string (gmap Tick (list RecordBatch));
  Snapshot := WorldSnapshot;
  Batches := list RecordBatch;
  PositionMap := RowPositionMap;
  no_batches := [];
  st_save_table_versions s names := map_err store_error_text (save_table_versions s names);
  st_restore_table_versions s saved :=
    let '(s', r) := restore_table_versions s saved in (s', map_err store_error_text r);
  st_apply_diffs s tick ds :=
    match apply_diffs ver_order group_order s tick ds with
    | Some (s', r) => (s', map_err store_error_text r)
    | None => (s, Err "panic")
    end;
  st_generate_snapshot s tick :=
    match generate_snapshot s tick with
    | Ok (s', _) => (s', Ok tt)
    | Err e => (s, Err (store_error_text e))
    end;
  st_get_snapshot s tick := map_err store_error_text (get_snapshot s tick);
  snap_table_names snap := name_order (ws_tables snap);
  st_get_table_batches s name tick := map_err store_error_text (get_table_batches s name tick);
  st_position_map s name := map_err store_error_text (map_ok vt_position_map (get_table s name)) |}.

#[local] Existing Instance arrow_store_ops.

Definition query_engine_ops : @QueryOps V arrow_store_ops := {|
  Query := QueryEngine;
  Rollback := IngestRollback;
  qe_begin_ingest q := match begin_ingest q with Ok (q', rb) => (q', Ok rb) | Err e => (q, Err e) end;
  qe_ingest_snapshot q tick name batches m :=
    let '(q', r) := engine_ingest_snapshot q tick name batches m in (q', map_err query_error_text r);
  qe_store_snapshot q snap :=
    let '(q', r) := store_world_snapshot q snap in (q', map_err query_error_text r);
  qe_rollback q rb := (ingest_rollback q rb, Ok tt) |}.

#[local] Existing Instance query_engine_ops.

(** *** The store keeps its promise *)

Lemma put_versions_tables (s1 s2 : ArrowStore V) saved :
  as_tables s1 = as_tables s2 -> store_view (put_versions s1 saved) = store_view (put_versions s2 saved).
Proof. intros H. unfold store_view, put_versions, with_all_tables. cbn [as_tables]. by rewrite H. Qed.

Lemma generate_snapshot_tables (s : ArrowStore V) tick s' r :
  (st_generate_snapshot s tick) = (s', r) -> as_tables s' = as_tables s /\ as_type_registry s' = as_type_registry s.
Proof. simpl. unfold generate_snapshot. destruct (commit_guard s); simpl; by intros [= <- _]. Qed.

#[export] Program Instance arrow_store_laws : StoreLaws V := {|
  StoreView := gmap string (gmap Tick (list RecordBatch)); st_view := store_view |}.
Next Obligation.
  intros s s' tick ds saved Hs Hafter. injection Hs as <-. cbn [st_restore_table_versions arrow_store_ops fst restore_table_versions].
  destruct (apply_diffs_spec ver_order group_order s tick ds Ho) as (s1 & r & E & Ht & _).
  assert (Htab : as_tables s' = as_tables s1).
  { destruct Hafter as [->| ->]; simpl; rewrite E; [done|]. cbn [fst].
    destruct (generate_snapshot s1 tick) as [[s2 snap]|e] eqn:Eg; [|done].
    by apply (generate_snapshot_tables s1 tick s2 (Ok tt)); simpl; rewrite Eg. }
  rewrite (put_versions_tables _ s1) by done. by apply put_versions_view.
Qed.

(** *** The engine keeps its promise *)

(** Staging writes nothing but the staging area, and the snapshot what it publishes. *)
Definition same_schema_side (q q' : QueryEngine) : Prop :=
  qn_registry q' = qn_registry q /\ qn_inspector q' = qn_inspector q.

Lemma ingest_schema_side q tick name batches m :
  same_schema_side q (engine_ingest_snapshot q tick name batches m).1.
Proof.
  unfold engine_ingest_snapshot. destruct (_ =? _); [done|]. destruct (table_schema q name); [|done].
  destruct (qn_pending q) as [[[t|] views]|]; simpl; [|done|done]. by case_bool_decide.
Qed.

Lemma store_schema_side q snap : same_schema_side q (store_world_snapshot q snap).1.
Proof.
  unfold store_world_snapshot. destruct (_ =? _); [done|].
  destruct (qn_pending q) as [[[t|] views]|]; simpl; [|done|done]. by case_bool_decide.
Qed.

Lemma query_writes_schema_side (q q' : QueryEngine) : rtc query_write q q' -> same_schema_side q q'.
Proof.
  induction 1 as [|q1 q2 q3 Hw _ [IH1 IH2]]; [done|].
  assert (same_schema_side q1 q2) as [H1 H2].
  { destruct Hw as [q tick name b pm|q snap]; simpl.
    - pose proof (ingest_schema_side q tick name b pm) as H. by destruct (engine_ingest_snapshot _ _ _ _ _).
    - pose proof (store_schema_side q snap) as H. by destruct (store_world_snapshot _ _). }
  unfold same_schema_side. by rewrite IH1, IH2.
Qed.

#[export] Program Instance query_engine_laws : QueryLaws V := {|
  QueryView := QueryEngine; qe_view q := q |}.
Next Obligation. intros q q1 m. simpl. destruct (begin_ingest q) as [[]|]; [done|]. by intros [= <-]. Qed.
Next Obligation.
  intros q q1 q' rb Hb Hw. simpl in *. unfold begin_ingest in Hb.
  destruct (qn_pending q) as [|] eqn:Ep; [done|]. injection Hb as <- <-.
  apply query_writes_schema_side in Hw as [H1 H2]. simpl in *. destruct q, q'. simpl in *. by subst.
Qed.
End instances.

(** ** What a commit does to the world and to the reads *)

Section commits.
Context {V : Type} `{AO : ArrowOps} `{AL : !ArrowLaws} `{JR : JsonRead V} `{JL : !JsonLaws V} `{FT : FloatText}.
Context `{CO : !ConcatOps} `{CL : !ConcatLaws}.
Context (ver_order : gmap Tick (list RecordBatch) -> list (Tick * list RecordBatch)).
Context (group_order : gmap nat (list (nat * nat)) -> list (nat * list (nat * nat))).
Context (name_order : gmap string VersionedTable -> list string).
Context (Ho : orders_groups group_order).
Context (Hn : forall m, name_order m ≡ₚ (map_to_list m).*1).
Context (diff_json : Diff V -> result string string) {SV : SaveOps V}.

#[local] Instance journal_store : StoreOps V := arrow_store_ops ver_order group_order name_order.
#[local] Instance journal_query : QueryOps V := query_engine_ops ver_order group_order name_order.

Abbreviation SJournal := (@Journal V journal_store journal_query SV).

(** The store of a journal, as a store. *)
Definition store_of (j : SJournal) : ArrowStore V := j_store j.
Definition engine_of (j : SJournal) : option QueryEngine := j_query_engine j.

Lemma store_rep_tables M H (s1 s2 : ArrowStore V) W :
  as_tables s2 = as_tables s1 -> as_type_registry s2 = as_type_registry s1 ->
  store_rep_home M H s1 W -> store_rep_home M H s2 W.
Proof. intros Ht Hr Hrep k. rewrite Ht, Hr. apply Hrep. Qed.

(** The diffs of a successful commit were applied, then the tables only snapshotted. *)
Lemma committed_store (j j' : SJournal) r : commit_succeeded diff_json j j' r ->
  exists s1, apply_diffs ver_order group_order (store_of j) (j_current_tick j) (j_pending_diffs j) = Some (s1, Ok tt)
  /\ as_tables (store_of j') = as_tables s1 /\ as_type_registry (store_of j') = as_type_registry s1
  /\ as_snapshots (store_of j') !! j_current_tick j = Some (snapshot_of (store_of j') (j_current_tick j)).
Proof.
  intros (_ & _ & _ & _ & _ & _ & _ & _ & s1 & Ha & Hg & _).
  destruct (apply_diffs_spec ver_order group_order (store_of j) (j_current_tick j) (j_pending_diffs j) Ho)
    as (s1' & r1 & E1 & _).
  simpl in Ha. change (j_store j) with (store_of j) in Ha. rewrite E1 in Ha. injection Ha as <- Hr1.
  destruct r1 as [[]|]; [|done]. exists s1'. split; [done|]. apply generate_snapshot_tables in Hg as Hg'.
  destruct Hg' as [H1 H2]. split_and!; [done|done|]. simpl in Hg. unfold generate_snapshot in Hg.
  destruct (commit_guard s1'); [|done]. simpl in Hg. injection Hg as Hg. unfold store_of. rewrite <- Hg. simpl.
  rewrite lookup_insert_eq. f_equal.
Qed.

Lemma committed_home M H (j j' : SJournal) r W :
  commit_guard (store_of j) = Ok tt ->
  store_rep_home M H (store_of j) W -> forallb (at_home H (j_current_tick j)) (j_pending_diffs j) = true ->
  commit_succeeded diff_json j j' r ->
  exists W', world_apply_all M W (j_pending_diffs j) = Some W' /\ store_rep_home M H (store_of j') W'.
Proof.
  intros Hg Hrep Hds E. destruct (committed_store j j' r E) as (s1 & E1 & Ht & Hr & _).
  unfold apply_diffs in E1. rewrite Hg in E1.
  pose proof (apply_loop_home ver_order group_order Ho M H (j_current_tick j)
    (versions_of (store_of j) (diff_table <$> j_pending_diffs j)) (store_of j) W (j_pending_diffs j) Hrep Hds) as Ha.
  destruct (world_apply_all M W (j_pending_diffs j)) as [W'|].
  - destruct Ha as (s' & E' & Hrep'). rewrite E1 in E'. injection E' as <-. exists W'. split; [done|].
    by eapply store_rep_tables.
  - destruct Ha as (s' & e & E'). by rewrite E1 in E'.
Qed.

Lemma committed_world M (j j' : SJournal) r W :
  commit_guard (store_of j) = Ok tt ->
  store_rep M (j_current_tick j) (store_of j) W -> journal_commit diff_json j = (j', Ok r) ->
  exists W', world_apply_all M W (j_pending_diffs j) = Some W' /\ store_rep M (j_current_tick j) (store_of j') W'.
Proof. intros Hg Hrep [_ E]%commit_ok. eapply committed_home; [done..|apply at_one_tick|done]. Qed.

(** A commit makes of the world what its diffs say: while the rows are of the open tick, a commit
    that succeeds leaves a store that represents the world its pending diffs lead to in order (so
    the world admits every one of them), and one that fails leaves every version as it was. *)
Theorem commit_updates_world M (j : SJournal) W :
  j_phase j = PhaseOpen -> commit_guard (store_of j) = Ok tt ->
  store_rep M (j_current_tick j) (store_of j) W ->
  match journal_commit diff_json j with
  | (j', Ok _) => exists W', world_apply_all M W (j_pending_diffs j) = Some W'
                  /\ store_rep M (j_current_tick j) (store_of j') W'
  | (j', Err _) => store_view (store_of j') = store_view (store_of j)
  end.
Proof.
  intros Hph Hg Hrep. destruct (journal_commit diff_json j) as [j' [r|e]] eqn:E.
  - by apply (committed_world M j j' r).
  - pose proof (journal_commit_spec diff_json j Hph) as H. rewrite E in H.
    destruct H as [(m & Hm & _)|Hf]; [done|]. destruct Hf as ((saved & s' & Hs & Hafter & Hst) & _).
    change (j_store j') with (store_of j') in Hst. rewrite Hst.
    exact (st_restore_saved (StoreLaws := arrow_store_laws ver_order group_order name_order Ho) _ _ _ _ _ Hs Hafter).
Qed.

(** *** Publication *)

(** The view of a table a commit at a tick publishes: the batches of that tick alone. *)
Definition published (q : QueryEngine) (s : ArrowStore V) (tick : Tick) (name : string) : option TableReadView :=
  t ← as_tables s !! name; spec ← sr_tables (qn_registry q) !! name;
  Some (table_read_view_new name tick (default [] (vt_versions t !! tick)) spec (Some (vt_position_map t))).

Lemma ingest_tables_staged (s : ArrowStore V) tick (q q' : QueryEngine) st names :
  ingest_tables (SO := journal_store) s tick q names = (q', Ok tt) ->
  qn_pending q = Some st -> (pi_tick st = None \/ pi_tick st = Some tick) ->
  exists st', q' = with_pending_ingest q (Some st') /\ (pi_tick st' = None \/ pi_tick st' = Some tick)
  /\ (forall name, name ∈ names -> is_Some (published q s tick name))
  /\ forall name, pi_views st' !! name
                  = if decide (name ∈ names) then published q s tick name else pi_views st !! name.
Proof.
  revert q st. induction names as [|name names IH]; intros q st.
  { intros [= <-] Hp Ht. exists st. split_and!; [by destruct q; simpl in *; subst|done|by intros ? ?%elem_of_nil|].
    intros k. by rewrite decide_False by apply not_elem_of_nil. }
  cbn [ingest_tables]. intros E Hp Ht. simpl in E. unfold get_table, get_table_batches, get_entry in E.
  destruct (as_tables s !! name) as [t|] eqn:Et; [|done]. cbn [ok_or map_ok map_err] in E.
  unfold engine_ingest_snapshot in E. destruct (tick_as_u64 tick =? u64_max); [done|].
  unfold table_schema, registry_get in E. destruct (sr_tables (qn_registry q) !! name) as [spec|] eqn:Es; [|done].
  cbn [ok_or map_err] in E. rewrite Hp in E.
  set (view := table_read_view_new name tick _ spec _) in E.
  assert (Hpub : published q s tick name = Some view) by (unfold published; by rewrite Et, Es).
  assert (E' : ingest_tables (SO := journal_store) s tick
      (with_pending_ingest q (Some (mkPending (Some tick) (<[name := view]> (pi_views st))))) names = (q', Ok tt)).
  { destruct Ht as [Ht|Ht]; rewrite Ht in E; [exact E|]. rewrite bool_decide_false in E by (intros Hne; by apply Hne). exact E. }
  destruct (IH _ _ E' eq_refl) as (st' & -> & Ht' & Hin & Hv); [by right|].
  exists st'. split_and!; [done|done| |].
  - intros k [->|Hk]%elem_of_cons; [by eexists|by apply Hin].
  - intros k. rewrite Hv. simpl. destruct (decide (k ∈ names)) as [Hk|Hk].
    + by rewrite decide_True by by right.
    + destruct (decide (k = name)) as [->|Hne].
      * rewrite lookup_insert_eq, decide_True by left. done.
      * rewrite lookup_insert_ne by done. by rewrite decide_False by (by rewrite elem_of_cons; intros []).
Qed.

Definition published_cache (q : QueryEngine) (s : ArrowStore V) (tick : Tick) : gmap string TableReadView :=
  map_imap (fun name _ => published q s tick name) (as_tables s).

(** The engine once the tick is published. *)
Definition engine_after (q : QueryEngine) (s : ArrowStore V) (tick : Tick) : QueryEngine :=
  mkEngine (qn_registry q) (qn_inspector q) (tick_as_u64 tick) (published_cache q s tick) (Some (snapshot_of s tick)) None.

Lemma ordered_names (m : gmap string VersionedTable) name : name ∈ name_order m <-> is_Some (m !! name).
Proof.
  rewrite Hn, list_elem_of_fmap. split.
  - intros ([k t] & -> & Hk%elem_of_map_to_list). by exists t.
  - intros [t Hk]. exists (name, t). split; [done|]. by apply elem_of_map_to_list.
Qed.

Lemma ingest_tables_total (s : ArrowStore V) tick names : forall q st,
  qn_pending q = Some st -> (pi_tick st = None \/ pi_tick st = Some tick) -> tick_as_u64 tick <> u64_max ->
  (forall name, name ∈ names -> is_Some (published q s tick name)) ->
  exists q', ingest_tables (SO := journal_store) s tick q names = (q', Ok tt).
Proof.
  induction names as [|name names IH]; intros q st Hp Ht Hmax Hpub; [by eexists|].
  cbn [ingest_tables]. simpl. unfold get_table, get_table_batches, get_entry.
  destruct (Hpub name) as [view Hv]; [left|]. unfold published in Hv.
  destruct (as_tables s !! name) as [t|] eqn:Et; [|done]. cbn [ok_or map_ok map_err mbind option_bind] in *.
  unfold engine_ingest_snapshot. rewrite (proj2 (Z.eqb_neq _ _) Hmax). unfold table_schema, registry_get.
  destruct (sr_tables (qn_registry q) !! name) as [spec|] eqn:Es; [|done]. cbn [ok_or map_err]. rewrite Hp.
  assert (Hgo : exists q', ingest_tables (SO := journal_store) s tick
      (with_pending_ingest q (Some (mkPending (Some tick) (<[name := table_read_view_new name tick
         (default [] (vt_versions t !! tick)) spec (Some (vt_position_map t))]> (pi_views st))))) names = (q', Ok tt)).
  { eapply IH; [done|by right|done|]. intros k Hk. apply Hpub. by right. }
  destruct Ht as [->| ->]; [exact Hgo|]. rewrite bool_decide_false by (intros Hne; by apply Hne). exact Hgo.
Qed.

(** Publishing succeeds exactly when the tick is not the last and every table has a schema. *)
Definition publishable (q : QueryEngine) (s : ArrowStore V) (tick : Tick) : Prop :=
  tick_as_u64 tick <> u64_max /\ forall name, is_Some (as_tables s !! name) -> is_Some (published q s tick name).

Lemma published_none (q : QueryEngine) (s : ArrowStore V) tick name :
  as_tables s !! name = None -> published q s tick name = None.
Proof. intros H. unfold published. by rewrite H. Qed.

Lemma staged_cache (q : QueryEngine) (s : ArrowStore V) tick st :
  (forall name, pi_views st !! name = if decide (name ∈ name_order (as_tables s)) then published q s tick name else None) ->
  pi_views st = published_cache q s tick.
Proof.
  intros Hv. apply map_eq. intros name. rewrite Hv. unfold published_cache. rewrite map_lookup_imap.
  destruct (decide (name ∈ name_order (as_tables s))) as [Hin|Hin]; rewrite ordered_names in Hin.
  - destruct Hin as [t ->]. done.
  - apply eq_None_not_Some in Hin as ->. done.
Qed.

Lemma publish_exact (s : ArrowStore V) tick q :
  qn_pending q = None -> as_snapshots s !! tick = Some (snapshot_of s tick) ->
  match journal_publish (SO := journal_store) (s : Store) tick (Some (with_pending_ingest q (Some pending_new)) : option Query) with
  | (qe, Ok _) => qe = Some (engine_after q s tick) /\ publishable q s tick
  | (_, Err _) => ~ publishable q s tick
  end.
Proof.
  intros Ep Hsnap. unfold journal_publish. simpl. unfold get_snapshot. rewrite Hsnap. cbn [ok_or map_err].
  set (q0 := with_pending_ingest q (Some pending_new)). cbn [ws_tables snapshot_of].
  destruct (ingest_tables (SO := journal_store) _ _ _ _) as [q1 [[]|e]] eqn:Ei.
  2: { intros [Hmax Hpub]. destruct (ingest_tables_total s tick (name_order (as_tables s)) q0 pending_new) as [q' E'];
         [done|by left|done|intros name Hin; apply Hpub; by apply ordered_names|]. simpl in Ei. congruence. }
  destruct (ingest_tables_staged _ _ _ _ _ _ Ei eq_refl (or_introl eq_refl)) as (st & -> & Ht & Hin & Hv).
  unfold store_world_snapshot. cbn [ws_tick snapshot_of].
  destruct (Z.eqb_spec (tick_as_u64 tick) u64_max) as [Hm|Hmax]; [by intros [? _]|].
  assert (Hpub : publishable q s tick) by (split; [done|]; intros name Hname; apply Hin; by apply ordered_names).
  assert (Hc : pi_views st = published_cache q s tick).
  { apply staged_cache. intros name. rewrite Hv. destruct (decide _); [done|]. apply lookup_empty. }
  destruct q. simpl in Ep. subst. simpl.
  destruct Ht as [->| ->]; simpl; [|rewrite bool_decide_false by (intros Hne; by apply Hne); simpl]; by rewrite Hc.
Qed.

(** What the engine is after a commit at a tick over a store. *)
Definition engine_published (q q' : QueryEngine) (s : ArrowStore V) (tick : Tick) : Prop :=
  qn_pending q' = None /\ qn_latest_tick q' = tick_as_u64 tick /\ tick_as_u64 tick <> u64_max
  /\ qn_latest_snapshot q' = Some (snapshot_of s tick) /\ qn_registry q' = qn_registry q
  /\ forall name, qn_view_cache q' !! name = published q s tick name
                  /\ (is_Some (as_tables s !! name) -> is_Some (published q s tick name)).

Lemma after_published (q : QueryEngine) (s : ArrowStore V) tick : publishable q s tick ->
  engine_published q (engine_after q s tick) s tick.
Proof.
  intros [Hmax Hpub]. split_and!; try done. intros name. split; [|apply Hpub].
  cbn [qn_view_cache engine_after]. unfold published_cache. rewrite map_lookup_imap.
  destruct (as_tables s !! name) eqn:E; [done|]. symmetry. by apply published_none.
Qed.

Lemma commit_engine_after (j j' : SJournal) r q :
  commit_succeeded diff_json j j' r -> engine_of j = Some q ->
  qn_pending q = None /\ engine_of j' = Some (engine_after q (store_of j') (j_current_tick j))
  /\ publishable q (store_of j') (j_current_tick j).
Proof.
  intros E Hq. destruct (committed_store j j' r E) as (_ & _ & _ & _ & Hsnap).
  destruct E as (_ & _ & _ & _ & _ & _ & _ & _ & s1 & _ & _ & qe1 & rb & Hb & Hpub).
  change (j_query_engine j) with (engine_of j) in Hb. rewrite Hq in Hb.
  unfold begin_ingest_opt in Hb. simpl in Hb. unfold begin_ingest in Hb.
  destruct (qn_pending q) eqn:Ep; [done|]. injection Hb as <- _.
  pose proof (publish_exact (store_of j') (j_current_tick j) q Ep Hsnap) as H.
  change (j_store j') with (store_of j') in Hpub. rewrite Hpub in H. destruct H as [H1 H2]. by split_and!.
Qed.

Lemma commit_engine (j j' : SJournal) r q :
  j_phase j = PhaseOpen -> journal_commit diff_json j = (j', Ok r) -> engine_of j = Some q ->
  exists q', engine_of j' = Some q' /\ engine_published q q' (store_of j') (j_current_tick j).
Proof.
  intros _ [_ E]%commit_ok Hq. destruct (commit_engine_after j j' r q E Hq) as (_ & Hq' & Hpub).
  eexists. split; [exact Hq'|]. by apply after_published.
Qed.

(** Where every table of the layout has a schema, publishing succeeds. *)
Lemma publish_admitted M H (j : SJournal) (s : ArrowStore V) W :
  (forall q, engine_of j = Some q -> qn_pending q = None /\ tick_as_u64 (j_current_tick j) <> u64_max
             /\ forall name, is_Some (M !! name) -> is_Some (sr_tables (qn_registry q) !! name)) ->
  store_rep_home M H s W -> as_snapshots s !! j_current_tick j = Some (snapshot_of s (j_current_tick j)) ->
  exists qe1 rb qe2, begin_ingest_opt (engine_of j) = (qe1, Ok rb)
  /\ journal_publish (SO := journal_store) (s : Store) (j_current_tick j) qe1 = (qe2, Ok tt).
Proof.
  intros Hq Hrep Hsnap. destruct (engine_of j) as [q|] eqn:Eq; [|by eexists _, _, _].
  destruct (Hq q eq_refl) as (Hp & Hmax & Hall).
  assert (Hpub : publishable q s (j_current_tick j)).
  { split; [done|]. intros name [t Ht]. specialize (Hrep name). rewrite Ht in Hrep.
    destruct (M !! name) as [meta|] eqn:Em; [|done]. destruct (Hall name) as [spec Hspec]; [by eexists|].
    unfold published. rewrite Ht. cbn [mbind option_bind]. rewrite Hspec. by eexists. }
  pose proof (publish_exact s (j_current_tick j) q Hp Hsnap) as H0.
  match type of H0 with match ?p with _ => _ end => destruct p as [qe2 [[]|e]] eqn:E end; [|by destruct H0].
  eexists _, _, qe2. split; [|exact E]. unfold begin_ingest_opt. cbn. unfold begin_ingest. by rewrite Hp.
Qed.

(** A commit of diffs the world admits succeeds: the tables have a schema, the tick is not the last,
    every diff prints, and the save journal accepts the record. *)
Lemma commit_admitted M H (j : SJournal) W W' h :
  j_phase j = PhaseOpen -> commit_guard (store_of j) = Ok tt -> store_rep_home M H (store_of j) W ->
  forallb (at_home H (j_current_tick j)) (j_pending_diffs j) = true -> world_apply_all M W (j_pending_diffs j) = Some W' ->
  diffs_hash diff_json (j_pending_diffs j) = Ok h ->
  (forall q, engine_of j = Some q -> qn_pending q = None /\ tick_as_u64 (j_current_tick j) <> u64_max
             /\ forall name, is_Some (M !! name) -> is_Some (sr_tables (qn_registry q) !! name)) ->
  (exists sj, append_opt (j_save_journal j) (commit_record j h) = (sj, Ok tt)) ->
  exists j' r, journal_commit diff_json j = (j', Ok r).
Proof.
  intros Hph Hg Hrep Hds HW Hh Hq [sj Happ].
  pose proof (apply_loop_home ver_order group_order Ho M H (j_current_tick j)
    (versions_of (store_of j) (diff_table <$> j_pending_diffs j)) (store_of j) W (j_pending_diffs j) Hrep Hds) as Ha.
  rewrite HW in Ha. destruct Ha as (s1 & Ha & Hrep1).
  assert (Happly : apply_diffs ver_order group_order (store_of j) (j_current_tick j) (j_pending_diffs j) = Some (s1, Ok tt))
    by (unfold apply_diffs; by rewrite Hg).
  assert (Hg1 : commit_guard s1 = Ok tt).
  { destruct (apply_diffs_spec ver_order group_order (store_of j) (j_current_tick j) (j_pending_diffs j) Ho)
      as (s1' & r1 & E1 & Ht & _). rewrite Happly in E1. injection E1 as <- _.
    apply touched_schema in Ht as [Hlife _]. unfold commit_guard in *. by rewrite Hlife. }
  set (s2 := (do_generate_snapshot s1 (j_current_tick j)).1).
  assert (Hgen : @st_generate_snapshot V journal_store s1 (j_current_tick j) = (s2, Ok tt))
    by (cbn; unfold generate_snapshot; by rewrite Hg1).
  assert (Hap : @st_apply_diffs V journal_store (store_of j) (j_current_tick j) (j_pending_diffs j) = (s1, Ok tt))
    by (cbn; by rewrite Happly).
  destruct (publish_admitted M H j s2 W') as (qe1 & rb & qe2 & Hb & Hp); [done|by apply (store_rep_tables M H s1)|apply lookup_insert_eq|].
  eexists _, _. by apply (commit_runs diff_json j _ s1 s2 h qe1 rb qe2 sj Hph eq_refl).
Qed.

(** *** Reading back *)

Lemma lookup_published q q' (s : ArrowStore V) tick name row v :
  engine_published q q' s tick -> published q s tick name = Some v ->
  lookup_row q' name row
  = let? pos := ok_or (rpm_position_of (tv_position_map v) row)
      (QInvalidQuery ("row " +:+ row_id_debug row +:+ " not found in table '" +:+ name +:+ "'")) in
    Ok (mkLookupView (mkLookup row pos.1 pos.2) v).
Proof.
  intros (_ & Ht & Hmax & _ & _ & Hcache) Hpub. destruct (Hcache name) as [Hc _]. rewrite Hpub in Hc.
  unfold lookup_row, engine_latest_tick. rewrite Ht. apply Z.eqb_neq in Hmax. rewrite Hmax. cbn [ok_or].
  assert (Hname : tv_table_name v = name).
  { unfold published in Hpub. destruct (as_tables s !! name); [|done]. simpl in Hpub.
    destruct (sr_tables (qn_registry q) !! name); [|done]. by injection Hpub as <-. }
  unfold read_single_table, engine_read, engine_latest_tick. rewrite Ht, Hmax. destruct tick as [tick]. simpl.
  rewrite (bool_decide_false (Some _ <> Some _)) by (intros H; by apply H). rewrite andb_false_r.
  unfold read_views. simpl. rewrite Hc. simpl. unfold response_get, response_insert. simpl. rewrite Hname.
  by rewrite lookup_insert_eq.
Qed.

(** What the engine answers for a row of a table the store table_represents. *)
Lemma lookup_represented q q' (s : ArrowStore V) tick name t F rows row :
  engine_published q q' s tick -> as_tables s !! name = Some t -> table_represents F tick t rows ->
  Z.of_nat (total_rows (default [] (vt_versions t !! tick))) <= u64_max ->
  match rows !! row_id_as_u64 row with
  | Some cells => exists lv, lookup_row q' name row = Ok lv /\ lookup_cells lv = Some cells /\ reads_as lv F cells
  | None => exists e, lookup_row q' name row = Err e
  end.
Proof.
  intros Hpub Ht (bs & Hv & Hr) Hsize. pose proof Hpub as (_ & _ & _ & _ & _ & Hcache).
  destruct (Hcache name) as [_ Hsome]. destruct Hsome as [v Hv']; [by rewrite Ht|].
  pose proof (lookup_published q q' s tick name row v Hpub Hv') as Hl.
  assert (Hbs : default [] (vt_versions t !! tick) = bs)
    by (destruct Hv as [->|[-> ->]]; [by rewrite lookup_singleton_eq|by rewrite lookup_empty]).
  rewrite Hbs in Hsize. unfold published in Hv'. rewrite Ht in Hv'. cbn [mbind option_bind] in Hv'. rewrite Hbs in Hv'.
  destruct (sr_tables (qn_registry q) !! name) as [spec|]; [|done]. injection Hv' as Hv'.
  assert (Hidx : rpm_indices (vt_position_map t)) by (intros id p Hp; by apply (rep_positive _ _ _ _ Hr id)).
  assert (Hrow : row_of_id (tv_batches v) (tv_position_map v) row = rows !! row_id_as_u64 row).
  { rewrite <- Hv'. rewrite view_row_lookup by done. rewrite (rep_rows _ _ _ _ Hr). done. }
  destruct (rows !! row_id_as_u64 row) as [cells|] eqn:Ec.
  - unfold row_of_id in Hrow. destruct (rpm_position_of (tv_position_map v) row) as [pos|] eqn:Ep; [|done].
    cbn [ok_or] in Hl. eexists. split; [exact Hl|]. split; [exact Hrow|]. apply lookup_reads_as; [|exact Hrow].
    cbn [lv_view]. rewrite <- Hv'. apply view_schemas. eapply Forall_impl; [apply (rep_batches _ _ _ _ Hr)|]. by intros b [_ ?].
  - rewrite <- Hv' in Hl. rewrite view_no_position in Hl; [rewrite Hl; by eexists|]. unfold rpm_position_of. by apply (rep_none _ _ _ _ _ Hr).
Qed.

(** No typed read of the looked up row succeeds. *)
Definition unreadable (lv : RowLookupView) : Prop :=
  forall A (get : ColumnView -> nat -> QueryResult (option A)) column, is_ok (lookup_get get lv column) = false.

(** What the engine answers for a row of a table that has no version of the tick published. *)
Lemma lookup_unpublished q q' (s : ArrowStore V) tick name t F home rows row :
  engine_published q q' s tick -> as_tables s !! name = Some t -> table_represents F home t rows -> home <> tick ->
  match rows !! row_id_as_u64 row with
  | Some _ => exists lv, lookup_row q' name row = Ok lv /\ unreadable lv
  | None => exists e, lookup_row q' name row = Err e
  end.
Proof.
  intros Hpub Ht (bs & Hv & Hr) Hne. pose proof Hpub as (_ & _ & _ & _ & _ & Hcache).
  destruct (Hcache name) as [_ Hsome]. destruct Hsome as [v Hv']; [by rewrite Ht|].
  rewrite (lookup_published q q' s tick name row v Hpub Hv').
  assert (Hno : vt_versions t !! tick = None)
    by (destruct Hv as [->|[-> _]]; [by apply lookup_singleton_ne|apply lookup_empty]).
  unfold published in Hv'. rewrite Ht in Hv'. cbn [mbind option_bind] in Hv'. rewrite Hno in Hv'.
  destruct (sr_tables (qn_registry q) !! name) as [spec|]; [|done]. injection Hv' as <-.
  change (rpm_position_of _ row) with (rpm_entries (vt_position_map t) !! row_id_as_u64 row).
  destruct (rows !! row_id_as_u64 row) as [cells|] eqn:Ec.
  - destruct (rpm_entries (vt_position_map t) !! row_id_as_u64 row) as [pos|] eqn:Ep.
    + eexists. split; [done|]. by intros A get column.
    + apply (rep_none _ _ _ _ _ Hr) in Ep. congruence.
  - rewrite (proj1 (rep_none _ _ _ _ _ Hr) Ec). by eexists.
Qed.

(** C2: What is read after a commit, while the rows of each table were inserted under one tick, its
    home, and the commit inserts only into tables at home in the open tick. After it succeeds,
    looking up any row of a table at home in the committed tick gives exactly the row the diffs
    lead to and its typed reads give the cells; a row of a table at home in an earlier tick is
    found, if it is there, but no typed read of it succeeds, whether or not the commit changed it;
    and a row that is not in the world, or was deleted, is not found. *)
Theorem commit_then_read M H (j j' : SJournal) r W q :
  j_phase j = PhaseOpen -> commit_guard (store_of j) = Ok tt ->
  store_rep_home M H (store_of j) W -> forallb (at_home H (j_current_tick j)) (j_pending_diffs j) = true ->
  engine_of j = Some q ->
  journal_commit diff_json j = (j', Ok r) ->
  (forall name t, as_tables (store_of j') !! name = Some t ->
     Z.of_nat (total_rows (default [] (vt_versions t !! j_current_tick j))) <= u64_max) ->
  exists W' q', world_apply_all M W (j_pending_diffs j) = Some W' /\ engine_of j' = Some q'
  /\ forall name meta rows row, M !! name = Some meta -> W' !! name = Some rows ->
      match rows !! row_id_as_u64 row with
      | Some cells => exists lv, lookup_row q' name row = Ok lv
                      /\ if decide (H name = j_current_tick j)
                         then lookup_cells lv = Some cells /\ reads_as lv meta.2 cells
                         else unreadable lv
      | None => exists e, lookup_row q' name row = Err e
      end.
Proof.
  intros Hph Hg Hrep Hds Hq E Hsize.
  destruct (committed_home M H j j' r W Hg Hrep Hds (proj2 (commit_ok _ _ _ _ E))) as (W' & HW & Hrep').
  destruct (commit_engine j j' r q Hph E Hq) as (q' & Hq' & Hpub).
  exists W', q'. split; [done|]. split; [done|]. intros name meta rows row Hm Hw. specialize (Hrep' name).
  rewrite Hm, Hw in Hrep'. destruct (as_tables (store_of j') !! name) as [t|] eqn:Et; [|done].
  destruct Hrep' as (spec & _ & _ & _ & Hr). destruct (decide (H name = j_current_tick j)) as [Hh|Hh].
  - rewrite Hh in Hr. eapply lookup_represented; [done|done|done|]. by eapply Hsize.
  - by eapply lookup_unpublished.
Qed.

(** A commit publishes what its tick wrote and nothing else: of a table that has rows but no version
    of the committed tick, no typed read of any row succeeds afterwards. *)
Theorem untouched_table_unreadable (j j' : SJournal) r q q' name t row :
  j_phase j = PhaseOpen -> engine_of j = Some q -> journal_commit diff_json j = (j', Ok r) -> engine_of j' = Some q' ->
  as_tables (store_of j') !! name = Some t -> vt_versions t !! j_current_tick j = None ->
  match lookup_row q' name row with
  | Err _ => True
  | Ok lv => forall A (get : ColumnView -> nat -> QueryResult (option A)) column,
               is_ok (lookup_get get lv column) = false
  end.
Proof.
  intros Hph Hq E Hq' Ht Hno. destruct (commit_engine j j' r q Hph E Hq) as (q1 & Hq1 & Hpub).
  rewrite Hq' in Hq1. injection Hq1 as <-. pose proof Hpub as (_ & _ & _ & _ & _ & Hcache).
  destruct (Hcache name) as [_ Hsome]. destruct Hsome as [v Hv]; [by rewrite Ht|].
  rewrite (lookup_published q q' _ _ name row v Hpub Hv). destruct (rpm_position_of _ _) as [pos|]; [|done].
  cbn [ok_or]. intros A get column. unfold lookup_get, lookup_column_view. cbn [lv_view].
  assert (tv_batches v = []) as ->; [|done]. unfold published in Hv. rewrite Ht in Hv. simpl in Hv.
  destruct (sr_tables (qn_registry q) !! name); [|done]. simpl in Hv. injection Hv as <-. by rewrite Hno.
Qed.
End commits.
