(* ===== verification/RuleReads.v ===== *)
(** * RuleReads: rules reading the query engine

    The query engine as what the rule evaluator reads ([RuleQuery]), and what a column path then
    evaluates to for each column type the store can hold: of the seven types only four can be read. *)

From Stdlib Require Import Ascii String.
From stdpp Require Import base gmap strings list fin_maps.
From Stdlib Require Import ZArith Lia SpecFloat.
From S2P Require Import Prelude RustStr CoreTypes FixedPoint SchemaTables Relations Registry Journal RuleCore RuleCache Float64.
From S2P Require Import Rules Arrow ArrowVec ArrowBatch ArrowBatchFacts StoreIndex ArrowStore WorldView ReadViews QueryEngine.

Section reads.
Context `{AO : ArrowOps} `{AL : !ArrowLaws} `{CO : !ConcatOps} {FP : FloatPlatform}.
Context {V : Type} {JO : JsonOps V} {SO : StoreOps V} {QO : QueryOps V} {VO : SaveOps V}.

#[export] Instance engine_rule_query : RuleQuery QueryEngine := {|
  RowView := RowLookupView;
  TableView := TableReadView;
  rq_registry q := Ok (qn_registry q);
  rq_column_kind q table column := map_ok cv_kind (column_view q table column);
  rq_lookup_row := lookup_row;
  rq_read_single_table := read_single_table;
  row_get_i64 := lookup_get_i64;
  row_get_f64 := lookup_get_f64;
  row_get_bool := lookup_get_bool;
  row_get_string := lookup_get_string;
  view_position_map := tv_position_map |}.

Lemma columns_map_lookup cols name v :
  NoDup cols.*1 -> (name, v) ∈ cols -> columns_map cols !! name = Some v.
Proof.
  unfold columns_map. induction cols as [|p cols IH] using rev_ind; intros Hnd Hin; [by apply elem_of_nil in Hin|].
  rewrite foldl_app. cbn [foldl]. rewrite fmap_app in Hnd. apply NoDup_app in Hnd as (Hnd & Hne & _).
  apply elem_of_app in Hin as [Hin|Hin].
  - rewrite lookup_insert_ne; [by apply IH|]. intros He. apply (Hne name); [|simpl; rewrite He; left].
    apply list_elem_of_fmap. by exists (name, v).
  - apply list_elem_of_singleton in Hin as <-. apply lookup_insert_eq.
Qed.

(** A cached view of a non-empty list of batches of one schema without repeated names. *)
Record uniform_view (q : QueryEngine) (table : string) (F : list Field) (v : TableReadView) : Prop := {
  uv_cached : qn_view_cache q !! table = Some v;
  uv_batches : tv_batches v <> [];
  uv_schema : Forall (fun b => rb_schema b = F) (tv_batches v);
  uv_names : NoDup (fld_name <$> F) }.

Lemma column_kind_uniform q table F v column i f :
  uniform_view q table F v -> schema_index_of F column = Ok i -> F !! i = Some f ->
  exists cv, column_view q table column = Ok cv /\ arr_data_type (cv_array cv) = fld_data_type f.
Proof.
  intros [Hc Hb Hs Hn] Hi Hf. unfold column_view, cached_view. rewrite Hc. cbn [ok_or].
  unfold first_batch_columns, first_batch. destruct (tv_batches v) as [|b bs]; [done|]. cbn [head ok_or].
  apply Forall_cons_1 in Hs as [Hs _]. destruct (rb_columns_ok b) as [_ Hcols]. rewrite Hs in Hcols.
  destruct (Forall2_lookup_l _ _ _ _ _ Hcols Hf) as (a & Ha & Hty & _).
  apply schema_index_of_ok in Hi as (f' & Hf' & Hname). assert (f' = f) as -> by congruence.
  exists (mkColumnView a column). split; [|done]. unfold named_views, named_columns. rewrite Hs.
  rewrite (columns_map_lookup _ column (mkColumnView a column)); [done| |].
  - assert (Hfst : ((fun p => (p.1, mkColumnView p.2 p.1)) <$> zip (fld_name <$> F) (rb_columns b)).*1 = fld_name <$> F).
    { rewrite <- list_fmap_compose.
      transitivity ((zip (fld_name <$> F) (rb_columns b)).*1); [by apply list_fmap_ext; intros ? [] _|].
      apply fst_zip. rewrite length_fmap. apply Forall2_length in Hcols. lia. }
    by rewrite Hfst.
  - apply list_elem_of_fmap. exists (column, a). split; [done|]. apply list_elem_of_lookup. exists i.
    apply lookup_zip_with_Some. exists column, a. rewrite list_lookup_fmap, Hf. simpl. by rewrite Hname.
Qed.

(** What a cell of a type evaluates to, before modifiers; an error for a type that cannot be read. *)
Definition cell_value (ev : Evaluator QueryEngine V) (path : ColumnPath) (dt : DataType) (c : option Scalar)
  : option (RuleResult EvalValue) :=
  let aggregate fp := map_ok VFixedPoint (modifiers_aggregate (ev_modifiers ev) (path_table path) (path_column path) fp) in
  match dt with
  | DInt64 => Some (aggregate (fp_new (default 0 (c ≫= scalar_int)) 0))
  | DFloat64 =>
      Some (let? fp := map_err (fun e => REvaluation (core_error_text e))
              (fp_try_from_f64 (default (S754_zero false) (c ≫= scalar_float)) 2) in aggregate fp)
  | DBoolean => Some (Ok (VBool (default false (c ≫= scalar_bool))))
  | DUtf8 => Some (Ok (VString (default "" (c ≫= scalar_text))))
  | DInt32 | DUInt64 | DLargeUtf8 | DOther _ => None
  end.

(** C33: A column path evaluates to the cell of the scope's row: an integer as it is, a float rounded to
    two decimals, then modified; a null as zero, false or the empty string. Only columns of type
    [Int64], [Float64], [Boolean] and [Utf8] can be read: over a [UInt64], [Int32] or [LargeUtf8]
    column, which the store has as types, every evaluation is an error. *)
Theorem evaluate_column_reads (ev : Evaluator QueryEngine V) (path : ColumnPath) F v lv cells i f c :
  uniform_view (ev_query_engine ev) (path_table path) F v ->
  lookup_row (ev_query_engine ev) (path_table path) (sc_row (ev_scope ev)) = Ok lv ->
  lv_view lv = v -> lookup_cells lv = Some cells ->
  schema_index_of F (path_column path) = Ok i -> F !! i = Some f -> cells !! i = Some c ->
  match cell_value ev path (fld_data_type f) c with
  | Some r => evaluate_column ev path = r
  | None => exists e, evaluate_column ev path = Err e
  end.
Proof.
  intros Huv Hl <- Hcells Hi Hf Hc. destruct (column_kind_uniform _ _ _ _ _ _ _ Huv Hi Hf) as (cv & Hcv & Hty).
  assert (Hget : forall A dt (proj : Scalar -> option A), lookup_get (cv_get dt proj) lv (path_column path)
    = if bool_decide (fld_data_type f = dt) then Ok (c ≫= proj)
      else Err (QTypeMismatch (path_column path) (array_type_name dt) (data_type_debug (fld_data_type f)))).
  { intros A dt proj. eapply lookup_get_cell; [|done..]. apply (uv_schema _ _ _ _ Huv). }
  unfold evaluate_column. cbn [rq_column_kind rq_lookup_row row_get_i64 row_get_f64 row_get_bool row_get_string engine_rule_query].
  rewrite Hcv, Hl. cbn [map_ok map_err]. unfold cv_kind. rewrite Hty.
  unfold lookup_get_i64, lookup_get_f64, lookup_get_bool, lookup_get_string, cv_get_i64, cv_get_f64, cv_get_bool, cv_get_string.
  destruct (fld_data_type f) as [| | | | | | |n] eqn:E; rewrite ?Hget; cbn [cell_value]; try done; try (by eexists).
  destruct (String.eqb n "Null"); by eexists.
Qed.
End reads.
