(* ===== verification/StoreSamples.v ===== *)
(** * StoreSamples: a store of two tables, and the theorems at work on it

    Arrays are vectors and JSON values trees ([ArrowVec.v]); hash maps yield their entries in the
    order of [map_to_list]. *)

From Stdlib Require Import Ascii String.
From stdpp Require Import base gmap strings list fin_maps sorting.
From Stdlib Require Import ZArith Lia.
From S2P Require Import Prelude RustStr CoreTypes SchemaTables Journal RuleCore Arrow ArrowVec ArrowBatch.
From S2P Require Import ArrowBatchFacts StoreIndex ArrowStore StoreFacts StoreRows StoreRuns.

#[export] Instance SampleText : FloatText := {| show_f64 _ := "1.5" |}.

Abbreviation VStore := (ArrowStore Json).

Definition map_orders {K A} `{Countable K} (m : gmap K A) : list (K * A) := map_to_list m.

Lemma map_orders_groups : orders_groups map_orders.
Proof. intros m. reflexivity. Qed.

Abbreviation vapply := (apply_diffs map_orders map_orders).

(** A table of armies: a key, and a size that may be null. *)
Definition army_spec : TableSpec :=
  let cols := [mkColumn "id" SemId "u64" false; mkColumn "size" SemQuantity "i64" true] in
  table_rebuild_index (mkTable "army" cols ∅ Authority).

Definition army_row (id size : Z) : gmap string Json := {["id" := JInt id; "size" := JInt size]}.

Definition army_fields : list Field := [mkField "id" DUInt64 false; mkField "size" DInt64 true].

(** The store of the examples, simulating, with the table and no row. *)
Definition sample_store : VStore :=
  default store_new
    (to_option (let? (s, _) := create_table store_new army_spec Patchable in advance_to_simulation s)).

Definition store_after_diffs (tick : Z) (ds : list (Diff Json)) (s : VStore) : VStore :=
  from_option fst s (vapply s (mkTick tick) ds).

Definition outcome {A B} (r : option (A * StoreResult B)) : option bool := (fun p => is_ok p.2) <$> r.

Lemma apply_diffs_atomic_witness :
  let ds := [Insert "army" (mkRowId 1) (army_row 1 10); Delete "army" (mkRowId 7)] in
  exists s' r, vapply sample_store (mkTick 1) ds = Some (s', r) /\ is_ok r = false
  /\ store_view s' = store_view sample_store.
Proof.
  intros ds. pose proof (apply_diffs_atomic map_orders map_orders sample_store (mkTick 1) ds map_orders_groups) as H.
  assert (Ho : outcome (vapply sample_store (mkTick 1) ds) = Some false) by (vm_compute; reflexivity).
  destruct (vapply sample_store (mkTick 1) ds) as [[s' r]|]; [|destruct H].
  exists s', r. injection Ho as Ho. split; [reflexivity|]. split; [exact Ho|]. apply H, Ho.
Defined.

(** A row inserted second; the fourth diff fails. The three retries come at later ticks. *)
Lemma failed_insert_blocks_retry_witness :
  let batch := [Insert "army" (mkRowId 2) (army_row 2 20); Insert "army" (mkRowId 1) (army_row 1 10);
                Delete "army" (mkRowId 2); Delete "army" (mkRowId 7)] in
  exists s' e rs, vapply sample_store (mkTick 1) batch = Some (s', Err e)
  /\ retries map_orders map_orders s' batch (mkTick <$> [1; 2; 3]) = Some rs /\ is_ok <$> rs = [false; false; false].
Proof.
  intros batch.
  assert (Ho : outcome (vapply sample_store (mkTick 1) (take 2 batch)) = Some true) by (vm_compute; reflexivity).
  destruct (vapply sample_store (mkTick 1) (take 2 batch)) as [[s1 [[]|]]|] eqn:E1; try discriminate Ho. clear Ho.
  assert (Ho : outcome (vapply sample_store (mkTick 1) batch) = Some false) by (vm_compute; reflexivity).
  destruct (vapply sample_store (mkTick 1) batch) as [[s2 [|e]]|] eqn:E2; try discriminate Ho.
  destruct (failed_insert_blocks_retry map_orders map_orders sample_store s1 s2 (mkTick 1) "army" (mkRowId 1)
    (army_row 1 10) [Insert "army" (mkRowId 2) (army_row 2 20)] [Delete "army" (mkRowId 2); Delete "army" (mkRowId 7)] e
    (mkTick <$> [1; 2; 3]) map_orders_groups) as (_ & _ & rs & H & Hl & Hf); [reflexivity|exact E1|exact E2|].
  exists s2, e, rs. split; [reflexivity|]. split; [exact H|].
  destruct rs as [|r1 [|r2 [|r3 [|r4 rs]]]]; try discriminate Hl.
  inversion_clear Hf as [|? ? R1 Hf']. inversion_clear Hf' as [|? ? R2 Hf'']. inversion_clear Hf'' as [|? ? R3 _].
  cbn. by rewrite R1, R2, R3.
Defined.

(** When the insertion comes first, the journal's retry is answered with its row id. *)
Example retry_duplicates :
  let batch := [Insert "army" (mkRowId 1) (army_row 1 10); Delete "army" (mkRowId 7)] in
  (fun rs => rs !! 1%nat) <$> retries map_orders map_orders sample_store batch [mkTick 1; mkTick 1]
  = Some (Some (Err (ADuplicateRowId "army" 1))).
Proof. vm_compute. reflexivity. Qed.

(** The table after row 1 was inserted at tick 1. *)
Definition army_table : VersionedTable :=
  default (vt_new "army" Patchable)
    (as_tables (store_after_diffs 1 [Insert "army" (mkRowId 1) (army_row 1 10)] sample_store) !! "army").

Lemma later_insert_aliases_witness :
  exists t' b, apply_insert_to_table map_orders army_table "army" (mkTick 2) (mkRowId 2) (army_row 2 20)
                 default_type_registry = (t', Ok tt)
  /\ locate_for_update t' "army" (mkRowId 1) = Ok (mkLocation (mkTick 2) 0 0 (mkRowId 1), b)
  /\ locate_for_update t' "army" (mkRowId 2) = Ok (mkLocation (mkTick 2) 0 0 (mkRowId 2), b).
Proof.
  destruct (apply_insert_to_table map_orders army_table "army" (mkTick 2) (mkRowId 2) (army_row 2 20)
    default_type_registry) as [t' [[]|e]] eqn:E.
  2: { apply (f_equal (fun p => is_ok p.2)) in E. vm_compute in E. discriminate E. }
  destruct (later_insert_aliases map_orders army_table t' "army" (mkTick 2) (mkRowId 1) (mkRowId 2) (army_row 2 20)
    default_type_registry) as (b & _ & H1 & H2).
  - assert (Hd : forallb (fun k => tick_as_u64 k <? 2) (map_to_list (vt_versions army_table)).*1 = true)
      by (vm_compute; reflexivity).
    intros k [bs Hk]. apply Z.ltb_lt. rewrite forallb_forall in Hd. apply Hd, list_elem_of_In, list_elem_of_fmap.
    exists (k, bs). split; [reflexivity|by apply elem_of_map_to_list].
  - vm_compute. reflexivity.
  - exact E.
  - exists t', b. split; [reflexivity|]. split; [exact H1|exact H2].
Defined.

Definition sample_layout : gmap string (option string * list Field) := {["army" := (Some "id", army_fields)]}.

Lemma sample_tables : as_tables sample_store = {["army" := vt_set_spec (vt_new "army" Patchable) army_spec]}.
Proof. reflexivity. Qed.

Lemma sample_registry : as_type_registry sample_store = default_type_registry.
Proof. reflexivity. Qed.

Lemma sample_store_rep tick : store_rep sample_layout tick sample_store {["army" := ∅]}.
Proof.
  intros k. rewrite sample_tables, sample_registry. unfold sample_layout. destruct (decide (k = "army")) as [->|Hk].
  - rewrite !lookup_singleton_eq. exists army_spec. split; [reflexivity|]. split; [vm_compute; reflexivity|].
    split; [reflexivity|]. exists []. split; [by right|]. apply rep_nil.
  - by rewrite !lookup_singleton_ne by congruence.
Qed.


Definition sample_calls : list (StoreOp (V := Json)) :=
  [SCreateTable army_spec Patchable; SApply (mkTick 1) [Insert "army" (mkRowId 1) (army_row 1 10)];
   SDropTable "army"; SSnapshot (mkTick 2); STruncate (mkTick 1)].

Lemma simulation_freezes_schema_witness :
  same_schema sample_store (store_run map_orders map_orders map_orders sample_store sample_calls).
Proof.
  apply (simulation_freezes_schema map_orders map_orders map_orders map_orders_groups). reflexivity.
Defined.

Lemma snapshot_immutable_witness :
  exists s1 snap, generate_snapshot sample_store (mkTick 1) = Ok (s1, snap)
  /\ get_snapshot (store_run map_orders map_orders map_orders s1 sample_calls) (mkTick 1) = Ok snap.
Proof.
  destruct (generate_snapshot sample_store (mkTick 1)) as [[s1 snap]|e] eqn:E; [|discriminate E].
  destruct (snapshot_immutable map_orders map_orders map_orders map_orders_groups sample_store s1 (mkTick 1) snap
    sample_calls E) as [H _].
  - repeat constructor; simpl; try congruence; lia.
  - exists s1, snap. split; [reflexivity|exact H].
Defined.
