(* ===== verification/ReadSamples.v ===== *)
(** * ReadSamples: commits, reads, pages and statements on concrete tables

    The store of [StoreSamples.v] under a journal with a query engine. [concat_batches] is built from
    the rows of its batches. *)

From Stdlib Require Import Ascii String.
From stdpp Require Import base gmap strings list fin_maps sorting.
From Stdlib Require Import ZArith Lia SpecFloat.
From S2P Require Import Prelude RustStr CoreTypes FixedPoint SchemaTables Relations Registry Journal RuleCore RuleCache.
From S2P Require Import Float64 Rules RuleSamples Arrow ArrowVec ArrowBatch ArrowBatchFacts StoreIndex ArrowStore StoreFacts.
From S2P Require Import StoreRows StoreRuns WorldView ReadViews ErrorText QueryEngine Inspector DebugTools StoreJournal.
From S2P Require Import RuleReads StoreSamples.

(** ** Concatenation by rows *)

Section by_rows.
Context `{AO : ArrowOps} `{AL : !ArrowLaws}.

Definition column_of_rows (rows : list (list (option Scalar))) (c : nat) (f : Field) : Arr :=
  arr_of_cells (fld_data_type f) ((fun row => default None (row !! c)) <$> rows).

Definition concat_by_rows (schema : list Field) (bs : list RecordBatch) : result string RecordBatch :=
  if forallb (fun b => bool_decide (rb_schema b = schema)) bs
  then rb_try_new schema (imap (column_of_rows (bs ≫= rb_rows)) schema)
  else Err "column types must match schema types".

Lemma row_cell_fits b i c f v : rb_schema b !! c = Some f -> (i < rb_num_rows b)%nat ->
  rb_row b i !! c = Some (Some v) -> scalar_fits (fld_data_type f) v = true.
Proof.
  intros Hf Hi Hv. unfold rb_row in Hv. rewrite list_lookup_fmap in Hv.
  destruct (rb_columns b !! c) as [a|] eqn:Ea; [|done]. injection Hv as Hv.
  destruct (rb_columns_ok b) as [_ Hc]. destruct (Forall2_lookup_lr _ _ _ _ _ _ Hc Hf Ea) as (Hty & Hlen & _).
  rewrite <- Hty. pose proof (arr_cells_fit a) as Hfit. rewrite forallb_forall in Hfit.
  apply (Hfit (Some v)), list_elem_of_In, list_elem_of_lookup. exists i.
  assert (Hl : (i < arr_len a)%nat) by lia. apply arr_cells_lookup in Hl. rewrite Hl. f_equal.
  by rewrite (nth_lookup_Some _ _ _ _ Hl) in Hv.
Qed.

Lemma concat_by_rows_ok schema bs b : concat_by_rows schema bs = Ok b ->
  rb_schema b = schema /\ rb_rows b = bs ≫= rb_rows.
Proof.
  unfold concat_by_rows. destruct (forallb _ bs) eqn:Hs; [|done]. intros Hb.
  rewrite forallb_forall in Hs. set (rows := bs ≫= rb_rows) in *. apply rb_try_new_ok in Hb as [Hsch Hcols].
  split; [done|].
  assert (Hrow : forall row, row ∈ rows -> length row = length schema
    /\ forall c f v, schema !! c = Some f -> row !! c = Some (Some v) -> scalar_fits (fld_data_type f) v = true).
  { intros row (b' & Hin & Hb')%list_elem_of_bind. apply list_elem_of_In, Hs, bool_decide_eq_true in Hb'.
    unfold rb_rows in Hin. apply list_elem_of_fmap in Hin as (i & -> & Hi%elem_of_seq). split.
    - unfold rb_row. rewrite length_fmap. destruct (rb_columns_ok b') as [_ Hc]. rewrite <- Hb'. symmetry. exact (Forall2_length _ _ _ Hc).
    - intros c f v Hf Hv. apply (row_cell_fits b' i c f v); [by rewrite Hb'|lia|done]. }
  assert (Hcell : forall c f, schema !! c = Some f ->
    arr_cells (column_of_rows rows c f) = (fun row => default None (row !! c)) <$> rows).
  { intros c f Hf. apply of_cells_cells. apply forallb_forall. intros x Hx%list_elem_of_In.
    apply list_elem_of_fmap in Hx as (row & -> & Hin). destruct (row !! c) as [[v|]|] eqn:E; [|done..].
    by apply (proj2 (Hrow row Hin) c f v). }
  assert (Hn : rb_num_rows b = length rows).
  { destruct (rb_columns_ok b) as [Hne Hc]. rewrite Hsch, Hcols in *. destruct schema as [|f schema]; [done|].
    cbn [imap] in Hc. inversion Hc as [|? ? ? ? (_ & Hl & _)]. rewrite <- Hl, <- arr_cells_length.
    rewrite Hcell by done. by rewrite length_fmap. }
  apply list_eq. intros i. destruct (decide (i < length rows)%nat) as [Hi|Hi].
  2: { rewrite !(proj2 (lookup_ge_None _ _)); [done|lia|rewrite rb_rows_length; lia]. }
  rewrite rb_rows_lookup by lia. destruct (rows !! i) as [row|] eqn:Er; [|apply lookup_ge_None in Er; lia]. f_equal.
  assert (Hin : row ∈ rows) by (by eapply list_elem_of_lookup_2). destruct (Hrow row Hin) as [Hlen _].
  apply list_eq. intros c. unfold rb_row. rewrite Hcols, list_lookup_fmap, list_lookup_imap.
  destruct (schema !! c) as [f|] eqn:Ef; simpl.
  - destruct (row !! c) as [x|] eqn:Ex; [|apply lookup_ge_None in Ex; apply lookup_lt_Some in Ef; lia].
    rewrite (Hcell c f Ef). f_equal. apply nth_lookup_Some. rewrite list_lookup_fmap, Er. simpl. by rewrite Ex.
  - symmetry. apply lookup_ge_None. apply lookup_ge_None in Ef. lia.
Qed.

#[export] Instance RowConcat : ConcatOps := {|
  rb_concat := concat_by_rows; array_type_name dt := data_type_debug dt +:+ "Array" |}.
#[export] Instance RowConcatLaws : ConcatLaws.
Proof. split. apply concat_by_rows_ok. Qed.
End by_rows.

(** ** Views, pages, rings, statements *)

Definition sample_batch : StoreResult (RecordBatch (ArrowOps := VecArrow)) :=
  json_map_to_record_batch (army_row 1 10) army_fields.

Lemma inspect_page_slice_witness :
  exists b p, sample_batch = Ok b /\ inspect_page {["army" := army_spec]} "army" [b; b; b] 1 2 = Ok p
  /\ ip_rows p = take 2 (drop 2 (table_rows [b; b; b])) /\ page_has_next p = false.
Proof.
  destruct sample_batch as [b|e] eqn:E; [|apply (f_equal is_ok) in E; vm_compute in E; discriminate E].
  apply json_map_batch_ok in E as (_ & Hn & _).
  assert (Ht : total_rows [b; b; b] = 3%nat) 
    by (change (total_rows [b; b; b]) with (rb_num_rows b + (rb_num_rows b + (rb_num_rows b + 0)))%nat;
        rewrite Hn; reflexivity).
  pose proof (inspect_page_slice {["army" := army_spec]} "army" [b; b; b] 1 2 army_spec eq_refl) as H.
  destruct (inspect_page {["army" := army_spec]} "army" [b; b; b] 1 2) as [p|e] eqn:Ep.
  - exists b, p. destruct H as (_ & Hr & _ & Hnext); [unfold u64, u64_max; lia..|rewrite Ht; unfold i64_max; lia|].
    split; [reflexivity|]. split; [exact Ep|]. split; [exact Hr|]. destruct (page_has_next p); [|reflexivity].
    destruct Hnext as [Hd _]. destruct (Hd eq_refl). apply drop_ge. rewrite table_rows_length, Ht. lia.
  - exfalso. destruct H as [_ H]; [unfold u64, u64_max; lia..|rewrite Ht; unfold i64_max; lia|]. rewrite Ht in H. lia.
Defined.

Lemma rings_keep_newest_witness :
  foldl debug_journal_record (debug_journal_new 2)
    [WAppend "army" (mkTick 1) 1; WDelete "army" (mkTick 2) []; WPatch "army" (mkTick 3) []]
  = mkDebugJournal 2 [WDelete "army" (mkTick 2) []; WPatch "army" (mkTick 3) []] true.
Proof.
  apply (rings_keep_newest (V := Json) 2
    [WAppend "army" (mkTick 1) 1; WDelete "army" (mkTick 2) []; WPatch "army" (mkTick 3) []] []). lia.
Defined.

Lemma accepted_sql_single_witness :
  strip_single_trailing_statement_semicolon "SELECT ';' ; " = Ok "SELECT ';'" /\ no_semicolon "SELECT ';'".
Proof.
  assert (H : strip_single_trailing_statement_semicolon "SELECT ';' ; " = Ok "SELECT ';'") by (vm_compute; reflexivity).
  split; [exact H|]. exact (proj1 (accepted_sql_single _ _ H)).
Defined.

(** ** Iterating over a snapshot *)

Definition two_row_world (b : RecordBatch (ArrowOps := VecArrow)) : WorldView :=
  world_view_new (snapshot_with_table (mkTick 1) "army"
    (vt_insert_version (vt_new "army" Patchable) (mkTick 1) [b; b])).

Lemma iter_rows_complete_witness :
  exists b it it', sample_batch = Ok b /\ wv_iter_rows (two_row_world b) "army" = Ok it
  /\ iterates it [mkWvRow (rb_columns b) 0; mkWvRow (rb_columns b) 0] it'.
Proof.
  destruct sample_batch as [b|e] eqn:E; [|apply (f_equal is_ok) in E; vm_compute in E; discriminate E].
  apply json_map_batch_ok in E as (_ & Hn & _).
  destruct (iter_rows_complete (two_row_world b) "army" [b; b] eq_refl) as (it & it' & H1 & H2 & _).
  exists b, it, it'. split; [reflexivity|]. split; [exact H1|].
  assert (Hrows : [b; b] ≫= batch_rows_of = [mkWvRow (rb_columns b) 0; mkWvRow (rb_columns b) 0])
    by (change ([b; b] ≫= batch_rows_of) with (batch_rows_of b ++ batch_rows_of b ++ []);
        unfold batch_rows_of; rewrite Hn; reflexivity).
  rewrite <- Hrows. exact H2.
Defined.

(** ** Commits *)

Definition table_keys (m : gmap string VersionedTable) : list string := (map_to_list m).*1.
Lemma table_keys_order m : table_keys m ≡ₚ (map_to_list m).*1.
Proof. reflexivity. Qed.

Abbreviation army_store_ops := (journal_store (V := Json) map_orders map_orders table_keys).
Abbreviation army_query_ops := (journal_query (V := Json) map_orders map_orders table_keys).
Abbreviation ArmyJournal := (@Journal Json army_store_ops army_query_ops (InMemorySaveOps Json)).

Definition diff_text (d : Diff Json) : result string string := Ok (diff_table d).

(** The engine knows the table; the journal is over the simulating store. *)
Definition army_engine : QueryEngine :=
  engine_new (mkRegistry {["army" := army_spec]} graph_new true [] None).
Definition army_journal (ds : list (Diff Json)) : ArmyJournal :=
  mkJournal (SO := army_store_ops) (QO := army_query_ops) tick_ZERO PhaseOpen [] ds [] None sample_store (Some army_engine).

Definition insert_one : list (Diff Json) := [Insert "army" (mkRowId 1) (army_row 1 10)].

Lemma commit_updates_world_witness :
  store_rep sample_layout tick_ZERO
    (store_of map_orders map_orders table_keys (journal_commit diff_text (army_journal insert_one)).1)
    {["army" := {[1 := [Some (SInt 1); Some (SInt 10)]]}]}.
Proof.
  pose proof (commit_updates_world map_orders map_orders table_keys map_orders_groups diff_text
    sample_layout (army_journal insert_one) {["army" := ∅]} eq_refl eq_refl (sample_store_rep tick_ZERO)) as H.
  destruct (journal_commit diff_text (army_journal insert_one)) as [j' [r|e]] eqn:E.
  2: { apply (f_equal (fun p => is_ok p.2)) in E. vm_compute in E. discriminate E. }
  destruct H as (W' & HW & Hrep).
  assert (HW' : world_apply_all sample_layout {["army" := ∅]} insert_one
    = Some {["army" := {[1 := [Some (SInt 1); Some (SInt 10)]]}]}) by (vm_compute; reflexivity).
  change (j_pending_diffs (army_journal insert_one)) with insert_one in HW.
  rewrite HW' in HW. injection HW as <-. exact Hrep.
Defined.

(** Sizes of the tables, as a decidable check. *)
Definition sizes_fit (tick : Tick) (s : VStore) : bool :=
  forallb (fun p => Z.of_nat (total_rows (default [] (vt_versions p.2 !! tick))) <=? u64_max) (map_to_list (as_tables s)).

Lemma sizes_fit_ok tick s : sizes_fit tick s = true ->
  forall name t, as_tables s !! name = Some t -> Z.of_nat (total_rows (default [] (vt_versions t !! tick))) <= u64_max.
Proof.
  unfold sizes_fit. rewrite forallb_forall. intros Hs name t Ht. apply Z.leb_le.
  apply (Hs (name, t)), list_elem_of_In. by apply elem_of_map_to_list.
Qed.

Abbreviation army_store := (store_of map_orders map_orders table_keys).
Abbreviation army_query := (engine_of map_orders map_orders table_keys).

Lemma commit_then_read_witness :
  exists q' lv, army_query (journal_commit diff_text (army_journal insert_one)).1 = Some q'
  /\ lookup_row q' "army" (mkRowId 1) = Ok lv /\ lookup_cells lv = Some [Some (SInt 1); Some (SInt 10)].
Proof.
  destruct (journal_commit diff_text (army_journal insert_one)) as [j' [r|e]] eqn:E.
  2: { apply (f_equal (fun p => is_ok p.2)) in E. vm_compute in E. discriminate E. }
  assert (Hsize : sizes_fit tick_ZERO (army_store (journal_commit diff_text (army_journal insert_one)).1) = true)
    by (vm_compute; reflexivity).
  rewrite E in Hsize.
  destruct (commit_then_read map_orders map_orders table_keys map_orders_groups table_keys_order diff_text
    sample_layout (fun _ => tick_ZERO) (army_journal insert_one) j' r {["army" := ∅]} army_engine eq_refl eq_refl
    (sample_store_rep tick_ZERO) eq_refl eq_refl E (sizes_fit_ok _ _ Hsize)) as (W' & q' & HW & Hq & Hread).
  assert (HW' : world_apply_all sample_layout {["army" := ∅]} insert_one
    = Some {["army" := {[1 := [Some (SInt 1); Some (SInt 10)]]}]}) by (vm_compute; reflexivity).
  change (j_pending_diffs (army_journal insert_one)) with insert_one in HW.
  rewrite HW' in HW. injection HW as <-.
  destruct (Hread "army" (Some "id", army_fields) {[1 := [Some (SInt 1); Some (SInt 10)]]} (mkRowId 1))
    as (lv & Hl & Hc); [reflexivity|reflexivity|]. destruct (decide _) as [_|Hne]; [|destruct Hne; reflexivity].
  exists q', lv. split; [exact Hq|]. split; [exact Hl|apply Hc].
Defined.

(** A second commit, without diffs, after the insertion. *)
Definition army_second : ArmyJournal := (journal_commit diff_text (army_journal insert_one)).1.

Lemma untouched_table_unreadable_witness :
  exists q', army_query (journal_commit diff_text army_second).1 = Some q'
  /\ match lookup_row q' "army" (mkRowId 1) with
     | Ok lv => is_ok (lookup_get_i64 lv "size") = false
     | Err _ => False
     end.
Proof.
  destruct (journal_commit diff_text army_second) as [j' [r|e]] eqn:E.
  2: { apply (f_equal (fun p => is_ok p.2)) in E. vm_compute in E. discriminate E. }
  destruct (army_query army_second) as [q|] eqn:Eq.
  2: { apply (f_equal (fun o => bool_decide (is_Some o))) in Eq. vm_compute in Eq. discriminate Eq. }
  (* what the commit leaves: the table without a version, its row still positioned *)
  assert (Hj : (fun t => bool_decide (vt_versions t !! mkTick 1 = None))
    <$> as_tables (army_store (journal_commit diff_text army_second).1) !! "army" = Some true) by (vm_compute; reflexivity).
  assert (Hl : (fun q => is_ok (lookup_row q "army" (mkRowId 1)))
    <$> army_query (journal_commit diff_text army_second).1 = Some true) by (vm_compute; reflexivity).
  rewrite E in Hj, Hl. cbn [fst] in *.
  destruct (army_query j') as [q'|] eqn:Eq'; [|discriminate Hl]. injection Hl as Hl.
  destruct (as_tables (army_store j') !! "army") as [t|] eqn:Et; [|discriminate Hj]. injection Hj as Hno.
  exists q'. split; [reflexivity|].
  pose proof (untouched_table_unreadable map_orders map_orders table_keys map_orders_groups table_keys_order diff_text
    army_second j' r q q' "army" t (mkRowId 1)) as H.
  destruct (lookup_row q' "army" (mkRowId 1)) as [lv|e]; [|discriminate Hl].
  apply H; [reflexivity|exact Eq|exact E|exact Eq'|exact Et|]. exact (bool_decide_eq_true_1 _ Hno).
Defined.

(** ** Rules over the engine *)

Section rules.
Variable b : RecordBatch (ArrowOps := VecArrow).

Definition one_army_view : TableReadView :=
  table_read_view_new "army" (mkTick 1) [b] army_spec (Some (rpm_insert rpm_new (mkRowId 1) 0 0)).
Definition one_army_engine : QueryEngine :=
  with_latest_tick (QueryEngine.with_cache army_engine {["army" := one_army_view]}) 1.
Definition one_army_evaluator : Evaluator QueryEngine string :=
  evaluator_new one_army_engine (sample_journal false []) "army" (mkRowId 1).
End rules.

Lemma evaluate_column_reads_witness :
  exists b, sample_batch = Ok b
  /\ evaluate_column (one_army_evaluator b) (mkPath "army" "size") = Ok (VFixedPoint (fp_new 10 0))
  /\ exists e, evaluate_column (one_army_evaluator b) (mkPath "army" "id") = Err e.
Proof.
  destruct sample_batch as [b|e] eqn:E; [|apply (f_equal is_ok) in E; vm_compute in E; discriminate E].
  apply json_map_batch_ok in E as (Hs & Hn & _ & Hrow).
  match type of Hrow with ?l = _ => assert (Hc : l = Ok [Some (SInt 1); Some (SInt 10)]) by (vm_compute; reflexivity) end.
  rewrite Hc in Hrow. injection Hrow as Hrow.
  assert (Huv : uniform_view (one_army_engine b) "army" army_fields (one_army_view b)).
  { split; [reflexivity|discriminate| |].
    - change (tv_batches (one_army_view b)) with [b]. constructor; [exact Hs|constructor].
    - apply (bool_decide_unpack (NoDup (fld_name <$> army_fields))). vm_compute. exact I. }
  set (lv := mkLookupView (mkLookup (mkRowId 1) 0 0) (one_army_view b)).
  assert (Hcells : lookup_cells lv = Some [Some (SInt 1); Some (SInt 10)]).
  { change (lookup_cells lv) with (rb_rows b !! 0%nat). rewrite rb_rows_lookup by (rewrite Hn; lia). by rewrite <- Hrow. }
  assert (Hl : lookup_row (one_army_engine b) "army" (mkRowId 1) = Ok lv) by reflexivity.
  exists b. split; [reflexivity|]. split.
  - exact (evaluate_column_reads (one_army_evaluator b) (mkPath "army" "size") army_fields (one_army_view b) lv
      [Some (SInt 1); Some (SInt 10)] 1 (mkField "size" DInt64 true) (Some (SInt 10)) Huv Hl eq_refl Hcells eq_refl eq_refl eq_refl).
  - exact (evaluate_column_reads (one_army_evaluator b) (mkPath "army" "id") army_fields (one_army_view b) lv
      [Some (SInt 1); Some (SInt 10)] 0 (mkField "id" DUInt64 false) (Some (SInt 1)) Huv Hl eq_refl Hcells eq_refl eq_refl eq_refl).
Defined.
