(* ===== verification/WorldLog.v ===== *)
(** * WorldLog: the journal's log is the world

    The journal over the Arrow store, through any calls: the rows of the store are what replaying
    the save journal on the first world gives, and the log holds the submitted diffs in the order
    of the calls. A table's rows are inserted under one tick, its home; updates and deletions come
    in any tick ([StoreRows.v] shows what happens otherwise), and no commit fails (a failed commit
    leaves row ids behind, [StoreFacts.v]). *)

From Stdlib Require Import Ascii String.
From stdpp Require Import base gmap strings list fin_maps sorting.
From Stdlib Require Import ZArith Lia.
From S2P Require Import Prelude RustStr CoreTypes SchemaTables Relations Registry Journal RuleCore Float64 Rules.
From S2P Require Import Arrow ArrowVec ArrowBatch ArrowBatchFacts StoreIndex ArrowStore StoreFacts StoreRows StoreRuns.
From S2P Require Import WorldView ReadViews ErrorText QueryEngine StoreJournal.

(** ** The submitted diffs *)

(** Committed diffs, and those pending, after a call. *)
Definition diffs_after {V} (st : list (Diff V) * list (Diff V)) (op : JournalOp (V := V)) : list (Diff V) * list (Diff V) :=
  match op with
  | OpSubmitDiff d => (st.1, st.2 ++ [d])
  | OpSubmitBatch b => (st.1, st.2 ++ batch_diffs b)
  | OpCommit => (st.1 ++ st.2, [])
  | OpClearPending => (st.1, [])
  | OpSubmitCommand _ | OpSubmitCommands _ => st
  end.

Section log.
Context {V : Type} `{AO : ArrowOps} `{AL : !ArrowLaws} `{JR : JsonRead V} `{JL : !JsonLaws V} `{FT : FloatText}.
Context `{CO : !ConcatOps} `{CL : !ConcatLaws}.
Context (ver_order : gmap Tick (list RecordBatch) -> list (Tick * list RecordBatch)).
Context (group_order : gmap nat (list (nat * nat)) -> list (nat * list (nat * nat))).
Context (name_order : gmap string VersionedTable -> list string).
Context (Ho : orders_groups group_order).
Context (diff_json : Diff V -> result string string).

#[local] Instance log_store : StoreOps V := journal_store ver_order group_order name_order.
#[local] Instance log_query : QueryOps V := journal_query ver_order group_order name_order.
#[local] Existing Instance InMemorySaveOps.

Abbreviation LJournal := (@Journal V log_store log_query (InMemorySaveOps V)).
Abbreviation step := (journal_step diff_json).
Abbreviation store_in := (store_of ver_order group_order name_order).

Definition log_of (j : LJournal) : list (CommitRecord V) := from_option im_entries [] (j_save_journal j).
Definition log_diffs (log : list (CommitRecord V)) : list (Diff V) := log ≫= rec_diffs.

(** Every diff of the log that inserts rows is in its table's tick. *)
Definition log_at_home (H : string -> Tick) (log : list (CommitRecord V)) : bool :=
  forallb (fun r => forallb (at_home H (rec_tick r)) (rec_diffs r)) log.

Fixpoint commits_succeed (j : LJournal) (ops : list (JournalOp (V := V))) : bool :=
  match ops with
  | [] => true
  | op :: ops =>
      (match op with OpCommit => is_ok (journal_commit diff_json j).2 | _ => true end)
      && commits_succeed (step j op).1 ops
  end.

(** *** The world of a concatenation *)

Lemma world_apply_app M W (ds1 ds2 : list (Diff V)) :
  world_apply_all M W (ds1 ++ ds2) = (W' ← world_apply_all M W ds1; world_apply_all M W' ds2).
Proof.
  revert W. induction ds1 as [|d ds1 IH]; intros W; [done|]. cbn [app world_apply_all].
  destruct (world_apply M W d) as [W'|]; cbn [mbind option_bind]; [apply IH|done].
Qed.

Lemma log_at_home_snoc H log r :
  log_at_home H (log ++ [r]) = log_at_home H log && forallb (at_home H (rec_tick r)) (rec_diffs r).
Proof. unfold log_at_home. rewrite forallb_app. cbn [forallb]. by rewrite andb_true_r. Qed.

Lemma log_diffs_snoc log r : log_diffs (log ++ [r]) = log_diffs log ++ rec_diffs r.
Proof. unfold log_diffs. rewrite bind_app. cbn. by rewrite app_nil_r. Qed.

Lemma log_diffs_concat log : log_diffs log = concat (rec_diffs <$> log).
Proof. induction log as [|r log IH]; [done|]. change (rec_diffs r ++ log_diffs log = rec_diffs r ++ concat (rec_diffs <$> log)). by rewrite IH. Qed.

(** *** One call *)

(** A call that does not commit changes what is pending. *)
Lemma other_call (j : LJournal) op : j_phase j = PhaseOpen -> op <> OpCommit ->
  exists cs, forall done, (step j op).1 = with_pending j cs (diffs_after (done, j_pending_diffs j) op).2
                   /\ (diffs_after (done, j_pending_diffs j) op).1 = done.
Proof.
  intros Hph Hop. assert (Hself : j = with_pending j (j_pending_commands j) (j_pending_diffs j)) by (by destruct j).
  destruct op as [e|es|d|b| |]; cbn [journal_step diffs_after fst snd]; try done.
  - destruct (journal_submit_command j e) as [j'|] eqn:E; cbn [keep_or fst]; [|by eexists].
    apply submit_command_frame in E as [cs ->]. by exists cs.
  - assert (exists cs, (journal_submit_commands j es).1 = with_pending j cs (j_pending_diffs j)) as [cs Hcs].
    { unfold journal_submit_commands. apply (try_each_inv (fun j' => exists cs, j' = with_pending j cs (j_pending_diffs j))); [|by eexists].
      intros j1 e j2 [cs ->] _ E. apply submit_command_frame in E as [cs' ->]. by exists cs'. }
    by exists cs.
  - unfold journal_submit_diff. rewrite bool_decide_false by (by rewrite Hph; intros ?). by eexists.
  - unfold journal_submit_batch. rewrite submit_diffs_open by done. by eexists.
  - unfold journal_clear_pending. rewrite bool_decide_false by (by rewrite Hph; intros ?). by eexists.
Qed.

(** *** The invariant *)

(** The world of the store is the replay of the log on the first world. *)
Definition follows_log (M : gmap string (option string * list Field)) (H : string -> Tick) (W0 : gmap string (gmap Z (list (option Scalar))))
    (j : LJournal) : Prop :=
  j_phase j = PhaseOpen /\ commit_guard (store_in j) = Ok tt /\ j_save_journal j = Some (mkInMemory (log_of j))
  /\ (log_at_home H (log_of j) = true ->
      exists W, world_apply_all M W0 (log_diffs (log_of j)) = Some W /\ store_rep_home M H (store_in j) W).

Lemma commit_guard_kept (j j' : LJournal) r : commit_guard (store_in j) = Ok tt ->
  commit_succeeded diff_json j j' r -> commit_guard (store_in j') = Ok tt.
Proof.
  intros Hg (_ & _ & _ & _ & _ & _ & _ & _ & s1 & Ha & Hs & _).
  destruct (apply_diffs_spec ver_order group_order (store_in j) (j_current_tick j) (j_pending_diffs j) Ho)
    as (s1' & r1 & E1 & Ht & _). apply touched_schema in Ht as [Hlife _].
  cbn in Ha. change (j_store j) with (store_in j) in Ha. rewrite E1 in Ha. injection Ha as <- _.
  assert (Hl : as_lifecycle (store_in j') = as_lifecycle s1').
  { cbn in Hs. unfold generate_snapshot in Hs. destruct (commit_guard s1'); [|done]. cbn in Hs. injection Hs as Hs.
    exact (f_equal as_lifecycle (eq_sym Hs)). }
  unfold commit_guard in *. by rewrite Hl, Hlife.
Qed.

Lemma follows_commit M H W0 (j j' : LJournal) r : follows_log M H W0 j -> commit_succeeded diff_json j j' r ->
  follows_log M H W0 j' /\ log_of j' = log_of j ++ [commit_record j (cr_state_hash r)].
Proof.
  intros (Hph & Hg & Hlog & Hw) E. pose proof E as (_ & _ & _ & Hph' & _ & _ & _ & Ha & _).
  rewrite Hlog in Ha. cbn in Ha. injection Ha as Ha.
  assert (Hl' : log_of j' = log_of j ++ [commit_record j (cr_state_hash r)]) by (unfold log_of at 1; by rewrite <- Ha).
  split; [|done]. split_and!.
  - done.
  - exact (commit_guard_kept j j' r Hg E).
  - by rewrite Hl', <- Ha.
  - rewrite Hl', log_at_home_snoc, log_diffs_snoc, world_apply_app. intros [H1 H2]%andb_true_iff.
    destruct (Hw H1) as (W & -> & Hrep). cbn [mbind option_bind].
    by apply (committed_home ver_order group_order name_order Ho diff_json M H j j' r W).
Qed.

Lemma follows_step M H W0 (j : LJournal) op :
  follows_log M H W0 j -> match op with OpCommit => is_ok (journal_commit diff_json j).2 | _ => true end = true ->
  follows_log M H W0 (step j op).1
  /\ (log_diffs (log_of (step j op).1), j_pending_diffs (step j op).1)
     = diffs_after (log_diffs (log_of j), j_pending_diffs j) op.
Proof.
  intros Hj Hop. assert (op = OpCommit \/ op <> OpCommit) as [->|Hne] by (destruct op; (by left) || (by right)).
  - cbn [journal_step]. destruct (journal_commit diff_json j) as [j' [r|e]] eqn:E; [|done]. cbn [fst].
    apply commit_ok in E as [_ E]. destruct (follows_commit M H W0 j j' r Hj E) as [Hj' Hl']. split; [done|].
    cbn [diffs_after fst snd]. rewrite Hl', log_diffs_snoc. destruct E as (_ & _ & _ & _ & _ & Hd' & _). by rewrite Hd'.
  - destruct Hj as (Hph & Hj). destruct (other_call j op Hph Hne) as (cs & Hstep). destruct (Hstep (log_diffs (log_of j))) as [-> Hdone].
    split; [done|]. rewrite (surjective_pairing (diffs_after _ op)), Hdone. done.
Qed.

Lemma follows_run M H W0 ops : forall j : LJournal, follows_log M H W0 j -> commits_succeed j ops = true ->
  let j' := journal_run diff_json j ops in
  follows_log M H W0 j' /\ (log_diffs (log_of j'), j_pending_diffs j')
    = foldl diffs_after (log_diffs (log_of j), j_pending_diffs j) ops.
Proof.
  induction ops as [|op ops IH]; intros j Hj Hok; [done|]. apply andb_true_iff in Hok as [Hop Hok].
  destruct (follows_step M H W0 j op Hj Hop) as [Hj' Heq]. destruct (IH _ Hj' Hok) as [H1 H2].
  split; [exact H1|]. cbn [foldl]. rewrite <- Heq. exact H2.
Qed.

(** C7: The journal's log is the world: through any calls whose commits succeed, the save journal holds
    the submitted diffs in the order of the calls, less those cleared and those still pending. And when
    each table has one tick, its home, under which the rows of the first world and of the log were
    inserted, replaying the log on the first world succeeds and gives the world the store represents;
    of rows inserted under several ticks this is false ([later_insert_aliases]). *)
Theorem world_replays_log M (H : string -> Tick) W0 (j : LJournal) (ops : list (JournalOp (V := V))) :
  j_phase j = PhaseOpen -> commit_guard (store_in j) = Ok tt -> j_save_journal j = Some inmem_new ->
  store_rep_home M H (store_in j) W0 -> commits_succeed j ops = true ->
  let j' := journal_run diff_json j ops in
  (log_diffs (log_of j'), j_pending_diffs j') = foldl diffs_after ([], j_pending_diffs j) ops
  /\ (log_at_home H (log_of j') = true ->
      exists W, world_apply_all M W0 (log_diffs (log_of j')) = Some W /\ store_rep_home M H (store_in j') W).
Proof.
  intros Hph Hg Hs Hrep Hok. assert (Hlog : log_of j = []) by (unfold log_of; by rewrite Hs).
  assert (Hj : follows_log M H W0 j).
  { split_and!; [done|done|by rewrite Hlog|]. intros _. rewrite Hlog. by exists W0. }
  destruct (follows_run M H W0 ops j Hj Hok) as [(_ & _ & _ & Hw) Heq]. rewrite Hlog in Heq. done.
Qed.
End log.
