(* ===== verification/WorldTicks.v ===== *)
(** * WorldTicks: the systems make the world

    The scheduler over the journal, the Arrow store and the query engine: through any ticks that
    succeed, the world is what the systems said, applied in order, and the save journal holds one
    record a tick, with the commands queued for it. *)

From Stdlib Require Import Ascii String.
From stdpp Require Import base gmap strings list fin_maps sorting.
From Stdlib Require Import ZArith Lia.
From S2P Require Import Prelude RustStr CoreTypes Rng SchemaTables Relations Registry Journal Systems Scheduler SchedulerFacts RuleCore Float64 Rules.
From S2P Require Import Arrow ArrowVec ArrowBatch ArrowBatchFacts StoreIndex ArrowStore StoreFacts StoreRows StoreRuns.
From S2P Require Import WorldView ReadViews ErrorText QueryEngine StoreJournal WorldLog.

Section ticks.
Context {V : Type} `{AO : ArrowOps} `{AL : !ArrowLaws} `{JR : JsonRead V} `{JL : !JsonLaws V} `{FT : FloatText}.
Context `{CO : !ConcatOps} `{CL : !ConcatLaws}.
Context (ver_order : gmap Tick (list RecordBatch) -> list (Tick * list RecordBatch)).
Context (group_order : gmap nat (list (nat * nat)) -> list (nat * list (nat * nat))).
Context (name_order : gmap string VersionedTable -> list string).
Context (Ho : orders_groups group_order).
Context (diff_json : Diff V -> result string string).

#[local] Instance tick_store : StoreOps V := log_store ver_order group_order name_order.
#[local] Instance tick_query : QueryOps V := log_query ver_order group_order name_order.
#[local] Existing Instance InMemorySaveOps.
#[local] Existing Instance arrow_store_laws.

Context {Engine : Type} (read_engine : ArrowStore V -> option QueryEngine -> Engine).
Context (reg_order bus_order : gset string -> list string).

Abbreviation Sched := (@Scheduler V tick_store tick_query (InMemorySaveOps V) Engine).
Abbreviation sched_tick := (scheduler_tick diff_json (read_engine : Store -> option Query -> Engine) reg_order bus_order).
Abbreviation systems_say := (tick_diffs (read_engine : Store -> option Query -> Engine) reg_order).
Abbreviation store_in := (store_of ver_order group_order name_order).

(** A tick for which commands were queued. *)
Definition tick_with (s : Sched) (cs : list (CommandEnvelope V)) : Sched * SchedulerResult CommitResult :=
  sched_tick (foldl scheduler_enqueue_command s cs).

(** Ticks that succeed, given the commands queued for each. *)
Fixpoint ticks (s : Sched) (css : list (list (CommandEnvelope V))) : option Sched :=
  match css with
  | [] => Some s
  | cs :: css => match tick_with s cs with (s', Ok _) => ticks s' css | _ => None end
  end.

(** The diffs the systems return at each tick. *)
Fixpoint said (s : Sched) (css : list (list (CommandEnvelope V))) : list (list (Diff V)) :=
  match css with
  | [] => []
  | cs :: css => (match systems_say s with Ok ds => ds | Err _ => [] end) :: said (tick_with s cs).1 css
  end.

Lemma enqueue_all (cs : list (CommandEnvelope V)) : forall s : Sched,
  foldl scheduler_enqueue_command s cs = with_queue s (sc_pending_commands s ++ cs).
Proof.
  induction cs as [|c cs IH]; intros s; cbn [foldl]; [rewrite app_nil_r; by destruct s|].
  rewrite IH. unfold scheduler_enqueue_command. cbn. by rewrite <- app_assoc.
Qed.

(** Between ticks: ready, nothing queued, and the world follows the log. *)
Definition between_ticks M H W0 (s : Sched) : Prop :=
  ready s /\ sc_pending_commands s = [] /\ follows_log ver_order group_order name_order M H W0 (sc_journal s).

Lemma tick_step M H W0 (s s' : Sched) cs r :
  between_ticks M H W0 s -> 0 <= sc_current_tick s < u64_max - 1 -> tick_with s cs = (s', Ok r) ->
  between_ticks M H W0 s' /\ sc_current_tick s' = sc_current_tick s + 1
  /\ exists ds, systems_say s = Ok ds
     /\ log_of ver_order group_order name_order (sc_journal s')
        = log_of ver_order group_order name_order (sc_journal s) ++ [mkRecord (scheduler_current_tick s) ds cs (cr_state_hash r)].
Proof.
  intros (Hr & Hq & Hw) Hb E. unfold tick_with in E. rewrite enqueue_all, Hq in E. cbn [app] in E.
  set (s1 := with_queue s cs) in E. assert (Hr1 : ready s1) by exact Hr.
  destruct (tick_succeeds _ _ _ _ s1 s' r Hr1 E) as (_ & Ht & Hini).
  destruct (ticked_ready _ _ _ s1 s' r Hr1 Ht Hini Hb) as [Hr' Hct].
  destruct Ht as (ds & Hds & Hc & Hq' & _).
  assert (Hw1 : follows_log ver_order group_order name_order M H W0 (with_pending (sc_journal s) cs ds)) by exact Hw.
  destruct (follows_commit ver_order group_order name_order Ho diff_json M H W0 _ _ _ Hw1 Hc) as [Hw' Hl'].
  split; [by split_and!|]. split; [exact Hct|]. exists ds. split; [exact Hds|].
  rewrite Hl'. do 2 f_equal. unfold commit_record. cbn. destruct Hr as (_ & _ & _ & _ & Htick). by rewrite Htick.
Qed.

Abbreviation log_in s := (log_of ver_order group_order name_order (sc_journal s)).

Lemma ticks_step M H W0 css : forall s s' : Sched, between_ticks M H W0 s ->
  0 <= sc_current_tick s -> sc_current_tick s + Z.of_nat (length css) < u64_max -> ticks s css = Some s' ->
  between_ticks M H W0 s' /\ sc_current_tick s' = sc_current_tick s + Z.of_nat (length css)
  /\ rec_diffs <$> log_in s' = (rec_diffs <$> log_in s) ++ said s css
  /\ rec_commands <$> log_in s' = (rec_commands <$> log_in s) ++ css.
Proof.
  induction css as [|cs css IH]; intros s s' Hs H0 Hb E; cbn [ticks said length] in *.
  { injection E as <-. rewrite !app_nil_r. split_and!; [done|lia|done|done]. }
  destruct (tick_with s cs) as [s1 [r|e]] eqn:E1; [|done].
  destruct (tick_step M H W0 s s1 cs r Hs) as (Hs1 & Hc & ds & Hds & Hl); [lia|done|].
  destruct (IH s1 s' Hs1) as (H1 & H2 & H3 & H4); [lia|lia|done|].
  split; [done|]. split; [lia|]. cbn [fst]. rewrite Hds, H3, H4, Hl, !fmap_app, <- !app_assoc. done.
Qed.

(** C1: The systems make the world: through any ticks that succeed, the save journal holds one record a
    tick, with the commands queued for it and the diffs the systems returned. And when each table has
    one tick, its home, under which the rows of the first world and of the log were inserted, applying
    those diffs in order to the first world succeeds and gives the world the store represents; of
    rows inserted under several ticks this is false ([later_insert_aliases]). *)
Theorem systems_make_the_world M (H : string -> Tick) W0 (s s' : Sched) (css : list (list (CommandEnvelope V))) :
  ready s -> sc_pending_commands s = [] -> 0 <= sc_current_tick s ->
  sc_current_tick s + Z.of_nat (length css) < u64_max ->
  commit_guard (store_in (sc_journal s)) = Ok tt -> j_save_journal (sc_journal s) = Some inmem_new ->
  store_rep_home M H (store_in (sc_journal s)) W0 ->
  ticks s css = Some s' ->
  rec_diffs <$> log_in s' = said s css /\ rec_commands <$> log_in s' = css
  /\ sc_current_tick s' = sc_current_tick s + Z.of_nat (length css)
  /\ (log_at_home H (log_in s') = true ->
      exists W, world_apply_all M W0 (concat (said s css)) = Some W /\ store_rep_home M H (store_in (sc_journal s')) W).
Proof.
  intros Hr Hq H0 Hb Hg Hsj Hrep E. assert (Hlog : log_in s = []) by exact (f_equal (from_option im_entries []) Hsj).
  assert (Hs : between_ticks M H W0 s).
  { split; [done|]. split; [done|]. split; [apply Hr|]. split; [done|]. split; [by rewrite Hlog|].
    intros _. rewrite Hlog. by exists W0. }
  destruct (ticks_step M H W0 css s s' Hs H0 Hb E) as ((_ & _ & _ & _ & _ & Hw) & Hc & Hd & Hcs).
  rewrite Hlog in Hd, Hcs. cbn [fmap list_fmap app] in Hd, Hcs. split_and!; [done..|].
  intros Hh. destruct (Hw Hh) as (W & HW & Hrep'). exists W. split; [|done]. rewrite <- HW, <- Hd.
  by rewrite log_diffs_concat.
Qed.
End ticks.
