(* ===== verification/WorldLogSamples.v ===== *)
(** * WorldLogSamples: two ticks of a journal, replayed

    The journal of [ReadSamples.v] with a save journal: a row inserted in one tick, updated in the
    next, and a deletion that is still pending. *)

From Stdlib Require Import Ascii String.
From stdpp Require Import base gmap strings list fin_maps sorting.
From Stdlib Require Import ZArith Lia.
From S2P Require Import Prelude RustStr CoreTypes SchemaTables Relations Registry Journal RuleCore Float64 Rules.
From S2P Require Import Arrow ArrowVec ArrowBatch ArrowBatchFacts StoreIndex ArrowStore StoreFacts StoreRows StoreRuns.
From S2P Require Import WorldView ReadViews ErrorText QueryEngine StoreJournal Rng Systems Scheduler SchedulerFacts StoreSamples ReadSamples WorldLog WorldTicks.

Abbreviation log_store_ops := (log_store (V := Json) map_orders map_orders table_keys).
Abbreviation log_query_ops := (log_query (V := Json) map_orders map_orders table_keys).
Abbreviation LoggedJournal := (@Journal Json log_store_ops log_query_ops (InMemorySaveOps Json)).

Definition logged_journal : LoggedJournal :=
  mkJournal (SO := log_store_ops) (QO := log_query_ops) tick_ZERO PhaseOpen [] [] [] (Some inmem_new) sample_store (Some army_engine).

Definition two_ticks : list (JournalOp (V := Json)) :=
  [OpSubmitDiff (Insert "army" (mkRowId 1) (army_row 1 10)); OpCommit;
   OpSubmitBatch (mkDiffBatch "rules" [Update "army" (mkRowId 1) "size" (JInt 12)]); OpCommit;
   OpSubmitDiff (Delete "army" (mkRowId 1))].

Abbreviation logged_run := (journal_run (SO := log_store_ops) (QO := log_query_ops) (VO := InMemorySaveOps Json) diff_text logged_journal two_ticks).

Lemma two_ticks_at_home : log_at_home (fun _ => tick_ZERO) (log_of map_orders map_orders table_keys logged_run) = true.
Proof. vm_compute. reflexivity. Qed.

Lemma world_replays_log_witness :
  log_diffs (log_of map_orders map_orders table_keys logged_run)
    = [Insert "army" (mkRowId 1) (army_row 1 10); Update "army" (mkRowId 1) "size" (JInt 12)]
  /\ j_pending_diffs logged_run = [Delete "army" (mkRowId 1)]
  /\ store_rep_home sample_layout (fun _ => tick_ZERO) (store_of map_orders map_orders table_keys logged_run)
       {["army" := {[1 := [Some (SInt 1); Some (SInt 12)]]}]}.
Proof.
  assert (Hok : commits_succeed map_orders map_orders table_keys diff_text logged_journal two_ticks = true) by (vm_compute; reflexivity).
  destruct (world_replays_log map_orders map_orders table_keys map_orders_groups diff_text sample_layout (fun _ => tick_ZERO)
    {["army" := ∅]} logged_journal two_ticks eq_refl eq_refl eq_refl (sample_store_rep tick_ZERO) Hok) as [Hd Hw].
  assert (Hf : foldl diffs_after ([], []) two_ticks
    = ([Insert "army" (mkRowId 1) (army_row 1 10); Update "army" (mkRowId 1) "size" (JInt 12)], [Delete "army" (mkRowId 1)])) by reflexivity.
  change (j_pending_diffs logged_journal) with (@nil (Diff Json)) in Hd. rewrite Hf in Hd.
  apply pair_equal_spec in Hd as [Hdone Hpend]. split; [exact Hdone|]. split; [exact Hpend|].
  destruct (Hw two_ticks_at_home) as (W & HW & Hrep). rewrite Hdone in HW.
  assert (HW' : world_apply_all sample_layout {["army" := ∅]}
    [Insert "army" (mkRowId 1) (army_row 1 10); Update "army" (mkRowId 1) "size" (JInt 12)]
    = Some {["army" := {[1 := [Some (SInt 1); Some (SInt 12)]]}]}) by (vm_compute; reflexivity).
  rewrite HW' in HW. injection HW as <-. exact Hrep.
Defined.

(** ** A system that reads what it wrote *)

Definition war_system : SimSystem (option QueryEngine) Json :=
  mkSystem "war" Military ["army"] ["army"] None (fun _ q _ tick =>
    if tick =? 0 then Ok insert_one
    else match q with
         | None => Err (SGeneric "no engine")
         | Some q =>
             match lookup_row q "army" (mkRowId 1) with
             | Err _ => Err (SGeneric "no army")
             | Ok lv => match lookup_get_i64 lv "size" with
                        | Ok (Some n) => Ok [Update "army" (mkRowId 1) "size" (JInt (n + 2))]
                        | _ => Err (SGeneric "no size")
                        end
             end
         end).

Abbreviation tick_store_ops := (tick_store (V := Json) map_orders map_orders table_keys).
Abbreviation tick_query_ops := (tick_query (V := Json) map_orders map_orders table_keys).
Definition war_scheduler : @Scheduler Json tick_store_ops tick_query_ops (InMemorySaveOps Json) (option QueryEngine) :=
  mkScheduler (SO := tick_store_ops) (QO := tick_query_ops) {["war" := war_system]} {["war" := registration_from_system war_system]} []
    logged_journal bus_new 0 0 true.

Definition player_command (t : Z) : CommandEnvelope Json := mkEnvelope (mkTick t) "player" (Raw "chat" JNull).
Definition two_queues : list (list (CommandEnvelope Json)) := [[player_command 0]; []].

Abbreviation war_ticks := (ticks map_orders map_orders table_keys diff_text (fun _ q => q) elements elements war_scheduler two_queues).
Abbreviation war_said := (said map_orders map_orders table_keys diff_text (fun _ q => q) elements elements war_scheduler two_queues).

Lemma systems_make_the_world_witness :
  exists s', war_ticks = Some s'
  /\ store_rep_home sample_layout (fun _ => tick_ZERO) (store_of map_orders map_orders table_keys (sc_journal s'))
       {["army" := {[1 := [Some (SInt 1); Some (SInt 12)]]}]}.
Proof.
  assert (Hok : from_option (fun s' => log_at_home (fun _ => tick_ZERO) (log_of map_orders map_orders table_keys (sc_journal s'))) false war_ticks = true)
    by (vm_compute; reflexivity).
  destruct war_ticks as [s'|] eqn:E; [|discriminate Hok]. cbn [from_option] in Hok. exists s'. split; [reflexivity|].
  destruct (systems_make_the_world map_orders map_orders table_keys map_orders_groups diff_text (fun _ q => q) elements elements
    sample_layout (fun _ => tick_ZERO) {["army" := ∅]} war_scheduler s' two_queues) as (_ & _ & _ & Hw).
  - repeat split.
  - reflexivity.
  - reflexivity.
  - vm_compute. reflexivity.
  - reflexivity.
  - reflexivity.
  - exact (sample_store_rep tick_ZERO).
  - exact E.
  - destruct (Hw Hok) as (W & HW & Hrep).
    assert (HW' : world_apply_all sample_layout {["army" := ∅]} (concat war_said)
      = Some {["army" := {[1 := [Some (SInt 1); Some (SInt 12)]]}]}) by (vm_compute; reflexivity).
    rewrite HW' in HW. injection HW as <-. exact Hrep.
Defined.
