(* ===== verification/Lockstep.v ===== *)
(** * Lockstep: peers whose hash maps iterate differently stay in step

    Two peers run the same systems over the same world, each with its own iteration orders of hash
    maps. As long as the ticks of one succeed, so do the ticks of the other: after every tick they
    hold the same store and the same query engine, and their save journals agree tick by tick, up to
    the interleaving of the diffs of different tables. *)

From Stdlib Require Import Ascii String.
From stdpp Require Import base gmap strings list fin_maps sorting.
From Stdlib Require Import ZArith Lia.
From S2P Require Import Prelude RustStr CoreTypes Rng SchemaTables Relations Registry Journal Systems Scheduler SchedulerFacts RuleCore Float64 Rules.
From S2P Require Import Arrow ArrowVec ArrowBatch ArrowBatchFacts StoreIndex ArrowStore StoreFacts StoreRows StoreRuns StoreOrders.
From S2P Require Import WorldView ReadViews ErrorText QueryEngine StoreJournal WorldLog WorldTicks.

(** ** The same diffs, interleaved otherwise *)

Section diffs.
Context {V : Type}.

(** The same diffs, and those of each table in the same order. *)
Definition interleaved (ds1 ds2 : list (Diff V)) : Prop :=
  ds1 ≡ₚ ds2 /\ forall k, table_diffs k ds1 = table_diffs k ds2.

#[export] Instance interleaved_equiv : Equivalence interleaved.
Proof.
  split.
  - by intros ds.
  - intros ds1 ds2 [Hp Hk]. split; [by symmetry|]. intros k. by rewrite Hk.
  - intros ds1 ds2 ds3 [Hp1 Hk1] [Hp2 Hk2]. split; [by etrans|]. intros k. by rewrite Hk1.
Qed.

Definition same_record (r1 r2 : CommitRecord V) : Prop :=
  rec_tick r1 = rec_tick r2 /\ rec_commands r1 = rec_commands r2
  /\ rec_state_hash r1 = rec_state_hash r2 /\ interleaved (rec_diffs r1) (rec_diffs r2).

#[export] Instance same_record_equiv : Equivalence same_record.
Proof.
  split.
  - by intros r.
  - intros r1 r2 (H1 & H2 & H3 & H4). split_and!; by symmetry.
  - intros r1 r2 r3 (H1 & H2 & H3 & H4) (K1 & K2 & K3 & K4). split_and!; by etrans.
Qed.

Lemma interleaved_hash (diff_json : Diff V -> result string string) ds1 ds2 h :
  interleaved ds1 ds2 -> diffs_hash diff_json ds1 = Ok h -> diffs_hash diff_json ds2 = Ok h.
Proof.
  intros [Hp _] H1. assert (H2 : exists h2, diffs_hash diff_json ds2 = Ok h2).
  { unfold diffs_hash in H1. apply hash_fold_ok in H1 as [Hall _]; [|done]. rewrite Hp in Hall.
    eexists. by apply hash_fold_ok. }
  destruct H2 as [h2 H2]. by rewrite (diffs_hash_perm diff_json ds1 ds2 h h2 Hp H1 H2).
Qed.

Lemma same_history (h1 h2 : list (CommitRecord V)) :
  Forall2 same_record h1 h2 -> Forall2 same_record (trim_history h1) (trim_history h2).
Proof.
  induction 1 as [|r1 r2 h1 h2 Hr Hh IH]; [done|]. cbn [trim_history].
  assert (Hlen : length (r1 :: h1) = length (r2 :: h2)) by (cbn; f_equal; by eapply Forall2_length).
  rewrite Hlen. destruct (_ <? _)%nat; [done|by constructor].
Qed.
End diffs.

(** Whether every consumer acknowledges does not depend on the order they are called in. *)
Lemma broadcast_all_ok l tick gen :
  broadcast_to l tick gen = Ok tt <-> Forall (fun c => is_ok (c.2 tick gen) = true) l.
Proof.
  induction l as [|[n cb] l IH]; cbn [broadcast_to]; [done|]. rewrite Forall_cons. cbn [snd].
  destruct (cb tick gen) as [u|e]; cbn [map_err is_ok]; [rewrite IH; tauto|]. split; [done|by intros [? _]].
Qed.

Lemma broadcast_orders (b : RefreshSignalBus) (o1 o2 : gset string -> list string) tick gen u :
  (forall X, o1 X ≡ₚ elements X) -> (forall X, o2 X ≡ₚ elements X) ->
  bus_broadcast b o1 tick gen = Ok u -> bus_broadcast b o2 tick gen = Ok tt.
Proof.
  destruct u. intros Ho1 Ho2. unfold bus_broadcast. rewrite !broadcast_all_ok. intros H.
  eapply Permutation_Forall; [|exact H]. apply omap_Permutation. by rewrite Ho1, Ho2.
Qed.

(** What the systems say depends on the systems, the tick and what the engine shows. *)
Section setups.
Context {V : Type} {SO1 SO2 : StoreOps V} {QO1 : @QueryOps V SO1} {QO2 : @QueryOps V SO2} {VO : SaveOps V} {Engine : Type}.
Context (engine1 : @Store V SO1 -> option (@Query V SO1 QO1) -> Engine).
Context (engine2 : @Store V SO2 -> option (@Query V SO2 QO2) -> Engine).

Lemma tick_diffs_setup (s1 : @Scheduler V SO1 QO1 VO Engine) (s2 : @Scheduler V SO2 QO2 VO Engine) order :
  sc_systems s1 = sc_systems s2 -> sc_registrations s1 = sc_registrations s2 -> sc_current_tick s1 = sc_current_tick s2 ->
  engine1 (j_store (sc_journal s1)) (j_query_engine (sc_journal s1)) = engine2 (j_store (sc_journal s2)) (j_query_engine (sc_journal s2)) ->
  tick_diffs engine1 order s1 = tick_diffs engine2 order s2.
Proof.
  destruct s1 as [sys1 regs1 q1 j1 b1 t1 g1 i1], s2 as [sys2 regs2 q2 j2 b2 t2 g2 i2].
  cbn [sc_systems sc_registrations sc_current_tick sc_journal]. intros -> -> -> He.
  unfold tick_diffs, scheduler_current_tick. cbn [sc_journal sc_current_tick]. by rewrite He.
Qed.
End setups.

(** ** Journals in step *)

Section peers.
Context {V : Type} `{AO : ArrowOps} `{AL : !ArrowLaws} `{JR : JsonRead V} `{JL : !JsonLaws V} `{FT : FloatText}.
Context `{CO : !ConcatOps} `{CL : !ConcatLaws}.
(** The iteration orders of the two peers' hash maps. *)
Context (ver1 ver2 : gmap Tick (list RecordBatch) -> list (Tick * list RecordBatch)).
Context (group1 group2 : gmap nat (list (nat * nat)) -> list (nat * list (nat * nat))).
Context (name1 name2 : gmap string VersionedTable -> list string).
Context (Hg1 : orders_groups group1) (Hg2 : orders_groups group2).
Context (Hn1 : forall m, name1 m ≡ₚ (map_to_list m).*1) (Hn2 : forall m, name2 m ≡ₚ (map_to_list m).*1).
Context (diff_json : Diff V -> result string string).

Abbreviation store_ops1 := (tick_store ver1 group1 name1).
Abbreviation store_ops2 := (tick_store ver2 group2 name2).
Abbreviation query_ops1 := (tick_query ver1 group1 name1).
Abbreviation query_ops2 := (tick_query ver2 group2 name2).
Abbreviation Journal1 := (@Journal V store_ops1 query_ops1 (InMemorySaveOps V)).
Abbreviation Journal2 := (@Journal V store_ops2 query_ops2 (InMemorySaveOps V)).
Abbreviation commit1 := (journal_commit (SO := store_ops1) (QO := query_ops1) (VO := InMemorySaveOps V) diff_json).
Abbreviation commit2 := (journal_commit (SO := store_ops2) (QO := query_ops2) (VO := InMemorySaveOps V) diff_json).
Abbreviation store1 := (store_of ver1 group1 name1).
Abbreviation store2 := (store_of ver2 group2 name2).
Abbreviation engine1 := (engine_of ver1 group1 name1).
Abbreviation engine2 := (engine_of ver2 group2 name2).

Definition same_saves (sj1 sj2 : option (InMemorySaveJournal V)) : Prop :=
  option_Forall2 (fun s1 s2 => Forall2 same_record (im_entries s1) (im_entries s2)) sj1 sj2.

Record journals_in_step (j1 : Journal1) (j2 : Journal2) : Prop := {
  js_tick : j_current_tick j1 = j_current_tick j2;
  js_phase : j_phase j1 = j_phase j2;
  js_commands : j_pending_commands j1 = j_pending_commands j2;
  js_diffs : interleaved (j_pending_diffs j1) (j_pending_diffs j2);
  js_history : Forall2 same_record (j_history j1) (j_history j2);
  js_saves : same_saves (j_save_journal j1) (j_save_journal j2);
  js_store : store1 j1 = store2 j2;
  js_engine : engine1 j1 = engine2 j2 }.

(** Every table keeps its specification. *)
Lemma table_run_spec tick reg ds : forall t t',
  table_run ver1 group1 tick reg t ds = Some t' -> vt_spec t' = vt_spec t.
Proof.
  induction ds as [|d ds IH]; intros t t' E; cbn [table_run] in E; [by injection E as <-|].
  destruct (apply_on_table ver1 group1 t tick d reg) as [[t1 [u|e]]|] eqn:E1; [|done..].
  rewrite (IH _ _ E). by eapply (on_table_spec ver1 group1 Hg1).
Qed.

Lemma commit_specified (j j' : Journal1) r :
  commit_succeeded diff_json j j' r -> specified (store1 j) -> specified (store1 j').
Proof.
  intros E Hs. destruct (committed_store ver1 group1 name1 Hg1 diff_json j j' r E) as (s1 & Ha & Ht & _).
  unfold apply_diffs in Ha. destruct (commit_guard (store1 j)); [|done].
  apply (apply_loop_tables ver1 group1) in Ha as [_ Hk]. intros k t Hkt. rewrite Ht in Hkt. specialize (Hk k).
  destruct (as_tables (store1 j) !! k) as [t0|] eqn:E0; destruct Hk as [Hk Hk']; [|congruence].
  destruct Hk' as [Hr Hk']. rewrite Hk' in Hkt. injection Hkt as <-. rewrite (table_run_spec _ _ _ _ _ Hr). by eapply Hs.
Qed.

(** The parts of a commit, carried over. *)
Lemma apply_in_step (s s' : ArrowStore V) tick ds1 ds2 :
  specified s -> interleaved ds1 ds2 ->
  @st_apply_diffs V store_ops1 s tick ds1 = (s', Ok tt) -> @st_apply_diffs V store_ops2 s tick ds2 = (s', Ok tt).
Proof.
  intros Hs [_ Hd] E. cbn in *.
  destruct (apply_diffs ver1 group1 s tick ds1) as [[s1 [[]|e]]|] eqn:E1; cbn [map_err] in E; [|done..].
  injection E as ->. by rewrite (apply_diffs_orders ver1 ver2 group1 group2 Hg1 Hg2 s s' tick ds1 ds2 Hs Hd E1).
Qed.

Lemma append_in_step (sj1 sj2 sj1' : option (InMemorySaveJournal V)) (r1 r2 : CommitRecord V) :
  same_saves sj1 sj2 -> same_record r1 r2 ->
  append_opt (VO := InMemorySaveOps V) sj1 r1 = (sj1', Ok tt) ->
  exists sj2', append_opt (VO := InMemorySaveOps V) sj2 r2 = (sj2', Ok tt) /\ same_saves sj1' sj2'.
Proof.
  intros Hs Hr. destruct Hs as [s1 s2 Hs|]; cbn; intros [= <-]; eexists; (split; [reflexivity|]).
  - constructor. cbn. apply Forall2_app; [done|by constructor].
  - constructor.
Qed.

Lemma publish_in_step (j : Journal1) (j' : Journal1) r qe1 rb :
  commit_succeeded diff_json j j' r ->
  begin_ingest_opt (QO := query_ops1) (engine1 j) = (qe1, Ok rb) ->
  exists qe2 rb2, begin_ingest_opt (QO := query_ops2) (engine1 j) = (qe2, Ok rb2)
  /\ journal_publish (SO := store_ops2) (QO := query_ops2) (store1 j' : ArrowStore V) (j_current_tick j) qe2 = (engine1 j', Ok tt).
Proof.
  intros E Hb. destruct (engine1 j) as [q|] eqn:Eq.
  - destruct (commit_engine_after ver1 group1 name1 Hg1 Hn1 diff_json j j' r q E Eq) as (Ep & -> & Hpub).
    destruct (committed_store ver1 group1 name1 Hg1 diff_json j j' r E) as (_ & _ & _ & _ & Hsnap).
    exists (Some (with_pending_ingest q (Some pending_new))).
    pose proof (publish_exact ver2 group2 name2 Hn2 (store1 j') (j_current_tick j) q Ep Hsnap) as H.
    eexists. split; [unfold begin_ingest_opt; cbn; unfold begin_ingest; by rewrite Ep|].
    match type of H with match ?p with _ => _ end =>
      assert (Hp : p = (Some (engine_after q (store1 j') (j_current_tick j)), Ok tt)); [|exact Hp] end.
    destruct (journal_publish _ _ _) as [qe [[]|e]]; [by destruct H as [-> _]|by destruct H].
  - eexists _, _. split; [reflexivity|]. destruct E as (_ & _ & _ & _ & _ & _ & _ & _ & s1 & _ & _ & qe & rb' & Hb' & Hpub).
    change (j_query_engine j) with (engine1 j) in Hb'. rewrite Eq in Hb'. injection Hb' as <- _.
    cbn in Hpub. injection Hpub as Hpub. cbn. f_equal. exact Hpub.
Qed.

(** A commit of one peer is a commit of the other. *)
Lemma commit_in_step (j1 j1' : Journal1) (j2 : Journal2) r :
  journals_in_step j1 j2 -> specified (store1 j1) -> commit1 j1 = (j1', Ok r) ->
  exists j2', commit2 j2 = (j2', Ok r) /\ journals_in_step j1' j2'.
Proof.
  intros Hj Hs E. apply commit_ok in E as [Hph E]. pose proof E as (Hr & Hh & Ht' & Hph' & Hc' & Hd' & Hhist & Happ & s1 & Ha & Hgen & qe1 & rb & Hb & _).
  destruct (publish_in_step j1 j1' r qe1 rb E Hb) as (qe2 & rb2 & Hb2 & Hp2).
  destruct Hj as [Ht Hph2 Hc Hd Hhist0 Hsv Hst He].
  assert (Hrec : same_record (commit_record j1 (cr_state_hash r)) (commit_record j2 (cr_state_hash r))) by (by split_and!).
  destruct (append_in_step _ _ _ _ _ Hsv Hrec Happ) as (sj2 & Happ2 & Hsv2).
  assert (Ha2 : @st_apply_diffs V store_ops2 (j_store j2) (j_current_tick j2) (j_pending_diffs j2) = (s1, Ok tt)).
  { change (j_store j2) with (store2 j2). rewrite <- Hst, <- Ht. by eapply apply_in_step. }
  assert (Hgen2 : @st_generate_snapshot V store_ops2 s1 (j_current_tick j2) = (store1 j1', Ok tt)) by (rewrite <- Ht; exact Hgen).
  rewrite He in Hb2. rewrite Ht in Hp2.
  pose proof (commit_runs diff_json j2 _ s1 _ _ qe2 rb2 _ sj2 (eq_trans (eq_sym Hph2) Hph) eq_refl Ha2 Hgen2
    (interleaved_hash diff_json _ _ _ Hd Hh) Hb2 Hp2 Happ2) as Hrun.
  eexists. split.
  - rewrite Hrun. f_equal. f_equal. pose proof (Permutation_length (proj1 Hd)). etrans; [|symmetry; exact Hr]. congruence.
  - split; cbn; try done.
    + by rewrite Ht', Ht.
    + by rewrite Hd'.
    + rewrite Hhist. apply same_history, Forall2_app; [done|by constructor].
Qed.

(** ** Schedulers in step *)

Context {Engine : Type} (read_engine : ArrowStore V -> option QueryEngine -> Engine).
Context (reg1 reg2 bus1 bus2 : gset string -> list string).
Context (Hr1 : forall X, reg1 X ≡ₚ elements X) (Hr2 : forall X, reg2 X ≡ₚ elements X).
Context (Hb1 : forall X, bus1 X ≡ₚ elements X) (Hb2 : forall X, bus2 X ≡ₚ elements X).

Abbreviation Sched1 := (@Scheduler V store_ops1 query_ops1 (InMemorySaveOps V) Engine).
Abbreviation Sched2 := (@Scheduler V store_ops2 query_ops2 (InMemorySaveOps V) Engine).
Abbreviation say1 := (tick_diffs (SO := store_ops1) (QO := query_ops1) (VO := InMemorySaveOps V) read_engine reg1).
Abbreviation say2 := (tick_diffs (SO := store_ops2) (QO := query_ops2) (VO := InMemorySaveOps V) read_engine reg2).
Abbreviation ticks1 := (ticks ver1 group1 name1 diff_json read_engine reg1 bus1).
Abbreviation ticks2 := (ticks ver2 group2 name2 diff_json read_engine reg2 bus2).
Abbreviation tick_with1 := (tick_with ver1 group1 name1 diff_json read_engine reg1 bus1).
Abbreviation tick_with2 := (tick_with ver2 group2 name2 diff_json read_engine reg2 bus2).

Record in_step (s1 : Sched1) (s2 : Sched2) : Prop := {
  is_systems : sc_systems s1 = sc_systems s2;
  is_registrations : sc_registrations s1 = sc_registrations s2;
  is_queue : sc_pending_commands s1 = sc_pending_commands s2;
  is_bus : sc_refresh_bus s1 = sc_refresh_bus s2;
  is_current_tick : sc_current_tick s1 = sc_current_tick s2;
  is_generation : sc_generation s1 = sc_generation s2;
  is_initialized : sc_initialized s1 = sc_initialized s2;
  is_journal : journals_in_step (sc_journal s1) (sc_journal s2) }.

(** What a tick keeps, and what keeps two peers in step. *)
Record steady (s : Sched1) : Prop := {
  sy_ready : ready s;
  sy_queue : sc_pending_commands s = [];
  sy_systems : systems_inv s;
  sy_conforming : conforming s;
  sy_specified : specified (store1 (sc_journal s)) }.

Lemma ready_in_step (s1 : Sched1) (s2 : Sched2) : in_step s1 s2 -> ready s1 -> ready s2.
Proof.
  intros [_ _ _ _ Ht _ Hi [Htj Hph Hc [Hd _] _ _ _ _]] (Hini & Hop & Hpc & Hpd & Htick). split_and!; [congruence..| |].
  - rewrite Hpd in Hd. by apply Permutation_nil_l in Hd.
  - unfold scheduler_current_tick in *. congruence.
Qed.

(** The systems say the same, table by table. *)
Lemma say_in_step (s1 : Sched1) (s2 : Sched2) ds1 :
  in_step s1 s2 -> systems_inv s1 -> conforming s1 -> say1 s1 = Ok ds1 ->
  exists ds2, say2 s2 = Ok ds2 /\ interleaved ds1 ds2.
Proof.
  intros [Hsys Hreg _ _ Ht _ _ [_ _ _ _ _ _ Hst He]] Hinv Hconf E.
  destruct (tick_diffs_deterministic (SO := store_ops1) (QO := query_ops1) read_engine s1 reg1 reg2 ds1 Hinv Hconf Hr1 Hr2 E)
    as (ds2 & E2 & Hp & Hk). exists ds2. split; [|by split]. rewrite <- E2. symmetry.
  refine (tick_diffs_setup _ _ s1 s2 reg2 Hsys Hreg Ht _). exact (f_equal2 read_engine Hst He).
Qed.

(** The scheduler with the tick's commands queued and the systems' diffs pending. *)
Lemma pending_in_step (s1 : Sched1) (s2 : Sched2) cs ds1 ds2 :
  in_step s1 s2 -> interleaved ds1 ds2 ->
  journals_in_step (with_pending (sc_journal s1) cs ds1) (with_pending (sc_journal s2) cs ds2).
Proof. intros [_ _ _ _ _ _ _ []] Hd. by split. Qed.

Lemma tick_in_step (s1 s1' : Sched1) (s2 : Sched2) cs r :
  in_step s1 s2 -> steady s1 -> tick_with1 s1 cs = (s1', Ok r) ->
  exists s2', tick_with2 s2 cs = (s2', Ok r) /\ in_step s1' s2'.
Proof.
  intros Hs [Hrdy Hq Hinv Hconf Hspec] E. pose proof (ready_in_step s1 s2 Hs Hrdy) as Hrdy2.
  unfold tick_with in *. rewrite enqueue_all in E |- *. rewrite <- (is_queue _ _ Hs). rewrite Hq in E |- *. cbn [app] in *.
  assert (Hf1 : fresh (with_queue s1 cs)) by (eapply tick_ok_fresh; [exact Hrdy|exact E]).
  assert (Hf2 : fresh (with_queue s2 cs)) by (intros c Hc; rewrite (Hf1 c Hc); exact (f_equal mkTick (is_current_tick _ _ Hs))).
  destruct (tick_ok_parts _ _ _ _ (with_queue s1 cs) s1' r Hrdy E) as (ds1 & j1 & Hds1 & Hc1 & -> & u & Hb).
  destruct (say_in_step s1 s2 ds1 Hs Hinv Hconf Hds1) as (ds2 & Hds2 & Hint).
  destruct (commit_in_step _ j1 _ r (pending_in_step s1 s2 cs ds1 ds2 Hs Hint) Hspec Hc1) as (j2 & Hc2 & Hj).
  destruct (tick_unfold (SO := store_ops2) (QO := query_ops2) diff_json read_engine reg2 bus2 (with_queue s2 cs) Hrdy2 Hf2) as [ds H].
  change (tick_diffs _ _ (with_queue s2 cs)) with (say2 s2) in H. rewrite Hds2 in H. destruct H as [-> H]. cbv zeta in H.
  change (with_pending (sc_journal (with_queue s2 cs)) _ ds2) with (with_pending (sc_journal s2) cs ds2) in H. rewrite Hc2 in H.
  cbn [sc_refresh_bus sc_generation with_queue] in H, Hb. rewrite (is_bus _ _ Hs), (is_generation _ _ Hs) in Hb.
  rewrite (broadcast_orders _ bus1 bus2 _ _ u Hb1 Hb2 Hb) in H. eexists. split; [exact H|].
  destruct Hs as [H1 H2 H3 H4 H5 H6 H7 _]. split; cbn; congruence || exact Hj.
Qed.

Lemma tick_steady (s s' : Sched1) cs r :
  steady s -> 0 <= sc_current_tick s < u64_max - 1 -> tick_with1 s cs = (s', Ok r) ->
  steady s' /\ sc_current_tick s' = sc_current_tick s + 1.
Proof.
  intros [Hrdy Hq Hinv Hconf Hspec] Hb E. unfold tick_with in E. rewrite enqueue_all, Hq in E. cbn [app] in E.
  destruct (tick_succeeds _ _ _ _ (with_queue s cs) s' r Hrdy E) as (_ & Ht & Hini).
  destruct (ticked_ready _ _ _ (with_queue s cs) s' r Hrdy Ht Hini Hb) as [Hr' Hct].
  destruct (tick_ok_parts _ _ _ _ (with_queue s cs) s' r Hrdy E) as (ds & j & _ & Hc & -> & _).
  split; [|exact Hct]. apply commit_ok in Hc as [_ Hc]. split; [done..|]. by eapply (commit_specified _ j r Hc).
Qed.

(** C3: Peers stay in step: two schedulers over the journal, the Arrow store and the query engine that
    differ only in the orders their hash maps iterate in (systems, consumers, tables, versions, row
    groups) go through the same ticks. As long as the ticks of one succeed, with the commands queued
    for each, so do those of the other; and after them the stores and the query engines are equal,
    and the two save journals agree record by record: tick, commands, hash, and the diffs of every
    table in order. *)
Theorem peers_stay_in_step (css : list (list (CommandEnvelope V))) : forall (s1 s1' : Sched1) (s2 : Sched2),
  in_step s1 s2 -> steady s1 ->
  0 <= sc_current_tick s1 -> sc_current_tick s1 + Z.of_nat (length css) < u64_max ->
  ticks1 s1 css = Some s1' ->
  exists s2', ticks2 s2 css = Some s2' /\ in_step s1' s2' /\ steady s1'.
Proof.
  induction css as [|cs css IH]; intros s1 s1' s2 Hs Hy H0 Hb E; cbn [ticks length] in *; [injection E as <-; by exists s2|].
  destruct (tick_with1 s1 cs) as [s1a [r|e]] eqn:E1; [|done].
  destruct (tick_in_step s1 s1a s2 cs r Hs Hy E1) as (s2a & -> & Hsa).
  destruct (tick_steady s1 s1a cs r Hy) as [Hya Hct]; [lia|done|].
  apply (IH s1a s1' s2a Hsa Hya); [lia|lia|done].
Qed.
End peers.
