(* ===== verification/LockstepSamples.v ===== *)
(** * LockstepSamples: two peers whose hash maps iterate in opposite orders

    Two systems of one phase, each writing its own table: the peers run them in opposite orders and
    log their diffs in opposite orders, and hold the same store and the same engine. *)

From Stdlib Require Import Ascii String.
From stdpp Require Import base gmap strings list fin_maps sorting.
From Stdlib Require Import ZArith Lia.
From S2P Require Import Prelude RustStr CoreTypes SchemaTables Relations Registry Journal RuleCore Float64 Rules.
From S2P Require Import Arrow ArrowVec ArrowBatch ArrowBatchFacts StoreIndex ArrowStore StoreFacts StoreRows StoreRuns StoreOrders.
From S2P Require Import WorldView ReadViews ErrorText QueryEngine StoreJournal Rng Systems Scheduler SchedulerFacts StoreSamples ReadSamples.
From S2P Require Import WorldLog WorldTicks WorldLogSamples Lockstep.

Definition fleet_spec : TableSpec :=
  let cols := [mkColumn "id" SemId "u64" false; mkColumn "size" SemQuantity "i64" true] in
  table_rebuild_index (mkTable "fleet" cols ∅ Authority).

Definition both_store : VStore :=
  default store_new
    (to_option (let? (s, _) := create_table store_new army_spec Patchable in
                let? (s, _) := create_table s fleet_spec Patchable in advance_to_simulation s)).

(** The orders of the second peer. *)
Definition rev_orders {K A} `{Countable K} (m : gmap K A) : list (K * A) := rev (map_to_list m).
Definition rev_keys (m : gmap string VersionedTable) : list string := rev (table_keys m).
Definition rev_elements (X : gset string) : list string := rev (elements X).

Lemma rev_orders_groups : orders_groups rev_orders.
Proof. intros m. symmetry. apply Permutation_rev. Qed.
Lemma rev_keys_order m : rev_keys m ≡ₚ (map_to_list m).*1.
Proof. symmetry. apply Permutation_rev. Qed.
Lemma rev_elements_perm X : rev_elements X ≡ₚ elements X.
Proof. symmetry. apply Permutation_rev. Qed.

Abbreviation store_ops1 := (tick_store (V := Json) map_orders map_orders table_keys).
Abbreviation store_ops2 := (tick_store (V := Json) rev_orders rev_orders rev_keys).
Abbreviation query_ops1 := (tick_query (V := Json) map_orders map_orders table_keys).
Abbreviation query_ops2 := (tick_query (V := Json) rev_orders rev_orders rev_keys).

Definition both_engine : QueryEngine :=
  engine_new (mkRegistry {["army" := army_spec; "fleet" := fleet_spec]} graph_new true [] None).

Definition writer_system (id table : string) : SimSystem (option QueryEngine) Json :=
  mkSystem id Military [] [table] None (fun _ _ _ tick =>
    Ok [if tick =? 0 then Insert table (mkRowId 1) (army_row 1 10) else Update table (mkRowId 1) "size" (JInt (10 + tick))]).

Definition writers : gmap string (SimSystem (option QueryEngine) Json) :=
  <["navy" := writer_system "navy" "fleet"]> {["war" := writer_system "war" "army"]}.

Definition viewer_bus : RefreshSignalBus :=
  mkBus {["view" := fun _ _ => Ok tt; "log" := fun _ _ => Ok tt]}.

Definition peer_journal {SO : StoreOps Json} {QO : @QueryOps Json SO} (store : @Store Json SO) (q : @Query Json SO QO) :
    @Journal Json SO QO (InMemorySaveOps Json) :=
  mkJournal tick_ZERO PhaseOpen [] [] [] (Some inmem_new) store (Some q).

Definition peer1 : @Scheduler Json store_ops1 query_ops1 (InMemorySaveOps Json) (option QueryEngine) :=
  mkScheduler (SO := store_ops1) (QO := query_ops1) writers (registration_from_system <$> writers) []
    (peer_journal (SO := store_ops1) (QO := query_ops1) both_store both_engine) viewer_bus 0 0 true.
Definition peer2 : @Scheduler Json store_ops2 query_ops2 (InMemorySaveOps Json) (option QueryEngine) :=
  mkScheduler (SO := store_ops2) (QO := query_ops2) writers (registration_from_system <$> writers) []
    (peer_journal (SO := store_ops2) (QO := query_ops2) both_store both_engine) viewer_bus 0 0 true.

Lemma peers_in_step : in_step map_orders rev_orders map_orders rev_orders table_keys rev_keys peer1 peer2.
Proof. split; [reflexivity..|]. split; try reflexivity; constructor; constructor. Qed.

Lemma writers_lookup id sys : writers !! id = Some sys ->
  (id = "navy" /\ sys = writer_system "navy" "fleet") \/ (id = "war" /\ sys = writer_system "war" "army").
Proof. unfold writers. intros [[<- <-]|[_ [<- <-]%lookup_singleton_Some]]%lookup_insert_Some; auto. Qed.

Lemma peer1_systems : systems_inv peer1 /\ conforming peer1.
Proof.
  split; [split; [|split; [reflexivity|]]|].
  - intros id sys [[-> ->]|[-> ->]]%writers_lookup; reflexivity.
  - intros a b ra rb Hab Ha Hb. cbn [sc_registrations peer1] in Ha, Hb. rewrite lookup_fmap in Ha, Hb.
    apply fmap_Some in Ha as (sa & Ha & ->), Hb as (sb & Hb & ->).
    apply writers_lookup in Ha as [[-> ->]|[-> ->]], Hb as [[-> ->]|[-> ->]];
      try (destruct Hab; reflexivity); vm_compute; reflexivity.
  - intros id sys Hs rng engine p tick ds He d Hd.
    apply writers_lookup in Hs as [[-> ->]|[-> ->]]; cbn [sys_execute writer_system] in He; injection He as <-;
      apply list_elem_of_singleton in Hd as ->; destruct (tick =? 0); left.
Qed.

Definition all_specified (s : VStore) : bool := forallb (fun kt => match vt_spec kt.2 with Some _ => true | None => false end) (map_to_list (as_tables s)).

Lemma all_specified_spec s : all_specified s = true -> specified s.
Proof.
  unfold all_specified. rewrite forallb_forall. intros H k t Hk. specialize (H (k, t)). cbn [snd] in H.
  destruct (vt_spec t); [by eexists|]. discriminate H. by apply list_elem_of_In, elem_of_map_to_list.
Qed.

Lemma peer1_steady : steady map_orders map_orders table_keys peer1.
Proof.
  split; [repeat split|reflexivity|apply peer1_systems|apply peer1_systems|]. apply all_specified_spec. vm_compute. reflexivity.
Qed.

Abbreviation peer1_ticks := (ticks map_orders map_orders table_keys diff_text (fun _ q => q) elements elements peer1 two_queues).
Abbreviation peer2_ticks := (ticks rev_orders rev_orders rev_keys diff_text (fun _ q => q) rev_elements rev_elements peer2 two_queues).
Abbreviation logged_tables log := (fmap diff_table <$> (rec_diffs <$> log)).

Lemma peers_stay_in_step_witness :
  exists s1' s2', peer1_ticks = Some s1' /\ peer2_ticks = Some s2'
  /\ store_of map_orders map_orders table_keys (sc_journal s1') = store_of rev_orders rev_orders rev_keys (sc_journal s2')
  /\ logged_tables (log_of map_orders map_orders table_keys (sc_journal s1')) = [["army"; "fleet"]; ["army"; "fleet"]]
  /\ logged_tables (log_of rev_orders rev_orders rev_keys (sc_journal s2')) = [["fleet"; "army"]; ["fleet"; "army"]].
Proof.
  assert (H1 : (fun s' => logged_tables (log_of map_orders map_orders table_keys (sc_journal s'))) <$> peer1_ticks
    = Some [["army"; "fleet"]; ["army"; "fleet"]]) by (vm_compute; reflexivity).
  assert (H2 : (fun s' => logged_tables (log_of rev_orders rev_orders rev_keys (sc_journal s'))) <$> peer2_ticks
    = Some [["fleet"; "army"]; ["fleet"; "army"]]) by (vm_compute; reflexivity).
  destruct peer1_ticks as [s1'|] eqn:E1; [|discriminate H1].
  destruct (peers_stay_in_step map_orders rev_orders map_orders rev_orders table_keys rev_keys map_orders_groups rev_orders_groups
    table_keys_order rev_keys_order diff_text (fun _ q => q) elements rev_elements elements rev_elements
    (fun X => Permutation_refl _) rev_elements_perm (fun X => Permutation_refl _) rev_elements_perm
    two_queues peer1 s1' peer2 peers_in_step peer1_steady) as (s2' & E2 & Hs & _).
  - reflexivity.
  - vm_compute. reflexivity.
  - exact E1.
  - rewrite E2 in H2. exists s1', s2'. split; [reflexivity|]. split; [exact E2|]. split; [exact (js_store _ _ _ _ _ _ _ _ (is_journal _ _ _ _ _ _ _ _ Hs))|].
    apply (f_equal (from_option id [])) in H1, H2. split; [exact H1|exact H2].
Defined.
