(* ===== verification/SqlParser.v ===== *)
(** * SqlParser: the handwritten SQL parser of the journal's debug writer

    Models [sql_parser.rs] of [scharnhorst_journal] and, from [journal.rs], the legacy
    [DebugWriteJournal] that feeds it. The tokenizer's state is the text it has not read yet,
    [input[pos..]], as UTF-8 bytes; a byte below 128 is never part of a longer character, so looking
    for an ASCII character is looking for its byte. Slicing a [str] inside a character panics: that
    is [None]. The debug texts of floats and strings are parameters. *)

From Stdlib Require Import Ascii String SpecFloat.
From stdpp Require Import base gmap strings list.
From Stdlib Require Import ZArith Lia.
From S2P Require Import Prelude RustStr CoreTypes FixedPoint Float64 Journal Rules Arrow.

Abbreviation text := (list ascii).
Definition lit (s : string) : text := list_ascii_of_string s.
Definition str (l : text) : string := string_of_list_ascii l.

(** ** Characters *)

Definition ascii_upper (c : ascii) : bool := let n := N_of_ascii c in ((65 <=? n) && (n <=? 90))%N.
Definition ascii_lower (c : ascii) : bool := let n := N_of_ascii c in ((97 <=? n) && (n <=? 122))%N.
Definition ascii_alphabetic (c : ascii) : bool := ascii_upper c || ascii_lower c.
Definition ascii_digit (c : ascii) : bool := let n := N_of_ascii c in ((48 <=? n) && (n <=? 57))%N.
Definition ascii_alphanumeric (c : ascii) : bool := ascii_alphabetic c || ascii_digit c.
Definition underscore (c : ascii) : bool := bool_decide (c = "_"%char).
(** A byte of an identifier. *)
Definition word_char (c : ascii) : bool := ascii_alphanumeric c || underscore c.

Definition to_upper (c : ascii) : ascii := if ascii_lower c then ascii_of_N (N_of_ascii c - 32) else c.
Definition to_lower (c : ascii) : ascii := if ascii_upper c then ascii_of_N (N_of_ascii c + 32) else c.
Definition to_ascii_uppercase (l : text) : text := to_upper <$> l.
Definition to_ascii_lowercase (l : text) : text := to_lower <$> l.
Definition eq_ignore_ascii_case (l k : text) : bool :=
  bool_decide (to_ascii_lowercase l = to_ascii_lowercase k).

(** [s.is_char_boundary(n)]: the byte at [n] does not continue a character. *)
Definition is_char_boundary (l : text) (n : nat) : bool :=
  match l !! n with
  | Some c => let b := N_of_ascii c in negb ((128 <=? b) && (b <? 192))%N
  | None => (n =? length l)%nat
  end.

Definition squote : ascii := "'".
Definition dquote : ascii := ascii_of_nat 34.

(** ** Statements *)

Inductive ComparisonOp := OpEq | OpLt | OpGt | OpLe | OpGe | OpNe.
#[export] Instance ComparisonOp_eq_dec : EqDecision ComparisonOp.
Proof. solve_decision. Defined.

Inductive SqlValue :=
| SqlInteger (i : Z)
| SqlFloat (f : f64)
| SqlString (s : string)
| SqlBoolean (b : bool)
| SqlNull.

Record WhereCondition := mkWhere { wc_column : string; wc_operator : ComparisonOp; wc_value : SqlValue }.

Inductive SqlStatement :=
| SqlUpdate (table column : string) (value : SqlValue) (condition : WhereCondition)
| SqlInsert (table : string) (columns : list string) (values : list SqlValue)
| SqlDelete (table : string) (condition : WhereCondition).

(** ** Numbers *)

(** [p / q], rounded to nearest, ties to even *)
Definition f64_of_ratio (negative : bool) (p q : Z) : f64 :=
  match p with
  | Z0 => S754_zero negative
  | _ => let '(m, e, l) := SFdiv_core_binary 53 1024 p 0 q 0 in binary_round_aux 53 1024 negative m e l
  end.

(** Reads digits: the value after them, their number, and the rest. *)
Fixpoint take_digits (l : text) (acc : Z) (n : nat) : Z * nat * text :=
  match l with
  | c :: l' => match to_digit c with Some d => take_digits l' (acc * 10 + d) (S n) | None => (acc, n, l) end
  | [] => (acc, n, [])
  end.

(** [s.parse::<f64>()] of a text of digits with a sign and a dot at most. *)
Definition parse_decimal (l : text) : option f64 :=
  let '(negative, l) :=
    match l with "-"%char :: l => (true, l) | "+"%char :: l => (false, l) | _ => (false, l) end in
  let '(whole, n, l) := take_digits l 0 0 in
  let '(digits, k, l) := match l with "."%char :: l => take_digits l whole 0 | _ => (whole, O, l) end in
  match l with
  | [] => if (n + k =? 0)%nat then None else Some (f64_of_ratio negative digits (10 ^ Z.of_nat k))
  | _ => None
  end.

(** ** The tokenizer *)

Definition skip_whitespace (t : text) : text := drop_all_ws (length t) false t.

(** What a call gives: [None] when it panics. *)
Abbreviation Parsed A := (option (JournalResult A)).

Notation "'let!' x := m 'in' k" :=
  (match m with Some (Ok x) => k | Some (Err e) => Some (Err e) | None => None end)
  (at level 200, x pattern, m at level 200, k at level 200) : engine_scope.

Definition ensure_finished (t : text) (statement : string) : JournalResult unit :=
  match skip_whitespace t with
  | [] => Ok tt
  | _ => Err (JSqlParse ("unexpected trailing tokens after " +:+ statement))
  end.

Definition peek_char (t : text) : option ascii := head (skip_whitespace t).

(** Whether a word ends here: the next byte is not an ASCII letter or digit, nor the next
    character an underscore. *)
Definition word_end (t : text) : bool := match t with [] => true | c :: _ => negb (word_char c) end.

(** [Some None] when the keyword is not there. *)
Definition consume_keyword (t : text) (keyword : string) : option (option text) :=
  let remaining := skip_whitespace t in
  let keyword_len := String.length keyword in
  if (keyword_len <=? length remaining)%nat then
    if is_char_boundary remaining keyword_len then
      let rest := drop keyword_len remaining in
      if eq_ignore_ascii_case (take keyword_len remaining) (lit keyword) && word_end rest
      then Some (Some rest) else Some None
    else None
  else Some None.

Definition consume_operator (t : text) (op : string) : option text :=
  let remaining := skip_whitespace t in
  if starts_with remaining (lit op) then Some (drop (String.length op) remaining) else None.

(** The longest prefix of bytes that fit, and the rest. *)
Fixpoint span (p : ascii -> bool) (l : text) : text * text :=
  match l with
  | c :: l' => if p c then let '(a, b) := span p l' in (c :: a, b) else ([], l)
  | [] => ([], [])
  end.

Definition next_identifier (t : text) : option (string * text) :=
  match skip_whitespace t with
  | [] => None
  | (c :: _) as remaining =>
      if negb (ascii_alphabetic c) && negb (underscore c) then None
      else let '(ident, rest) := span word_char remaining in Some (str ident, rest)
  end.

Definition next_comparison_op (t : text) : option (ComparisonOp * text) :=
  let remaining := skip_whitespace t in
  if starts_with remaining (lit "<=") then Some (OpLe, drop 2 remaining)
  else if starts_with remaining (lit ">=") then Some (OpGe, drop 2 remaining)
  else if starts_with remaining (lit "!=") || starts_with remaining (lit "<>") then Some (OpNe, drop 2 remaining)
  else if starts_with remaining (lit "<") then Some (OpLt, drop 1 remaining)
  else if starts_with remaining (lit ">") then Some (OpGt, drop 1 remaining)
  else if starts_with remaining (lit "=") then Some (OpEq, drop 1 remaining)
  else None.

(** The bytes up to the closing quote, doubled quotes left doubled. *)
Fixpoint scan_quoted (quote : ascii) (l : text) : option (text * text) :=
  match l with
  | [] => None
  | c :: l' =>
      if bool_decide (c = quote) then
        match l' with
        | d :: l'' =>
            if bool_decide (d = quote) then
              match scan_quoted quote l'' with
              | Some (value, rest) => Some (c :: d :: value, rest)
              | None => None
              end
            else Some ([], l')
        | [] => Some ([], [])
        end
      else match scan_quoted quote l' with
           | Some (value, rest) => Some (c :: value, rest)
           | None => None
           end
  end.

(** [value.replace(qq, q)] *)
Fixpoint undouble (quote : ascii) (l : text) : text :=
  match l with
  | [] => []
  | c :: l' =>
      match l' with
      | d :: l'' =>
          if bool_decide (c = quote) && bool_decide (d = quote) then quote :: undouble quote l''
          else c :: undouble quote l'
      | [] => [c]
      end
  end.

Definition parse_string_literal (t : text) (quote : ascii) : option (SqlValue * text) :=
  match skip_whitespace t with
  | c :: l =>
      if bool_decide (c = quote) then
        '(value, rest) ← scan_quoted quote l;
        Some (SqlString (str (undouble quote value)), rest)
      else None
  | [] => None
  end.

Definition parse_keyword_value (t : text) : option (SqlValue * text) :=
  let '(word, rest) := span ascii_alphabetic (skip_whitespace t) in
  let word_upper := to_ascii_uppercase word in
  if bool_decide (word_upper = lit "TRUE") then Some (SqlBoolean true, rest)
  else if bool_decide (word_upper = lit "FALSE") then Some (SqlBoolean false, rest)
  else if bool_decide (word_upper = lit "NULL") then Some (SqlNull, rest)
  else None.

(** The loop of [parse_number]: [first] at the first byte; how many bytes are the number's, and
    whether a dot is among them. *)
Fixpoint scan_number (first has_dot : bool) (l : text) : nat * bool :=
  match l with
  | [] => (O, has_dot)
  | c :: l' =>
      let next has_dot := let '(n, dot) := scan_number false has_dot l' in (S n, dot) in
      if ascii_digit c then next has_dot
      else if bool_decide (c = "."%char) && negb has_dot && negb first then next true
      else if (bool_decide (c = "-"%char) || bool_decide (c = "+"%char)) && first then next has_dot
      else (O, has_dot)
  end.

Definition parse_number (t : text) : option (SqlValue * text) :=
  let remaining := skip_whitespace t in
  let '(end_pos, has_dot) := scan_number true false remaining in
  if (end_pos =? 0)%nat
     || (end_pos =? 1)%nat && negb (match remaining with c :: _ => ascii_digit c | [] => false end)
  then None
  else
    let num_str := take end_pos remaining in
    let rest := drop end_pos remaining in
    if has_dot then f ← parse_decimal num_str; Some (SqlFloat f, rest)
    else match parse_i64 (str num_str) with Ok i => Some (SqlInteger i, rest) | Err _ => None end.

Definition next_value (t : text) : option (SqlValue * text) :=
  match skip_whitespace t with
  | [] => None
  | c :: _ =>
      if bool_decide (c = squote) || bool_decide (c = dquote) then parse_string_literal t c
      else if ascii_alphabetic c then parse_keyword_value t
      else if ascii_digit c || bool_decide (c = "-"%char) || bool_decide (c = "+"%char) then parse_number t
      else None
  end.

(** The loop of the two parenthesised lists: each round takes an item and a comma at least. *)
Fixpoint paren_loop {A} (item : text -> option (A * text)) (fuel : nat) (items : list A) (t : text)
  : option (list A * text) :=
  match fuel with
  | O => None
  | S fuel =>
      if bool_decide (peek_char t = Some ")"%char) then Some (items, tail (skip_whitespace t))
      else
        '(x, t) ← item t;
        let items := items ++ [x] in
        if bool_decide (peek_char t = Some ","%char) then paren_loop item fuel items (tail (skip_whitespace t))
        else if bool_decide (peek_char t = Some ")"%char) then Some (items, tail (skip_whitespace t))
        else None
  end.

Definition next_paren {A} (item : text -> option (A * text)) (t : text) : option (list A * text) :=
  match skip_whitespace t with
  | c :: l => if bool_decide (c = "("%char) then paren_loop item (S (length l)) [] l else None
  | [] => None
  end.
Definition next_paren_list : text -> option (list string * text) := next_paren next_identifier.
Definition next_paren_values : text -> option (list SqlValue * text) := next_paren next_value.

(** ** The parser *)

Definition expect {A} (o : option A) (message : string) : Parsed A := Some (ok_or o (JSqlParse message)).
Definition expect_keyword (t : text) (keyword message : string) : Parsed text :=
  match consume_keyword t keyword with
  | Some o => expect o message
  | None => None
  end.

Definition strip_statement_keyword (sql : text) (keyword : string) : JournalResult text :=
  let trimmed := skip_whitespace sql in
  let keyword_len := String.length keyword in
  let refused := Err (JSqlParse ("expected " +:+ keyword)) in
  if (keyword_len <=? length trimmed)%nat && is_char_boundary trimmed keyword_len then
    if negb (eq_ignore_ascii_case (take keyword_len trimmed) (lit keyword)) then refused
    else if negb (word_end (drop keyword_len trimmed)) then refused
    else Ok (drop keyword_len trimmed)
  else refused.

Definition parse_where_clause (t : text) : Parsed (WhereCondition * text) :=
  let! (column, t) := expect (next_identifier t) "expected column name in WHERE" in
  let! (operator, t) := expect (next_comparison_op t) "expected comparison operator in WHERE" in
  let! (value, t) := expect (next_value t) "expected value in WHERE" in
  Some (Ok (mkWhere column operator value, t)).

Definition parse_update (sql : text) : Parsed SqlStatement :=
  let! t := Some (strip_statement_keyword sql "UPDATE") in
  let! (table, t) := expect (next_identifier t) "expected table name after UPDATE" in
  let! t := expect_keyword t "SET" "expected SET after table name" in
  let! (column, t) := expect (next_identifier t) "expected column name after SET" in
  let! t := expect (consume_operator t "=") "expected = after column name" in
  let! (value, t) := expect (next_value t) "expected value after =" in
  let! t := expect_keyword t "WHERE" "expected WHERE clause" in
  let! (condition, t) := parse_where_clause t in
  let! _ := Some (ensure_finished t "UPDATE") in
  Some (Ok (SqlUpdate table column value condition)).

Definition parse_insert (sql : text) : Parsed SqlStatement :=
  let! t := Some (strip_statement_keyword sql "INSERT") in
  let! t := expect_keyword t "INTO" "expected INTO after INSERT" in
  let! (table, t) := expect (next_identifier t) "expected table name after INTO" in
  let! (columns, t) := expect (next_paren_list t) "expected column list (col1, col2, ...)" in
  let! t := expect_keyword t "VALUES" "expected VALUES after column list" in
  let! (values, t) := expect (next_paren_values t) "expected value list (val1, val2, ...)" in
  if negb (length columns =? length values)%nat then
    Some (Err (JSqlParse ("column count (" +:+ show_u64 (Z.of_nat (length columns))
                          +:+ ") does not match value count (" +:+ show_u64 (Z.of_nat (length values)) +:+ ")")))
  else
    let! _ := Some (ensure_finished t "INSERT") in
    Some (Ok (SqlInsert table columns values)).

Definition parse_delete (sql : text) : Parsed SqlStatement :=
  let! t := Some (strip_statement_keyword sql "DELETE") in
  let! t := expect_keyword t "FROM" "expected FROM after DELETE" in
  let! (table, t) := expect (next_identifier t) "expected table name after FROM" in
  let! t := expect_keyword t "WHERE" "expected WHERE clause" in
  let! (condition, t) := parse_where_clause t in
  let! _ := Some (ensure_finished t "DELETE") in
  Some (Ok (SqlDelete table condition)).

(** [s.split_whitespace().next()] of a text that starts with no white space *)
Fixpoint first_word (l : text) : text :=
  match l with
  | [] => []
  | c :: l' => match drop_ws false l with Some _ => [] | None => c :: first_word l' end
  end.

Definition sql_parse (sql : string) : Parsed SqlStatement :=
  let trimmed := lit (trim sql) in
  match trimmed with
  | [] => Some (Err (JSqlParse "empty SQL statement"))
  | _ =>
      let word := to_ascii_uppercase (first_word trimmed) in
      if bool_decide (word = lit "UPDATE") then parse_update trimmed
      else if bool_decide (word = lit "INSERT") then parse_insert trimmed
      else if bool_decide (word = lit "DELETE") then parse_delete trimmed
      else Some (Err (JSqlUnsupported ("unsupported SQL statement type: " +:+ str word)))
  end.

(** ** From statements to diffs *)

(** [serde_json::Number::from(i64)] *)
Class JsonInteger (V : Type) := { json_i64 : Z -> V }.
(** [{:?}] of a float and of a string *)
Class DebugText := { debug_f64 : f64 -> string; debug_str : string -> string }.

Definition sql_value_debug `{DebugText} (v : SqlValue) : string :=
  match v with
  | SqlInteger i => "Integer(" +:+ show_i64 i +:+ ")"
  | SqlFloat f => "Float(" +:+ debug_f64 f +:+ ")"
  | SqlString s => "String(" +:+ debug_str s +:+ ")"
  | SqlBoolean b => "Boolean(" +:+ (if b then "true" else "false") +:+ ")"
  | SqlNull => "Null"
  end.

Definition sql_value_to_row_id `{DebugText} (v : SqlValue) : JournalResult RowId :=
  let refused := Err (JSqlTypeError "positive integer (row id)" (sql_value_debug v)) in
  match v with
  | SqlInteger i => if 0 <=? i then Ok (mkRowId (wrap64 i)) else refused
  | _ => refused
  end.

Definition extract_row_id_from_condition `{DebugText} (c : WhereCondition) : JournalResult RowId :=
  if negb (bool_decide (wc_operator c = OpEq))
  then Err (JSqlUnsupported "WHERE clause must use = operator for row identification")
  else
    let col_lower := to_ascii_lowercase (lit (wc_column c)) in
    if negb (ends_with col_lower (lit "_id")) && negb (bool_decide (col_lower = lit "id"))
       && negb (bool_decide (col_lower = lit "row_id"))
    then Err (JSqlUnsupported ("WHERE clause must use an id column for row identification, got: " +:+ wc_column c))
    else sql_value_to_row_id (wc_value c).

Section diffs.
Context {V : Type} `{JO : JsonOps V} `{JI : JsonInteger V} `{JR : JsonRead V} `{DT : DebugText}.

Definition sql_to_json (v : SqlValue) : V :=
  match v with
  | SqlInteger i => json_i64 i
  | SqlFloat f => default json_null (json_from_f64 f)
  | SqlString s => json_string s
  | SqlBoolean b => json_bool b
  | SqlNull => json_null
  end.

Definition names_row (column : string) : bool :=
  eq_ignore_ascii_case (lit column) (lit "row_id") || eq_ignore_ascii_case (lit column) (lit "id")
  || eq_ignore_ascii_case (lit column) (lit "actor_id").

(** One round of the loop over the columns of an [INSERT]. *)
Definition insert_column (acc : option RowId * gmap string V) (cv : string * SqlValue)
  : JournalResult (option RowId * gmap string V) :=
  let '(row_id, value_map) := acc in
  let '(col, val) := cv in
  let? row_id := if names_row col then map_ok Some (sql_value_to_row_id val) else Ok row_id in
  Ok (row_id, <[col := sql_to_json val]> value_map).

Definition statement_to_diff (stmt : SqlStatement) : JournalResult (Diff V) :=
  match stmt with
  | SqlUpdate table column value condition =>
      let? row_id := extract_row_id_from_condition condition in
      Ok (Update table row_id column (sql_to_json value))
  | SqlInsert table columns values =>
      if negb (length columns =? length values)%nat
      then Err (JSqlParse "column count does not match value count")
      else
        let? (row_id, value_map) := try_fold insert_column (None, ∅) (zip columns values) in
        let? row_id := ok_or row_id (JSqlParse "INSERT must specify a row identifier column") in
        Ok (Insert table row_id value_map)
  | SqlDelete table condition =>
      let? row_id := extract_row_id_from_condition condition in
      Ok (Delete table row_id)
  end.
End diffs.

(** ** The legacy debug writer *)

(** [SystemTime::now()] of each logged statement is the parameter [Time]. *)
Record LegacyDebugWriteJournal (Time : Type) := mkDebugWrite { dw_enabled : bool; dw_sql_log : list (string * Time) }.
Arguments mkDebugWrite {Time}.
Arguments dw_enabled {Time}.
Arguments dw_sql_log {Time}.

Definition debug_write_new {Time} : LegacyDebugWriteJournal Time := mkDebugWrite true [].
Definition debug_write_set_enabled {Time} (w : LegacyDebugWriteJournal Time) (b : bool) : LegacyDebugWriteJournal Time :=
  mkDebugWrite b (dw_sql_log w).
Definition debug_write_clear_sql_log {Time} (w : LegacyDebugWriteJournal Time) : LegacyDebugWriteJournal Time :=
  mkDebugWrite (dw_enabled w) [].

Section writer.
Context {V Time : Type} `{JO : JsonOps V} `{JI : JsonInteger V} `{JR : JsonRead V} `{DT : DebugText}.
Context `{SO : StoreOps V} `{QO : !QueryOps V} `{VO : SaveOps V}.

(** The writer and the journal it leaves, with the outcome. *)
Definition execute_sql (w : LegacyDebugWriteJournal Time) (j : Journal) (sql : string) (now : Time)
  : option (LegacyDebugWriteJournal Time * Journal * JournalResult unit) :=
  if negb (dw_enabled w) then Some (w, j, Err (JSubmitFailed "DebugWriteJournal is disabled"))
  else
    let w := mkDebugWrite (dw_enabled w) (dw_sql_log w ++ [(sql, now)]) in
    stmt ← sql_parse sql;
    match (let? stmt := stmt in let? diff := statement_to_diff stmt in journal_submit_diff j diff) with
    | Ok j' => Some (w, j', Ok tt)
    | Err e => Some (w, j, Err e)
    end.
End writer.

Example parse_sample_update :
  sql_parse " update army set strength = -7 where ID=3 " =
  Some (Ok (SqlUpdate "army" "strength" (SqlInteger (-7)) (mkWhere "ID" OpEq (SqlInteger 3)))).
Proof. vm_compute. reflexivity. Qed.
Example parse_sample_insert :
  sql_parse "INSERT INTO t(id, name,) VALUES (1, 'it''s', )" =
  Some (Ok (SqlInsert "t" ["id"; "name"] [SqlInteger 1; SqlString "it's"])).
Proof. vm_compute. reflexivity. Qed.
Example parse_sample_float :
  sql_parse "DELETE FROM t WHERE x <> -2.5" =
  Some (Ok (SqlDelete "t" (mkWhere "x" OpNe (SqlFloat (f64_div (f64_of_Z (-5)) (f64_of_Z 2)))))).
Proof. vm_compute. reflexivity. Qed.
Example parse_tenth : parse_decimal (lit ".1") = Some (f64_div (f64_of_Z 1) (f64_of_Z 10)).
Proof. vm_compute. reflexivity. Qed.
