(* ===== verification/SqlGrammar.v ===== *)
(** * SqlGrammar: the language the SQL parser accepts

    A declarative grammar of the statements of [SqlParser.v]: each phrase is a relation between
    the text before and after it, spelled as a concatenation. The parser accepts exactly this
    language and builds the statement the grammar says; it never panics on ASCII text. *)

From Stdlib Require Import Ascii String.
From stdpp Require Import base gmap strings list.
From Stdlib Require Import ZArith Lia.
From S2P Require Import Prelude RustStr CoreTypes Float64 Journal Rules Arrow SqlParser.

(** ** White space *)

(** The UTF-8 bytes of a white space character. *)
Inductive ws_char : text -> Prop :=
| ws_char1 a : ws1 (N_of_ascii a) = true -> ws_char [a]
| ws_char2 a b : ws2 (N_of_ascii a) (N_of_ascii b) = true -> ws_char [a; b]
| ws_char3 a b c : ws3 (N_of_ascii a) (N_of_ascii b) (N_of_ascii c) = true -> ws_char [a; b; c].

Inductive blank : text -> Prop :=
| blank_nil : blank []
| blank_cons c w : ws_char c -> blank w -> blank (c ++ w).

#[export] Hint Constructors ws_char blank : engine.

(** The first byte of white space is no ASCII word byte, and continues no character. *)
Lemma ws_lead a : ws1 a = true \/ (exists b, ws2 a b = true) \/ (exists b c, ws3 a b c = true) ->
  (9 <= a <= 13 \/ a = 32 \/ a = 194 \/ 225 <= a <= 227)%N.
Proof.
  unfold ws1, ws2, ws3.
  intros [H|[[b H]|(b & c & H)]];
    repeat rewrite ?orb_true_iff, ?andb_true_iff, ?N.leb_le, ?N.eqb_eq in H; lia.
Qed.

Lemma ws_char_lead c : ws_char c ->
  exists a l, c = a :: l /\ let n := N_of_ascii a in (9 <= n <= 13 \/ n = 32 \/ n = 194 \/ 225 <= n <= 227)%N.
Proof. intros []; eexists _, _; (split; [done|]); apply ws_lead; eauto. Qed.

Lemma drop_ws_char c r : ws_char c -> drop_ws false (c ++ r) = Some r.
Proof.
  intros []; simpl.
  - by rewrite H.
  - assert (ws1 (N_of_ascii a) = false) as ->; [|by rewrite H].
    unfold ws2 in H. apply andb_true_iff in H as [->%N.eqb_eq _]. done.
  - assert (ws1 (N_of_ascii a) = false /\ ws2 (N_of_ascii a) (N_of_ascii b) = false) as [-> ->]; [|by rewrite H].
    unfold ws3 in H. repeat rewrite ?orb_true_iff, ?andb_true_iff, ?N.eqb_eq in H.
    decompose [and or] H; by repeat match goal with E : N_of_ascii _ = _ |- _ => rewrite E; clear E end.
Qed.

Lemma drop_ws_Some l r : drop_ws false l = Some r -> exists c, ws_char c /\ l = c ++ r.
Proof.
  destruct l as [|a l]; [done|]. simpl.
  destruct (ws1 _) eqn:E1; [intros [= <-]; exists [a]; auto with engine|].
  destruct l as [|b l]; [done|]. destruct (ws2 _ _) eqn:E2; [intros [= <-]; exists [a; b]; auto with engine|].
  destruct l as [|c l]; [done|]. destruct (ws3 _ _ _) eqn:E3; [|done].
  intros [= <-]. exists [a; b; c]. auto with engine.
Qed.

Lemma drop_all_blank w : blank w -> forall fuel r, (length w <= fuel)%nat -> drop_ws false r = None ->
  drop_all_ws fuel false (w ++ r) = r.
Proof.
  induction 1 as [|c w Hc Hw IH]; intros fuel r Hf Hr.
  - destruct fuel; [done|]. cbn [drop_all_ws app]. by rewrite Hr.
  - rewrite length_app in Hf. destruct (ws_char_lead c Hc) as (a & l & -> & _).
    destruct fuel as [|fuel]; [simpl in Hf; lia|]. cbn [drop_all_ws]. rewrite <- app_assoc, drop_ws_char by done.
    apply IH; [simpl in Hf; lia|done].
Qed.

Lemma drop_all_ws_spec fuel l : (length l <= fuel)%nat ->
  exists w, blank w /\ l = w ++ drop_all_ws fuel false l /\ drop_ws false (drop_all_ws fuel false l) = None.
Proof.
  revert l. induction fuel as [|fuel IH]; intros l Hf.
  - destruct l; [|simpl in Hf; lia]. exists []. auto with engine.
  - cbn [drop_all_ws]. destruct (drop_ws false l) as [l'|] eqn:E; [|exists []; auto with engine].
    apply drop_ws_Some in E as (c & Hc & ->). destruct (ws_char_lead c Hc) as (a & k & -> & _).
    rewrite length_app in Hf. destruct (IH l') as (w & Hw & E & Hd); [simpl in Hf; lia|].
    exists ((a :: k) ++ w). rewrite <- app_assoc, <- E. auto with engine.
Qed.

Lemma skip_blank w r : blank w -> drop_ws false r = None -> skip_whitespace (w ++ r) = r.
Proof. intros. apply drop_all_blank; [done| |done]. rewrite length_app. lia. Qed.

Lemma skip_spec t : exists w, blank w /\ t = w ++ skip_whitespace t /\ drop_ws false (skip_whitespace t) = None.
Proof. by apply drop_all_ws_spec. Qed.

Lemma skip_plain w c r : blank w -> plain c -> skip_whitespace (w ++ c :: r) = c :: r.
Proof. intros Hw Hc. apply skip_blank; [done|]. by apply drop_ws_plain. Qed.

Lemma skip_nil t : skip_whitespace t = [] <-> blank t.
Proof.
  split.
  - intros E. destruct (skip_spec t) as (w & Hw & Et & _). rewrite E, app_nil_r in Et. by subst.
  - intros H. rewrite <- (app_nil_r t). by apply skip_blank.
Qed.

Lemma skip_idem t : skip_whitespace (skip_whitespace t) = skip_whitespace t.
Proof. destruct (skip_spec t) as (w & _ & _ & H). apply (skip_blank []); [constructor|done]. Qed.

(** ** The grammar *)

Definition same_word (l : text) (keyword : string) : Prop :=
  to_ascii_lowercase l = to_ascii_lowercase (lit keyword).

Definition identifier (x : string) : Prop :=
  (exists c l, lit x = c :: l /\ (ascii_alphabetic c || underscore c = true)) /\ Forall word_char (lit x).

Definition tok_identifier (t : text) (x : string) (t' : text) : Prop :=
  exists w, blank w /\ t = w ++ lit x ++ t' /\ identifier x /\ word_end t'.

(** A keyword in any case; the text breaks after it at a character and a word. *)
Definition tok_keyword (keyword : string) (t t' : text) : Prop :=
  exists w k, blank w /\ t = w ++ k ++ t' /\ same_word k keyword /\ is_char_boundary t' 0 /\ word_end t'.

Definition tok_char (c : ascii) (t t' : text) : Prop := exists w, blank w /\ t = w ++ c :: t'.

Inductive op_spelling : ComparisonOp -> string -> text -> Prop :=
| sp_le r : op_spelling OpLe "<=" r
| sp_ge r : op_spelling OpGe ">=" r
| sp_ne r : op_spelling OpNe "!=" r
| sp_ne' r : op_spelling OpNe "<>" r
| sp_eq r : op_spelling OpEq "=" r
| sp_lt r : head r <> Some "="%char -> head r <> Some ">"%char -> op_spelling OpLt "<" r
| sp_gt r : head r <> Some "="%char -> op_spelling OpGt ">" r.

Definition tok_op (t : text) (o : ComparisonOp) (t' : text) : Prop :=
  exists w s, blank w /\ t = w ++ lit s ++ t' /\ op_spelling o s t'.

(** Each quote of the string is doubled. *)
Definition double (quote : ascii) (l : text) : text :=
  l ≫= fun c => if bool_decide (c = quote) then [c; c] else [c].

Inductive sign_text : text -> Prop :=
| sign_none : sign_text []
| sign_minus : sign_text ["-"%char]
| sign_plus : sign_text ["+"%char].

(** How a value is spelled before the text that follows it. *)
Inductive value_spelling : SqlValue -> text -> text -> Prop :=
| vs_string q s r : q = squote \/ q = dquote -> head r <> Some q ->
    value_spelling (SqlString s) (q :: double q (lit s) ++ [q]) r
| vs_true l r : same_word l "true" -> (forall c, head r = Some c -> ascii_alphabetic c = false) ->
    value_spelling (SqlBoolean true) l r
| vs_false l r : same_word l "false" -> (forall c, head r = Some c -> ascii_alphabetic c = false) ->
    value_spelling (SqlBoolean false) l r
| vs_null l r : same_word l "null" -> (forall c, head r = Some c -> ascii_alphabetic c = false) ->
    value_spelling SqlNull l r
| vs_integer sgn ds i r : sign_text sgn -> ds <> [] -> Forall ascii_digit ds ->
    (forall c, head r = Some c -> ascii_digit c = false /\ c <> "."%char) ->
    parse_i64 (str (sgn ++ ds)) = Ok i -> value_spelling (SqlInteger i) (sgn ++ ds) r
| vs_float sgn ds ds' f r : sign_text sgn -> sgn ++ ds <> [] -> Forall ascii_digit ds -> Forall ascii_digit ds' ->
    (forall c, head r = Some c -> ascii_digit c = false) ->
    parse_decimal (sgn ++ ds ++ "."%char :: ds') = Some f ->
    value_spelling (SqlFloat f) (sgn ++ ds ++ "."%char :: ds') r.

Definition tok_value (t : text) (v : SqlValue) (t' : text) : Prop :=
  exists w l, blank w /\ t = w ++ l ++ t' /\ value_spelling v l t'.

(** The items of a list behind its opening parenthesis; a comma may follow the last. *)
Inductive tok_items {A} (item : text -> A -> text -> Prop) : text -> list A -> text -> Prop :=
| items_close t t' : tok_char ")" t t' -> tok_items item t [] t'
| items_last t x t1 t' : item t x t1 -> tok_char ")" t1 t' -> tok_items item t [x] t'
| items_more t x t1 t2 xs t' : item t x t1 -> tok_char "," t1 t2 -> tok_items item t2 xs t' ->
    tok_items item t (x :: xs) t'.

Definition tok_list {A} (item : text -> A -> text -> Prop) (t : text) (xs : list A) (t' : text) : Prop :=
  exists t1, tok_char "(" t t1 /\ tok_items item t1 xs t'.

Definition tok_where (t : text) (c : WhereCondition) (t' : text) : Prop :=
  exists t1 t2, tok_identifier t (wc_column c) t1 /\ tok_op t1 (wc_operator c) t2 /\ tok_value t2 (wc_value c) t'.

(** The first word of a statement, which white space must follow. *)
Definition statement_word (keyword : string) (t t' : text) : Prop :=
  exists k c r, same_word k keyword /\ t = k ++ t' /\ ws_char c /\ t' = c ++ r.

Inductive sql_grammar : text -> SqlStatement -> Prop :=
| g_update t t1 table t2 t3 column t4 t5 value t6 t7 condition t8 :
    statement_word "UPDATE" t t1 -> tok_identifier t1 table t2 -> tok_keyword "SET" t2 t3 ->
    tok_identifier t3 column t4 -> tok_char "=" t4 t5 -> tok_value t5 value t6 ->
    tok_keyword "WHERE" t6 t7 -> tok_where t7 condition t8 -> blank t8 ->
    sql_grammar t (SqlUpdate table column value condition)
| g_insert t t1 t2 table t3 columns t4 t5 values t6 :
    statement_word "INSERT" t t1 -> tok_keyword "INTO" t1 t2 -> tok_identifier t2 table t3 ->
    tok_list tok_identifier t3 columns t4 -> tok_keyword "VALUES" t4 t5 -> tok_list tok_value t5 values t6 ->
    length columns = length values -> blank t6 ->
    sql_grammar t (SqlInsert table columns values)
| g_delete t t1 t2 table t3 t4 condition t5 :
    statement_word "DELETE" t t1 -> tok_keyword "FROM" t1 t2 -> tok_identifier t2 table t3 ->
    tok_keyword "WHERE" t3 t4 -> tok_where t4 condition t5 -> blank t5 ->
    sql_grammar t (SqlDelete table condition).

(** ** Characters *)

Lemma lit_str l : lit (str l) = l.
Proof. apply list_ascii_of_string_of_list_ascii. Qed.
Lemma str_lit s : str (lit s) = s.
Proof. apply string_of_list_ascii_of_string. Qed.

(** A property of bytes, checked on all of them. *)
Ltac all_bytes := let c := fresh "c" in intros c; destruct c as [[] [] [] [] [] [] [] []]; vm_compute; try done; try (by intros; split).

Lemma lower_upper : forall c, to_lower (to_upper c) = to_lower c. Proof. all_bytes. Qed.
Lemma upper_lower : forall c, to_upper (to_lower c) = to_upper c. Proof. all_bytes. Qed.
Lemma word_char_plain : forall c, word_char c = true -> plain c. Proof. all_bytes. Qed.
Lemma alpha_lower_eq : forall c, ascii_alphabetic (to_lower c) = ascii_alphabetic c. Proof. all_bytes. Qed.
Lemma alpha_word : forall c, ascii_alphabetic c = true -> word_char c = true. Proof. all_bytes. Qed.
Lemma digit_word : forall c, ascii_digit c = true -> word_char c = true. Proof. all_bytes. Qed.

Lemma lower_same l k : to_ascii_uppercase l = to_ascii_uppercase k -> to_ascii_lowercase l = to_ascii_lowercase k.
Proof.
  intros H. apply (f_equal to_ascii_lowercase) in H. unfold to_ascii_lowercase, to_ascii_uppercase in *.
  rewrite <- !list_fmap_compose in H. by rewrite !(list_fmap_ext (to_lower ∘ to_upper) to_lower) in H
    by (intros; apply lower_upper).
Qed.
Lemma upper_same l k : to_ascii_lowercase l = to_ascii_lowercase k -> to_ascii_uppercase l = to_ascii_uppercase k.
Proof.
  intros H. apply (f_equal to_ascii_uppercase) in H. unfold to_ascii_lowercase, to_ascii_uppercase in *.
  rewrite <- !list_fmap_compose in H. by rewrite !(list_fmap_ext (to_upper ∘ to_lower) to_upper) in H
    by (intros; apply upper_lower).
Qed.

Lemma same_word_length l k : same_word l k -> length l = String.length k.
Proof.
  intros H. apply (f_equal length) in H. unfold to_ascii_lowercase in H.
  rewrite !length_fmap in H. rewrite H. unfold lit. clear. induction k; simpl; congruence.
Qed.

(** ** Tokens: each call of the tokenizer takes the phrase of the grammar *)

Lemma span_app p a b : Forall (fun c => p c = true) a -> (forall c, head b = Some c -> p c = false) ->
  span p (a ++ b) = (a, b).
Proof.
  intros Ha Hb. induction Ha as [|c a Hc Ha IH]; simpl.
  - destruct b as [|c b]; [done|]. simpl. by rewrite Hb.
  - by rewrite Hc, IH.
Qed.

Lemma span_spec p l a b : span p l = (a, b) ->
  l = a ++ b /\ Forall (fun c => p c = true) a /\ (forall c, head b = Some c -> p c = false).
Proof.
  revert a b. induction l as [|c l IH]; intros a b; simpl; [intros [= <- <-]; naive_solver|].
  destruct (p c) eqn:Ec; [|intros [= <- <-]; naive_solver].
  destruct (span p l) as [a' b'] eqn:E. intros [= <- <-].
  destruct (IH a' b' eq_refl) as (-> & ? & ?). auto.
Qed.

Lemma word_end_head t : word_end t <-> (forall c, head t = Some c -> word_char c = false).
Proof.
  destruct t as [|c t]; simpl; [naive_solver|].
  destruct (word_char c) eqn:E; simpl; split; try naive_solver. intros H. by specialize (H c eq_refl); rewrite E in H.
Qed.

Lemma Forall_true (p : ascii -> bool) l : Forall p l <-> Forall (fun c => p c = true) l.
Proof. split; intros H; eapply Forall_impl; try exact H; intros c Hc; by apply Is_true_true. Qed.

Lemma word_app_plain l r c k : l = c :: k -> Forall word_char l -> forall w, blank w -> skip_whitespace (w ++ l ++ r) = l ++ r.
Proof.
  intros -> Hl w Hw. inversion_clear Hl. apply skip_plain; [done|]. apply word_char_plain. by apply Is_true_true.
Qed.

Lemma next_identifier_spec t x t' : next_identifier t = Some (x, t') <-> tok_identifier t x t'.
Proof.
  unfold next_identifier, tok_identifier. split.
  - destruct (skip_spec t) as (w & Hw & Et & _). destruct (skip_whitespace t) as [|c l]; [done|].
    destruct (_ && _) eqn:E; [done|]. destruct (span word_char (c :: l)) as [a b] eqn:Es. intros [= <- <-].
    apply span_spec in Es as (Eal & Ha & Hb). exists w. rewrite lit_str, <- Eal, word_end_head.
    split_and!; try done. split; [|by rewrite lit_str; apply Forall_true].
    rewrite lit_str. apply andb_false_iff in E.
    assert (Hc : ascii_alphabetic c || underscore c = true).
    { destruct E as [->%negb_false_iff| ->%negb_false_iff]; [done|]. apply orb_true_r. }
    destruct a as [|c' a].
    + simpl in Eal. subst b. specialize (Hb c eq_refl). unfold word_char, ascii_alphanumeric in Hb.
      rewrite !orb_false_iff in Hb. destruct Hb as [[E1 _] E2]. by rewrite E1, E2 in Hc.
    + injection Eal as <- _. eauto.
  - intros (w & Hw & -> & [(c & l & El & Hc) Hx] & He). rewrite (word_app_plain _ t' c l El Hx w Hw), El.
    cbn [app]. replace (_ && _) with false.
    2:{ destruct (ascii_alphabetic c), (underscore c); done. }
    change (c :: l ++ t') with ((c :: l) ++ t'). rewrite <- El, span_app; [by rewrite str_lit| |].
    + by apply Forall_true.
    + by apply word_end_head.
Qed.

Lemma boundary_drop n t : (n <= length t)%nat -> is_char_boundary t n = is_char_boundary (drop n t) 0.
Proof.
  intros Hn. unfold is_char_boundary. rewrite lookup_drop, Nat.add_0_r. destruct (t !! n) eqn:E; [done|].
  apply lookup_ge_None in E. rewrite length_drop. destruct (Nat.eqb_spec n (length t)), (Nat.eqb_spec 0 (length t - n)); lia.
Qed.

(** Keywords are made of letters. *)
Definition letters (k : string) : Prop := exists c l, lit k = c :: l /\ Forall ascii_alphabetic (c :: l).

Lemma same_word_letters l k : letters k -> same_word l k -> exists c r, l = c :: r /\ plain c.
Proof.
  intros (c & m & E & Hc) H. unfold same_word, to_ascii_lowercase in H. rewrite E in H.
  destruct l as [|d l]; [done|]. simpl in H. injection H as H _. exists d, l. split; [done|].
  apply word_char_plain, alpha_word. rewrite <- alpha_lower_eq, H, alpha_lower_eq. inversion_clear Hc. by apply Is_true_true.
Qed.

Lemma take_drop_app_length {A} (k r : list A) n : length k = n -> take n (k ++ r) = k /\ drop n (k ++ r) = r.
Proof. intros <-. by rewrite take_app_length, drop_app_length. Qed.

Lemma consume_keyword_spec keyword t t' : letters keyword ->
  consume_keyword t keyword = Some (Some t') <-> tok_keyword keyword t t'.
Proof.
  intros Hk. unfold consume_keyword, tok_keyword. split.
  - destruct (skip_spec t) as (w & Hw & Et & _). set (rem := skip_whitespace t) in *.
    destruct (Nat.leb_spec (String.length keyword) (length rem)) as [Hlen|]; [|done].
    destruct (is_char_boundary _ _) eqn:Eb; [|done]. destruct (_ && _) eqn:E; [|done].
    intros [= <-]. apply andb_true_iff in E as [E1 E2]. unfold eq_ignore_ascii_case in E1.
    apply bool_decide_eq_true in E1. exists w, (take (String.length keyword) rem).
    rewrite take_drop. rewrite boundary_drop in Eb by done. split_and!; try done; by apply Is_true_true.
  - intros (w & k & Hw & -> & Hs & Hb & He). destruct (same_word_letters _ _ Hk Hs) as (c & l & Ek & Hc).
    assert (skip_whitespace (w ++ k ++ t') = k ++ t') as -> by (rewrite Ek; by apply skip_plain).
    pose proof (same_word_length _ _ Hs) as Hl. rewrite length_app.
    destruct (Nat.leb_spec (String.length keyword) (length k + length t')); [|lia].
    rewrite boundary_drop by (rewrite length_app; lia).
    destruct (take_drop_app_length k t' _ Hl) as [-> ->].
    apply Is_true_true in Hb, He. rewrite Hb, He. unfold eq_ignore_ascii_case. by rewrite bool_decide_true by done.
Qed.

Lemma tok_char_spec c t t' : plain c -> tok_char c t t' <-> skip_whitespace t = c :: t'.
Proof.
  intros Hc. split.
  - intros (w & Hw & ->). by apply skip_plain.
  - intros E. destruct (skip_spec t) as (w & Hw & Et & _). exists w. by rewrite Et, E.
Qed.

Lemma consume_operator_spec t t' : consume_operator t "=" = Some t' <-> tok_char "=" t t'.
Proof.
  rewrite tok_char_spec by done. unfold consume_operator. destruct (starts_with _ _) eqn:E.
  - apply starts_with_spec in E as (r & ->). simpl. rewrite drop_0. naive_solver.
  - split; [done|]. intros Et. assert (H : starts_with (skip_whitespace t) (lit "=") = true); [|by rewrite H in E].
    apply starts_with_spec. exists t'. by rewrite Et.
Qed.

Lemma op_spelling_plain o s r : op_spelling o s r -> exists c l, lit s = c :: l /\ plain c.
Proof. intros []; eexists _, _; (split; [reflexivity|done]). Qed.

Lemma next_op_spelling o s r : op_spelling o s r -> forall t, skip_whitespace t = lit s ++ r -> next_comparison_op t = Some (o, r).
Proof.
  unfold next_comparison_op. intros [] t ->; simpl; rewrite ?drop_0; try done;
    match goal with H : head ?r <> _ |- _ => destruct r as [|d l]; [done|] end; simpl;
    repeat (case_bool_decide; simplify_eq/=); done.
Qed.

Lemma next_comparison_op_spec t o t' : next_comparison_op t = Some (o, t') <-> tok_op t o t'.
Proof.
  split.
  - destruct (skip_spec t) as (w & Hw & Et & _). unfold next_comparison_op. set (rem := skip_whitespace t) in *.
    intros E. cut (exists s, rem = lit s ++ t' /\ op_spelling o s t').
    { intros (s & Es & Hs). exists w, s. by rewrite Et, Es. }
    repeat match goal with
    | E : (if starts_with rem ?s then _ else _) = _ |- _ => destruct (starts_with rem s) eqn:?
    | E : (if starts_with rem ?s || _ then _ else _) = _ |- _ => destruct (starts_with rem s) eqn:?; cbn [orb] in E
    end; try done; injection E as <- <-;
    match goal with H : starts_with rem (lit ?s) = true |- _ =>
      exists s; apply starts_with_spec in H as (r & Hr); rewrite Hr in * end; simpl; rewrite ?drop_0;
    (split; [done|]); constructor; intros Hh; destruct r as [|c r]; simplify_eq/=.
  - intros (w & s & Hw & -> & Hs). destruct (op_spelling_plain _ _ _ Hs) as (c & l & E & Hc).
    apply (next_op_spelling _ _ _ Hs). rewrite E. by apply skip_plain.
Qed.

(** ** Values *)

Lemma double_cons q c l : double q (c :: l) = (if bool_decide (c = q) then [c; c] else [c]) ++ double q l.
Proof. done. Qed.

Lemma undouble_double q l : undouble q (double q l) = l.
Proof.
  induction l as [|c l IH]; [done|]. rewrite double_cons. case_bool_decide as Hc; cbn [app].
  - subst. simpl. rewrite bool_decide_true by done. simpl. by rewrite IH.
  - destruct (double q l) as [|d k] eqn:E.
    + simpl in IH. by rewrite <- IH.
    + cbn [undouble]. rewrite bool_decide_false by done. cbn [andb]. f_equal. exact IH.
Qed.

Lemma scan_quoted_complete q l r : head r <> Some q -> scan_quoted q (double q l ++ q :: r) = Some (double q l, r).
Proof.
  intros Hr. induction l as [|c l IH].
  - simpl. rewrite bool_decide_true by done. destruct r as [|d r]; [done|].
    by rewrite bool_decide_false by naive_solver.
  - rewrite double_cons. case_bool_decide as Hc; cbn [app].
    + subst. cbn [scan_quoted]. rewrite !bool_decide_true by done. by rewrite IH.
    + cbn [scan_quoted]. rewrite bool_decide_false by done. by rewrite IH.
Qed.

Lemma scan_quoted_sound q l : forall value rest, scan_quoted q l = Some (value, rest) ->
  exists s, value = double q s /\ l = value ++ q :: rest /\ head rest <> Some q.
Proof.
  induction l as [|c l IH IH2] using two_step_ind; intros value rest; cbn [scan_quoted]; [done|].
  case_bool_decide as Hc.
  - destruct l as [|d l]; [intros [= <- <-]; subst; by exists []|]. case_bool_decide as Hd.
    + destruct (scan_quoted q l) as [[v r]|] eqn:E; [|done]. intros [= <- <-].
      destruct (IH2 d l eq_refl v r E) as (s & -> & -> & Hr). exists (c :: s).
      rewrite double_cons, bool_decide_true by done. by subst.
    + intros [= <- <-]. exists []. subst. split_and!; [done..|]. simpl. naive_solver.
  - destruct (scan_quoted q l) as [[v r]|]; [|done]. intros [= <- <-].
    destruct (IH v r eq_refl) as (s & -> & -> & Hr). exists (c :: s).
    by rewrite double_cons, bool_decide_false by done.
Qed.

Lemma parse_string_literal_spec q t v t' : q = squote \/ q = dquote ->
  parse_string_literal t q = Some (v, t') <->
  exists w s, blank w /\ t = w ++ (q :: double q (lit s) ++ [q]) ++ t' /\ v = SqlString s /\ head t' <> Some q.
Proof.
  intros Hq. unfold parse_string_literal. split.
  - destruct (skip_spec t) as (w & Hw & Et & _). destruct (skip_whitespace t) as [|c l]; [done|].
    case_bool_decide as Hc; [|done]. destruct (scan_quoted q l) as [[value rest]|] eqn:Es; [|done].
    intros [= <- <-]. destruct (scan_quoted_sound _ _ _ _ Es) as (s & -> & -> & Hr). subst c.
    exists w, (str s). rewrite lit_str, Et, undouble_double. cbn [app]. by rewrite <- app_assoc.
  - intros (w & s & Hw & -> & -> & Hr). assert (plain q) by (by destruct Hq as [-> | ->]).
    cbn [app]. rewrite skip_plain, bool_decide_true by done. rewrite <- app_assoc. cbn [app].
    rewrite scan_quoted_complete by done. cbn. by rewrite undouble_double, str_lit.
Qed.

Definition keyword_value (v : SqlValue) : option string :=
  match v with SqlBoolean true => Some "true" | SqlBoolean false => Some "false" | SqlNull => Some "null" | _ => None end.

Lemma alphabetic_same l k : letters k -> same_word l k -> Forall (fun c => ascii_alphabetic c = true) l.
Proof.
  intros (c & m & E & Hc) H. unfold same_word in H. rewrite E in H.
  apply Forall_true in Hc. apply Forall_forall. intros d Hd.
  rewrite <- alpha_lower_eq. assert (Hin : to_lower d ∈ to_ascii_lowercase l) by (by apply list_elem_of_fmap_2).
  rewrite H in Hin. apply list_elem_of_fmap in Hin as (e & -> & He). rewrite alpha_lower_eq.
  rewrite Forall_forall in Hc. by apply Hc.
Qed.

Lemma same_word_upper l k : same_word l k <-> to_ascii_uppercase l = to_ascii_uppercase (lit k).
Proof. split; [apply upper_same|apply lower_same]. Qed.

Ltac is_letters := eexists _, _; split; [reflexivity|repeat constructor].

Lemma parse_keyword_value_spec t v t' : parse_keyword_value t = Some (v, t') <->
  exists w l k, blank w /\ t = w ++ l ++ t' /\ keyword_value v = Some k /\ same_word l k /\
    (forall c, head t' = Some c -> ascii_alphabetic c = false).
Proof.
  unfold parse_keyword_value. split.
  - destruct (skip_spec t) as (w & Hw & Et & _). destruct (span _ _) as [a b] eqn:Es.
    apply span_spec in Es as (E & Ha & Hb). rewrite E in Et.
    repeat case_bool_decide; intros; simplify_eq; exists w, a; eexists; (split_and!; [done..|reflexivity| |done]);
      apply same_word_upper; match goal with H : _ = lit _ |- _ => rewrite H end; reflexivity.
  - intros (w & l & k & Hw & -> & Hv & Hl & Hr). assert (Hk : letters k).
    { destruct v as [| | |[]|]; simplify_eq/=; is_letters. }
    destruct (same_word_letters _ _ Hk Hl) as (c & m & -> & Hc). cbn [app]. rewrite skip_plain by done.
    change (c :: m ++ t') with ((c :: m) ++ t'). rewrite span_app by eauto using alphabetic_same.
    apply same_word_upper in Hl. rewrite Hl.
    destruct v as [| | |[]|]; try discriminate Hv; injection Hv as <-; reflexivity.
Qed.

(** *** Numbers *)

Definition dot : ascii := ".".
Definition signb (c : ascii) : bool := bool_decide (c = "-"%char) || bool_decide (c = "+"%char).

Lemma scan_digits dotb ds r : Forall ascii_digit ds ->
  scan_number false dotb (ds ++ r)
  = ((length ds + (scan_number false dotb r).1)%nat, (scan_number false dotb r).2).
Proof.
  intros H. induction H as [|c ds Hc _ IH]; [cbn [app]; by destruct (scan_number false dotb r)|].
  apply Is_true_true in Hc. cbn [app scan_number]. rewrite Hc, IH. done.
Qed.

(** Where the loop stops. *)
Lemma scan_stop dotb r :
  (forall c, head r = Some c -> ascii_digit c = false /\ (dotb = true \/ c <> dot)) ->
  scan_number false dotb r = (O, dotb).
Proof.
  intros H. destruct r as [|c r]; [done|]. destruct (H c eq_refl) as [Hd Hc]. cbn [scan_number]. rewrite Hd.
  rewrite !andb_false_r. destruct Hc as [-> |Hc].
  - cbn [negb]. by rewrite !andb_false_r.
  - by rewrite (bool_decide_false (c = _)) by done.
Qed.

Lemma digits_split l : exists ds r, l = ds ++ r /\ Forall ascii_digit ds /\ (forall c, head r = Some c -> ascii_digit c = false).
Proof.
  destruct (span ascii_digit l) as [ds r] eqn:E. apply span_spec in E as (-> & Hd & Hr).
  exists ds, r. by rewrite Forall_true.
Qed.

(** The two shapes of a number behind its sign. *)
Lemma scan_shape l : exists ds r, l = ds ++ r /\ Forall ascii_digit ds /\
  ((forall c, head r = Some c -> ascii_digit c = false /\ c <> dot) /\ scan_number false false l = (length ds, false)
   \/ exists ds' r', r = dot :: ds' ++ r' /\ Forall ascii_digit ds' /\ (forall c, head r' = Some c -> ascii_digit c = false) /\
      scan_number false false l = ((length ds + S (length ds'))%nat, true)).
Proof.
  destruct (digits_split l) as (ds & r & -> & Hd & Hr). exists ds, r. split_and!; [done..|].
  rewrite scan_digits by done. destruct r as [|c r].
  - left. simpl. by rewrite Nat.add_0_r.
  - destruct (decide (c = dot)) as [->|Hc].
    + right. destruct (digits_split r) as (ds' & r' & -> & Hd' & Hr'). exists ds', r'. split_and!; [done..|].
      cbn [scan_number]. change (ascii_digit dot) with false. cbn [negb andb]. rewrite bool_decide_true by done. cbn [andb].
      rewrite scan_digits, scan_stop by (done || (intros d Hh; split; [by apply Hr'|by left])).
      cbn [fst snd]. by rewrite Nat.add_0_r.
    + left. rewrite scan_stop by (intros d [= <-]; split; [by apply Hr|by right]). cbn [fst snd]. rewrite Nat.add_0_r.
      split; [|done]. intros d [= <-]. split; [by apply Hr|done].
Qed.

Lemma scan_first c l : scan_number true false (c :: l) =
  if signb c then (S (scan_number false false l).1, (scan_number false false l).2)
  else if ascii_digit c then scan_number false false (c :: l) else (O, false).
Proof.
  unfold signb. cbn [scan_number]. rewrite !andb_false_r, andb_true_r. destruct (ascii_digit c) eqn:Ed.
  - rewrite !bool_decide_false by (intros ->; discriminate Ed). cbn [orb]. by destruct (scan_number false false l).
  - destruct (_ || _); [|done]. by destruct (scan_number false false l).
Qed.

Lemma sign_text_split l : exists sgn k, l = sgn ++ k /\ sign_text sgn /\ (sgn = [] -> forall c, head k = Some c -> signb c = false).
Proof.
  destruct l as [|c l]; [exists [], []; split_and!; [done|constructor|done]|].
  destruct (signb c) eqn:E.
  - exists [c], l. split_and!; [done| |done]. unfold signb in E. apply orb_true_iff in E as [E|E]; apply bool_decide_eq_true in E; subst; constructor.
  - exists [], (c :: l). split_and!; [done|constructor|]. by intros _ d [= <-].
Qed.

Lemma scan_signed sgn l n b : sign_text sgn ->
  (sgn = [] -> exists c k, l = c :: k /\ ascii_digit c = true) ->
  scan_number false false l = (n, b) -> scan_number true false (sgn ++ l) = ((length sgn + n)%nat, b).
Proof.
  intros Hs Hl E. destruct Hs; cbn [app]; [|by rewrite scan_first, E..].
  destruct (Hl eq_refl) as (c & k & -> & Hc). rewrite scan_first, Hc, E.
  unfold signb. by rewrite !bool_decide_false by (intros ->; discriminate Hc).
Qed.

Lemma digits_first ds r : Forall ascii_digit ds -> ds <> [] -> exists c k, ds ++ r = c :: k /\ ascii_digit c = true.
Proof. intros H Hne. destruct H as [|c k Hc]; [done|]. exists c, (k ++ r). split; [done|]. by apply Is_true_true. Qed.

Lemma scan_integer sgn ds r : sign_text sgn -> ds <> [] -> Forall ascii_digit ds ->
  (forall c, head r = Some c -> ascii_digit c = false /\ c <> dot) ->
  scan_number true false ((sgn ++ ds) ++ r) = (length (sgn ++ ds), false).
Proof.
  intros Hs Hne Hd Hr. rewrite <- app_assoc, length_app. apply scan_signed; [done|by intros _; apply digits_first|].
  rewrite scan_digits, scan_stop by (done || (intros c Hc; destruct (Hr c Hc); auto)). simpl. by rewrite Nat.add_0_r.
Qed.

Lemma scan_float sgn ds ds' r : sign_text sgn -> sgn ++ ds <> [] -> Forall ascii_digit ds -> Forall ascii_digit ds' ->
  (forall c, head r = Some c -> ascii_digit c = false) ->
  scan_number true false ((sgn ++ ds ++ dot :: ds') ++ r) = (length (sgn ++ ds ++ dot :: ds'), true).
Proof.
  intros Hs Hne Hd Hd' Hr. rewrite <- app_assoc, length_app. apply scan_signed; [done| |].
  - intros ->. rewrite <- app_assoc. by apply digits_first.
  - rewrite <- app_assoc, scan_digits by done. cbn [app scan_number]. change (ascii_digit dot) with false.
    cbn [negb andb]. rewrite bool_decide_true by done. cbn [andb].
    rewrite scan_digits, scan_stop by (done || (intros c Hc; split; [by apply Hr|by left])).
    cbn [fst snd]. rewrite length_app. simpl. by rewrite Nat.add_0_r.
Qed.

Lemma signed_head sgn ds l : sign_text sgn -> Forall ascii_digit ds -> sgn ++ ds <> [] ->
  exists c k, sgn ++ ds ++ l = c :: k /\ plain c /\ squote <> c /\ dquote <> c /\ ascii_alphabetic c = false
    /\ ascii_digit c || signb c = true.
Proof.
  assert (Hall : forall c, ascii_digit c || signb c = true ->
    plain c /\ squote <> c /\ dquote <> c /\ ascii_alphabetic c = false /\ ascii_digit c || signb c = true) by all_bytes.
  intros Hs Hd Hne. destruct Hs; cbn [app] in *.
  - destruct Hd as [|c ds Hc]; [done|]. exists c, (ds ++ l). split; [done|]. apply Hall. apply Is_true_true in Hc. by rewrite Hc.
  - eexists _, _; split; [done|]. by apply Hall.
  - eexists _, _; split; [done|]. by apply Hall.
Qed.

Lemma take_drop_spelled {A} (n r : list A) : take (length n) (n ++ r) = n /\ drop (length n) (n ++ r) = r.
Proof. by apply take_drop_app_length. Qed.

Lemma parse_number_integer w sgn ds i r : blank w -> sign_text sgn -> ds <> [] -> Forall ascii_digit ds ->
  parse_i64 (str (sgn ++ ds)) = Ok i -> (forall c, head r = Some c -> ascii_digit c = false /\ c <> dot) ->
  parse_number (w ++ (sgn ++ ds) ++ r) = Some (SqlInteger i, r).
Proof.
  intros Hw Hs Hne Hd Hi Hr. unfold parse_number.
  destruct (signed_head sgn ds r Hs Hd) as (c & k & E & Hc & _); [by intros [_ ?]%app_eq_nil|].
  replace (skip_whitespace _) with ((sgn ++ ds) ++ r).
  2:{ rewrite <- app_assoc, E. symmetry. by apply skip_plain. }
  rewrite scan_integer by done. destruct (take_drop_spelled (sgn ++ ds) r) as [-> ->].
  replace (_ || _) with false; [by rewrite Hi|]. symmetry. apply orb_false_iff. split.
  - rewrite length_app. destruct ds; [done|]. apply Nat.eqb_neq. simpl. lia.
  - destruct (digits_first ds r Hd Hne) as (d & m & Ed & Hdig). destruct Hs; cbn [app length].
    + rewrite Ed, Hdig. apply andb_false_r.
    + by destruct ds.
    + by destruct ds.
Qed.

Lemma parse_number_float w sgn ds ds' f r : blank w -> sign_text sgn -> sgn ++ ds <> [] ->
  Forall ascii_digit ds -> Forall ascii_digit ds' -> (forall c, head r = Some c -> ascii_digit c = false) ->
  parse_decimal (sgn ++ ds ++ dot :: ds') = Some f ->
  parse_number (w ++ (sgn ++ ds ++ dot :: ds') ++ r) = Some (SqlFloat f, r).
Proof.
  intros Hw Hs Hne Hd Hd' Hr Hf. unfold parse_number.
  destruct (signed_head sgn ds (dot :: ds' ++ r) Hs Hd Hne) as (c & k & E & Hc & _).
  replace (skip_whitespace _) with ((sgn ++ ds ++ dot :: ds') ++ r).
  2:{ rewrite <- !app_assoc. cbn [app]. rewrite E. symmetry. by apply skip_plain. }
  rewrite scan_float by done. destruct (take_drop_spelled (sgn ++ ds ++ dot :: ds') r) as [-> ->].
  assert (2 <= length (sgn ++ ds ++ dot :: ds'))%nat.
  { rewrite !length_app. destruct sgn, ds; simpl; try done; lia. }
  replace (_ || _) with false; [by rewrite Hf|]. symmetry. apply orb_false_iff.
  split; [apply Nat.eqb_neq; lia|]. rewrite (proj2 (Nat.eqb_neq _ 1)) by lia. done.
Qed.

Lemma parse_number_sound t v t' : parse_number t = Some (v, t') -> tok_value t v t'.
Proof.
  destruct (skip_spec t) as (w & Hw & Et & Hnw).
  destruct (sign_text_split (skip_whitespace t)) as (sgn & l & El & Hs & Hns).
  destruct (scan_shape l) as (ds & r & -> & Hd & Hshape).
  destruct (decide (sgn ++ ds = [])) as [[-> ->]%app_eq_nil|Hne].
  { (* no sign, no digit *)
    unfold parse_number. rewrite El. cbn [app]. destruct r as [|c r]; [done|]. rewrite scan_first, (Hns eq_refl c eq_refl).
    destruct Hshape as [[Hr _]|(ds' & r' & [= -> ->] & _)]; [destruct (Hr c eq_refl) as [-> _]; done|done]. }
  destruct Hshape as [[Hr _]|(ds' & r' & -> & Hd' & Hr' & _)].
  - destruct (decide (ds = [])) as [->|Hds].
    + (* a sign alone *)
      intros E. exfalso. revert E. unfold parse_number. rewrite El. cbn [app] in *.
      destruct Hs; [done| |]; cbn [app]; by rewrite scan_first, scan_stop by (intros c Hc; destruct (Hr c Hc); auto).
    + destruct (parse_i64 (str (sgn ++ ds))) as [i|e] eqn:Ei.
      * rewrite El, (app_assoc sgn) in Et. rewrite Et, (parse_number_integer w sgn ds i r) by done.
        intros [= <- <-]. exists w, (sgn ++ ds). split_and!; [done..|]. by constructor.
      * intros E. exfalso. revert E. unfold parse_number. rewrite El, app_assoc, scan_integer by done.
        destruct (take_drop_spelled (sgn ++ ds) r) as [-> ->]. rewrite Ei. by destruct (_ || _).
  - destruct (parse_decimal (sgn ++ ds ++ dot :: ds')) as [f|] eqn:Ef.
    + assert (Ea : sgn ++ ds ++ dot :: ds' ++ r' = (sgn ++ ds ++ dot :: ds') ++ r') by (by rewrite <- !app_assoc).
      rewrite El, Ea in Et. rewrite Et, (parse_number_float w sgn ds ds' f r') by done.
      intros [= <- <-]. exists w, (sgn ++ ds ++ dot :: ds'). split_and!; [done..|]. by constructor.
    + intros E. exfalso. revert E. unfold parse_number.
      assert (Ea : sgn ++ ds ++ dot :: ds' ++ r' = (sgn ++ ds ++ dot :: ds') ++ r') by (by rewrite <- !app_assoc).
      rewrite El, Ea, scan_float by done. destruct (take_drop_spelled (sgn ++ ds ++ dot :: ds') r') as [-> ->].
      rewrite Ef. by destruct (_ || _).
Qed.

Lemma quote_not_word : forall c, (bool_decide (c = squote) || bool_decide (c = dquote)) = true ->
  c = squote \/ c = dquote.
Proof. intros c [H|H]%orb_true_iff; apply bool_decide_eq_true in H; auto. Qed.

(** Which branch of [next_value] a spelled value takes. *)
Lemma next_value_number t c k : skip_whitespace t = c :: k ->
  squote <> c -> dquote <> c -> ascii_alphabetic c = false -> ascii_digit c || signb c = true ->
  next_value t = parse_number t.
Proof.
  intros E H1 H2 H3 H4. unfold next_value. rewrite E, !bool_decide_false by congruence. cbn [orb].
  rewrite H3. unfold signb in H4. rewrite orb_assoc in H4. by rewrite H4.
Qed.

Lemma next_value_keyword t c k : skip_whitespace t = c :: k -> ascii_alphabetic c = true ->
  next_value t = parse_keyword_value t.
Proof.
  intros E H. unfold next_value. rewrite E, H. rewrite !bool_decide_false by (intros ->; discriminate H). done.
Qed.

Lemma keyword_spelling v l r k : keyword_value v = Some k -> same_word l k ->
  (forall c, head r = Some c -> ascii_alphabetic c = false) -> value_spelling v l r.
Proof. intros Hv Hl Hr. destruct v as [| | |[]|]; simplify_eq/=; by constructor. Qed.

Lemma next_value_sound t v t' : next_value t = Some (v, t') -> tok_value t v t'.
Proof.
  unfold next_value. destruct (skip_whitespace t) as [|c l]; [done|].
  destruct (_ || _) eqn:Eq.
  - apply quote_not_word in Eq. intros (w & s & Hw & -> & -> & Hr)%parse_string_literal_spec; [|done].
    exists w, (c :: double c (lit s) ++ [c]). split_and!; [done..|]. by constructor.
  - destruct (ascii_alphabetic c).
    + intros (w & m & k & Hw & -> & Hv & Hm & Hr)%parse_keyword_value_spec. exists w, m.
      split_and!; [done..|]. by eapply keyword_spelling.
    + destruct (ascii_digit c || _ || _); [|done]. apply parse_number_sound.
Qed.

Lemma keyword_complete w l r v k : blank w -> keyword_value v = Some k -> same_word l k ->
  (forall c, head r = Some c -> ascii_alphabetic c = false) -> next_value (w ++ l ++ r) = Some (v, r).
Proof.
  intros Hw Hv Hl Hr. assert (Hk : letters k) by (destruct v as [| | |[]|]; simplify_eq/=; is_letters).
  destruct (same_word_letters _ _ Hk Hl) as (c & m & -> & Hc).
  pose proof (alphabetic_same _ _ Hk Hl) as Ha. inversion_clear Ha.
  rewrite (next_value_keyword _ c (m ++ r)) by (done || by apply skip_plain).
  apply parse_keyword_value_spec. exists w, (c :: m), k. done.
Qed.

Lemma next_value_complete t v t' : tok_value t v t' -> next_value t = Some (v, t').
Proof.
  intros (w & l & Hw & -> & Hv). destruct Hv as [q s r Hq Hr|l r Hl Hr|l r Hl Hr|l r Hl Hr|sgn ds i r Hs Hne Hd Hr Hi|sgn ds ds' f r Hs Hne Hd Hd' Hr Hf].
  - assert (plain q) by (by destruct Hq as [-> | ->]). unfold next_value.
    change (w ++ (q :: double q (lit s) ++ [q]) ++ r) with (w ++ q :: (double q (lit s) ++ [q]) ++ r).
    rewrite skip_plain by done. replace (_ || _) with true by (by destruct Hq as [-> | ->]).
    apply parse_string_literal_spec; [done|]. by exists w, s.
  - by eapply keyword_complete.
  - by eapply keyword_complete.
  - by eapply keyword_complete.
  - destruct (signed_head sgn ds r Hs Hd) as (c & k & E & Hc & ? & ? & ? & ?); [by intros [_ ?]%app_eq_nil|].
    rewrite (next_value_number _ c k) by (done || (rewrite <- app_assoc, E; by apply skip_plain)).
    by apply parse_number_integer.
  - destruct (signed_head sgn ds (dot :: ds' ++ r) Hs Hd Hne) as (c & k & E & Hc & ? & ? & ? & ?).
    rewrite (next_value_number _ c k).
    + by apply parse_number_float.
    + rewrite <- !app_assoc. cbn [app]. change "."%char with dot. rewrite E. by apply skip_plain.
    + done.
    + done.
    + done.
    + done.
Qed.

Lemma next_value_spec t v t' : next_value t = Some (v, t') <-> tok_value t v t'.
Proof. split; [apply next_value_sound|apply next_value_complete]. Qed.

(** ** Lists *)

Section lists.
Context {A : Type} (item : text -> option (A * text)) (tok : text -> A -> text -> Prop).
Context (item_spec : forall t x t', item t = Some (x, t') <-> tok t x t').
(** An item starts with something else than a closing parenthesis, and takes a byte at least. *)
Context (tok_open : forall t x t', tok t x t' -> head (skip_whitespace t) <> Some ")"%char).
Context (tok_shorter : forall t x t', tok t x t' -> (length t' < length t)%nat).

Lemma skip_shorter t c t' : skip_whitespace t = c :: t' -> (length t' < length t)%nat.
Proof. intros E. destruct (skip_spec t) as (w & _ & Et & _). rewrite Et, E, length_app. simpl. lia. Qed.

Lemma peek_tok c t : plain c -> peek_char t = Some c <-> exists t', tok_char c t t'.
Proof.
  intros Hc. unfold peek_char. setoid_rewrite (tok_char_spec c); [|done].
  destruct (skip_whitespace t); simpl; naive_solver.
Qed.

Lemma paren_loop_sound fuel : forall items t xs t', paren_loop item fuel items t = Some (xs, t') ->
  exists ys, xs = items ++ ys /\ tok_items tok t ys t'.
Proof.
  induction fuel as [|fuel IH]; intros items t xs t'; [done|]. cbn [paren_loop].
  unfold peek_char. case_bool_decide as Hc.
  - intros [= <- <-]. exists []. rewrite app_nil_r. split; [done|]. constructor. apply tok_char_spec; [done|].
    destruct (skip_whitespace t); simplify_eq/=. done.
  - destruct (item t) as [[x t1]|] eqn:E; [|done]. cbn. apply item_spec in E.
    destruct (skip_whitespace t1) as [|c l] eqn:E1; cbn [head tail].
    + by rewrite !bool_decide_false by done.
    + case_bool_decide as Hcomma.
      * intros (ys & -> & Hys)%IH. exists (x :: ys). rewrite <- app_assoc. split; [done|].
        eapply items_more; [done| |done]. apply tok_char_spec; [done|]. by simplify_eq.
      * case_bool_decide; [|done]. intros [= <- <-]. exists [x]. split; [done|].
        eapply items_last; [done|]. apply tok_char_spec; [done|]. by simplify_eq.
Qed.

Lemma paren_loop_complete t ys t' : tok_items tok t ys t' -> forall fuel items, (length t < fuel)%nat ->
  paren_loop item fuel items t = Some (items ++ ys, t').
Proof.
  induction 1 as [t t' Hc|t x t1 t' Hx Hc|t x t1 t2 xs t' Hx Hc Hxs IH]; intros fuel items Hf;
    (destruct fuel as [|fuel]; [lia|]); cbn [paren_loop]; unfold peek_char.
  - apply tok_char_spec in Hc; [|done]. rewrite Hc. cbn [head tail]. by rewrite bool_decide_true, app_nil_r.
  - rewrite bool_decide_false by eauto. rewrite (proj2 (item_spec _ _ _) Hx). cbn.
    apply tok_char_spec in Hc; [|done]. rewrite Hc. cbn [head tail].
    by rewrite bool_decide_false, bool_decide_true.
  - rewrite bool_decide_false by eauto. rewrite (proj2 (item_spec _ _ _) Hx). cbn.
    apply tok_char_spec in Hc; [|done]. rewrite Hc. cbn [head tail]. rewrite bool_decide_true by done.
    rewrite IH; [by rewrite <- app_assoc|]. apply tok_shorter in Hx. apply skip_shorter in Hc. lia.
Qed.

Lemma next_paren_spec t xs t' : next_paren item t = Some (xs, t') <-> tok_list tok t xs t'.
Proof.
  unfold next_paren, tok_list. setoid_rewrite (tok_char_spec "("); [|done]. split.
  - destruct (skip_whitespace t) as [|c l] eqn:E; [done|]. case_bool_decide as Hc; [|done]. subst.
    intros (ys & -> & Hys)%paren_loop_sound. by exists l.
  - intros (t1 & -> & H). rewrite bool_decide_true by done. by apply (paren_loop_complete _ _ _ H); lia.
Qed.
End lists.

Lemma value_spelling_head v l r : value_spelling v l r -> exists c k, l = c :: k /\ plain c /\ c <> ")"%char.
Proof.
  assert (Hw : forall c, word_char c = true -> plain c /\ c <> ")"%char) by all_bytes.
  assert (Hs : forall c, ascii_digit c || signb c = true -> plain c /\ c <> ")"%char) by all_bytes.
  assert (Hk : forall k, letters k -> same_word l k -> exists c m, l = c :: m /\ plain c /\ c <> ")"%char).
  { intros k Hk Hl. destruct (same_word_letters _ _ Hk Hl) as (c & m & -> & _). exists c, m. split; [done|].
    apply Hw, alpha_word. pose proof (alphabetic_same _ _ Hk Hl) as Ha. by inversion_clear Ha. }
  intros Hv. destruct Hv as [q s r Hq Hr|l r Hl Hr|l r Hl Hr|l r Hl Hr|sgn ds i r Hsg Hne Hd Hr Hi|sgn ds ds' f r Hsg Hne Hd Hd' Hr Hf].
  - eexists _, _. split; [reflexivity|]. by destruct Hq as [-> | ->].
  - eapply Hk; [|done]. is_letters.
  - eapply Hk; [|done]. is_letters.
  - eapply Hk; [|done]. is_letters.
  - destruct (signed_head sgn ds [] Hsg Hd) as (c & k & E & _ & _ & _ & _ & Hc); [by intros [_ ?]%app_eq_nil|].
    rewrite app_nil_r in E. exists c, k. split; [done|]. by apply Hs.
  - destruct (signed_head sgn ds ("."%char :: ds') Hsg Hd Hne) as (c & k & E & _ & _ & _ & _ & Hc).
    exists c, k. split; [done|]. by apply Hs.
Qed.

Lemma tok_value_split t v t' : tok_value t v t' ->
  exists w c k, t = w ++ c :: k ++ t' /\ skip_whitespace t = c :: k ++ t' /\ c <> ")"%char.
Proof.
  intros (w & l & Hw & -> & Hv). destruct (value_spelling_head _ _ _ Hv) as (c & k & -> & Hc & Hp).
  exists w, c, k. cbn [app]. by rewrite skip_plain.
Qed.

Lemma tok_identifier_split t x t' : tok_identifier t x t' ->
  exists w c k, t = w ++ c :: k ++ t' /\ skip_whitespace t = c :: k ++ t' /\ c <> ")"%char.
Proof.
  intros (w & Hw & -> & [(c & k & E & Hc) Hx] & _). exists w, c, k. rewrite (word_app_plain _ t' c k E Hx w Hw), E.
  split_and!; [done..|]. intros ->. done.
Qed.

Lemma next_paren_list_spec t xs t' : next_paren_list t = Some (xs, t') <-> tok_list tok_identifier t xs t'.
Proof.
  apply next_paren_spec; [apply next_identifier_spec|..]; intros ? ? ? (w & c & k & -> & E & Hc)%tok_identifier_split.
  - rewrite E. simpl. congruence.
  - rewrite length_app. simpl. rewrite length_app. lia.
Qed.

Lemma next_paren_values_spec t xs t' : next_paren_values t = Some (xs, t') <-> tok_list tok_value t xs t'.
Proof.
  apply next_paren_spec; [apply next_value_spec|..]; intros ? ? ? (w & c & k & -> & E & Hc)%tok_value_split.
  - rewrite E. simpl. congruence.
  - rewrite length_app. simpl. rewrite length_app. lia.
Qed.

(** ** Statements *)

Lemma expect_spec {A} (o : option A) m (x : A) : expect o m = Some (Ok x) <-> o = Some x.
Proof. unfold expect. destruct o; simpl; naive_solver. Qed.

Lemma expect_keyword_spec t k m t' : letters k -> expect_keyword t k m = Some (Ok t') <-> tok_keyword k t t'.
Proof.
  intros Hk. rewrite <- consume_keyword_spec by done. unfold expect_keyword.
  destruct (consume_keyword t k) as [o|]; [rewrite expect_spec|]; naive_solver.
Qed.

Lemma ensure_finished_spec t s : ensure_finished t s = Ok tt <-> blank t.
Proof. rewrite <- skip_nil. unfold ensure_finished. by destruct (skip_whitespace t). Qed.

(** What a sequence of steps gives. *)
Lemma bind_Ok {A B} (m : Parsed A) (k : A -> Parsed B) b :
  (let! x := m in k x) = Some (Ok b) <-> exists a, m = Some (Ok a) /\ k a = Some (Ok b).
Proof. destruct m as [[a|e]|]; naive_solver. Qed.
Lemma bind_pair_Ok {A B C} (m : Parsed (A * B)) (k : A -> B -> Parsed C) c :
  (let! (x, y) := m in k x y) = Some (Ok c) <-> exists a b, m = Some (Ok (a, b)) /\ k a b = Some (Ok c).
Proof. destruct m as [[[a b]|e]|]; naive_solver. Qed.

Lemma parse_where_spec t c t' : parse_where_clause t = Some (Ok (c, t')) <-> tok_where t c t'.
Proof.
  unfold parse_where_clause, tok_where. rewrite bind_pair_Ok. setoid_rewrite bind_pair_Ok. setoid_rewrite bind_pair_Ok.
  setoid_rewrite expect_spec. setoid_rewrite next_identifier_spec. setoid_rewrite next_comparison_op_spec.
  setoid_rewrite next_value_spec. destruct c; naive_solver.
Qed.

Lemma first_word_plain k r : Forall plain k -> (r = [] \/ exists r', drop_ws false r = Some r') -> first_word (k ++ r) = k.
Proof.
  intros Hk Hr. induction Hk as [|c k Hc Hk IH]; cbn [app first_word].
  - destruct Hr as [-> |[r' E]]; [done|]. destruct r; [done|]. cbn [first_word]. by rewrite E.
  - by rewrite drop_ws_plain, IH.
Qed.

Lemma first_word_split l : exists r, l = first_word l ++ r /\ (r = [] \/ exists c r', ws_char c /\ r = c ++ r').
Proof.
  induction l as [|c l (r & E & Hr)]; [exists []; auto|]. cbn [first_word].
  destruct (drop_ws false (c :: l)) as [r'|] eqn:Ed.
  - exists (c :: l). apply drop_ws_Some in Ed as (w & Hw & Ew). split; [done|]. right. by exists w, r'.
  - exists r. cbn [app]. by rewrite <- E.
Qed.

Lemma ws_word_end c r : ws_char c -> word_end (c ++ r).
Proof.
  intros (a & l & -> & Ha)%ws_char_lead. cbn [app word_end]. unfold word_char, ascii_alphanumeric, ascii_alphabetic,
    ascii_upper, ascii_lower, ascii_digit, underscore. cbn beta zeta.
  cbn zeta in Ha. rewrite bool_decide_false by (intros ->; change (N_of_ascii "_") with 95%N in Ha; lia).
  repeat match goal with |- context [(?x <=? ?y)%N] => destruct (N.leb_spec x y) end; simpl; try done; lia.
Qed.

Lemma letters_plain k l : letters k -> same_word l k -> Forall plain l.
Proof.
  intros Hk Hl. eapply Forall_impl; [by eapply alphabetic_same|].
  intros c Hc. apply word_char_plain. by apply alpha_word.
Qed.

Lemma strip_keyword k keyword r : letters keyword -> same_word k keyword -> word_end r ->
  is_char_boundary r 0 -> strip_statement_keyword (k ++ r) keyword = Ok r.
Proof.
  intros Hk Hl Hr Hb. destruct (same_word_letters _ _ Hk Hl) as (c & m & E & Hc). unfold strip_statement_keyword.
  replace (skip_whitespace (k ++ r)) with (k ++ r).
  2:{ rewrite E. symmetry. by apply (skip_plain []); [constructor|]. }
  pose proof (same_word_length _ _ Hl) as Hlen. rewrite length_app, (proj2 (Nat.leb_le _ _)) by lia.
  rewrite boundary_drop by (rewrite length_app; lia). destruct (take_drop_app_length k r _ Hlen) as [-> ->].
  apply Is_true_true in Hr, Hb. rewrite Hb, Hr. unfold eq_ignore_ascii_case. by rewrite bool_decide_true.
Qed.

Lemma ws_boundary c r : ws_char c -> is_char_boundary (c ++ r) 0.
Proof.
  intros (a & l & -> & Ha)%ws_char_lead. unfold is_char_boundary. cbn [app lookup list_lookup]. apply Is_true_true.
  destruct (N.leb_spec 128 (N_of_ascii a)), (N.ltb_spec (N_of_ascii a) 192); try done; cbn zeta in Ha; lia.
Qed.
