(* ===== verification/SqlFacts.v ===== *)
(** * SqlFacts: what the debug writer submits

    The parser accepts the language of [SqlGrammar.v] and no other, and never panics on ASCII
    text; the writer submits exactly the diff of the statement, or leaves the journal alone. The
    samples show where it differs from its documentation: a statement may name its row through any
    column that ends in [_id], and a keyword test that cuts a character panics. *)

From Stdlib Require Import Ascii String.
From stdpp Require Import base gmap strings list.
From Stdlib Require Import ZArith Lia.
From S2P Require Import Prelude RustStr CoreTypes Float64 Journal Rules RuleSamples Arrow DebugTools SqlParser SqlGrammar.

(** ** The first word *)

Section word.
Context (keyword : string) (Hk : letters keyword) (Hup : to_ascii_uppercase (lit keyword) = lit keyword).

Lemma statement_word_complete l t1 : statement_word keyword l t1 ->
  to_ascii_uppercase (first_word l) = lit keyword /\ strip_statement_keyword l keyword = Ok t1.
Proof.
  intros (k & c & r & Hl & -> & Hc & ->). split.
  - rewrite first_word_plain; [|by eapply letters_plain|right; exists r; by apply drop_ws_char].
    apply same_word_upper in Hl. by rewrite Hl.
  - apply strip_keyword; [done..|by apply ws_word_end|by apply ws_boundary].
Qed.

Lemma statement_word_sound l : to_ascii_uppercase (first_word l) = lit keyword ->
  exists t1, strip_statement_keyword l keyword = Ok t1 /\ (t1 = [] \/ statement_word keyword l t1).
Proof.
  intros E. destruct (first_word_split l) as (r & El & Hr). exists r.
  assert (Hw : same_word (first_word l) keyword) by (apply same_word_upper; by rewrite E, Hup).
  rewrite El at 1. destruct Hr as [-> |(c & r' & Hc & ->)].
  - split; [by apply strip_keyword|by left].
  - split; [apply strip_keyword; [done..|by apply ws_word_end|by apply ws_boundary]|].
    right. exists (first_word l), c, r'. done.
Qed.
End word.

Lemma next_identifier_nil x t : ~ tok_identifier [] x t.
Proof. intros H%next_identifier_spec. done. Qed.
Lemma keyword_nil k t : letters k -> ~ tok_keyword k [] t.
Proof. intros Hk H%consume_keyword_spec; [|done]. destruct Hk as (c & l & E & _). by destruct k. Qed.

(** ** Each statement *)

Definition parse_keyword_spec k (Hk : letters k) t m t' := expect_keyword_spec t k m t' Hk.

Ltac steps := repeat first
  [ setoid_rewrite parse_where_spec | setoid_rewrite expect_spec
  | setoid_rewrite next_identifier_spec | setoid_rewrite next_value_spec
  | setoid_rewrite next_paren_list_spec | setoid_rewrite next_paren_values_spec
  | setoid_rewrite consume_operator_spec
  | setoid_rewrite bind_pair_Ok | setoid_rewrite bind_Ok ].

Lemma finish_spec {A} t s (a b : A) :
  match ensure_finished t s with Ok _ => Some (Ok a) | Err e => Some (Err e) end = Some (@Ok JournalError _ b)
  <-> blank t /\ a = b.
Proof. rewrite <- (ensure_finished_spec t s). destruct (ensure_finished t s) as [[]|]; naive_solver. Qed.

Lemma parse_delete_spec l stmt : to_ascii_uppercase (first_word l) = lit "DELETE" ->
  parse_delete l = Some (Ok stmt) <-> sql_grammar l stmt /\ exists table c, stmt = SqlDelete table c.
Proof.
  intros Hw. cbv beta delta [parse_delete].
  pose proof (parse_keyword_spec "FROM" ltac:(is_letters)) as HF.
  pose proof (parse_keyword_spec "WHERE" ltac:(is_letters)) as HW.
  steps. setoid_rewrite HF. setoid_rewrite HW. setoid_rewrite finish_spec. split.
  - intros (t1 & [= Hs] & t2 & H2 & table & t3 & H3 & t4 & H4 & c & t5 & H5 & H6 & <-).
    destruct (statement_word_sound "DELETE" ltac:(is_letters) eq_refl l Hw) as (t & Et & Ht);
      rewrite Et in Hs; injection Hs as <-; destruct Ht as [-> |Ht].
    + by apply keyword_nil in H2; [|is_letters].
    + split; [|eauto]. by econstructor.
  - intros [Hg (table & c & ->)]. inversion_clear Hg.
    destruct (statement_word_complete "DELETE" ltac:(is_letters) eq_refl l t1) as [_ Hs]; [done|].
    eexists; rewrite Hs; naive_solver.
Qed.

Lemma parse_update_spec l stmt : to_ascii_uppercase (first_word l) = lit "UPDATE" ->
  parse_update l = Some (Ok stmt) <-> sql_grammar l stmt /\ exists table column v c, stmt = SqlUpdate table column v c.
Proof.
  intros Hw. cbv beta delta [parse_update].
  pose proof (parse_keyword_spec "SET" ltac:(is_letters)) as HS.
  pose proof (parse_keyword_spec "WHERE" ltac:(is_letters)) as HW.
  steps. setoid_rewrite HS. setoid_rewrite HW. setoid_rewrite finish_spec. split.
  - intros (t1 & [= Hs] & table & t2 & H2 & t3 & H3 & column & t4 & H4 & t5 & H5 & v & t6 & H6 & t7 & H7 & c & t8 & H8 & H9 & <-).
    destruct (statement_word_sound "UPDATE" ltac:(is_letters) eq_refl l Hw) as (t & Et & Ht);
      rewrite Et in Hs; injection Hs as <-; destruct Ht as [-> |Ht].
    + by apply next_identifier_nil in H2.
    + split; [|eauto]. by econstructor.
  - intros [Hg (table & column & v & c & ->)]. inversion_clear Hg.
    destruct (statement_word_complete "UPDATE" ltac:(is_letters) eq_refl l t1) as [_ Hs]; [done|].
    exists t1. rewrite Hs. naive_solver.
Qed.

Lemma parse_insert_spec l stmt : to_ascii_uppercase (first_word l) = lit "INSERT" ->
  parse_insert l = Some (Ok stmt) <-> sql_grammar l stmt /\ exists table columns values, stmt = SqlInsert table columns values.
Proof.
  intros Hw. cbv beta delta [parse_insert].
  pose proof (parse_keyword_spec "INTO" ltac:(is_letters)) as HI.
  pose proof (parse_keyword_spec "VALUES" ltac:(is_letters)) as HV.
  steps. setoid_rewrite HI. setoid_rewrite HV. split.
  - intros (t1 & [= Hs] & t2 & H2 & table & t3 & H3 & columns & t4 & H4 & t5 & H5 & values & t6 & H6 & Hf).
    destruct (Nat.eqb_spec (length columns) (length values)) as [Hl|]; [|done]. cbn [negb] in Hf.
    apply finish_spec in Hf as [Hb <-].
    destruct (statement_word_sound "INSERT" ltac:(is_letters) eq_refl l Hw) as (t & Et & Ht);
      rewrite Et in Hs; injection Hs as <-; destruct Ht as [-> |Ht].
    + by apply keyword_nil in H2; [|is_letters].
    + split; [|eauto]. by econstructor.
  - intros [Hg (table & columns & values & ->)]. inversion_clear Hg.
    destruct (statement_word_complete "INSERT" ltac:(is_letters) eq_refl l t1) as [_ Hs]; [done|].
    exists t1. rewrite Hs. split; [done|]. do 2 eexists; eauto. eexists _, _. split; [done|].
    eexists _, _. split; [done|]. eexists. split; [done|]. eexists _, _. split; [done|].
    rewrite (proj2 (Nat.eqb_eq _ _)) by done. cbn [negb]. by apply finish_spec.
Qed.

(** ** The parser and the grammar *)

Lemma grammar_word l stmt : sql_grammar l stmt -> l <> [] /\
  to_ascii_uppercase (first_word l) =
    lit (match stmt with SqlUpdate _ _ _ _ => "UPDATE" | SqlInsert _ _ _ => "INSERT" | SqlDelete _ _ => "DELETE" end).
Proof.
  intros Hg. assert (Hne : forall k t1, letters k -> statement_word k l t1 -> l <> []).
  { intros k t1 Hk (m & c & r & Hm & -> & _). by destruct (same_word_letters _ _ Hk Hm) as (d & n & -> & _). }
  destruct Hg as [t t1|t t1|t t1];
    (match goal with Hs : statement_word ?k t t1 |- _ =>
       split; [apply (Hne k t1); [is_letters|done]|];
       apply (statement_word_complete k ltac:(is_letters) eq_refl t t1 Hs) end).
Qed.

(** C19: The parser accepts exactly the statements of the grammar, in any case of the keywords and
    with any white space, and builds the statement the grammar says. *)
Theorem sql_parse_grammar (sql : string) (stmt : SqlStatement) :
  sql_parse sql = Some (Ok stmt) <-> sql_grammar (lit (trim sql)) stmt.
Proof.
  unfold sql_parse. set (l := lit (trim sql)).
  assert (Hw : sql_grammar l stmt -> _) by apply grammar_word. split.
  - destruct l as [|c l'] eqn:El; [done|]. rewrite <- El in *.
    case_bool_decide; [intros H1; by apply parse_update_spec in H1 as [? _]|].
    case_bool_decide; [intros H1; by apply parse_insert_spec in H1 as [? _]|].
    case_bool_decide; [intros H2; by apply parse_delete_spec in H2 as [? _]|done].
  - intros Hg. destruct (Hw Hg) as [Hne E]. destruct l as [|c l'] eqn:El; [done|]. rewrite <- El in *.
    rewrite E. destruct stmt; cbn [bool_decide].
    + apply parse_update_spec; eauto 10.
    + apply parse_insert_spec; eauto 10.
    + apply parse_delete_spec; eauto 10.
Qed.

(** ** ASCII text never panics *)

Definition ascii_text (t : text) : Prop := Forall (fun c => N_of_ascii c < 128)%N t.

Lemma ascii_text_check t : forallb (fun c => (N_of_ascii c <? 128)%N) t = true -> ascii_text t.
Proof.
  intros H. apply Forall_forall. intros c Hc. rewrite forallb_forall in H. apply N.ltb_lt, H. by apply list_elem_of_In.
Qed.

Lemma ascii_text_app l k : ascii_text (l ++ k) <-> ascii_text l /\ ascii_text k.
Proof. apply Forall_app. Qed.

Lemma ascii_text_suffix l k : k `suffix_of` l -> ascii_text l -> ascii_text k.
Proof. intros [m ->]. by intros [_ ?]%ascii_text_app. Qed.

Lemma ascii_trim sql : ascii_text (lit sql) -> ascii_text (lit (trim sql)).
Proof.
  intros H. unfold trim, lit. rewrite list_ascii_of_string_of_list_ascii.
  apply Forall_rev. eapply ascii_text_suffix; [apply drop_all_ws_suffix|]. apply Forall_rev.
  eapply ascii_text_suffix; [apply drop_all_ws_suffix|done].
Qed.

Lemma ascii_boundary t n : ascii_text t -> (n <= length t)%nat -> is_char_boundary t n = true.
Proof.
  intros Ht Hn. unfold is_char_boundary. destruct (t !! n) as [c|] eqn:E.
  - assert (N_of_ascii c < 128)%N as Hc by (by eapply (Forall_lookup_1 _ _ _ _ Ht E)).
    destruct (N.leb_spec 128 (N_of_ascii c)); [lia|done].
  - apply lookup_ge_None in E. apply Nat.eqb_eq. lia.
Qed.

(** A step on ASCII text neither panics nor leaves other text. *)
Lemma ascii_skip t : ascii_text t -> ascii_text (skip_whitespace t).
Proof. apply ascii_text_suffix. apply drop_all_ws_suffix. Qed.

Lemma ascii_keyword t k m : ascii_text t ->
  exists r, expect_keyword t k m = Some r /\ forall t', r = Ok t' -> ascii_text t'.
Proof.
  intros Ht%ascii_skip. unfold expect_keyword, consume_keyword.
  destruct (Nat.leb_spec (String.length k) (length (skip_whitespace t))); [|by eexists].
  rewrite ascii_boundary by done. destruct (_ && _); [|by eexists].
  eexists. split; [done|]. simpl. intros t' [= <-]. eapply ascii_text_suffix; [|done]. apply suffix_drop.
Qed.

Lemma ascii_identifier t x t' : ascii_text t -> next_identifier t = Some (x, t') -> ascii_text t'.
Proof. intros Ht (w & _ & -> & _)%next_identifier_spec. rewrite !ascii_text_app in Ht. tauto. Qed.
Lemma ascii_op t x t' : ascii_text t -> next_comparison_op t = Some (x, t') -> ascii_text t'.
Proof. intros Ht (w & s & _ & -> & _)%next_comparison_op_spec. rewrite !ascii_text_app in Ht. tauto. Qed.
Lemma ascii_operator t t' : ascii_text t -> consume_operator t "=" = Some t' -> ascii_text t'.
Proof. intros Ht (w & _ & ->)%consume_operator_spec. apply ascii_text_app in Ht as [_ Ht]. by apply Forall_cons in Ht as [_ ?]. Qed.
Lemma ascii_value t x t' : ascii_text t -> next_value t = Some (x, t') -> ascii_text t'.
Proof. intros Ht (w & s & _ & -> & _)%next_value_spec. rewrite !ascii_text_app in Ht. tauto. Qed.

Lemma ascii_list {A} (tok : text -> A -> text -> Prop) t xs t' :
  (forall t x t', tok t x t' -> ascii_text t -> ascii_text t') ->
  tok_list tok t xs t' -> ascii_text t -> ascii_text t'.
Proof.
  assert (Hc : forall c t t', tok_char c t t' -> ascii_text t -> ascii_text t').
  { intros c u u' (w & _ & ->) [_ Hu]%ascii_text_app. by inversion_clear Hu. }
  intros Hi (t1 & H1 & H) Ht. apply (Hc _ _ _ H1) in Ht. clear H1. induction H; eauto.
Qed.

Lemma total_expect {A B} (o : option A) m (k : A -> Parsed B) :
  (forall x, o = Some x -> k x <> None) -> (let! x := expect o m in k x) <> None.
Proof. intros H. destruct o as [x|]; simpl; [by apply H|done]. Qed.
Lemma total_expect_pair {A B C} (o : option (A * B)) m (k : A -> B -> Parsed C) :
  (forall x y, o = Some (x, y) -> k x y <> None) -> (let! (x, y) := expect o m in k x y) <> None.
Proof. intros H. destruct o as [[x y]|]; simpl; [by apply H|done]. Qed.
Lemma total_keyword {B} t kw m (k : text -> Parsed B) : ascii_text t ->
  (forall t', ascii_text t' -> k t' <> None) -> (let! t' := expect_keyword t kw m in k t') <> None.
Proof. intros Ht H. destruct (ascii_keyword t kw m Ht) as (r & -> & Hr). destruct r; [by apply H, Hr|done]. Qed.
Lemma total_strip {B} t kw (k : text -> Parsed B) : ascii_text t ->
  (forall t', ascii_text t' -> k t' <> None) -> (let! t' := Some (strip_statement_keyword t kw) in k t') <> None.
Proof.
  intros Ht%ascii_skip H. unfold strip_statement_keyword.
  destruct (_ && _); [|done]. destruct (negb _); [done|]. destruct (negb _); [done|].
  apply H. eapply ascii_text_suffix; [apply suffix_drop|done].
Qed.
Lemma total_where {B} t (k : WhereCondition -> text -> Parsed B) : ascii_text t ->
  (forall c t', ascii_text t' -> k c t' <> None) -> (let! (c, t') := parse_where_clause t in k c t') <> None.
Proof.
  intros Ht H. unfold parse_where_clause.
  destruct (next_identifier t) as [[x t1]|] eqn:E1; [|done]. apply ascii_identifier in E1; [|done].
  cbn. destruct (next_comparison_op t1) as [[o t2]|] eqn:E2; [|done]. apply ascii_op in E2; [|done].
  cbn. destruct (next_value t2) as [[v t3]|] eqn:E3; [|done]. apply ascii_value in E3; [|done]. by apply H.
Qed.

Lemma parse_update_total t : ascii_text t -> parse_update t <> None.
Proof.
  intros Ht. cbv beta delta [parse_update]. apply total_strip; [done|]; intros t1 H1.
  apply total_expect_pair; intros table t2 H2%ascii_identifier; [|done].
  apply total_keyword; [done|]; intros t3 H3.
  apply total_expect_pair; intros column t4 H4%ascii_identifier; [|done].
  apply total_expect; intros t5 H5%ascii_operator; [|done].
  apply total_expect_pair; intros v t6 H6%ascii_value; [|done].
  apply total_keyword; [done|]; intros t7 H7.
  apply total_where; [done|]; intros c t8 H8. by destruct (ensure_finished t8 _).
Qed.

Lemma parse_insert_total t : ascii_text t -> parse_insert t <> None.
Proof.
  intros Ht. cbv beta delta [parse_insert]. apply total_strip; [done|]; intros t1 H1.
  apply total_keyword; [done|]; intros t2 H2.
  apply total_expect_pair; intros table t3 H3%ascii_identifier; [|done].
  apply total_expect_pair; intros columns t4 H4%next_paren_list_spec.
  eapply ascii_list in H4; [|intros ? ? ? ?%next_identifier_spec ?; by eapply ascii_identifier|done].
  apply total_keyword; [done|]; intros t5 H5.
  apply total_expect_pair; intros values t6 _.
  destruct (negb _); [done|]. by destruct (ensure_finished t6 _).
Qed.

Lemma parse_delete_total t : ascii_text t -> parse_delete t <> None.
Proof.
  intros Ht. cbv beta delta [parse_delete]. apply total_strip; [done|]; intros t1 H1.
  apply total_keyword; [done|]; intros t2 H2.
  apply total_expect_pair; intros table t3 H3%ascii_identifier; [|done].
  apply total_keyword; [done|]; intros t4 H4.
  apply total_where; [done|]; intros c t5 H5. by destruct (ensure_finished t5 _).
Qed.

Lemma sql_parse_ascii sql : ascii_text (lit sql) -> sql_parse sql <> None.
Proof.
  intros Ht%ascii_trim. unfold sql_parse. destruct (lit (trim sql)) as [|c l] eqn:E; [done|]. rewrite <- E in *.
  repeat case_bool_decide; [by apply parse_update_total|by apply parse_insert_total|by apply parse_delete_total|done].
Qed.

(** A keyword test that cuts a character in two panics. *)
Lemma sql_parse_panics : sql_parse "DELETE 日本語 WHERE id = 1" = None.
Proof. vm_compute. reflexivity. Qed.

(** ** The writer *)

Section writer.
Context {V Time : Type} `{JO : JsonOps V} `{JI : JsonInteger V} `{JR : JsonRead V} `{DT : DebugText}.
Context `{SO : StoreOps V} `{QO : !QueryOps V} `{VO : SaveOps V}.

(** C31: A disabled writer does nothing but say so: it logs no text and leaves the journal alone. On
    ASCII text the enabled writer never panics, logs the text whatever its fate, and succeeds exactly
    when the journal is open and the text is a statement of the grammar that has a diff: then that diff
    is the one thing it adds to the journal; a failure leaves the journal alone. *)
Theorem execute_sql_exact (w : LegacyDebugWriteJournal Time) (j : Journal) (sql : string) (now : Time) :
  ascii_text (lit sql) ->
  if dw_enabled w then
    exists j' r, execute_sql w j sql now = Some (mkDebugWrite true (dw_sql_log w ++ [(sql, now)]), j', r) /\
      ((exists stmt d, sql_grammar (lit (trim sql)) stmt /\ statement_to_diff stmt = Ok d /\ j_phase j = PhaseOpen /\
          r = Ok tt /\ j' = with_pending j (j_pending_commands j) (j_pending_diffs j ++ [d]))
       \/ (exists e, r = Err e /\ j' = j /\
          forall stmt d, sql_grammar (lit (trim sql)) stmt -> statement_to_diff stmt = Ok d -> j_phase j <> PhaseOpen))
  else execute_sql w j sql now = Some (w, j, Err (JSubmitFailed "DebugWriteJournal is disabled")).
Proof.
  intros Ha%sql_parse_ascii. unfold execute_sql. destruct (dw_enabled w); cbn [negb]; [|done].
  destruct (sql_parse sql) as [p|] eqn:Ep; [|done]. cbn.
  assert (Hgr : forall stmt, sql_grammar (lit (trim sql)) stmt -> p = Ok stmt).
  { intros stmt H%sql_parse_grammar. congruence. }
  destruct p as [stmt|e].
  2:{ eexists _, _. split; [done|]. right. exists e. split_and!; [done..|]. intros stmt d H%Hgr. done. }
  apply sql_parse_grammar in Ep.
  destruct (statement_to_diff stmt) as [d|e] eqn:Ed.
  2:{ eexists _, _. split; [done|]. right. exists e. split_and!; [done..|]. intros stmt' d H%Hgr. congruence. }
  unfold journal_submit_diff. case_bool_decide as Hp; (eexists _, _; split; [done|]).
  - right. eexists. split_and!; [done..|]. by intros.
  - left. exists stmt, d. destruct (decide (j_phase j = PhaseOpen)); [|done]. by split_and!.
Qed.
End writer.

(** A row may be named through any column that ends in [_id], whatever it holds: the number it is
    compared with is taken for the row's id. *)
Lemma any_id_column_names_row `{DebugText} column i :
  ends_with (to_ascii_lowercase (lit column)) (lit "_id") = true -> 0 <= i ->
  extract_row_id_from_condition (mkWhere column OpEq (SqlInteger i)) = Ok (mkRowId (wrap64 i)).
Proof.
  intros Hc Hi. unfold extract_row_id_from_condition. cbn [wc_operator wc_column wc_value].
  rewrite bool_decide_true, Hc by done. cbn [negb andb].
  unfold sql_value_to_row_id. by rewrite (proj2 (Z.leb_le 0 i)).
Qed.

(** ** Samples *)

Definition text_unread : JsonRead string := {|
  json_null := "null"; jr_is_null v := bool_decide (v = "null"); jr_as_i64 _ := None; jr_as_u64 _ := None;
  jr_as_f64 _ := None; jr_as_bool _ := None; jr_as_str v := Some v; jr_text v := v; jr_debug v := v |}.
Definition text_integer : JsonInteger string := {| json_i64 := show_i64 |}.
Definition plain_debug : DebugText := {| debug_f64 _ := "1.5"; debug_str s := s |}.
#[local] Existing Instances text_unread text_integer plain_debug.

(** [country_id] is a foreign key; row 7 is deleted. *)
Example foreign_key_deletes_row :
  sql_parse "DELETE FROM army WHERE country_id = 7"
    = Some (Ok (SqlDelete "army" (mkWhere "country_id" OpEq (SqlInteger 7))))
  /\ statement_to_diff (V := string) (SqlDelete "army" (mkWhere "country_id" OpEq (SqlInteger 7)))
    = Ok (Delete "army" (mkRowId 7)).
Proof. split; vm_compute; reflexivity. Qed.

Lemma execute_sql_exact_witness :
  let sql := "Insert Into army (id, name, size) Values (4, 'it''s', -3);" in
  let ok := "insert into army (id, name) values (4, 'it''s')" in
  let j := sample_journal false [] in
  let w : LegacyDebugWriteJournal unit := debug_write_new in
  (exists e, execute_sql w j sql tt = Some (mkDebugWrite true [(sql, tt)], j, Err e))
  /\ (exists d, execute_sql w j ok tt
       = Some (mkDebugWrite true [(ok, tt)], with_pending j [] [d], Ok tt))
  /\ execute_sql (debug_write_set_enabled w false) j ok tt
       = Some (mkDebugWrite false [], j, Err (JSubmitFailed "DebugWriteJournal is disabled")).
Proof.
  intros sql ok j w.
  assert (Hok : ascii_text (lit ok)) by (apply ascii_text_check; vm_compute; reflexivity).
  split_and!.
  - destruct (execute_sql_exact w j sql tt) as (j' & r & E & H).
    { apply ascii_text_check. vm_compute. reflexivity. }
    destruct H as [(stmt & d & _ & _ & _ & -> & _)|(e & -> & -> & _)]; [|by exists e].
    apply (f_equal (fmap snd)) in E. vm_compute in E. discriminate E.
  - destruct (execute_sql_exact w j ok tt Hok) as (j' & r & E & H).
    destruct H as [(stmt & d & _ & _ & _ & -> & ->)|(e & -> & _)]; [by exists d|].
    apply (f_equal (fmap snd)) in E. vm_compute in E. discriminate E.
  - exact (execute_sql_exact (debug_write_set_enabled w false) j ok tt Hok).
Defined.
