(* ===== verification/Disk.v ===== *)
(** * Disk: the calls of [std::fs] and [std::io] the save system uses

    A disk is directories of files. Any call may fail: the faults to come are part of the state, a
    fault saying how much of a write got through before its error; the call is done when no fault
    is due. A program is a function of the disk that returns the disk it leaves; no outcome is a
    panic. A crash during a call is a fault of that call after which nothing runs. *)

From Stdlib Require Import Ascii String.
From stdpp Require Import base gmap strings list.
From Stdlib Require Import ZArith Lia.
From S2P Require Import Prelude RustStr.

(** ** Bytes *)

Abbreviation bytes := (list ascii).
Definition bytes_of (s : string) : bytes := list_ascii_of_string s.

(** [n.to_le_bytes()] and [u64::from_le_bytes] *)
Fixpoint le_split (n : nat) (z : Z) : bytes :=
  match n with
  | O => []
  | S n => ascii_of_N (Z.to_N (z mod 256)) :: le_split n (z / 256)
  end.
Fixpoint le_combine (l : bytes) : Z :=
  match l with
  | [] => 0
  | c :: l => Z.of_N (N_of_ascii c) + 256 * le_combine l
  end.
Definition to_le_bytes (z : Z) : bytes := le_split 8 z.
(** [l.len() as u64] *)
Definition len_u64 {A} (l : list A) : Z := wrap64 (Z.of_nat (length l)).

(** [String::from_utf8] succeeds: the well-formed sequences of the Unicode standard. *)
Definition byte_in (lo hi : N) (c : ascii) : bool := ((lo <=? N_of_ascii c) && (N_of_ascii c <=? hi))%N.
Definition cont_byte : ascii -> bool := byte_in 128 191.
Definition second_of_three (a b : ascii) : bool :=
  byte_in 224 224 a && byte_in 160 191 b || byte_in 225 236 a && cont_byte b
  || byte_in 237 237 a && byte_in 128 159 b || byte_in 238 239 a && cont_byte b.
Definition second_of_four (a b : ascii) : bool :=
  byte_in 240 240 a && byte_in 144 191 b || byte_in 241 243 a && cont_byte b
  || byte_in 244 244 a && byte_in 128 143 b.
Fixpoint utf8_valid (l : bytes) : bool :=
  match l with
  | [] => true
  | a :: l1 =>
      if byte_in 0 127 a then utf8_valid l1
      else match l1 with
           | [] => false
           | b :: l2 =>
               if byte_in 194 223 a && cont_byte b then utf8_valid l2
               else match l2 with
                    | [] => false
                    | c :: l3 =>
                        if second_of_three a b && cont_byte c then utf8_valid l3
                        else match l3 with
                             | [] => false
                             | d :: l4 =>
                                 if second_of_four a b && cont_byte c && cont_byte d then utf8_valid l4
                                 else false
                             end
                    end
           end
  end.

(** ** Disks *)

Record Path := mkPath { path_dir : string; path_name : string }.
#[export] Instance Path_eq_dec : EqDecision Path.
Proof. solve_decision. Defined.

Record Fault := mkFault { ft_written : nat; ft_error : string }.

Record Disk := mkDisk {
  dk_dirs : gmap string (gmap string bytes);
  dk_faults : list (option Fault) }.

Definition enoent : string := "No such file or directory (os error 2)".

Definition disk_file (d : Disk) (p : Path) : option bytes :=
  files ← dk_dirs d !! path_dir p; files !! path_name p.
(** [path.exists()] of a file, and of a directory *)
Definition path_exists (d : Disk) (p : Path) : bool := bool_decide (is_Some (disk_file d p)).
Definition dir_exists (d : Disk) (dir : string) : bool := bool_decide (is_Some (dk_dirs d !! dir)).

Definition with_dirs (d : Disk) dirs : Disk := mkDisk dirs (dk_faults d).
(** Writes a file of a directory that exists. *)
Definition set_file (d : Disk) (p : Path) (content : bytes) : Disk :=
  with_dirs d (alter (fun files => <[path_name p := content]> files) (path_dir p) (dk_dirs d)).
Definition unset_file (d : Disk) (p : Path) : Disk :=
  with_dirs d (alter (delete (path_name p)) (path_dir p) (dk_dirs d)).

(** The fault of the next call. *)
Definition next_fault (d : Disk) : Disk * option Fault :=
  match dk_faults d with
  | [] => (d, None)
  | f :: faults => (mkDisk (dk_dirs d) faults, f)
  end.

(** A call of the operating system: what it does when no fault is due. *)
Definition sys_call {A} (call : Disk -> Disk * result string A) (d : Disk) : Disk * result string A :=
  match next_fault d with
  | (d, Some f) => (d, Err (ft_error f))
  | (d, None) => call d
  end.

Definition create_dir_all (dir : string) : Disk -> Disk * result string unit :=
  sys_call (fun d => (with_dirs d (<[dir := default ∅ (dk_dirs d !! dir)]> (dk_dirs d)), Ok tt)).

(** [File::create(path)]: the file is there, and empty. *)
Definition file_create (p : Path) : Disk -> Disk * result string unit :=
  sys_call (fun d => if dir_exists d (path_dir p) then (set_file d p [], Ok tt) else (d, Err enoent)).

(** [file.write_all(data)] at the end of the file. *)
Definition file_write_all (p : Path) (data : bytes) (d : Disk) : Disk * result string unit :=
  let content d := default [] (disk_file d p) in
  match next_fault d with
  | (d, Some f) => (set_file d p (content d ++ take (ft_written f) data), Err (ft_error f))
  | (d, None) => (set_file d p (content d ++ data), Ok tt)
  end.

Definition file_flush : Disk -> Disk * result string unit := sys_call (fun d => (d, Ok tt)).

Definition fs_rename (p q : Path) : Disk -> Disk * result string unit :=
  sys_call (fun d =>
    match disk_file d p with
    | Some content =>
        if dir_exists d (path_dir q) then (set_file (unset_file d p) q content, Ok tt) else (d, Err enoent)
    | None => (d, Err enoent)
    end).

Definition fs_remove_file (p : Path) : Disk -> Disk * result string unit :=
  sys_call (fun d => if path_exists d p then (unset_file d p, Ok tt) else (d, Err enoent)).

(** The names in a directory, in the order the system lists them. *)
Definition read_dir (order : gmap string bytes -> list string) (dir : string) : Disk -> Disk * result string (list string) :=
  sys_call (fun d => match dk_dirs d !! dir with Some files => (d, Ok (order files)) | None => (d, Err enoent) end).

(** [File::open(path)]: what is left to read. *)
Definition file_open (p : Path) : Disk -> Disk * result string bytes :=
  sys_call (fun d => (d, ok_or (disk_file d p) enoent)).
Definition read_exact (n : nat) (rest : bytes) : Disk -> Disk * result string (bytes * bytes) :=
  sys_call (fun d => (d, if (n <=? length rest)%nat then Ok (take n rest, drop n rest)
                         else Err "failed to fill whole buffer")).

(** ** Programs *)

(** A program with errors [E]: [None] is a panic. *)
Definition IO (E A : Type) : Type := Disk -> Disk * option (result E A).

Definition io_ret {E A} (a : A) : IO E A := fun d => (d, Some (Ok a)).
Definition io_err {E A} (e : E) : IO E A := fun d => (d, Some (Err e)).
Definition io_panic {E A} : IO E A := fun d => (d, None).
Definition io_bind {E A B} (m : IO E A) (k : A -> IO E B) : IO E B := fun d =>
  match m d with
  | (d, Some (Ok a)) => k a d
  | (d, Some (Err e)) => (d, Some (Err e))
  | (d, None) => (d, None)
  end.
(** [call.map_err(f)?] *)
Definition io_call {E A} (call : Disk -> Disk * result string A) (f : string -> E) : IO E A := fun d =>
  let '(d, r) := call d in (d, Some (map_err f r)).
Definition io_res {E A} (r : result E A) : IO E A := fun d => (d, Some r).
Definition io_get {E A} (f : Disk -> A) : IO E A := fun d => (d, Some (Ok (f d))).

Notation "'do!' x <- m ; k" := (io_bind m (fun x => k))
  (at level 200, x pattern, m at level 100, k at level 200) : engine_scope.
Notation "'run!' m ; k" := (io_bind m (fun _ => k)) (at level 200, m at level 100, k at level 200) : engine_scope.

(** [for x in l { f(x)?; }] *)
Fixpoint io_each {E A} (f : A -> IO E unit) (l : list A) : IO E unit :=
  match l with
  | [] => io_ret tt
  | x :: l => run! f x; io_each f l
  end.

(** ** Facts *)

Lemma length_le_split n z : length (le_split n z) = n.
Proof. revert z. induction n as [|n IH]; intros z; simpl; [done|]. by rewrite IH. Qed.

Lemma le_combine_split n z : le_combine (le_split n z) = z mod 256 ^ Z.of_nat n.
Proof.
  revert z. induction n as [|n IH]; intros z; cbn [le_split le_combine].
  - by rewrite Z.mod_1_r.
  - rewrite IH, N_ascii_embedding.
    2:{ pose proof (Z.mod_pos_bound z 256 ltac:(lia)). lia. }
    rewrite Z2N.id by (apply Z.mod_pos_bound; lia).
    rewrite Nat2Z.inj_succ, Z.pow_succ_r by lia.
    rewrite (Z.rem_mul_r z 256) by lia. lia.
Qed.

Lemma le_bytes_roundtrip z : u64 z -> le_combine (to_le_bytes z) = z.
Proof. intros Hz. unfold to_le_bytes. rewrite le_combine_split. apply Z.mod_small. unfold_width. lia. Qed.

Lemma len_u64_small {A} (l : list A) : Z.of_nat (length l) < two64 -> len_u64 l = Z.of_nat (length l).
Proof. intros H. apply wrap64_small. lia. Qed.
Lemma len_u64_range {A} (l : list A) : u64 (len_u64 l).
Proof. pose proof (wrap64_range (Z.of_nat (length l))). unfold len_u64. unfold_width. lia. Qed.

(** *** Files *)

Lemma disk_file_set d p c : dir_exists d (path_dir p) = true -> disk_file (set_file d p c) p = Some c.
Proof.
  intros [files E]%bool_decide_eq_true. unfold disk_file, set_file. simpl.
  by rewrite lookup_alter_eq, E; simpl; rewrite lookup_insert_eq.
Qed.
Lemma disk_file_set_ne d p q c : p <> q -> disk_file (set_file d p c) q = disk_file d q.
Proof.
  intros Hne. unfold disk_file, set_file. simpl. destruct (decide (path_dir p = path_dir q)) as [E|E].
  - rewrite <- E, lookup_alter_eq. destruct (dk_dirs d !! path_dir p) as [files|]; [|done]. simpl.
    rewrite lookup_insert_ne; [done|]. intros E'. apply Hne. destruct p, q. simpl in *. congruence.
  - by rewrite lookup_alter_ne.
Qed.
Lemma disk_file_unset d p : disk_file (unset_file d p) p = None.
Proof.
  unfold disk_file, unset_file. simpl. rewrite lookup_alter_eq.
  destruct (dk_dirs d !! path_dir p); simpl; [by rewrite lookup_delete_eq|done].
Qed.
Lemma disk_file_unset_ne d p q : p <> q -> disk_file (unset_file d p) q = disk_file d q.
Proof.
  intros Hne. unfold disk_file, unset_file. simpl. destruct (decide (path_dir p = path_dir q)) as [E|E].
  - rewrite <- E, lookup_alter_eq. destruct (dk_dirs d !! path_dir p) as [files|]; [|done]. simpl.
    rewrite lookup_delete_ne; [done|]. intros E'. apply Hne. destruct p, q. simpl in *. congruence.
  - by rewrite lookup_alter_ne.
Qed.
Lemma dir_exists_set d p c dir : dir_exists (set_file d p c) dir = dir_exists d dir.
Proof.
  unfold dir_exists, set_file. simpl. apply bool_decide_ext. destruct (decide (path_dir p = dir)) as [->|E].
  - rewrite lookup_alter_eq. by rewrite fmap_is_Some.
  - by rewrite lookup_alter_ne.
Qed.
Lemma dir_exists_unset d p dir : dir_exists (unset_file d p) dir = dir_exists d dir.
Proof.
  unfold dir_exists, unset_file. simpl. apply bool_decide_ext. destruct (decide (path_dir p = dir)) as [->|E].
  - rewrite lookup_alter_eq. by rewrite fmap_is_Some.
  - by rewrite lookup_alter_ne.
Qed.
Lemma disk_file_dir d p c : disk_file d p = Some c -> dir_exists d (path_dir p) = true.
Proof. unfold disk_file, dir_exists. intros H. apply bool_decide_eq_true. destruct (dk_dirs d !! path_dir p); [by eexists|done]. Qed.

(** Faults pass without a trace. *)
Lemma next_fault_dirs d : dk_dirs (next_fault d).1 = dk_dirs d.
Proof. unfold next_fault. by destruct (dk_faults d). Qed.
Lemma disk_file_dirs d d' p : dk_dirs d = dk_dirs d' -> disk_file d p = disk_file d' p.
Proof. unfold disk_file. by intros ->. Qed.

(** ** What a program does *)

(** From [d], the program does not panic, and [Q] holds of the disk and the outcome it leaves. *)
Definition runs {E A} (m : IO E A) (d : Disk) (Q : Disk -> result E A -> Prop) : Prop :=
  match m d with (d', Some r) => Q d' r | (_, None) => False end.

Lemma runs_weaken {E A} (m : IO E A) d (P Q : Disk -> result E A -> Prop) :
  runs m d P -> (forall d' r, P d' r -> Q d' r) -> runs m d Q.
Proof. unfold runs. destruct (m d) as [d' [r|]]; auto. Qed.

Lemma runs_bind {E A B} (m : IO E A) (k : A -> IO E B) d Q :
  runs m d (fun d1 r => match r with Ok a => runs (k a) d1 Q | Err e => Q d1 (Err e) end) ->
  runs (io_bind m k) d Q.
Proof. unfold runs, io_bind. by destruct (m d) as [d1 [[a|e]|]]. Qed.

Lemma runs_bind_by {E A B} (m : IO E A) (k : A -> IO E B) d P Q :
  runs m d P -> (forall d1 a, P d1 (Ok a) -> runs (k a) d1 Q) -> (forall d1 e, P d1 (Err e) -> Q d1 (Err e)) ->
  runs (io_bind m k) d Q.
Proof. intros Hm Hk He. apply runs_bind. eapply runs_weaken; [exact Hm|]. intros d1 []; auto. Qed.

Lemma runs_ret {E A} (a : A) d (Q : Disk -> result E A -> Prop) : Q d (Ok a) -> runs (io_ret a) d Q.
Proof. done. Qed.
Lemma runs_get {E A B} (f : Disk -> A) (k : A -> IO E B) d Q : runs (k (f d)) d Q -> runs (io_bind (io_get f) k) d Q.
Proof. done. Qed.
Lemma runs_res {E A B} (r : result E A) (k : A -> IO E B) d Q :
  match r with Ok a => runs (k a) d Q | Err e => Q d (Err e) end -> runs (io_bind (io_res r) k) d Q.
Proof. intros H. apply runs_bind. exact H. Qed.

(** A call either is done or fails leaving the files alone. *)
Lemma runs_sys {E A} (call : Disk -> Disk * result string A) (f : string -> E) d Q :
  (forall d', dk_dirs d' = dk_dirs d -> (dk_faults d = [] -> dk_faults d' = []) ->
     Q (call d').1 (map_err f (call d').2)) ->
  (dk_faults d <> [] -> forall d' e, dk_dirs d' = dk_dirs d -> Q d' (Err e)) ->
  runs (io_call (sys_call call) f) d Q.
Proof.
  intros Hc He. unfold runs, io_call, sys_call, next_fault. destruct (dk_faults d) as [|[x|] faults] eqn:Ef.
  - specialize (Hc d eq_refl (fun _ => Ef)). by destruct (call d).
  - by apply He.
  - specialize (Hc (mkDisk (dk_dirs d) faults) eq_refl). destruct (call _) as [d' r]. apply Hc. done.
Qed.

(** ** Disks on which nothing fails *)

Create HintDb quiet.

(** None of the calls to come is due to fail. *)
Definition quiet (d : Disk) : Prop := Forall (eq None) (dk_faults d).

(** A program uses up the faults in order, so a quiet disk stays quiet. *)
Definition keeps_quiet {E A} (m : IO E A) : Prop := forall d, quiet d -> quiet (m d).1.

Lemma runs_quiet {E A} (m : IO E A) d P : keeps_quiet m -> runs m d P ->
  runs m d (fun d' r => P d' r /\ (quiet d -> quiet d')).
Proof. intros Hq H. specialize (Hq d). unfold runs in *. by destruct (m d) as [d' [r|]]. Qed.

Lemma quiet_next d : quiet d -> quiet (next_fault d).1 /\ (next_fault d).2 = None.
Proof.
  unfold quiet, next_fault. destruct (dk_faults d) as [|f faults] eqn:E; cbn [fst snd dk_faults]; [by rewrite E|].
  by intros [-> H]%Forall_cons.
Qed.

Lemma quiet_ret {E A} (a : A) : keeps_quiet (io_ret a : IO E A).
Proof. by intros d H. Qed.
Lemma quiet_err {E A} (e : E) : keeps_quiet (io_err e : IO E A).
Proof. by intros d H. Qed.
Lemma quiet_panic {E A} : keeps_quiet (io_panic : IO E A).
Proof. by intros d H. Qed.
Lemma quiet_res {E A} (r : result E A) : keeps_quiet (io_res r).
Proof. by intros d H. Qed.
Lemma quiet_get {E A} (f : Disk -> A) : keeps_quiet (io_get f : IO E A).
Proof. by intros d H. Qed.
Lemma quiet_bind {E A B} (m : IO E A) (k : A -> IO E B) :
  keeps_quiet m -> (forall a, keeps_quiet (k a)) -> keeps_quiet (io_bind m k).
Proof.
  intros Hm Hk d Hd. specialize (Hm d Hd). unfold io_bind. destruct (m d) as [d1 [[a|e]|]]; [|done..]. by apply Hk.
Qed.
Lemma quiet_each {E A} (f : A -> IO E unit) l : (forall x, keeps_quiet (f x)) -> keeps_quiet (io_each f l).
Proof. intros Hf. induction l as [|x l IH]; [apply quiet_ret|]. by apply quiet_bind. Qed.
Lemma quiet_sys {E A} (call : Disk -> Disk * result string A) (f : string -> E) :
  (forall d, dk_faults (call d).1 = dk_faults d) -> keeps_quiet (io_call (sys_call call) f).
Proof.
  intros Hc d Hd. apply quiet_next in Hd as [Hd Hn]. unfold io_call, sys_call. destruct (next_fault d) as [d1 fault].
  cbn [fst snd] in *. subst fault. specialize (Hc d1). unfold quiet in *. destruct (call d1) as [d2 r]. cbn [fst] in *. by rewrite Hc.
Qed.
Lemma quiet_write {E} p data (f : string -> E) : keeps_quiet (io_call (file_write_all p data) f).
Proof.
  intros d Hd. apply quiet_next in Hd as [Hd Hn]. unfold io_call, file_write_all. destruct (next_fault d) as [d1 fault].
  cbn [fst snd] in *. by subst fault.
Qed.
Lemma quiet_create {E} dir (f : string -> E) : keeps_quiet (io_call (create_dir_all dir) f).
Proof. by apply quiet_sys. Qed.
Lemma quiet_file_create {E} p (f : string -> E) : keeps_quiet (io_call (file_create p) f).
Proof. apply quiet_sys. intros d. by destruct (dir_exists d (path_dir p)). Qed.
Lemma quiet_flush {E} (f : string -> E) : keeps_quiet (io_call file_flush f).
Proof. by apply quiet_sys. Qed.
Lemma quiet_rename {E} p q (f : string -> E) : keeps_quiet (io_call (fs_rename p q) f).
Proof. apply quiet_sys. intros d. destruct (disk_file d p); [|done]. by destruct (dir_exists d (path_dir q)). Qed.
Lemma quiet_remove {E} p (f : string -> E) : keeps_quiet (io_call (fs_remove_file p) f).
Proof. apply quiet_sys. intros d. by destruct (path_exists d p). Qed.
Lemma quiet_read_dir {E} order dir (f : string -> E) : keeps_quiet (io_call (read_dir order dir) f).
Proof. apply quiet_sys. intros d. by destruct (dk_dirs d !! dir). Qed.

#[export] Hint Resolve quiet_ret quiet_err quiet_panic quiet_res quiet_get quiet_bind quiet_each quiet_write quiet_create
  quiet_file_create quiet_flush quiet_rename quiet_remove quiet_read_dir : quiet.
