(* ===== verification/SaveErrors.v ===== *)
(** * SaveErrors: the errors of the save system and their texts

    Models [error.rs] of [scharnhorst_save], and the texts ([Display]) of the errors of the content
    and journal crates, which it wraps. An Arrow store error inside a content error is its text. *)

From Stdlib Require Import Ascii String.
From stdpp Require Import base gmap strings list.
From Stdlib Require Import ZArith.
From S2P Require Import Prelude RustStr CoreTypes SchemaTables Journal Content Rules RuleCore ErrorText.

Inductive SaveError :=
| SvSnapshotNotFound (s : string)
| SvSnapshotAlreadyExists (s : string)
| SvCorruptedSnapshot (s : string)
| SvStateHashMismatch (expected got : Z)
| SvJournalTruncation (s : string)
| SvJournalReplay (tick : Z) (reason : string)
| SvMigrationFailed (from to reason : string)
| SvNoMigrationPath (version : string)
| SvModFingerprintMismatch (mod_id expected got : string)
| SvCriticalModMissing (mod_id : string)
| SvModToleranceViolation (s : string)
| SvInvalidPhaseTransition (from to : string)
| SvPhaseAlreadyCompleted (phase : string)
| SvIpcSerialization (s : string)
| SvIpcDeserialization (s : string)
| SvIo (s : string)
| SvGeneric (s : string)
| SvCore (e : CoreError)
| SvSchema (e : SchemaError)
| SvArrowStore (e : ArrowStoreError)
| SvJournal (e : JournalError)
| SvQuery (e : QueryError)
| SvContent (e : ContentError).

Abbreviation SaveResult := (result SaveError).

Definition content_error_text (e : ContentError) : string :=
  match e with
  | OverlayNotFound s => "overlay not found: " +:+ s
  | OverlayConflict s => "overlay conflict: " +:+ s
  | NameResolutionFailed s => "name resolution failed: " +:+ s
  | DuplicateName s => "duplicate name: " +:+ s
  | CompilationFailed table reason => "compilation failed for table " +:+ table +:+ ": " +:+ reason
  | SchemaMismatch expected got => "schema mismatch: expected " +:+ expected +:+ ", got " +:+ got
  | ModFingerprintMismatch mod_id expected got =>
      "mod fingerprint mismatch: mod=" +:+ mod_id +:+ " expected=" +:+ expected +:+ " got=" +:+ got
  | CManifestSerialization s => "manifest serialization error: " +:+ s
  | InvalidPhaseTransition from to => "invalid lifecycle phase transition: " +:+ from +:+ " -> " +:+ to
  | PhaseAlreadyCompleted s => "lifecycle phase " +:+ s +:+ " already completed"
  | CRegistryFrozen => "schema registry is frozen"
  | CIo s => "io error: " +:+ s
  | CGeneric s => "generic error: " +:+ s
  | CCore e => core_error_text e
  | CSchema e => schema_error_text e
  | CArrowStore s => s
  end.

Definition journal_error_text (e : JournalError) : string :=
  match e with
  | JCommitFailed s => "commit failed: " +:+ s
  | JSubmitFailed s => "submit failed: " +:+ s
  | JInvalidPhase s => "invalid journal phase for operation: " +:+ s
  | JInvalidTick expected got => "invalid tick: expected " +:+ show_u64 expected +:+ ", got " +:+ show_u64 got
  | JTableNotFound s => "table not found: " +:+ s
  | JColumnNotFound s => "column not found: " +:+ s
  | JRowNotFound s => "row not found: " +:+ s
  | JDiffValidation s => "diff validation failed: " +:+ s
  | JCommandValidation s => "command validation failed: " +:+ s
  | JSaveJournal s => "save journal error: " +:+ s
  | JArrowStore s => "arrow store error: " +:+ s
  | JSchema s => "schema error: " +:+ s
  | JIo s => "io error: " +:+ s
  | JGeneric s => "generic error: " +:+ s
  | JSqlParse s => "SQL parse error: " +:+ s
  | JSqlExecution s => "SQL execution error: " +:+ s
  | JSqlUnsupported s => "unsupported SQL feature: " +:+ s
  | JSqlTypeError expected actual => "SQL type error: expected " +:+ expected +:+ ", got " +:+ actual
  end.

Definition save_error_text (e : SaveError) : string :=
  match e with
  | SvSnapshotNotFound s => "snapshot not found: " +:+ s
  | SvSnapshotAlreadyExists s => "snapshot already exists: " +:+ s
  | SvCorruptedSnapshot s => "corrupted snapshot: " +:+ s
  | SvStateHashMismatch expected got =>
      "state hash mismatch: expected " +:+ show_u64 expected +:+ ", got " +:+ show_u64 got
  | SvJournalTruncation s => "journal truncation failed: " +:+ s
  | SvJournalReplay tick reason => "journal replay failed at tick " +:+ show_u64 tick +:+ ": " +:+ reason
  | SvMigrationFailed from to reason =>
      "migration failed from version " +:+ from +:+ " to " +:+ to +:+ ": " +:+ reason
  | SvNoMigrationPath version => "no migration path from version " +:+ version
  | SvModFingerprintMismatch mod_id expected got =>
      "mod fingerprint mismatch: mod=" +:+ mod_id +:+ " expected=" +:+ expected +:+ " got=" +:+ got
  | SvCriticalModMissing s => "critical mod missing: " +:+ s
  | SvModToleranceViolation s => "mod load tolerance violation: " +:+ s
  | SvInvalidPhaseTransition from to => "invalid load phase transition: " +:+ from +:+ " -> " +:+ to
  | SvPhaseAlreadyCompleted s => "load phase " +:+ s +:+ " already completed"
  | SvIpcSerialization s => "ipc serialization error: " +:+ s
  | SvIpcDeserialization s => "ipc deserialization error: " +:+ s
  | SvIo s => "io error: " +:+ s
  | SvGeneric s => "generic error: " +:+ s
  | SvCore e => core_error_text e
  | SvSchema e => schema_error_text e
  | SvArrowStore e => store_error_text e
  | SvJournal e => journal_error_text e
  | SvQuery e => query_error_text e
  | SvContent e => content_error_text e
  end.
