(* ===== verification/SaveSnapshots.v ===== *)
(** * SaveSnapshots: snapshot files, retention and the snapshot manager

    Models [snapshot_persistence.rs] and [snapshot_manager.rs] of [scharnhorst_save] over the disk
    of [Disk.v]. A path is the directory and the file name it was joined from. The header's JSON is
    written and read by [serde_json], a third-party crate ([HeaderCodec]); whether an allocation of
    a length found in a file succeeds is [Allocator], a failed one being a panic. The orders in
    which a hash map and a directory yield their entries are arguments. *)

From Stdlib Require Import Ascii String.
From stdpp Require Import base gmap strings list.
From Stdlib Require Import ZArith Lia.
From S2P Require Import Prelude RustStr CoreTypes SchemaTables Registry Disk SaveErrors.

Record SnapshotHeader := mkHeader {
  sh_schema_manifest : SchemaManifest; sh_generation : Tick; sh_state_hash : Z }.

Record PersistedSnapshot := mkSnapshot {
  ps_header : SnapshotHeader; ps_table_data : gmap string bytes }.

Definition persisted_new (h : SnapshotHeader) : PersistedSnapshot := mkSnapshot h ∅.
Definition snapshot_with_table_data (s : PersistedSnapshot) (name : string) (data : bytes) : PersistedSnapshot :=
  mkSnapshot (ps_header s) (<[name := data]> (ps_table_data s)).
Definition filter_to_authority (s : PersistedSnapshot) (tiers : TierRegistry) : PersistedSnapshot :=
  mkSnapshot (ps_header s) (filter (fun kv => tier_is_authority tiers kv.1 = true) (ps_table_data s)).

Class HeaderCodec := {
  header_to_vec : SnapshotHeader -> result string bytes;
  header_from_slice : bytes -> result string SnapshotHeader }.
(** [vec![0u8; n]] and [HashMap::with_capacity(n)] succeed; the text of [FromUtf8Error]. *)
Class Allocator := { can_allocate : Z -> bool; can_reserve : Z -> bool; utf8_error : bytes -> string }.

Record SnapshotPersistence := mkPersistence { sp_base_dir : string; sp_tier_registry : option TierRegistry }.

Definition persistence_new (base_dir : string) : SnapshotPersistence := mkPersistence base_dir None.
Definition persistence_with_tier_registry (p : SnapshotPersistence) (t : TierRegistry) : SnapshotPersistence :=
  mkPersistence (sp_base_dir p) (Some t).

Definition snapshot_name (generation : Tick) : string :=
  "snapshot_gen_" +:+ show_u64 (tick_as_u64 generation) +:+ ".arrow".
Definition snapshot_path (p : SnapshotPersistence) (generation : Tick) : Path :=
  mkPath (sp_base_dir p) (snapshot_name generation).
Definition generation_text (generation : Tick) : string := "generation " +:+ show_u64 (tick_as_u64 generation).

(** The closure that reads a generation off a file name. *)
Definition parse_snapshot_name (name : string) : option Tick :=
  rest ← strip_prefix (bytes_of name) (bytes_of "snapshot_gen_");
  num ← strip_suffix rest (bytes_of ".arrow");
  match parse_u64 (string_of_list_ascii num) with Ok tick => Some (mkTick tick) | Err _ => None end.

Section persistence.
Context `{HC : HeaderCodec} `{AL : Allocator}.
Context (dir_order : gmap string bytes -> list string).
Context (table_order : gmap string bytes -> list (string * bytes)).

(** [entries.filter_map(|entry| entry.ok())]: the entries are read one by one, and one that cannot be
    read is skipped without an error. *)
Fixpoint entries_ok (entries : list string) : IO SaveError (list string) := fun d =>
  match entries with
  | [] => (d, Some (Ok []))
  | name :: entries =>
      match next_fault d with
      | (d, Some _) => entries_ok entries d
      | (d, None) => (do! names <- entries_ok entries; io_ret (name :: names)) d
      end
  end.

Definition list_snapshots (p : SnapshotPersistence) : IO SaveError (list (Tick * Path)) :=
  do! entries <- io_call (read_dir dir_order (sp_base_dir p)) (fun e => SvIo ("read_dir: " +:+ e));
  do! names <- entries_ok entries;
  let results := omap (fun name => tick ← parse_snapshot_name name; Some (tick, mkPath (sp_base_dir p) name)) names in
  io_ret (sort_by_key (fun tp => tick_as_u64 tp.1) results).

Definition latest_snapshot_file (p : SnapshotPersistence) : IO SaveError (option (Tick * Path)) :=
  do! snapshots <- list_snapshots p; io_ret (last snapshots).

(** [file.write_all(data).map_err(|e| Io(format!("write ...: {}", e)))?] *)
Definition write_chunk (path : Path) (data : bytes) (what : string) : IO SaveError unit :=
  io_call (file_write_all path data) (fun e => SvIo ("write " +:+ what +:+ ": " +:+ e)).

Definition write_header (path : Path) (header_bytes : bytes) : IO SaveError unit :=
  run! write_chunk path (to_le_bytes (len_u64 header_bytes)) "header len";
  write_chunk path header_bytes "header".

Definition write_entry (path : Path) (entry : string * bytes) : IO SaveError unit :=
  let name_bytes := bytes_of entry.1 in
  run! write_chunk path (to_le_bytes (len_u64 name_bytes)) "name len";
  run! write_chunk path name_bytes "name";
  run! write_chunk path (to_le_bytes (len_u64 entry.2)) "data len";
  write_chunk path entry.2 "data".

Definition keeps_table (tiers : option TierRegistry) (name : string) : bool :=
  match tiers with Some t => tier_is_authority t name | None => true end.

Definition write_snapshot (p : SnapshotPersistence) (snapshot : PersistedSnapshot) : IO SaveError Path :=
  let generation := sh_generation (ps_header snapshot) in
  let path := snapshot_path p generation in
  do! present <- io_get (fun d => path_exists d path);
  if (present : bool) then io_err (SvSnapshotAlreadyExists (generation_text generation))
  else
    run! io_call (create_dir_all (path_dir path)) (fun e => SvIo ("create_dir_all: " +:+ e));
    do! header_bytes <- io_res (map_err (fun e => SvIpcSerialization ("header json: " +:+ e))
                                 (header_to_vec (ps_header snapshot)));
    run! io_call (file_create path) (fun e => SvIo ("create: " +:+ e));
    run! write_header path header_bytes;
    let table_count :=
      match sp_tier_registry p with
      | Some t => length (List.filter (fun e => tier_is_authority t e.1) (table_order (ps_table_data snapshot)))
      | None => size (ps_table_data snapshot)
      end in
    run! write_chunk path (to_le_bytes (wrap64 (Z.of_nat table_count))) "table count";
    run! io_each (fun e => if keeps_table (sp_tier_registry p) e.1 then write_entry path e else io_ret tt)
          (table_order (ps_table_data snapshot));
    io_ret path.

(** [file.read_exact(&mut buf)], for a buffer of [n] bytes the reader allocated *)
Definition read_chunk (n : nat) (rest : bytes) (what : string) : IO SaveError (bytes * bytes) :=
  io_call (read_exact n rest) (fun e => SvIo ("read " +:+ what +:+ ": " +:+ e)).
(** A length, then as many bytes. *)
Definition read_sized (rest : bytes) (what : string) : IO SaveError (bytes * bytes) :=
  do! (buf, rest) <- read_chunk 8 rest (what +:+ " len");
  let n := le_combine buf in
  if can_allocate n then read_chunk (Z.to_nat n) rest what else io_panic.

Fixpoint read_entries (count : nat) (rest : bytes) (table_data : gmap string bytes) : IO SaveError (gmap string bytes) :=
  match count with
  | O => io_ret table_data
  | S count =>
      do! (name_bytes, rest) <- read_sized rest "name";
      do! name <- io_res (if utf8_valid name_bytes then Ok (string_of_list_ascii name_bytes)
                          else Err (SvCorruptedSnapshot ("invalid utf8 name: " +:+ utf8_error name_bytes)));
      do! (data, rest) <- read_sized rest "data";
      read_entries count rest (<[name := data]> table_data)
  end.

Definition read_snapshot (p : SnapshotPersistence) (generation : Tick) : IO SaveError PersistedSnapshot :=
  let path := snapshot_path p generation in
  do! present <- io_get (fun d => path_exists d path);
  if negb present then io_err (SvSnapshotNotFound (generation_text generation))
  else
    do! rest <- io_call (file_open path) (fun e => SvIo ("open: " +:+ e));
    do! (header_bytes, rest) <- read_sized rest "header";
    do! header <- io_res (map_err (fun e => SvIpcDeserialization ("header json: " +:+ e)) (header_from_slice header_bytes));
    do! (buf, rest) <- read_chunk 8 rest "table count";
    let table_count := le_combine buf in
    if can_reserve table_count then
      do! table_data <- read_entries (Z.to_nat table_count) rest ∅;
      io_ret (mkSnapshot header table_data)
    else io_panic.

Definition delete_snapshot (p : SnapshotPersistence) (generation : Tick) : IO SaveError unit :=
  let path := snapshot_path p generation in
  do! present <- io_get (fun d => path_exists d path);
  if (present : bool) then io_call (fs_remove_file path) (fun e => SvIo ("delete snapshot: " +:+ e))
  else io_ret tt.

(** ** The snapshot manager *)

Record SnapshotConfig := mkSnapshotConfig { sc_max_snapshots : nat; sc_max_journal_diffs : nat }.
Definition snapshot_config_default : SnapshotConfig := mkSnapshotConfig 3 (Z.to_nat 1000).
Definition config_with_max_snapshots (c : SnapshotConfig) (n : nat) : SnapshotConfig :=
  mkSnapshotConfig n (sc_max_journal_diffs c).
Definition config_with_max_journal_diffs (c : SnapshotConfig) (n : nat) : SnapshotConfig :=
  mkSnapshotConfig (sc_max_snapshots c) n.

Record SnapshotInfo := mkInfo { si_generation : Tick; si_path : Path }.

Record SnapshotManager := mkManager {
  sg_persistence : SnapshotPersistence; sg_config : SnapshotConfig; sg_journal_path : Path }.
Definition manager_new (base_dir : string) (config : SnapshotConfig) (journal_path : Path) : SnapshotManager :=
  mkManager (persistence_new base_dir) config journal_path.

Definition manager_list_snapshots (m : SnapshotManager) : IO SaveError (list SnapshotInfo) :=
  do! snapshots <- list_snapshots (sg_persistence m);
  io_ret ((fun tp => mkInfo tp.1 tp.2) <$> snapshots).
Definition manager_get_latest_snapshot (m : SnapshotManager) : IO SaveError (option SnapshotInfo) :=
  do! snapshots <- manager_list_snapshots m; io_ret (last snapshots).
Definition manager_has_snapshot (m : SnapshotManager) (generation : Tick) : Disk -> bool :=
  fun d => path_exists d (snapshot_path (sg_persistence m) generation).
Definition manager_get_snapshot (m : SnapshotManager) (generation : Tick) : IO SaveError (option SnapshotInfo) :=
  let path := snapshot_path (sg_persistence m) generation in
  do! present <- io_get (fun d => path_exists d path);
  io_ret (if (present : bool) then Some (mkInfo generation path) else None).
Definition manager_get_snapshot_for_rollback (m : SnapshotManager) (generation : Tick) : IO SaveError SnapshotInfo :=
  let path := snapshot_path (sg_persistence m) generation in
  do! present <- io_get (fun d => path_exists d path);
  if (present : bool) then io_ret (mkInfo generation path)
  else io_err (SvSnapshotNotFound (generation_text generation)).

(** The name starts with a dot and has no [snapshot_gen_] in front. *)
Definition temp_snapshot_path (m : SnapshotManager) (generation : Tick) : Path :=
  mkPath (sp_base_dir (sg_persistence m)) (".tmp_snapshot_gen_" +:+ show_u64 (tick_as_u64 generation) +:+ ".arrow").

Definition write_snapshot_to_temp (snapshot : PersistedSnapshot) (temp_path : Path) : IO SaveError unit :=
  do! parent <- io_get (fun d => dir_exists d (path_dir temp_path));
  run! (if (parent : bool) then io_ret tt
       else io_call (create_dir_all (path_dir temp_path)) (fun e => SvIo ("create temp dir: " +:+ e)));
  do! header_bytes <- io_res (map_err (fun e => SvIpcSerialization ("header json: " +:+ e))
                               (header_to_vec (ps_header snapshot)));
  run! io_call (file_create temp_path) (fun e => SvIo ("create temp snapshot: " +:+ e));
  run! write_header temp_path header_bytes;
  run! write_chunk temp_path (to_le_bytes (wrap64 (Z.of_nat (size (ps_table_data snapshot))))) "table count";
  run! io_each (write_entry temp_path) (table_order (ps_table_data snapshot));
  io_call file_flush (fun e => SvIo ("flush temp snapshot: " +:+ e)).

Definition cleanup_old_snapshots (m : SnapshotManager) : IO SaveError unit :=
  do! snapshots <- manager_list_snapshots m;
  if (length snapshots <=? sc_max_snapshots (sg_config m))%nat then io_ret tt
  else
    let to_remove := (length snapshots - sc_max_snapshots (sg_config m))%nat in
    io_each (fun info => delete_snapshot (sg_persistence m) (si_generation info)) (take to_remove snapshots).

Definition save_snapshot (m : SnapshotManager) (snapshot : PersistedSnapshot) : IO SaveError Path :=
  let generation := sh_generation (ps_header snapshot) in
  let temp_path := temp_snapshot_path m generation in
  let final_path := snapshot_path (sg_persistence m) generation in
  do! present <- io_get (fun d => path_exists d final_path);
  if (present : bool) then io_err (SvSnapshotAlreadyExists (generation_text generation))
  else
    run! write_snapshot_to_temp snapshot temp_path;
    run! io_call (fs_rename temp_path final_path) (fun e => SvIo ("rename snapshot: " +:+ e));
    run! cleanup_old_snapshots m;
    io_ret final_path.

Definition manager_snapshot_count (m : SnapshotManager) : IO SaveError nat :=
  do! snapshots <- manager_list_snapshots m; io_ret (length snapshots).
Definition manager_should_auto_checkpoint (m : SnapshotManager) (journal_entries : nat) : bool :=
  (sc_max_journal_diffs (sg_config m) <=? journal_entries)%nat.
Definition manager_create_snapshot (manifest : SchemaManifest) (generation : Tick) (state_hash : Z) : PersistedSnapshot :=
  persisted_new (mkHeader manifest generation state_hash).
End persistence.
