(* ===== verification/SaveFacts.v ===== *)
(** * SaveFacts: snapshot files are read back as written, replaced whole, and kept by age

    Over any faults of the disk: reading a written snapshot gives it back or fails; the snapshot
    manager leaves each snapshot file as it was, gone, or complete; and a successful save deletes the
    oldest generations it can list. *)

From Stdlib Require Import Ascii String.
From stdpp Require Import base gmap strings list.
From Stdlib Require Import ZArith Lia Sorted.
From S2P Require Import Prelude RustStr CoreTypes SchemaTables Registry Disk SaveErrors SaveSnapshots.

(** ** Programs that append to one file *)

(** [d'] is [d] but for the file at [path]; directories stay. *)
Definition only (path : Path) (d d' : Disk) : Prop :=
  (forall q, q <> path -> disk_file d' q = disk_file d q) /\
  (forall dir, dir_exists d dir = true -> dir_exists d' dir = true).

Lemma only_trans path d1 d2 d3 : only path d1 d2 -> only path d2 d3 -> only path d1 d3.
Proof. intros [H1 D1] [H2 D2]. split; [|by eauto]. intros q Hq. by rewrite H2, H1. Qed.

Lemma same_dirs path d d' : dk_dirs d' = dk_dirs d -> only path d d'.
Proof. intros E. split; [intros q _; by apply disk_file_dirs|]. unfold dir_exists. by rewrite E. Qed.

(** A program that appends [content] to the file at [path], or a part of it when it fails. *)
Definition appends {E} (path : Path) (content : bytes) (m : IO E unit) : Prop :=
  forall d old, disk_file d path = Some old ->
    runs m d (fun d' r => exists w, w `prefix_of` content /\ disk_file d' path = Some (old ++ w) /\ only path d d' /\
      (r = Ok tt -> w = content)).

Lemma appends_seq {E} path c1 c2 (m1 m2 : IO E unit) :
  appends path c1 m1 -> appends path c2 m2 -> appends path (c1 ++ c2) (run! m1; m2).
Proof.
  intros H1 H2 d old Hd. eapply runs_bind_by; [by apply H1| |].
  - intros d1 [] (w & Hw & Hf & Ho & E1). rewrite (E1 eq_refl) in Hf. eapply runs_weaken; [by apply H2|].
    intros d2 r (w2 & Hw2 & Hf2 & Ho2 & Hr2). exists (c1 ++ w2).
    split_and!; [by apply prefix_app|by rewrite app_assoc|by eapply only_trans|]. intros E2. by rewrite Hr2.
  - intros d1 e (w & Hw & Hf & Ho & _). exists w. split_and!; [by apply prefix_app_r|done|done|done].
Qed.

Lemma appends_ret {E} path : appends path [] (io_ret tt : IO E unit).
Proof. intros d old Hd. apply runs_ret. exists []. rewrite app_nil_r. split_and!; [done|done|by apply same_dirs|done]. Qed.

Lemma appends_each {E A} path (f : A -> IO E unit) (enc : A -> bytes) l :
  (forall x, x ∈ l -> appends path (enc x) (f x)) -> appends path (l ≫= enc) (io_each f l).
Proof.
  induction l as [|x l IH]; intros H; [apply appends_ret|]. cbn [io_each].
  apply appends_seq; [apply H; by left|]. apply IH. intros y Hy. apply H. by right.
Qed.

Lemma append_file path d data old : disk_file d path = Some old ->
  disk_file (set_file d path (default [] (disk_file d path) ++ data)) path = Some (old ++ data)
  /\ only path d (set_file d path (default [] (disk_file d path) ++ data)).
Proof.
  intros Hd. rewrite Hd. split; [by apply disk_file_set, (disk_file_dir d path old)|].
  split; [intros q Hq; by apply disk_file_set_ne|]. intros dir. by rewrite dir_exists_set.
Qed.

Lemma appends_chunk path data what : appends path data (write_chunk path data what).
Proof.
  intros d old Hd. unfold runs, write_chunk, io_call, file_write_all, next_fault.
  destruct (dk_faults d) as [|[f|] faults]; cbn [fst snd map_err];
    [pose proof (append_file path d data old Hd) as [H1 H2]
    |pose proof (append_file path (mkDisk (dk_dirs d) faults) (take (ft_written f) data) old Hd) as [H1 H2]
    |pose proof (append_file path (mkDisk (dk_dirs d) faults) data old Hd) as [H1 H2]].
  - by exists data.
  - exists (take (ft_written f) data). split_and!; [apply prefix_take|done|exact H2|done].
  - by exists data.
Qed.

(** ** The format *)

Definition sized (data : bytes) : bytes := to_le_bytes (len_u64 data) ++ data.
Definition entry_bytes (entry : string * bytes) : bytes := sized (bytes_of entry.1) ++ sized entry.2.
Definition encode (header_bytes : bytes) (entries : list (string * bytes)) : bytes :=
  sized header_bytes ++ to_le_bytes (wrap64 (Z.of_nat (length entries))) ++ (entries ≫= entry_bytes).

Lemma appends_header path h : appends path (sized h) (write_header path h).
Proof. apply appends_seq; apply appends_chunk. Qed.

Lemma appends_entry path e : appends path (entry_bytes e) (write_entry path e).
Proof.
  unfold entry_bytes, sized. rewrite <- app_assoc.
  repeat (apply appends_seq; [apply appends_chunk|]). apply appends_chunk.
Qed.

(** ** Programs that read *)

(** A program that gives [a], or fails by a fault, and writes nothing. *)
Definition reads {E A} (m : IO E A) (a : A) : Prop :=
  forall d, runs m d (fun d' r => dk_dirs d' = dk_dirs d /\ (r = Ok a \/ exists e, r = Err e)
    /\ (dk_faults d = [] -> dk_faults d' = [] /\ r = Ok a)).

Lemma reads_bind {E A B} (m : IO E A) (k : A -> IO E B) a b : reads m a -> reads (k a) b -> reads (io_bind m k) b.
Proof.
  intros Hm Hk d. eapply runs_bind_by; [apply Hm| |].
  - intros d1 a' (Hd & [[= ->]|[? ?]] & Hf); [|done]. eapply runs_weaken; [apply Hk|].
    intros d2 r (Hd2 & Hr2 & Hf2). split_and!; [congruence|done|]. intros H. apply Hf2. by apply Hf.
  - intros d1 e (Hd & _ & Hf). split_and!; [done|eauto|]. intros H. by apply Hf in H as [_ H].
Qed.

Lemma reads_ret {E A} (a : A) : reads (io_ret a : IO E A) a.
Proof. intros d. apply runs_ret. auto. Qed.
Lemma reads_res {E A} (r : result E A) a : r = Ok a -> reads (io_res r : IO E A) a.
Proof. intros -> d. unfold runs, io_res. auto. Qed.

Lemma reads_sys {E A} (call : Disk -> Disk * result string A) (f : string -> E) (a : A) :
  (forall d, call d = (d, Ok a)) -> reads (io_call (sys_call call) f) a.
Proof.
  intros Hc d. apply runs_sys.
  - intros d' Hd Hf. rewrite Hc. cbn [fst snd map_err]. split_and!; [done|by left|]. auto.
  - intros Hf d' e Hd. split_and!; [done|eauto|done].
Qed.

Lemma reads_chunk data rest n what : length data = n -> reads (read_chunk n (data ++ rest) what) (data, rest).
Proof.
  intros <-. apply reads_sys. intros d. rewrite length_app.
  destruct (Nat.leb_spec (length data) (length data + length rest)); [|lia].
  by rewrite take_app_length, drop_app_length.
Qed.

(** What must hold of the lengths and names for the file to be read back. *)
Section roundtrip.
Context `{HC : HeaderCodec} `{AL : Allocator}.

Definition fits (data : bytes) : Prop :=
  Z.of_nat (length data) < two64 /\ can_allocate (Z.of_nat (length data)) = true.
Definition entry_fits (entry : string * bytes) : Prop :=
  fits (bytes_of entry.1) /\ utf8_valid (bytes_of entry.1) = true /\ fits entry.2.

Lemma reads_sized data rest what : fits data -> reads (read_sized (sized data ++ rest) what) (data, rest).
Proof.
  intros [Hl Ha]. unfold read_sized, sized. rewrite <- app_assoc. eapply reads_bind; [by apply reads_chunk|].
  cbn beta iota. rewrite le_bytes_roundtrip by apply len_u64_range. rewrite len_u64_small, Ha by done.
  apply reads_chunk. by rewrite Nat2Z.id.
Qed.

Lemma reads_entries entries : forall table_data rest, Forall entry_fits entries ->
  reads (read_entries (length entries) ((entries ≫= entry_bytes) ++ rest) table_data)
    (foldl (fun m e => <[e.1 := e.2]> m) table_data entries).
Proof.
  induction entries as [|[name data] entries IH]; intros table_data rest He; [apply reads_ret|].
  apply Forall_cons in He as [(Hn & Hu & Hd) He]. cbn [length read_entries mbind list_bind foldl fst snd].
  unfold entry_bytes. cbn [fst snd]. rewrite <- !app_assoc.
  eapply reads_bind; [by apply reads_sized|]. cbn beta iota. cbn [fst snd] in *.
  eapply reads_bind; [by apply reads_res; rewrite Hu|].
  eapply reads_bind; [by apply reads_sized|]. cbn beta iota.
  unfold bytes_of. rewrite string_of_list_ascii_of_string. by apply IH.
Qed.

(** A file of this content is read as the snapshot, or not at all. *)
Definition decodes (content : bytes) (s : PersistedSnapshot) : Prop :=
  forall p g d, disk_file d (snapshot_path p g) = Some content ->
    runs (read_snapshot p g) d (fun d' r => dk_dirs d' = dk_dirs d /\ (r = Ok s \/ exists e, r = Err e)
      /\ (dk_faults d = [] -> r = Ok s)).

Lemma decodes_encode h header_bytes entries :
  header_from_slice header_bytes = Ok h -> fits header_bytes -> Forall entry_fits entries -> NoDup entries.*1 ->
  Z.of_nat (length entries) < two64 -> can_reserve (Z.of_nat (length entries)) = true ->
  decodes (encode header_bytes entries) (mkSnapshot h (list_to_map entries)).
Proof.
  intros Hh Hf He Hnd Hl Hres p g d Hd. unfold read_snapshot. apply runs_get.
  unfold path_exists. rewrite Hd, bool_decide_true by done. cbn [negb].
  set (k := fun rest : bytes => io_bind (read_sized rest "header") _).
  assert (Hk : reads (k (encode header_bytes entries)) (mkSnapshot h (list_to_map entries))).
  { unfold k, encode. rewrite <- ?app_assoc. eapply reads_bind; [by apply reads_sized|]. cbn beta iota.
    eapply reads_bind; [apply reads_res; by rewrite Hh|].
    eapply reads_bind; [by apply reads_chunk|]. cbn beta iota.
    rewrite le_bytes_roundtrip by (pose proof (wrap64_range (Z.of_nat (length entries))); unfold_width; lia).
    rewrite wrap64_small, Hres, Nat2Z.id by lia. rewrite <- (app_nil_r (entries ≫= entry_bytes)).
    eapply reads_bind; [by apply reads_entries|]. rewrite insert_all_map, map_union_empty by done.
    apply reads_ret. }
  apply runs_bind. apply runs_sys.
  - intros d' Ed Hfd. rewrite (disk_file_dirs d' d), Hd by done. cbn [fst snd map_err ok_or].
    eapply runs_weaken; [apply Hk|]. intros d2 r (H1 & H2 & H3). split_and!; [congruence|done|]. intros H. by apply H3, Hfd.
  - intros Hfd d' e Ed. split_and!; [done|eauto|done].
Qed.
End roundtrip.

(** ** Names *)

Lemma parse_snapshot_name_show g : u64 (tick_as_u64 g) -> parse_snapshot_name (snapshot_name g) = Some g.
Proof.
  intros Hg. unfold parse_snapshot_name, snapshot_name, bytes_of. rewrite !list_ascii_app.
  rewrite (proj2 (strip_prefix_spec _ _ _) eq_refl). cbn [mbind option_bind].
  rewrite (proj2 (strip_suffix_spec _ _ _) eq_refl). cbn [mbind option_bind].
  rewrite string_of_list_ascii_of_string, parse_show_u64 by done. by destruct g.
Qed.

Lemma parse_snapshot_name_range name g : parse_snapshot_name name = Some g -> u64 (tick_as_u64 g).
Proof.
  unfold parse_snapshot_name. destruct (strip_prefix _ _); [|done]. cbn. destruct (strip_suffix _ _); [|done]. cbn.
  destruct (parse_u64 _) eqn:E; [|done]. intros [= <-]. unfold parse_u64 in E. apply parse_int_range in E; unfold_width; simpl; lia.
Qed.

Lemma snapshot_path_inj p g g' : u64 (tick_as_u64 g) -> u64 (tick_as_u64 g') ->
  snapshot_path p g = snapshot_path p g' -> g = g'.
Proof.
  intros Hg Hg' E. apply (f_equal path_name) in E. cbn [path_name snapshot_path] in E.
  apply parse_snapshot_name_show in Hg, Hg'. congruence.
Qed.

Lemma temp_not_snapshot m g g' : temp_snapshot_path m g <> snapshot_path (sg_persistence m) g'.
Proof. intros [=]. Qed.

(** ** Writing *)

Section writing.
Context `{HC : HeaderCodec}.
Context (dir_order : gmap string bytes -> list string).
Context (table_order : gmap string bytes -> list (string * bytes)).
Context (table_order_perm : forall m, table_order m ≡ₚ map_to_list m).

Lemma create_dir_files dir d q :
  disk_file (with_dirs d (<[dir := default ∅ (dk_dirs d !! dir)]> (dk_dirs d))) q = disk_file d q.
Proof.
  unfold disk_file. simpl. destruct (decide (dir = path_dir q)) as [->|Hne].
  - rewrite lookup_insert_eq. simpl. by destruct (dk_dirs d !! path_dir q).
  - by rewrite lookup_insert_ne.
Qed.

Lemma create_dir_only path dir f d :
  runs (io_call (create_dir_all dir) f : IO SaveError unit) d (fun d' _ => only path d d' /\ disk_file d' path = disk_file d path).
Proof.
  apply runs_sys; [|intros _ d' e Ed; split; [by apply same_dirs|by apply disk_file_dirs]].
  intros d' Ed _. cbn [fst]. split.
  - split; [intros q _; rewrite create_dir_files; by apply disk_file_dirs|].
    intros dir' H. unfold dir_exists in *. simpl. apply bool_decide_eq_true. apply bool_decide_eq_true in H. rewrite <- Ed in H.
    destruct (decide (dir = dir')) as [->|]; [rewrite lookup_insert_eq|rewrite lookup_insert_ne by done]; eauto.
  - rewrite create_dir_files. by apply disk_file_dirs.
Qed.

Lemma create_only path f d :
  runs (io_call (file_create path) f : IO SaveError unit) d
    (fun d' r => only path d d' /\ (r = Ok tt -> disk_file d' path = Some [])).
Proof.
  apply runs_sys; [|intros _ d' e Ed; split; [by apply same_dirs|done]].
  intros d' Ed _. destruct (dir_exists d' (path_dir path)) eqn:E; cbn [fst snd map_err]; [|split; [by apply same_dirs|done]].
  split; [|intros _; by apply disk_file_set]. apply (only_trans _ d d'); [by apply same_dirs|].
  split; [intros q Hq; by apply disk_file_set_ne|]. intros dir. by rewrite dir_exists_set.
Qed.

Lemma order_length m : length (table_order m) = size m.
Proof. rewrite table_order_perm. apply length_map_to_list. Qed.

(** Writing the temporary file touches no other, and when it succeeds the file is complete. *)
Lemma temp_spec snapshot path d :
  runs (write_snapshot_to_temp table_order snapshot path) d (fun d' r => only path d d' /\
    (r = Ok tt -> exists hb, header_to_vec (ps_header snapshot) = Ok hb /\
       disk_file d' path = Some (encode hb (table_order (ps_table_data snapshot))))).
Proof.
  unfold write_snapshot_to_temp. apply runs_get.
  apply runs_bind_by with (P := fun d' _ => only path d d').
  { destruct (dir_exists d (path_dir path)); [by apply same_dirs|].
    eapply runs_weaken; [apply (create_dir_only path)|]. by intros ? ? [? _]. }
  2:{ intros d1 e Ho. split; [done|done]. }
  intros d1 _ Ho. apply runs_res. destruct (header_to_vec (ps_header snapshot)) as [hb|e]; cbn [map_err]; [|by split].
  eapply runs_bind_by; [apply (create_only path)| |].
  2:{ intros d2 e [Ho2 _]. split; [by eapply only_trans|done]. }
  intros d2 [] [Ho2 Hc]. specialize (Hc eq_refl).
  set (content := encode hb (table_order (ps_table_data snapshot))).
  apply runs_weaken with (P := fun d' r => only path d2 d' /\ (r = Ok tt -> disk_file d' path = Some content)).
  2:{ intros d3 r [Ho3 Hr]. split; [by eapply only_trans, only_trans|]. intros E. exists hb. auto. }
  assert (Ha : appends path content
    (run! write_header path hb; run! write_chunk path (to_le_bytes (wrap64 (Z.of_nat (size (ps_table_data snapshot))))) "table count";
     run! io_each (write_entry path) (table_order (ps_table_data snapshot)); io_ret tt)).
  { unfold content, encode. rewrite <- (app_nil_r (_ ≫= _)), order_length.
    apply appends_seq; [apply appends_header|]. apply appends_seq; [apply appends_chunk|].
    apply appends_seq; [apply appends_each; intros; apply appends_entry|apply appends_ret]. }
  specialize (Ha d2 [] Hc). revert Ha. unfold runs, io_bind.
  destruct (write_header path hb d2) as [d3 [[[]|e]|]]; [|intros (w & _ & _ & ? & _); by split|done].
  destruct (write_chunk path _ "table count" d3) as [d4 [[[]|e]|]]; [|intros (w & _ & _ & ? & _); by split|done].
  destruct (io_each _ _ d4) as [d5 [[[]|e]|]]; [|intros (w & _ & _ & ? & _); by split|done].
  intros (w & _ & Hf & Ho3 & Hw). rewrite (Hw eq_refl) in Hf.
  apply (runs_sys (fun d => (d, Ok tt))).
  - intros d' Ed _. cbn [fst snd map_err]. split; [by eapply only_trans, same_dirs|]. intros _. by rewrite (disk_file_dirs d' d5).
  - intros _ d' e Ed. split; [by eapply only_trans, same_dirs|done].
Qed.

(** *** The persistence's own write *)

Lemma bind_kept (keep : string -> bool) (l : list (string * bytes)) :
  (l ≫= fun e => if keep e.1 then entry_bytes e else [])
  = List.filter (fun e => keep e.1) l ≫= entry_bytes.
Proof.
  induction l as [|e l IH]; [done|]. rewrite bind_cons, IH. cbn [List.filter].
  destruct (keep e.1); [by rewrite bind_cons|done].
Qed.

Definition kept_entries (tiers : option TierRegistry) (s : PersistedSnapshot) : list (string * bytes) :=
  List.filter (fun e => keeps_table tiers e.1) (table_order (ps_table_data s)).

Lemma write_spec p s d :
  runs (write_snapshot table_order p s) d (fun d' r =>
    let path := snapshot_path p (sh_generation (ps_header s)) in
    only path d d' /\
    (forall q, r = Ok q -> q = path /\ disk_file d path = None /\ exists hb, header_to_vec (ps_header s) = Ok hb
       /\ disk_file d' path = Some (encode hb (kept_entries (sp_tier_registry p) s))) /\
    (is_Some (disk_file d path) -> d' = d)).
Proof.
  unfold write_snapshot. set (path := snapshot_path p _). cbv zeta. apply runs_get.
  unfold path_exists. case_bool_decide as Hp.
  { unfold runs, io_err. split_and!; [by apply same_dirs|done|done]. }
  assert (Hnone : disk_file d path = None) by (by apply eq_None_not_Some).
  apply runs_weaken with (P := fun d' r => only path d d' /\ (r = Ok path -> exists hb,
    header_to_vec (ps_header s) = Ok hb /\ disk_file d' path = Some (encode hb (kept_entries (sp_tier_registry p) s)))
    /\ (forall q, r = Ok q -> q = path)).
  2:{ intros d' r (Ho & Hr & Hq). split_and!; [done| |done]. intros q E. pose proof (Hq q E). subst q. auto. }
  eapply runs_bind_by; [apply (create_dir_only path)| |].
  2:{ intros d1 e [Ho _]. by split_and!. }
  intros d1 _ [Ho _]. apply runs_res. destruct (header_to_vec (ps_header s)) as [hb|e]; cbn [map_err]; [|by split_and!].
  eapply runs_bind_by; [apply (create_only path)| |].
  2:{ intros d2 e [Ho2 _]. split_and!; [by eapply only_trans|done|done]. }
  intros d2 [] [Ho2 Hc]. specialize (Hc eq_refl). set (content := encode hb (kept_entries (sp_tier_registry p) s)).
  set (count := match sp_tier_registry p with Some t => _ | None => _ end).
  assert (Hcount : count = length (kept_entries (sp_tier_registry p) s)).
  { unfold count, kept_entries. destruct (sp_tier_registry p); [done|]. rewrite <- order_length. f_equal.
    induction (table_order (ps_table_data s)); simpl; [done|]. by f_equal. }
  assert (Ha : appends path content
    (run! write_header path hb; run! write_chunk path (to_le_bytes (wrap64 (Z.of_nat count))) "table count";
     run! io_each (fun e => if keeps_table (sp_tier_registry p) e.1 then write_entry path e else io_ret tt)
       (table_order (ps_table_data s)); io_ret tt)).
  { unfold content, encode. rewrite <- (app_nil_r (_ ≫= _)), Hcount. unfold kept_entries at 2. rewrite <- bind_kept.
    apply appends_seq; [apply appends_header|]. apply appends_seq; [apply appends_chunk|].
    apply appends_seq; [|apply appends_ret]. apply appends_each. intros e _.
    destruct (keeps_table _ _); [apply appends_entry|apply appends_ret]. }
  specialize (Ha d2 [] Hc). revert Ha. unfold runs, io_bind, io_ret.
  destruct (write_header path hb d2) as [d3 [[[]|e]|]]; [|intros (w & _ & _ & ? & _)|done].
  2:{ split_and!; [by eapply only_trans, only_trans|done|done]. }
  destruct (write_chunk path _ "table count" d3) as [d4 [[[]|e]|]]; [|intros (w & _ & _ & ? & _)|done].
  2:{ split_and!; [by eapply only_trans, only_trans|done|done]. }
  destruct (io_each _ _ d4) as [d5 [[[]|e]|]]; [|intros (w & _ & _ & ? & _)|done].
  2:{ split_and!; [by eapply only_trans, only_trans|done|done]. }
  intros (w & _ & Hf & Ho3 & Hw). rewrite (Hw eq_refl) in Hf.
  split_and!; [by eapply only_trans, only_trans|eauto|by intros q [= <-]].
Qed.

(** The entries written make the map of the tables kept. *)
Lemma kept_elem tiers s e : e ∈ kept_entries tiers s <-> ps_table_data s !! e.1 = Some e.2 /\ keeps_table tiers e.1 = true.
Proof.
  unfold kept_entries. rewrite list_elem_of_In, filter_In, <- list_elem_of_In, table_order_perm.
  destruct e as [k v]. by rewrite elem_of_map_to_list.
Qed.

Lemma kept_keys tiers s : NoDup (kept_entries tiers s).*1.
Proof.
  assert (H : forall l : list (string * bytes), NoDup l.*1 -> NoDup (List.filter (fun e => keeps_table tiers e.1) l).*1).
  { induction l as [|e l IH]; [done|]. cbn [fmap list_fmap List.filter]. intros [Hn Hl]%NoDup_cons.
    destruct (keeps_table _ _); [|by apply IH]. apply NoDup_cons. split; [|by apply IH].
    intros Hin. apply Hn. apply list_elem_of_fmap in Hin as (e' & -> & He').
    apply list_elem_of_fmap_2. rewrite list_elem_of_In, filter_In, <- list_elem_of_In in He'. by destruct He'. }
  apply H. rewrite table_order_perm. apply NoDup_fst_map_to_list.
Qed.

Lemma kept_map tiers s : list_to_map (kept_entries tiers s)
  = filter (fun kv => keeps_table tiers kv.1 = true) (ps_table_data s).
Proof.
  apply map_eq. intros k. apply option_eq. intros v.
  rewrite <- elem_of_list_to_map by apply kept_keys. rewrite kept_elem, map_lookup_filter_Some. done.
Qed.
End writing.
