(* ===== verification/SaveRetention.v ===== *)
(** * SaveRetention: whole files, and the newest of them

    What the snapshot manager guarantees whatever faults the disk has: a snapshot file is never
    half written, and a save that succeeds deletes, of the generations its listing could read, the
    oldest in excess, so that without faults the newest are left. The persistence's own
    write has no such guarantee: the last part shows a failed write that stays in the way. *)

From Stdlib Require Import Ascii String.
From stdpp Require Import base gmap strings list.
From Stdlib Require Import ZArith Lia Sorted.
From S2P Require Import Prelude RustStr CoreTypes SchemaTables Registry Disk SaveErrors SaveSnapshots SaveFacts.

Section guarantees.
Context `{HC : HeaderCodec} `{AL : Allocator}.
Context (dir_order : gmap string bytes -> list string).
Context (table_order : gmap string bytes -> list (string * bytes)).
Context (dir_order_perm : forall files, dir_order files ≡ₚ (map_to_list files).*1).
Context (table_order_perm : forall m, table_order m ≡ₚ map_to_list m).

(** C29: A snapshot that was written is read back, less the tables that are not of the authority tier,
    or the read fails by a fault of the disk; without faults it is read back. *)
Theorem snapshot_write_read p s d d1 d2 q :
  (forall hb, header_to_vec (ps_header s) = Ok hb -> header_from_slice hb = Ok (ps_header s) /\ fits hb) ->
  (forall name data, ps_table_data s !! name = Some data -> entry_fits (name, data)) ->
  let tables := filter (fun kv => keeps_table (sp_tier_registry p) kv.1 = true) (ps_table_data s) in
  Z.of_nat (size tables) < two64 -> can_reserve (Z.of_nat (size tables)) = true ->
  write_snapshot table_order p s d = (d1, Some (Ok q)) -> dk_dirs d2 = dk_dirs d1 ->
  runs (read_snapshot p (sh_generation (ps_header s))) d2 (fun d3 r =>
    dk_dirs d3 = dk_dirs d2 /\ (r = Ok (mkSnapshot (ps_header s) tables) \/ exists e, r = Err e)
    /\ (dk_faults d2 = [] -> r = Ok (mkSnapshot (ps_header s) tables))).
Proof.
  intros Hh He tables Hn Hr Hw Ed. pose proof (write_spec table_order table_order_perm p s d) as H.
  unfold runs in H. rewrite Hw in H. cbv zeta in H. destruct H as (_ & H & _).
  destruct (H q eq_refl) as (_ & _ & hb & Ehb & Hf). destruct (Hh hb Ehb) as [Hdec Hfit].
  rewrite <- (disk_file_dirs d2 d1) in Hf by done.
  assert (Hm := kept_map table_order table_order_perm (sp_tier_registry p) s). fold tables in Hm.
  assert (Hlen : length (kept_entries table_order (sp_tier_registry p) s) = size tables).
  { rewrite <- Hm, <- length_map_to_list, map_to_list_to_map; [done|]. by apply kept_keys. }
  rewrite <- Hm. eapply decodes_encode; [done|done| |by apply kept_keys|by rewrite Hlen|by rewrite Hlen|exact Hf].
  apply Forall_forall. intros [k v] Hin. apply (kept_elem _ table_order_perm) in Hin as [Hin _]. by apply He.
Qed.

(** ** Deleting and listing *)

Lemma delete_snapshot_spec p g d :
  runs (delete_snapshot p g) d (fun d' r => only (snapshot_path p g) d d' /\
    (disk_file d' (snapshot_path p g) = disk_file d (snapshot_path p g) \/ disk_file d' (snapshot_path p g) = None) /\
    (r = Ok tt -> disk_file d' (snapshot_path p g) = None)).
Proof.
  unfold delete_snapshot. apply runs_get. unfold path_exists. case_bool_decide as Hp.
  - apply runs_sys.
    + intros d' Ed _. assert (Hp' : path_exists d' (snapshot_path p g) = true).
      { unfold path_exists. apply bool_decide_eq_true. by rewrite (disk_file_dirs d' d). }
      rewrite Hp'. cbn [fst snd map_err]. rewrite disk_file_unset. split_and!; [|by right|done].
      apply (only_trans _ d d'); [by apply same_dirs|]. split; [intros q Hq; by apply disk_file_unset_ne|].
      intros dir. by rewrite dir_exists_unset.
    + intros _ d' e Ed. split_and!; [by apply same_dirs|left; by apply disk_file_dirs|done].
  - apply runs_ret. split_and!; [by apply same_dirs|by left|]. intros _. by apply eq_None_not_Some.
Qed.

(** Only the snapshots to be deleted change, and they are gone when the loop ends. *)
Lemma deletes_spec p gs d :
  runs (io_each (delete_snapshot p) gs) d (fun d' r =>
    (forall q, disk_file d' q = disk_file d q \/ (exists g, g ∈ gs /\ q = snapshot_path p g /\ disk_file d' q = None)) /\
    (r = Ok tt -> forall g, g ∈ gs -> disk_file d' (snapshot_path p g) = None)).
Proof.
  revert d. induction gs as [|g gs IH]; intros d.
  { apply runs_ret. split; [by left|]. intros _ g []%elem_of_nil. }
  cbn [io_each]. eapply runs_bind_by; [apply delete_snapshot_spec| |].
  - intros d1 [] (Ho & _ & Hd). specialize (Hd eq_refl). eapply runs_weaken; [apply IH|].
    intros d2 r [Hq Hr]. split.
    + intros q. destruct (decide (q = snapshot_path p g)) as [->|Hne].
      * right. exists g. split_and!; [by left|done|]. destruct (Hq (snapshot_path p g)) as [->|(? & _ & _ & ?)]; done.
      * destruct (Hq q) as [->|(g' & ? & ? & ?)]; [left; by apply Ho|right; exists g'; split_and!; [by right|done..]].
    + intros E g' [->|Hg']%elem_of_cons; [|by apply Hr].
      destruct (Hq (snapshot_path p g)) as [->|(? & _ & _ & ?)]; done.
  - intros d1 e (Ho & Hor & _). split; [|done]. intros q. destruct (decide (q = snapshot_path p g)) as [->|Hne].
    + destruct Hor as [->|Hn]; [by left|right; exists g; by split_and!; [left|..]].
    + left. by apply Ho.
Qed.

(** The generations that names stand for, oldest first; those of a directory. *)
Definition generations_of (names : list string) : list Tick :=
  (sort_by_key (fun tp : Tick * Path => tick_as_u64 tp.1)
    (omap (fun name => tick ← parse_snapshot_name name; Some (tick, mkPath "" name)) names)).*1.
Definition listing (files : gmap string bytes) : list Tick := generations_of (dir_order files).

(** What a listing of the directory may show: the entries that could be read. *)
Definition shown (files : gmap string bytes) (seen : list Tick) : Prop :=
  exists names, names `sublist_of` dir_order files /\ seen = generations_of names.

Lemma sort_fst_map {A B C} (key : A -> Z) (f : A * B -> A * C) (l : list (A * B)) :
  (forall x, (f x).1 = x.1) ->
  (sort_by_key (fun x => key x.1) (f <$> l)).*1 = (sort_by_key (fun x => key x.1) l).*1.
Proof.
  intros Hf. assert (Hs : sort_by_key (fun x => key x.1) (f <$> l) = f <$> sort_by_key (fun x => key x.1) l).
  { assert (Hi : forall x k, insert_by_key (fun x => key x.1) (f x) (f <$> k) = f <$> insert_by_key (fun x => key x.1) x k).
    { intros x k. induction k as [|y k IH]; [done|]. cbn. rewrite !Hf. destruct (_ <=? _); [done|]. cbn. by f_equal. }
    induction l as [|x l IH]; [done|]. cbn. by rewrite IH, Hi. }
  rewrite Hs, <- list_fmap_compose. apply list_fmap_ext. intros ? x _. apply Hf.
Qed.

Lemma omap_place base (names : list string) :
  omap (fun name => tick ← parse_snapshot_name name; Some (tick, mkPath base name)) names
  = (fun tp : Tick * Path => (tp.1, mkPath base (path_name tp.2))) <$>
      omap (fun name => tick ← parse_snapshot_name name; Some (tick, mkPath "" name)) names.
Proof.
  induction names as [|name names IH]; [done|]. csimpl. rewrite IH.
  by destruct (parse_snapshot_name name).
Qed.

Lemma entries_ok_spec entries : forall d, exists d' names, entries_ok entries d = (d', Some (Ok names))
  /\ dk_dirs d' = dk_dirs d /\ names `sublist_of` entries /\ (quiet d -> names = entries /\ quiet d').
Proof.
  induction entries as [|name entries IH]; intros d; [by exists d, []|]. cbn [entries_ok].
  pose proof (next_fault_dirs d) as Hdirs. pose proof (quiet_next d) as Hq. destruct (next_fault d) as [d1 [f|]]; cbn [fst snd] in *.
  - destruct (IH d1) as (d2 & names & -> & Ed & Hs & _). exists d2, names. split_and!; [done|congruence|by constructor|].
    intros H. by apply Hq in H as [_ ?].
  - destruct (IH d1) as (d2 & names & E & Ed & Hs & Hn). exists d2, (name :: names). unfold io_bind. rewrite E.
    split_and!; [done|congruence|by constructor|]. intros H. apply Hq in H as [H _]. by apply Hn in H as [-> H].
Qed.

Lemma list_spec p d :
  runs (list_snapshots dir_order p) d (fun d' r => dk_dirs d' = dk_dirs d /\ (quiet d -> quiet d') /\
    forall l, r = Ok l -> exists files, dk_dirs d !! sp_base_dir p = Some files /\ shown files (l.*1)
      /\ (quiet d -> l.*1 = listing files)).
Proof.
  unfold list_snapshots. eapply runs_bind_by with (P := fun d' r => dk_dirs d' = dk_dirs d /\ (quiet d -> quiet d') /\
    forall names, r = Ok names -> exists files, dk_dirs d !! sp_base_dir p = Some files /\ names = dir_order files).
  - pose proof (quiet_read_dir dir_order (sp_base_dir p) (fun e => SvIo ("read_dir: " +:+ e)) d) as Hq. revert Hq.
    unfold runs, io_call, read_dir, sys_call. pose proof (next_fault_dirs d) as Hd.
    destruct (next_fault d) as [d1 [f|]]; cbn [fst snd map_err] in *; [by intros Hq|]. rewrite <- Hd.
    destruct (dk_dirs d1 !! sp_base_dir p) as [files|] eqn:E; cbn [fst snd map_err]; intros Hq; split_and!; try done.
    intros names [= <-]. by exists files.
  - intros d1 names (Ed & Hq & H). destruct (H names eq_refl) as (files & Ef & ->).
    unfold runs, io_bind. destruct (entries_ok_spec (dir_order files) d1) as (d2 & names & -> & Ed2 & Hs & Hn).
    split_and!; [congruence|intros Hd; by apply Hn, Hq|].
    intros l [= <-]. exists files. split; [done|].
    rewrite omap_place, (sort_fst_map tick_as_u64) by done. fold (generations_of names). split; [by exists names|].
    intros Hd. unfold listing. f_equal. by apply Hn, Hq.
  - intros d1 e (Ed & Hq & _). by split_and!.
Qed.

Lemma listing_no_faults p d files : dk_faults d = [] -> dk_dirs d !! sp_base_dir p = Some files ->
  exists l, list_snapshots dir_order p d = (d, Some (Ok l)) /\ l.*1 = listing files.
Proof.
  intros Hf Hd. assert (He : forall entries, entries_ok entries d = (d, Some (Ok entries))).
  { induction entries as [|name entries IH]; [done|]. cbn [entries_ok]. unfold next_fault. rewrite Hf. unfold io_bind. by rewrite IH. }
  eexists. unfold list_snapshots, io_bind, io_call, read_dir, sys_call, next_fault. rewrite Hf, Hd. cbn [map_err]. rewrite He.
  split; [reflexivity|]. rewrite omap_place. by apply (sort_fst_map tick_as_u64).
Qed.

(** ** The manager *)

Lemma cleanup_spec m d :
  runs (cleanup_old_snapshots dir_order m) d (fun d' r =>
    exists gs, (forall q, disk_file d' q = disk_file d q \/ (exists g, g ∈ gs /\ q = snapshot_path (sg_persistence m) g /\ disk_file d' q = None))
      /\ (r = Ok tt -> exists files seen, dk_dirs d !! sp_base_dir (sg_persistence m) = Some files
           /\ shown files seen /\ (quiet d -> seen = listing files)
           /\ gs = take (length seen - sc_max_snapshots (sg_config m)) seen
           /\ forall g, g ∈ gs -> disk_file d' (snapshot_path (sg_persistence m) g) = None)).
Proof.
  unfold cleanup_old_snapshots. eapply runs_bind_by with (P := fun d1 r => dk_dirs d1 = dk_dirs d /\
    forall l, r = Ok l -> exists files, dk_dirs d !! sp_base_dir (sg_persistence m) = Some files
      /\ shown files (si_generation <$> l) /\ (quiet d -> si_generation <$> l = listing files)).
  - unfold manager_list_snapshots. eapply runs_bind_by; [apply list_spec| |].
    + intros d1 l (Ed & _ & H). apply runs_ret. split; [done|]. intros l' [= <-].
      destruct (H l eq_refl) as (files & Ef & Hl). exists files. split; [done|].
      rewrite <- list_fmap_compose. by rewrite (list_fmap_ext _ fst).
    + intros d1 e (Ed & _). by split.
  - intros d1 l [Ed H]. destruct (H l eq_refl) as (files & Ef & Hshown & Hq). set (seen := si_generation <$> l) in *.
    assert (Hlen : length l = length seen) by (unfold seen; by rewrite length_fmap). rewrite Hlen.
    destruct (Nat.leb_spec (length seen) (sc_max_snapshots (sg_config m))) as [Hle|Hlt].
    + apply runs_ret. exists []. split; [left; by apply disk_file_dirs|]. intros _. exists files, seen.
      replace (length seen - _)%nat with O by lia. split_and!; [done..|]. by intros g []%elem_of_nil.
    + set (n := (_ - _)%nat). assert (Hio : forall l, io_each (fun info => delete_snapshot (sg_persistence m) (si_generation info)) l
        = io_each (delete_snapshot (sg_persistence m)) (si_generation <$> l)).
      { clear. intros l. induction l as [|i l IH]; [done|]. cbn. by rewrite IH. }
      rewrite Hio, fmap_take. fold seen. eapply runs_weaken; [apply deletes_spec|]. intros d2 r [Hqq Hr].
      exists (take n seen). split.
      * intros q. destruct (Hqq q) as [->|?]; [left; by apply disk_file_dirs|by right].
      * intros E. exists files, seen. split_and!; [done..|]. by apply Hr.
  - intros d1 e [Ed _]. exists []. split; [left; by apply disk_file_dirs|done].
Qed.

Lemma rename_spec t f g d : t <> f ->
  runs (io_call (fs_rename t f) g : IO SaveError unit) d (fun d' r =>
    (r = Ok tt /\ (exists content, disk_file d t = Some content /\ disk_file d' f = Some content)
       /\ disk_file d' t = None /\ forall q, q <> t -> q <> f -> disk_file d' q = disk_file d q)
    \/ (exists e, r = Err e) /\ forall q, disk_file d' q = disk_file d q).
Proof.
  intros Hne. apply runs_sys.
  - intros d' Ed _. rewrite <- (disk_file_dirs d' d t) by done.
    destruct (disk_file d' t) as [content|] eqn:Et; [destruct (dir_exists d' (path_dir f)) eqn:Ef|]; cbn [fst snd map_err].
    + left. split_and!; [done| | |].
      * exists content. split; [done|]. apply disk_file_set. by rewrite dir_exists_unset.
      * by rewrite disk_file_set_ne, disk_file_unset by done.
      * intros q H1 H2. rewrite disk_file_set_ne, disk_file_unset_ne by done. by apply disk_file_dirs.
    + right. split; [eauto|]. intros q. by apply disk_file_dirs.
    + right. split; [eauto|]. intros q. by apply disk_file_dirs.
  - intros _ d' e Ed. right. split; [eauto|]. intros q. by apply disk_file_dirs.
Qed.

(** Up to the clean-up, either no snapshot file changed, or the new one is there, complete. *)
Definition replaced (m : SnapshotManager) (s : PersistedSnapshot) (d d' : Disk) : Prop :=
  let gen := sh_generation (ps_header s) in
  let final_path := snapshot_path (sg_persistence m) gen in
  exists hb, header_to_vec (ps_header s) = Ok hb
    /\ disk_file d' final_path = Some (encode hb (table_order (ps_table_data s)))
    /\ disk_file d' (temp_snapshot_path m gen) = None
    /\ forall q, q <> final_path -> q <> temp_snapshot_path m gen -> disk_file d' q = disk_file d q.

Lemma quiet_temp s path : keeps_quiet (write_snapshot_to_temp table_order s path).
Proof.
  unfold write_snapshot_to_temp, write_header, write_chunk.
  repeat (apply quiet_bind; [|intros ?]); auto 10 with quiet.
  - by destruct a; auto with quiet.
  - apply quiet_each. intros x. unfold write_entry, write_chunk. repeat (apply quiet_bind; [|intros ?]); auto with quiet.
Qed.

Lemma save_spec m s d :
  runs (save_snapshot dir_order table_order m s) d (fun d' r =>
    (exists e, r = Err e) /\ (forall g, disk_file d' (snapshot_path (sg_persistence m) g) = disk_file d (snapshot_path (sg_persistence m) g))
    \/ exists d2, replaced m s d d2 /\ disk_file d (snapshot_path (sg_persistence m) (sh_generation (ps_header s))) = None
       /\ exists gs, (forall q, disk_file d' q = disk_file d2 q \/ (exists g, g ∈ gs /\ q = snapshot_path (sg_persistence m) g /\ disk_file d' q = None))
       /\ (forall q, r = Ok q -> exists files seen, dk_dirs d2 !! sp_base_dir (sg_persistence m) = Some files
            /\ shown files seen /\ (quiet d -> seen = listing files)
            /\ gs = take (length seen - sc_max_snapshots (sg_config m)) seen
            /\ forall g, g ∈ gs -> disk_file d' (snapshot_path (sg_persistence m) g) = None)).
Proof.
  unfold save_snapshot. set (gen := sh_generation (ps_header s)). apply runs_get.
  unfold path_exists. case_bool_decide as Hp.
  { left. split; [by eexists|done]. }
  assert (Hnone : disk_file d (snapshot_path (sg_persistence m) gen) = None) by (by apply eq_None_not_Some).
  eapply runs_bind_by; [apply runs_quiet; [apply quiet_temp|by apply temp_spec]| |].
  2:{ intros d1 e [[[Ho _] _] _]. left. split; [by eexists|]. intros g. apply Ho. intros E. by apply (temp_not_snapshot m gen g). }
  intros d1 [] [[[Ho _] Hc] Hq1]. destruct (Hc eq_refl) as (hb & Ehb & Htemp). clear Hc.
  eapply runs_bind_by; [apply runs_quiet; [apply quiet_rename|apply rename_spec, temp_not_snapshot]| |].
  2:{ intros d2 e [[[[=] _]|[_ Hq]] _]. left. split; [by eexists|]. intros g. rewrite Hq. apply Ho.
      intros E. by apply (temp_not_snapshot m gen g). }
  intros d2 [] [[(_ & (content & E1 & E2) & E3 & Hq)|[[e [=]] _]] Hq2]. fold gen in Htemp. rewrite Htemp in E1. injection E1 as <-.
  assert (Hrep : replaced m s d d2).
  { exists hb. split_and!; [done..|]. intros q H1 H2. rewrite Hq by done. by apply Ho. }
  eapply runs_bind_by; [apply cleanup_spec| |].
  - intros d3 [] (gs & Hgs & Hr). apply runs_ret. right. exists d2. split_and!; [done|done|]. exists gs. split; [done|].
    intros q _. destruct (Hr eq_refl) as (files & seen & Hf & Hsh & Hall & H). exists files, seen. split_and!; [done|done| |apply H..].
    intros Hd. by apply Hall, Hq2, Hq1.
  - intros d3 e (gs & Hgs & Hr). right. exists d2. split_and!; [done|done|]. exists gs. by split.
Qed.

(** C9: Whatever faults the disk has, saving a snapshot leaves each snapshot file as it was, gone, or,
    for the new one, complete; and unless the new file was completed nothing changed. *)
Theorem save_snapshot_whole (m : SnapshotManager) (s : PersistedSnapshot) (d : Disk) :
  let gen := sh_generation (ps_header s) in
  let file d g := disk_file d (snapshot_path (sg_persistence m) g) in
  u64 (tick_as_u64 gen) ->
  runs (save_snapshot dir_order table_order m s) d (fun d' r =>
    (exists e, r = Err e) /\ (forall g, file d' g = file d g)
    \/ exists hb, header_to_vec (ps_header s) = Ok hb /\ forall g, u64 (tick_as_u64 g) ->
         file d' g = None
         \/ file d' g = if decide (g = gen) then Some (encode hb (table_order (ps_table_data s))) else file d g).
Proof.
  intros gen file Hgen. eapply runs_weaken; [apply save_spec|].
  intros d' r [[He Hf]|(d2 & (hb & Ehb & Hfinal & _ & Hq) & _ & gs & Hgs & _)]; [by left|].
  right. exists hb. split; [done|]. intros g Hg. unfold file.
  destruct (Hgs (snapshot_path (sg_persistence m) g)) as [->|(_ & _ & _ & ?)]; [|by left].
  right. destruct (decide (g = gen)) as [->|Hne]; [done|]. apply Hq.
  - intros E. by apply snapshot_path_inj in E.
  - intros E. by apply (temp_not_snapshot m gen g).
Qed.

(** ** Retention *)

(** Every file that reads as a snapshot has the name the program gives it. *)
Definition canonical_names (base : string) (d : Disk) : Prop :=
  forall name g, is_Some (disk_file d (mkPath base name)) -> parse_snapshot_name name = Some g -> name = snapshot_name g.

Lemma generations_perm names : generations_of names ≡ₚ omap parse_snapshot_name names.
Proof.
  unfold generations_of. rewrite sort_by_key_perm. induction names as [|name names IH]; [done|]. csimpl.
  destruct (parse_snapshot_name name); csimpl; by rewrite IH.
Qed.

Lemma dir_order_elem files name : name ∈ dir_order files <-> is_Some (files !! name).
Proof.
  rewrite dir_order_perm, list_elem_of_fmap. split.
  - intros ([k v] & -> & H%elem_of_map_to_list). by eexists.
  - intros [v H]. exists (name, v). split; [done|]. by apply elem_of_map_to_list.
Qed.

Lemma listing_elem files g : g ∈ listing files <-> exists name, is_Some (files !! name) /\ parse_snapshot_name name = Some g.
Proof.
  unfold listing. rewrite generations_perm, list_elem_of_omap. by setoid_rewrite dir_order_elem.
Qed.

Lemma sublist_elem {A} (l k : list A) x : l `sublist_of` k -> x ∈ l -> x ∈ k.
Proof. intros H%sublist_submseteq Hx. by eapply elem_of_submseteq. Qed.

(** What is shown is among what is there, in order, each once. *)
Lemma shown_elem files seen g : shown files seen -> g ∈ seen -> g ∈ listing files.
Proof.
  intros (names & Hs & ->). unfold listing. rewrite !generations_perm, !list_elem_of_omap.
  intros (name & Hn & E). exists name. split; [by eapply sublist_elem|done].
Qed.

Lemma shown_sorted base d files seen : dk_dirs d !! base = Some files -> canonical_names base d -> shown files seen ->
  StronglySorted (fun a b => tick_as_u64 a < tick_as_u64 b) seen.
Proof.
  intros Hb Hc (names & Hsub & ->). assert (Hnd : NoDup (generations_of names)).
  { rewrite generations_perm.
    assert (Hn : NoDup names) by (eapply sublist_NoDup; [|exact Hsub]; rewrite dir_order_perm; apply NoDup_fst_map_to_list).
    assert (Hin : forall name, name ∈ names -> is_Some (disk_file d (mkPath base name))).
    { intros name Hname%(sublist_elem _ _ _ Hsub)%dir_order_elem. unfold disk_file. simpl. by rewrite Hb. }
    clear Hsub. induction names as [|name names IH]; [constructor|]. apply NoDup_cons in Hn as [Hnot Hn]. csimpl.
    destruct (parse_snapshot_name name) as [g|] eqn:E; [|apply IH; [done|]; intros; apply Hin; by right].
    apply NoDup_cons. split; [|apply IH; [done|]; intros; apply Hin; by right].
    intros (name' & Hn' & E')%list_elem_of_omap. apply Hnot.
    rewrite (Hc name g (Hin name ltac:(by left)) E), <- (Hc name' g (Hin name' ltac:(by right)) E'). done. }
  assert (Hs : StronglySorted (fun a b => tick_as_u64 a <= tick_as_u64 b) (generations_of names)).
  { unfold generations_of. pose proof (sort_by_key_sorted (fun tp : Tick * Path => tick_as_u64 tp.1)
      (omap (fun name => tick ← parse_snapshot_name name; Some (tick, mkPath "" name)) names)) as H.
    induction H as [|x l Hl IH Hx]; [constructor|]. cbn. constructor; [done|]. by apply Forall_fmap. }
  induction Hs as [|g l Hl IH Hg]; [constructor|]. apply NoDup_cons in Hnd as [Hn Hnd]. constructor; [by apply IH|].
  apply Forall_forall. intros g' Hg'. rewrite Forall_forall in Hg. specialize (Hg g' Hg').
  assert (tick_as_u64 g <> tick_as_u64 g'); [|lia]. intros E. apply Hn. destruct g, g'. simpl in E. by subst.
Qed.

Lemma listing_shown files : shown files (listing files).
Proof. by exists (dir_order files). Qed.

Lemma listing_sorted base d files : dk_dirs d !! base = Some files -> canonical_names base d ->
  StronglySorted (fun a b => tick_as_u64 a < tick_as_u64 b) (listing files).
Proof. intros Hb Hc. eapply shown_sorted; [done|done|apply listing_shown]. Qed.

Lemma replaced_canonical m s d d2 : u64 (tick_as_u64 (sh_generation (ps_header s))) ->
  canonical_names (sp_base_dir (sg_persistence m)) d -> replaced m s d d2 ->
  canonical_names (sp_base_dir (sg_persistence m)) d2.
Proof.
  intros Hgen Hc (hb & _ & Hfinal & Htemp & Hq) name g Hname Hg.
  set (gen := sh_generation (ps_header s)) in *.
  destruct (decide (name = snapshot_name gen)) as [->|Hne].
  - rewrite parse_snapshot_name_show in Hg by done. congruence.
  - apply Hc; [|done]. rewrite <- Hq; [done| |].
    + intros E. apply Hne. by injection E.
    + intros E. rewrite E in Hname. rewrite Htemp in Hname. by destruct Hname.
Qed.

Lemma listing_files base d files : dk_dirs d !! base = Some files -> canonical_names base d ->
  forall g, g ∈ listing files <-> u64 (tick_as_u64 g) /\ is_Some (disk_file d (mkPath base (snapshot_name g))).
Proof.
  intros Hb Hc g. rewrite listing_elem.
  assert (Hf : forall name, disk_file d (mkPath base name) = files !! name) by (intros; unfold disk_file; simpl; by rewrite Hb).
  split.
  - intros (name & Hn & E). split; [by eapply parse_snapshot_name_range|]. rewrite Hf.
    rewrite <- Hf in Hn. by rewrite <- (Hc name g Hn E), <- Hf.
  - intros [Hg H]. exists (snapshot_name g). rewrite <- Hf. split; [done|]. by apply parse_snapshot_name_show.
Qed.

Lemma sorted_nodup l : StronglySorted (fun a b => tick_as_u64 a < tick_as_u64 b) l -> NoDup l.
Proof.
  induction 1 as [|g l Hl IH Hg]; constructor; [|done]. intros Hin. rewrite Forall_forall in Hg.
  specialize (Hg g Hin). lia.
Qed.

Lemma nodup_drop {A} (l : list A) n : NoDup l -> forall x, x ∈ drop n l <-> x ∈ l /\ x ∉ take n l.
Proof.
  intros Hl x. rewrite <- (take_drop n l) in Hl at 1. apply NoDup_app in Hl as (_ & Hd & _).
  rewrite <- (take_drop n l) at 2. rewrite elem_of_app. split; [|tauto].
  intros H. split; [by right|]. intros Ht. by apply (Hd x Ht).
Qed.

(** C28: What a save that succeeds keeps, over any faults of the disk. The generations are those that
    were there and the new one; the clean-up sees some of them (an entry of the directory that cannot
    be read is skipped without an error), and deletes, oldest first, exactly as many of those it sees
    as exceed the number configured. When no call fails it sees all, and exactly the newest are left,
    as many as configured. *)
Theorem save_keeps_newest (m : SnapshotManager) (s : PersistedSnapshot) (d d' : Disk) (q : Path) :
  let gen := sh_generation (ps_header s) in
  let max := sc_max_snapshots (sg_config m) in
  let there d g := is_Some (disk_file d (snapshot_path (sg_persistence m) g)) in
  u64 (tick_as_u64 gen) -> canonical_names (sp_base_dir (sg_persistence m)) d ->
  save_snapshot dir_order table_order m s d = (d', Some (Ok q)) ->
  exists gens seen,
    StronglySorted (fun a b => tick_as_u64 a < tick_as_u64 b) gens
    /\ (forall g, g ∈ gens <-> u64 (tick_as_u64 g) /\ (g = gen \/ there d g))
    /\ StronglySorted (fun a b => tick_as_u64 a < tick_as_u64 b) seen /\ seen ⊆ gens
    /\ (forall g, u64 (tick_as_u64 g) -> (there d' g <-> g ∈ gens /\ g ∉ take (length seen - max) seen))
    /\ (quiet d -> forall g, u64 (tick_as_u64 g) -> (there d' g <-> g ∈ drop (length gens - max) gens)).
Proof.
  intros gen max there Hgen Hc Hs. pose proof (save_spec m s d) as H. unfold runs in H. rewrite Hs in H.
  destruct H as [[[e [=]] _]|(d2 & Hrep & _ & gs & Hgs & Hr)].
  destruct (Hr q eq_refl) as (files & seen & Hfiles & Hshown & Hall & -> & Hgone). clear Hr.
  pose proof (replaced_canonical m s d d2 Hgen Hc Hrep) as Hc2.
  pose proof (listing_sorted _ d2 files Hfiles Hc2) as Hsorted.
  pose proof (listing_files _ d2 files Hfiles Hc2) as Hlist.
  destruct Hrep as (hb & _ & Hfinal & _ & Hq). fold gen in Hfinal, Hq.
  assert (Hthere : forall g, u64 (tick_as_u64 g) -> there d2 g <-> g = gen \/ there d g).
  { intros g Hg. unfold there. destruct (decide (g = gen)) as [->|Hne]; [rewrite Hfinal; naive_solver|].
    rewrite Hq; [naive_solver| |].
    - intros E. by apply snapshot_path_inj in E.
    - intros E. by apply (temp_not_snapshot m gen g). }
  assert (Hkept : forall g, u64 (tick_as_u64 g) -> (there d' g <-> g ∈ listing files /\ g ∉ take (length seen - max) seen)).
  { intros g Hg. rewrite Hlist. fold max in Hgs, Hgone. set (old := take _ _) in *. unfold there.
    destruct (decide (g ∈ old)) as [Hin|Hin]; [rewrite Hgone by done; split; [by intros []|by intros [_ ?]]|].
    destruct (Hgs (snapshot_path (sg_persistence m) g)) as [->|(g' & Hg' & E & _)]; [naive_solver|]. exfalso. apply Hin.
    assert (u64 (tick_as_u64 g')) as Hu'.
    { apply elem_of_take in Hg' as (i & Hi & _). apply list_elem_of_lookup_2, (shown_elem files) in Hi; [|done].
      by apply Hlist in Hi as [? _]. }
    by apply snapshot_path_inj in E as ->. }
  exists (listing files), seen. split_and!.
  - done.
  - intros g. rewrite Hlist. unfold there in Hthere. naive_solver.
  - by eapply shown_sorted.
  - intros g Hg. by eapply shown_elem.
  - done.
  - intros Hd g Hg. rewrite Hkept, (Hall Hd) by done. by rewrite (nodup_drop _ _ (sorted_nodup _ Hsorted)).
Qed.
End guarantees.
