(* ===== verification/Checkpoints.v ===== *)
(** * Checkpoints: the checkpoint manager and the save journal that feeds it

    Models [checkpoint.rs] of [scharnhorst_save]. A method that takes [&mut self] and changes the
    manager only when it succeeds returns the new manager. [CheckpointingSaveJournal] implements the
    [SaveJournal] trait: it is an instance of [SaveOps], its state holding the disk it writes to. *)

From Stdlib Require Import Ascii String.
From stdpp Require Import base gmap strings list.
From Stdlib Require Import ZArith Lia Sorted.
From S2P Require Import Prelude RustStr CoreTypes SchemaTables Registry Journal Disk SaveErrors SaveSnapshots SaveFacts SaveRetention.

Record RetentionPolicy := mkPolicy { rp_max_snapshots : nat; rp_auto_checkpoint_threshold : Z }.
Definition policy_default : RetentionPolicy := mkPolicy 3 1000.
Definition policy_with_max_snapshots (p : RetentionPolicy) (n : nat) : RetentionPolicy :=
  mkPolicy n (rp_auto_checkpoint_threshold p).
Definition policy_with_auto_checkpoint_threshold (p : RetentionPolicy) (n : Z) : RetentionPolicy :=
  mkPolicy (rp_max_snapshots p) n.

Record CheckpointManager := mkCheckpoints {
  cm_persistence : SnapshotPersistence; cm_policy : RetentionPolicy; cm_journal_path : Path;
  cm_entries : Z; cm_tier_registry : option TierRegistry }.

Definition checkpoints_new (base_dir : string) (policy : RetentionPolicy) (journal_path : Path) : CheckpointManager :=
  mkCheckpoints (persistence_new base_dir) policy journal_path 0 None.
Definition checkpoints_with_tier_registry (m : CheckpointManager) (t : TierRegistry) : CheckpointManager :=
  mkCheckpoints (persistence_with_tier_registry (cm_persistence m) t) (cm_policy m) (cm_journal_path m)
    (cm_entries m) (Some t).
Definition with_entries (m : CheckpointManager) (n : Z) : CheckpointManager :=
  mkCheckpoints (cm_persistence m) (cm_policy m) (cm_journal_path m) n (cm_tier_registry m).
Definition record_journal_entry (m : CheckpointManager) : CheckpointManager := with_entries m (wrap64 (cm_entries m + 1)).
Definition reset_journal_counter (m : CheckpointManager) : CheckpointManager := with_entries m 0.
Definition should_auto_checkpoint (m : CheckpointManager) : bool :=
  rp_auto_checkpoint_threshold (cm_policy m) <=? cm_entries m.

Section checkpoints.
Context `{HC : HeaderCodec} `{AL : Allocator}.
Context (dir_order : gmap string bytes -> list string).
Context (table_order : gmap string bytes -> list (string * bytes)).

Definition enforce_retention (m : CheckpointManager) : IO SaveError unit :=
  do! snapshots <- list_snapshots dir_order (cm_persistence m);
  if (length snapshots <=? rp_max_snapshots (cm_policy m))%nat then io_ret tt
  else
    let to_remove := (length snapshots - rp_max_snapshots (cm_policy m))%nat in
    io_each (fun tp => delete_snapshot (cm_persistence m) tp.1) (take to_remove snapshots).

Definition try_auto_checkpoint (m : CheckpointManager) : IO SaveError (CheckpointManager * bool) :=
  if should_auto_checkpoint m then run! enforce_retention m; io_ret (reset_journal_counter m, true)
  else io_ret (m, false).

Definition truncate_journal (m : CheckpointManager) : IO SaveError CheckpointManager :=
  do! present <- io_get (fun d => path_exists d (cm_journal_path m));
  run! (if (present : bool) then io_call (fs_remove_file (cm_journal_path m)) (fun e => SvJournalTruncation e) else io_ret tt);
  io_ret (reset_journal_counter m).

Definition write_checkpoint_snapshot (m : CheckpointManager) (snapshot : PersistedSnapshot) : IO SaveError CheckpointManager :=
  run! write_snapshot table_order (cm_persistence m) snapshot;
  run! enforce_retention m;
  do! m <- truncate_journal m;
  io_ret (reset_journal_counter m).

(** ** The save journal *)

Record CheckpointingSaveJournal (V : Type) := mkCheckpointing {
  cj_inner : list (CommitRecord V); cj_manager : option CheckpointManager }.
Arguments mkCheckpointing {V}.
Arguments cj_inner {V}.
Arguments cj_manager {V}.

Context {V : Type}.

Definition checkpointing_new : CheckpointingSaveJournal V := mkCheckpointing [] None.
Definition checkpointing_with_manager (s : CheckpointingSaveJournal V) (m : CheckpointManager) : CheckpointingSaveJournal V :=
  mkCheckpointing (cj_inner s) (Some m).
Definition records_after (s : CheckpointingSaveJournal V) (tick : Tick) : list (CommitRecord V) :=
  List.filter (fun r => tick_as_u64 tick <? tick_as_u64 (rec_tick r)) (cj_inner s).

Definition checkpointing_append (s : CheckpointingSaveJournal V) (record : CommitRecord V) (d : Disk)
  : Disk * CheckpointingSaveJournal V * option (JournalResult unit) :=
  let inner := cj_inner s ++ [record] in
  match cj_manager s with
  | None => (d, mkCheckpointing inner None, Some (Ok tt))
  | Some m =>
      let m := record_journal_entry m in
      match try_auto_checkpoint m d with
      | (d, Some (Ok (m, _))) => (d, mkCheckpointing inner (Some m), Some (Ok tt))
      | (d, Some (Err e)) => (d, mkCheckpointing inner (Some m), Some (Err (JSaveJournal (save_error_text e))))
      | (d, None) => (d, mkCheckpointing inner (Some m), None)
      end
  end.
Definition checkpointing_truncate_before (s : CheckpointingSaveJournal V) (tick : Tick) : CheckpointingSaveJournal V :=
  mkCheckpointing (List.filter (fun r => tick_as_u64 tick <=? tick_as_u64 (rec_tick r)) (cj_inner s)) (cj_manager s).

(** [append] cannot panic ([append_total] in [CheckpointFacts.v]): the default is not reached. *)
Definition CheckpointingSaveOps : SaveOps V := {|
  Save := CheckpointingSaveJournal V * Disk;
  sj_append s r := let '(d, j, res) := checkpointing_append s.1 r s.2 in ((j, d), default (Ok tt) res);
  sj_flush s := (s, Ok tt);
  sj_truncate_before s t := ((checkpointing_truncate_before s.1 t, s.2), Ok tt) |}.
End checkpoints.
Arguments mkCheckpointing {V}.
Arguments cj_inner {V}.
Arguments cj_manager {V}.
