(* ===== verification/CheckpointFacts.v ===== *)
(** * CheckpointFacts: the journal file and its snapshots, and a checkpoint that blocks commits

    A checkpoint that succeeds removes the journal file, and its snapshot is complete on disk unless
    retention deleted it again. The save
    journal that checks its threshold on every append lists a directory that need not exist yet:
    from then on no commit succeeds. *)

From Stdlib Require Import Ascii String.
From stdpp Require Import base gmap strings list sorting.
From Stdlib Require Import ZArith Lia Sorted.
From S2P Require Import Prelude RustStr CoreTypes SchemaTables Registry Journal Disk SaveErrors SaveSnapshots SaveFacts SaveRetention Checkpoints.

Section checkpoints.
Context `{HC : HeaderCodec}.
Context (dir_order : gmap string bytes -> list string).
Context (table_order : gmap string bytes -> list (string * bytes)).
Context (dir_order_perm : forall files, dir_order files ≡ₚ (map_to_list files).*1).
Context (table_order_perm : forall m, table_order m ≡ₚ map_to_list m).

(** The two clean-ups of the crate are one. *)
Lemma enforce_is_cleanup m d : enforce_retention dir_order m d
  = cleanup_old_snapshots dir_order
      (mkManager (cm_persistence m) (mkSnapshotConfig (rp_max_snapshots (cm_policy m)) 0) (cm_journal_path m)) d.
Proof.
  unfold enforce_retention, cleanup_old_snapshots, manager_list_snapshots, io_bind, io_ret. cbn [sg_persistence sg_config sc_max_snapshots].
  destruct (list_snapshots _ _ d) as [d1 [[l|e]|]]; [|done..]. rewrite length_fmap.
  destruct (_ <=? _)%nat; [done|]. set (n := (_ - _)%nat). clearbody n.
  revert l d1. induction n as [|n IH]; intros [|x l] d1; [done..|]. cbn. unfold io_bind.
  destruct (delete_snapshot _ _ d1) as [d2 [[[]|e]|]]; [apply IH|done..].
Qed.

(** What the retention of checkpoints deletes. *)
Lemma retention_spec m d1 :
  runs (enforce_retention dir_order m) d1 (fun d' r =>
    exists gs, (forall q, disk_file d' q = disk_file d1 q \/ (exists g, g ∈ gs /\ q = snapshot_path (cm_persistence m) g /\ disk_file d' q = None))
      /\ (r = Ok tt -> exists files seen, dk_dirs d1 !! sp_base_dir (cm_persistence m) = Some files /\ shown dir_order files seen
           /\ gs = take (length seen - rp_max_snapshots (cm_policy m)) seen)).
Proof.
  set (sm := mkManager (cm_persistence m) (mkSnapshotConfig (rp_max_snapshots (cm_policy m)) 0) (cm_journal_path m)).
  pose proof (cleanup_spec dir_order sm d1) as H. unfold runs in *. rewrite enforce_is_cleanup. fold sm.
  destruct (cleanup_old_snapshots dir_order sm d1) as [d' [r|]]; [|done]. destruct H as (gs & Hq & Hr). exists gs. split; [exact Hq|]. intros E. destruct (Hr E) as (files & seen & ? & ? & _ & ? & _).
  by exists files, seen.
Qed.

(** Appending to the save journal never panics. *)
Lemma append_total {V} (j : CheckpointingSaveJournal V) r d :
  exists d' j' res, checkpointing_append dir_order j r d = (d', j', Some res).
Proof.
  unfold checkpointing_append. destruct (cj_manager j) as [m|]; [|eauto].
  unfold try_auto_checkpoint, io_bind, io_ret. destruct (should_auto_checkpoint _); [|eauto].
  rewrite enforce_is_cleanup. match goal with |- context [cleanup_old_snapshots _ ?c d] =>
    pose proof (cleanup_spec dir_order c d) as H end.
  unfold runs in H. destruct (cleanup_old_snapshots _ _ d) as [d1 [[[]|e]|]]; [eauto|eauto|done].
Qed.

Lemma sorted_last g l : StronglySorted (fun a b => tick_as_u64 a < tick_as_u64 b) l -> g ∈ l ->
  (forall g', g' ∈ l -> tick_as_u64 g' <= tick_as_u64 g) -> exists l', l = l' ++ [g].
Proof.
  intros Hs. induction Hs as [|x l Hl IH Hx]; intros Hin Hle; [by apply elem_of_nil in Hin|].
  apply elem_of_cons in Hin as [->|Hin].
  - destruct l as [|y l]; [by exists []|]. apply Forall_cons in Hx as [Hx _].
    specialize (Hle y ltac:(right; left)). lia.
  - destruct IH as [l' ->]; [done|intros; apply Hle; by right|]. by exists (x :: l').
Qed.

(** What a clean-up deletes is older than something it keeps, if it keeps any. *)
Lemma taken_has_newer g l n : StronglySorted (fun a b => tick_as_u64 a < tick_as_u64 b) l -> (1 <= n)%nat ->
  g ∈ take (length l - n) l -> exists g', g' ∈ l /\ tick_as_u64 g < tick_as_u64 g'.
Proof.
  intros Hs Hn Hin. destruct l as [|x l _] using rev_ind; [by apply elem_of_nil in Hin|].
  rewrite length_app in Hin. simpl in Hin. rewrite take_app_le in Hin by lia.
  apply elem_of_take in Hin as (i & Hi & _). apply list_elem_of_lookup_2 in Hi.
  exists x. split; [apply elem_of_app; right; by left|]. apply StronglySorted_app in Hs as (H & _ & _). apply H; [done|by left].
Qed.

Lemma newest_kept g l n : StronglySorted (fun a b => tick_as_u64 a < tick_as_u64 b) l ->
  (forall g', g' ∈ l -> tick_as_u64 g' <= tick_as_u64 g) -> (1 <= n)%nat -> g ∉ take (length l - n) l.
Proof. intros Hs Hle Hn Ht. destruct (taken_has_newer g l n Hs Hn Ht) as (g' & H & ?). specialize (Hle g' H). lia. Qed.

(** C13: A checkpoint that fails leaves the journal file alone. One that succeeds removes it, and its
    snapshot is complete on disk, or the clean-up has deleted it again: that happens only when no
    snapshot is kept at all or one of a newer generation was there. *)
Theorem checkpoint_covers_journal (m : CheckpointManager) (s : PersistedSnapshot) (d : Disk) :
  let gen := sh_generation (ps_header s) in
  let path g := snapshot_path (cm_persistence m) g in
  u64 (tick_as_u64 gen) -> canonical_names (sp_base_dir (cm_persistence m)) d ->
  (forall g, cm_journal_path m <> path g) ->
  runs (write_checkpoint_snapshot dir_order table_order m s) d (fun d' r =>
    match r with
    | Err _ => disk_file d' (cm_journal_path m) = disk_file d (cm_journal_path m)
    | Ok m' =>
        disk_file d' (cm_journal_path m) = None /\ cm_entries m' = 0 /\
        exists hb, header_to_vec (ps_header s) = Ok hb /\
          (disk_file d' (path gen) = Some (encode hb (kept_entries table_order (sp_tier_registry (cm_persistence m)) s))
           \/ disk_file d' (path gen) = None
              /\ (rp_max_snapshots (cm_policy m) = 0%nat
                  \/ exists g, u64 (tick_as_u64 g) /\ is_Some (disk_file d (path g)) /\ tick_as_u64 gen < tick_as_u64 g))
    end).
Proof.
  intros gen path Hgen Hc Hj. unfold write_checkpoint_snapshot.
  eapply runs_bind_by; [by apply (write_spec table_order)| |].
  2:{ intros d1 e ([Ho _] & _). by apply Ho. }
  intros d1 q ([Ho _] & Hw & _). destruct (Hw q eq_refl) as (_ & Hnone & hb & Ehb & Hfile). clear Hw.
  fold gen in Hfile, Hnone, Ho. fold (path gen) in Hfile, Hnone, Ho.
  eapply runs_bind_by; [apply retention_spec| |].
  2:{ intros d2 e (gs & Hgs & _). destruct (Hgs (cm_journal_path m)) as [->|(g & _ & E & _)]; [by apply Ho|by apply Hj in E]. }
  intros d2 [] (gs & Hgs & Hr). destruct (Hr eq_refl) as (files & seen & Hfiles & Hshown & Egs). clear Hr.
  assert (Hjd : disk_file d2 (cm_journal_path m) = disk_file d (cm_journal_path m)).
  { destruct (Hgs (cm_journal_path m)) as [->|(g & _ & E & _)]; [by apply Ho|by apply Hj in E]. }
  assert (Hc1 : canonical_names (sp_base_dir (cm_persistence m)) d1).
  { intros name g' Hname Hg'. destruct (decide (name = snapshot_name gen)) as [->|Hne].
    - rewrite parse_snapshot_name_show in Hg' by done. congruence.
    - apply Hc; [|done]. rewrite <- Ho; [done|]. intros E'. apply Hne. by injection E'. }
  assert (Hsnap : disk_file d2 (path gen) = Some (encode hb (kept_entries table_order (sp_tier_registry (cm_persistence m)) s))
    \/ disk_file d2 (path gen) = None /\ (rp_max_snapshots (cm_policy m) = 0%nat
          \/ exists g, u64 (tick_as_u64 g) /\ is_Some (disk_file d (path g)) /\ tick_as_u64 gen < tick_as_u64 g)).
  { destruct (Hgs (path gen)) as [->|(g & Hg & E & Hgone)]; [by left|]. right. split; [done|].
    pose proof (listing_files dir_order dir_order_perm _ d1 files Hfiles Hc1) as Hlist.
    subst gs. destruct (decide (rp_max_snapshots (cm_policy m) = 0%nat)) as [|Hmax]; [by left|]. right.
    assert (Hgl : g ∈ listing dir_order files).
    { apply elem_of_take in Hg as (i & Hi & _). apply list_elem_of_lookup_2 in Hi. by eapply shown_elem. }
    apply snapshot_path_inj in E; [|done|by apply Hlist]. subst g.
    destruct (taken_has_newer gen seen (rp_max_snapshots (cm_policy m))) as (g' & Hg' & Hlt); [|lia|done|].
    { by apply (shown_sorted dir_order dir_order_perm (sp_base_dir (cm_persistence m)) d1 files). }
    apply (shown_elem dir_order files), Hlist in Hg' as [Hu Hthere]; [|done]. exists g'. split_and!; [done| |done].
    unfold path. rewrite <- Ho; [done|]. intros E%snapshot_path_inj; [|done|done]. subst g'. lia. }
  unfold truncate_journal. apply runs_bind. apply runs_get.
  unfold path_exists. case_bool_decide as Hp.
  - apply runs_bind. apply runs_sys.
    + intros d3 Ed _. assert (Hp3 : path_exists d3 (cm_journal_path m) = true).
      { unfold path_exists. apply bool_decide_eq_true. by rewrite (disk_file_dirs d3 d2). }
      rewrite Hp3. cbn [fst snd map_err]. apply runs_ret, runs_ret. rewrite disk_file_unset. split_and!; [done|done|].
      exists hb. split; [done|]. rewrite disk_file_unset_ne by apply Hj. by rewrite (disk_file_dirs d3 d2).
    + intros _ d3 e Ed. by rewrite (disk_file_dirs d3 d2).
  - apply runs_bind, runs_ret, runs_ret, runs_ret. split_and!; [by apply eq_None_not_Some|done|]. by exists hb.
Qed.
End checkpoints.

(** ** A checkpoint without its directory *)

Section blocked.
Context `{HC : HeaderCodec} (dir_order : gmap string bytes -> list string).
Context {V : Type} `{SO : StoreOps V} `{QO : !QueryOps V} (diff_json : Diff V -> result string string).

#[local] Instance checkpointing_ops : SaveOps V := CheckpointingSaveOps dir_order (V := V).

(** The snapshot directory is missing, and the counter is at the threshold for [n] appends to come. *)
Definition blocked (n : nat) (s : CheckpointingSaveJournal V * Disk) : Prop :=
  exists m, cj_manager s.1 = Some m /\ dk_dirs s.2 !! sp_base_dir (cm_persistence m) = None
    /\ rp_auto_checkpoint_threshold (cm_policy m) <= cm_entries m + 1
    /\ 0 <= cm_entries m /\ cm_entries m + Z.of_nat n < two64.

Lemma listing_fails p d : dk_dirs d !! sp_base_dir p = None ->
  exists d' e, list_snapshots dir_order p d = (d', Some (Err e)) /\ dk_dirs d' = dk_dirs d.
Proof.
  intros H. unfold list_snapshots, io_bind, io_call, read_dir, sys_call, next_fault.
  destruct (dk_faults d) as [|[f|] faults]; cbn [dk_dirs]; rewrite ?H; eauto.
Qed.

Lemma blocked_append n s r : blocked (S n) s ->
  exists s' e, sj_append s r = (s', Err e) /\ blocked n s' /\ cj_inner s'.1 = cj_inner s.1 ++ [r].
Proof.
  destruct s as [s d]. intros (m & Em & Hd & Ht & H0 & Hn). cbn [fst snd] in *. cbn [sj_append checkpointing_ops CheckpointingSaveOps fst snd].
  unfold checkpointing_append. rewrite Em. set (m1 := record_journal_entry m).
  assert (E1 : cm_entries m1 = cm_entries m + 1) by (apply wrap64_small; lia).
  unfold try_auto_checkpoint, should_auto_checkpoint. rewrite E1, (proj2 (Z.leb_le _ _)) by exact Ht.
  destruct (listing_fails (cm_persistence m1) d Hd) as (d' & e & El & Ed).
  unfold io_bind at 1, enforce_retention, io_bind at 1. rewrite El.
  eexists _, _. split; [reflexivity|]. split; [|done]. exists m1. cbn [fst snd cj_manager].
  rewrite Ed, E1. split_and!; [done|exact Hd| |lia|lia]. change (cm_policy m1) with (cm_policy m). lia.
Qed.

Definition journal_blocked (n : nat) (j : Journal) : Prop := exists s, j_save_journal j = Some s /\ blocked n s.

Lemma blocked_less n s : blocked (S n) s -> blocked n s.
Proof. intros (m & ? & ? & ? & ? & ?). exists m. split_and!; try done. lia. Qed.

Lemma commit_blocked n j : journal_blocked (S n) j ->
  let (j', r) := journal_commit diff_json j in
  journal_blocked n j' /\ j_current_tick j' = j_current_tick j /\ j_history j' = j_history j /\ is_ok r = false.
Proof.
  intros (s & Es & Hb). assert (Hkeep : journal_blocked n j) by (exists s; split; [done|by apply blocked_less]).
  unfold journal_commit. case_bool_decide; [done|]. cbn [journal_take_pending_diffs journal_take_pending_commands].
  set (j1 := with_pending (with_pending (with_phase j PhaseCommitting) _ _) _ _).
  assert (H1 : j_save_journal j1 = Some s /\ j_current_tick j1 = j_current_tick j /\ j_history j1 = j_history j) by done.
  clearbody j1. destruct H1 as (Es1 & Et1 & Eh1).
  destruct (st_save_table_versions _ _) as [saved|e].
  2:{ split_and!; [exists s; split; [done|by apply blocked_less]|done|done|done]. }
  unfold journal_apply_diffs_and_hash.
  assert (Hrest : forall j2 ds cs, j_save_journal j2 = j_save_journal j1 -> j_current_tick j2 = j_current_tick j1 ->
    j_history j2 = j_history j1 -> forall e, let (j', r) := (journal_restore j2 saved ds cs, Err e : JournalResult CommitResult) in
    journal_blocked n j' /\ j_current_tick j' = j_current_tick j /\ j_history j' = j_history j /\ is_ok r = false).
  { intros j2 ds cs E2 E3 E4 e. split_and!; [|by rewrite <- Et1, <- E3|by rewrite <- Eh1, <- E4|done].
    exists s. split; [simpl; by rewrite E2|by apply blocked_less]. }
  destruct (st_apply_diffs _ _ _) as [st [[]|e]]; [|by apply Hrest].
  destruct (st_generate_snapshot _ _) as [st2 [[]|e]]; [|by apply Hrest].
  destruct (try_fold _ _ _) as [h|e]; [|by apply Hrest].
  destruct (begin_ingest_opt _) as [qe [rb|e]]; [|by apply Hrest].
  destruct (journal_publish _ _ _) as [qe2 [[]|e]]; [|by apply Hrest].
  unfold append_opt. cbn [j_save_journal with_query with_store]. rewrite Es1.
  match goal with |- context [sj_append s ?r] => destruct (blocked_append n s r Hb) as (s' & e & Ea & Hb' & _) end.
  rewrite Ea.
  split_and!; [exists s'; done|done|done|done].
Qed.

(** A journal whose save journal counts checkpoints over a directory that does not exist, once the
    threshold is reached, never commits again: no sequence of calls advances the tick or adds to the
    history. *)
Theorem missing_directory_blocks_commits (j : Journal) (ops : list JournalOp) :
  journal_blocked (length ops) j ->
  j_current_tick (journal_run diff_json j ops) = j_current_tick j
  /\ j_history (journal_run diff_json j ops) = j_history j.
Proof.
  revert j. induction ops as [|op ops IH]; intros j Hb; [done|]. unfold journal_run in *. cbn [foldl].
  cut (journal_blocked (length ops) (journal_step diff_json j op).1
    /\ j_current_tick (journal_step diff_json j op).1 = j_current_tick j
    /\ j_history (journal_step diff_json j op).1 = j_history j).
  { intros (H1 & H2 & H3). destruct (IH _ H1) as [-> ->]. done. }
  destruct Hb as (s & Es & Hb). assert (Hless : blocked (length ops) s) by (by apply blocked_less).
  assert (Hkeep : forall j', j_save_journal j' = j_save_journal j -> j_current_tick j' = j_current_tick j ->
    j_history j' = j_history j -> journal_blocked (length ops) j' /\ j_current_tick j' = j_current_tick j /\ j_history j' = j_history j).
  { intros j' E1 E2 E3. split_and!; [exists s; by rewrite E1|done|done]. }
  assert (Hsub : forall (A : Type) (f : Journal -> A -> JournalResult Journal) l,
    (forall j x j', f j x = Ok j' -> j_save_journal j' = j_save_journal j /\ j_current_tick j' = j_current_tick j /\ j_history j' = j_history j) ->
    let j' := (try_each f j l).1 in
    j_save_journal j' = j_save_journal j /\ j_current_tick j' = j_current_tick j /\ j_history j' = j_history j).
  { intros A f l Hf. clear -Hf. revert j. induction l as [|x l IH]; intros j; [done|]. cbn [try_each].
    destruct (f j x) as [j1|] eqn:E; [|done]. destruct (IH j1) as (-> & -> & ->). by apply (Hf j x). }
  assert (Hcmd : forall j e j', journal_submit_command j e = Ok j' ->
    j_save_journal j' = j_save_journal j /\ j_current_tick j' = j_current_tick j /\ j_history j' = j_history j).
  { intros j0 e j' E. unfold journal_submit_command in E. repeat case_bool_decide; by simplify_eq. }
  assert (Hdiff : forall j e j', journal_submit_diff j e = Ok j' ->
    j_save_journal j' = j_save_journal j /\ j_current_tick j' = j_current_tick j /\ j_history j' = j_history j).
  { intros j0 e j' E. unfold journal_submit_diff in E. repeat case_bool_decide; by simplify_eq. }
  destruct op as [e|es|x|b| |]; cbn [journal_step].
  - destruct (journal_submit_command j e) as [j'|] eqn:E; cbn [keep_or fst]; [apply Hcmd in E as (?&?&?); by apply Hkeep|by apply Hkeep].
  - destruct (Hsub _ _ es Hcmd) as (?&?&?). by apply Hkeep.
  - destruct (journal_submit_diff j x) as [j'|] eqn:E; cbn [keep_or fst]; [apply Hdiff in E as (?&?&?); by apply Hkeep|by apply Hkeep].
  - destruct (Hsub _ _ (batch_diffs b) Hdiff) as (?&?&?). by apply Hkeep.
  - pose proof (commit_blocked (length ops) j ltac:(by exists s)) as H.
    destruct (journal_commit diff_json j) as [j' r]. cbn [fst]. tauto.
  - unfold journal_clear_pending. case_bool_decide; cbn [keep_or fst]; by apply Hkeep.
Qed.
End blocked.
