(* ===== verification/SaveSamples.v ===== *)
(** * SaveSamples: snapshot files on a concrete disk

    A header is written as its generation and hash; every allocation of less than a gigabyte
    succeeds; maps and directories yield their entries in the order of [map_to_list]. The theorems
    of the snapshot files at work, and what happens where they do not reach. *)

From Stdlib Require Import Ascii String.
From stdpp Require Import base gmap strings list sorting.
From Stdlib Require Import ZArith Lia Sorted.
From S2P Require Import Prelude RustStr CoreTypes SchemaTables Registry Journal Disk SaveErrors SaveSnapshots SaveFacts SaveRetention Checkpoints CheckpointFacts.

Definition plain_header (h : SnapshotHeader) : bytes :=
  to_le_bytes (tick_as_u64 (sh_generation h)) ++ to_le_bytes (sh_state_hash h).
#[export] Instance PlainHeader : HeaderCodec := {|
  header_to_vec h := Ok (plain_header h);
  header_from_slice l :=
    if (length l =? 16)%nat
    then Ok (mkHeader (manifest_new "1.0") (mkTick (le_combine (take 8 l))) (le_combine (drop 8 l)))
    else Err "bad header" |}.
#[export] Instance SmallAllocator : Allocator := {|
  can_allocate n := n <? 2 ^ 30; can_reserve n := n <? 2 ^ 30; utf8_error _ := "invalid utf-8 sequence" |}.

Definition names_in_order (files : gmap string bytes) : list string := (map_to_list files).*1.
Definition tables_in_order (m : gmap string bytes) : list (string * bytes) := map_to_list m.

Definition save_at (generation : Z) : PersistedSnapshot :=
  manager_create_snapshot (manifest_new "1.0") (mkTick generation) 7.
Definition two_table_save : PersistedSnapshot :=
  snapshot_with_table_data (snapshot_with_table_data (save_at 5) "army" (bytes_of "a1b2")) "cache" (bytes_of "c").
Definition army_tiers : TierRegistry :=
  mkTierRegistry {["army" := mkTierMetadata Authority "owner" ""]}.

Definition base_files : SnapshotPersistence := persistence_new "saves".
Definition with_saves (l : list Z) (faults : list (option Fault)) : Disk :=
  mkDisk {["saves" := list_to_map ((fun g => (snapshot_name (mkTick g), bytes_of "old")) <$> l)]} faults.
Definition manager_keeping (n : nat) : SnapshotManager :=
  manager_new "saves" (mkSnapshotConfig n 10) (mkPath "journal" "log").
Definition vwrite := write_snapshot tables_in_order.
Definition vsave := save_snapshot names_in_order tables_in_order.

(** The generations of the snapshot files, in order. *)
Definition generations (d : Disk) : list Z :=
  from_option (fun files => tick_as_u64 <$> listing names_in_order files) [] (dk_dirs d !! "saves").
Definition names_ok (d : Disk) : bool :=
  from_option (fun files => forallb (fun name => match parse_snapshot_name name with
                                                 | Some g => bool_decide (name = snapshot_name g)
                                                 | None => true end) (names_in_order files)) true (dk_dirs d !! "saves").

Lemma names_ok_canonical d : names_ok d = true -> canonical_names "saves" d.
Proof.
  unfold names_ok, canonical_names, disk_file. simpl. destruct (dk_dirs d !! "saves") as [files|]; simpl.
  - intros H name g [v Hv] Hg. rewrite forallb_forall in H. specialize (H name). rewrite Hg in H.
    eapply bool_decide_eq_true_1, H, list_elem_of_In, list_elem_of_fmap. exists (name, v).
    split; [done|]. by apply elem_of_map_to_list.
  - by intros _ name g [].
Qed.

(** Lists in strict order are their elements. *)
Lemma sorted_unique l1 l2 :
  StronglySorted (fun a b => tick_as_u64 a < tick_as_u64 b) l1 -> StronglySorted (fun a b => tick_as_u64 a < tick_as_u64 b) l2 ->
  (forall g, g ∈ l1 <-> g ∈ l2) -> l1 = l2.
Proof.
  intros H1 H2 H. assert (AntiSymm (=) (fun a b => tick_as_u64 a < tick_as_u64 b)) by (intros a b ? ?; lia).
  apply (StronglySorted_unique (fun a b => tick_as_u64 a < tick_as_u64 b)); [done|done|].
  apply NoDup_Permutation; [by apply sorted_nodup|by apply sorted_nodup|done].
Qed.

Lemma old_saves g : u64 (tick_as_u64 g) -> is_Some (disk_file (with_saves [3; 4] []) (snapshot_path base_files g)) ->
  g = mkTick 3 \/ g = mkTick 4.
Proof.
  intros Hg [v Hv]. unfold disk_file in Hv. cbn -[snapshot_name list_to_map] in Hv.
  rewrite lookup_singleton_eq in Hv. change ((list_to_map ((fun g => (snapshot_name (mkTick g), bytes_of "old")) <$> [3; 4]) : gmap string bytes) !! snapshot_name g = Some v) in Hv.
  apply elem_of_list_to_map_2 in Hv. apply parse_snapshot_name_show in Hg.
  cbn [fmap list_fmap] in Hv. rewrite !elem_of_cons, elem_of_nil in Hv.
  destruct Hv as [E|[E|[]]]; apply (f_equal fst) in E; cbn [fst] in E; rewrite E in Hg; vm_compute in Hg; injection Hg as <-; tauto.
Qed.

Lemma snapshot_write_read_witness :
  let p := persistence_with_tier_registry base_files army_tiers in
  exists d1 q, vwrite p two_table_save (with_saves [] []) = (d1, Some (Ok q))
  /\ runs (read_snapshot p (mkTick 5)) d1 (fun d2 r => exists s, r = Ok s /\ map_to_list (ps_table_data s) = [("army", bytes_of "a1b2")]).
Proof.
  intros p. destruct (vwrite p two_table_save (with_saves [] [])) as [d1 [[q|e]|]] eqn:E.
  2,3: apply (f_equal (fun r => from_option is_ok false r.2)) in E; vm_compute in E; discriminate E.
  exists d1, q. split; [reflexivity|].
  assert (Hf : dk_faults d1 = []) by (change d1 with (d1, Some (Ok q : result SaveError Path)).1; rewrite <- E; vm_compute; reflexivity).
  eapply runs_weaken.
  - refine (snapshot_write_read tables_in_order (fun m => Permutation_refl _) p two_table_save (with_saves [] []) d1 d1 q
      _ _ _ _ E eq_refl).
    + intros hb [= <-]. split; [vm_compute; reflexivity|split; vm_compute; reflexivity].
    + intros name data H. apply elem_of_map_to_list in H. vm_compute in H.
      repeat (apply list_elem_of_In in H; destruct H as [[= <- <-]|H]; [repeat split; vm_compute; reflexivity|apply list_elem_of_In in H]).
      apply elem_of_nil in H. destruct H.
    + vm_compute. reflexivity.
    + vm_compute. reflexivity.
  - intros d' r (_ & _ & H). rewrite (H Hf). eexists. split; [reflexivity|]. vm_compute. reflexivity.
Defined.

(** A write fails in the middle: the new file is not there, and the old ones are. *)
Lemma save_snapshot_whole_witness :
  let d := with_saves [3] [None; None; None; Some (mkFault 2 "no space left on device")] in
  runs (vsave (manager_keeping 2) two_table_save) d (fun d' r =>
    is_ok r = false /\ disk_file d' (snapshot_path base_files (mkTick 3)) = Some (bytes_of "old")).
Proof.
  intros d. pose proof (save_snapshot_whole names_in_order tables_in_order (fun m => Permutation_refl _) (manager_keeping 2) two_table_save d
    ltac:(split; discriminate)) as H.
  assert (Ho : from_option is_ok true (vsave (manager_keeping 2) two_table_save d).2 = false) by (vm_compute; reflexivity).
  assert (Hf : disk_file d (snapshot_path base_files (mkTick 3)) = Some (bytes_of "old")) by (vm_compute; reflexivity).
  assert (Hk : disk_file (vsave (manager_keeping 2) two_table_save d).1 (snapshot_path base_files (mkTick 3)) <> None)
    by (vm_compute; discriminate).
  unfold vsave, runs in *. destruct (save_snapshot _ _ _ _ d) as [d' [r|]]; [|destruct H].
  split; [exact Ho|]. destruct H as [[_ H]|(hb & _ & H)].
  - rewrite <- Hf. apply H.
  - destruct (H (mkTick 3)) as [H3|H3]; [split; discriminate| |].
    + destruct Hk. exact H3.
    + rewrite <- Hf. rewrite decide_False in H3 by discriminate. exact H3.
Defined.

Lemma save_keeps_newest_witness :
  exists d' q, vsave (manager_keeping 2) (save_at 5) (with_saves [3; 4] []) = (d', Some (Ok q))
  /\ forall g, u64 (tick_as_u64 g) -> is_Some (disk_file d' (snapshot_path base_files g)) <-> g = mkTick 4 \/ g = mkTick 5.
Proof.
  destruct (vsave (manager_keeping 2) (save_at 5) (with_saves [3; 4] [])) as [d' [[q|e]|]] eqn:E.
  2,3: apply (f_equal (fun r => from_option is_ok false r.2)) in E; vm_compute in E; discriminate E.
  exists d', q. split; [reflexivity|].
  destruct (save_keeps_newest names_in_order tables_in_order (fun f => Permutation_refl _) (fun m => Permutation_refl _)
    (manager_keeping 2) (save_at 5) (with_saves [3; 4] []) d' q ltac:(split; discriminate)
    (names_ok_canonical (with_saves [3; 4] []) eq_refl) E) as (gens & seen & Hs & Hin & _ & _ & _ & Hk).
  assert (Hg : gens = [mkTick 3; mkTick 4; mkTick 5]).
  { apply sorted_unique; [exact Hs|repeat constructor|]. intros g. rewrite Hin. split.
    - intros [Hu [->|H]]; [right; right; left|]. apply old_saves in H; [|exact Hu]. destruct H as [->| ->]; [left|right; left].
    - rewrite !elem_of_cons. intros [->|[->|[->|H]]]; [| | |apply elem_of_nil in H; destruct H];
        (split; [split; discriminate|]).
      + right. eexists. vm_compute. reflexivity.
      + right. eexists. vm_compute. reflexivity.
      + left. reflexivity. }
  intros g Hu. rewrite (Hk (Forall_nil_2 _) g Hu). rewrite Hg. cbn. rewrite !elem_of_cons, elem_of_nil. tauto.
Defined.

(** ** Checkpoints *)

Definition log_path : Path := mkPath "journal" "log".
Definition checkpoints_on (dir : string) (threshold : Z) : CheckpointManager :=
  checkpoints_new dir (mkPolicy 2 threshold) log_path.
Definition with_journal_file (d : Disk) : Disk :=
  with_dirs d (<["journal" := {["log" := bytes_of "entries"]}]> (dk_dirs d)).

Lemma checkpoint_covers_journal_witness :
  runs (write_checkpoint_snapshot names_in_order tables_in_order (checkpoints_on "saves" 10) (save_at 5))
    (with_journal_file (with_saves [3; 4] [])) (fun d' r =>
      is_ok r = true /\ disk_file d' log_path = None /\ is_Some (disk_file d' (snapshot_path base_files (mkTick 5)))).
Proof.
  set (d := with_journal_file (with_saves [3; 4] [])). set (m := checkpoints_on "saves" 10).
  pose proof (checkpoint_covers_journal names_in_order tables_in_order (fun f => Permutation_refl _) (fun m => Permutation_refl _)
    m (save_at 5) d ltac:(split; discriminate) (names_ok_canonical (with_saves [3; 4] []) eq_refl)
    ltac:(intros g; discriminate)) as H.
  assert (Ho : from_option is_ok false (write_checkpoint_snapshot names_in_order tables_in_order m (save_at 5) d).2 = true)
    by (vm_compute; reflexivity).
  unfold runs in *. destruct (write_checkpoint_snapshot _ _ _ _ _) as [d' [[m'|e]|]]; [|discriminate Ho|discriminate Ho].
  destruct H as (Hj & _ & hb & _ & Hs). split; [reflexivity|]. split; [exact Hj|].
  destruct Hs as [Hf|(_ & [Hmax|(g & Hg & H & Hlt)])]; [eexists; exact Hf|discriminate Hmax|].
  apply (old_saves g Hg) in H. destruct H as [->| ->]; discriminate Hlt.
Defined.

(** A checkpoint older than the generations kept removes the journal file and its own snapshot. *)
Example old_checkpoint_keeps_nothing :
  let '(d, r) := write_checkpoint_snapshot names_in_order tables_in_order (checkpoints_on "saves" 10) (save_at 5)
                   (with_journal_file (with_saves [6; 7] [])) in
  from_option is_ok false r = true /\ disk_file d log_path = None /\ generations d = [6; 7].
Proof. vm_compute. auto. Qed.

(** Truncating the journal is public: it removes the file whether or not a snapshot covers it. *)
Example truncation_without_snapshot :
  let '(d, r) := truncate_journal (checkpoints_on "saves" 10) (with_journal_file (with_saves [] [])) in
  from_option is_ok false r = true /\ disk_file d log_path = None /\ generations d = [].
Proof. vm_compute. auto. Qed.

#[local] Instance sample_checkpointing : SaveOps string := CheckpointingSaveOps names_in_order (V := string).

(** A journal with one diff pending, whose save journal checkpoints on every append into a
    directory that nothing has made yet. *)
Definition unmade_journal : Journal :=
  with_pending (journal_with_save_journal
    (with_query (journal_new (mkLogStore {["army" := []]} false)) (Some ∅))
    (checkpointing_with_manager checkpointing_new (checkpoints_on "unmade" 1), with_saves [] [])) [] [sample_diff "army"].

Lemma missing_directory_blocks_commits_witness :
  j_current_tick (journal_run table_json unmade_journal [OpCommit; OpSubmitDiff (sample_diff "army"); OpCommit]) = tick_ZERO.
Proof.
  refine (proj1 (missing_directory_blocks_commits names_in_order table_json unmade_journal
    [OpCommit; OpSubmitDiff (sample_diff "army"); OpCommit] _)).
  eexists. split; [reflexivity|]. exists (checkpoints_on "unmade" 1).
  split; [reflexivity|]. split; [vm_compute; reflexivity|]. split; [discriminate|]. split; [discriminate|reflexivity].
Defined.

(** Without the checkpoints the same calls commit twice. *)
Example commits_without_checkpoints :
  j_current_tick (journal_run table_json
    (with_pending (journal_with_save_journal (with_query (journal_new (mkLogStore {["army" := []]} false)) (Some ∅))
       (checkpointing_new, with_saves [] [])) [] [sample_diff "army"])
    [OpCommit; OpSubmitDiff (sample_diff "army"); OpCommit]) = mkTick 2.
Proof. vm_compute. reflexivity. Qed.

(** ** Outside the theorems *)

(** The persistence writes the file at its final name: a write that fails leaves it there. It is
    then the latest snapshot, cannot be read, and makes the retry fail. *)
Example failed_write_in_the_way :
  let '(d1, r1) := vwrite base_files (save_at 5) (with_saves [3] [None; None; None; Some (mkFault 2 "disk full")]) in
  let '(d2, r2) := latest_snapshot_file names_in_order base_files d1 in
  let '(d3, r3) := read_snapshot base_files (mkTick 5) d2 in
  let '(d4, r4) := vwrite base_files (save_at 5) d3 in
  r1 = Some (Err (SvIo "write header: disk full"))
  /\ r2 = Some (Ok (Some (mkTick 5, snapshot_path base_files (mkTick 5))))
  /\ r3 = Some (Err (SvIo "read header: failed to fill whole buffer"))
  /\ r4 = Some (Err (SvSnapshotAlreadyExists "generation 5")).
Proof. vm_compute. auto. Qed.

(** A save older than the generations kept is reported as written, and is gone. *)
Example old_save_vanishes :
  let '(d, r) := vsave (manager_keeping 2) (save_at 5) (with_saves [6; 7] []) in
  r = Some (Ok (snapshot_path base_files (mkTick 5)))
  /\ path_exists d (snapshot_path base_files (mkTick 5)) = false /\ generations d = [6; 7].
Proof. vm_compute. auto. Qed.

(** An entry the directory cannot give is skipped without an error: the save returns its path, and
    three generations are left where two are configured. The calls are those of [save_snapshot] up to
    the listing, whose first entry fails. *)
Example unreadable_entry_is_kept :
  let faults := repeat None 8 ++ [Some (mkFault 0 "Input/output error (os error 5)")] in
  let '(d, r) := vsave (manager_keeping 2) (save_at 5) (with_saves [3; 4] faults) in
  r = Some (Ok (snapshot_path base_files (mkTick 5))) /\ generations d = [3; 4; 5].
Proof. vm_compute. auto. Qed.

(** A length in a damaged file is trusted: reading it is a panic, not an error. *)
Example damaged_length_panics :
  (read_snapshot base_files (mkTick 5)
     (mkDisk {["saves" := {[snapshot_name (mkTick 5) := to_le_bytes (2 ^ 62)]}]} [])).2 = None.
Proof. vm_compute. reflexivity. Qed.
