(* ===== verification/StoreCheckpoints.v ===== *)
(** * StoreCheckpoints: checkpoints of the Arrow store on disk, and IPC bytes

    Models [write_checkpoint] and [load_checkpoint] of [store.rs] and [ipc_serialization.rs] of
    [scharnhorst_arrow_store], over the disk of [Disk.v]. The IPC writers and readers of the Arrow
    crate are third-party code ([IpcOps]): a file writer answers each call with the calls it makes
    on the buffered file below it, so what a fault leaves on disk is what the buffer let through.
    The orders in which hash maps and a directory yield their entries are arguments. *)

From Stdlib Require Import Ascii String.
From stdpp Require Import base gmap strings list.
From Stdlib Require Import ZArith Lia.
From S2P Require Import Prelude RustStr CoreTypes SchemaTables RuleCore Arrow ArrowVec ArrowBatch StoreIndex ArrowStore Disk.

(** ** Buffered files: [std::io::BufWriter<File>] *)

Record BufWriter := mkBufWriter { bw_path : Path; bw_buf : bytes }.
Definition buf_writer_new (path : Path) : BufWriter := mkBufWriter path [].
Definition buf_capacity : Z := 8192.
Definition buf_add (w : BufWriter) (data : bytes) : BufWriter := mkBufWriter (bw_path w) (bw_buf w ++ data).

(** What a write that failed got through is no longer in the buffer. *)
Definition buf_flush (w : BufWriter) (d : Disk) : Disk * BufWriter * result string unit :=
  match bw_buf w with
  | [] => (d, w, Ok tt)
  | _ :: _ =>
      let left := match (next_fault d).2 with Some f => drop (ft_written f) (bw_buf w) | None => [] end in
      let '(d, r) := file_write_all (bw_path w) (bw_buf w) d in (d, mkBufWriter (bw_path w) left, r)
  end.

Definition buf_write_all (w : BufWriter) (data : bytes) (d : Disk) : Disk * BufWriter * result string unit :=
  let spare := buf_capacity - Z.of_nat (length (bw_buf w)) in
  let size := Z.of_nat (length data) in
  if size <? spare then (d, buf_add w data, Ok tt)
  else
    let '(d, w, r) := if spare <? size then buf_flush w d else (d, w, Ok tt) in
    match r with
    | Err e => (d, w, Err e)
    | Ok _ =>
        if buf_capacity <=? size then let '(d, r) := file_write_all (bw_path w) data d in (d, w, r)
        else (d, buf_add w data, Ok tt)
    end.

(** The calls a client makes on its writer, up to the first that fails. *)
Inductive WriteCall := WriteAll (data : bytes) | Flush.
Definition write_call (w : BufWriter) (call : WriteCall) (d : Disk) : Disk * BufWriter * result string unit :=
  match call with WriteAll data => buf_write_all w data d | Flush => buf_flush w d end.
Fixpoint write_calls (w : BufWriter) (calls : list WriteCall) (d : Disk) : Disk * BufWriter * result string unit :=
  match calls with
  | [] => (d, w, Ok tt)
  | call :: calls =>
      let '(d, w, r) := write_call w call d in
      match r with Ok _ => write_calls w calls d | Err e => (d, w, Err e) end
  end.

(** The writer is dropped: what is left is flushed, and its error lost. *)
Definition buf_drop (w : BufWriter) (d : Disk) : Disk := (buf_flush w d).1.1.

(** ** The IPC formats *)

Class IpcOps `{AO : ArrowOps} := {
  FileWriter : Type;
  file_writer_new : list Field -> list WriteCall * result string FileWriter;
  file_writer_write : FileWriter -> RecordBatch -> list WriteCall * result string FileWriter;
  file_writer_finish : FileWriter -> list WriteCall * result string unit;
  (** an [io::Error] as an [ArrowError] *)
  arrow_io_error : string -> string;
  (** [FileReader::try_new] and the batches it then yields *)
  file_reader : bytes -> result string (list (result string RecordBatch));
  StreamWriter : Type;
  stream_writer_new : list Field -> result string (StreamWriter * bytes);
  stream_writer_write : StreamWriter -> RecordBatch -> result string (StreamWriter * bytes);
  stream_writer_finish : StreamWriter -> result string bytes;
  stream_reader : bytes -> result string (list (result string RecordBatch)) }.

Definition call_bytes (c : WriteCall) : bytes := match c with WriteAll data => data | Flush => [] end.
Definition calls_bytes (calls : list WriteCall) : bytes := calls ≫= call_bytes.

(** ** Checkpoints *)

(** The text before and after the last [c]. *)
Fixpoint rsplit_at (c : ascii) (l : bytes) : option (bytes * bytes) :=
  match l with
  | [] => None
  | x :: l =>
      match rsplit_at c l with
      | Some (before, after) => Some (x :: before, after)
      | None => if bool_decide (x = c) then Some ([], l) else None
      end
  end.

(** The directory and the file name of a path. *)
Definition path_of (s : string) : Path :=
  match rsplit_at "/" (bytes_of s) with
  | Some (dir, name) => mkPath (string_of_list_ascii dir) (string_of_list_ascii name)
  | None => mkPath "" s
  end.
(** [path.extension()] and [path.file_stem()] of a file name other than [..] *)
Definition path_extension (name : string) : option bytes :=
  match rsplit_at "." (bytes_of name) with
  | Some ([], _) | None => None
  | Some (_, after) => Some after
  end.
Definition path_file_stem (name : string) : bytes :=
  match rsplit_at "." (bytes_of name) with
  | Some ([], _) | None => bytes_of name
  | Some (before, _) => before
  end.

Definition checkpoint_dir (tick : Tick) : string := "checkpoint_" +:+ show_u64 (tick_as_u64 tick).
Definition checkpoint_file (tick : Tick) (table : string) : string :=
  checkpoint_dir tick +:+ "/" +:+ table +:+ ".arrow".

Inductive WriteCheckpointToken := TokenInit | TokenCommit.

Section checkpoints.
Context {V : Type} `{AO : ArrowOps} `{IO' : !IpcOps}.

(** *** Writing *)

Definition WriterIO (A : Type) : Type := BufWriter -> Disk -> Disk * BufWriter * StoreResult A.

(** [writer_call(..).map_err(|e| Arrow(format!("...: {}", e)))?] *)
Definition ipc_call {A} (what : string) (call : list WriteCall * result string A) : WriterIO A := fun w d =>
  let '(d, w, r) := write_calls w call.1 d in
  (d, w, match r with
         | Err e => Err (AArrow (what +:+ ": " +:+ arrow_io_error e))
         | Ok _ => map_err (fun e => AArrow (what +:+ ": " +:+ e)) call.2
         end).

Definition writer_bind {A B} (m : WriterIO A) (k : A -> WriterIO B) : WriterIO B := fun w d =>
  let '(d, w, r) := m w d in
  match r with Ok a => k a w d | Err e => (d, w, Err e) end.

Fixpoint write_file_batches (x : FileWriter) (batches : list RecordBatch) : WriterIO FileWriter :=
  match batches with
  | [] => fun w d => (d, w, Ok x)
  | batch :: batches =>
      writer_bind (ipc_call "ipc write" (file_writer_write x batch)) (fun x => write_file_batches x batches)
  end.

Definition write_file (schema : list Field) (batches : list RecordBatch) : WriterIO unit :=
  writer_bind (ipc_call "ipc writer" (file_writer_new schema)) (fun x =>
  writer_bind (write_file_batches x batches) (fun x =>
  ipc_call "ipc finish" (file_writer_finish x))).

(** A table without batches gets no file. *)
Definition write_checkpoint_table (tick : Tick) (table : string) (batches : list RecordBatch) : IO ArrowStoreError unit :=
  match batches with
  | [] => io_ret tt
  | batch :: _ =>
      let path := checkpoint_file tick table in
      run! io_call (file_create (path_of path)) (fun e => AIo ("create file " +:+ path +:+ ": " +:+ e));
      fun d =>
        let '(d, w, r) := write_file (rb_schema batch) batches (buf_writer_new (path_of path)) d in
        (buf_drop w d, Some r)
  end.

Context (name_order : gmap string VersionedTable -> list string).

(** The snapshot of the tick, or the latest there is. *)
Definition checkpoint_snapshot (s : ArrowStore V) (tick : Tick) : option WorldSnapshot :=
  match as_snapshots s !! tick with
  | Some snapshot => Some snapshot
  | None => latest_snapshot s
  end.

Definition do_write_checkpoint (s : ArrowStore V) (tick : Tick) : IO ArrowStoreError unit :=
  match checkpoint_snapshot s tick with
  | None => io_ret tt
  | Some snapshot =>
      run! io_call (create_dir_all (checkpoint_dir tick)) (fun e => AIo ("create checkpoint dir: " +:+ e));
      io_each (fun table =>
        write_checkpoint_table tick table
          (match snapshot_table_batches snapshot table with Ok batches => batches | Err _ => [] end))
        (name_order (ws_tables snapshot))
  end.

Definition token_guard (s : ArrowStore V) (token : WriteCheckpointToken) : StoreResult unit :=
  let lifecycle := guard_lifecycle (as_lifecycle s) in
  match token with
  | TokenInit =>
      if lifecycle_is_simulation lifecycle
      then Err (ALifecycle "write_checkpoint requires Initialization, but lifecycle is Simulation") else Ok tt
  | TokenCommit =>
      if lifecycle_is_initialization lifecycle
      then Err (ALifecycle "write_checkpoint requires Simulation, but lifecycle is Initialization") else Ok tt
  end.

Definition write_checkpoint (s : ArrowStore V) (tick : Tick) (token : WriteCheckpointToken) : IO ArrowStoreError unit :=
  run! io_res (token_guard s token); do_write_checkpoint s tick.

(** *** Loading *)

Context (dir_order : gmap string bytes -> list string).
Context (load_order : gmap string (list RecordBatch) -> list (string * list RecordBatch)).

(** A call that may fail on disk but whose answer is known. *)
Definition sys_answer {A} (r : result string A) : Disk -> Disk * result string A := sys_call (fun d => (d, r)).

Fixpoint read_batches (table : string) (results : list (result string RecordBatch)) (batches : list RecordBatch)
  : IO ArrowStoreError (list RecordBatch) :=
  match results with
  | [] => io_ret batches
  | r :: results =>
      do! batch <- io_call (sys_answer r) (fun e => AArrow ("read batch from table " +:+ table +:+ ": " +:+ e));
      read_batches table results (batches ++ [batch])
  end.

Definition read_checkpoint_file (dir name table : string) : IO ArrowStoreError (list RecordBatch) :=
  let path := dir +:+ "/" +:+ name in
  do! content <- io_call (file_open (mkPath dir name)) (fun e => AIo ("open " +:+ path +:+ ": " +:+ e));
  do! results <- io_call (sys_answer (file_reader content))
                   (fun e => AArrow ("ipc reader for table " +:+ table +:+ ": " +:+ e));
  read_batches table results [].

Definition is_checkpoint_name (name : string) : bool := bool_decide (path_extension name = Some (bytes_of "arrow")).

Fixpoint read_checkpoint_files (dir : string) (entries : list string) (table_batches : gmap string (list RecordBatch))
  : IO ArrowStoreError (gmap string (list RecordBatch)) :=
  match entries with
  | [] => io_ret table_batches
  | name :: entries =>
      run! io_call (sys_answer (Ok name)) (fun e => AIo ("read dir entry in " +:+ dir +:+ ": " +:+ e));
      if is_checkpoint_name name then
        let stem := path_file_stem name in
        do! table <- io_res (if utf8_valid stem then Ok (string_of_list_ascii stem)
                             else Err (AIo ("invalid checkpoint file name: " +:+ dir +:+ "/" +:+ name)));
        do! batches <- read_checkpoint_file dir name table;
        read_checkpoint_files dir entries (<[table := batches]> table_batches)
      else read_checkpoint_files dir entries table_batches
  end.

(** The specification of a table, made up from the schema of its first batch. *)
Definition spec_of_schema (name : string) (schema : list Field) : TableSpec :=
  foldl (fun spec f =>
    let col := column_with_nullable (column_new (fld_name f) SemRaw (data_type_debug (fld_data_type f))) (fld_nullable f) in
    match table_with_column spec col with Ok spec => spec | Err _ => spec end) (table_new name) schema.

Definition load_checkpoint_table (tick : Tick) (s : ArrowStore V) (entry : string * list RecordBatch) : ArrowStore V :=
  let '(name, batches) := entry in
  match as_tables s !! name with
  | Some table => with_table s name (vt_insert_version table tick batches)
  | None =>
      let id := mkTableId (as_next_table_id s) in
      let table := vt_new name AppendOnly in
      let table := match batches with
                   | batch :: _ => vt_set_spec table (spec_of_schema name (rb_schema batch))
                   | [] => table
                   end in
      mkStore (<[name := vt_insert_version table tick batches]> (as_tables s)) (<[id := name]> (as_table_id_map s))
        (as_snapshots s) (wrap64 (as_next_table_id s + 1)) (as_generation s) (as_type_registry s) (as_lifecycle s)
  end.

Definition load_checkpoint (s : ArrowStore V) (tick : Tick) : IO ArrowStoreError (ArrowStore V * WorldSnapshot) :=
  run! io_res (init_guard s);
  let dir := checkpoint_dir tick in
  do! present <- io_get (fun d => dir_exists d dir);
  if negb present then io_err (AIo ("checkpoint directory not found: " +:+ dir))
  else
    do! entries <- io_call (read_dir dir_order dir) (fun e => AIo ("read checkpoint dir " +:+ dir +:+ ": " +:+ e));
    do! table_batches <- read_checkpoint_files dir entries ∅;
    if bool_decide (table_batches = ∅)
    then io_err (AIo ("no .arrow files found in checkpoint directory: " +:+ dir))
    else io_ret (do_generate_snapshot (foldl (load_checkpoint_table tick) s (load_order table_batches)) tick).

(** ** Bytes of batches *)

Fixpoint stream_batches (x : StreamWriter) (batches : list RecordBatch) (buf : bytes) : StoreResult (StreamWriter * bytes) :=
  match batches with
  | [] => Ok (x, buf)
  | batch :: batches =>
      let? (x, data) := map_err (fun e => AIo ("write batch: " +:+ e)) (stream_writer_write x batch) in
      stream_batches x batches (buf ++ data)
  end.

Definition serialize_batches (batches : list RecordBatch) : StoreResult bytes :=
  match batches with
  | [] => Ok []
  | batch :: _ =>
      let? (x, data) := map_err (fun e => AIo ("stream writer: " +:+ e)) (stream_writer_new (rb_schema batch)) in
      let? (x, buf) := stream_batches x batches data in
      let? data := map_err (fun e => AIo ("finish: " +:+ e)) (stream_writer_finish x) in
      Ok (buf ++ data)
  end.

Definition deserialize_batches (data : bytes) : StoreResult (list RecordBatch) :=
  match data with
  | [] => Ok []
  | _ :: _ =>
      let? results := map_err (fun e => AIo ("stream reader: " +:+ e)) (stream_reader data) in
      try_map (map_err (fun e => AIo ("read batch: " +:+ e))) results
  end.

Record IpcBuffer := mkIpcBuffer { ib_chunks : list bytes }.
Definition ipc_buffer_new : IpcBuffer := mkIpcBuffer [].
Definition ipc_push (b : IpcBuffer) (chunk : bytes) : IpcBuffer := mkIpcBuffer (ib_chunks b ++ [chunk]).
Definition push_batches (b : IpcBuffer) (batches : list RecordBatch) : StoreResult IpcBuffer :=
  let? chunk := serialize_batches batches in Ok (ipc_push b chunk).
Definition total_len (b : IpcBuffer) : nat := sum_list (length <$> ib_chunks b).
Definition chunk_count (b : IpcBuffer) : nat := length (ib_chunks b).
Definition ipc_iter (b : IpcBuffer) : list bytes := ib_chunks b.
Definition ipc_clear (b : IpcBuffer) : IpcBuffer := mkIpcBuffer [].
Definition into_bytes (b : IpcBuffer) : bytes := foldl app [] (ib_chunks b).
End checkpoints.
