(* ===== verification/StoreCheckpointFacts.v ===== *)
(** * StoreCheckpointFacts: a checkpoint is loaded back as the snapshot it was written from

    Whatever faults the disk has: writing a checkpoint touches only its own directory; when it
    reports success, loading it gives each table the batches of the snapshot, or fails by a fault.
    The rows of a loaded table cannot be addressed, and it refuses every diff. *)

From Stdlib Require Import Ascii String.
From stdpp Require Import base gmap strings list fin_maps.
From Stdlib Require Import ZArith Lia.
From S2P Require Import Prelude RustStr CoreTypes SchemaTables RuleCore Arrow ArrowVec ArrowBatch StoreIndex ArrowStore Disk SaveFacts StoreCheckpoints.

(** ** Buffered files *)

(** The file and the buffer over it hold [content] together. *)
Definition buffered (path : Path) (content : bytes) (d : Disk) (w : BufWriter) : Prop :=
  bw_path w = path /\ exists c, disk_file d path = Some c /\ c ++ bw_buf w = content.

(** A step of a writer: it touches its own file, and leaves [content] when it succeeds. *)
Definition writes {A} (path : Path) (content : bytes) (d : Disk) (o : Disk * BufWriter * result A unit) : Prop :=
  only path d o.1.1 /\ bw_path o.1.2 = path /\ is_Some (disk_file o.1.1 path) /\
  (o.2 = Ok tt -> buffered path content o.1.1 o.1.2).

Lemma write_through path data content d w : bw_path w = path -> bw_buf w = [] -> disk_file d path = Some content ->
  let o := file_write_all path data d in
  only path d o.1 /\ is_Some (disk_file o.1 path) /\
  match (next_fault d).2 with Some f => o.2 = Err (ft_error f) | None => o.2 = Ok tt /\ disk_file o.1 path = Some (content ++ data) end.
Proof.
  intros Hp Hb Hd. unfold file_write_all, next_fault. destruct (dk_faults d) as [|[f|] faults]; cbn [fst snd].
  - destruct (append_file path d data content Hd) as [H1 H2]. by rewrite H1.
  - destruct (append_file path (mkDisk (dk_dirs d) faults) (take (ft_written f) data) content Hd) as [H1 H2].
    split_and!; [exact H2|by rewrite H1|done].
  - destruct (append_file path (mkDisk (dk_dirs d) faults) data content Hd) as [H1 H2]. split_and!; [exact H2|by rewrite H1|done|done].
Qed.

Lemma flush_writes path content d w : buffered path content d w ->
  writes path content d (buf_flush w d) /\ ((buf_flush w d).2 = Ok tt -> bw_buf (buf_flush w d).1.2 = []).
Proof.
  intros Hb. destruct (Hb) as (Hp & c & Hd & Hc). unfold buf_flush. destruct (bw_buf w) as [|x l] eqn:E.
  - split; [|done]. split_and!; [by apply same_dirs|done|by eexists|done].
  - rewrite Hp. pose proof (write_through path (x :: l) c d (mkBufWriter path []) eq_refl eq_refl Hd) as H.
    cbn [fst snd] in H. destruct (file_write_all path (x :: l) d) as [d' r]. cbn [fst snd] in *.
    destruct H as (Ho & Hs & Hr). destruct (next_fault d).2 as [f|]; [subst r; by split|].
    destruct Hr as [-> Hf]. split; [|done]. split_and!; [done|done|done|]. intros _. split; [done|].
    exists (c ++ x :: l). split; [done|]. cbn. by rewrite app_nil_r.
Qed.

Lemma buf_write_writes path content data d w : buffered path content d w ->
  writes path (content ++ data) d (buf_write_all w data d).
Proof.
  intros Hb. unfold buf_write_all. destruct (_ <? _) eqn:Efit.
  { destruct Hb as (Hp & c & Hd & Hc). split_and!; [by apply same_dirs|done|by eexists|].
    intros _. split; [done|]. exists c. split; [done|]. cbn. by rewrite app_assoc, Hc. }
  set (spare := buf_capacity - Z.of_nat (length (bw_buf w))).
  set (step := if spare <? Z.of_nat (length data) then buf_flush w d else (d, w, Ok tt)).
  assert (Hs : writes path content d step).
  { unfold step. destruct (spare <? _); [by apply flush_writes|]. destruct (Hb) as (Hp & c & Hd & Hc).
    split_and!; [by apply same_dirs|done|by eexists|done]. }
  assert (Hcase : step.2 = Ok tt -> buf_capacity <= Z.of_nat (length data) -> bw_buf step.1.2 = []).
  { unfold step. intros Hok Hcap. destruct (spare <? Z.of_nat (length data)) eqn:E; [by apply (flush_writes path content d w Hb)|].
    apply Z.ltb_ge in E. cbn. destruct (bw_buf w) eqn:Ew; [done|]. unfold spare in E. cbn [length] in E. lia. }
  destruct Hs as (Ho & Hp & Hsome & Hbuf). destruct step as [[d1 w1] [[]|e]]; cbn [fst snd] in *; [|by split_and!].
  specialize (Hbuf eq_refl). specialize (Hcase eq_refl). destruct (_ <=? _) eqn:Ecap.
  - apply Z.leb_le in Ecap. specialize (Hcase Ecap). destruct Hbuf as (_ & c & Hd & Hc). rewrite Hcase, app_nil_r in Hc. subst c.
    rewrite Hp. pose proof (write_through path data content d1 w1 Hp Hcase Hd) as H. cbn [fst snd] in H.
    destruct (file_write_all path data d1) as [d2 r]. cbn [fst snd] in *. destruct H as (Ho2 & Hs2 & Hr).
    split_and!; [by eapply only_trans|done|done|]. cbn. intros ->. destruct (next_fault d1).2; [done|]. destruct Hr as [_ Hf].
    split; [done|]. exists (content ++ data). rewrite Hcase, app_nil_r. done.
  - destruct Hbuf as (_ & c & Hd & Hc). split_and!; [done|done|done|]. intros _. split; [done|].
    exists c. split; [done|]. cbn. by rewrite app_assoc, Hc.
Qed.

Lemma write_calls_writes path calls : forall content d w, buffered path content d w ->
  writes path (content ++ calls_bytes calls) d (write_calls w calls d) /\
  ((write_calls w calls d).2 = Ok tt -> last calls = Some Flush -> bw_buf (write_calls w calls d).1.2 = []).
Proof.
  induction calls as [|call calls IH]; intros content d w Hb.
  { split; [|done]. destruct (Hb) as (Hp & c & Hd & Hc). cbn. rewrite app_nil_r. split_and!; [by apply same_dirs|done|by eexists|done]. }
  cbn [write_calls]. assert (Hw : writes path (content ++ call_bytes call) d (write_call w call d)
      /\ ((write_call w call d).2 = Ok tt -> call = Flush -> bw_buf (write_call w call d).1.2 = [])).
  { destruct call as [data|]; cbn [write_call call_bytes]; [split; [by apply buf_write_writes|done]|].
    rewrite app_nil_r. destruct (flush_writes path content d w Hb). auto. }
  destruct Hw as [(Ho & Hp & Hs & Hbuf) Hf]. destruct (write_call w call d) as [[d1 w1] [[]|e]]; cbn [fst snd] in *; [|by split].
  specialize (Hbuf eq_refl). specialize (Hf eq_refl). destruct (IH _ _ _ Hbuf) as [(Ho2 & Hp2 & Hs2 & Hb2) Hf2].
  split.
  - split_and!; [by eapply only_trans|done|done|]. intros E. unfold calls_bytes. cbn [mbind list_bind]. rewrite app_assoc. auto.
  - intros E Hl. destruct calls as [|c' calls]; [|by apply Hf2]. cbn in Hl. injection Hl as ->. cbn. by apply Hf.
Qed.

(** ** Files of batches *)

Section ipc.
Context `{AO : ArrowOps} `{IO' : !IpcOps}.

(** The calls of a whole file, when no call of the writer is refused. *)
Fixpoint batches_image (x : FileWriter) (batches : list RecordBatch) : option (list WriteCall * FileWriter) :=
  match batches with
  | [] => Some ([], x)
  | batch :: batches =>
      match file_writer_write x batch with
      | (calls, Ok x) => '(rest, x) ← batches_image x batches; Some (calls ++ rest, x)
      | (_, Err _) => None
      end
  end.
Definition file_image (schema : list Field) (batches : list RecordBatch) : option (list WriteCall) :=
  match file_writer_new schema with
  | (head, Ok x) =>
      '(body, x) ← batches_image x batches;
      match file_writer_finish x with (tail, Ok _) => Some (head ++ body ++ tail) | (_, Err _) => None end
  | (_, Err _) => None
  end.
End ipc.

Class IpcLaws `{IO' : IpcOps} := {
  file_flushed x calls : file_writer_finish x = (calls, Ok tt) -> last calls = Some Flush;
  file_read_back schema batches calls :
    file_image schema batches = Some calls -> Forall (fun b => rb_schema b = schema) batches ->
    file_reader (calls_bytes calls) = Ok (Ok <$> batches) }.

Section files.
Context `{AO : ArrowOps} `{IO' : !IpcOps} `{IL : !IpcLaws}.

Lemma calls_bytes_app l k : calls_bytes (l ++ k) = calls_bytes l ++ calls_bytes k.
Proof. apply bind_app. Qed.

(** A call of the file writer: the outcome it has when the writes succeed. *)
Lemma ipc_call_spec {A} path content what (call : list WriteCall * result string A) d w : buffered path content d w ->
  let o := ipc_call what call w d in
  only path d o.1.1 /\ bw_path o.1.2 = path /\ is_Some (disk_file o.1.1 path) /\
  forall a, o.2 = Ok a -> call.2 = Ok a /\ buffered path (content ++ calls_bytes call.1) o.1.1 o.1.2
    /\ (last call.1 = Some Flush -> bw_buf o.1.2 = []).
Proof.
  intros Hb. unfold ipc_call. destruct (write_calls_writes path call.1 content d w Hb) as [(Ho & Hp & Hs & Hw) Hf].
  destruct (write_calls w call.1 d) as [[d1 w1] r1]. cbn [fst snd] in *. split_and!; [done..|].
  intros a E. destruct r1 as [[]|e]; [|done]. destruct call.2; [|done]. simplify_eq/=. auto.
Qed.

Lemma write_batches_spec path batches : forall x content d w, buffered path content d w ->
  let o := write_file_batches x batches w d in
  only path d o.1.1 /\ bw_path o.1.2 = path /\ is_Some (disk_file o.1.1 path) /\
  forall x', o.2 = Ok x' -> exists calls, batches_image x batches = Some (calls, x')
    /\ buffered path (content ++ calls_bytes calls) o.1.1 o.1.2.
Proof.
  induction batches as [|batch batches IH]; intros x content d w Hb.
  { destruct (Hb) as (Hp & c & Hd & Hc). cbn. split_and!; [by apply same_dirs|done|by eexists|].
    intros x' [= <-]. exists []. cbn. by rewrite app_nil_r. }
  cbn [write_file_batches batches_image]. unfold writer_bind.
  destruct (ipc_call_spec path content "ipc write" (file_writer_write x batch) d w Hb) as (Ho & Hp & Hs & Hr).
  destruct (ipc_call _ _ w d) as [[d1 w1] [x1|e]]; cbn [fst snd] in *; [|by split_and!].
  destruct (Hr x1 eq_refl) as (Ecall & Hb1 & _). destruct (file_writer_write x batch) as [calls r]. cbn in Ecall, Hb1. subst r.
  destruct (IH x1 _ _ _ Hb1) as (Ho2 & Hp2 & Hs2 & Hr2). split_and!; [by eapply only_trans|done|done|].
  intros x' E. destruct (Hr2 x' E) as (rest & Er & Hb2). exists (calls ++ rest). rewrite Er. split; [done|].
  by rewrite calls_bytes_app, app_assoc.
Qed.

Lemma write_file_spec path schema batches d w : bw_path w = path -> bw_buf w = [] -> disk_file d path = Some [] ->
  let o := write_file schema batches w d in
  only path d o.1.1 /\ bw_path o.1.2 = path /\ is_Some (disk_file o.1.1 path) /\
  (o.2 = Ok tt -> exists calls, file_image schema batches = Some calls
    /\ disk_file o.1.1 path = Some (calls_bytes calls) /\ bw_buf o.1.2 = []).
Proof.
  intros Hp Hw Hd. assert (Hb : buffered path [] d w) by (split; [done|]; exists []; by rewrite Hw).
  unfold write_file, writer_bind, file_image.
  destruct (ipc_call_spec path [] "ipc writer" (file_writer_new schema) d w Hb) as (Ho & Hp1 & Hs & Hr).
  destruct (ipc_call _ _ w d) as [[d1 w1] [x1|e]]; cbn [fst snd] in *; [|by split_and!].
  destruct (Hr x1 eq_refl) as (Ecall & Hb1 & _). destruct (file_writer_new schema) as [head r]. cbn in Ecall, Hb1. subst r.
  destruct (write_batches_spec path batches x1 _ _ _ Hb1) as (Ho2 & Hp2 & Hs2 & Hr2).
  destruct (write_file_batches x1 batches w1 d1) as [[d2 w2] [x2|e]]; cbn [fst snd] in *;
    [|split_and!; [by eapply only_trans|done|done|done]].
  destruct (Hr2 x2 eq_refl) as (body & -> & Hb2). cbn [mbind option_bind].
  destruct (ipc_call_spec path _ "ipc finish" (file_writer_finish x2) d2 w2 Hb2) as (Ho3 & Hp3 & Hs3 & Hr3).
  destruct (ipc_call _ _ w2 d2) as [[d3 w3] r3]. cbn [fst snd] in *.
  split_and!; [by eapply only_trans, only_trans|done|done|]. intros ->. destruct (Hr3 tt eq_refl) as (E3 & Hb3 & Hf3).
  destruct (file_writer_finish x2) as [tail r] eqn:Ef. cbn in E3, Hb3, Hf3. subst r. exists (head ++ body ++ tail).
  specialize (Hf3 (file_flushed _ _ Ef)). destruct Hb3 as (_ & c & Hc & E). rewrite Hf3, app_nil_r in E. subst c.
  split_and!; [done| |done]. by rewrite Hc, !calls_bytes_app, app_assoc.
Qed.

(** The file of a table: complete when it is written, and no other file is touched. *)
Lemma write_table_spec tick table batches d :
  let path := path_of (checkpoint_file tick table) in
  runs (write_checkpoint_table tick table batches) d (fun d' r => only path d d' /\
    (r = Ok tt -> match batches with
                  | [] => disk_file d' path = disk_file d path
                  | batch :: _ => exists calls, file_image (rb_schema batch) batches = Some calls
                                   /\ disk_file d' path = Some (calls_bytes calls)
                  end)).
Proof.
  cbv zeta. unfold write_checkpoint_table. destruct batches as [|batch batches]; [apply runs_ret; split; [by apply same_dirs|done]|].
  set (path := path_of _). apply runs_bind. apply runs_sys.
  2:{ intros _ d' e Ed. split; [by apply same_dirs|done]. }
  intros d1 Ed _. destruct (dir_exists d1 (path_dir path)) eqn:E; cbn [fst snd map_err].
  2:{ split; [by apply same_dirs|done]. }
  assert (Hd : disk_file (set_file d1 path []) path = Some []) by (by apply disk_file_set).
  assert (Ho1 : only path d (set_file d1 path [])).
  { apply (only_trans _ d d1); [by apply same_dirs|]. split; [intros q Hq; by apply disk_file_set_ne|].
    intros dir. by rewrite dir_exists_set. }
  unfold runs. destruct (write_file_spec path (rb_schema batch) (batch :: batches) _ (buf_writer_new path) eq_refl eq_refl Hd)
    as (Ho & Hp & Hs & Hr).
  destruct (write_file _ _ _ _) as [[d2 w2] r2]. cbn [fst snd] in *.
  destruct Hs as [c Hc]. assert (Hb : buffered path (c ++ bw_buf w2) d2 w2) by (split; [done|by exists c]).
  destruct (flush_writes path _ d2 w2 Hb) as [(Ho3 & _ & _ & _) _]. unfold buf_drop.
  split; [by eapply only_trans, only_trans|]. intros ->. destruct (Hr eq_refl) as (calls & Ei & Hf & Hw). exists calls. split; [done|].
  unfold buf_flush. by rewrite Hw.
Qed.
End files.

(** ** Names *)

Lemma rsplit_none c l : c ∉ l -> rsplit_at c l = None.
Proof.
  induction l as [|x l IH]; [done|]. intros [Hx Hl]%not_elem_of_cons. cbn. rewrite IH by done.
  by rewrite bool_decide_false.
Qed.
Lemma rsplit_last c a b : c ∉ b -> rsplit_at c (a ++ c :: b) = Some (a, b).
Proof.
  intros Hb. induction a as [|x a IH]; cbn; [by rewrite rsplit_none, bool_decide_true|]. by rewrite IH.
Qed.

(** A table name that is a file name. *)
Definition plain_table (table : string) : Prop :=
  bytes_of table <> [] /\ "/"%char ∉ bytes_of table /\ utf8_valid (bytes_of table) = true.
Definition table_file (table : string) : string := table +:+ ".arrow".

Lemma checkpoint_path_of tick table : plain_table table ->
  path_of (checkpoint_file tick table) = mkPath (checkpoint_dir tick) (table_file table).
Proof.
  intros (_ & Hs & _). unfold path_of, checkpoint_file, bytes_of. rewrite list_ascii_app.
  change (list_ascii_of_string ("/" +:+ table +:+ ".arrow")) with ("/"%char :: list_ascii_of_string (table +:+ ".arrow")).
  rewrite rsplit_last.
  - by rewrite !string_of_list_ascii_of_string.
  - rewrite list_ascii_app. apply not_elem_of_app. split; [done|]. by vm_compute; set_solver.
Qed.

Lemma table_file_split table : rsplit_at "." (bytes_of (table_file table)) = Some (bytes_of table, bytes_of "arrow").
Proof. unfold table_file, bytes_of. rewrite list_ascii_app. apply rsplit_last. vm_compute. set_solver. Qed.
Lemma table_file_name table : plain_table table -> is_checkpoint_name (table_file table) = true
  /\ path_file_stem (table_file table) = bytes_of table.
Proof.
  intros (Hne & _). unfold is_checkpoint_name, path_extension, path_file_stem. rewrite table_file_split.
  by destruct (bytes_of table).
Qed.
Lemma table_file_inj a b : table_file a = table_file b -> a = b.
Proof.
  intros E. pose proof (table_file_split a) as Ha. rewrite E, table_file_split in Ha. injection Ha as Ha.
  apply (f_equal string_of_list_ascii) in Ha. unfold bytes_of in Ha. by rewrite !string_of_list_ascii_of_string in Ha.
Qed.

(** ** The directory of a checkpoint *)

Section checkpoint.
Context {V : Type} `{AO : ArrowOps} `{IO' : !IpcOps} `{IL : !IpcLaws}.
Context (name_order : gmap string VersionedTable -> list string).
Context (name_order_perm : forall m, name_order m ≡ₚ (map_to_list m).*1).

(** What a snapshot saves: the batches of its tables that have any. *)
Definition batches_at (tick : Tick) (tables : gmap string VersionedTable) : gmap string (list RecordBatch) :=
  (fun t => default [] (vt_get_version t tick)) <$> tables.
Definition saved_batches (snapshot : WorldSnapshot) : gmap string (list RecordBatch) :=
  filter (fun p => p.2 <> []) (batches_at (ws_tick snapshot) (ws_tables snapshot)).
Definition checkpoint_of (s : ArrowStore V) (tick : Tick) : gmap string (list RecordBatch) :=
  match checkpoint_snapshot s tick with Some snapshot => saved_batches snapshot | None => ∅ end.

(** The schema of a table is that of its first batch. *)
Definition uniform (batches : list RecordBatch) : Prop :=
  forall b b', head batches = Some b -> b' ∈ batches -> rb_schema b' = rb_schema b.

(** The file reads back as the batches. *)
Definition file_of (content : bytes) (batches : list RecordBatch) : Prop := file_reader content = Ok (Ok <$> batches).

(** The checkpoint directory holds the files of some of the tables, and no others. *)
Definition dir_holds (tick : Tick) (saved : gmap string (list RecordBatch)) (names : list string) (d : Disk) : Prop :=
  dir_exists d (checkpoint_dir tick) = true /\
  (forall name content, disk_file d (mkPath (checkpoint_dir tick) name) = Some content ->
     exists table, table ∈ names /\ name = table_file table) /\
  (forall table batches, table ∈ names -> saved !! table = Some batches ->
     exists content, disk_file d (mkPath (checkpoint_dir tick) (table_file table)) = Some content /\ file_of content batches).

Lemma saved_lookup snapshot table : saved_batches snapshot !! table =
  match snapshot_table_batches snapshot table with Ok (b :: l) => Some (b :: l) | _ => None end.
Proof.
  unfold saved_batches, snapshot_table_batches, snapshot_get_table. rewrite map_lookup_filter. unfold batches_at. rewrite lookup_fmap.
  destruct (ws_tables snapshot !! table) as [t|]; [|done]. cbn [fmap option_fmap option_map ok_or mbind option_bind].
  destruct (default [] _); cbn; [by rewrite option_guard_False by (by intros [])|by rewrite option_guard_True].
Qed.

(** Nothing outside a directory changes. *)
Definition beside (dir : string) (d d' : Disk) : Prop :=
  (forall q, path_dir q <> dir -> disk_file d' q = disk_file d q).
Lemma only_beside dir name d d' : only (mkPath dir name) d d' -> beside dir d d'.
Proof. intros [Ho _] q Hq. apply Ho. by intros ->. Qed.

Lemma write_tables_spec tick snapshot names : forall done_ d,
  NoDup names -> (forall table, table ∈ names -> table ∉ done_) ->
  (forall table batches, saved_batches snapshot !! table = Some batches -> plain_table table /\ uniform batches) ->
  dir_holds tick (saved_batches snapshot) (filter (fun t => is_Some (saved_batches snapshot !! t)) done_) d ->
  runs (io_each (fun table =>
          write_checkpoint_table tick table
            (match snapshot_table_batches snapshot table with Ok batches => batches | Err _ => [] end)) names) d
    (fun d' r => beside (checkpoint_dir tick) d d' /\
       (r = Ok tt -> dir_holds tick (saved_batches snapshot)
                       (filter (fun t => is_Some (saved_batches snapshot !! t)) (done_ ++ names)) d')).
Proof.
  induction names as [|table names IH]; intros done_ d Hnd Hnew Hp Hd.
  { apply runs_ret. split; [done|]. by rewrite app_nil_r. }
  apply NoDup_cons in Hnd as [Hn Hnd]. cbn [io_each].
  assert (Hnext : forall d1, beside (checkpoint_dir tick) d d1 ->
    dir_holds tick (saved_batches snapshot) (filter (fun t => is_Some (saved_batches snapshot !! t)) (done_ ++ [table])) d1 ->
    runs (io_each (fun table => write_checkpoint_table tick table
            (match snapshot_table_batches snapshot table with Ok batches => batches | Err _ => [] end)) names) d1
      (fun d' r => beside (checkpoint_dir tick) d d' /\
       (r = Ok tt -> dir_holds tick (saved_batches snapshot)
                       (filter (fun t => is_Some (saved_batches snapshot !! t)) (done_ ++ table :: names)) d'))).
  { intros d1 Hb Hd1. eapply runs_weaken; [apply (IH (done_ ++ [table])); [done| |done|done]|].
    - intros t Ht. rewrite not_elem_of_app, list_elem_of_singleton. split; [apply Hnew; by right|by intros ->].
    - intros d2 r [Hb2 Hr]. split; [intros q Hq; by rewrite (Hb2 q), (Hb q)|]. intros E. specialize (Hr E). by rewrite <- app_assoc in Hr. }
  pose proof (saved_lookup snapshot table) as Hl.
  destruct (snapshot_table_batches snapshot table) as [ [|b l] | e] eqn:E.
  - cbn [write_checkpoint_table]. apply runs_bind, runs_ret. apply Hnext; [done|].
    rewrite filter_app, filter_cons_False, filter_nil, app_nil_r by (rewrite Hl; by intros []). done.
  - destruct (Hp _ _ Hl) as [Hpt Hu].
    eapply runs_bind_by; [apply (write_table_spec tick table (b :: l) d)| |]; rewrite (checkpoint_path_of tick table Hpt).
    2:{ intros d1 e [Ho _]. split; [by eapply only_beside|done]. }
    intros d1 [] [Ho Hr]. destruct (Hr eq_refl) as (calls & Hi & Hf). apply Hnext; [by eapply only_beside|].
    destruct Hd as (Hdir & Hfiles & Hdone). split_and!.
    + by apply Ho.
    + intros name content Hc. rewrite filter_app, filter_cons_True by (by eexists).
      destruct (decide (name = table_file table)) as [->|Hne].
      * exists table. split; [|done]. apply elem_of_app. right. by left.
      * rewrite (proj1 Ho) in Hc by (by intros [=]). destruct (Hfiles _ _ Hc) as (t & Ht & ->). exists t. split; [|done].
        apply elem_of_app. by left.
    + intros t batches Ht Hb. apply list_elem_of_filter in Ht as [_ Ht].
      apply elem_of_app in Ht as [Ht|Ht%list_elem_of_singleton]; [|subst t].
      * destruct (Hdone t batches) as (content & Hc & Hfo); [by apply list_elem_of_filter|done|]. exists content. split; [|done].
        rewrite (proj1 Ho); [done|]. intros [= Et]. apply table_file_inj in Et. subst t. by apply (Hnew table); [left|].
      * exists (calls_bytes calls). split; [done|]. rewrite Hl in Hb. injection Hb as <-.
        apply (file_read_back (rb_schema b)); [done|]. rewrite Forall_forall. intros x Hx. by apply (Hu b x).
  - cbn [write_checkpoint_table]. apply runs_bind, runs_ret. apply Hnext; [done|].
    rewrite filter_app, filter_cons_False, filter_nil, app_nil_r by (rewrite Hl; by intros []). done.
Qed.

Lemma checkpoint_written s tick token d :
  dir_exists d (checkpoint_dir tick) = false ->
  (forall table batches, checkpoint_of s tick !! table = Some batches -> plain_table table /\ uniform batches) ->
  runs (write_checkpoint name_order s tick token) d (fun d' r => beside (checkpoint_dir tick) d d' /\
    (r = Ok tt -> checkpoint_snapshot s tick = None /\ d' = d \/
       dir_holds tick (checkpoint_of s tick) (filter (fun t => is_Some (checkpoint_of s tick !! t))
         (elements (dom (checkpoint_of s tick)))) d')).
Proof.
  intros Hd Hp. unfold write_checkpoint. apply runs_res. destruct (token_guard s token); [|done].
  unfold do_write_checkpoint. unfold checkpoint_of in *. destruct (checkpoint_snapshot s tick) as [snapshot|]; [|apply runs_ret; split; [done|by left] ].
  apply runs_bind. apply runs_sys.
  2:{ intros _ d' e Ed. split; [|done]. intros q _. by apply disk_file_dirs. }
  intros d1 Ed _. cbn [fst snd map_err].
  set (d2 := with_dirs d1 _). assert (Hfiles : forall q, disk_file d2 q = disk_file d q).
  { intros q. unfold d2. rewrite create_dir_files. by apply disk_file_dirs. }
  eapply runs_weaken; [apply (write_tables_spec tick snapshot (name_order (ws_tables snapshot)) [])|].
  - rewrite name_order_perm. apply NoDup_fst_map_to_list.
  - intros t _. by apply not_elem_of_nil.
  - done.
  - split_and!; [|intros name content Hc|intros t b Ht; by apply elem_of_nil in Ht].
    + unfold d2, dir_exists. simpl. rewrite lookup_insert_eq. by apply bool_decide_eq_true.
    + rewrite Hfiles in Hc. apply disk_file_dir in Hc. cbn in Hc. congruence.
  - intros d3 r [Hb Hr]. split; [intros q Hq; by rewrite (Hb q), Hfiles|]. intros E. right. specialize (Hr E). cbn [app] in Hr.
    destruct Hr as (H1 & H2 & H3). split_and!; [done| |].
    + intros name content Hc. destruct (H2 _ _ Hc) as (t & Ht & ->). exists t. split; [|done].
      apply list_elem_of_filter in Ht as [Hs _]. apply list_elem_of_filter. split; [done|]. by apply elem_of_elements, elem_of_dom.
    + intros t b Ht Hsb. apply (H3 t b); [|done]. apply list_elem_of_filter. split; [by eexists|].
      rewrite name_order_perm. rewrite saved_lookup in Hsb. unfold snapshot_table_batches, snapshot_get_table in Hsb.
      destruct (ws_tables snapshot !! t) as [x|] eqn:Ex; [|done]. apply list_elem_of_fmap. exists (t, x). split; [done|].
      by apply elem_of_map_to_list.
Qed.

(** ** Loading *)

(** A program that gives [a] on a disk of these files, or fails by a fault. *)
Definition reads_on {E A} (dirs : gmap string (gmap string bytes)) (m : IO E A) (a : A) : Prop :=
  forall d, dk_dirs d = dirs -> runs m d (fun d' r => dk_dirs d' = dirs /\ (r = Ok a \/ exists e, r = Err e)
    /\ (dk_faults d = [] -> dk_faults d' = [] /\ r = Ok a)).

Lemma reads_on_bind {E A B} dirs (m : IO E A) (k : A -> IO E B) a b :
  reads_on dirs m a -> reads_on dirs (k a) b -> reads_on dirs (io_bind m k) b.
Proof.
  intros Hm Hk d Ed. eapply runs_bind_by; [by apply Hm| |].
  - intros d1 a' (Hd & [[= ->]|[? ?]] & Hf); [|done]. eapply runs_weaken; [by apply Hk|].
    intros d2 r (Hd2 & Hr2 & Hf2). split_and!; [done|done|]. intros H. apply Hf2. by apply Hf.
  - intros d1 e (Hd & _ & Hf). split_and!; [done|eauto|]. intros H. by apply Hf in H as [_ H].
Qed.
Lemma reads_anywhere {E A} dirs (m : IO E A) a : reads m a -> reads_on dirs m a.
Proof. intros H d Ed. eapply runs_weaken; [apply H|]. intros d' r (H1 & H2 & H3). split_and!; [congruence|done|done]. Qed.
Lemma reads_on_sys {E A} dirs (call : Disk -> Disk * result string A) (f : string -> E) (a : A) :
  (forall d, dk_dirs d = dirs -> call d = (d, Ok a)) -> reads_on dirs (io_call (sys_call call) f) a.
Proof.
  intros Hc d Ed. apply runs_sys.
  - intros d' Hd Hf. rewrite Hc by congruence. cbn [fst snd map_err]. split_and!; [congruence|by left|]. auto.
  - intros Hf d' e Hd. split_and!; [congruence|eauto|done].
Qed.
Lemma reads_answer {E A} dirs (f : string -> E) (a : A) : reads_on dirs (io_call (sys_answer (Ok a)) f) a.
Proof. apply reads_anywhere, reads_sys. done. Qed.

Lemma reads_batches dirs table results : forall batches,
  reads_on dirs (read_batches table (Ok <$> results) batches) (batches ++ results).
Proof.
  induction results as [|b results IH]; intros batches; [rewrite app_nil_r; apply reads_anywhere, reads_ret|].
  cbn [fmap list_fmap read_batches]. eapply reads_on_bind; [apply reads_answer|].
  replace (batches ++ b :: results) with ((batches ++ [b]) ++ results) by (by rewrite <- app_assoc). apply IH.
Qed.

Lemma reads_files tick (saved : gmap string (list RecordBatch)) d entries : forall acc : gmap string (list RecordBatch),
  (forall table batches, saved !! table = Some batches -> plain_table table) ->
  (forall name, name ∈ entries -> exists table batches content, name = table_file table /\ saved !! table = Some batches
     /\ disk_file d (mkPath (checkpoint_dir tick) name) = Some content /\ file_of content batches) ->
  exists read, reads_on (dk_dirs d) (read_checkpoint_files (checkpoint_dir tick) entries acc) read /\
    forall table, read !! table = if bool_decide (table_file table ∈ entries) then saved !! table else acc !! table.
Proof.
  induction entries as [|name entries IH]; intros acc Hp He.
  { exists acc. split; [apply reads_anywhere, reads_ret|]. intros t. by rewrite bool_decide_false by apply not_elem_of_nil. }
  destruct (He name) as (table & batches & content & -> & Hs & Hc & Hf); [by left|].
  destruct (IH (<[table := batches]> acc)) as (read & Hr & Hl); [done|intros n Hn; apply He; by right|].
  exists read. split.
  - cbn [read_checkpoint_files]. eapply reads_on_bind; [apply reads_answer|]. destruct (Hp _ _ Hs) as (H0 & H1 & Hu).
    destruct (table_file_name table) as [-> Hstem]; [done|]. rewrite Hstem, Hu. unfold bytes_of at 1.
    eapply reads_on_bind; [by apply reads_anywhere, reads_res|]. rewrite string_of_list_ascii_of_string.
    eapply reads_on_bind; [|exact Hr]. unfold read_checkpoint_file. eapply reads_on_bind.
    { apply (reads_on_sys _ _ _ content). intros d' Ed. by rewrite (disk_file_dirs d' d), Hc. }
    rewrite Hf. eapply reads_on_bind; [apply reads_answer|]. apply (reads_batches _ _ batches []).
  - intros t. rewrite Hl. destruct (decide (table_file t ∈ entries)) as [Hin|Hin].
    + rewrite !bool_decide_true by (done || by right). done.
    + rewrite bool_decide_false by done. destruct (decide (t = table)) as [->|Hne].
      * rewrite bool_decide_true by left. by rewrite lookup_insert_eq.
      * rewrite bool_decide_false, lookup_insert_ne by (done || (intros [E|?]%elem_of_cons; [by apply table_file_inj in E|done])). done.
Qed.

(** The table a load leaves. *)
Definition loaded_table (s : ArrowStore V) (tick : Tick) (name : string) (batches : list RecordBatch) : VersionedTable :=
  vt_insert_version
    match as_tables s !! name with
    | Some table => table
    | None => match batches with
              | b :: _ => vt_set_spec (vt_new name AppendOnly) (spec_of_schema name (rb_schema b))
              | [] => vt_new name AppendOnly
              end
    end tick batches.

Lemma load_tables_lookup tick l : forall s : ArrowStore V, NoDup l.*1 ->
  let s1 := foldl (load_checkpoint_table tick) s l in
  (forall name batches, (name, batches) ∈ l -> as_tables s1 !! name = Some (loaded_table s tick name batches)) /\
  (forall name, name ∉ l.*1 -> as_tables s1 !! name = as_tables s !! name) /\
  as_type_registry s1 = as_type_registry s /\ as_lifecycle s1 = as_lifecycle s.
Proof.
  induction l as [|[name batches] l IH]; intros s; cbn [fmap list_fmap fst foldl]; intros Hnd.
  { split_and!; [intros n b H; by apply elem_of_nil in H|done..]. }
  apply NoDup_cons in Hnd as [Hn Hnd]. set (s' := load_checkpoint_table tick s (name, batches)).
  assert (Hs' : as_tables s' !! name = Some (loaded_table s tick name batches)
    /\ (forall n, n <> name -> as_tables s' !! n = as_tables s !! n)
    /\ as_type_registry s' = as_type_registry s /\ as_lifecycle s' = as_lifecycle s).
  { unfold s', load_checkpoint_table, loaded_table. destruct (as_tables s !! name) as [t|] eqn:E; cbn;
      (split_and!; [by rewrite lookup_insert_eq|intros n Hne; by rewrite lookup_insert_ne|done..]). }
  destruct Hs' as (H1 & H2 & H3 & H4). destruct (IH s' Hnd) as (I1 & I2 & I3 & I4). split_and!; [| |congruence..].
  - intros n b [E|Hin]%elem_of_cons; [injection E as -> ->; by rewrite I2|].
    rewrite (I1 n b Hin). unfold loaded_table. rewrite H2; [done|]. intros ->. apply Hn.
    apply list_elem_of_fmap. by exists (name, b).
  - intros n [Hne Hnin]%not_elem_of_cons. by rewrite I2, H2.
Qed.
End checkpoint.

(** ** A checkpoint and its load *)

Section restore.
Context {V : Type} `{AO : ArrowOps} `{IO' : !IpcOps} `{IL : !IpcLaws}.
Context (name_order : gmap string VersionedTable -> list string).
Context (name_order_perm : forall m, name_order m ≡ₚ (map_to_list m).*1).
Context (dir_order : gmap string bytes -> list string).
Context (dir_order_perm : forall m, dir_order m ≡ₚ (map_to_list m).*1).
Context (load_order : gmap string (list RecordBatch) -> list (string * list RecordBatch)).
Context (load_order_perm : forall m, load_order m ≡ₚ map_to_list m).

Notation load := (load_checkpoint (V := V) dir_order load_order).

(** What a load gives back, for what it read. *)
Definition restores (s : ArrowStore V) (tick : Tick) (saved : gmap string (list RecordBatch))
    (r : ArrowStore V * WorldSnapshot) : Prop :=
  get_snapshot r.1 tick = Ok r.2 /\
  forall table, snapshot_table_batches r.2 table =
    match saved !! table with Some batches => Ok batches | None => get_table_batches s table tick end.

Lemma load_order_keys m : NoDup (load_order m).*1.
Proof. rewrite load_order_perm. apply NoDup_fst_map_to_list. Qed.

Lemma restores_loaded s tick saved :
  restores s tick saved (do_generate_snapshot (foldl (load_checkpoint_table tick) s (load_order saved)) tick).
Proof.
  destruct (load_tables_lookup tick (load_order saved) s (load_order_keys saved)) as (H1 & H2 & _).
  split; [unfold get_snapshot; simpl; by rewrite lookup_insert_eq|]. intros table.
  unfold snapshot_table_batches, snapshot_get_table. simpl. destruct (saved !! table) as [batches|] eqn:E.
  - rewrite (H1 table batches) by (rewrite load_order_perm; by apply elem_of_map_to_list). simpl.
    unfold vt_get_version, loaded_table, vt_insert_version. simpl. by rewrite lookup_insert_eq.
  - rewrite H2; [done|]. rewrite load_order_perm. intros Hin. apply list_elem_of_fmap in Hin as ([n b] & -> & Hin).
    apply elem_of_map_to_list in Hin. cbn in E. congruence.
Qed.

(** Loading from a directory that holds a checkpoint. *)
Lemma load_held s tick saved d :
  (forall table batches, saved !! table = Some batches -> plain_table table) ->
  dir_holds tick saved (filter (fun t => is_Some (saved !! t)) (elements (dom saved))) d ->
  runs (load s tick) d (fun d' r => dk_dirs d' = dk_dirs d /\
    match r with
    | Ok r => restores s tick saved r
    | Err e => dk_faults d = [] -> init_guard s = Err e \/ saved = ∅
    end).
Proof.
  intros Hp (Hdir & Hfiles & Hsaved). unfold load_checkpoint. apply runs_res.
  destruct (init_guard s) as [[]|e] eqn:Eg; [|split; [done|]; by left]. cbv zeta. apply runs_get. rewrite Hdir. cbn [negb].
  set (dir := checkpoint_dir tick) in *. assert (exists files, dk_dirs d !! dir = Some files) as [files Ef] by (by apply bool_decide_eq_true in Hdir).
  assert (Hfile : forall name, disk_file d (mkPath dir name) = files !! name) by (intros; unfold disk_file; simpl; by rewrite Ef).
  assert (Hin : forall table, table ∈ filter (fun t => is_Some (saved !! t)) (elements (dom saved)) <-> is_Some (saved !! table)).
  { intros t. rewrite list_elem_of_filter, elem_of_elements, elem_of_dom. tauto. }
  destruct (reads_files tick saved d (dir_order files) ∅ Hp) as (read & Hread & Hl).
  { intros name Hn. rewrite dir_order_perm in Hn. apply list_elem_of_fmap in Hn as ([n c] & -> & Hn).
    apply elem_of_map_to_list in Hn. cbn [fst]. destruct (Hfiles n c) as (t & Ht & ->); [by rewrite Hfile|].
    apply Hin in Ht as [b Hb]. destruct (Hsaved t b) as (c' & Hc & Hfo); [by apply Hin|done|]. by exists t, b, c'. }
  assert (read = saved) as ->.
  { apply map_eq. intros t. rewrite Hl. case_bool_decide as Ht; [done|]. rewrite lookup_empty.
    destruct (saved !! t) as [b|] eqn:Eb; [|done]. exfalso. apply Ht.
    destruct (Hsaved t b) as (c & Hc & _); [by apply Hin|done|]. rewrite dir_order_perm. apply list_elem_of_fmap.
    exists (table_file t, c). split; [done|]. apply elem_of_map_to_list. by rewrite <- Hfile. }
  set (k := fun entries => io_bind (read_checkpoint_files dir entries ∅) _).
  apply runs_bind. eapply runs_weaken.
  { apply (reads_on_sys (dk_dirs d) _ _ (dir_order files)); [|done]. intros d1 Ed. by rewrite Ed, Ef. }
  intros d1 r (Hd1 & Hr & Hf). destruct r as [entries|e]; [|split; [done|]; intros H; by apply Hf in H as [_ H]].
  destruct Hr as [[= ->]|[? ?]]; [|done]. unfold k. eapply runs_bind_by; [by apply Hread| |].
  - intros d2 read' (Hd2 & [[= ->]|[? ?]] & Hf2); [|done]. case_bool_decide as Es.
    + split; [done|]. by right.
    + apply runs_ret. split; [done|]. apply restores_loaded.
  - intros d2 e (Hd2 & _ & Hf2). split; [done|]. intros H. apply Hf in H as [H _]. by apply Hf2 in H as [_ H].
Qed.

(** C10: A checkpoint whose directory was not there before, of tables with plain file names and, in
    each, batches of one schema. Writing it changes nothing outside its directory, whatever faults the
    disk has. When it reports success, a store that loads the checkpoint gives each table the batches
    it had in the snapshot, and keeps its own tables for the others; it only fails when it is not
    initializing, when there was nothing to save, or by a fault, and the files stay. (Over an older
    checkpoint of the tick the tables it does not name would be loaded too: [stale_table_is_loaded].) *)
Theorem checkpoint_restores (s s0 : ArrowStore V) (tick : Tick) (token : WriteCheckpointToken) (d : Disk) :
  dir_exists d (checkpoint_dir tick) = false ->
  (forall table batches, checkpoint_of s tick !! table = Some batches -> plain_table table /\ uniform batches) ->
  runs (write_checkpoint name_order s tick token) d (fun d1 r =>
    beside (checkpoint_dir tick) d d1 /\
    (r = Ok tt -> runs (load s0 tick) d1 (fun d2 r2 => dk_dirs d2 = dk_dirs d1 /\
       match r2 with
       | Ok r2 => restores s0 tick (checkpoint_of s tick) r2
       | Err e => dk_faults d1 = [] -> init_guard s0 = Err e \/ checkpoint_of s tick = ∅
       end))).
Proof.
  intros Hd Hp. eapply runs_weaken; [by apply (checkpoint_written name_order)|]. intros d1 r [Hb Hr].
  split; [done|]. intros E. destruct (Hr E) as [[Hnone ->]|Hh].
  - unfold load_checkpoint. apply runs_res. destruct (init_guard s0) as [[]|e]; [|split; [done|]; by left].
    apply runs_get. rewrite Hd. split; [done|]. intros _. right. unfold checkpoint_of. by rewrite Hnone.
  - apply load_held; [|done]. intros t b Hb'. by apply (Hp t b).
Qed.
End restore.

(** ** What a loaded table can do *)

Section loaded.
Context {V : Type} `{AO : ArrowOps} `{JR : JsonRead V} `{FT : FloatText}.
Context (ver_order : gmap Tick (list RecordBatch) -> list (Tick * list RecordBatch)).
Context (group_order : gmap nat (list (nat * nat)) -> list (nat * list (nat * nat))).

Lemma spec_of_schema_columns name schema f : head schema = Some f ->
  exists rest, ts_columns (spec_of_schema name schema)
    = column_with_nullable (column_new (fld_name f) SemRaw (data_type_debug (fld_data_type f))) (fld_nullable f) :: rest.
Proof.
  unfold spec_of_schema. set (step := fun _ _ => _).
  assert (H : forall l spec c rest, ts_columns spec = c :: rest -> exists rest', ts_columns (foldl step spec l) = c :: rest').
  { induction l as [|g l IH]; intros spec c rest E; [by exists rest|]. cbn [foldl]. unfold step at 2.
    destruct (table_with_column spec _) as [spec'|e] eqn:Ec; [|by eapply IH].
    unfold table_with_column in Ec. destruct (decide _); [done|]. injection Ec as <-. eapply (IH _ c). cbn [ts_columns]. by rewrite E. }
  destruct schema as [|g schema]; [done|]. intros [= ->]. cbn [foldl].
  eapply H. unfold step, table_with_column. rewrite decide_False by (cbn; rewrite lookup_empty; by intros []). done.
Qed.

(** The type names of Arrow are not those of the store. *)
Lemma loaded_schema_unresolved name (schema : list Field) f (reg : TypeRegistry V) : head schema = Some f ->
  tr_entries reg !! data_type_debug (fld_data_type f) = None ->
  exists e, schema_of_spec (spec_of_schema name schema) reg = Err e.
Proof.
  intros Hh Hr. destruct (spec_of_schema_columns name schema f Hh) as [rest E].
  unfold schema_of_spec. rewrite E. cbn [try_map]. unfold resolve_data_type. cbn. rewrite Hr. cbn. eauto.
Qed.

(** A table that only a load has created holds its rows but refuses every diff, in whatever tick and
    on whatever row: the load sets up no row positions, and the specification it makes up names the
    types as Arrow does, which no type of the store's registry is called. *)
Theorem loaded_table_refuses_diffs (s : ArrowStore V) (tick : Tick) (l : list (string * list RecordBatch))
    (name : string) (b : RecordBatch) (bs : list RecordBatch) (f : Field) (tick' : Tick) (diff : Diff V) :
  NoDup l.*1 -> (name, b :: bs) ∈ l -> as_tables s !! name = None ->
  as_type_registry s = default_type_registry -> head (rb_schema b) = Some f ->
  (forall n, fld_data_type f <> DOther n) -> diff_table diff = name ->
  let s1 := (do_generate_snapshot (foldl (load_checkpoint_table tick) s l) tick).1 in
  get_table_batches s1 name tick = Ok (b :: bs) /\
  exists s2 e, apply_diff ver_order group_order s1 tick' diff = Some (s2, Err e).
Proof.
  intros Hnd Hin Hnone Hreg Hh Hdt Hn s1.
  destruct (load_tables_lookup tick l s Hnd) as (H1 & _ & H3 & _). specialize (H1 _ _ Hin).
  assert (Ht : as_tables s1 !! name = Some (loaded_table s tick name (b :: bs))) by exact H1.
  assert (Hs1 : as_type_registry s1 = default_type_registry) by (unfold s1; simpl; congruence).
  unfold loaded_table in Ht. rewrite Hnone in Ht.
  destruct (loaded_schema_unresolved name (rb_schema b) f (as_type_registry s1) Hh) as [e He].
  { rewrite Hs1. destruct (fld_data_type f) eqn:E; try reflexivity. by destruct (Hdt name0). }
  split; [unfold get_table_batches, get_entry; rewrite Ht; simpl; by rewrite lookup_insert_eq|].
  unfold apply_diff, apply_to_table, get_entry.
  destruct diff as [table row column value|table row values|table row|table rows]; cbn in Hn; subst table; rewrite Ht; cbn [ok_or].
  - cbn. eauto.
  - unfold apply_insert_to_table, resolve_table_schema. cbn [vt_spec vt_set_spec vt_insert_version vt_with_versions].
    rewrite He. cbn. eauto.
  - cbn. eauto.
  - unfold apply_replace_to_table, resolve_table_schema. cbn [vt_spec vt_set_spec vt_insert_version vt_with_versions].
    rewrite He. destruct (head rows); cbn; eauto.
Qed.
End loaded.
