(* ===== verification/StoreCheckpointSamples.v ===== *)
(** * StoreCheckpointSamples: a checkpoint written and loaded

    A codec of batches of one column of keys stands for Arrow IPC: it refuses the other batches. The
    store holds a table of two batches; hash maps and directories yield their entries in the order
    of [map_to_list]. *)

From Stdlib Require Import Ascii String.
From stdpp Require Import base gmap strings list fin_maps sorting.
From Stdlib Require Import ZArith Lia.
From S2P Require Import Prelude RustStr CoreTypes SchemaTables Journal RuleCore Arrow ArrowVec ArrowBatch.
From S2P Require Import ArrowBatchFacts StoreIndex ArrowStore StoreFacts StoreRows StoreRuns StoreSamples.
From S2P Require Import Disk SaveFacts StoreCheckpoints StoreCheckpointFacts.

(** ** The codec *)

Definition key_fields : list Field := [mkField "id" DUInt64 false].
Definition key_batch (keys : list Z) : option VecBatch :=
  to_option (vb_try_new key_fields [mkVec DUInt64 [] ((fun z => (true, SInt z)) <$> keys) false]).
Definition keys_of (b : VecBatch) : list Z :=
  match (`b).2 with [a] => omap (fun s => scalar_int s.2) (va_slots a) | _ => [] end.

#[export] Instance VecArr_eq_dec : EqDecision VecArr.
Proof. solve_decision. Defined.

(** A batch is the number of its rows and its keys. *)
Definition encode_batch (b : VecBatch) : bytes :=
  to_le_bytes (Z.of_nat (length (keys_of b))) ++ (keys_of b ≫= to_le_bytes).
Fixpoint decode_keys (n : nat) (l : bytes) : list Z * bytes :=
  match n with
  | O => ([], l)
  | S n => let '(keys, rest) := decode_keys n (drop 8 l) in (le_combine (take 8 l) :: keys, rest)
  end.
Fixpoint decode_batches (fuel : nat) (l : bytes) : option (list VecBatch) :=
  match fuel, l with
  | _, [] => Some []
  | S fuel, _ :: _ =>
      let '(keys, rest) := decode_keys (Z.to_nat (le_combine (take 8 l))) (drop 8 l) in
      b ← key_batch keys; bs ← decode_batches fuel rest; Some (b :: bs)
  | O, _ :: _ => None
  end.
Definition decode (l : bytes) : option (list VecBatch) := decode_batches (length l) l.
Definition encode_all (bs : list VecBatch) : result string bytes :=
  let data := bs ≫= encode_batch in
  if bool_decide (decode data = Some bs) then Ok data else Err "unsupported batch".

#[export] Instance KeyIpc : IpcOps (AO := VecArrow) := {|
  FileWriter := list VecBatch;
  file_writer_new _ := ([], Ok []);
  file_writer_write (bs : list VecBatch) b := ([], Ok (bs ++ [b]));
  file_writer_finish (bs : list VecBatch) :=
    match encode_all bs with Ok data => ([WriteAll data; Flush], Ok tt) | Err e => ([], Err e) end;
  arrow_io_error e := "Io error: " +:+ e;
  file_reader data := map_ok (fmap Ok) (ok_or (decode data) "not an Arrow file");
  StreamWriter := list VecBatch;
  stream_writer_new _ := Ok ([], []);
  stream_writer_write (bs : list VecBatch) b := Ok (bs ++ [b], []);
  stream_writer_finish (bs : list VecBatch) := encode_all bs;
  stream_reader data := map_ok (fmap Ok) (ok_or (decode data) "not an Arrow stream") |}.

Lemma batches_image_keys bs : forall (x : list VecBatch), batches_image (x : FileWriter) bs = Some ([], x ++ bs).
Proof.
  induction bs as [|b bs IH]; intros x; [cbn; by rewrite app_nil_r|]. cbn. rewrite IH. cbn.
  by rewrite <- app_assoc.
Qed.

#[export] Instance KeyIpcLaws : IpcLaws.
Proof.
  split.
  - intros x calls. cbn. by destruct (encode_all x); intros [= <-].
  - intros schema batches calls. unfold file_image. cbn [file_writer_new KeyIpc]. rewrite (batches_image_keys batches []). cbn.
    unfold encode_all. case_bool_decide as E; [|done]. intros [= <-] _.
    change (map_ok (fmap Ok) (ok_or (decode ((batches ≫= encode_batch) ++ [])) "not an Arrow file")
            = (Ok (Ok <$> batches) : result string (list (result string VecBatch)))).
    by rewrite app_nil_r, E.
Qed.

(** ** A checkpoint *)

Definition first_keys : list RecordBatch := omap key_batch [[7; 8]; [9]].
Definition key_store : VStore :=
  let s := with_table store_new "army" (vt_insert_version (vt_new "army" AppendOnly) (mkTick 3) first_keys) in
  (do_generate_snapshot s (mkTick 3)).1.
Definition names_of (m : gmap string VersionedTable) : list string := (map_to_list m).*1.
Definition files_of (m : gmap string bytes) : list string := (map_to_list m).*1.
Definition empty_disk : Disk := mkDisk ∅ [].

Definition vcheckpoint (tick : Z) : IO ArrowStoreError unit := write_checkpoint names_of key_store (mkTick tick) TokenInit.
Definition vload (s : VStore) (tick : Z) := load_checkpoint files_of map_orders s (mkTick tick).
Definition io_ok {E A} (r : Disk * option (result E A)) : option bool := is_ok <$> r.2.

Lemma runs_ok {E A} (m : IO E A) d Q :
  io_ok (m d) = Some true -> runs m d Q -> runs m d (fun d' r => exists a, r = Ok a /\ Q d' (Ok a)).
Proof. unfold runs, io_ok. destruct (m d) as [d' [[a|e]|]]; cbn; [intros _ H; by exists a|done|done]. Qed.

Definition keys_text (bs : list VecBatch) : list (list Z) := keys_of <$> bs.

Lemma army_plain : plain_table "army".
Proof.
  split_and!; [discriminate|intros Hs%list_elem_of_In; cbn in Hs; intuition discriminate|vm_compute; reflexivity].
Qed.

Lemma key_batch_schema keys b : key_batch keys = Some b -> rb_schema b = key_fields.
Proof. unfold key_batch, vb_try_new. destruct (bool_dec _ true); [|done]. by intros [= <-]. Qed.
Lemma key_batches_uniform l : uniform (omap key_batch l).
Proof.
  assert (H : forall b, b ∈ omap key_batch l -> rb_schema b = key_fields).
  { intros b (keys & _ & E)%list_elem_of_omap. by eapply key_batch_schema. }
  intros b b' Hb Hb'. rewrite (H b'), (H b); [done| |done]. destruct (omap key_batch l); [done|]. injection Hb as ->. by left.
Qed.

Lemma checkpoint_restores_witness :
  runs (vcheckpoint 3) empty_disk (fun d1 r => r = Ok tt /\
    runs (vload store_new 3) d1 (fun _ r2 => exists s1 snap, r2 = Ok (s1, snap)
      /\ snapshot_table_batches snap "army" = Ok first_keys)).
Proof.
  assert (H : forall table batches, checkpoint_of key_store (mkTick 3) !! table = Some batches -> table = "army" /\ batches = first_keys).
  { intros table batches E. change (checkpoint_of key_store (mkTick 3)) with
      ({["army" := first_keys]} : gmap string (list VecBatch)) in E.
    apply lookup_singleton_Some in E as [<- <-]. done. }
  assert (Hok : io_ok (vcheckpoint 3 empty_disk) = Some true) by (vm_compute; reflexivity).
  pose proof (checkpoint_restores names_of (fun m => reflexivity _) files_of (fun m => reflexivity _) map_orders
    (fun m => reflexivity _) key_store store_new (mkTick 3) TokenInit empty_disk eq_refl) as T.
  apply (runs_ok _ _ _ Hok) in T.
  - assert (Hload : io_ok (vload store_new 3 (vcheckpoint 3 empty_disk).1) = Some true) by (vm_compute; reflexivity).
    unfold vcheckpoint in *. unfold runs in T |- * at 1. destruct (write_checkpoint _ _ _ _ empty_disk) as [d1 [r|]]; [|done].
    destruct T as ([] & -> & _ & T). split; [done|]. specialize (T eq_refl). apply (runs_ok _ _ _ Hload) in T.
    eapply runs_weaken; [exact T|]. intros d2 r2 ([s1 snap] & -> & _ & _ & Hl). exists s1, snap. split; [done|].
    etrans; [exact (Hl "army")|]. reflexivity.
  - intros table batches E. destruct (H table batches E) as [-> ->]. split.
    + exact army_plain.
    + exact (key_batches_uniform [[7; 8]; [9]]).
Defined.

Lemma loaded_table_refuses_diffs_witness :
  let s1 := (do_generate_snapshot (foldl (load_checkpoint_table (mkTick 3)) (store_new : VStore) [("army", first_keys)]) (mkTick 3)).1 in
  get_table_batches s1 "army" (mkTick 3) = Ok first_keys /\
  exists s2 e, apply_diff map_orders map_orders s1 (mkTick 4) (Insert "army" (mkRowId 10) {["id" := JInt 10]}) = Some (s2, Err e).
Proof.
  destruct first_keys as [|b bs] eqn:E; [discriminate E|].
  apply (loaded_table_refuses_diffs map_orders map_orders store_new (mkTick 3) [("army", b :: bs)] "army" b bs
    (mkField "id" DUInt64 false) (mkTick 4) (Insert "army" (mkRowId 10) {["id" := JInt 10]})).
  - apply NoDup_singleton.
  - left.
  - reflexivity.
  - reflexivity.
  - apply (f_equal (fun l => head l ≫= fun x => head (rb_schema x))) in E. symmetry. exact E.
  - discriminate.
  - reflexivity.
Defined.

(** A checkpoint of a tick without a snapshot holds the newest there is, a later one too. *)
Example checkpoint_of_another_tick :
  checkpoint_snapshot key_store (mkTick 1) = checkpoint_snapshot key_store (mkTick 3)
  /\ io_ok (vload store_new 1 (vcheckpoint 1 empty_disk).1) = Some true.
Proof. split; [reflexivity|vm_compute; reflexivity]. Qed.

(** Without any snapshot nothing is written, and the checkpoint is reported as a success. *)
Example empty_checkpoint_succeeds :
  write_checkpoint names_of (store_new : VStore) (mkTick 3) TokenInit empty_disk = (empty_disk, Some (Ok tt))
  /\ io_ok (vload store_new 3 empty_disk) = Some false.
Proof. split; [reflexivity|vm_compute; reflexivity]. Qed.

(** Files of an earlier checkpoint of the tick stay in its directory, and are loaded as well. *)
Definition ghost_disk : Disk :=
  mkDisk {[ "checkpoint_3" := {[ "ghost.arrow" := omap key_batch [[1]] ≫= encode_batch ]} ]} [].
Definition loaded_keys (r : Disk * option (StoreResult (VStore * WorldSnapshot))) (table : string) : list (list Z) :=
  match r.2 with
  | Some (Ok (_, snap)) => match snapshot_table_batches snap table with Ok bs => keys_text bs | Err _ => [] end
  | _ => []
  end.
Example stale_table_is_loaded :
  (io_ok (vcheckpoint 3 ghost_disk), is_ok (get_table key_store "ghost"),
   loaded_keys (vload store_new 3 (vcheckpoint 3 ghost_disk).1) "ghost") = (Some true, false, [[1]]).
Proof. vm_compute. reflexivity. Qed.
