(* ===== verification/Compilation.v ===== *)
(** * Compilation: raw content compiled into the store and the schema registry

    Models [compilation.rs] of [scharnhorst_content], and the hash of [fingerprint.rs]. The compiler
    works on a store and a registry of its own, which a failure drops. Arrow arrays are a class, the
    order a hash set yields its elements and the texts of [{:?}] are arguments. *)

From Stdlib Require Import Ascii String.
From stdpp Require Import base gmap strings list fin_maps sorting.
From Stdlib Require Import ZArith Lia.
From S2P Require Import Prelude RustStr CoreTypes SchemaTables Relations Registry Journal Content.
From S2P Require Import RuleCore Rules Arrow ArrowVec ArrowBatch ArrowBatchFacts StoreIndex ArrowStore ErrorText Disk SaveErrors.

(** ** Content hashes *)

(** The hash of [mod fxhash]: FNV's step, from a seed of its own. *)
Definition hash_seed : Z := 5871781006564002453.
Definition hash_prime : Z := 1099511628211.
Definition hash_step (hash : Z) (byte : ascii) : Z :=
  Z.lxor (wrap64 (hash * hash_prime)) (Z.of_N (N_of_ascii byte)).
Definition hash64 (data : string) : Z := foldl hash_step hash_seed (bytes_of data).

(** [format!("{:x}", n)] of a [u64] *)
Definition hex_digit (d : Z) : ascii := if d <? 10 then digit_char d else ascii_of_N (Z.to_N (87 + d)).
Fixpoint show_hex_digits (fuel : nat) (n : Z) : string :=
  match fuel with
  | O => ""
  | S fuel => (if n <? 16 then "" else show_hex_digits fuel (n / 16)) +:+ String (hex_digit (n mod 16)) ""
  end.
Definition show_hex (n : Z) : string := show_hex_digits 16 n.

Section hash.
(** [{:?}] of a string *)
Context (debug_str : string -> string).

Definition semantic_debug (s : FieldSemantic) : string :=
  match s with
  | SemId => "Id" | SemForeignKey target => "ForeignKey { target_table: " +:+ debug_str target +:+ " }"
  | SemName => "Name" | SemTag => "Tag" | SemPosition2D => "Position2D" | SemPosition3D => "Position3D"
  | SemQuantity => "Quantity" | SemPercent => "Percent" | SemDurationTicks => "DurationTicks"
  | SemTimestamp => "Timestamp" | SemRaw => "Raw"
  end.

Definition column_text (col : ColumnSpec) : string :=
  "|" +:+ col_name col +:+ "=" +:+ col_storage_type col +:+ ":" +:+ semantic_debug (col_semantic col)
  +:+ (if col_nullable col then "?n" else "").
Definition spec_text (spec : TableSpec) : string :=
  ":" +:+ ts_name spec +:+ String.concat "" (column_text <$> ts_columns spec).

(** The text that is hashed. *)
Definition fingerprint_text (fp : ModFingerprint) (seed : string) (table_specs : list TableSpec) : string :=
  let names := sort_by_text id (mf_table_specs fp) in
  let sorted_specs := sort_by_text ts_name
    (List.filter (fun s => bool_decide (ts_name s ∈ mf_table_specs fp)) table_specs) in
  mf_mod_id fp +:+ ":" +:+ mf_version fp +:+ ":" +:+ String.concat "," names +:+ ":" +:+ seed
  +:+ String.concat "" (spec_text <$> sorted_specs).

Definition compute_hash (fp : ModFingerprint) (seed : string) (table_specs : list TableSpec) : ModFingerprint :=
  mod_fingerprint_with_content_hash fp (show_hex (hash64 (fingerprint_text fp seed table_specs))).
End hash.

(** ** The compiler *)

Record RawTableDef := mkRawTable { rt_spec : TableSpec; rt_rows : gmap string (list string) }.

Record CompilationInput := mkInput {
  ci_tables : list RawTableDef;
  ci_overlays : OverlayResolver;
  ci_resolver : NamespaceResolver;
  ci_migrated_manifest : option MigratedSchemaManifest }.
Definition input_new : CompilationInput := mkInput [] resolver_new spaces_new None.
Definition input_with_table (i : CompilationInput) (def : RawTableDef) : CompilationInput :=
  mkInput (ci_tables i ++ [def]) (ci_overlays i) (ci_resolver i) (ci_migrated_manifest i).
Definition input_with_overlays (i : CompilationInput) (o : OverlayResolver) : CompilationInput :=
  mkInput (ci_tables i) o (ci_resolver i) (ci_migrated_manifest i).
Definition input_with_resolver (i : CompilationInput) (r : NamespaceResolver) : CompilationInput :=
  mkInput (ci_tables i) (ci_overlays i) r (ci_migrated_manifest i).
Definition input_with_migrated_manifest (i : CompilationInput) (m : MigratedSchemaManifest) : CompilationInput :=
  mkInput (ci_tables i) (ci_overlays i) (ci_resolver i) (Some m).

Section compiler.
Context {V : Type} `{AO : ArrowOps} `{JR : JsonRead V} `{FT : FloatText}.
Context (hash_order : gset string -> list string) (debug_str : string -> string) (debug_path : list string -> string).

Record CompilationOutput := mkOutput {
  co_store : ArrowStore V;
  co_registry : SchemaRegistry;
  co_resolver : NamespaceResolver;
  co_tier_registry : TierRegistry;
  co_relation_edges : list RelationEdge;
  co_fingerprints : list ModFingerprint;
  co_migrated_manifest : option MigratedSchemaManifest }.

(** Every column is a column of text, whatever its storage type. *)
Definition build_record_batch_from_strings (spec : TableSpec) (rows : gmap string (list string))
  : ContentResult RecordBatch :=
  let fields := (fun c => mkField (col_name c) DUtf8 (col_nullable c)) <$> ts_columns spec in
  let? arrays := try_map (fun col =>
    let? values := ok_or (rows !! col_name col)
      (CompilationFailed (ts_name spec) ("missing column data: " +:+ col_name col)) in
    Ok (arr_of_values DUtf8 (SText <$> values) None)) (ts_columns spec) in
  map_err (fun e => CompilationFailed (ts_name spec) ("arrow batch error: " +:+ e)) (rb_try_new fields arrays).

Definition build_batches (def : RawTableDef) : ContentResult (list RecordBatch) :=
  if bool_decide (rt_rows def = ∅) then Ok []
  else
    let? batch := map_err (fun e => CompilationFailed (ts_name (rt_spec def)) (content_error_text e))
                    (build_record_batch_from_strings (rt_spec def) (rt_rows def)) in
    Ok [batch].

Definition compile_table (acc : ArrowStore V * SchemaRegistry) (def : RawTableDef)
  : ContentResult (ArrowStore V * SchemaRegistry) :=
  let failed what e := CompilationFailed (ts_name (rt_spec def)) (what +:+ e) in
  let? registry := map_err (fun e => failed "registry error: " (schema_error_text e)) (registry_register acc.2 (rt_spec def)) in
  let? (store, _) := map_err (fun e => failed "store error: " (store_error_text e)) (create_table acc.1 (rt_spec def) AppendOnly) in
  let? batches := build_batches def in
  let? store := map_err (fun e => failed "batch append error: " (store_error_text e))
                  (append_batches store (ts_name (rt_spec def)) tick_ZERO batches) in
  Ok (store, registry).

(** The manifest of a load: its tables must be there; its relations and fingerprints are taken over. *)
Definition compile_manifest (tables : list RawTableDef) (registry : SchemaRegistry) (migrated : MigratedSchemaManifest)
  : ContentResult (SchemaRegistry * list RelationEdge * list ModFingerprint) :=
  match List.find (fun t => negb (registry_contains registry (ts_name t))) (migrated_tables migrated) with
  | Some t => Err (CompilationFailed (ts_name t) "table from manifest not found in compiled output")
  | None =>
      let edges := migrated_relations migrated in
      let fps := sm_mod_fingerprints (mm_manifest migrated) in
      let? registry := map_err (fun e => CompilationFailed "schema_registry" ("set_migrated_manifest failed: " +:+ schema_error_text e))
                         (registry_set_migrated_manifest registry migrated) in
      let? registry := try_fold (fun registry edge =>
          map_err (fun e => CompilationFailed (edge_from edge) ("relation error: " +:+ schema_error_text e))
            (registry_add_relation registry edge)) registry edges in
      match default [] (graph_detect_cycles (sr_relations registry) (hash_order (graph_tables (sr_relations registry)))) with
      | c :: _ => Err (CompilationFailed "relation_graph" ("cycle detected: " +:+ debug_path c))
      | [] =>
          let fps := (fun fp => compute_hash debug_str fp "content_compilation" (rt_spec <$> tables)) <$> fps in
          let? registry := map_err (fun e => CompilationFailed "fingerprints" ("fingerprint storage error: " +:+ schema_error_text e))
                             (registry_store_mod_fingerprints registry fps) in
          Ok (registry, edges, fps)
      end
  end.

Definition compile_tier (tiers : TierRegistry) (def : RawTableDef) : ContentResult TierRegistry :=
  let name := ts_name (rt_spec def) in
  if bool_decide (ts_tier (rt_spec def) = Authority) then
    map_err (fun e => CompilationFailed name ("tier registration error: " +:+ core_error_text e))
      (tier_register tiers name Authority "content_loader" ("Compiled content table: " +:+ name))
  else Err (CompilationFailed name ("content compilation only supports Authority-tier tables; '" +:+ name
              +:+ "' has tier " +:+ tier_name (ts_tier (rt_spec def)))).

(** The overlays of the input are not used, and its resolver is passed on. *)
Definition compile (input : CompilationInput) : ContentResult CompilationOutput :=
  let? (store, registry) := try_fold compile_table (store_new, registry_new) (ci_tables input) in
  let? (registry, edges, fps) :=
    match ci_migrated_manifest input with
    | Some migrated => compile_manifest (ci_tables input) registry migrated
    | None => Ok (registry, [], [])
    end in
  let? tiers := try_fold compile_tier tier_new (ci_tables input) in
  Ok (mkOutput store (registry_freeze registry) (ci_resolver input) tiers edges fps (ci_migrated_manifest input)).
End compiler.
Arguments co_store {V AO}.
Arguments co_registry {V AO}.
Arguments co_resolver {V AO}.
Arguments co_tier_registry {V AO}.
Arguments co_relation_edges {V AO}.
Arguments co_fingerprints {V AO}.
Arguments co_migrated_manifest {V AO}.

(** ** Facts *)

(** The hash is a 64-bit word, and its text has at most sixteen digits. *)
Lemma hash_step_range h b : u64 h -> u64 (hash_step h b).
Proof.
  intros _. unfold hash_step. pose proof (wrap64_range (h * hash_prime)) as Hw. pose proof (N_ascii_bounded b) as Hb.
  set (x := wrap64 _) in *. set (y := Z.of_N (N_of_ascii b)) in *. assert (Hy : 0 <= y < two64) by (unfold y; unfold_width; lia).
  assert (H0 : 0 <= Z.lxor x y) by (apply Z.lxor_nonneg; lia). split; [done|].
  destruct (Z.eq_dec (Z.lxor x y) 0) as [->|Hne]; [unfold_width; lia|].
  assert (Z.lxor x y < two64); [|unfold_width; lia].
  apply Z.log2_lt_cancel. change (Z.log2 two64) with 64.
  pose proof (Z.log2_lxor x y ltac:(lia) ltac:(lia)). 
  assert (forall z, 0 <= z < two64 -> Z.log2 z < 64); [|assert (Z.log2 x < 64) by auto; assert (Z.log2 y < 64) by auto; lia].
  intros z Hz. destruct (Z.eq_dec z 0) as [->|]; [done|]. apply Z.log2_lt_pow2; [lia|]. exact (proj2 Hz).
Qed.
Lemma hash64_range data : u64 (hash64 data).
Proof.
  unfold hash64. assert (H : u64 hash_seed) by (unfold hash_seed; unfold_width; lia). revert H. generalize hash_seed.
  induction (bytes_of data) as [|b l IH]; intros h Hh; [done|]. cbn [foldl]. by apply IH, hash_step_range.
Qed.

(** The tables of a fingerprint and the specifications may come in any order, and the specifications
    of other mods do not matter: the hash is that of the mod's own tables. *)
Lemma filter_perm {A} (f : A -> bool) l k : l ≡ₚ k -> List.filter f l ≡ₚ List.filter f k.
Proof.
  induction 1 as [|x l k Hl IH|x y l|? ? ? ? IH1 ? IH2]; simpl; [done| | |by etrans].
  - destruct (f x); [by constructor|done].
  - destruct (f x), (f y); auto. apply perm_swap.
Qed.
Lemma filter_names (f : TableSpec -> bool) l : NoDup (ts_name <$> l) -> NoDup (ts_name <$> List.filter f l).
Proof.
  induction l as [|x l IH]; [done|]. cbn [fmap list_fmap List.filter]. intros [Hn Hl]%NoDup_cons.
  destruct (f x); [|by apply IH]. apply NoDup_cons. split; [|by apply IH].
  intros (y & E & Hy)%list_elem_of_fmap. apply Hn. rewrite E. apply list_elem_of_fmap. exists y. split; [done|].
  by apply list_elem_of_Filter in Hy as [? _].
Qed.

Lemma text_sort_perm l k : l ≡ₚ k -> sort_by_text (fun s : string => s) l = sort_by_text (fun s => s) k.
Proof.
  intros Hp. apply (StronglySorted_unique String.le); [apply (sort_by_text_sorted (fun s => s))..|].
  by rewrite !(sort_by_text_perm (fun s : string => s)).
Qed.

(** The content hash of a mod is that of its own tables: it depends neither on the order in which the
    mod lists them nor on that of the specifications, nor on the tables of other mods. *)
Theorem content_hash_is_canonical (debug_str : string -> string) (fp fp' : ModFingerprint) (seed : string)
    (specs specs' others : list TableSpec) :
  mf_mod_id fp = mf_mod_id fp' -> mf_version fp = mf_version fp' -> mf_table_specs fp ≡ₚ mf_table_specs fp' ->
  NoDup (ts_name <$> specs) -> (forall t, t ∈ others -> ts_name t ∉ mf_table_specs fp) -> specs' ≡ₚ others ++ specs ->
  mf_content_hash (compute_hash debug_str fp seed specs) = mf_content_hash (compute_hash debug_str fp' seed specs').
Proof.
  intros Hid Hver Htabs Hnd Hoth Hspecs.
  set (kept := fun l : list TableSpec => List.filter (fun s => bool_decide (ts_name s ∈ mf_table_specs fp)) l).
  assert (Hf : forall l, List.filter (fun s => bool_decide (ts_name s ∈ mf_table_specs fp')) l = kept l).
  { intros l. apply filter_ext. intros s. apply bool_decide_ext. by rewrite Htabs. }
  assert (Hk : kept others = []).
  { clear Hspecs. induction others as [|t others IH]; [done|]. unfold kept. cbn [List.filter].
    rewrite bool_decide_false by (apply Hoth; by left). apply IH. intros u Hu. apply Hoth. by right. }
  assert (Hs : sort_by_text ts_name (kept specs) = sort_by_text ts_name (kept specs')).
  { apply sort_by_text_order; [by apply filter_names|]. unfold kept. symmetry. rewrite (filter_perm _ _ _ Hspecs), List.filter_app.
    fold (kept others). fold (kept specs). by rewrite Hk. }
  unfold compute_hash, fingerprint_text. cbn [mf_content_hash mod_fingerprint_with_content_hash].
  rewrite Hf. fold (kept specs). rewrite Hs, Hid, Hver. change (@id string) with (fun s : string => s).
  by rewrite (text_sort_perm _ _ Htabs).
Qed.

(** *** What compiles, and to what *)

Section facts.
Context {V : Type} `{AO : ArrowOps} `{AL : !ArrowLaws} `{JR : JsonRead V} `{FT : FloatText}.
Context (hash_order : gset string -> list string) (debug_str : string -> string) (debug_path : list string -> string).
Context (hash_order_perm : forall s, hash_order s ≡ₚ elements s).

Definition def_name (def : RawTableDef) : string := ts_name (rt_spec def).

(** A table without data, or with data for each of its columns, of one length. *)
Definition buildable (def : RawTableDef) : Prop :=
  rt_rows def = ∅ \/
  (ts_columns (rt_spec def) <> [] /\ exists n, forall col, col ∈ ts_columns (rt_spec def) ->
     exists values, rt_rows def !! col_name col = Some values /\ length values = n).

(** The batch of a table: its columns hold the texts given for them. *)
Definition text_batch (def : RawTableDef) (b : RecordBatch) : Prop :=
  rb_schema b = (fun c => mkField (col_name c) DUtf8 (col_nullable c)) <$> ts_columns (rt_spec def) /\
  Forall2 (fun col a => exists values, rt_rows def !! col_name col = Some values
             /\ arr_cells a = (fun t => Some (SText t)) <$> values) (ts_columns (rt_spec def)) (rb_columns b).
Definition compiled_batches (def : RawTableDef) (batches : list RecordBatch) : Prop :=
  if bool_decide (rt_rows def = ∅) then batches = [] else exists b, batches = [b] /\ text_batch def b.

Lemma text_array_cells values : arr_cells (arr_of_values DUtf8 (SText <$> values) None) = (fun t => Some (SText t)) <$> values.
Proof.
  rewrite of_values_cells; [by rewrite <- list_fmap_compose|]. apply forallb_forall.
  intros x Hx%list_elem_of_In. by apply list_elem_of_fmap in Hx as (t & -> & _).
Qed.
Lemma text_array_ok values f : fld_data_type f = DUtf8 -> column_ok (length values) f (arr_of_values DUtf8 (SText <$> values) None).
Proof.
  intros Hf. split_and!; [by rewrite of_values_type| |].
  - by rewrite <- arr_cells_length, text_array_cells, length_fmap.
  - intros _. rewrite text_array_cells. by intros (t & ? & _)%list_elem_of_fmap.
Qed.

Lemma build_batches_spec def :
  match build_batches def with
  | Ok batches => buildable def /\ compiled_batches def batches
  | Err _ => ~ buildable def
  end.
Proof.
  unfold build_batches, compiled_batches, buildable. case_bool_decide as Hr; [auto|].
  unfold build_record_batch_from_strings. set (spec := rt_spec def). set (fields := _ <$> ts_columns spec).
  destruct (try_map _ (ts_columns spec)) as [arrays|e] eqn:E; cbn [map_err].
  - apply try_map_Ok in E.
    assert (Hcols : Forall2 (fun col a => exists values, rt_rows def !! col_name col = Some values
                       /\ a = arr_of_values DUtf8 (SText <$> values) None) (ts_columns spec) arrays).
    { eapply Forall2_impl; [exact E|]. intros col a Ha. cbn beta in Ha. destruct (rt_rows def !! col_name col) as [values|]; [|done].
      injection Ha as <-. by exists values. }
    destruct (rb_try_new fields arrays) as [b|e] eqn:Eb; cbn [map_err].
    + destruct (rb_try_new_ok _ _ _ Eb) as [Es Ec]. split.
      * right. destruct (rb_columns_ok b) as [Hne Hok]. rewrite Es, Ec in Hok. rewrite Ec in Hne. split.
        { intros Hnil. fold spec in Hnil. rewrite Hnil in Hcols. by inversion Hcols; subst. }
        exists (rb_num_rows b). intros col Hcol. apply list_elem_of_lookup in Hcol as [i Hi].
        destruct (Forall2_lookup_l _ _ _ _ _ Hcols Hi) as (a & Ha & values & Hv & ->). exists values. split; [done|].
        destruct (Forall2_lookup_r _ _ _ _ _ Hok Ha) as (f & _ & _ & Hlen & _).
        rewrite <- Hlen, <- arr_cells_length, text_array_cells. by rewrite length_fmap.
      * exists b. split; [done|]. split; [done|]. rewrite Ec. eapply Forall2_impl; [exact Hcols|].
        intros col a (values & Hv & ->). exists values. split; [done|]. apply text_array_cells.
    + intros [?|(Hne & n & Hn)]; [done|]. assert (Ht : is_ok (rb_try_new fields arrays) = true); [|by rewrite Eb in Ht].
      apply (rb_try_new_total _ _ n).
      { intros ->. apply Forall2_nil_inv_r in Hcols. done. }
      unfold fields. apply Forall2_fmap_l, Forall2_same_length_lookup_2; [by apply Forall2_length in Hcols|].
      intros i col a Hc Ha. destruct (Forall2_lookup_lr _ _ _ _ _ _ Hcols Hc Ha) as (values & Hv & ->).
      destruct (Hn col) as (v' & Hv' & <-); [by eapply list_elem_of_lookup_2|]. simplify_eq. by apply text_array_ok.
  - intros [?|(_ & n & Hn)]; [done|]. apply try_map_err in E as (col & Hcol & E). destruct (Hn col Hcol) as (values & Hv & _).
    by rewrite Hv in E.
Qed.

Definition compiled_table (def : RawTableDef) (batches : list RecordBatch) : VersionedTable :=
  vt_insert_version (vt_set_spec (vt_new (def_name def) AppendOnly) (rt_spec def)) tick_ZERO batches.

(** The loop over the tables, over a store and a registry of the same tables. *)
Lemma compile_tables_each defs : forall (s : ArrowStore V) r,
  init_guard s = Ok tt -> sr_frozen r = false -> (forall n, is_Some (as_tables s !! n) <-> is_Some (sr_tables r !! n)) ->
  match try_fold compile_table (s, r) defs with
  | Ok (s', r') =>
      tables_valid (sr_tables r) (rt_spec <$> defs) /\ Forall buildable defs /\ r' = with_tables r (sr_tables r')
      /\ (forall def, def ∈ defs -> sr_tables r' !! def_name def = Some (rt_spec def) /\ exists batches,
            compiled_batches def batches /\ as_tables s' !! def_name def = Some (compiled_table def batches))
      /\ (forall n, n ∉ def_name <$> defs -> sr_tables r' !! n = sr_tables r !! n /\ as_tables s' !! n = as_tables s !! n)
  | Err _ => ~ (tables_valid (sr_tables r) (rt_spec <$> defs) /\ Forall buildable defs)
  end.
Proof.
  induction defs as [|def defs IH]; intros s r Hg Hf Hdom; cbn [try_fold]; rewrite ?fmap_cons.
  { split_and!; [split; [constructor|by intros ? []%elem_of_nil]|constructor|by destruct r|by intros ? []%elem_of_nil|done]. }
  unfold compile_table at 1. cbn [fst snd]. pose proof (registry_register_spec r (rt_spec def) Hf) as Hreg.
  destruct (registry_register r (rt_spec def)) as [r1|e]; cbn [map_err].
  2:{ intros [[_ H] _]. apply Hreg, H. left. }
  destruct Hreg as [[Hne Hnone] ->]. unfold create_table at 1. rewrite Hg.
  assert (Hfree : as_tables s !! ts_name (rt_spec def) = None).
  { apply eq_None_not_Some. rewrite Hdom, Hnone. by intros []. }
  rewrite bool_decide_false by (rewrite Hfree; by intros []). cbn [map_err].
  pose proof (build_batches_spec def) as Hb. destruct (build_batches def) as [batches|e].
  2:{ intros [_ H]. apply Hb. by apply Forall_cons in H as [? _]. }
  destruct Hb as [Hbuild Hbatches]. unfold append_batches, get_entry, init_guard. cbn [as_lifecycle as_tables].
  unfold init_guard in Hg. destruct (lifecycle_is_simulation _) eqn:El; [done|]. rewrite lookup_insert_eq. cbn [ok_or map_err vt_versions vt_set_spec vt_new].
  rewrite lookup_empty. cbn [default from_option app].
  set (s1 := with_table _ _ _). set (r1 := with_tables r _).
  assert (Hs1 : as_tables s1 = <[def_name def := compiled_table def batches]> (as_tables s)).
  { unfold s1. cbn. by rewrite insert_insert_eq. }
  specialize (IH s1 r1). assert (Hdom1 : forall n, is_Some (as_tables s1 !! n) <-> is_Some (sr_tables r1 !! n)).
  { intros n. rewrite Hs1. unfold r1, def_name. cbn [sr_tables with_tables]. rewrite !lookup_insert_is_Some. by rewrite Hdom. }
  assert (Hg1 : init_guard s1 = Ok tt) by (unfold init_guard, s1; cbn; by rewrite El).
  specialize (IH Hg1 Hf Hdom1).
  assert (Hval : tables_valid (sr_tables r1) (rt_spec <$> defs) <-> tables_valid (sr_tables r) (rt_spec def :: (rt_spec <$> defs))).
  { unfold tables_valid, r1. cbn [sr_tables with_tables]. rewrite fmap_cons, NoDup_cons. split.
    - intros [Hnd Hts]. split; [split; [|done]|].
      + intros (u & Hu & Hin)%list_elem_of_fmap. apply Hts in Hin as [_ Hin]. by rewrite <- Hu, lookup_insert_eq in Hin.
      + intros u [->|Hu]%elem_of_cons; [done|]. apply Hts in Hu as [? Hu]. by apply lookup_insert_None in Hu as [? _].
    - intros [[Hni Hnd] Hts]. split; [done|]. intros u Hu. destruct (Hts u) as [? Hnu]; [by right|]. split; [done|].
      rewrite lookup_insert_ne; [done|]. intros E. apply Hni. apply list_elem_of_fmap. by exists u. }
  destruct (try_fold compile_table (s1, r1) defs) as [[s' r']|e].
  2:{ intros [H1 H2]. apply IH. split; [by apply Hval|by apply Forall_cons in H2 as [_ ?]]. }
  destruct IH as (Hv & Hall & Hr' & Hin & Hout). apply Hval in Hv. pose proof Hv as [Hni _]. rewrite fmap_cons, NoDup_cons in Hni. destruct Hni as [Hni _]. rewrite <- list_fmap_compose in Hni.
  split_and!; [done|by constructor|done| |].
  - intros d [->|Hd]%elem_of_cons; [|by apply Hin]. destruct (Hout (def_name def)) as [-> ->]; [done|].
    split; [unfold r1; cbn; by rewrite lookup_insert_eq|]. exists batches. split; [done|]. by rewrite Hs1, lookup_insert_eq.
  - intros n [Hnn Hnin]%not_elem_of_cons. destruct (Hout n Hnin) as [-> ->]. rewrite Hs1. unfold r1. cbn.
    split; by rewrite lookup_insert_ne.
Qed.

Lemma try_fold_each {E F S A} (f : S -> A -> result E S) (h : A -> E -> F) (l : list A) : forall s,
  match try_each f s l with
  | (s', Ok _) => try_fold (fun s x => map_err (h x) (f s x)) s l = Ok s'
  | (_, Err _) => exists e, try_fold (fun s x => map_err (h x) (f s x)) s l = Err e
  end.
Proof.
  induction l as [|x l IH]; intros s; cbn [try_each try_fold]; [done|].
  destruct (f s x) as [s1|e]; cbn [map_err]; [apply IH|by eexists].
Qed.

Lemma compile_tiers_each defs : forall tiers, NoDup (def_name <$> defs) -> (forall n, n ∈ def_name <$> defs -> tier_entries tiers !! n = None) ->
  match try_fold compile_tier tiers defs with
  | Ok tiers' => Forall (fun d => ts_tier (rt_spec d) = Authority) defs
      /\ (forall d, d ∈ defs -> tier_is_authority tiers' (def_name d) = true)
      /\ (forall n, n ∉ def_name <$> defs -> tier_entries tiers' !! n = tier_entries tiers !! n)
  | Err _ => ~ Forall (fun d => ts_tier (rt_spec d) = Authority) defs
  end.
Proof.
  induction defs as [|def defs IH]; intros tiers; cbn [try_fold]; [intros _ _; split_and!; [constructor|by intros d []%elem_of_nil|done]|].
  rewrite fmap_cons. intros [Hni Hnd]%NoDup_cons Hnone. unfold compile_tier at 1. fold (def_name def).
  case_bool_decide as Ht; [|by intros [? _]%Forall_cons].
  unfold tier_register. rewrite Hnone by left. cbn [map_err]. set (tiers1 := mkTierRegistry _).
  specialize (IH tiers1 Hnd). assert (Hn1 : forall n, n ∈ def_name <$> defs -> tier_entries tiers1 !! n = None).
  { intros n Hn. unfold tiers1. cbn. rewrite lookup_insert_ne by (intros <-; done). apply Hnone. by right. }
  specialize (IH Hn1). destruct (try_fold compile_tier tiers1 defs) as [tiers'|e]; [|by rewrite Forall_cons; intros [_ ?]].
  destruct IH as (Hall & Hin & Hout). split_and!; [by constructor| |].
  - intros d [->|Hd]%elem_of_cons; [|by apply Hin]. unfold tier_is_authority. rewrite Hout by done.
    unfold tiers1. cbn. by rewrite lookup_insert_eq.
  - intros n [Hne Hnin]%not_elem_of_cons. rewrite Hout by done. unfold tiers1. cbn. by rewrite lookup_insert_ne.
Qed.

(** What the code asks of the tables when there is the manifest of a load: the names in it are
    compiled, and its relations are valid among them. The columns, the version and the tier of a
    table are not compared with those of the manifest. *)
Definition manifest_names_known (names : string -> Prop) (migrated : MigratedSchemaManifest) : Prop :=
  (forall t, t ∈ migrated_tables migrated -> names (ts_name t)) /\ relations_valid names [] (migrated_relations migrated).

Lemma compile_manifest_spec defs r migrated : sr_frozen r = false -> sr_relations r = graph_new ->
  match compile_manifest hash_order debug_str debug_path defs r migrated with
  | Ok (r', edges, fps) =>
      manifest_names_known (fun n => is_Some (sr_tables r !! n)) migrated
      /\ edges = migrated_relations migrated /\ rg_edges (sr_relations r') = edges
      /\ fps = (fun fp => compute_hash debug_str fp "content_compilation" (rt_spec <$> defs)) <$> sm_mod_fingerprints (mm_manifest migrated)
      /\ sr_mod_fingerprints r' = fps /\ sr_tables r' = sr_tables r
  | Err _ => ~ manifest_names_known (fun n => is_Some (sr_tables r !! n)) migrated
  end.
Proof.
  intros Hf Hrel. unfold compile_manifest. destruct (List.find _ _) as [t|] eqn:Efind.
  { apply find_some in Efind as [Ht Hc]. intros [H _]. unfold registry_contains in Hc. case_bool_decide as Hn; [done|].
    apply Hn, H. by apply list_elem_of_In. }
  assert (Htab : forall t, t ∈ migrated_tables migrated -> is_Some (sr_tables r !! ts_name t)).
  { intros t Ht. apply list_elem_of_In in Ht. apply (find_none _ _ Efind) in Ht. unfold registry_contains in Ht. by case_bool_decide. }
  unfold registry_set_migrated_manifest. rewrite Hf. cbn [map_err]. set (r1 := with_migrated r migrated).
  pose proof (try_fold_each registry_add_relation
    (fun edge e => CompilationFailed (edge_from edge) ("relation error: " +:+ schema_error_text e)) (migrated_relations migrated) r1) as Heach.
  pose proof (add_relation_each r1 (migrated_relations migrated)) as Hadd. unfold r1 in Hadd at 1 2. cbn [sr_frozen sr_relations with_migrated] in Hadd.
  rewrite Hrel in Hadd. specialize (Hadd Hf graph_new_inv).
  destruct (try_each registry_add_relation r1 (migrated_relations migrated)) as [r2 [[]|e]].
  2:{ destruct Heach as [e' ->]. intros [_ H]. apply Hadd. by unfold r1; cbn [sr_tables sr_relations with_migrated]; rewrite Hrel. }
  rewrite Heach. destruct Hadd as (Hv & Hr2 & (Hwf & Hnd & Hac) & Hes).
  unfold r1 in Hv, Hes. cbn [sr_relations sr_tables with_migrated] in Hv, Hes. rewrite Hrel in Hv, Hes. cbn [rg_edges graph_new app] in Hv, Hes.
  destruct (detect_cycles_ok (sr_relations r2) (hash_order (graph_tables (sr_relations r2))) Hwf ltac:(apply hash_order_perm))
    as (cycles & -> & _ & Hcy).
  rewrite (proj2 Hcy Hac). cbn [default from_option id].
  assert (Hf2 : sr_frozen r2 = false /\ sr_tables r2 = sr_tables r) by (rewrite Hr2; done). destruct Hf2 as [Hf2 Ht2].
  unfold registry_store_mod_fingerprints. rewrite Hf2. cbn [map_err]. split_and!; [by split|done|done|done|done|done].
Qed.

Definition input_valid (input : CompilationInput) : Prop :=
  let specs := rt_spec <$> ci_tables input in
  tables_valid ∅ specs /\ Forall buildable (ci_tables input) /\ Forall (fun d => ts_tier (rt_spec d) = Authority) (ci_tables input) /\
  match ci_migrated_manifest input with
  | Some migrated => manifest_names_known (fun n => n ∈ def_name <$> ci_tables input) migrated
  | None => True
  end.

Definition compiles_to (input : CompilationInput) (out : CompilationOutput) : Prop :=
  (forall def, def ∈ ci_tables input ->
     sr_tables (co_registry out) !! def_name def = Some (rt_spec def)
     /\ tier_is_authority (co_tier_registry out) (def_name def) = true
     /\ exists batches, compiled_batches def batches
          /\ as_tables (co_store (V := V) out) !! def_name def = Some (compiled_table def batches)) /\
  (forall n, n ∉ def_name <$> ci_tables input ->
     sr_tables (co_registry out) !! n = None /\ tier_entries (co_tier_registry out) !! n = None /\ as_tables (co_store out) !! n = None) /\
  sr_frozen (co_registry out) = true /\
  co_relation_edges out = rg_edges (sr_relations (co_registry out)) /\
  co_relation_edges out = from_option migrated_relations [] (ci_migrated_manifest input) /\
  co_fingerprints out = sr_mod_fingerprints (co_registry out) /\
  co_fingerprints out = from_option (fun m => (fun fp => compute_hash debug_str fp "content_compilation" (rt_spec <$> ci_tables input))
                                       <$> sm_mod_fingerprints (mm_manifest m)) [] (ci_migrated_manifest input).

Lemma manifest_names_iff (P Q : string -> Prop) migrated : (forall n, P n <-> Q n) -> manifest_names_known P migrated <-> manifest_names_known Q migrated.
Proof. intros H. unfold manifest_names_known, relations_valid. repeat setoid_rewrite H. done. Qed.

(** C11: Content compiles exactly when its tables are of the authority tier, have distinct names and
    data for all of their columns or none, and, when there is the manifest of a load, the tables it
    names are all compiled and its relations are valid among them (the columns are not compared: see
    [mismatched_manifest_compiles]); the store, the registry, the tiers, the relations and the
    fingerprints that come out are those of the input, and of nothing else. *)
Theorem compile_exact (input : CompilationInput) :
  match compile (V := V) hash_order debug_str debug_path input with
  | Ok out => input_valid input /\ compiles_to input out
  | Err _ => ~ input_valid input
  end.
Proof.
  unfold compile, input_valid, compiles_to. set (defs := ci_tables input).
  assert (Hdom : forall n, is_Some (as_tables (store_new (V := V)) !! n) <-> is_Some (sr_tables registry_new !! n)).
  { intros n. cbn. rewrite !lookup_empty. split; by intros []. }
  pose proof (compile_tables_each defs store_new registry_new eq_refl eq_refl Hdom) as Ht.
  destruct (try_fold compile_table (store_new, registry_new) defs) as [[s r]|e]; [|by intros (H1 & H2 & _); apply Ht].
  destruct Ht as (Hval & Hbuild & Hr & Hin & Hout).
  assert (Hnames : def_name <$> defs = ts_name <$> (rt_spec <$> defs)) by (by rewrite <- list_fmap_compose).
  assert (Hnd : NoDup (def_name <$> defs)) by (rewrite Hnames; apply Hval).
  assert (Hsome : forall n, is_Some (sr_tables r !! n) <-> n ∈ def_name <$> defs).
  { intros n. destruct (decide (n ∈ def_name <$> defs)) as [Hn|Hn].
    - split; [done|]. intros _. apply list_elem_of_fmap in Hn as (d & -> & Hd). destruct (Hin d Hd) as [-> _]. by eexists.
    - destruct (Hout n Hn) as [-> _]. cbn. rewrite lookup_empty. split; [by intros []|done]. }
  assert (Hf : sr_frozen r = false /\ sr_relations r = graph_new /\ sr_mod_fingerprints r = []) by (by rewrite Hr). destruct Hf as (Hf & Hg & Hm).
  assert (Htier : forall n, n ∈ def_name <$> defs -> tier_entries tier_new !! n = None) by (intros; apply lookup_empty).
  pose proof (compile_tiers_each defs tier_new Hnd Htier) as Hti.
  destruct (ci_migrated_manifest input) as [migrated|].
  - pose proof (compile_manifest_spec defs r migrated Hf Hg) as Hman.
    assert (Hfits := manifest_names_iff _ _ migrated Hsome).
    destruct (compile_manifest _ _ _ defs r migrated) as [[[r' edges] fps]|e]; [|by intros (_ & _ & _ & H); apply Hman, Hfits].
    destruct Hman as (Hfit & He & Hre & Hfp & Hrf & Hrt).
    destruct (try_fold compile_tier tier_new defs) as [tiers|e]; [|by intros (_ & _ & H & _)].
    destruct Hti as (Ha & Hti1 & Hti2). split; [split_and!; [done|done|done|by apply Hfits]|].
    cbn [co_registry co_store co_tier_registry co_relation_edges co_fingerprints registry_freeze sr_tables sr_frozen sr_relations sr_mod_fingerprints from_option].
    rewrite Hrt. split_and!; [|intros n Hn; destruct (Hout n Hn) as [-> ->]; rewrite Hti2 by done; done|done|done|done|done|done].
    intros d Hd. destruct (Hin d Hd) as [H1 H2]. by split_and!; [|apply Hti1|].
  - destruct (try_fold compile_tier tier_new defs) as [tiers|e]; [|by intros (_ & _ & H & _)].
    destruct Hti as (Ha & Hti1 & Hti2). split; [by split_and!|].
    cbn [co_registry co_store co_tier_registry co_relation_edges co_fingerprints registry_freeze sr_tables sr_frozen sr_relations sr_mod_fingerprints from_option].
    rewrite Hg, Hm. split_and!; [|intros n Hn; destruct (Hout n Hn) as [-> ->]; rewrite Hti2 by done; done|done|done|done|done|done].
    intros d Hd. destruct (Hin d Hd) as [H1 H2]. by split_and!; [|apply Hti1|].
Qed.
End facts.
