(* ===== verification/CompilationSamples.v ===== *)
(** * CompilationSamples: content compiled over vectors

    Two tables under a manifest with a relation and a mod; and what the compiler does not do: the
    overlays of its input change nothing, integers are stored as texts, and the rows it loads cannot
    be addressed, and a table with other columns than the manifest's compiles. *)

From Stdlib Require Import Ascii String.
From stdpp Require Import base gmap strings list fin_maps sorting.
From Stdlib Require Import ZArith Lia.
From S2P Require Import Prelude RustStr CoreTypes SchemaTables Relations Registry Journal Content.
From S2P Require Import RuleCore Rules Arrow ArrowVec ArrowBatch ArrowBatchFacts StoreIndex ArrowStore StoreRows StoreSamples ErrorText Disk SaveErrors Compilation.

Definition text_spec (name column storage : string) : TableSpec :=
  table_rebuild_index (mkTable name [mkColumn column SemId storage false] ∅ Authority).
Definition country_def : RawTableDef := mkRawTable (text_spec "country" "id" "i64") {["id" := ["7"; "8"]]}.
Definition province_def : RawTableDef := mkRawTable (text_spec "province" "owner" "i64") ∅.
Definition base_mod : ModFingerprint := mkModFingerprint "base" "1.0" ["province"; "country"] "".
Definition content_manifest : MigratedSchemaManifest :=
  migrated_new (mkManifest "1.0" [text_spec "country" "id" "i64"]
    [mkEdge "province" "country" OneToMany "owner" None] [base_mod] ∅) "1.0".
Definition sample_input : CompilationInput :=
  input_with_migrated_manifest (input_with_table (input_with_table input_new country_def) province_def) content_manifest.
Definition vcompile (i : CompilationInput) : ContentResult (CompilationOutput (V := Json)) :=
  compile elements (fun s => s) (String.concat ",") i.

Lemma compile_exact_witness :
  exists out, vcompile sample_input = Ok out /\ input_valid sample_input
    /\ compiles_to (fun s => s) sample_input out.
Proof.
  pose proof (compile_exact (V := Json) elements (fun s => s) (String.concat ",") (fun s => reflexivity _) sample_input) as H.
  assert (Hok : is_ok (vcompile sample_input) = true) by (vm_compute; reflexivity).
  unfold vcompile in *. destruct (compile _ _ _ sample_input) as [out|e]; [|discriminate Hok].
  exists out. split; [reflexivity|exact H].
Defined.

Lemma content_hash_is_canonical_witness :
  let country := text_spec "country" "id" "i64" in let province := text_spec "province" "owner" "i64" in
  let reversed := mkModFingerprint "base" "1.0" ["country"; "province"] "" in
  mf_content_hash (compute_hash (fun s => s) base_mod "content_compilation" [country; province])
  = mf_content_hash (compute_hash (fun s => s) reversed "content_compilation" [province; text_spec "army" "id" "i64"; country]).
Proof.
  intros country province reversed.
  apply (content_hash_is_canonical (fun s => s) base_mod reversed "content_compilation" [country; province]
    [province; text_spec "army" "id" "i64"; country] [text_spec "army" "id" "i64"]).
  - reflexivity.
  - reflexivity.
  - apply perm_swap.
  - apply (bool_decide_unpack _). vm_compute. exact I.
  - intros t Ht. apply list_elem_of_singleton in Ht as ->. apply (bool_decide_unpack _). vm_compute. exact I.
  - etrans; [apply perm_swap|]. apply perm_skip, perm_swap.
Defined.

(** The text that is hashed for a mod of one table. *)
Example hashed_text :
  fingerprint_text (fun s => s) (mkModFingerprint "base" "1.0" ["country"] "") "seed" [text_spec "country" "id" "i64"]
  = "base:1.0:country:seed:country|id=i64:Id".
Proof. reflexivity. Qed.
Example hash_of_empty_text : show_hex (hash64 "") = "517cc1b727220a95" /\ show_hex (hash64 "a") = "9907bf377ed7fb4e".
Proof. vm_compute. split; reflexivity. Qed.

(** The overlays of the input change nothing, and the resolver comes out as it went in. *)
Example overlays_are_ignored (i : CompilationInput) (o : OverlayResolver) :
  vcompile (input_with_overlays i o) = vcompile i
  /\ forall out, vcompile i = Ok out -> co_resolver out = ci_resolver i.
Proof.
  split; [reflexivity|]. intros out. unfold vcompile, compile.
  destruct (try_fold compile_table _ _) as [[s r]|]; [|done].
  destruct (match ci_migrated_manifest i with Some _ => _ | None => _ end) as [[[r' e] f]|]; [|done].
  destruct (try_fold compile_tier _ _); [|done]. by intros [= <-].
Qed.

(** A table of the same name with other columns than those of the manifest is compiled: the content
    has a country with a name where the manifest has one with an id. *)
Definition other_manifest : MigratedSchemaManifest :=
  migrated_new (mkManifest "1.0" [text_spec "country" "name" "utf8"] [] [base_mod] ∅) "1.0".
Example mismatched_manifest_compiles :
  is_ok (vcompile (input_with_migrated_manifest (input_with_table input_new country_def) other_manifest)) = true
  /\ (col_name <$> ts_columns (rt_spec country_def)) = ["id"]
  /\ (fun t => col_name <$> ts_columns t) <$> migrated_tables other_manifest = [["name"]].
Proof. vm_compute. split_and!; reflexivity. Qed.

(** What the compiled table of countries looks like: its specification, the type of its column, whether
    its first row can be updated. *)
Definition country_report (r : ContentResult (CompilationOutput (V := Json))) : option (list string * list DataType * option bool) :=
  match r with
  | Err _ => None
  | Ok out =>
      table ← as_tables (co_store out) !! "country";
      let types := (fun b => fld_data_type <$> rb_schema b) <$> default [] (vt_get_version table tick_ZERO) in
      Some (col_storage_type <$> from_option ts_columns [] (vt_spec table), concat types,
            outcome (apply_diff map_orders map_orders (co_store out) (mkTick 0) (Update "country" (mkRowId 0) "id" (JInt 9))))
  end.
Example integers_are_stored_as_text : country_report (vcompile sample_input) = Some (["i64"], [DUtf8], Some false).
Proof. vm_compute. reflexivity. Qed.
