(* ===== verification/QuerySql.v ===== *)
(** * QuerySql: SQL over the published tables, and SQL writes for debugging

    Models [sql_interface.rs] and the SQL part of [engine.rs] of [scharnhorst_query]. DataFusion runs
    the queries: a third-party crate, so its sessions are a class; what the engine relies on is that a
    session holds the tables registered with it. What DataFusion answers is left open: a query may
    call [random()] or [now()], and without an ORDER BY its rows come in any order. The upper case of a text is an
    argument (the tables of the Unicode standard), and so is the order of a hash map. *)

From Stdlib Require Import Ascii String.
From stdpp Require Import base gmap strings list fin_maps sorting.
From Stdlib Require Import ZArith Lia.
From S2P Require Import Prelude RustStr CoreTypes SchemaTables Relations Registry Journal RuleCore Float64 Rules Arrow ArrowVec.
From S2P Require Import ArrowBatch ArrowBatchFacts StoreIndex ArrowStore WorldView ReadViews ErrorText QueryEngine Inspector DebugTools.
From S2P Require Import SqlParser SaveErrors.

(** [SessionContext] and [DataFrame]; [empty_batch] has no column. *)
Class SqlOps `{AO : ArrowOps} := {
  SessionContext : Type;
  DataFrame : Type;
  empty_batch : RecordBatch;
  session_new : SessionContext;
  session_register : SessionContext -> string -> RecordBatch -> result string SessionContext;
  session_deregister : SessionContext -> string -> result string SessionContext;
  session_sql : SessionContext -> string -> SessionContext * result string DataFrame;
  df_collect : DataFrame -> result string (list RecordBatch) }.

Section sql.
Context `{AO : ArrowOps} `{CO : !ConcatOps} `{SQ : !SqlOps} `{FT : FloatText}.

(** ** The execution context *)

(** The batches of a table as one. *)
Definition merge_batches (batches : list RecordBatch) : QueryResult RecordBatch :=
  match batches with
  | [] => Ok empty_batch
  | b :: _ => map_err QDataFusion (rb_concat (rb_schema b) batches)
  end.

Record SqlExecutionContext := mkSqlContext { sx_ctx : SessionContext; sx_tables : gset string }.
Definition sql_context_new : SqlExecutionContext := mkSqlContext session_new ∅.

Definition sql_register_table (c : SqlExecutionContext) (name : string) (batches : list RecordBatch)
  : QueryResult SqlExecutionContext :=
  if bool_decide (name = "") then Err (QInvalidQuery "cannot register table with empty name")
  else
    let? merged := merge_batches batches in
    let? ctx := map_err QDataFusion (session_register (sx_ctx c) name merged) in
    Ok (mkSqlContext ctx ({[name]} ∪ sx_tables c)).
Definition sql_unregister_table (c : SqlExecutionContext) (name : string) : QueryResult SqlExecutionContext :=
  let? ctx := map_err QDataFusion (session_deregister (sx_ctx c) name) in
  Ok (mkSqlContext ctx (sx_tables c ∖ {[name]})).

(** A query may change the session. *)
Definition context_execute_sql (c : SqlExecutionContext) (sql : string) : SqlExecutionContext * QueryResult (list RecordBatch) :=
  let '(ctx, df) := session_sql (sx_ctx c) sql in
  (mkSqlContext ctx (sx_tables c),
   let? df := map_err QDataFusion df in map_err QDataFusion (df_collect df)).
Definition execute_sql_limited (c : SqlExecutionContext) (sql : string) (limit : Z)
  : SqlExecutionContext * QueryResult (list RecordBatch) :=
  context_execute_sql c ("SELECT * FROM (" +:+ sql +:+ ") LIMIT " +:+ show_u64 limit).
Definition registered_tables (c : SqlExecutionContext) : QueryResult (list string) :=
  Ok (merge_sort String.le (elements (sx_tables c))).

Record PreparedSql := mkPrepared { ps_sql : string }.
Definition prepared_execute (p : PreparedSql) (c : SqlExecutionContext) : SqlExecutionContext * QueryResult (list RecordBatch) :=
  context_execute_sql c (ps_sql p).

(** ** Queries of the engine *)

Context (to_uppercase : string -> string).
Context (cache_order : gmap string TableReadView -> list (string * TableReadView)).

(** The statement to run, when the text is one query. *)
Definition single_query (sql : string) : QueryResult string :=
  let sql_trimmed := trim sql in
  if bool_decide (sql_trimmed = "") then Err (QSqlNotAllowed "empty SQL statement")
  else
    let? cleaned := strip_single_trailing_statement_semicolon sql_trimmed in
    let word := to_uppercase (str (first_word (lit cleaned))) in
    if negb (bool_decide (word = "SELECT")) && negb (bool_decide (word = "WITH"))
    then Err (QSqlNotAllowed ("only SELECT/WITH queries are allowed, got: " +:+ word))
    else Ok cleaned.

Definition register_view (ctx : SessionContext) (entry : string * TableReadView) : QueryResult SessionContext :=
  let? merged := merge_batches (tv_batches entry.2) in
  map_err QDataFusion (session_register ctx entry.1 merged).

(** Each query has a session of its own. *)
Definition engine_sql (q : QueryEngine) (sql : string) : QueryResult RecordBatch :=
  let? cleaned := single_query sql in
  let? ctx := try_fold register_view session_new (cache_order (qn_view_cache q)) in
  let? df := map_err (fun e => QSql ("DataFusion error: " +:+ e)) (session_sql ctx cleaned).2 in
  let? batches := map_err (fun e => QSql ("DataFusion error: " +:+ e)) (df_collect df) in
  merge_batches batches.

(** ** The inspector of the engine *)

Definition inspect_table_summary (q : QueryEngine) (name : string) : option (QueryResult TableSummary) :=
  match cached_view q name with
  | Err e => Some (Err e)
  | Ok view => summarize_table (qn_inspector q) name (tv_batches view)
  end.
Definition inspect_table_page (q : QueryEngine) (name : string) (page_index page_size : Z) : QueryResult InspectorPage :=
  let? view := cached_view q name in
  inspect_page (qn_inspector q) name (tv_batches view) page_index page_size.
End sql.

(** ** Writes *)

Section writes.
Context {V : Type} `{JO : JsonOps V} `{JI : JsonInteger V} `{JR : JsonRead V} `{DT : DebugText}.
Context `{SO : StoreOps V} `{QO : !QueryOps V} `{VO : SaveOps V}.

(** The debug journal of the engine and the journal, with the outcome; [None] is a panic of the parser. *)
Definition execute_sql_write (debug : DebugWriteJournal) (sql : string) (j : Journal) (tick : Tick)
  : option (DebugWriteJournal * Journal * QueryResult unit) :=
  stmt ← sql_parse sql;
  let diff :=
    let? stmt := map_err (fun e => QSqlWrite ("SQL parse error: " +:+ journal_error_text e)) stmt in
    map_err (fun e => QSqlWrite ("SQL to Diff error: " +:+ journal_error_text e)) (statement_to_diff stmt) in
  match diff with
  | Err e => Some (debug, j, Err e)
  | Ok diff =>
      let debug := debug_journal_record debug (diff_to_debug_write_op diff tick) in
      Some match journal_submit_diff j diff with
           | Ok j => (debug, j, Ok tt)
           | Err e => (debug, j, Err (QSqlWrite ("journal submit error: " +:+ journal_error_text e)))
           end
  end.
End writes.

(** ** What a query reads *)

(** [session_tables] is what a session holds, by the references DataFusion makes of the names:
    nothing at first, then what was registered last under each. *)
Class SqlLaws `{SQ : SqlOps} := {
  table_ref : string -> string;
  session_tables : SessionContext -> gmap string RecordBatch;
  session_new_tables : session_tables session_new = ∅;
  session_register_ok c name b c' : session_register c name b = Ok c' ->
    session_tables c' = <[table_ref name := b]> (session_tables c) }.

Section facts.
Context `{AO : ArrowOps} `{CO : !ConcatOps} `{CL : !ConcatLaws} `{SQ : !SqlOps} `{SL : !SqlLaws}.
Context (to_uppercase : string -> string).
Context (cache_order : gmap string TableReadView -> list (string * TableReadView)).
Context (cache_order_perm : forall m, cache_order m ≡ₚ map_to_list m).

Lemma merge_rows batches m : batches <> [] -> merge_batches batches = Ok m -> rb_rows m = batches ≫= rb_rows.
Proof.
  destruct batches as [|b batches]; [done|]. intros _. unfold merge_batches.
  destruct (rb_concat _ _) as [m'|] eqn:E; cbn [map_err]; [|done]. intros [= <-]. by apply rb_concat_ok in E as [_ ?].
Qed.

Lemma register_views_spec entries : forall c c', try_fold register_view c entries = Ok c' ->
  NoDup ((fun e => table_ref e.1) <$> entries) ->
  (forall e, e ∈ entries -> exists m, merge_batches (tv_batches e.2) = Ok m /\ session_tables c' !! table_ref e.1 = Some m) /\
  (forall n, n ∉ (fun e => table_ref e.1) <$> entries -> session_tables c' !! n = session_tables c !! n).
Proof.
  induction entries as [|e entries IH]; intros c c' H Hnd; cbn [try_fold] in H; [injection H as <-; split; [by intros ? []%elem_of_nil|done]|].
  rewrite fmap_cons, NoDup_cons in Hnd. destruct Hnd as [Hni Hnd].
  unfold register_view at 1 in H. destruct (merge_batches (tv_batches e.2)) as [m|] eqn:Em; [|done].
  destruct (session_register c e.1 m) as [c1|] eqn:Ec; cbn [map_err] in H; [|done]. apply session_register_ok in Ec.
  destruct (IH c1 c' H Hnd) as [H1 H2]. split.
  - intros e' [->|He]%elem_of_cons; [|by apply H1]. exists m. split; [done|]. by rewrite H2, Ec, lookup_insert_eq.
  - intros n [Hne Hnin]%not_elem_of_cons. by rewrite H2, Ec, lookup_insert_ne by done.
Qed.

End facts.
