(* ===== verification/QuerySqlSamples.v ===== *)
(** * QuerySqlSamples: a query and a write

    A session that answers [SELECT * FROM t] with the table [t] stands for DataFusion. *)

From Stdlib Require Import Ascii String.
From stdpp Require Import base gmap strings list fin_maps sorting.
From Stdlib Require Import ZArith Lia.
From S2P Require Import Prelude RustStr CoreTypes SchemaTables Relations Registry Journal RuleCore Float64 Rules RuleSamples.
From S2P Require Import Arrow ArrowVec ArrowBatch ArrowBatchFacts StoreIndex ArrowStore StoreRows StoreSamples WorldView ReadViews ErrorText.
From S2P Require Import QueryEngine Inspector DebugTools ReadSamples SqlParser SqlFacts Disk SaveErrors StoreCheckpointSamples QuerySql.

#[local] Existing Instances text_unread text_integer plain_debug.

Definition no_rows : VecBatch := default (exist _ (key_fields, [mkVec DUInt64 [] [] false]) eq_refl) (key_batch []).

#[export] Instance TableSql : SqlOps (AO := VecArrow) := {|
  SessionContext := gmap string VecBatch;
  DataFrame := list VecBatch;
  empty_batch := no_rows;
  session_new := ∅;
  session_register m name (b : VecBatch) := Ok (<[name := b]> m : gmap string VecBatch);
  session_deregister m name := Ok (delete name m : gmap string VecBatch);
  session_sql m sql :=
    (m, match strip_prefix (bytes_of sql) (bytes_of "SELECT * FROM ") with
        | Some t => match (m : gmap string VecBatch) !! string_of_list_ascii t with
                    | Some b => Ok [b] | None => Err "table not found" end
        | None => Err "parse error" end);
  df_collect bs := Ok bs |}.

#[export] Instance TableSqlLaws : SqlLaws.
Proof.
  unshelve eapply Build_SqlLaws; [exact (fun name => name)|exact (fun m => m)|..].
  - reflexivity.
  - intros c name b c'. cbn. by intros [= <-].
Defined.

(** An engine that has published the keys of an army, in two batches. *)
Definition army_view : TableReadView := mkView "army" (mkTick 3) first_keys (table_new "army") rpm_new.
Definition keys_engine : QueryEngine := with_cache (engine_new registry_new) {["army" := army_view]}.
Definition upper (s : string) : string := str (to_ascii_uppercase (lit s)).
Definition vsql (sql : string) : QueryResult RecordBatch := engine_sql upper map_orders keys_engine sql.

Definition answer_keys (r : QueryResult RecordBatch) : option (list Z) :=
  match r with Ok b => Some (keys_of b) | Err _ => None end.

Example army_rows : answer_keys (vsql " select * from army; ") = None /\ answer_keys (vsql " SELECT * FROM army; ") = Some [7; 8; 9].
Proof. split; vm_compute; reflexivity. Qed.
Example queries_only :
  vsql "DELETE FROM army" = Err (QSqlNotAllowed "only SELECT/WITH queries are allowed, got: DELETE")
  /\ vsql "SELECT 1; SELECT 2" = Err (QSqlNotAllowed "multi-statement SQL not allowed").
Proof. split; reflexivity. Qed.


(** A write the journal refuses is recorded as if it had been made. *)
Example refused_write_is_recorded :
  let j := with_phase (sample_journal false []) PhaseCommitting in
  (fun r => (r.1.1, r.2)) <$> execute_sql_write (V := string) (debug_journal_new 4) "DELETE FROM army WHERE id = 7" j (mkTick 2)
  = Some (mkDebugJournal 4 [WDelete "army" (mkTick 2) []] true,
          Err (QSqlWrite "journal submit error: submit failed: commit already in progress")).
Proof. vm_compute. reflexivity. Qed.
