(* ===== verification/InspectorPanels.v ===== *)
(** * InspectorPanels: what the panels of the inspector load

    Models the data side of the panels of [scharnhorst_inspector]: what [reload], [load_tick_data] and
    [poll_diffs] read from the query engine and keep. The drawing, the mouse and the layout of the
    graph are calls of a user-interface crate and are left out. [None] is an iterator out of fuel. *)

From Stdlib Require Import Ascii String.
From stdpp Require Import base gmap strings list fin_maps sorting.
From Stdlib Require Import ZArith Lia.
From S2P Require Import Prelude RustStr CoreTypes SchemaTables Relations Registry Journal RuleCore Float64 Arrow ArrowVec ArrowBatch.
From S2P Require Import ArrowBatchFacts StoreIndex ArrowStore WorldView ReadViews QueryEngine DebugTools.

Section panels.
Context `{AO : ArrowOps} `{CO : !ConcatOps} `{FT : FloatText}.

(** ** Tables *)

(** A cell: the first getter whose type fits. *)
Definition or_null {A} (show : A -> string) (v : option A) : string := from_option show "NULL" v.
Definition cell_text (row : WorldViewRow) (i : nat) : string :=
  match wr_get_i64 row i with Ok v => or_null show_i64 v | Err _ =>
  match wr_get_f64 row i with Ok v => or_null show_f64 v | Err _ =>
  match wr_get_string row i with Ok v => or_null (fun s => s) v | Err _ =>
  match wr_get_bool row i with Ok v => or_null (fun b : bool => if b then "true" else "false") v | Err _ => "?"
  end end end end.
Definition row_text (columns : nat) (row : WorldViewRow) : list string := cell_text row <$> seq 0 columns.

(** The loop over the rows, which [count] bounds by [max_rows]. *)
Fixpoint panel_rows (room columns : nat) (it : WorldViewRowIter) : option (list (list string)) :=
  match room with
  | O => Some []
  | S room =>
      '(it, row) ← row_iter_next it;
      match row with
      | None => Some []
      | Some row => rows ← panel_rows room columns it; Some (row_text columns row :: rows)
      end
  end.

(** The columns and rows of a table of a snapshot. *)
Definition load_table_data (w : WorldView) (max_rows : nat) (table : string) : option (list string * list (list string)) :=
  let columns := match wv_column_names w table with Ok cols => cols | Err _ => [] end in
  rows ← match wv_iter_rows w table with
         | Ok it => panel_rows max_rows (length columns) it
         | Err _ => Some []
         end;
  Some (columns, rows).

Record TablePanel := mkTablePanel {
  tp_selected_table : option string; tp_table_names : list string; tp_columns : list string;
  tp_row_data : list (list string); tp_max_rows : nat; tp_needs_reload : bool }.
Definition table_panel_new : TablePanel := mkTablePanel None [] [] [] 200 true.
Definition table_panel_set_selected (p : TablePanel) (name : option string) : TablePanel :=
  mkTablePanel name (tp_table_names p) (tp_columns p) (tp_row_data p) (tp_max_rows p) true.

(** Without a table or a snapshot the panel is empty, and still to be loaded. *)
Definition table_panel_reload (p : TablePanel) (q : QueryEngine) : option TablePanel :=
  let empty := mkTablePanel (tp_selected_table p) (tp_table_names p) [] [] (tp_max_rows p) (tp_needs_reload p) in
  match tp_selected_table p, engine_snapshot q with
  | Some table, Ok w =>
      '(columns, rows) ← load_table_data w (tp_max_rows p) table;
      Some (mkTablePanel (tp_selected_table p) (tp_table_names p) columns rows (tp_max_rows p) false)
  | _, _ => Some empty
  end.

(** ** Snapshots *)

Record SnapshotBrowserPanel := mkBrowser {
  sb_viewing_tick : Z; sb_current_sim_tick : Z; sb_max_known_tick : Z; sb_selected_table : option string;
  sb_table_names : list string; sb_columns : list string; sb_rows : list (list string);
  sb_needs_load : bool; sb_max_rows : nat }.
Definition browser_new : SnapshotBrowserPanel := mkBrowser 0 0 0 None [] [] [] true 200.
Definition set_viewing_tick (p : SnapshotBrowserPanel) (tick : Z) : SnapshotBrowserPanel :=
  mkBrowser tick (sb_current_sim_tick p) (sb_max_known_tick p) (sb_selected_table p) (sb_table_names p) (sb_columns p)
    (sb_rows p) true (sb_max_rows p).
Definition browser_set_selected (p : SnapshotBrowserPanel) (name : option string) : SnapshotBrowserPanel :=
  mkBrowser (sb_viewing_tick p) (sb_current_sim_tick p) (sb_max_known_tick p) name (sb_table_names p) (sb_columns p)
    (sb_rows p) true (sb_max_rows p).

Definition load_tick_data (p : SnapshotBrowserPanel) (q : QueryEngine) : option SnapshotBrowserPanel :=
  match engine_snapshot q with
  | Err _ =>
      Some (mkBrowser (sb_viewing_tick p) (sb_current_sim_tick p) (sb_max_known_tick p) (sb_selected_table p)
              (sb_table_names p) [] [] (sb_needs_load p) (sb_max_rows p))
  | Ok w =>
      let current := tick_as_u64 (wv_tick w) in
      let known := if sb_max_known_tick p <? current then current else sb_max_known_tick p in
      let viewing := if known <? sb_viewing_tick p then known else sb_viewing_tick p in
      let viewing := if viewing =? 0 then known else viewing in
      '(columns, rows) ← match sb_selected_table p with
                         | Some table => load_table_data w (sb_max_rows p) table
                         | None => Some ([], [])
                         end;
      Some (mkBrowser viewing current known (sb_selected_table p) (wv_table_names w) columns rows false (sb_max_rows p))
  end.

(** ** Relations *)

Record GraphEdge := mkGraphEdge { ge_from : string; ge_to : string; ge_relation_name : string }.

(** [{:?}] of a kind *)
Definition kind_debug (k : RelationKind) : string :=
  match k with OneToMany => "OneToMany" | ManyToMany => "ManyToMany" | Composition => "Composition" end.

Definition registry_edges (reg : SchemaRegistry) (table_names : list string) : list GraphEdge :=
  (fun e => mkGraphEdge (edge_from e) (edge_to e) (edge_from_column e +:+ " (" +:+ kind_debug (edge_kind e) +:+ ")")) <$>
  List.filter (fun e => bool_decide (edge_from e ∈ table_names) && bool_decide (edge_to e ∈ table_names))
    (rg_edges (sr_relations reg)).

(** The table a column is taken to refer to. *)
Definition inferred_target (col : string) : option string :=
  let l := list_ascii_of_string col in
  match strip_prefix l (list_ascii_of_string "fk_") with
  | Some t => Some (string_of_list_ascii t)
  | None => string_of_list_ascii <$> strip_suffix l (list_ascii_of_string "_id")
  end.
Definition inferred_edges (w : WorldView) (table_names : list string) : list GraphEdge :=
  table_names ≫= fun table =>
    match wv_column_names w table with
    | Err _ => []
    | Ok columns =>
        omap (fun col =>
          target ← inferred_target col;
          if bool_decide (target ∈ table_names) && negb (bool_decide (target = table))
          then Some (mkGraphEdge table target col) else None) columns
    end.

(** The names of the nodes, and the edges; the positions of the nodes are left out. *)
Record RelationGraphPanel := mkGraphPanel {
  gp_nodes : list string; gp_edges : list GraphEdge; gp_needs_reload : bool }.
Definition graph_panel_new : RelationGraphPanel := mkGraphPanel [] [] true.
Definition graph_panel_reload (p : RelationGraphPanel) (q : QueryEngine) : RelationGraphPanel :=
  match engine_snapshot q with
  | Err _ => mkGraphPanel [] [] (gp_needs_reload p)
  | Ok w =>
      let table_names := wv_table_names w in
      let edges := match registry_edges (qn_registry q) table_names with
                   | [] => inferred_edges w table_names
                   | edges => edges
                   end in
      mkGraphPanel table_names edges false
  end.

(** ** Diffs *)

Record DiffEntry := mkDiffEntry { de_tick : Z; de_table : string; de_kind : string; de_summary : string }.
Definition MAX_ENTRIES : nat := 500.
Record DiffPanel := mkDiffPanel {
  dp_entries : list DiffEntry; dp_filter_table : option string; dp_auto_scroll : bool;
  dp_table_names : list string; dp_last_tick : Z; dp_seen_summary_count : nat }.
Definition diff_panel_new : DiffPanel := mkDiffPanel [] None true [] 0 0.
Definition set_filter_table (p : DiffPanel) (filter : option string) : DiffPanel :=
  mkDiffPanel (dp_entries p) filter (dp_auto_scroll p) (dp_table_names p) (dp_last_tick p) (dp_seen_summary_count p).
Definition diff_panel_clear (p : DiffPanel) : DiffPanel :=
  mkDiffPanel [] (dp_filter_table p) (dp_auto_scroll p) (dp_table_names p) (dp_last_tick p) 0.

Definition tick_entry (tick : Z) : DiffEntry := mkDiffEntry tick "" "TICK" ("Tick " +:+ show_u64 tick +:+ " boundary").
Definition summary_entry (s : DiffSummary) : DiffEntry :=
  mkDiffEntry (ds_tick s) (ds_table_name s) (ds_diff_kind s) (ds_summary s).

(** [summaries] is what the ring of the engine holds. *)
Definition poll_diffs (p : DiffPanel) (q : QueryEngine) (summaries : list DiffSummary) : DiffPanel :=
  match engine_snapshot q with
  | Err _ => p
  | Ok w =>
      let current := tick_as_u64 (wv_tick w) in
      let new_tick := dp_last_tick p <? current in
      let entries := dp_entries p ++ (if new_tick then [tick_entry current] else []) in
      let entries := entries ++ (summary_entry <$> drop (dp_seen_summary_count p) summaries) in
      mkDiffPanel (newest_entries MAX_ENTRIES entries) (dp_filter_table p) (dp_auto_scroll p)
        (if new_tick then wv_table_names w else dp_table_names p)
        (if new_tick then current else dp_last_tick p)
        (if (dp_seen_summary_count p <? length summaries)%nat then length summaries else dp_seen_summary_count p)
  end.

(** What the filter shows. *)
Definition shown_entries (p : DiffPanel) : list DiffEntry :=
  match dp_filter_table p with
  | Some table => List.filter (fun e => bool_decide (de_table e = table) || bool_decide (de_kind e = "TICK")) (dp_entries p)
  | None => dp_entries p
  end.
End panels.

(** ** The tabs *)

(** A panel is its name. *)
Record InspectorApp := mkApp { ia_panels : list string; ia_active_panel : nat }.
Definition inspector_app_new : InspectorApp := mkApp [] 0.
Definition register_panel (a : InspectorApp) (panel : string) : InspectorApp := mkApp (ia_panels a ++ [panel]) (ia_active_panel a).
Definition panel_count (a : InspectorApp) : nat := length (ia_panels a).
Definition standard_panels : InspectorApp :=
  foldl register_panel inspector_app_new ["Table Viewer"; "Diff Stream"; "Relation Graph"; "Snapshot Browser"].

(** ** Facts *)

Section facts.
Context `{AO : ArrowOps} `{CO : !ConcatOps} `{FT : FloatText}.

Lemma panel_rows_take room columns : forall it,
  panel_rows room columns it = Some (take room (row_text columns <$> rows_left it)).
Proof.
  induction room as [|room IH]; intros it; [done|]. cbn [panel_rows].
  pose proof (row_iter_next_spec it) as H. destruct (rows_left it) as [|r rs]; destruct H as (it' & -> & Hl); cbn [mbind option_bind]; [done|].
  by rewrite IH, Hl.
Qed.

Lemma load_table_data_spec w max_rows table batches : snapshot_table_batches (wv_snapshot w) table = Ok batches ->
  exists columns, wv_column_names w table = Ok columns /\
    load_table_data w max_rows table
    = Some (columns, take max_rows (row_text (length columns) <$> (batches ≫= batch_rows_of))).
Proof.
  intros Hb. unfold load_table_data, wv_column_names, wv_iter_rows. rewrite Hb. cbn [map_ok].
  set (cols := match batches with [] => _ | first :: _ => _ end).
  assert (exists columns, cols = Ok columns) as [columns E] by (unfold cols; destruct batches; by eexists).
  rewrite E. exists columns. split; [done|]. by rewrite panel_rows_take, rows_left_new.
Qed.

(** A table panel that is reloaded shows the columns of its table in the published snapshot, and its
    first rows, each once and in order, as many as the panel holds. *)
Theorem panel_shows_rows (p : TablePanel) (q : QueryEngine) (w : WorldView) (table : string) (batches : list RecordBatch) :
  tp_selected_table p = Some table -> engine_snapshot q = Ok w -> snapshot_table_batches (wv_snapshot w) table = Ok batches ->
  exists p' columns, table_panel_reload p q = Some p' /\ tp_needs_reload p' = false
  /\ wv_column_names w table = Ok columns /\ tp_columns p' = columns
  /\ tp_row_data p' = take (tp_max_rows p) (row_text (length columns) <$> (batches ≫= batch_rows_of)).
Proof.
  intros Hs Hw Hb. destruct (load_table_data_spec w (tp_max_rows p) table batches Hb) as (columns & Hc & Hl).
  unfold table_panel_reload. rewrite Hs, Hw, Hl. cbn [mbind option_bind]. by eexists _, columns.
Qed.

(** Scrubbing does not go back in time: whatever tick is viewed, the browser loads the published snapshot. *)
Lemma browser_shows_latest p q tick : (fun p' => (sb_columns p', sb_rows p')) <$> load_tick_data (set_viewing_tick p tick) q
  = (fun p' => (sb_columns p', sb_rows p')) <$> load_tick_data p q.
Proof.
  unfold load_tick_data. destruct (engine_snapshot q) as [w|]; [|done]. cbn [sb_selected_table sb_max_rows set_viewing_tick].
  destruct (match sb_selected_table p with Some _ => _ | None => _ end) as [[columns rows]|]; done.
Qed.

(** The viewed tick stays among the known ones, which cover the published tick. *)
Lemma browser_tick_known p q w p' : engine_snapshot q = Ok w -> load_tick_data p q = Some p' ->
  sb_viewing_tick p' <= sb_max_known_tick p' /\ tick_as_u64 (wv_tick w) <= sb_max_known_tick p'
  /\ sb_max_known_tick p <= sb_max_known_tick p'.
Proof.
  intros Hw. unfold load_tick_data. rewrite Hw. set (t := tick_as_u64 (wv_tick w)).
  destruct (match sb_selected_table p with Some _ => _ | None => _ end) as [[columns rows]|]; [|done].
  cbn [mbind option_bind]. intros [= <-]. cbn [sb_viewing_tick sb_max_known_tick].
  destruct (Z.ltb_spec (sb_max_known_tick p) t) as [H|H];
    repeat (match goal with |- context [?a <? ?b] => destruct (Z.ltb_spec a b) | |- context [?a =? ?b] => destruct (Z.eqb_spec a b) end); lia.
Qed.

(** A column whose name has both marks loses only the first. *)
Lemma both_marks_keep_the_suffix : inferred_target "fk_hero_id" = Some "hero_id" /\ inferred_target "fk_hero" = Some "hero"
  /\ inferred_target "hero_id" = Some "hero" /\ inferred_target "name" = None.
Proof. by vm_compute. Qed.

(** The edges of the graph join tables of the snapshot; names are only guessed from when the registry
    has no relation between them. *)
Lemma graph_edges_between_tables p q e : e ∈ gp_edges (graph_panel_reload p q) ->
  ge_from e ∈ gp_nodes (graph_panel_reload p q) /\ ge_to e ∈ gp_nodes (graph_panel_reload p q).
Proof.
  unfold graph_panel_reload. destruct (engine_snapshot q) as [w|]; [|by intros ?%elem_of_nil]. cbn [gp_edges gp_nodes].
  set (names := wv_table_names w). destruct (registry_edges (qn_registry q) names) as [|e0 es] eqn:E.
  - intros He. apply list_elem_of_bind in He as (table & He & Ht). destruct (wv_column_names w table) as [columns|]; [|by apply elem_of_nil in He].
    apply list_elem_of_omap in He as (col & _ & Hc). destruct (inferred_target col) as [target|]; [|done]. cbn [mbind option_bind] in Hc.
    destruct (bool_decide (target ∈ names)) eqn:Ei; [|done]. apply bool_decide_eq_true in Ei.
    destruct (negb _); [|done]. cbn in Hc. by injection Hc as <-.
  - rewrite <- E. intros (r & -> & Hr)%list_elem_of_fmap. apply list_elem_of_Filter in Hr as [_ [H1 H2]%andb_true_iff].
    apply bool_decide_eq_true in H1, H2. done.
Qed.

(** *** The stream of diffs *)

(** What happens between the frames: diffs are committed, or the panel polls. *)
Inductive StreamStep := Commit (summaries : list DiffSummary) | Poll (q : QueryEngine).
Definition stream_step (s : DiffSummaryRing * DiffPanel) (step : StreamStep) : option (DiffSummaryRing * DiffPanel) :=
  match step with
  | Commit summaries => ring ← ring_push s.1 summaries; Some (ring, s.2)
  | Poll q => Some (s.1, poll_diffs s.2 q (dr_entries s.1))
  end.
Fixpoint stream_run (s : DiffSummaryRing * DiffPanel) (steps : list StreamStep) : option (DiffSummaryRing * DiffPanel) :=
  match steps with
  | [] => Some s
  | step :: steps => s ← stream_step s step; stream_run s steps
  end.
Definition committed (steps : list StreamStep) : list DiffSummary :=
  steps ≫= fun step => match step with Commit summaries => summaries | Poll _ => [] end.

Definition is_diff_entry (e : DiffEntry) : bool := negb (bool_decide (de_kind e = "TICK")).
Definition diff_entries (p : DiffPanel) : list DiffEntry := List.filter is_diff_entry (dp_entries p).

(** A panel that has seen a full ring never shows another diff. *)
Lemma full_ring_stalls steps : forall ring panel ring' panel',
  (0 < dr_capacity ring)%nat -> (length (dr_entries ring) <= dr_capacity ring)%nat ->
  dp_seen_summary_count panel = dr_capacity ring ->
  stream_run (ring, panel) steps = Some (ring', panel') ->
  dp_seen_summary_count panel' = dr_capacity ring /\ diff_entries panel' `suffix_of` diff_entries panel.
Proof.
  assert (Htrim : forall n (l : list DiffEntry), newest_entries n l `suffix_of` l).
  { intros n l. exists (take (length l - n) l). unfold newest_entries. by rewrite take_drop. }
  assert (Hsuf : forall (k l : list DiffEntry), k `suffix_of` l -> List.filter is_diff_entry k `suffix_of` List.filter is_diff_entry l).
  { intros k l [pre ->]. exists (List.filter is_diff_entry pre). by rewrite List.filter_app. }
  induction steps as [|step steps IH]; intros ring panel ring' panel' Hc Hl Hs H; cbn [stream_run] in H; [by injection H as <- <-|].
  destruct step as [summaries|q]; cbn [stream_step fst snd] in H.
  - destruct (ring_push_newest ring summaries Hc) as (ring1 & E & Hcap & He). rewrite E in H. cbn [mbind option_bind] in H.
    rewrite <- Hcap. apply (IH ring1 panel ring' panel'); [lia| |congruence|done].
    destruct (decide (summaries = [])) as [->|Hne]; [cbn in E; by injection E as <-|].
    rewrite He, newest_length, Hcap by done. lia.
  - cbn [mbind option_bind] in H. set (panel1 := poll_diffs panel q (dr_entries ring)) in *.
    assert (Hp : dp_seen_summary_count panel1 = dr_capacity ring /\ diff_entries panel1 `suffix_of` diff_entries panel).
    { unfold panel1, poll_diffs. destruct (engine_snapshot q) as [w|]; [|by split]. cbn [dp_seen_summary_count]. rewrite Hs.
      destruct (Nat.ltb_spec (dr_capacity ring) (length (dr_entries ring))); [lia|]. split; [done|].
      unfold diff_entries. cbn [dp_entries]. rewrite drop_ge by lia. cbn [fmap list_fmap]. rewrite app_nil_r.
      etrans; [apply Hsuf, Htrim|]. rewrite List.filter_app. destruct (_ <? _); cbn; by rewrite app_nil_r. }
    destruct Hp as [Hp1 Hp2]. destruct (IH ring panel1 ring' panel' Hc Hl Hp1 H) as [H1 H2]. split; [done|by etrans].
Qed.

Lemma summaries_are_diffs (l : list DiffSummary) : Forall (fun s => ds_diff_kind s <> "TICK") l ->
  List.filter is_diff_entry (summary_entry <$> l) = summary_entry <$> l.
Proof.
  induction 1 as [|x l Hx _ IH]; [done|]. cbn [fmap list_fmap List.filter]. unfold is_diff_entry at 1. cbn [de_kind summary_entry].
  rewrite bool_decide_false by done. cbn [negb]. by f_equal.
Qed.

(** A poll that fits shows every diff the ring holds. *)
Lemma poll_shows p q w old : engine_snapshot q = Ok w -> (dp_seen_summary_count p <= length old)%nat ->
  diff_entries p = summary_entry <$> take (dp_seen_summary_count p) old ->
  (length (dp_entries p) + 1 + (length old - dp_seen_summary_count p) <= MAX_ENTRIES)%nat ->
  Forall (fun s => ds_diff_kind s <> "TICK") old ->
  let p1 := poll_diffs p q old in
  dp_seen_summary_count p1 = length old /\ diff_entries p1 = summary_entry <$> old
  /\ (length (dp_entries p1) <= length (dp_entries p) + 1 + (length old - dp_seen_summary_count p))%nat.
Proof.
  intros Ew Hseen Hp Hfit Hk p1. unfold p1, poll_diffs. rewrite Ew. clear p1. unfold diff_entries. cbn [dp_seen_summary_count dp_entries].
  set (ticks := if dp_last_tick p <? _ then _ else _). set (news := drop _ old).
  assert (Hl : (length ticks <= 1)%nat) by (unfold ticks; case_match; cbn; lia).
  assert (Ht : List.filter is_diff_entry ticks = []) by (unfold ticks; by case_match).
  assert (Hn : (length ((dp_entries p ++ ticks) ++ (summary_entry <$> news))
                <= length (dp_entries p) + 1 + (length old - dp_seen_summary_count p))%nat)
    by (rewrite !length_app, length_fmap; unfold news; rewrite length_drop; lia).
  rewrite newest_all by lia. split; [|split; [|done]].
  - destruct (Nat.ltb_spec (dp_seen_summary_count p) (length old)); lia.
  - rewrite !List.filter_app, Ht, app_nil_r. fold (diff_entries p).
    rewrite summaries_are_diffs by (by apply Forall_drop). unfold news. by rewrite Hp, <- fmap_app, take_drop.
Qed.

(** A cleared panel shows the diffs of the ring again at the next poll. *)
Lemma cleared_shows_again p q w old : engine_snapshot q = Ok w -> (length old < MAX_ENTRIES)%nat ->
  Forall (fun s => ds_diff_kind s <> "TICK") old ->
  diff_entries (poll_diffs (diff_panel_clear p) q old) = summary_entry <$> old.
Proof. intros Hw Hl Hk. eapply poll_shows; try done; cbn [dp_seen_summary_count dp_entries diff_panel_clear length]; lia. Qed.

(** While no more diffs were committed than the ring and the panel hold, a poll shows all of them. *)
Lemma stream_shows steps : forall ring panel ring' panel' old,
  (0 < dr_capacity ring)%nat -> dr_entries ring = old ->
  diff_entries panel = summary_entry <$> take (dp_seen_summary_count panel) old -> (dp_seen_summary_count panel <= length old)%nat ->
  (length (old ++ committed steps) <= dr_capacity ring)%nat ->
  (length (dp_entries panel) + length steps + length (old ++ committed steps) <= MAX_ENTRIES + dp_seen_summary_count panel)%nat ->
  Forall (fun s => ds_diff_kind s <> "TICK") (old ++ committed steps) ->
  stream_run (ring, panel) steps = Some (ring', panel') ->
  diff_entries panel' = summary_entry <$> take (dp_seen_summary_count panel') (old ++ committed steps)
  /\ dr_entries ring' = old ++ committed steps.
Proof.
  induction steps as [|step steps IH]; intros ring panel ring' panel' old Hc He Hp Hseen Hl Hm Hk H; cbn [stream_run] in H.
  { injection H as <- <-. cbn. by rewrite app_nil_r. }
  destruct step as [summaries|q]; cbn [stream_step fst snd] in H.
  - change (committed (Commit summaries :: steps)) with (summaries ++ committed steps) in *. rewrite app_assoc in *.
    destruct (ring_push_newest ring summaries Hc) as (ring1 & E & Hcap & He1). rewrite E in H. cbn [mbind option_bind length] in *.
    assert (Hr1 : dr_entries ring1 = old ++ summaries).
    { destruct (decide (summaries = [])) as [->|Hne]; [cbn in E; injection E as <-; by rewrite app_nil_r|].
      rewrite He1, He by done. apply newest_all. rewrite !length_app in *. lia. }
    apply (IH ring1 panel ring' panel'); try done; try lia; [by rewrite Hp, take_app_le|rewrite length_app; lia].
  - change (committed (Poll q :: steps)) with (committed steps) in *. cbn [mbind option_bind length] in *. rewrite He in H.
    destruct (engine_snapshot q) as [w|] eqn:Ew.
    2:{ assert (poll_diffs panel q old = panel) as Eq by (unfold poll_diffs; by rewrite Ew). rewrite Eq in H.
        apply (IH ring panel ring' panel' old); try done. lia. }
    destruct (poll_shows panel q w old) as (H1 & H2 & H3); try done.
    { rewrite length_app in Hm. lia. }
    { by apply Forall_app in Hk as [? _]. }
    apply (IH ring (poll_diffs panel q old) ring' panel' old); try done; try lia. by rewrite H1, firstn_all.
Qed.
End facts.
