(* ===== verification/SaveMigrations.v ===== *)
(** * SaveMigrations: the migration pipelines of the save system, and manifests of the content crate

    Models [migration.rs] of [scharnhorst_save] and the helpers of [manifest.rs] of
    [scharnhorst_content] that do not serialize. A step's closure is a parameter: it maps a table or
    refuses it; what it leaves of a table it refuses is discarded with the loop's copy. The loop of
    [apply] has fuel; [None] is fuel running out, which [pipeline_apply_exact] excludes. *)

From Stdlib Require Import Ascii String.
From stdpp Require Import base gmap strings list.
From Stdlib Require Import ZArith Lia.
From S2P Require Import Prelude RustStr CoreTypes SchemaTables Relations Registry SaveErrors.

(** ** Manifests *)

(** [names] is the order in which the registry's map yields the names of its tables. *)
Definition manifest_from_registry (r : SchemaRegistry) (names : list string)
    (fingerprints : list ModFingerprint) (engine_version : string) : SchemaManifest :=
  let tables := omap (fun name => match registry_get r name with Ok t => Some t | Err _ => None end) names in
  let m := manifest_with_metadata (manifest_new engine_version) "engine_version" engine_version in
  let m := foldl manifest_with_table m tables in
  let m := foldl manifest_with_relation m (rg_edges (sr_relations r)) in
  foldl manifest_with_mod_fingerprint m fingerprints.

Definition manifest_engine_version (m : SchemaManifest) : string :=
  default (sm_schema_version m) (sm_metadata m !! "engine_version").

(** [entries] is the metadata in the order of its map. *)
Definition migrated_from_manifest (entries : gmap string string -> list (string * string))
    (m : SchemaManifest) (target_version : string) : MigratedSchemaManifest :=
  let n := manifest_new target_version in
  let n := foldl manifest_with_table n (sm_tables m) in
  let n := foldl manifest_with_relation n (sm_relations m) in
  let n := foldl manifest_with_mod_fingerprint n (sm_mod_fingerprints m) in
  let n := foldl (fun n kv => manifest_with_metadata n kv.1 kv.2) n (entries (sm_metadata m)) in
  migrated_new n (sm_schema_version m).

Definition migrated_table_by_name (m : MigratedSchemaManifest) (name : string) : option TableSpec :=
  manifest_get_table (mm_manifest m) name.
Definition migrated_target_version (m : MigratedSchemaManifest) : string := sm_schema_version (mm_manifest m).

(** ** Pipelines *)

Record MigrationStep := mkMigrationStep {
  ms_from_version : string; ms_to_version : string; ms_migrate_table : TableSpec -> SaveResult TableSpec }.

Record MigrationPipeline := mkPipeline { mp_steps : list MigrationStep; mp_target_version : string }.

Definition pipeline_new (target_version : string) : MigrationPipeline := mkPipeline [] target_version.
Definition pipeline_register (p : MigrationPipeline) (s : MigrationStep) : MigrationPipeline :=
  mkPipeline (mp_steps p ++ [s]) (mp_target_version p).
Definition pipeline_is_up_to_date (p : MigrationPipeline) (version : string) : bool :=
  bool_decide (version = mp_target_version p).
Definition pipeline_step_count (p : MigrationPipeline) : nat := length (mp_steps p).

Definition next_step (p : MigrationPipeline) (version : string) : option MigrationStep :=
  List.find (fun s => bool_decide (ms_from_version s = version)) (mp_steps p).

(** [for table in &mut tables { (next_step.migrate_table)(table)...?; }] *)
Definition migrate_tables (s : MigrationStep) (tables : list TableSpec) : SaveResult (list TableSpec) :=
  try_map (fun t => map_err (fun e => SvMigrationFailed (ms_from_version s) (ms_to_version s) (save_error_text e))
                      (ms_migrate_table s t)) tables.

Fixpoint pipeline_loop (p : MigrationPipeline) (original : string) (fuel : nat) (version : string)
    (tables : list TableSpec) (applied : nat) : option (SaveResult (list TableSpec)) :=
  match fuel with
  | O => None
  | S fuel =>
      if bool_decide (version = mp_target_version p) then Some (Ok tables)
      else match next_step p version with
           | None => Some (Err (SvNoMigrationPath version))
           | Some s =>
               match migrate_tables s tables with
               | Err e => Some (Err e)
               | Ok tables =>
                   let applied := S applied in
                   if (length (mp_steps p) + 1 <? applied)%nat
                   then Some (Err (SvMigrationFailed original (mp_target_version p) "migration cycle detected"))
                   else pipeline_loop p original fuel (ms_to_version s) tables applied
               end
           end
  end.

(** One iteration per step applied: one more than the steps there are, and the one that ends. *)
Definition pipeline_fuel (p : MigrationPipeline) : nat := (length (mp_steps p) + 2)%nat.

Definition pipeline_build (p : MigrationPipeline) (m : SchemaManifest) (tables : list TableSpec) : MigratedSchemaManifest :=
  let n := foldl manifest_with_table (manifest_new (mp_target_version p)) tables in
  migrated_new (foldl manifest_with_relation n (sm_relations m)) (sm_schema_version m).

Definition pipeline_apply (p : MigrationPipeline) (m : SchemaManifest) : option (SaveResult MigratedSchemaManifest) :=
  map_ok (pipeline_build p m) <$> pipeline_loop p (sm_schema_version m) (pipeline_fuel p) (sm_schema_version m) (sm_tables m) 0.

(** ** Pipelines by target version *)

Record PipelineRegistry := mkPipelines { pr_pipelines : gmap string MigrationPipeline }.
Definition pipelines_new : PipelineRegistry := mkPipelines ∅.
Definition pipelines_register (r : PipelineRegistry) (p : MigrationPipeline) : PipelineRegistry :=
  mkPipelines (<[mp_target_version p := p]> (pr_pipelines r)).
Definition pipelines_get (r : PipelineRegistry) (target_version : string) : option MigrationPipeline :=
  pr_pipelines r !! target_version.
Definition pipelines_migrate (r : PipelineRegistry) (m : SchemaManifest) (target_version : string)
  : option (SaveResult MigratedSchemaManifest) :=
  match pipelines_get r target_version with
  | None => Some (Err (SvNoMigrationPath target_version))
  | Some p => pipeline_apply p m
  end.

(** ** Specification *)

(** The steps from a version to the target: at each version the first step registered from it. *)
Inductive leads (p : MigrationPipeline) : string -> list MigrationStep -> Prop :=
| leads_target : leads p (mp_target_version p) []
| leads_step v s path :
    v <> mp_target_version p -> next_step p v = Some s -> leads p (ms_to_version s) path -> leads p v (s :: path).

(** The tables taken through the steps. *)
Fixpoint migrate_along (path : list MigrationStep) (tables : list TableSpec) : SaveResult (list TableSpec) :=
  match path with
  | [] => Ok tables
  | s :: path => let? tables := migrate_tables s tables in migrate_along path tables
  end.

(** ** Facts *)

Lemma next_step_from p v s : next_step p v = Some s -> ms_from_version s = v /\ s ∈ mp_steps p.
Proof. intros [H1 H2%bool_decide_eq_true]%find_some. split; [done|]. by apply list_elem_of_In. Qed.

Lemma leads_det p v path1 : leads p v path1 -> forall path2, leads p v path2 -> path1 = path2.
Proof.
  induction 1 as [|v s path1 Hv Hs Hp IH]; intros path2 H2; inversion H2; subst; try done.
  simplify_eq. f_equal. auto.
Qed.

(** A version on the way has its own, shorter way. *)
Lemma leads_suffix p v path : leads p v path -> forall w, w ∈ ms_from_version <$> path ->
  exists path', leads p w path' /\ (length path' <= length path)%nat.
Proof.
  induction 1 as [|v s path Hv Hs Hp IH]; intros w Hw; [by apply elem_of_nil in Hw|].
  apply elem_of_cons in Hw as [->|Hw].
  - destruct (next_step_from p v s Hs) as [E _]. rewrite E. exists (s :: path). split; [by econstructor|done].
  - destruct (IH w Hw) as (path' & H1 & H2). exists path'. split; [done|]. simpl. lia.
Qed.

Lemma leads_length p v path : leads p v path -> (length path <= length (mp_steps p))%nat.
Proof.
  intros Hp. rewrite <- (length_fmap ms_from_version path), <- (length_fmap ms_from_version (mp_steps p)).
  apply submseteq_length, NoDup_submseteq.
  - induction Hp as [|v s path Hv Hs Hp IH]; [constructor|]. cbn. constructor; [|done]. intros Hin.
    destruct (leads_suffix p _ path Hp _ Hin) as (path' & H1 & H2).
    destruct (next_step_from p v s Hs) as [E _]. rewrite E in H1.
    rewrite <- (leads_det p v (s :: path) ltac:(by econstructor) path' H1) in H2. simpl in H2. lia.
  - intros w (s & -> & Hs)%list_elem_of_fmap. apply list_elem_of_fmap_2.
    clear -Hp Hs. induction Hp as [|v s' path Hv Hn Hp IH]; [by apply elem_of_nil in Hs|].
    apply elem_of_cons in Hs as [->|Hs]; [by apply (next_step_from p v)|auto].
Qed.

Section loop.
Context (p : MigrationPipeline) (original : string).

Lemma loop_leads v path : leads p v path -> forall fuel tables applied,
  (length path < fuel)%nat -> (applied + length path <= length (mp_steps p) + 1)%nat ->
  pipeline_loop p original fuel v tables applied = Some (migrate_along path tables).
Proof.
  induction 1 as [|v s path Hv Hs Hp IH]; intros [|fuel] tables applied Hf Ha; simpl in Hf, Ha; try lia; cbn [pipeline_loop].
  - by rewrite bool_decide_true.
  - rewrite bool_decide_false, Hs by done. cbn [migrate_along]. destruct (migrate_tables s tables); [|done].
    destruct (Nat.ltb_spec (length (mp_steps p) + 1) (S applied)); [lia|]. apply IH; lia.
Qed.

Lemma loop_ends fuel v tables applied :
  (length (mp_steps p) + 2 <= fuel + applied)%nat -> (applied <= length (mp_steps p) + 1)%nat ->
  exists r, pipeline_loop p original fuel v tables applied = Some r.
Proof.
  revert v tables applied. induction fuel as [|fuel IH]; intros v tables applied H1 H2; [lia|]. cbn [pipeline_loop].
  case_bool_decide; [by eexists|]. destruct (next_step p v) as [s|]; [|by eexists].
  destruct (migrate_tables s tables); [|by eexists].
  destruct (Nat.ltb_spec (length (mp_steps p) + 1) (S applied)); [by eexists|]. apply IH; lia.
Qed.

Lemma loop_ok fuel v tables applied t :
  pipeline_loop p original fuel v tables applied = Some (Ok t) -> exists path, leads p v path.
Proof.
  revert v tables applied. induction fuel as [|fuel IH]; intros v tables applied H; [done|]. cbn [pipeline_loop] in H.
  case_bool_decide as Hv; [subst; eexists; constructor|]. destruct (next_step p v) as [s|] eqn:Es; [|done].
  destruct (migrate_tables s tables); [|done]. destruct (_ <? _)%nat; [done|].
  destruct (IH _ _ _ H) as [path Hp]. exists (s :: path). by constructor.
Qed.
End loop.

(** C30: Applying a pipeline ends. When the first step registered from each version leads to the target,
    the tables go through those steps, at most one per step registered, and the result is the manifest
    of the target version with those tables and the old relations, or the first refusal; when it does
    not lead there the result is an error, so the cycle check refuses nothing that would have ended.
    (Other steps from a version are never tried: the way followed need not be the shortest.) *)
Theorem pipeline_apply_exact (p : MigrationPipeline) (m : SchemaManifest) :
  exists r, pipeline_apply p m = Some r
  /\ (forall path, leads p (sm_schema_version m) path ->
       (length path <= length (mp_steps p))%nat /\ r = map_ok (pipeline_build p m) (migrate_along path (sm_tables m)))
  /\ ((forall path, ~ leads p (sm_schema_version m) path) -> is_ok r = false).
Proof.
  unfold pipeline_apply. set (v := sm_schema_version m).
  destruct (loop_ends p v (pipeline_fuel p) v (sm_tables m) 0) as [r E]; [unfold pipeline_fuel; lia|lia|].
  rewrite E. exists (map_ok (pipeline_build p m) r). split; [done|]. split.
  - intros path Hp. pose proof (leads_length p v path Hp) as Hl. split; [done|].
    rewrite (loop_leads p v v path Hp) in E by (unfold pipeline_fuel; lia). by injection E as <-.
  - intros Hn. destruct r as [t|e]; [|done]. apply loop_ok in E as [path Hp]. by destruct (Hn path).
Qed.

(** A copy to another version keeps everything but the version. *)
Lemma foldl_with_table m ts : foldl manifest_with_table m ts
  = mkManifest (sm_schema_version m) (sm_tables m ++ ts) (sm_relations m) (sm_mod_fingerprints m) (sm_metadata m).
Proof.
  revert m. induction ts as [|t ts IH]; intros m; cbn [foldl]; [rewrite app_nil_r; by destruct m|].
  rewrite IH. cbn. by rewrite <- app_assoc.
Qed.
Lemma foldl_with_relation m es : foldl manifest_with_relation m es
  = mkManifest (sm_schema_version m) (sm_tables m) (sm_relations m ++ es) (sm_mod_fingerprints m) (sm_metadata m).
Proof.
  revert m. induction es as [|t es IH]; intros m; cbn [foldl]; [rewrite app_nil_r; by destruct m|].
  rewrite IH. cbn. by rewrite <- app_assoc.
Qed.
Lemma foldl_with_fingerprint m fs : foldl manifest_with_mod_fingerprint m fs
  = mkManifest (sm_schema_version m) (sm_tables m) (sm_relations m) (sm_mod_fingerprints m ++ fs) (sm_metadata m).
Proof.
  revert m. induction fs as [|t fs IH]; intros m; cbn [foldl]; [rewrite app_nil_r; by destruct m|].
  rewrite IH. cbn. by rewrite <- app_assoc.
Qed.
Lemma foldl_with_metadata m kvs : foldl (fun n kv => manifest_with_metadata n kv.1 kv.2) m kvs
  = mkManifest (sm_schema_version m) (sm_tables m) (sm_relations m) (sm_mod_fingerprints m)
      (foldl (fun n kv => <[kv.1 := kv.2]> n) (sm_metadata m) kvs).
Proof. revert m. induction kvs as [|[k v] kvs IH]; intros m; cbn [foldl]; [by destruct m|]. by rewrite IH. Qed.

Lemma migrated_from_manifest_same entries m v : (forall x, entries x ≡ₚ map_to_list x) ->
  migrated_from_manifest entries m v
  = migrated_new (mkManifest v (sm_tables m) (sm_relations m) (sm_mod_fingerprints m) (sm_metadata m)) (sm_schema_version m).
Proof.
  intros He. unfold migrated_from_manifest. f_equal.
  rewrite foldl_with_table, foldl_with_relation, foldl_with_fingerprint, foldl_with_metadata. cbn. f_equal.
  assert (Hnd : NoDup (entries (sm_metadata m)).*1) by (rewrite (He (sm_metadata m)); apply NoDup_fst_map_to_list).
  rewrite insert_all_map, map_union_empty by done.
  rewrite (list_to_map_proper (entries (sm_metadata m)) (map_to_list (sm_metadata m))) by done.
  apply list_to_map_to_list.
Qed.

(** A pipeline drops the fingerprints and the metadata, even when no step is due. *)
Lemma pipeline_build_drops p m tables : pipeline_build p m tables
  = migrated_new (mkManifest (mp_target_version p) tables (sm_relations m) [] ∅) (sm_schema_version m).
Proof. unfold pipeline_build. by rewrite foldl_with_table, foldl_with_relation. Qed.
