(* ===== verification/ModTolerance.v ===== *)
(** * ModTolerance: which mods a save may be loaded with

    Models [mod_tolerance.rs] of [scharnhorst_save] over the comparison of fingerprints in
    [Content.v]. *)

From Stdlib Require Import Ascii String.
From stdpp Require Import base gmap strings list.
From Stdlib Require Import ZArith Lia Sorted.
From S2P Require Import Prelude RustStr CoreTypes SchemaTables Registry Content SaveErrors.

Inductive ModLoadOutcome :=
| ExactMatch
| VersionMismatch (warnings : list string)
| MissingMods (missing : list ModFingerprint) (degraded_tables : list string)
| ExtraMods (extra : list ModFingerprint)
| Degraded (warnings degraded_tables : list string).

Inductive ModTolerancePolicy := Strict | Warn | Silent.
#[export] Instance ModTolerancePolicy_eq_dec : EqDecision ModTolerancePolicy.
Proof. solve_decision. Defined.

Record ModToleranceChecker := mkChecker { mt_policy : ModTolerancePolicy; mt_critical_mods : gset string }.

Definition checker_new (policy : ModTolerancePolicy) : ModToleranceChecker := mkChecker policy ∅.
Definition checker_default : ModToleranceChecker := checker_new Warn.
Definition checker_with_critical_mod (c : ModToleranceChecker) (mod_id : string) : ModToleranceChecker :=
  mkChecker (mt_policy c) ({[mod_id]} ∪ mt_critical_mods c).
Definition is_critical (c : ModToleranceChecker) (mod_id : string) : bool :=
  bool_decide (mod_id ∈ mt_critical_mods c).

Definition strict_check (stored : FingerprintRegistry) (available : list ModFingerprint)
    (comparison : FingerprintComparison) : SaveResult ModLoadOutcome :=
  if negb (length available =? length (fr_fingerprints stored))%nat
  then Err (SvGeneric ("strict mode: mod count mismatch: stored=" +:+ show_u64 (Z.of_nat (length (fr_fingerprints stored)))
                       +:+ ", available=" +:+ show_u64 (Z.of_nat (length available))))
  else match fc_missing comparison with
       | missing :: _ =>
           Err (SvGeneric ("strict mode: mod mismatch detected: mod '" +:+ mf_mod_id missing
                           +:+ "' is missing from available mods"))
       | [] =>
           match fc_mismatched comparison with
           | (stored_fp, avail_fp) :: _ =>
               Err (SvGeneric ("strict mode: mod mismatch detected: mod '" +:+ mf_mod_id stored_fp
                               +:+ "' version/content differs (stored v" +:+ mf_version stored_fp
                               +:+ " vs available v" +:+ mf_version avail_fp +:+ ")"))
           | [] => Ok ExactMatch
           end
       end.

Definition mismatch_warning (p : ModFingerprint * ModFingerprint) : string :=
  "mod " +:+ mf_mod_id p.1 +:+ " version mismatch: save=" +:+ mf_version p.1 +:+ ", disk=" +:+ mf_version p.2.

Definition non_empty {A} (l : list A) : bool := match l with [] => false | _ => true end.

Definition warn_check (comparison : FingerprintComparison) : ModLoadOutcome :=
  let warnings := mismatch_warning <$> fc_mismatched comparison in
  let degraded_tables := fc_missing comparison ≫= mf_table_specs in
  let extra := fc_extra comparison in
  if comparison_is_exact_match comparison && negb (non_empty extra) then ExactMatch
  else if non_empty (fc_mismatched comparison) && non_empty (fc_missing comparison) && non_empty extra
  then Degraded warnings degraded_tables
  else if non_empty (fc_mismatched comparison) then VersionMismatch warnings
  else if non_empty (fc_missing comparison) then MissingMods (fc_missing comparison) degraded_tables
  else if non_empty extra then ExtraMods extra
  else ExactMatch.

Definition mods_check (c : ModToleranceChecker) (stored : FingerprintRegistry) (available : list ModFingerprint)
  : SaveResult ModLoadOutcome :=
  let comparison := fingerprints_compare stored available in
  match List.find (fun f => is_critical c (mf_mod_id f)) (fc_missing comparison) with
  | Some missing => Err (SvCriticalModMissing (mf_mod_id missing))
  | None =>
      match mt_policy c with
      | Strict => strict_check stored available comparison
      | Silent => Ok ExactMatch
      | Warn => Ok (warn_check comparison)
      end
  end.

(** [result.sort_by(|a, b| a.mod_id.cmp(&b.mod_id))], which is stable; strings compare by bytes. *)
Definition sort_by_mod_id : list ModFingerprint -> list ModFingerprint := sort_by_text mf_mod_id.

Definition push_if_new (result : list ModFingerprint) (f : ModFingerprint) : list ModFingerprint :=
  if existsb (fun a => bool_decide (mf_mod_id a = mf_mod_id f)) result then result else result ++ [f].

Definition final_mod_list (stored : FingerprintRegistry) (available : list ModFingerprint) : SaveResult (list ModFingerprint) :=
  Ok (sort_by_mod_id (foldl push_if_new available (fr_fingerprints stored))).

(** ** Facts *)

Lemma push_if_new_elem stored : forall available f, f ∈ foldl push_if_new available stored ->
  f ∈ available \/ f ∈ stored /\ mf_mod_id f ∉ mf_mod_id <$> available.
Proof.
  induction stored as [|g stored IH]; intros available f Hf; [by left|]. cbn [foldl] in Hf.
  apply IH in Hf as [Hf|[Hf Hn]]; unfold push_if_new in *.
  - destruct (existsb _ available) eqn:E; [by left|]. apply elem_of_app in Hf as [Hf|Hf]; [by left|].
    apply list_elem_of_singleton in Hf as ->. right. split; [by left|].
    intros (a & Ea & Ha)%list_elem_of_fmap. apply not_true_iff_false in E. apply E. apply existsb_exists.
    exists a. split; [by apply list_elem_of_In|]. by apply bool_decide_eq_true.
  - right. split; [by right|]. intros H. apply Hn. destruct (existsb _ available); [done|]. rewrite fmap_app. apply elem_of_app. by left.
Qed.

Lemma push_if_new_ids stored : forall available,
  (forall i, i ∈ mf_mod_id <$> foldl push_if_new available stored <-> i ∈ mf_mod_id <$> available \/ i ∈ mf_mod_id <$> stored)
  /\ (forall f, f ∈ available -> f ∈ foldl push_if_new available stored)
  /\ (NoDup (mf_mod_id <$> available) -> NoDup (mf_mod_id <$> foldl push_if_new available stored)).
Proof.
  induction stored as [|g stored IH]; intros available; cbn [foldl]; [split_and!; [set_solver|done|done]|].
  destruct (IH (push_if_new available g)) as (H1 & H2 & H3). unfold push_if_new in *.
  destruct (existsb _ available) eqn:E.
  - apply existsb_exists in E as (a & Ha%list_elem_of_In & Eg%bool_decide_eq_true).
    assert (mf_mod_id g ∈ mf_mod_id <$> available) by (rewrite <- Eg; by apply list_elem_of_fmap_2).
    split_and!; [|done|done]. intros i. rewrite H1. cbn [fmap list_fmap]. set_solver.
  - assert (Hn : mf_mod_id g ∉ mf_mod_id <$> available).
    { intros (a & Ea & Ha)%list_elem_of_fmap. apply not_true_iff_false in E. apply E, existsb_exists.
      exists a. split; [by apply list_elem_of_In|]. by apply bool_decide_eq_true. }
    split_and!.
    + intros i. rewrite H1, fmap_app. cbn [fmap list_fmap]. set_solver.
    + intros f Hf. apply H2. set_solver.
    + intros Hnd. apply H3. rewrite fmap_app. apply NoDup_app. split_and!; [done| |apply NoDup_singleton].
      cbn. set_solver.
Qed.

(** The mods a save is loaded with: sorted by name, every mod that is available as it is, and of the
    stored ones those whose name is not available; no name twice when none is available twice. *)
Theorem final_mod_list_spec (stored : FingerprintRegistry) (available : list ModFingerprint) :
  exists l, final_mod_list stored available = Ok l
  /\ StronglySorted (text_le mf_mod_id) l
  /\ (forall f, f ∈ available -> f ∈ l)
  /\ (forall f, f ∈ l -> f ∈ available \/ f ∈ fr_fingerprints stored /\ mf_mod_id f ∉ mf_mod_id <$> available)
  /\ (forall i, i ∈ mf_mod_id <$> l <-> i ∈ mf_mod_id <$> available \/ i ∈ mf_mod_id <$> fr_fingerprints stored)
  /\ (NoDup (mf_mod_id <$> available) -> NoDup (mf_mod_id <$> l)).
Proof.
  eexists. split; [reflexivity|]. destruct (push_if_new_ids (fr_fingerprints stored) available) as (H1 & H2 & H3).
  split_and!; [apply sort_by_text_sorted|..].
  - intros f Hf. rewrite (sort_by_text_perm mf_mod_id). by apply H2.
  - intros f. rewrite (sort_by_text_perm mf_mod_id). apply push_if_new_elem.
  - intros i. rewrite (sort_by_text_perm mf_mod_id). apply H1.
  - rewrite (sort_by_text_perm mf_mod_id). apply H3.
Qed.
