(* ===== verification/LoadReconstruction.v ===== *)
(** * LoadReconstruction: the six phases of a load

    Models [load_reconstruction.rs] of [scharnhorst_save]. A phase is a method that takes [&mut self]
    and may fail after it has changed it: it returns the new state with its outcome. Phase 1 and the
    replay read the disk; phase 4 creates tables of the store. An outcome [None] is a panic (phase 1,
    in the allocation of a length read) or, in phase 3, a pipeline that does not end, which
    [SaveMigrations.v] excludes. *)

From Stdlib Require Import Ascii String.
From stdpp Require Import base gmap strings list.
From Stdlib Require Import ZArith Lia.
From S2P Require Import Prelude RustStr CoreTypes SchemaTables Relations Registry Journal Content.
From S2P Require Import RuleCore Arrow ArrowStore Disk SaveErrors SaveSnapshots SaveMigrations ModTolerance.

Record LoadReconstruction := mkReconstruction {
  lr_lifecycle : LoadLifecycle; lr_persistence : SnapshotPersistence; lr_tolerance_checker : ModToleranceChecker;
  lr_migration_pipeline : option MigrationPipeline; lr_tier_registry : TierRegistry }.

Definition reconstruction_new (p : SnapshotPersistence) (c : ModToleranceChecker) : LoadReconstruction :=
  mkReconstruction load_new p c None tier_new.
Definition with_migration_pipeline (r : LoadReconstruction) (p : MigrationPipeline) : LoadReconstruction :=
  mkReconstruction (lr_lifecycle r) (lr_persistence r) (lr_tolerance_checker r) (Some p) (lr_tier_registry r).
Definition with_tier_registry (r : LoadReconstruction) (t : TierRegistry) : LoadReconstruction :=
  mkReconstruction (lr_lifecycle r) (lr_persistence r) (lr_tolerance_checker r) (lr_migration_pipeline r) t.
Definition with_lifecycle (r : LoadReconstruction) (l : LoadLifecycle) : LoadReconstruction :=
  mkReconstruction l (lr_persistence r) (lr_tolerance_checker r) (lr_migration_pipeline r) (lr_tier_registry r).

Definition skip_to_phase (r : LoadReconstruction) (p : LoadPhase) : LoadReconstruction * SaveResult unit :=
  match load_start_phase (lr_lifecycle r) p with
  | Err e => (r, Err (SvContent e))
  | Ok l => (with_lifecycle r l, Ok tt)
  end.

(** The first lines of every phase: [let phase = self.lifecycle.advance()?; if phase != ...]. *)
Definition enter_phase (r : LoadReconstruction) (expected : LoadPhase) : LoadReconstruction * SaveResult unit :=
  match load_advance (lr_lifecycle r) with
  | Err e => (r, Err (SvContent e))
  | Ok (l, phase) =>
      (with_lifecycle r l,
       if bool_decide (phase = expected) then Ok tt
       else Err (SvInvalidPhaseTransition (load_phase_name phase) (load_phase_name expected)))
  end.

(** The rest of a phase, run when it was the one due. *)
Definition in_phase {A} (r : LoadReconstruction) (expected : LoadPhase)
    (body : LoadReconstruction -> LoadReconstruction * SaveResult A) : LoadReconstruction * SaveResult A :=
  match enter_phase r expected with
  | (r, Err e) => (r, Err e)
  | (r, Ok _) => body r
  end.

Section phases.
Context `{HC : HeaderCodec} `{AL : Allocator}.
Context (dir_order : gmap string bytes -> list string).
Context (meta_order : gmap string string -> list (string * string)).
Context (hash_order : gset string -> list string).

Definition phase1_snapshot_deserialize (r : LoadReconstruction) (d : Disk)
  : Disk * (LoadReconstruction * option (SaveResult SchemaManifest)) :=
  match enter_phase r SnapshotDeserialize with
  | (r, Err e) => (d, (r, Some (Err e)))
  | (r, Ok _) =>
      let '(d, res) :=
        (do! latest <- latest_snapshot_file dir_order (lr_persistence r);
         do! (tick, _) <- io_res (ok_or latest (SvSnapshotNotFound "no snapshots available"));
         do! persisted <- read_snapshot (lr_persistence r) tick;
         io_ret (sh_schema_manifest (ps_header persisted))) d in
      match res with
      | Some (Ok manifest) => (d, (with_lifecycle r (load_set_manifest (lr_lifecycle r) manifest), Some (Ok manifest)))
      | _ => (d, (r, res))
      end
  end.

Definition phase2_mod_coordination (r : LoadReconstruction) (stored : FingerprintRegistry)
    (available : list ModFingerprint) : LoadReconstruction * SaveResult (list ModFingerprint) :=
  in_phase r ModCoordination (fun r =>
    match mods_check (lr_tolerance_checker r) stored available with
    | Err e => (r, Err e)
    | Ok _ =>
        match final_mod_list stored available with
        | Err e => (r, Err e)
        | Ok final_mods => (with_lifecycle r (load_set_final_mods (lr_lifecycle r) final_mods), Ok final_mods)
        end
    end).

Definition phase3_schema_migration (r : LoadReconstruction) (manifest : SchemaManifest)
  : LoadReconstruction * option (SaveResult MigratedSchemaManifest) :=
  match enter_phase r SchemaMigration with
  | (r, Err e) => (r, Some (Err e))
  | (r, Ok _) =>
      let res := match lr_migration_pipeline r with
                 | Some pipeline => pipeline_apply pipeline manifest
                 | None => Some (Ok (migrated_from_manifest meta_order manifest (sm_schema_version manifest)))
                 end in
      match res with
      | Some (Ok migrated) => (with_lifecycle r (load_set_migrated_manifest (lr_lifecycle r) migrated), res)
      | _ => (r, res)
      end
  end.

Section compilation.
Context {V : Type} `{AO : ArrowOps} `{JR : JsonRead V} `{FT : FloatText}.

(** The loop over the tables: the store and the tiers it leaves, with its outcome. *)
Definition load_table (s : ArrowStore V * TierRegistry) (table : TableSpec) : SaveResult (ArrowStore V * TierRegistry) :=
  let? (store, _) := map_err SvArrowStore (create_table s.1 table AppendOnly) in
  let tiers := match tier_register s.2 (ts_name table) Authority "save_loader"
                       ("Loaded authority table: " +:+ ts_name table) with
               | Ok tiers => tiers | Err _ => s.2 end in
  Ok (store, tiers).

(** The relations, checked before any table is created. *)
Definition check_relations (edges : list RelationEdge) : SaveResult unit :=
  let? graph := map_err SvSchema (try_fold graph_add_edge graph_new edges) in
  match default [] (graph_detect_cycles graph (hash_order (graph_tables graph))) with
  | [] => Ok tt
  | cycles => Err (SvSchema (CircularRelation (String.concat "; " (String.concat " -> " <$> cycles))))
  end.

Definition phase4_content_compilation_entry (r : LoadReconstruction) (store : ArrowStore V)
  : ArrowStore V * (LoadReconstruction * SaveResult unit) :=
  match enter_phase r ContentCompilation with
  | (r, Err e) => (store, (r, Err e))
  | (r, Ok _) =>
      match ll_migrated (lr_lifecycle r) with
      | None => (store, (r, Err (SvGeneric "migrated manifest not set")))
      | Some migrated =>
          match check_relations (migrated_relations migrated) with
          | Err e => (store, (r, Err e))
          | Ok _ =>
              let '((store, tiers), res) := try_each load_table (store, lr_tier_registry r) (migrated_tables migrated) in
              (store, (with_tier_registry r tiers, res))
          end
      end
  end.
End compilation.

Definition non_authority_tables (r : LoadReconstruction) : SaveResult (list string) :=
  let? migrated := ok_or (ll_migrated (lr_lifecycle r)) (SvGeneric "migrated manifest not set") in
  Ok (ts_name <$> List.filter (fun t => negb (tier_is_authority (lr_tier_registry r) (ts_name t))) (migrated_tables migrated)).
Definition derived_tables_need_rebuild : LoadReconstruction -> SaveResult (list string) := non_authority_tables.
Definition ephemeral_tables_needing_init : LoadReconstruction -> SaveResult (list string) := non_authority_tables.

Definition phase5_schema_freeze (r : LoadReconstruction) : LoadReconstruction * SaveResult unit :=
  in_phase r SchemaFreeze (fun r => (with_lifecycle r (load_set_frozen (lr_lifecycle r) true), Ok tt)).
Definition phase6_simulation_start (r : LoadReconstruction) : LoadReconstruction * SaveResult unit :=
  in_phase r SimulationStart (fun r => (with_lifecycle r (load_finish (lr_lifecycle r)), Ok tt)).

Definition replay_diffs {V} (r : LoadReconstruction) (base_tick : Tick) (records : list (CommitRecord V)) : IO SaveError Z :=
  do! snapshot <- read_snapshot (lr_persistence r) base_tick;
  io_ret (foldl (fun h rec => wrap64 (h + rec_state_hash rec)) (sh_state_hash (ps_header snapshot))
            (List.filter (fun rec => tick_as_u64 base_tick <? tick_as_u64 (rec_tick rec)) records)).

Definition verify_state_hash (computed expected : Z) : SaveResult unit :=
  if negb (computed =? expected) then Err (SvStateHashMismatch expected computed) else Ok tt.
End phases.

(** ** The builder *)

Record LoadReconstructionBuilder := mkBuilder {
  lb_persistence : option SnapshotPersistence; lb_tolerance_checker : option ModToleranceChecker;
  lb_migration_pipeline : option MigrationPipeline; lb_tier_registry : option TierRegistry }.

Definition builder_new : LoadReconstructionBuilder := mkBuilder None None None None.
Definition builder_persistence (b : LoadReconstructionBuilder) (p : SnapshotPersistence) : LoadReconstructionBuilder :=
  mkBuilder (Some p) (lb_tolerance_checker b) (lb_migration_pipeline b) (lb_tier_registry b).
Definition builder_tolerance_checker (b : LoadReconstructionBuilder) (c : ModToleranceChecker) : LoadReconstructionBuilder :=
  mkBuilder (lb_persistence b) (Some c) (lb_migration_pipeline b) (lb_tier_registry b).
Definition builder_migration_pipeline (b : LoadReconstructionBuilder) (p : MigrationPipeline) : LoadReconstructionBuilder :=
  mkBuilder (lb_persistence b) (lb_tolerance_checker b) (Some p) (lb_tier_registry b).
Definition builder_tier_registry (b : LoadReconstructionBuilder) (t : TierRegistry) : LoadReconstructionBuilder :=
  mkBuilder (lb_persistence b) (lb_tolerance_checker b) (lb_migration_pipeline b) (Some t).

Definition builder_build (b : LoadReconstructionBuilder) : SaveResult LoadReconstruction :=
  let? persistence := ok_or (lb_persistence b) (SvGeneric "persistence required") in
  let? checker := ok_or (lb_tolerance_checker b) (SvGeneric "tolerance_checker required") in
  let r := reconstruction_new persistence checker in
  let r := match lb_migration_pipeline b with Some p => with_migration_pipeline r p | None => r end in
  Ok (match lb_tier_registry b with Some t => with_tier_registry r t | None => r end).
