(* ===== verification/LoadFacts.v ===== *)
(** * LoadFacts: what a load guarantees

    The phases go by the number of calls, whatever their outcomes; phase 4 creates the tables of the
    migrated manifest; phase 1 finds the manifest that was saved last. *)

From Stdlib Require Import Ascii String.
From stdpp Require Import base gmap strings list.
From Stdlib Require Import ZArith Lia Sorted.
From S2P Require Import Prelude RustStr CoreTypes SchemaTables Relations Registry Journal Content.
From S2P Require Import RuleCore Arrow ArrowStore Disk SaveErrors SaveSnapshots SaveFacts SaveRetention CheckpointFacts SaveMigrations ModTolerance LoadReconstruction.

(** ** The position in the load *)

Section position.
Context `{HC : HeaderCodec} `{AL : Allocator}.
Context (dir_order : gmap string bytes -> list string).
Context (meta_order : gmap string string -> list (string * string)).
Context (hash_order : gset string -> list string).
Context {V : Type} `{AO : ArrowOps} `{JR : JsonRead V} `{FT : FloatText}.

(** The calls of a load, and what they are made on. *)
Inductive LoadCall :=
| CallDeserialize
| CallMods (stored : FingerprintRegistry) (available : list ModFingerprint)
| CallMigrate (manifest : SchemaManifest)
| CallCompile
| CallFreeze
| CallStart.

Definition call_phase (c : LoadCall) : LoadPhase :=
  match c with
  | CallDeserialize => SnapshotDeserialize | CallMods _ _ => ModCoordination | CallMigrate _ => SchemaMigration
  | CallCompile => ContentCompilation | CallFreeze => SchemaFreeze | CallStart => SimulationStart
  end.

Record LoadWorld := mkLoadWorld { lw_load : LoadReconstruction; lw_disk : Disk; lw_store : ArrowStore V }.

Definition ok_outcome {A} (r : option (SaveResult A)) : bool := from_option is_ok false r.

(** The world after a call, and whether the call succeeded. *)
Definition load_step (w : LoadWorld) (c : LoadCall) : LoadWorld * bool :=
  let on r := mkLoadWorld r (lw_disk w) (lw_store w) in
  match c with
  | CallDeserialize =>
      let '(d, (r, res)) := phase1_snapshot_deserialize dir_order (lw_load w) (lw_disk w) in
      (mkLoadWorld r d (lw_store w), ok_outcome res)
  | CallMods stored available =>
      let '(r, res) := phase2_mod_coordination (lw_load w) stored available in (on r, is_ok res)
  | CallMigrate m => let '(r, res) := phase3_schema_migration meta_order (lw_load w) m in (on r, ok_outcome res)
  | CallCompile =>
      let '(s, (r, res)) := phase4_content_compilation_entry hash_order (lw_load w) (lw_store w) in
      (mkLoadWorld r (lw_disk w) s, is_ok res)
  | CallFreeze => let '(r, res) := phase5_schema_freeze (lw_load w) in (on r, is_ok res)
  | CallStart => let '(r, res) := phase6_simulation_start (lw_load w) in (on r, is_ok res)
  end.
Definition load_run (w : LoadWorld) (calls : list LoadCall) : LoadWorld :=
  foldl (fun w c => (load_step w c).1) w calls.

Definition progress (l : LoadLifecycle) : option LoadPhase * list LoadPhase := (ll_current l, ll_completed l).

(** A call moves to the phase that is due, whatever it was for and however it ends; it can only
    succeed if it was for that phase. Only a successful start finishes the load. *)
Lemma load_step_progress w c l phase :
  load_advance (lr_lifecycle (lw_load w)) = Ok (l, phase) ->
  let w' := (load_step w c).1 in
  ((load_step w c).2 = true -> call_phase c = phase)
  /\ (phase <> SimulationStart -> progress (lr_lifecycle (lw_load w')) = progress l)
  /\ (c = CallStart -> phase = SimulationStart -> (load_step w c).2 = true
      /\ progress (lr_lifecycle (lw_load w')) = progress (load_finish l)).
Proof.
  intros Ha. unfold load_step, phase1_snapshot_deserialize, phase2_mod_coordination, phase3_schema_migration,
    phase4_content_compilation_entry, phase5_schema_freeze, phase6_simulation_start, in_phase, enter_phase.
  rewrite Ha. destruct c as [|stored available|m| | |]; case_bool_decide as Hp; cbn [call_phase];
    try (split_and!; [done|by intros _|by intros [=]|..]; fail).
  - set (call := io_bind _ _). destruct (call (lw_disk w)) as [d [[manifest|e]|]]; by split_and!.
  - destruct (mods_check _ _ _); [|by split_and!]. cbn. by split_and!.
  - destruct (match lr_migration_pipeline _ with Some _ => _ | None => _ end) as [[migrated|e]|]; by split_and!.
  - cbn [lr_lifecycle with_lifecycle]. destruct (ll_migrated l); [|by split_and!].
    destruct (check_relations _ _); [|by split_and!].
    match goal with |- context [try_each load_table ?s ?ts] => destruct (try_each load_table s ts) as [[s' t'] r'] end.
    by split_and!.
  - cbn. split_and!; [done|intros Hn; by destruct Hn|done].
Qed.

(** The position after [n] calls. *)
Definition at_position (n : nat) (l : LoadLifecycle) : Prop :=
  progress l = (match n with O => None | S n => six_phases !! n end, take (pred n) six_phases).

Lemma advance_position n l : at_position n l -> (n < 6)%nat ->
  exists l' phase, load_advance l = Ok (l', phase) /\ six_phases !! n = Some phase /\ at_position (S n) l'.
Proof.
  unfold at_position, progress, load_advance, load_is_completed. intros [= Hc Hd] Hn. rewrite Hc, Hd.
  destruct n as [|[|[|[|[|[|n]]]]]]; [cbn; eauto 6..|lia].
Qed.

Lemma run_position calls : forall w n, at_position n (lr_lifecycle (lw_load w)) -> (n + length calls <= 5)%nat ->
  at_position (n + length calls) (lr_lifecycle (lw_load (load_run w calls))).
Proof.
  induction calls as [|c calls IH]; intros w n Hw Hn; simpl in Hn; [by rewrite Nat.add_0_r|].
  destruct (advance_position n _ Hw ltac:(lia)) as (l & phase & Ha & Hp & Hl).
  destruct (load_step_progress w c l phase Ha) as (_ & Hm & _).
  cbn [length load_run foldl]. rewrite <- Nat.add_succ_comm. apply IH; [|lia].
  unfold at_position in *. rewrite Hm; [done|]. intros ->.
  destruct n as [|[|[|[|[|n]]]]]; cbn in Hp; try done; lia.
Qed.

(** The phases of a load go by the number of calls. Whatever the first calls were for and however
    they ended, after [n] of them the lifecycle stands at the [n]-th phase with the ones before it
    completed, and the next call can only succeed if it is for the phase after it: a phase that failed
    cannot be tried again, and a start after five failures finishes the load. *)
Theorem load_goes_by_calls (w : LoadWorld) (calls : list LoadCall) :
  lr_lifecycle (lw_load w) = load_new -> (length calls <= 5)%nat ->
  let w' := load_run w calls in
  at_position (length calls) (lr_lifecycle (lw_load w'))
  /\ (forall c, (load_step w' c).2 = true -> six_phases !! length calls = Some (call_phase c))
  /\ (length calls = 5%nat -> (load_step w' CallStart).2 = true
      /\ ll_completed (lr_lifecycle (lw_load (load_step w' CallStart).1)) = six_phases).
Proof.
  intros Hw Hn w'. assert (Hpos : at_position (length calls) (lr_lifecycle (lw_load w'))).
  { apply (run_position calls w 0); [|done]. by rewrite Hw. }
  destruct (advance_position _ _ Hpos ltac:(lia)) as (l & phase & Ha & Hp & Hl). split_and!; [done|..].
  - intros c Hc. destruct (load_step_progress w' c l phase Ha) as (H & _). by rewrite Hp, H.
  - intros E. rewrite E in Hp, Hl. injection Hp as <-.
    destruct (load_step_progress w' CallStart l SimulationStart Ha) as (_ & _ & Hs). destruct (Hs eq_refl eq_refl) as [H1 H2].
    split; [done|]. apply (f_equal snd) in H2. cbn [snd progress] in H2. rewrite H2.
    unfold at_position, progress in Hl. injection Hl as Hc Hd. unfold load_finish, load_is_completed. rewrite Hc, Hd. done.
Qed.
End position.

(** ** The tables of a load *)

Section tables.
Context (hash_order : gset string -> list string) (hash_order_perm : forall s, hash_order s ≡ₚ elements s).
Context {V : Type} `{AO : ArrowOps} `{JR : JsonRead V} `{FT : FloatText}.

Lemma add_edges_inv edges : forall g g', graph_inv g -> try_fold graph_add_edge g edges = Ok g' ->
  graph_inv g' /\ rg_edges g' = rg_edges g ++ edges.
Proof.
  induction edges as [|e edges IH]; intros g g' Hg H; cbn [try_fold] in H; [simplify_eq; by rewrite app_nil_r|].
  destruct (graph_add_edge g e) as [g1|] eqn:E; [|done]. apply graph_add_edge_inv in E as [Hg1 E1]; [|done].
  apply IH in H as [Hg' ->]; [|done]. by rewrite E1, <- app_assoc.
Qed.

(** The search for cycles after the additions finds none: the additions refused them. *)
Lemma check_relations_spec edges :
  match check_relations hash_order edges with
  | Ok _ => acyclic edges /\ NoDup ((fun e => (edge_from e, edge_to e)) <$> edges)
  | Err e => exists e', try_fold graph_add_edge graph_new edges = Err e' /\ e = SvSchema e'
  end.
Proof.
  unfold check_relations. destruct (try_fold graph_add_edge graph_new edges) as [g|e'] eqn:E; cbn [map_err]; [|by exists e'].
  destruct (add_edges_inv edges graph_new g graph_new_inv E) as [(Hwf & Hnd & Hac) Hes]. rewrite Hes in *.
  destruct (detect_cycles_ok g (hash_order (graph_tables g)) Hwf ltac:(apply hash_order_perm)) as (cycles & -> & _ & Hcy).
  rewrite Hes in Hcy. cbn. by rewrite (proj2 Hcy Hac).
Qed.

Lemma create_table_spec (s s' : ArrowStore V) spec mode id : create_table s spec mode = Ok (s', id) ->
  as_tables s !! ts_name spec = None /\ as_tables s' = <[ts_name spec := vt_set_spec (vt_new (ts_name spec) mode) spec]> (as_tables s).
Proof.
  unfold create_table. destruct (init_guard s); [|done]. case_bool_decide as H; [done|].
  intros [= <- <-]. split; [by apply eq_None_not_Some|done].
Qed.

Lemma load_table_spec s s' table : load_table (V := V) s table = Ok s' ->
  as_tables s.1 !! ts_name table = None
  /\ as_tables s'.1 = <[ts_name table := vt_set_spec (vt_new (ts_name table) AppendOnly) table]> (as_tables s.1)
  /\ tier_entries s'.2 = tier_entries s.2 ∪ {[ts_name table := mkTierMetadata Authority "save_loader" ("Loaded authority table: " +:+ ts_name table)]}.
Proof.
  unfold load_table. destruct (create_table s.1 table AppendOnly) as [[s1 id]|e] eqn:E; cbn [map_err]; [|done].
  intros [= <-]. apply create_table_spec in E as [H1 H2]. split_and!; [done|done|]. cbn [snd].
  unfold tier_register. destruct (tier_entries s.2 !! ts_name table) as [m|] eqn:Et; cbn [tier_entries].
  - apply map_eq. intros k. rewrite lookup_union. destruct (decide (k = ts_name table)) as [->|Hk].
    + by rewrite Et, lookup_singleton_eq.
    + rewrite lookup_singleton_ne by done. by destruct (tier_entries s.2 !! k).
  - rewrite insert_union_singleton_l. apply map_union_comm. by apply map_disjoint_singleton_l.
Qed.

Lemma load_tables_spec tables : forall s s', try_each (load_table (V := V)) s tables = (s', Ok tt) ->
  NoDup (ts_name <$> tables)
  /\ (forall t, t ∈ tables -> as_tables s.1 !! ts_name t = None
       /\ as_tables s'.1 !! ts_name t = Some (vt_set_spec (vt_new (ts_name t) AppendOnly) t)
       /\ is_Some (tier_entries s'.2 !! ts_name t) /\ (tier_entries s.2 !! ts_name t = None -> tier_is_authority s'.2 (ts_name t) = true))
  /\ (forall n, n ∉ ts_name <$> tables -> as_tables s'.1 !! n = as_tables s.1 !! n /\ tier_entries s'.2 !! n = tier_entries s.2 !! n)
  /\ tier_entries s.2 ⊆ tier_entries s'.2.
Proof.
  induction tables as [|t tables IH]; intros s s' H; cbn [try_each] in H.
  { injection H as <-. split_and!; [constructor|by intros t []%elem_of_nil|done|done]. }
  destruct (load_table s t) as [s1|e] eqn:E; [|done]. destruct (load_table_spec s s1 t E) as (E1 & E2 & E3).
  destruct (IH s1 s' H) as (Hnd & Ht & Hn & Hsub). clear IH.
  assert (Hfresh : ts_name t ∉ ts_name <$> tables).
  { intros (t' & Et & Ht')%list_elem_of_fmap. destruct (Ht t' Ht') as [Hnone _].
    rewrite E2, <- Et, lookup_insert_eq in Hnone. done. }
  assert (Hsub1 : tier_entries s.2 ⊆ tier_entries s1.2) by (rewrite E3; apply map_union_subseteq_l).
  split_and!; [by constructor| | |by etrans].
  - intros t' [->|Ht']%elem_of_cons.
    + destruct (Hn _ Hfresh) as [H1 H2]. unfold tier_is_authority. rewrite H1, H2, E2, E3, lookup_insert_eq.
      rewrite lookup_union, lookup_singleton_eq. split_and!; [done|done| |].
      * destruct (tier_entries s.2 !! ts_name t); by eexists.
      * intros ->. done.
    + destruct (Ht t' Ht') as (H1 & H2 & H3 & H4). assert (Hne : ts_name t' <> ts_name t).
      { intros Et. rewrite E2, Et, lookup_insert_eq in H1. done. }
      rewrite E2, lookup_insert_ne in H1 by done. split_and!; [done|done|done|]. intros Hnone. apply H4.
      rewrite E3, lookup_union, Hnone, lookup_singleton_ne by done. done.
  - intros n [Hne Hin]%not_elem_of_cons. destruct (Hn n Hin) as [-> ->]. rewrite E2, E3.
    rewrite lookup_insert_ne by done. split; [done|]. rewrite lookup_union, lookup_singleton_ne by done.
    by destruct (tier_entries s.2 !! n).
Qed.

(** When phase 4 succeeds the store has, beside its tables, an empty append-only table for each table
    of the migrated manifest, whose names are distinct and were free; each has a tier, the authority
    tier where it had none; and the relations have no cycle and no duplicate. Relations that cannot be
    added leave the store alone. *)
Theorem load_creates_tables (r r' : LoadReconstruction) (store store' : ArrowStore V) res :
  phase4_content_compilation_entry hash_order r store = (store', (r', res)) ->
  match res with
  | Ok _ => exists migrated, ll_migrated (lr_lifecycle r) = Some migrated
      /\ acyclic (migrated_relations migrated)
      /\ NoDup ((fun e => (edge_from e, edge_to e)) <$> migrated_relations migrated)
      /\ NoDup (ts_name <$> migrated_tables migrated)
      /\ (forall t, t ∈ migrated_tables migrated -> as_tables store !! ts_name t = None
           /\ as_tables store' !! ts_name t = Some (vt_set_spec (vt_new (ts_name t) AppendOnly) t)
           /\ is_Some (tier_entries (lr_tier_registry r') !! ts_name t)
           /\ (tier_entries (lr_tier_registry r) !! ts_name t = None -> tier_is_authority (lr_tier_registry r') (ts_name t) = true))
      /\ (forall n, n ∉ ts_name <$> migrated_tables migrated -> as_tables store' !! n = as_tables store !! n)
  | Err (SvSchema _) => store' = store
  | Err _ => True
  end.
Proof.
  unfold phase4_content_compilation_entry. destruct (enter_phase r ContentCompilation) as [r1 [[]|e]] eqn:Er; [|by intros [= <- <- <-]; destruct e].
  assert (Hl : ll_migrated (lr_lifecycle r1) = ll_migrated (lr_lifecycle r) /\ lr_tier_registry r1 = lr_tier_registry r).
  { unfold enter_phase, load_advance, with_progress in Er. repeat case_match; simplify_eq; done. }
  destruct Hl as [Hl Ht]. rewrite Hl. destruct (ll_migrated (lr_lifecycle r)) as [migrated|] eqn:Em; [|by intros [= <- <- <-]].
  pose proof (check_relations_spec (migrated_relations migrated)) as Hc.
  destruct (check_relations hash_order (migrated_relations migrated)) as [[]|e]; [|by intros [= <- <- <-]; destruct e].
  destruct (try_each load_table _ _) as [[s2 tiers] [[]|e]] eqn:Eo; intros [= <- <- <-].
  - apply load_tables_spec in Eo as (H1 & H2 & H3 & _). cbn [fst snd] in *. rewrite Ht in H2. exists migrated.
    destruct Hc as [Hc1 Hc2]. split_and!; try done. intros n Hn. by apply H3.
  - destruct e; try done. exfalso. clear -Eo. revert Eo. generalize (store, lr_tier_registry r1). 
    induction (migrated_tables migrated) as [|t ts IH]; intros s H; cbn [try_each] in H; [done|].
    destruct (load_table s t) as [s1|e'] eqn:E; [by apply (IH s1)|]. injection H as _ ->.
    unfold load_table in E. by destruct (create_table s.1 t AppendOnly) as [[? ?]|].
Qed.
End tables.

(** ** Saving and loading *)

Section saved.
Context `{HC : HeaderCodec} `{AL : Allocator}.
Context (dir_order : gmap string bytes -> list string).
Context (table_order : gmap string bytes -> list (string * bytes)).
Context (dir_order_perm : forall files, dir_order files ≡ₚ (map_to_list files).*1).
Context (table_order_perm : forall m, table_order m ≡ₚ map_to_list m).

Definition snapshot_fits (s : PersistedSnapshot) : Prop :=
  (forall hb, header_to_vec (ps_header s) = Ok hb -> header_from_slice hb = Ok (ps_header s) /\ fits hb)
  /\ (forall name data, ps_table_data s !! name = Some data -> entry_fits (name, data))
  /\ Z.of_nat (size (ps_table_data s)) < two64 /\ can_reserve (Z.of_nat (size (ps_table_data s))) = true.

Lemma snapshot_decodes s hb : snapshot_fits s -> header_to_vec (ps_header s) = Ok hb ->
  decodes (encode hb (table_order (ps_table_data s))) s.
Proof.
  intros (Hh & He & Hn & Hr) Ehb. destruct (Hh hb Ehb) as [Hdec Hfit].
  assert (Hlen : length (table_order (ps_table_data s)) = size (ps_table_data s)) by apply (order_length table_order table_order_perm).
  assert (Hnd : NoDup (table_order (ps_table_data s)).*1) by (rewrite table_order_perm; apply NoDup_fst_map_to_list).
  replace s with (mkSnapshot (ps_header s) (list_to_map (table_order (ps_table_data s)))) at 2.
  - eapply decodes_encode; [done|done| |done|by rewrite Hlen|by rewrite Hlen].
    apply Forall_forall. intros [k v] Hin. rewrite table_order_perm in Hin. by apply He, elem_of_map_to_list.
  - destruct s as [h t]. cbn [ps_header ps_table_data] in *. f_equal.
    rewrite (list_to_map_proper (table_order t) (map_to_list t)) by (done || apply table_order_perm). apply list_to_map_to_list.
Qed.

Lemma last_fmap_fst {A B} (l : list (A * B)) a l' : l.*1 = l' ++ [a] -> exists b, last l = Some (a, b).
Proof.
  intros E. assert (El : fst <$> last l = Some a) by (rewrite <- fmap_last, E; apply last_snoc).
  destruct (last l) as [[a' b]|]; [|done]. injection El as ->. by exists b.
Qed.

(** A save of the newest generation that succeeds leaves it, complete, the last of the directory. *)
Lemma saved_is_last (m : SnapshotManager) s d d' q :
  let gen := sh_generation (ps_header s) in
  let path g := snapshot_path (sg_persistence m) g in
  u64 (tick_as_u64 gen) -> canonical_names (sp_base_dir (sg_persistence m)) d ->
  (1 <= sc_max_snapshots (sg_config m))%nat ->
  (forall g, u64 (tick_as_u64 g) -> is_Some (disk_file d (path g)) -> tick_as_u64 g < tick_as_u64 gen) ->
  save_snapshot dir_order table_order m s d = (d', Some (Ok q)) ->
  (exists hb, header_to_vec (ps_header s) = Ok hb /\ disk_file d' (path gen) = Some (encode hb (table_order (ps_table_data s))))
  /\ exists files l, dk_dirs d' !! sp_base_dir (sg_persistence m) = Some files /\ listing dir_order files = l ++ [gen].
Proof.
  intros gen path Hgen Hc Hmax Hnew Hs. pose proof (save_spec dir_order table_order table_order_perm m s d) as H.
  unfold runs in H. rewrite Hs in H. destruct H as [[[e [=]] _]|(d2 & Hrep & _ & gs & Hgs & Hr)].
  destruct (Hr q eq_refl) as (files & seen & Hfiles & Hshown & _ & Egs & Hgone). clear Hr.
  pose proof (replaced_canonical _ m s d d2 Hgen Hc Hrep) as Hc2.
  pose proof (shown_sorted dir_order dir_order_perm (sp_base_dir (sg_persistence m)) d2 files seen Hfiles Hc2 Hshown) as Hsorted.
  pose proof (listing_files dir_order dir_order_perm (sp_base_dir (sg_persistence m)) d2 files Hfiles Hc2) as Hlist.
  destruct Hrep as (hb & Ehb & Hfinal & Htemp & Hq). fold gen in Hfinal, Htemp, Hq. fold (path gen) in Hfinal, Hq.
  assert (Hgl : gen ∈ listing dir_order files) by (apply Hlist; split; [done|by eexists]).
  assert (Hle : forall g, g ∈ listing dir_order files -> tick_as_u64 g <= tick_as_u64 gen).
  { intros g [Hg Hf]%Hlist. destruct (decide (g = gen)) as [->|Hne]; [lia|]. change (is_Some (disk_file d2 (path g))) in Hf.
    rewrite Hq in Hf; [specialize (Hnew g Hg Hf); lia| |].
    - intros E. by apply snapshot_path_inj in E.
    - intros E. by apply (temp_not_snapshot m gen g). }
  assert (Hseen : forall g, g ∈ seen -> g ∈ listing dir_order files) by (intros g; by apply shown_elem).
  assert (Hnot : gen ∉ gs) by (subst gs; apply newest_kept; [done|by eauto|done]).
  assert (Hgsu : forall g, g ∈ gs -> u64 (tick_as_u64 g)).
  { intros g Hg. subst gs. apply elem_of_take in Hg as (i & Hi & _). apply list_elem_of_lookup_2 in Hi. by apply Hseen, Hlist in Hi as [? _]. }
  assert (Hfile : disk_file d' (path gen) = disk_file d2 (path gen)).
  { destruct (Hgs (path gen)) as [->|(g & Hg & E & _)]; [done|]. apply snapshot_path_inj in E as <-; [done|done|by apply Hgsu]. }
  split; [exists hb; by rewrite Hfile|].
  destruct (dk_dirs d' !! sp_base_dir (sg_persistence m)) as [files'|] eqn:Ef'.
  2:{ rewrite Hfinal in Hfile. unfold disk_file, path in Hfile. cbn in Hfile. by rewrite Ef' in Hfile. }
  assert (Hc' : canonical_names (sp_base_dir (sg_persistence m)) d').
  { intros name g Hname Hg. apply Hc2; [|done].
    destruct (Hgs (mkPath (sp_base_dir (sg_persistence m)) name)) as [<-|(_ & _ & _ & E)]; [done|]. rewrite E in Hname. by destruct Hname. }
  pose proof (listing_files dir_order dir_order_perm (sp_base_dir (sg_persistence m)) d' files' Ef' Hc') as Hlist'.
  destruct (sorted_last gen (listing dir_order files')) as [l El].
  - by apply (listing_sorted dir_order dir_order_perm (sp_base_dir (sg_persistence m)) d').
  - apply Hlist'. split; [done|]. change (is_Some (disk_file d' (path gen))). rewrite Hfile, Hfinal. by eexists.
  - intros g [Hg Hf]%Hlist'. apply Hle, Hlist. split; [done|].
    destruct (Hgs (mkPath (sp_base_dir (sg_persistence m)) (snapshot_name g))) as [<-|(_ & _ & _ & E)]; [done|].
    rewrite E in Hf. by destruct Hf.
  - by exists files', l.
Qed.

(** C12: The manifest of the newest save is the one a load finds: when a save of a generation newer than
    those there succeeded, the first phase of a fresh load over its directory, on a disk without
    faults, returns and keeps the manifest of its header. *)
Theorem saved_manifest_is_loaded (m : SnapshotManager) (s : PersistedSnapshot) (d d' d2 : Disk) (q : Path) (r : LoadReconstruction) :
  let gen := sh_generation (ps_header s) in
  snapshot_fits s -> u64 (tick_as_u64 gen) -> canonical_names (sp_base_dir (sg_persistence m)) d ->
  (1 <= sc_max_snapshots (sg_config m))%nat ->
  (forall g, u64 (tick_as_u64 g) -> is_Some (disk_file d (snapshot_path (sg_persistence m) g)) -> tick_as_u64 g < tick_as_u64 gen) ->
  save_snapshot dir_order table_order m s d = (d', Some (Ok q)) ->
  dk_dirs d2 = dk_dirs d' -> dk_faults d2 = [] ->
  lr_lifecycle r = load_new -> sp_base_dir (lr_persistence r) = sp_base_dir (sg_persistence m) ->
  exists d3 r', phase1_snapshot_deserialize dir_order r d2 = (d3, (r', Some (Ok (sh_schema_manifest (ps_header s)))))
    /\ dk_dirs d3 = dk_dirs d' /\ ll_manifest (lr_lifecycle r') = Some (sh_schema_manifest (ps_header s)).
Proof.
  intros gen Hfit Hgen Hc Hmax Hnew Hs Ed Hfaults Hr Hbase.
  destruct (saved_is_last m s d d' q Hgen Hc Hmax Hnew Hs) as ((hb & Ehb & Hfile) & files & l & Hfiles & Hl). fold gen in Hfile, Hl.
  assert (Hlist : exists snapshots, list_snapshots dir_order (lr_persistence r) d2 = (d2, Some (Ok snapshots)) /\ snapshots.*1 = listing dir_order files).
  { apply listing_no_faults; [done|by rewrite Hbase, Ed]. }
  destruct Hlist as (snapshots & El & Efst). rewrite Hl in Efst. destruct (last_fmap_fst snapshots gen l Efst) as [path Elast].
  pose proof (snapshot_decodes s hb Hfit Ehb (lr_persistence r) gen d2) as Hread.
  assert (Hfile2 : disk_file d2 (snapshot_path (lr_persistence r) gen) = Some (encode hb (table_order (ps_table_data s)))).
  { rewrite (disk_file_dirs d2 d') by done. unfold snapshot_path. by rewrite Hbase. }
  specialize (Hread Hfile2). unfold runs in Hread.
  unfold phase1_snapshot_deserialize, enter_phase, load_advance. rewrite Hr. cbn [load_new ll_current].
  rewrite bool_decide_true by done. unfold latest_snapshot_file, io_bind at 1, io_bind at 1, with_lifecycle at 1. cbn [lr_persistence].
  rewrite El. unfold io_ret at 1. rewrite Elast. unfold io_res, io_bind. cbn [ok_or].
  cbn [lr_persistence with_lifecycle].
  destruct (read_snapshot (lr_persistence r) gen d2) as [d3 [r3|]]; [|done]. destruct Hread as (Hd3 & _ & Hok).
  rewrite (Hok Hfaults). eexists _, _. split; [reflexivity|]. split; [congruence|done].
Qed.
End saved.

(** *** The replay *)

(** A replay adds up the hashes of the records: it reads none of their diffs. *)
Lemma replay_ignores_diffs `{HC : HeaderCodec} `{AL : Allocator} {V : Type} (r : LoadReconstruction) base (records records' : list (CommitRecord V)) d :
  (fun c => (rec_tick c, rec_state_hash c)) <$> records = (fun c => (rec_tick c, rec_state_hash c)) <$> records' ->
  replay_diffs r base records d = replay_diffs r base records' d.
Proof.
  intros H. unfold replay_diffs.
  assert (Hf : forall h, foldl (fun h rec => wrap64 (h + rec_state_hash rec)) h
      (List.filter (fun rec => tick_as_u64 base <? tick_as_u64 (rec_tick rec)) records)
    = foldl (fun h rec => wrap64 (h + rec_state_hash rec)) h
      (List.filter (fun rec => tick_as_u64 base <? tick_as_u64 (rec_tick rec)) records')).
  { revert records' H. induction records as [|c cs IH]; intros [|c' cs'] H h; try done.
    cbn [fmap list_fmap] in H. injection H as Ht Hh H. cbn [List.filter]. rewrite Ht.
    destruct (_ <? _); cbn [foldl]; [rewrite Hh|]; by apply IH. }
  unfold io_bind. destruct (read_snapshot (lr_persistence r) base d) as [d' [[snapshot|e]|]]; [by rewrite Hf|done..].
Qed.
