(* ===== verification/LoadSamples.v ===== *)
(** * LoadSamples: loads of a sample save

    The theorems of the load at work on the disk of [SaveSamples.v] and a new store of
    [StoreSamples.v], and what a load does where they do not reach. *)

From Stdlib Require Import Ascii String.
From stdpp Require Import base gmap strings list.
From Stdlib Require Import ZArith Lia.
From S2P Require Import Prelude RustStr CoreTypes SchemaTables Relations Registry Journal Content RuleCore Arrow ArrowVec ArrowStore StoreRows StoreSamples.
From S2P Require Import Disk SaveErrors SaveSnapshots SaveFacts SaveRetention SaveSamples SaveMigrations ModTolerance LoadReconstruction LoadFacts.

Definition fresh_load : LoadReconstruction := reconstruction_new base_files checker_default.
Definition metadata_in_order (m : gmap string string) : list (string * string) := map_to_list m.

Definition army_edge (to : string) : RelationEdge := sample_edge "army" to.
Definition army_manifest : SchemaManifest :=
  manifest_with_relation (manifest_with_table (manifest_with_table (manifest_new "1.0") army_spec) (table_new "province")) (army_edge "province").

(** A fresh load of no snapshot at all. *)
Definition empty_load : LoadWorld (V := Json) := mkLoadWorld fresh_load (with_saves [] []) store_new.
Abbreviation vload_run := (load_run names_in_order metadata_in_order elements).
Abbreviation vload_step := (load_step names_in_order metadata_in_order elements).

(** Five calls for the last phase, and then the load is finished. *)
Lemma load_goes_by_calls_witness :
  ll_completed (lr_lifecycle (lw_load (vload_step (vload_run empty_load (repeat CallStart 5)) CallStart).1)) = six_phases.
Proof.
  destruct (load_goes_by_calls names_in_order metadata_in_order elements empty_load (repeat CallStart 5)) as (_ & _ & H).
  - reflexivity.
  - apply le_n.
  - apply (H eq_refl).
Defined.

(** The load at the fourth phase, with the manifest migrated. *)
Definition at_compilation : LoadReconstruction :=
  with_lifecycle fresh_load (mkLifecycle (Some SchemaMigration) [SnapshotDeserialize; ModCoordination] None
    (Some (migrated_from_manifest metadata_in_order army_manifest "1.0")) [] false).

Lemma load_creates_tables_witness :
  exists store r, phase4_content_compilation_entry elements at_compilation (store_new (V := Json)) = (store, (r, Ok tt))
  /\ as_tables store !! "army" = Some (vt_set_spec (vt_new "army" AppendOnly) army_spec)
  /\ tier_is_authority (lr_tier_registry r) "army" = true.
Proof.
  destruct (phase4_content_compilation_entry elements at_compilation store_new) as [store [r [[]|e]]] eqn:E.
  2: { apply (f_equal (fun x => is_ok x.2.2)) in E. vm_compute in E. discriminate E. }
  exists store, r. split; [reflexivity|].
  destruct (load_creates_tables elements (fun s => Permutation_refl _) at_compilation r store_new store (Ok tt) E)
    as (migrated & Em & _ & _ & _ & Ht & _).
  injection Em as <-. destruct (Ht army_spec) as (_ & H1 & _ & H2); [vm_compute; left|].
  split; [exact H1|]. apply H2. reflexivity.
Defined.

(** Short entries fit, as a decidable check. *)
Definition small_entry (e : string * bytes) : bool :=
  (length (bytes_of e.1) <? 100)%nat && (length e.2 <? 100)%nat && utf8_valid (bytes_of e.1).

Lemma small_entries_fit (s : PersistedSnapshot) : forallb small_entry (map_to_list (ps_table_data s)) = true ->
  forall name data, ps_table_data s !! name = Some data -> entry_fits (name, data).
Proof.
  intros H name data Hin. apply elem_of_map_to_list, list_elem_of_In in Hin. rewrite forallb_forall in H.
  apply H in Hin. unfold small_entry in Hin. cbn [fst snd] in Hin.
  apply andb_prop in Hin as [[H1%Nat.ltb_lt H2%Nat.ltb_lt]%andb_prop H3].
  unfold entry_fits, fits. cbn [fst snd can_allocate SmallAllocator]. unfold_width.
  split_and!; try done; try lia; apply Z.ltb_lt; lia.
Qed.

Lemma two_table_save_fits : snapshot_fits two_table_save.
Proof.
  split_and!; [|apply small_entries_fit; vm_compute; reflexivity|vm_compute; reflexivity|vm_compute; reflexivity].
  intros hb [= <-]. split; [vm_compute; reflexivity|split; vm_compute; reflexivity].
Qed.

Lemma saved_manifest_is_loaded_witness :
  exists d' q d3 r', vsave (manager_keeping 2) two_table_save (with_saves [3; 4] []) = (d', Some (Ok q))
  /\ phase1_snapshot_deserialize names_in_order fresh_load d' = (d3, (r', Some (Ok (manifest_new "1.0")))).
Proof.
  destruct (vsave (manager_keeping 2) two_table_save (with_saves [3; 4] [])) as [d' [[q|e]|]] eqn:E.
  2,3: apply (f_equal (fun r => from_option is_ok false r.2)) in E; vm_compute in E; discriminate E.
  assert (Hf : dk_faults d' = []) by (apply (f_equal (fun r => dk_faults r.1)) in E; vm_compute in E; symmetry; exact E).
  destruct (saved_manifest_is_loaded names_in_order tables_in_order (fun f => Permutation_refl _) (fun m => Permutation_refl _)
    (manager_keeping 2) two_table_save (with_saves [3; 4] []) d' d' q fresh_load two_table_save_fits ltac:(split; discriminate)
    (names_ok_canonical (with_saves [3; 4] []) eq_refl)) as (d3 & r' & H & _).
  - repeat constructor.
  - intros g Hg H. apply (old_saves g Hg) in H. destruct H as [->| ->]; reflexivity.
  - exact E.
  - reflexivity.
  - exact Hf.
  - reflexivity.
  - reflexivity.
  - exists d', q, d3, r'. split; [reflexivity|exact H].
Defined.

(** ** Outside the theorems *)

(** A load of a directory without snapshots fails its first phase, and finishes all the same. *)
Example load_without_snapshot :
  let w := vload_run empty_load
    [CallDeserialize; CallMods (mkFingerprints []) []; CallMigrate army_manifest; CallCompile; CallFreeze] in
  (vload_step empty_load CallDeserialize).2 = false
  /\ load_is_finished (lr_lifecycle (lw_load (vload_step w CallStart).1)) = true
  /\ ll_manifest (lr_lifecycle (lw_load w)) = None.
Proof. vm_compute. auto. Qed.

(** A table that exists already fails phase 4 half way: the tables before it stay. *)
Example half_compiled :
  let store := default store_new (fst <$> to_option (create_table (V := Json) store_new (table_new "province") AppendOnly)) in
  let '(store', (_, res)) := phase4_content_compilation_entry elements at_compilation store in
  is_ok res = false /\ bool_decide (is_Some (as_tables store' !! "army")) = true.
Proof. vm_compute. auto. Qed.

(** Without a pipeline the fingerprints and the metadata of the manifest are kept; a pipeline that has
    nothing to do drops them. *)
Example pipeline_drops_fingerprints :
  let m := manifest_with_metadata (manifest_with_mod_fingerprint (manifest_new "1.0") (mod_fingerprint_new "base" "1")) "engine_version" "9" in
  length (sm_mod_fingerprints (mm_manifest (migrated_from_manifest metadata_in_order m "1.0"))) = 1%nat
  /\ (fun r => map_ok (fun mm => sm_mod_fingerprints (mm_manifest mm)) r) <$> pipeline_apply (pipeline_new "1.0") m = Some (Ok []).
Proof. vm_compute. auto. Qed.

Definition base_mod (version hash : string) : ModFingerprint :=
  mod_fingerprint_with_content_hash (mod_fingerprint_new "base" version) hash.
Definition gone_mod : ModFingerprint := mod_fingerprint_with_table_spec (mod_fingerprint_new "gone" "1") "army".

(** With a mod changed and one missing the outcome is a version mismatch, and the tables of the missing
    mod are named nowhere; only an extra mod makes it degraded. *)
Example degraded_needs_an_extra_mod :
  let stored := mkFingerprints [base_mod "1" "a"; gone_mod] in
  mods_check checker_default stored [base_mod "2" "b"]
    = Ok (VersionMismatch ["mod base version mismatch: save=1, disk=2"])
  /\ mods_check checker_default stored [base_mod "2" "b"; mod_fingerprint_new "new" "1"]
     = Ok (Degraded ["mod base version mismatch: save=1, disk=2"] ["army"]).
Proof. vm_compute. auto. Qed.

(** A name stored twice hides an extra mod from the strict policy. *)
Example strict_misses_extra_mod :
  mods_check (checker_new Strict) (mkFingerprints [base_mod "1" "a"; base_mod "1" "a"])
    [base_mod "1" "a"; mod_fingerprint_new "new" "1"] = Ok ExactMatch.
Proof. vm_compute. reflexivity. Qed.
