(* ===== verification/InputBuffer.v ===== *)
(** * InputBuffer: player commands between ticks

    Models [error.rs] and [input_buffer.rs] of [scharnhorst_bevy]. The buffer is the state behind its
    mutex; a poisoned lock is not modelled, so the getters, which can fail no other way, are the
    record's fields. [V] is the JSON value of a command. *)

From Stdlib Require Import Ascii String.
From stdpp Require Import base gmap strings list sorting.
From Stdlib Require Import ZArith Lia Sorted.
From S2P Require Import Prelude RustStr CoreTypes Journal.

(** ** Errors *)

Inductive BevyBridgeError :=
| BQueryEngine (s : string)
| BScheduler (s : string)
| BJournal (s : string)
| BArrowStore (s : string)
| BSchema (s : string)
| BSnapshotNotAvailable (tick : Z)
| BMaterializationFailed (row : Z)
| BEntityNotFound (row : Z)
| BSyncFailed (s : string)
| BInputBuffer (s : string)
| BRefreshHandler (s : string)
| BNonPlayerCommandRejected
| BTickAlignmentError (expected actual : Tick) (reason : string)
| BLockPoisoned (s : string)
| BGeneric (s : string).

Abbreviation BevyBridgeResult := (result BevyBridgeError).

Definition bridge_error_text (e : BevyBridgeError) : string :=
  match e with
  | BQueryEngine s => "query engine error: " +:+ s
  | BScheduler s => "scheduler error: " +:+ s
  | BJournal s => "journal error: " +:+ s
  | BArrowStore s => "arrow store error: " +:+ s
  | BSchema s => "schema error: " +:+ s
  | BSnapshotNotAvailable tick => "snapshot not available for tick " +:+ show_u64 tick
  | BMaterializationFailed row => "entity materialization failed for row " +:+ show_u64 row
  | BEntityNotFound row => "entity not found for row " +:+ show_u64 row
  | BSyncFailed s => "sync failed: " +:+ s
  | BInputBuffer s => "input buffer error: " +:+ s
  | BRefreshHandler s => "refresh handler error: " +:+ s
  | BNonPlayerCommandRejected => "command rejected: player commands only; AI and internal must bypass bridge"
  | BTickAlignmentError expected actual reason =>
      "tick alignment error: expected tick " +:+ show_u64 (tick_as_u64 expected) +:+ ", got "
        +:+ show_u64 (tick_as_u64 actual) +:+ " - " +:+ reason
  | BLockPoisoned s => "lock poisoned: " +:+ s
  | BGeneric s => "generic error: " +:+ s
  end.

(** ** Sources *)

Inductive CommandSource :=
| Player (player_id : Z)
| Ai (ai_id : string)
| Internal (system : string).

Definition source_is_player (s : CommandSource) : bool := match s with Player _ => true | _ => false end.
Definition source_is_ai (s : CommandSource) : bool := match s with Ai _ => true | _ => false end.
Definition source_is_internal (s : CommandSource) : bool := match s with Internal _ => true | _ => false end.
Definition to_source_string (s : CommandSource) : string :=
  match s with
  | Player player_id => "player_" +:+ show_u64 player_id
  | Ai ai_id => "ai_" +:+ ai_id
  | Internal system => "internal_" +:+ system
  end.

Section buffer.
Context {V : Type}.

Record CommandBatch := mkCommandBatch { cb_tick : Tick; cb_commands : list (CommandEnvelope V) }.
Definition command_batch_new (tick : Tick) : CommandBatch := mkCommandBatch tick [].
Definition batch_with_commands (tick : Tick) (commands : list (CommandEnvelope V)) : CommandBatch :=
  mkCommandBatch tick commands.
Definition batch_is_empty (b : CommandBatch) : bool := match cb_commands b with [] => true | _ => false end.

(** ** The buffer *)

Record InputCommandBuffer := mkBuffer {
  ib_queue : list (CommandEnvelope V); ib_current_tick : Tick; ib_player_id : Z;
  ib_last_consumed_tick : Tick; ib_tick_prepared : bool }.

Definition buffer_new : InputCommandBuffer := mkBuffer [] tick_ZERO 0 tick_ZERO false.
Definition with_buffer_queue (b : InputCommandBuffer) q : InputCommandBuffer :=
  mkBuffer q (ib_current_tick b) (ib_player_id b) (ib_last_consumed_tick b) (ib_tick_prepared b).
Definition buffer_set_player_id (b : InputCommandBuffer) (player_id : Z) : InputCommandBuffer :=
  mkBuffer (ib_queue b) (ib_current_tick b) player_id (ib_last_consumed_tick b) (ib_tick_prepared b).
Definition buffer_with_player_id : InputCommandBuffer -> Z -> InputCommandBuffer := buffer_set_player_id.
Definition buffer_set_tick (b : InputCommandBuffer) (tick : Tick) : InputCommandBuffer :=
  mkBuffer (ib_queue b) tick (ib_player_id b) (ib_last_consumed_tick b) (ib_tick_prepared b).

Definition prepare_for_tick (b : InputCommandBuffer) (tick : Tick) : BevyBridgeResult InputCommandBuffer :=
  if tick_as_u64 tick <? tick_as_u64 (ib_current_tick b)
  then Err (BTickAlignmentError (ib_current_tick b) tick "tick cannot go backwards")
  else Ok (mkBuffer (ib_queue b) tick (ib_player_id b) (ib_last_consumed_tick b) true).

Definition push_back (b : InputCommandBuffer) (source : string) (command : Command V) : InputCommandBuffer :=
  with_buffer_queue b (ib_queue b ++ [mkEnvelope (ib_current_tick b) source command]).
Definition buffer_push (b : InputCommandBuffer) (command : Command V) : InputCommandBuffer :=
  push_back b ("player_" +:+ show_u64 (ib_player_id b)) command.
Definition push_with_source (b : InputCommandBuffer) (source : CommandSource) (command : Command V)
  : BevyBridgeResult InputCommandBuffer :=
  if negb (source_is_player source) then Err BNonPlayerCommandRejected
  else Ok (push_back b (to_source_string source) command).
Definition push_ai (b : InputCommandBuffer) (command : Command V) : BevyBridgeResult InputCommandBuffer :=
  Err BNonPlayerCommandRejected.
Definition submit_player_command : InputCommandBuffer -> CommandSource -> Command V -> BevyBridgeResult InputCommandBuffer :=
  push_with_source.

Definition drain_commands (b : InputCommandBuffer) (tick : Tick) : BevyBridgeResult (InputCommandBuffer * CommandBatch) :=
  if negb (ib_tick_prepared b)
  then Err (BTickAlignmentError tick (ib_current_tick b) "prepare_for_tick must be called before drain_commands")
  else if negb (bool_decide (tick = ib_current_tick b))
  then Err (BTickAlignmentError (ib_current_tick b) tick "tick mismatch")
  else Ok (mkBuffer [] (ib_current_tick b) (ib_player_id b) tick false, batch_with_commands tick (ib_queue b)).

Definition buffer_drain (b : InputCommandBuffer) : InputCommandBuffer * list (CommandEnvelope V) :=
  (with_buffer_queue b [], ib_queue b).
Definition buffer_len (b : InputCommandBuffer) : nat := length (ib_queue b).
Definition buffer_peek (b : InputCommandBuffer) : option (CommandEnvelope V) := head (ib_queue b).
Definition buffer_clear (b : InputCommandBuffer) : InputCommandBuffer := with_buffer_queue b [].

(** [consume_commands], [peek_pending] and [pending_count] of [CommandBufferConsumer]. When the drain
    fails the preparation stays. *)
Definition consume_commands (b : InputCommandBuffer) (tick : Tick) : InputCommandBuffer * BevyBridgeResult CommandBatch :=
  match prepare_for_tick b tick with
  | Err e => (b, Err e)
  | Ok b => match drain_commands b tick with Err e => (b, Err e) | Ok (b, batch) => (b, Ok batch) end
  end.
Definition peek_pending (b : InputCommandBuffer) : list (CommandEnvelope V) := ib_queue b.
Definition pending_count (b : InputCommandBuffer) : nat := buffer_len b.

(** ** Operations as steps *)

Inductive BufferOp :=
| BufSetTick (tick : Tick)
| BufSetPlayer (player_id : Z)
| BufPrepare (tick : Tick)
| BufPush (command : Command V)
| BufPushWithSource (source : CommandSource) (command : Command V)
| BufPushAi (command : Command V)
| BufSubmit (source : CommandSource) (command : Command V)
| BufDrainCommands (tick : Tick)
| BufConsume (tick : Tick)
| BufDrain
| BufClear.

Definition keep {A} (b : InputCommandBuffer) (r : BevyBridgeResult A) (f : A -> InputCommandBuffer) : InputCommandBuffer :=
  match r with Ok a => f a | Err _ => b end.

(** The buffer after a call, and what the call delivered: the tick of a tick-aligned batch, and the
    commands. *)
Definition buffer_step (b : InputCommandBuffer) (op : BufferOp)
  : InputCommandBuffer * list (option Tick * list (CommandEnvelope V)) :=
  match op with
  | BufSetTick tick => (buffer_set_tick b tick, [])
  | BufSetPlayer p => (buffer_set_player_id b p, [])
  | BufPrepare tick => (keep b (prepare_for_tick b tick) id, [])
  | BufPush c => (buffer_push b c, [])
  | BufPushWithSource s c => (keep b (push_with_source b s c) id, [])
  | BufPushAi c => (keep b (push_ai b c) id, [])
  | BufSubmit s c => (keep b (submit_player_command b s c) id, [])
  | BufDrainCommands tick =>
      match drain_commands b tick with
      | Ok (b, batch) => (b, [(Some (cb_tick batch), cb_commands batch)])
      | Err _ => (b, [])
      end
  | BufConsume tick =>
      let '(b, r) := consume_commands b tick in
      (b, match r with Ok batch => [(Some (cb_tick batch), cb_commands batch)] | Err _ => [] end)
  | BufDrain => let '(b, cs) := buffer_drain b in (b, [(None, cs)])
  | BufClear => (buffer_clear b, [])
  end.

Fixpoint buffer_run (b : InputCommandBuffer) (ops : list BufferOp)
  : InputCommandBuffer * list (option Tick * list (CommandEnvelope V)) :=
  match ops with
  | [] => (b, [])
  | op :: ops => let '(b, out) := buffer_step b op in
                 let '(b, outs) := buffer_run b ops in (b, out ++ outs)
  end.

(** The command a call accepts, stamped with the tick and the player of the buffer. *)
Definition accepted (b : InputCommandBuffer) (op : BufferOp) : list (CommandEnvelope V) :=
  match op with
  | BufPush c => [mkEnvelope (ib_current_tick b) (to_source_string (Player (ib_player_id b))) c]
  | BufPushWithSource (Player p) c | BufSubmit (Player p) c =>
      [mkEnvelope (ib_current_tick b) (to_source_string (Player p)) c]
  | _ => []
  end.
Fixpoint all_accepted (b : InputCommandBuffer) (ops : list BufferOp) : list (CommandEnvelope V) :=
  match ops with
  | [] => []
  | op :: ops => accepted b op ++ all_accepted (buffer_step b op).1 ops
  end.
End buffer.

(** ** What the buffer guarantees *)

Section guarantees.
Context {V : Type}.
Implicit Types (b : InputCommandBuffer (V := V)) (ops : list (BufferOp (V := V))).

Definition is_clear (op : BufferOp (V := V)) : bool := match op with BufClear => true | _ => false end.
Definition is_set_tick (op : BufferOp (V := V)) : bool := match op with BufSetTick _ => true | _ => false end.
Definition stamp (e : CommandEnvelope V) : Z := tick_as_u64 (env_tick e).
Definition all_delivered (outs : list (option Tick * list (CommandEnvelope V))) : list (CommandEnvelope V) := outs ≫= snd.
Definition batch_ticks (outs : list (option Tick * list (CommandEnvelope V))) : list Z := omap (fun o => tick_as_u64 <$> o.1) outs.

Lemma step_flow b op :
  let (b', out) := buffer_step b op in
  if is_clear op then out = [] /\ ib_queue b' = [] else ib_queue b ++ accepted b op = all_delivered out ++ ib_queue b'.
Proof.
  destruct op as [t|p|t|c|s c|c|s c|t|t| |]; simpl; rewrite ?app_nil_r; try done.
  - unfold prepare_for_tick. by destruct (_ <? _).
  - destruct s; simpl; by rewrite ?app_nil_r.
  - destruct s; simpl; by rewrite ?app_nil_r.
  - unfold drain_commands. destruct (negb _); [done|]. destruct (negb _); [done|]. simpl. by rewrite !app_nil_r.
  - unfold consume_commands, prepare_for_tick. destruct (_ <? _); [done|]. unfold drain_commands. simpl.
    destruct (negb _); [done|]. simpl. by rewrite !app_nil_r.
Qed.

Lemma buffer_flow b ops :
  let (b', outs) := buffer_run b ops in
  (existsb is_clear ops = false -> ib_queue b ++ all_accepted b ops = all_delivered outs ++ ib_queue b')
  /\ all_delivered outs ++ ib_queue b' `sublist_of` ib_queue b ++ all_accepted b ops
  /\ Forall (fun e => exists p, env_source e = to_source_string (Player p)) (all_accepted b ops).
Proof.
  revert b. induction ops as [|op ops IH]; intros b; cbn [buffer_run all_accepted].
  { split_and!; [intros _; by rewrite app_nil_r|by rewrite app_nil_r|constructor]. }
  pose proof (step_flow b op) as Hs. destruct (buffer_step b op) as [b1 out] eqn:E. cbn [fst].
  specialize (IH b1). destruct (buffer_run b1 ops) as [b' outs]. destruct IH as (H1 & H2 & H3).
  unfold all_delivered in *. rewrite bind_app, <- app_assoc. split_and!.
  - cbn [existsb]. intros [Hc Ho]%orb_false_iff. rewrite Hc in Hs. rewrite app_assoc, Hs, <- app_assoc. f_equal. by apply H1.
  - destruct (is_clear op).
    + destruct Hs as [-> Hq]. rewrite Hq in H2. cbn in *. etrans; [exact H2|].
      apply sublist_inserts_l. by apply sublist_inserts_l.
    + rewrite (app_assoc (ib_queue b)), Hs, <- app_assoc. by apply sublist_app.
  - apply Forall_app. split; [|done].
    destruct op as [t|p|t|c|s c|c|s c|t|t| |]; try (by constructor); [by repeat constructor; eexists|..];
      destruct s; repeat constructor; by eexists.
Qed.

(** C26: Every command the buffer accepts is delivered once, in the order of the calls, or is still in the
    queue; only [clear] drops any. Other commands are refused: what is accepted comes from a player. *)
Theorem buffer_delivers_in_order b ops :
  let (b', outs) := buffer_run b ops in
  (existsb is_clear ops = false -> ib_queue b ++ all_accepted b ops = all_delivered outs ++ ib_queue b')
  /\ all_delivered outs ++ ib_queue b' `sublist_of` ib_queue b ++ all_accepted b ops
  /\ Forall (fun e => exists p, env_source e = to_source_string (Player p)) (all_accepted b ops).
Proof. exact (buffer_flow b ops). Qed.

Lemma step_tick b op : is_set_tick op = false ->
  let (b', out) := buffer_step b op in
  tick_as_u64 (ib_current_tick b) <= tick_as_u64 (ib_current_tick b')
  /\ Forall (fun t => t = tick_as_u64 (ib_current_tick b')) (batch_ticks out)
  /\ (forall P : CommandEnvelope V -> Prop, Forall P (ib_queue b) -> Forall (fun o => Forall P o.2) out)
  /\ Forall (fun e => stamp e = tick_as_u64 (ib_current_tick b')) (accepted b op).
Proof.
  intros Hn. destruct op as [t|p|t|c|s c|c|s c|t|t| |]; [done|..]; unfold buffer_step, accepted, keep, id.
  8: unfold consume_commands, prepare_for_tick, drain_commands;
    destruct (Z.ltb_spec (tick_as_u64 t) (tick_as_u64 (ib_current_tick b))); cbn [ib_tick_prepared ib_current_tick negb];
    [|rewrite bool_decide_true by done].
  7: unfold drain_commands; destruct (negb (ib_tick_prepared b)); [|case_bool_decide as E; [subst t|]].
  4, 6: destruct s.
  2: unfold prepare_for_tick; destruct (Z.ltb_spec (tick_as_u64 t) (tick_as_u64 (ib_current_tick b))).
  all: split_and!; [apply Z.le_refl || (simpl; lia)|by repeat constructor|intros; by repeat constructor|by repeat constructor].
Qed.

Lemma run_ticks ops : forall b, existsb is_set_tick ops = false ->
  Forall (fun e => stamp e <= tick_as_u64 (ib_current_tick b)) (ib_queue b) ->
  let (b', outs) := buffer_run b ops in
  Forall (fun t => tick_as_u64 (ib_current_tick b) <= t) (batch_ticks outs)
  /\ StronglySorted Z.le (batch_ticks outs)
  /\ Forall (fun o => forall t, o.1 = Some t -> Forall (fun e => stamp e <= tick_as_u64 t) o.2) outs
  /\ Forall (fun e => tick_as_u64 (ib_current_tick b) <= stamp e) (all_accepted b ops)
  /\ StronglySorted Z.le (stamp <$> all_accepted b ops).
Proof.
  induction ops as [|op ops IH]; intros b Hn Hq; cbn [buffer_run all_accepted].
  { split_and!; constructor. }
  cbn [existsb] in Hn. apply orb_false_iff in Hn as [Hop Hn].
  pose proof (step_tick b op Hop) as Ht. pose proof (step_flow b op) as Hf.
  destruct (buffer_step b op) as [b1 out] eqn:E. cbn [fst]. destruct Ht as (Hle & Hbt & Hout & Hacc).
  assert (Hq1 : Forall (fun e => stamp e <= tick_as_u64 (ib_current_tick b1)) (ib_queue b1)).
  { destruct (is_clear op); [destruct Hf as [_ ->]; constructor|].
    assert (Hall : Forall (fun e => stamp e <= tick_as_u64 (ib_current_tick b1)) (ib_queue b ++ accepted b op)).
    { apply Forall_app. split; [eapply Forall_impl; [exact Hq|simpl; lia]|eapply Forall_impl; [exact Hacc|simpl; lia]]. }
    rewrite Hf in Hall. by apply Forall_app in Hall as [_ ?]. }
  specialize (IH b1 Hn Hq1). destruct (buffer_run b1 ops) as [b' outs]. destruct IH as (H1 & H2 & H3 & H4 & H5).
  unfold batch_ticks in *. rewrite omap_app, fmap_app. split_and!.
  - apply Forall_app. split; [eapply Forall_impl; [exact Hbt|simpl; lia]|eapply Forall_impl; [exact H1|simpl; lia]].
  - induction Hbt as [|t ts Et Hts IHt]; [done|]. cbn [app]. constructor; [done|]. subst t. apply Forall_app. split.
    + eapply Forall_impl; [exact Hts|simpl; lia].
    + done.
  - apply Forall_app. split; [|done]. specialize (Hout _ Hq). rewrite Forall_forall in Hout. apply Forall_forall.
    intros [ot cs] Ho t [= ->]. specialize (Hout _ Ho). cbn [snd] in *. rewrite Forall_forall in Hbt.
    eapply Forall_impl; [exact Hout|]. intros e He.
    assert (tick_as_u64 t = tick_as_u64 (ib_current_tick b1)) as ->; [|simpl in He; lia].
    apply Hbt, list_elem_of_omap. by exists (Some t, cs).
  - apply Forall_app. split; [eapply Forall_impl; [exact Hacc|simpl; lia]|eapply Forall_impl; [exact H4|simpl; lia]].
  - clear Hf. induction Hacc as [|e es Ee Hes IHe]; [done|]. cbn [fmap list_fmap app]. constructor; [done|].
    apply Forall_app. split; apply Forall_fmap; [eapply Forall_impl; [exact Hes|simpl; lia]|].
    eapply Forall_impl; [exact H4|simpl; lia].
Qed.

Lemma sorted_sublist {A} (f : A -> Z) (k l : list A) : k `sublist_of` l -> StronglySorted Z.le (f <$> l) -> StronglySorted Z.le (f <$> k).
Proof.
  induction 1 as [|x k l Hs IH|x k l Hs IH]; [done|..]; rewrite ?fmap_cons; intros [Hl Hx]%StronglySorted_inv; [|auto].
  constructor; [auto|]. rewrite Forall_fmap in *. rewrite Forall_forall in *. intros y Hy. apply Hx. by eapply elem_of_sublist.
Qed.

(** As long as nobody sets the tick by hand, the batches of a buffer come at ticks that never go
    back, each holds commands stamped at its tick or before, and the commands come in the order of
    their stamps. *)
Theorem batches_are_aligned ops :
  existsb is_set_tick ops = false ->
  let (b', outs) := buffer_run buffer_new ops in
  StronglySorted Z.le (batch_ticks outs)
  /\ Forall (fun o => forall t, o.1 = Some t -> Forall (fun e => stamp e <= tick_as_u64 t) o.2) outs
  /\ StronglySorted Z.le (stamp <$> all_delivered outs ++ ib_queue b').
Proof.
  intros Hn. pose proof (run_ticks ops buffer_new Hn ltac:(constructor)) as Ht.
  pose proof (buffer_flow buffer_new ops) as Hd.
  destruct (buffer_run buffer_new ops) as [b' outs]. destruct Ht as (_ & H1 & H2 & _ & H3). destruct Hd as (_ & Hsub & _).
  split_and!; [done|done|]. by eapply sorted_sublist.
Qed.
End guarantees.

Definition raw_command (n : Z) : Command Z := Raw "order" n.
Definition buffer_calls : list (BufferOp (V := Z)) :=
  [BufPush (raw_command 1); BufConsume (mkTick 1); BufPush (raw_command 2); BufPrepare (mkTick 3); BufPushAi (raw_command 9);
   BufPush (raw_command 3); BufDrainCommands (mkTick 3)].

Lemma batches_are_aligned_witness :
  StronglySorted Z.le (batch_ticks (buffer_run buffer_new buffer_calls).2)
  /\ batch_ticks (buffer_run buffer_new buffer_calls).2 = [1; 3].
Proof.
  pose proof (batches_are_aligned buffer_calls eq_refl) as H. split; [|reflexivity].
  destruct (buffer_run buffer_new buffer_calls) as [b' outs]. exact (proj1 H).
Defined.

(** A tick can be prepared over commands that were never consumed, and set by hand to go back: the batch
    then holds a command of a later tick. *)
Example tick_prepared_over_pending :
  is_ok (let? b := prepare_for_tick (buffer_push buffer_new (raw_command 1)) (mkTick 1) in prepare_for_tick b (mkTick 2)) = true.
Proof. reflexivity. Qed.
Example set_tick_goes_back :
  (buffer_run buffer_new [BufSetTick (mkTick 5); BufPush (raw_command 1); BufSetTick (mkTick 2); BufConsume (mkTick 3)]).2
  = [(Some (mkTick 3), [mkEnvelope (mkTick 5) "player_0" (raw_command 1)])].
Proof. reflexivity. Qed.
