(* ===== verification/BevyViews.v ===== *)
(** * BevyViews: entities that stand for rows, and the view model they are synced from

    Models [view_of.rs], [tier.rs], [materialization.rs], [sync.rs] and [refresh_handler.rs] of
    [scharnhorst_bevy] over the query engine of [QueryEngine.v]. The entities are those of the Bevy
    engine, a third-party crate: [EcsOps] is what the code uses of it. Spawning and despawning through
    [Commands] take effect in the order of the calls. The locks are not modelled. *)

From Stdlib Require Import Ascii String.
From stdpp Require Import base gmap strings list fin_maps.
From Stdlib Require Import ZArith Lia.
From S2P Require Import Prelude RustStr CoreTypes SchemaTables Registry RuleCore Rules Arrow ArrowBatch ArrowStore WorldView ReadViews ErrorText QueryEngine SqlParser InputBuffer.

(** ** Components *)

Record ViewOf := mkViewOf { vo_row_id : RowId; vo_table_name : string; vo_generation : Z }.
Definition view_of_new (row : RowId) (table : string) : ViewOf := mkViewOf row table 0.
Definition view_of_with_generation (row : RowId) (table : string) (generation : Z) : ViewOf := mkViewOf row table generation.
Definition view_of_set_generation (v : ViewOf) (generation : Z) : ViewOf :=
  mkViewOf (vo_row_id v) (vo_table_name v) generation.

Definition register_bevy_ephemeral_tables : TierRegistry :=
  foldl (fun r t => match tier_register r t.1 Ephemeral "bevy_bridge" t.2 with Ok r => r | Err _ => r end) tier_new
    [("bevy_hover", "hovered entity tracking (transient per tick)");
     ("bevy_selection", "selected entity set (transient per tick)");
     ("bevy_camera", "active camera state (position, rotation, zoom)")].

(** The entities: [spawn] gives a fresh one its component. *)
Class EcsOps := {
  World : Type; Entity : Type;
  entity_eq_dec :: EqDecision Entity; entity_countable :: Countable Entity;
  spawn : World -> ViewOf -> World * Entity;
  despawn : World -> Entity -> World;
  entity_index : Entity -> Z }.

Class EcsLaws `{EcsOps} := {
  live : World -> gmap Entity ViewOf;
  spawn_fresh w v : live w !! (spawn w v).2 = None;
  spawn_live w v : live (spawn w v).1 = <[(spawn w v).2 := v]> (live w);
  despawn_live w e : live (despawn w e) = delete e (live w) }.

(** [==] of JSON values *)
Class JsonEq (V : Type) := { json_eqb : V -> V -> bool }.

(** ** Materialization *)

Section materialization.
Context {V : Type} `{JR : JsonRead V} `{JO : JsonOps V} `{JI : JsonInteger V} `{JE : JsonEq V}.
Context `{AO : ArrowOps} `{CO : !ConcatOps} `{EO : EcsOps}.
Context (row_order : gmap Z (Z * Z) -> list (Z * (Z * Z))).
Context (key_order : gmap (string * RowId) Entity -> list ((string * RowId) * Entity)).

Inductive MaterializationFilter :=
| ColumnEquals (column : string) (value : V)
| RowIdRange (first_row last_row : RowId)
| AllRows.

Record MaterializationConfig := mkConfig {
  mc_table : string; mc_filter : option MaterializationFilter; mc_max_entities : option Z }.
Definition config_new (table : string) : MaterializationConfig := mkConfig table None None.
Definition config_with_filter (c : MaterializationConfig) (f : MaterializationFilter) : MaterializationConfig :=
  mkConfig (mc_table c) (Some f) (mc_max_entities c).
Definition config_with_max_entities (c : MaterializationConfig) (max : Z) : MaterializationConfig :=
  mkConfig (mc_table c) (mc_filter c) (Some max).

Definition matches_row_id (f : MaterializationFilter) (row : RowId) : bool :=
  match f with
  | AllRows | ColumnEquals _ _ => true
  | RowIdRange first_row last_row =>
      (row_id_as_u64 first_row <=? row_id_as_u64 row) && (row_id_as_u64 row <=? row_id_as_u64 last_row)
  end.

(** [serde_json::json!] of the value of a cell; a float that is not finite is null *)
Definition scalar_json (dt : DataType) (v : Scalar) : option V :=
  match dt, v with
  | DInt64, SInt z => Some (json_i64 z)
  | DUInt64, SInt z => Some (json_u64 z)
  | DFloat64, SFloat x => Some (default json_null (json_from_f64 x))
  | DBoolean, SBool b => Some (json_bool b)
  | DUtf8, SText s | DLargeUtf8, SText s => Some (json_string s)
  | _, _ => None
  end.

Definition arrow_value_at (batch : RecordBatch) (column : string) (row_offset : nat) : option V :=
  match schema_index_of (rb_schema batch) column with
  | Err _ => None
  | Ok col_idx =>
      array ← rb_columns batch !! col_idx;
      if (arr_len array <=? row_offset)%nat then None
      else if arr_is_null array row_offset then Some json_null
      else scalar_json (arr_data_type array) (arr_value array row_offset)
  end.

Definition matches_value (f : MaterializationFilter) (batch : RecordBatch) (row_offset : nat) : bool :=
  match f with
  | AllRows | RowIdRange _ _ => true
  | ColumnEquals column value =>
      match arrow_value_at batch column row_offset with Some v => json_eqb v value | None => false end
  end.

Record EntityMaterializationRegistry := mkEntities {
  er_inner : gmap (string * RowId) Entity; er_configs : list MaterializationConfig }.
Definition entities_new : EntityMaterializationRegistry := mkEntities ∅ [].
Definition register_config (r : EntityMaterializationRegistry) (c : MaterializationConfig) : EntityMaterializationRegistry :=
  mkEntities (er_inner r) (er_configs r ++ [c]).
Definition entity_register (r : EntityMaterializationRegistry) (table : string) (row : RowId) (e : Entity)
  : EntityMaterializationRegistry := mkEntities (<[(table, row) := e]> (er_inner r)) (er_configs r).
Definition entity_lookup (r : EntityMaterializationRegistry) (table : string) (row : RowId) : option Entity :=
  er_inner r !! (table, row).
Definition entity_unregister (r : EntityMaterializationRegistry) (table : string) (row : RowId)
  : EntityMaterializationRegistry * option Entity :=
  (mkEntities (delete (table, row) (er_inner r)) (er_configs r), er_inner r !! (table, row)).
Definition entity_len (r : EntityMaterializationRegistry) : nat := size (er_inner r).
Definition entity_table_names (order : gset string -> list string) (r : EntityMaterializationRegistry) : list string :=
  order (list_to_set ((fun p => p.1.1) <$> key_order (er_inner r))).

(** The [continue]s of the loop over the rows. *)
Definition filter_admits (view : TableReadView) (f : MaterializationFilter) (row : RowId) : bool :=
  matches_row_id f row &&
  match f with
  | ColumnEquals _ _ =>
      match rpm_position_of (tv_position_map view) row with
      | None => false
      | Some (batch_idx, row_offset) =>
          match tv_batches view !! Z.to_nat batch_idx with
          | None => false
          | Some batch => matches_value f batch (Z.to_nat row_offset)
          end
      end
  | _ => true
  end.
Definition config_admits (view : TableReadView) (c : MaterializationConfig) (row : RowId) : bool :=
  match mc_filter c with Some f => filter_admits view f row | None => true end.

Definition sorted_rows (view : TableReadView) : list RowId :=
  sort_by_key row_id_as_u64 ((fun p => mkRowId p.1) <$> row_order (rpm_entries (tv_position_map view))).

Fixpoint materialize_rows (view : TableReadView) (c : MaterializationConfig) (generation max count : Z) (rows : list RowId)
    (r : EntityMaterializationRegistry) (w : World) (spawned : list Entity)
  : EntityMaterializationRegistry * World * list Entity :=
  match rows with
  | [] => (r, w, spawned)
  | row :: rows =>
      if max <=? count then (r, w, spawned)
      else if negb (config_admits view c row) then materialize_rows view c generation max count rows r w spawned
      else match entity_lookup r (mc_table c) row with
           | Some _ => materialize_rows view c generation max count rows r w spawned
           | None =>
               let '(w, e) := spawn w (view_of_with_generation row (mc_table c) generation) in
               let r := entity_register r (mc_table c) row e in
               materialize_rows view c generation max (count + 1) rows r w (spawned ++ [e])
           end
  end.

Fixpoint materialize_configs (q : QueryEngine) (configs : list MaterializationConfig)
    (r : EntityMaterializationRegistry) (w : World) (spawned : list Entity)
  : EntityMaterializationRegistry * World * BevyBridgeResult (list Entity) :=
  match configs with
  | [] => (r, w, Ok spawned)
  | c :: configs =>
      match engine_latest_tick q with
      | None => (r, w, Err (BSnapshotNotAvailable 0))
      | Some tick =>
          match read_single_table q tick (mc_table c) with
          | Err e => (r, w, Err (BQueryEngine (query_error_text e)))
          | Ok view =>
              let max := default u64_max (mc_max_entities c) in
              let '(r, w, spawned) :=
                materialize_rows view c (tick_as_u64 tick) max 0 (sorted_rows view) r w spawned in
              materialize_configs q configs r w spawned
          end
      end
  end.

Definition materialize (r : EntityMaterializationRegistry) (w : World) (q : QueryEngine)
  : EntityMaterializationRegistry * World * BevyBridgeResult (list Entity) :=
  materialize_configs q (er_configs r) r w [].

Definition dematerialize (r : EntityMaterializationRegistry) (w : World) (e : Entity)
  : EntityMaterializationRegistry * World * BevyBridgeResult unit :=
  match fst <$> List.find (fun p => bool_decide (p.2 = e)) (key_order (er_inner r)) with
  | Some (table, row) => ((entity_unregister r table row).1, despawn w e, Ok tt)
  | None => (r, w, Err (BEntityNotFound (entity_index e)))
  end.

Definition dematerialize_all (r : EntityMaterializationRegistry) (w : World) : EntityMaterializationRegistry * World :=
  (mkEntities ∅ (er_configs r), foldl despawn w (snd <$> key_order (er_inner r))).

Record MaterializeRequest := mkMaterialize { mr_row_id : RowId; mr_table_name : string }.

Definition materialize_entity (r : EntityMaterializationRegistry) (w : World) (request : MaterializeRequest)
  : EntityMaterializationRegistry * World * BevyBridgeResult Entity :=
  match entity_lookup r (mr_table_name request) (mr_row_id request) with
  | Some existing => (r, w, Ok existing)
  | None =>
      let '(w, e) := spawn w (view_of_new (mr_row_id request) (mr_table_name request)) in
      (entity_register r (mr_table_name request) (mr_row_id request) e, w, Ok e)
  end.

Definition dematerialize_entity (r : EntityMaterializationRegistry) (w : World) (request : MaterializeRequest)
  : EntityMaterializationRegistry * World * BevyBridgeResult Entity :=
  match entity_unregister r (mr_table_name request) (mr_row_id request) with
  | (r, Some e) => (r, despawn w e, Ok e)
  | (r, None) => (r, w, Err (BEntityNotFound (row_id_as_u64 (mr_row_id request))))
  end.

(** [views] is what the Bevy query yields. *)
Definition entities_for_table (views : list (Entity * ViewOf)) (table : string) : list (Entity * RowId) :=
  (fun p => (p.1, vo_row_id p.2)) <$> List.filter (fun p => bool_decide (vo_table_name p.2 = table)) views.
End materialization.

(** ** The view model *)

Section sync.
Context `{AO : ArrowOps} `{CO : !ConcatOps} `{EO : EcsOps}.

Record ViewModel := mkViewModel {
  vm_snapshot : option WorldView; vm_latest_tick : option Tick; vm_generation : Z }.
Definition view_model_new : ViewModel := mkViewModel None None 0.
Definition view_model_refresh (m : ViewModel) (snapshot : WorldView) (generation : Z) : ViewModel :=
  mkViewModel (Some snapshot) (Some (wv_tick snapshot)) generation.

Definition read_table_via_query_engine (m : ViewModel) (q : QueryEngine) (table : string)
  : BevyBridgeResult (option TableReadView) :=
  let? tick := ok_or (vm_latest_tick m) (BSnapshotNotAvailable 0) in
  let? response := map_err (fun e => BQueryEngine (query_error_text e))
                     (engine_read q (request_with_table (request_new tick) table)) in
  Ok (match response_get response table with Ok view => Some view | Err _ => None end).

Record SyncEntry := mkSyncEntry { se_table : string; se_generation : Z; se_last_sync_tick : Tick }.
Record SyncState := mkSync { sy_view_models : gmap Entity SyncEntry; sy_dirty : gset Entity }.

Definition sync_new : SyncState := mkSync ∅ ∅.
Definition register_entity (s : SyncState) (e : Entity) (table : string) (generation : Z) (tick : Tick) : SyncState :=
  mkSync (<[e := mkSyncEntry table generation tick]> (sy_view_models s)) (sy_dirty s).
Definition unregister_entity (s : SyncState) (e : Entity) : SyncState :=
  mkSync (delete e (sy_view_models s)) (sy_dirty s ∖ {[e]}).
Definition mark_dirty (s : SyncState) (e : Entity) : SyncState := mkSync (sy_view_models s) ({[e]} ∪ sy_dirty s).
Definition mark_all_dirty (s : SyncState) : SyncState := mkSync (sy_view_models s) (sy_dirty s ∪ dom (sy_view_models s)).
Definition sync_is_dirty (s : SyncState) (e : Entity) : bool := bool_decide (e ∈ sy_dirty s).
Definition dirty_count (s : SyncState) : nat := size (sy_dirty s).
Definition clear_dirty (s : SyncState) : SyncState := mkSync (sy_view_models s) ∅.

(** [entity_order] is that of the set of dirty entities; the count saturates at the width. *)
Definition sync_step (m : ViewModel) (q : QueryEngine) (s : SyncState) (acc : Z * list string) (e : Entity)
  : Z * list string :=
  match sy_view_models s !! e with
  | None => acc
  | Some entry =>
      match read_table_via_query_engine m q (se_table entry) with
      | Ok _ => (saturating_add_u64 acc.1 1, acc.2)
      | Err err => (acc.1, acc.2 ++ [bridge_error_text err])
      end
  end.
Definition sync_all (entity_order : gset Entity -> list Entity) (s : SyncState) (m : ViewModel) (q : QueryEngine)
  : SyncState * BevyBridgeResult Z :=
  let '(synced, errors) := foldl (sync_step m q s) (0, []) (entity_order (sy_dirty s)) in
  (clear_dirty s,
   match errors with [] => Ok synced | _ => Err (BSyncFailed (String.concat "; " errors)) end).

(** [SyncField::fetch] is the argument [fetch]; the components the query yields are updated in turn,
    and those before an error stay updated. *)
Fixpoint sync_table_components {C} (fetch : RowId -> BevyBridgeResult (option C)) (table : string)
    (components : list (Entity * ViewOf * C)) (updated : Z) : list (Entity * ViewOf * C) * BevyBridgeResult Z :=
  match components with
  | [] => ([], Ok updated)
  | (e, view, c) :: rest =>
      if negb (bool_decide (vo_table_name view = table))
      then let '(rest, r) := sync_table_components fetch table rest updated in ((e, view, c) :: rest, r)
      else match fetch (vo_row_id view) with
           | Err err => ((e, view, c) :: rest, Err err)
           | Ok (Some new_value) =>
               let '(rest, r) := sync_table_components fetch table rest (saturating_add_u64 updated 1) in
               ((e, view, new_value) :: rest, r)
           | Ok None => let '(rest, r) := sync_table_components fetch table rest updated in ((e, view, c) :: rest, r)
           end
  end.
Definition null_sync_field {C} (row : RowId) : BevyBridgeResult (option C) := Ok None.

(** ** The refresh handler *)

(** The handler shares the view model and the query engine; [sr_signal] is its flag. *)
Record SnapshotRefreshHandler := mkRefresh { sr_view_model : ViewModel; sr_signal : bool }.
Definition handler_new (m : ViewModel) : SnapshotRefreshHandler := mkRefresh m false.
Definition on_refresh_signal (h : SnapshotRefreshHandler) : SnapshotRefreshHandler := mkRefresh (sr_view_model h) true.
Definition should_refresh (h : SnapshotRefreshHandler) : bool := sr_signal h.
Definition refresh_snapshot (h : SnapshotRefreshHandler) (view : WorldView) : SnapshotRefreshHandler :=
  mkRefresh (view_model_refresh (sr_view_model h) view (saturating_add_u64 (vm_generation (sr_view_model h)) 1)) false.
Definition current_generation (h : SnapshotRefreshHandler) : Z := vm_generation (sr_view_model h).

(** What the callback does when the scheduler broadcasts a tick and a generation; the error is the text
    inside the scheduler's generic error. *)
Definition refresh_callback (q : QueryEngine) (h : SnapshotRefreshHandler) (tick generation : Z)
  : SnapshotRefreshHandler * result string unit :=
  match engine_snapshot q with
  | Err e => (h, Err (query_error_text e))
  | Ok snapshot => (mkRefresh (view_model_refresh (sr_view_model h) snapshot generation) false, Ok tt)
  end.
End sync.
