(* ===== verification/BevyFacts.v ===== *)
(** * BevyFacts: entities follow the registry, and a refreshed model reads what was published *)

From Stdlib Require Import Ascii String.
From stdpp Require Import base gmap strings list fin_maps.
From Stdlib Require Import ZArith Lia.
From S2P Require Import Prelude RustStr CoreTypes SchemaTables Registry RuleCore Rules Arrow ArrowBatch ArrowStore WorldView ReadViews ErrorText QueryEngine SqlParser InputBuffer BevyViews.

Section entities.
Context {V : Type} `{JR : JsonRead V} `{JO : JsonOps V} `{JI : JsonInteger V} `{JE : JsonEq V}.
Context `{AO : ArrowOps} `{CO : !ConcatOps} `{EO : EcsOps} `{EL : !EcsLaws}.
Context (row_order : gmap Z (Z * Z) -> list (Z * (Z * Z))).
Context (key_order : gmap (string * RowId) Entity -> list ((string * RowId) * Entity)).
Context (row_order_perm : forall m, row_order m ≡ₚ map_to_list m).
Context (key_order_perm : forall m, key_order m ≡ₚ map_to_list m).

Abbreviation Registry := (EntityMaterializationRegistry (V := V)).

(** Over the entities [live0] of the rest of the application, the entities of the registry live, each
    as the view of its own row, and no other does. *)
Definition mirrored (live0 : gmap Entity ViewOf) (r : Registry) (w : World) : Prop :=
  (forall table row e, er_inner r !! (table, row) = Some e ->
     live0 !! e = None /\ exists g, live w !! e = Some (mkViewOf row table g))
  /\ (forall e v, live w !! e = Some v -> live0 !! e = Some v \/ er_inner r !! (vo_table_name v, vo_row_id v) = Some e)
  /\ live0 ⊆ live w.

(** The same but for what the caller registered or unregistered by hand: the entities [adopted] may be
    held for a row they do not show and may be despawned, and of the rows [meddled] a living entity
    may have been let go. *)
Definition mirrored_but (meddled : gset (string * RowId)) (adopted : gset Entity)
    (live0 : gmap Entity ViewOf) (r : Registry) (w : World) : Prop :=
  (forall table row e, er_inner r !! (table, row) = Some e -> e ∉ adopted ->
     live0 !! e = None /\ exists g, live w !! e = Some (mkViewOf row table g))
  /\ (forall e v, live w !! e = Some v ->
        live0 !! e = Some v \/ er_inner r !! (vo_table_name v, vo_row_id v) = Some e \/ (vo_table_name v, vo_row_id v) ∈ meddled)
  /\ (forall e v, live0 !! e = Some v -> e ∉ adopted -> live w !! e = Some v).

Lemma mirrored_iff live0 r w : mirrored live0 r w <-> mirrored_but ∅ ∅ live0 r w.
Proof.
  unfold mirrored, mirrored_but. rewrite map_subseteq_spec. split.
  - intros (H1 & H2 & H3). split_and!; [by eauto| |by eauto]. intros e v [H|H]%H2; [by left|by right; left].
  - intros (H1 & H2 & H3). split_and!.
    + intros table row e He. by apply H1; [|apply not_elem_of_empty].
    + intros e v [H|[H|H%elem_of_empty]]%H2; [by left|by right|done].
    + intros e v He. by apply H3; [|apply not_elem_of_empty].
Qed.

Section meddling.
Context (K : gset (string * RowId)) (A : gset Entity).
Abbreviation mirrors := (mirrored_but K A).

Lemma spawn_mirrored live0 r w table row g : mirrors live0 r w -> er_inner r !! (table, row) = None ->
  let '(w', e) := spawn w (mkViewOf row table g) in mirrors live0 (entity_register r table row e) w'.
Proof.
  intros (Hr & Hw & H0) Hnone. pose proof (spawn_fresh w (mkViewOf row table g)) as Hf.
  pose proof (spawn_live w (mkViewOf row table g)) as Hl.
  destruct (spawn w (mkViewOf row table g)) as [w' e]. cbn [fst snd] in *.
  assert (Hfresh0 : e ∉ A -> live0 !! e = None).
  { intros HA. destruct (live0 !! e) as [v|] eqn:E; [|done]. by rewrite (H0 _ _ E HA) in Hf. }
  split_and!.
  - intros t x e'. cbn [entity_register er_inner]. destruct (decide ((table, row) = (t, x))) as [[= <- <-]|Hne].
    + rewrite lookup_insert_eq. intros [= <-] HA. split; [by apply Hfresh0|]. exists g. by rewrite Hl, lookup_insert_eq.
    + rewrite lookup_insert_ne by done. intros He HA. destruct (Hr t x e' He HA) as (H1 & g' & H2). split; [done|]. exists g'.
      rewrite Hl, lookup_insert_ne; [done|]. intros ->. congruence.
  - intros e' v. rewrite Hl. cbn [entity_register er_inner]. destruct (decide (e = e')) as [->|Hne].
    + rewrite lookup_insert_eq. intros [= <-]. right; left. by rewrite lookup_insert_eq.
    + rewrite lookup_insert_ne by done. intros [H|[H|H]]%Hw; [by left| |by right; right]. right; left.
      rewrite lookup_insert_ne; [done|]. intros E. rewrite <- E in H. congruence.
  - intros e' v He HA. rewrite Hl, lookup_insert_ne; [by apply H0|]. intros ->. rewrite (H0 _ _ He HA) in Hf. done.
Qed.

Lemma despawn_mirrored live0 r w table row e : mirrors live0 r w -> er_inner r !! (table, row) = Some e ->
  mirrors live0 (entity_unregister r table row).1 (despawn w e).
Proof.
  intros (Hr & Hw & H0) He. split_and!; cbn [entity_unregister fst er_inner].
  - intros t x e'. rewrite lookup_delete_Some. intros [Hne H] HA. destruct (Hr t x e' H HA) as (H1 & g' & H2). split; [done|].
    exists g'. rewrite despawn_live, lookup_delete_ne; [done|]. intros ->. apply Hne.
    destruct (Hr table row e' He HA) as (_ & g & Hlive). congruence.
  - intros e' v. rewrite despawn_live, lookup_delete_Some. intros [Hne [H|[H|H]]%Hw]; [by left| |by right; right]. right; left.
    rewrite lookup_delete_ne; [done|]. intros E. rewrite <- E in H. congruence.
  - intros e' v H HA. rewrite despawn_live, lookup_delete_ne; [by apply H0|].
    intros ->. destruct (Hr table row e' He HA) as [Hnone _]. congruence.
Qed.

(** The caller registers an entity of its choice, or takes a row out. *)
Lemma adopt_mirrored live0 r w table row e : mirrors live0 r w -> (table, row) ∈ K -> e ∈ A ->
  mirrors live0 (entity_register r table row e) w.
Proof.
  intros (Hr & Hw & H0) HK HA. split_and!; cbn [entity_register er_inner]; [| |done].
  - intros t x e'. destruct (decide ((table, row) = (t, x))) as [E|Hne]; [rewrite E, lookup_insert_eq; by intros [= <-]|].
    rewrite lookup_insert_ne by done. apply Hr.
  - intros e' v Hv. destruct (decide ((table, row) = (vo_table_name v, vo_row_id v))) as [E|Hne]; [rewrite <- E; auto|].
    rewrite lookup_insert_ne by done. by apply Hw.
Qed.

Lemma release_mirrored live0 r w table row : mirrors live0 r w -> (table, row) ∈ K ->
  mirrors live0 (entity_unregister r table row).1 w.
Proof.
  intros (Hr & Hw & H0) HK. split_and!; cbn [entity_unregister fst er_inner]; [| |done].
  - intros t x e' [_ H]%lookup_delete_Some. by apply Hr.
  - intros e' v Hv. destruct (decide ((table, row) = (vo_table_name v, vo_row_id v))) as [E|Hne]; [rewrite <- E; auto|].
    rewrite lookup_delete_ne by done. by apply Hw.
Qed.

(** ** One table *)

(** What the loop over the rows leaves: the registry grows by the spawned entities, each for a row of the
    list that was admitted and had none; as many as the bound allows. *)
Definition grown (table : string) (rows : list RowId) (admits : RowId -> bool) (r r' : Registry) (n : nat) : Prop :=
  er_configs r' = er_configs r /\ er_inner r ⊆ er_inner r' /\ size (er_inner r') = (size (er_inner r) + n)%nat
  /\ forall k, is_Some (er_inner r' !! k) ->
       is_Some (er_inner r !! k) \/ k.1 = table /\ k.2 ∈ rows /\ admits k.2 = true.

Lemma grown_refl table rows admits r : grown table rows admits r r 0.
Proof. split_and!; [done|done|lia|]. intros k Hk. by left. Qed.

Lemma grown_more table row rows admits r r' n : grown table rows admits r r' n -> grown table (row :: rows) admits r r' n.
Proof. intros (H1 & H2 & H3 & H4). split_and!; [done..|]. intros k Hk. destruct (H4 k Hk) as [|(?&?&?)]; [by left|right]. split_and!; [done|by right|done]. Qed.

Lemma materialize_rows_spec live0 view c generation max rows : forall count r w spawned,
  mirrors live0 r w ->
  let '(r', w', spawned') := materialize_rows view c generation max count rows r w spawned in
  exists added, spawned' = spawned ++ added /\ mirrors live0 r' w'
    /\ grown (mc_table c) rows (config_admits view c) r r' (length added)
    /\ (Z.of_nat (length added) <= Z.max 0 (max - count))
    /\ (count + Z.of_nat (length rows) <= max ->
        forall row, row ∈ rows -> config_admits view c row = true -> is_Some (er_inner r' !! (mc_table c, row))).
Proof.
  induction rows as [|row rows IH]; intros count r w spawned Hm; cbn [materialize_rows].
  { exists []. split_and!; [by rewrite app_nil_r|done|apply grown_refl|simpl; lia|]. by intros _ x []%elem_of_nil. }
  destruct (Z.leb_spec max count).
  { exists []. split_and!; [by rewrite app_nil_r|done|apply grown_refl|simpl; lia|]. cbn [length]. lia. }
  destruct (config_admits view c row) eqn:Ha; cbn [negb].
  2:{ specialize (IH count r w spawned Hm). destruct (materialize_rows _ _ _ _ _ rows _ _ _) as [[r' w'] spawned'].
      destruct IH as (added & H1 & H2 & H3 & H4 & H5). exists added. split_and!; [done|done|by apply grown_more|lia|].
      intros Hl x [->|Hx]%elem_of_cons Hax; [congruence|]. cbn [length] in Hl. apply H5; [lia|done|done]. }
  unfold entity_lookup. destruct (er_inner r !! (mc_table c, row)) as [e0|] eqn:El.
  { specialize (IH count r w spawned Hm). destruct (materialize_rows _ _ _ _ _ rows _ _ _) as [[r' w'] spawned'].
    destruct IH as (added & H1 & H2 & H3 & H4 & H5). exists added. split_and!; [done|done|by apply grown_more|lia|].
    intros Hl x [->|Hx]%elem_of_cons Hax; cbn [length] in Hl; [|apply H5; [lia|done|done]].
    destruct H3 as (_ & Hsub & _). exists e0. by eapply lookup_weaken. }
  unfold view_of_with_generation. pose proof (spawn_mirrored live0 r w (mc_table c) row generation Hm El) as Hs.
  destruct (spawn w _) as [w1 e]. specialize (IH (count + 1) _ w1 (spawned ++ [e]) Hs).
  destruct (materialize_rows _ _ _ _ _ rows _ _ _) as [[r' w'] spawned'].
  destruct IH as (added & H1 & H2 & (G1 & G2 & G3 & G4) & H4 & H5). exists (e :: added).
  cbn [entity_register er_inner er_configs] in *. rewrite map_size_insert_None in G3 by done.
  split_and!; [by rewrite H1, <- app_assoc|done| |cbn [length]; lia|].
  - split_and!; [done| |cbn [length]; lia|].
    + etrans; [|exact G2]. by apply insert_subseteq.
    + intros k Hk. destruct (G4 k Hk) as [Hin|(E1 & E2 & E3)]; [|right; split_and!; [done|by right|done]].
      destruct (decide (k = (mc_table c, row))) as [->|Hne]; [right; split_and!; [done|by left|done]|].
      rewrite lookup_insert_ne in Hin by done. by left.
  - intros Hl x [->|Hx]%elem_of_cons Hax; cbn [length] in Hl; [|apply H5; [lia|done|done]].
    exists e. eapply lookup_weaken; [|exact G2]. by rewrite lookup_insert_eq.
Qed.

Lemma sorted_rows_elem view row : row ∈ sorted_rows row_order view <-> is_Some (rpm_position_of (tv_position_map view) row).
Proof.
  unfold sorted_rows. rewrite sort_by_key_perm, list_elem_of_fmap. unfold rpm_position_of. split.
  - intros ([k p] & -> & Hp). rewrite row_order_perm in Hp. apply elem_of_map_to_list in Hp. by exists p.
  - intros [p Hp]. exists (row_id_as_u64 row, p). split; [by destruct row|]. rewrite row_order_perm. by apply elem_of_map_to_list.
Qed.

(** ** All the tables *)

(** The row is one the configuration shows: of the engine's table, and through its filter. *)
Definition shown (q : QueryEngine) (c : MaterializationConfig (V := V)) (row : RowId) : Prop :=
  exists tick view, engine_latest_tick q = Some tick /\ read_single_table q tick (mc_table c) = Ok view
    /\ is_Some (rpm_position_of (tv_position_map view) row) /\ config_admits view c row = true.
Definition rows_fit (q : QueryEngine) : Prop :=
  forall tick name view, read_single_table q tick name = Ok view -> Z.of_nat (size (rpm_entries (tv_position_map view))) <= u64_max.

Lemma materialize_configs_spec live0 q configs : forall r w spawned, mirrors live0 r w ->
  let '(r', w', res) := materialize_configs row_order q configs r w spawned in
  mirrors live0 r' w' /\ er_configs r' = er_configs r /\ er_inner r ⊆ er_inner r'
  /\ (forall k, is_Some (er_inner r' !! k) ->
        is_Some (er_inner r !! k) \/ exists c, c ∈ configs /\ mc_table c = k.1 /\ shown q c k.2)
  /\ match res with
     | Err _ => True
     | Ok all => exists added, all = spawned ++ added /\ size (er_inner r') = (size (er_inner r) + length added)%nat
         /\ (rows_fit q -> forall c row, c ∈ configs -> mc_max_entities c = None -> shown q c row ->
               is_Some (er_inner r' !! (mc_table c, row)))
     end.
Proof.
  induction configs as [|c configs IH]; intros r w spawned Hm; cbn [materialize_configs].
  { split_and!; [done|done|done|by left|]. exists []. split_and!; [by rewrite app_nil_r|simpl; lia|]. intros _ c row Hc. by apply elem_of_nil in Hc. }
  destruct (engine_latest_tick q) as [tick|] eqn:Et; [|split_and!; [done|done|done|by left|done]].
  destruct (read_single_table q tick (mc_table c)) as [view|e] eqn:Ev; [|split_and!; [done|done|done|by left|done]].
  pose proof (materialize_rows_spec live0 view c (tick_as_u64 tick) (default u64_max (mc_max_entities c))
    (sorted_rows row_order view) 0 r w spawned Hm) as Hr.
  destruct (materialize_rows _ _ _ _ _ _ _ _ _) as [[r1 w1] spawned1].
  destruct Hr as (added1 & E1 & Hm1 & (G1 & G2 & G3 & G4) & _ & Hall). specialize (IH r1 w1 spawned1 Hm1).
  destruct (materialize_configs _ _ _ _ _ _) as [[r' w'] res]. destruct IH as (H1 & H2 & H3 & H4 & H5).
  split_and!; [done|congruence|by etrans| |].
  - intros k Hk. destruct (H4 k Hk) as [Hk1|(c' & Hc' & Hs)]; [|right; exists c'; split; [by right|done]].
    destruct (G4 k Hk1) as [|(K1 & K2 & K3)]; [by left|right]. exists c. split_and!; [by left|done|].
    exists tick, view. split_and!; [done|done|by apply sorted_rows_elem|done].
  - destruct res as [all|e]; [|done]. destruct H5 as (added & E2 & Hs & Hc). exists (added1 ++ added).
    rewrite length_app. split_and!; [by rewrite E2, E1, app_assoc|lia|].
    intros Hfit c' row [->|Hc']%elem_of_cons Hnone Hshown; [|by apply Hc].
    destruct Hshown as (tick' & view' & E3 & E4 & Hp & Ha). rewrite Et in E3. injection E3 as <-. rewrite Ev in E4. injection E4 as <-.
    assert (is_Some (er_inner r1 !! (mc_table c, row))) as [e He].
    { apply Hall; [|by apply (proj2 (sorted_rows_elem _ _))|done]. rewrite Hnone. cbn [default from_option id].
      unfold sorted_rows. rewrite (Permutation_length (sort_by_key_perm _ _)), length_fmap.
      rewrite (Permutation_length (row_order_perm _)), length_map_to_list. by apply (Hfit tick (mc_table c)). }
    exists e. by eapply lookup_weaken.
Qed.

End meddling.

(** C27: Materializing keeps the entities of the registry and the living ones in step; entities are only
    added, for rows that a configuration shows; and when it succeeds each entity returned is a new one
    and every row shown by a configuration without a bound has its entity. *)
Theorem materialize_shows_rows (live0 : gmap Entity ViewOf) (r : Registry) (w : World) (q : QueryEngine) :
  mirrored live0 r w ->
  let '(r', w', res) := materialize row_order r w q in
  mirrored live0 r' w' /\ er_inner r ⊆ er_inner r'
  /\ (forall table row, is_Some (er_inner r' !! (table, row)) ->
        is_Some (er_inner r !! (table, row)) \/ exists c, c ∈ er_configs r /\ mc_table c = table /\ shown q c row)
  /\ match res with
     | Err _ => True
     | Ok spawned => size (er_inner r') = (size (er_inner r) + length spawned)%nat
         /\ (rows_fit q -> forall c row, c ∈ er_configs r -> mc_max_entities c = None -> shown q c row ->
               is_Some (er_inner r' !! (mc_table c, row)))
     end.
Proof.
  intros Hm%mirrored_iff. unfold materialize. pose proof (materialize_configs_spec ∅ ∅ live0 q (er_configs r) r w [] Hm) as H.
  destruct (materialize_configs _ _ _ _ _ _) as [[r' w'] res]. destruct H as (H1%mirrored_iff & H2 & H3 & H4 & H5).
  split_and!; [done|done|by intros table row ?%H4|]. destruct res as [spawned|e]; [|done].
  destruct H5 as (added & -> & H5 & H6). done.
Qed.

(** ** Any calls *)

(** Every public call that changes the registry; [EntRegister] and [EntUnregister] are its bare
    [register] and [unregister], which neither spawn nor despawn. *)
Inductive EntityOp :=
| EntRegisterConfig (c : MaterializationConfig (V := V))
| EntRegister (table : string) (row : RowId) (e : Entity)
| EntUnregister (table : string) (row : RowId)
| EntMaterialize (q : QueryEngine)
| EntMaterializeOne (request : MaterializeRequest)
| EntDematerialize (e : Entity)
| EntDematerializeOne (request : MaterializeRequest)
| EntDematerializeAll.

Definition entity_step (s : Registry * World) (op : EntityOp) : Registry * World :=
  match op with
  | EntRegisterConfig c => (register_config s.1 c, s.2)
  | EntRegister table row e => (entity_register s.1 table row e, s.2)
  | EntUnregister table row => ((entity_unregister s.1 table row).1, s.2)
  | EntMaterialize q => (materialize row_order s.1 s.2 q).1
  | EntMaterializeOne request => (materialize_entity s.1 s.2 request).1
  | EntDematerialize e => (dematerialize key_order s.1 s.2 e).1
  | EntDematerializeOne request => (dematerialize_entity s.1 s.2 request).1
  | EntDematerializeAll => dematerialize_all key_order s.1 s.2
  end.

(** The rows a run registers or unregisters by hand, and the entities it registers. *)
Definition meddled_rows (ops : list EntityOp) : gset (string * RowId) :=
  list_to_set (omap (fun op => match op with
    | EntRegister table row _ | EntUnregister table row => Some (table, row) | _ => None end) ops).
Definition adopted_entities (ops : list EntityOp) : gset Entity :=
  list_to_set (omap (fun op => match op with EntRegister _ _ e => Some e | _ => None end) ops).

Lemma meddled_cons op ops : meddled_rows (op :: ops) = meddled_rows [op] ∪ meddled_rows ops.
Proof. unfold meddled_rows. destruct op; csimpl; set_solver. Qed.
Lemma adopted_cons op ops : adopted_entities (op :: ops) = adopted_entities [op] ∪ adopted_entities ops.
Proof. unfold adopted_entities. destruct op; csimpl; set_solver. Qed.

Lemma despawn_all_live es : forall w, live (foldl despawn w es) = filter (fun p => p.1 ∉ es) (live w).
Proof.
  induction es as [|e es IH]; intros w; cbn [foldl].
  - symmetry. apply map_filter_id. intros e v _ []%elem_of_nil.
  - rewrite IH, despawn_live. apply map_eq. intros e'. apply option_eq. intros v.
    rewrite !map_lookup_filter_Some, lookup_delete_Some, not_elem_of_cons. naive_solver.
Qed.

Lemma all_despawned K A live0 r w : mirrored_but K A live0 r w ->
  mirrored_but K A live0 (dematerialize_all key_order r w).1 (dematerialize_all key_order r w).2.
Proof.
  intros (Hr & Hw & H0). assert (Hes : forall e, e ∈ snd <$> key_order (er_inner r) <-> exists k, er_inner r !! k = Some e).
  { intros e. rewrite list_elem_of_fmap. split.
    - intros ([k e'] & -> & Hk). rewrite key_order_perm in Hk. apply elem_of_map_to_list in Hk. by exists k.
    - intros [k Hk]. exists (k, e). split; [done|]. rewrite key_order_perm. by apply elem_of_map_to_list. }
  split_and!; cbn [dematerialize_all fst snd er_inner].
  - intros table row e H. cbn [er_inner] in H. by rewrite lookup_empty in H.
  - intros e v. rewrite despawn_all_live, map_lookup_filter_Some. intros [[H|[H|H]]%Hw Hn]; [by left| |by right; right].
    exfalso. apply Hn, Hes. by eexists.
  - intros e v H HA. rewrite despawn_all_live. apply map_lookup_filter_Some. split; [by apply H0|].
    intros [[table row] Hk]%Hes. destruct (Hr table row e Hk HA) as [Hn _]. congruence.
Qed.

Lemma step_mirrored K A live0 r w op :
  meddled_rows [op] ⊆ K -> adopted_entities [op] ⊆ A -> mirrored_but K A live0 r w ->
  mirrored_but K A live0 (entity_step (r, w) op).1 (entity_step (r, w) op).2.
Proof.
  intros HK HA Hm. destruct op as [c|table row e|table row|q|request|e|request|]; cbn [entity_step fst snd].
  - exact Hm.
  - unfold meddled_rows, adopted_entities in *. csimpl in *. apply adopt_mirrored; [done|set_solver|set_solver].
  - unfold meddled_rows in *. csimpl in *. apply release_mirrored; [done|set_solver].
  - unfold materialize. pose proof (materialize_configs_spec K A live0 q (er_configs r) r w [] Hm) as H.
    destruct (materialize_configs _ _ _ _ _ _) as [[r' w'] res]. apply H.
  - unfold materialize_entity, entity_lookup. destruct (er_inner r !! _) eqn:E; [done|]. unfold view_of_new.
    pose proof (spawn_mirrored K A live0 r w (mr_table_name request) (mr_row_id request) 0 Hm E) as H.
    by destruct (spawn w _) as [w' e].
  - unfold dematerialize. destruct (List.find _ _) as [[[table row] e']|] eqn:E; [|done]. cbn [fmap option_fmap option_map fst].
    apply find_some in E as [Hin He%bool_decide_eq_true]. cbn [snd] in He. subst e'.
    apply list_elem_of_In in Hin. rewrite key_order_perm in Hin. apply elem_of_map_to_list in Hin. by apply despawn_mirrored.
  - unfold dematerialize_entity. unfold entity_unregister. destruct (er_inner r !! _) as [e|] eqn:E; cbn [fst snd].
    + by apply (despawn_mirrored K A live0 r w).
    + replace (mkEntities _ _) with r; [done|]. destruct r. cbn in *. by rewrite delete_id.
  - by apply all_despawned.
Qed.

(** C14: Through any calls on a new registry, over whatever engines, the entities it created that are
    still alive are those it holds, each the view of its own row, and the application's own entities
    are untouched; but for the bare [register] and [unregister]: an entity registered by hand may be
    held for any row and be despawned, and an entity of a row registered or unregistered by hand may
    live on unheld. Without these two calls there is no exception: no row has two entities, no
    entity is left behind, no other entity is touched. *)
Theorem entities_mirror_registry (w : World) (ops : list EntityOp) :
  let '(r, w') := foldl entity_step (entities_new, w) ops in
  mirrored_but (meddled_rows ops) (adopted_entities ops) (live w) r w'
  /\ (meddled_rows ops = ∅ -> mirrored (live w) r w').
Proof.
  set (live0 := live w). assert (Hrun : forall K A ops r1 w1, meddled_rows ops ⊆ K -> adopted_entities ops ⊆ A ->
    mirrored_but K A live0 r1 w1 -> let '(r, w') := foldl entity_step (r1, w1) ops in mirrored_but K A live0 r w').
  { clearbody live0. clear ops. intros K A ops. induction ops as [|op ops IH]; intros r1 w1 HK HA Hm; [done|]. cbn [foldl].
    rewrite meddled_cons in HK. rewrite adopted_cons in HA. apply union_subseteq in HK as [HK1 HK2]. apply union_subseteq in HA as [HA1 HA2].
    pose proof (step_mirrored K A live0 r1 w1 op HK1 HA1 Hm) as H.
    destruct (entity_step (r1, w1) op) as [r2 w2]. by apply IH. }
  assert (H0 : mirrored_but (meddled_rows ops) (adopted_entities ops) live0 (entities_new (V := V)) w).
  { split_and!; [|by left|done]. intros table row e H. cbn [entities_new er_inner] in H. by rewrite lookup_empty in H. }
  specialize (Hrun _ _ ops _ _ (reflexivity _) (reflexivity _) H0).
  destruct (foldl entity_step (entities_new, w) ops) as [r w']. split; [done|]. intros Hnone.
  assert (Ha : adopted_entities ops = ∅).
  { apply elem_of_equiv_empty_L. intros e He. unfold adopted_entities in He. apply elem_of_list_to_set, list_elem_of_omap in He as (op & Hop & He).
    destruct op as [|table row e'| | | | | |]; try done. apply (not_elem_of_empty (C := gset (string * RowId)) (table, row)).
    rewrite <- Hnone. unfold meddled_rows. apply elem_of_list_to_set, list_elem_of_omap. by eexists. }
  apply mirrored_iff. by rewrite Hnone, Ha in Hrun.
Qed.
End entities.

(** ** Syncing *)

Section sync.
Context `{AO : ArrowOps} `{CO : !ConcatOps} `{EO : EcsOps}.

(** After a staged publication the callback of the handler succeeds, and the model it leaves reads from
    that engine exactly the tables that were published, as they were; once the engine has moved to
    another tick the model is refused, unless its tick is the first. *)
Theorem refreshed_model_reads (q q' : QueryEngine) (st : PendingSnapshotIngest) (snapshot : WorldSnapshot)
    (h : SnapshotRefreshHandler) (tick generation : Z) :
  qn_pending q = Some st -> store_world_snapshot q snapshot = (q', Ok tt) ->
  let '(h', r) := refresh_callback q' h tick generation in
  r = Ok tt /\ vm_latest_tick (sr_view_model h') = Some (ws_tick snapshot) /\ current_generation h' = generation
  /\ should_refresh h' = false
  /\ (forall table, read_table_via_query_engine (sr_view_model h') q' table =
       match pi_views st !! table with
       | Some view => Ok (if decide (tv_table_name view = table) then Some view else None)
       | None => Err (BQueryEngine (query_error_text (QTableNotFound table)))
       end)
  /\ (forall q2 table, ws_tick snapshot <> tick_ZERO -> engine_latest_tick q2 <> Some (ws_tick snapshot) ->
       read_table_via_query_engine (sr_view_model h') q2 table
       = Err (BQueryEngine (query_error_text (QTicksMismatch (ws_tick snapshot) (engine_latest_tick q2))))).
Proof.
  intros Hp Hs. unfold store_world_snapshot in Hs. rewrite Hp in Hs.
  destruct (Z.eqb_spec (tick_as_u64 (ws_tick snapshot)) u64_max) as [|Hmax]; [done|].
  destruct (Some st ≫= _); [done|]. injection Hs as <-.
  unfold refresh_callback, engine_snapshot. cbn [qn_latest_snapshot with_latest_tick with_snapshot ok_or map_ok].
  split_and!; [done|done|done|done|..].
  - intros table. unfold read_table_via_query_engine, engine_read, engine_latest_tick.
    cbn [sr_view_model view_model_refresh vm_latest_tick world_view_new wv_tick ok_or qn_latest_tick with_latest_tick].
    destruct (Z.eqb_spec (tick_as_u64 (ws_tick snapshot)) u64_max); [done|].
    cbn [rq_tick request_with_table request_new].
    replace (mkTick (tick_as_u64 (ws_tick snapshot))) with (ws_tick snapshot) by (by destruct (ws_tick snapshot)).
    rewrite (bool_decide_false (Some _ <> Some _)) by tauto. rewrite andb_false_r.
    unfold read_views. cbn [rq_table_names request_with_table request_new app try_fold qn_view_cache with_latest_tick with_snapshot with_cache].
    destruct (pi_views st !! table) as [view|]; cbn [ok_or map_err]; [|done].
    unfold response_get, response_insert, response_new. cbn [rs_views]. destruct (decide (tv_table_name view = table)) as [->|Hne].
    + by rewrite lookup_insert_eq.
    + rewrite lookup_insert_ne by done. by rewrite lookup_empty.
  - intros q2 table Hz Hne. unfold read_table_via_query_engine, engine_read.
    cbn [sr_view_model view_model_refresh vm_latest_tick world_view_new wv_tick ok_or rq_tick request_with_table request_new].
    by rewrite !bool_decide_true.
Qed.

(** The flags are cleared however the reads went. *)
Lemma sync_all_clears order s m q : sy_dirty (sync_all order s m q).1 = ∅.
Proof. unfold sync_all. by destruct (foldl _ _ _). Qed.

Lemma sync_errors m q s es : forall n errors,
  errors `prefix_of` (foldl (sync_step m q s) (n, errors) es).2.
Proof.
  induction es as [|e es IH]; intros n errors; [done|]. cbn [foldl]. unfold sync_step at 2.
  destruct (sy_view_models s !! e); [|apply IH]. destruct (read_table_via_query_engine _ _ _); [apply IH|].
  cbn [fst snd]. etrans; [apply prefix_app_r; reflexivity|apply IH].
Qed.

(** A sync that succeeds read the table of every dirty entity it knows. *)
Lemma sync_all_ok order s m q n : (forall d, order d ≡ₚ elements d) -> (sync_all order s m q).2 = Ok n ->
  forall e entry, e ∈ sy_dirty s -> sy_view_models s !! e = Some entry ->
  is_ok (read_table_via_query_engine m q (se_table entry)) = true.
Proof.
  intros Ho H e entry He Hs. unfold sync_all in H.
  assert (Hin : e ∈ order (sy_dirty s)) by (rewrite Ho; by apply elem_of_elements).
  destruct (foldl _ _ _) as [n' errors] eqn:E. destruct errors; [|done]. clear H Ho He.
  destruct (read_table_via_query_engine m q (se_table entry)) as [v|err] eqn:Er; [done|].
  apply list_elem_of_split in Hin as (l1 & l2 & Hl). rewrite Hl, foldl_app in E. cbn [foldl] in E.
  destruct (foldl (sync_step m q s) (0, []) l1) as [n1 errs1]. unfold sync_step at 2 in E. rewrite Hs, Er in E. cbn [fst snd] in E.
  pose proof (sync_errors m q s l2 n1 (errs1 ++ [bridge_error_text err])) as Hp. rewrite E in Hp. cbn in Hp.
  apply prefix_nil_inv in Hp. by destruct errs1.
Qed.
End sync.
