(* ===== verification/BevySamples.v ===== *)
(** * BevySamples: entities of a sample world

    Entities are numbered as they are spawned; JSON values are trees. *)

From Stdlib Require Import Ascii String.
From stdpp Require Import base gmap strings list fin_maps.
From Stdlib Require Import ZArith Lia Floats.SpecFloat.
From S2P Require Import Prelude RustStr CoreTypes SchemaTables Relations Registry RuleCore Rules Arrow ArrowVec ArrowBatch ArrowStore StoreSamples WorldView ReadViews ErrorText QueryEngine ReadSamples SqlParser InputBuffer BevyViews BevyFacts.

#[export] Instance TreeJsonOps : JsonOps Json := {|
  json_from_f64 x := match x with S754_finite _ _ _ | S754_zero _ => Some (JFloat x) | _ => None end;
  json_bool := JBool; json_string := JStr; json_u64 := JInt; json_array := JArr; json_object m := JObj (map_to_list m) |}.
#[export] Instance TreeJsonInteger : JsonInteger Json := {| json_i64 := JInt |}.
#[export] Instance TreeJsonEq : JsonEq Json := {| json_eqb a b :=
  match a, b with
  | JNull, JNull => true | JBool x, JBool y => Bool.eqb x y | JInt x, JInt y => x =? y | JStr x, JStr y => String.eqb x y
  | _, _ => false
  end |}.

(** The number of entities ever spawned, and the ones alive. *)
Record NumberedWorld := mkWorlds { nw_spawned : nat; nw_alive : gmap nat ViewOf }.
Definition first_free (w : NumberedWorld) : nat := S (nw_spawned w + max_list (elements (dom (nw_alive w)))).
#[export] Instance NumberedEcs : EcsOps := {|
  World := NumberedWorld; Entity := nat;
  spawn w v := (mkWorlds (S (nw_spawned w)) (<[first_free w := v]> (nw_alive w)), first_free w);
  despawn w e := mkWorlds (nw_spawned w) (delete e (nw_alive w));
  entity_index := Z.of_nat |}.
#[export] Program Instance NumberedEcsLaws : EcsLaws := {| live := nw_alive |}.
Next Obligation.
  intros w v. simpl. apply not_elem_of_dom. intros H. apply elem_of_elements, max_list_elem_of_le in H.
  unfold first_free in H. lia.
Qed.
Next Obligation. done. Qed.
Next Obligation. done. Qed.

Definition empty_world : NumberedWorld := mkWorlds 0 ∅.
Definition rows_in_order (m : gmap Z (Z * Z)) : list (Z * (Z * Z)) := map_to_list m.
Definition keys_in_order (m : gmap (string * RowId) nat) : list ((string * RowId) * nat) := map_to_list m.

(** An engine with a view of two armies. *)
Definition two_armies : TableReadView :=
  mkView "army" (mkTick 1) [] army_spec (rpm_insert (rpm_insert rpm_new (mkRowId 1) 0 0) (mkRowId 2) 0 1).
Definition armies_engine : QueryEngine :=
  with_latest_tick (QueryEngine.with_cache army_engine {["army" := two_armies]}) 1.
Definition armies_entities : EntityMaterializationRegistry (V := Json) := register_config entities_new (config_new "army").

Abbreviation vmaterialize := (materialize (V := Json) rows_in_order).

Lemma armies_fit : rows_fit armies_engine.
Proof.
  intros tick name view H. unfold read_single_table, engine_read in H. destruct (_ && _); [done|].
  unfold read_views in H. cbn [rq_table_names request_with_table request_new app try_fold] in H.
  change (qn_view_cache armies_engine) with ({["army" := two_armies]} : gmap string TableReadView) in H.
  destruct (decide (name = "army")) as [->|Hne].
  - rewrite lookup_singleton_eq in H. cbn [ok_or] in H. unfold response_get, response_insert in H. cbn [rs_views] in H.
    change (tv_table_name two_armies) with "army" in H. rewrite lookup_insert_eq in H. injection H as <-. vm_compute. discriminate.
  - by rewrite lookup_singleton_ne in H.
Qed.

Lemma materialize_shows_rows_witness :
  let '(r, w, res) := vmaterialize armies_entities empty_world armies_engine in
  is_ok res = true /\ is_Some (er_inner r !! ("army", mkRowId 2)).
Proof.
  assert (Hm : mirrored (V := Json) (∅ : gmap nat ViewOf) armies_entities empty_world).
  { split_and!; [|intros e v H; change (@live NumberedEcs NumberedEcsLaws empty_world) with (∅ : gmap nat ViewOf) in H; rewrite lookup_empty in H; discriminate H|apply map_empty_subseteq].
    intros t x e H. change (er_inner armies_entities) with (∅ : gmap (string * RowId) nat) in H. rewrite lookup_empty in H. discriminate H. }
  pose proof (materialize_shows_rows rows_in_order (fun m => Permutation_refl _) ∅ armies_entities empty_world armies_engine Hm) as H.
  assert (Ho : is_ok (vmaterialize armies_entities empty_world armies_engine).2 = true) by (vm_compute; reflexivity).
  destruct (vmaterialize armies_entities empty_world armies_engine) as [[r w] [spawned|e]]; [|discriminate Ho].
  split; [reflexivity|]. destruct H as (_ & _ & _ & _ & H).
  apply (H armies_fit (config_new "army") (mkRowId 2)).
  - left.
  - reflexivity.
  - exists (mkTick 1), two_armies. split; [reflexivity|]. split; [reflexivity|]. split; [eexists; reflexivity|reflexivity].
Defined.

Definition entity_calls : list (EntityOp (V := Json)) :=
  [EntRegisterConfig (config_new "army"); EntMaterialize armies_engine; EntDematerialize 1%nat;
   EntMaterializeOne (mkMaterialize (mkRowId 7) "navy"); EntMaterialize armies_engine].

Lemma entities_mirror_registry_witness :
  let '(r, w) := foldl (entity_step rows_in_order keys_in_order) (entities_new, empty_world) entity_calls in
  mirrored (V := Json) ∅ r w /\ size (er_inner r) = 3%nat.
Proof.
  pose proof (entities_mirror_registry (V := Json) rows_in_order keys_in_order (fun m => Permutation_refl _) (fun m => Permutation_refl _)
    empty_world entity_calls) as H.
  assert (Hs : size (er_inner (foldl (entity_step rows_in_order keys_in_order) (entities_new, empty_world) entity_calls).1) = 3%nat)
    by (vm_compute; reflexivity).
  destruct (foldl _ _ _) as [r w]. split; [exact (proj2 H eq_refl)|exact Hs].
Defined.

Definition armies_snapshot : WorldSnapshot (H := VecArrow) := snapshot_new (mkTick 1).
Definition staged_engine : QueryEngine :=
  with_pending_ingest army_engine (Some (mkPending (Some (mkTick 1)) {["army" := two_armies]})).

Lemma refreshed_model_reads_witness :
  let q := (store_world_snapshot staged_engine armies_snapshot).1 in
  let h := (refresh_callback q (handler_new view_model_new) 1 4).1 in
  read_table_via_query_engine (sr_view_model h) q "army" = Ok (Some two_armies).
Proof.
  destruct (store_world_snapshot staged_engine armies_snapshot) as [q [[]|e]] eqn:E.
  2: { apply (f_equal (fun p => is_ok p.2)) in E. vm_compute in E. discriminate E. }
  cbn [fst]. pose proof (refreshed_model_reads staged_engine q _ armies_snapshot (handler_new view_model_new) 1 4 eq_refl E) as H.
  destruct (refresh_callback q (handler_new view_model_new) 1 4) as [h r]. destruct H as (_ & _ & _ & _ & H & _).
  cbn [fst]. rewrite H. reflexivity.
Defined.

(** ** Outside the theorems *)

(** The bound on the entities of a table is one on each call: the next call goes on. *)
Example max_entities_per_call :
  let r := register_config (V := Json) entities_new (config_with_max_entities (config_new "army") 1) in
  let '(r1, w1, _) := vmaterialize r empty_world armies_engine in
  let '(r2, _, _) := vmaterialize r1 w1 armies_engine in
  (entity_len r1, entity_len r2) = (1%nat, 2%nat).
Proof. vm_compute. reflexivity. Qed.

(** A sync that fails clears the flags of the entities it could not sync. *)
Example failed_sync_clears_flags :
  let s := mark_dirty (register_entity sync_new 1%nat "navy" 0 (mkTick 1)) 1%nat in
  let '(s', r) := sync_all elements s (mkViewModel None (Some (mkTick 1)) 1) armies_engine in
  is_ok r = false /\ dirty_count s' = O.
Proof. vm_compute. auto. Qed.
