(* ===== verification/Harness.v ===== *)
(** * Harness: the whole stack, put together ([scharnhorst_integration_tests/src/harness.rs])

    The minimal world of the integration tests: a store of two tables, a query engine that knows
    them, a journal over both and a scheduler over the journal; the seed of two actors and ten
    nodes, the transfer of a node by command, the tick. The store and the query engine the source
    hands out beside the scheduler are handles on those the journal holds ([Arc]s), and are read
    off it here. JSON values are trees ([ArrowVec.v]); arrays stay abstract. *)

From Stdlib Require Import Ascii String.
From stdpp Require Import base gmap strings list fin_maps sorting.
From Stdlib Require Import ZArith Lia.
From S2P Require Import Prelude RustStr CoreTypes Rng SchemaTables Relations Registry Journal Systems Scheduler SchedulerFacts RuleCore Float64 Rules.
From S2P Require Import Arrow ArrowVec ArrowBatch ArrowBatchFacts StoreIndex ArrowStore StoreFacts StoreRows StoreRuns.
From S2P Require Import WorldView ReadViews ErrorText QueryEngine StoreJournal WorldLog WorldTicks Content SaveErrors InputBuffer BevyViews.

(** ** Errors *)

Fixpoint scheduler_error_text (e : SchedulerError) : string :=
  match e with
  | SystemAlreadyRegistered s => "system already registered: " +:+ s
  | SystemNotFound s => "system not found: " +:+ s
  | DependencyCycle s => "dependency cycle detected: " +:+ s
  | WriteConflict phase a b table =>
      "write conflict in phase " +:+ phase +:+ ": systems " +:+ a +:+ " and " +:+ b +:+ " both write table " +:+ table
  | SCommitFailed tick reason => "commit failed at tick " +:+ show_u64 tick +:+ ": " +:+ reason
  | SInvalidTick expected got => "invalid tick: expected " +:+ show_u64 expected +:+ ", got " +:+ show_u64 got
  | SJournal s => "journal error: " +:+ s
  | SArrowStore s => "arrow store error: " +:+ s
  | SQueryEngine s => "query engine error: " +:+ s
  | SSchema s => "schema error: " +:+ s
  | RefreshSignalFailed consumer source =>
      "refresh signal failed for consumer '" +:+ consumer +:+ "': " +:+ scheduler_error_text source
  | SRng s => "rng stream error: " +:+ s
  | SIo s => "io error: " +:+ s
  | SInitialized => "scheduler already initialized; cannot register new systems"
  | SNotInitialized => "scheduler not yet initialized; call initialize() first"
  | RefreshBusLookupFailed s => "system not found in refresh bus: " +:+ s
  | SchemaNotFrozen => "schema registry is not frozen; freeze must complete before scheduler initialization"
  | SGeneric s => "generic error: " +:+ s
  end.

Inductive HarnessError :=
| HArrowStore (e : ArrowStoreError)
| HJournal (e : JournalError)
| HScheduler (e : SchedulerError)
| HQuery (e : QueryError)
| HBevyBridge (e : BevyBridgeError)
| HSchema (e : SchemaError)
| HSave (e : SaveError)
| HContent (e : ContentError)
| HGeneric (s : string).

Definition harness_error_text (e : HarnessError) : string :=
  match e with
  | HArrowStore e => "arrow store: " +:+ store_error_text e
  | HJournal e => "journal: " +:+ journal_error_display e
  | HScheduler e => "scheduler: " +:+ scheduler_error_text e
  | HQuery e => "query: " +:+ query_error_text e
  | HBevyBridge e => "bevy bridge: " +:+ bridge_error_text e
  | HSchema e => "schema: " +:+ schema_error_text e
  | HSave e => "save: " +:+ save_error_text e
  | HContent e => "content: " +:+ content_error_text e
  | HGeneric s => "generic: " +:+ s
  end.

Abbreviation HarnessResult := (result HarnessError).

(** ** The schema and the seed *)

Definition actors_spec : SchemaResult TableSpec :=
  let? t := table_with_column (table_new "actors") (column_new "id" SemId "i64") in
  let? t := table_with_column t (column_new "name" SemName "utf8") in
  table_with_column t (column_new "color" SemTag "utf8").
Definition nodes_spec : SchemaResult TableSpec :=
  let? t := table_with_column (table_new "spatial_nodes") (column_new "id" SemId "i64") in
  let? t := table_with_column t (column_new "x" SemPosition2D "f64") in
  let? t := table_with_column t (column_new "y" SemPosition2D "f64") in
  table_with_column t (column_new "owner" (SemForeignKey "actors") "i64").

Definition actor_diff (idx : nat) : Diff Json :=
  Insert "actors" (mkRowId (Z.of_nat idx))
    (<["id" := JInt (Z.of_nat idx)]> (<["name" := JStr ("actor_" +:+ show_u64 (Z.of_nat idx))]>
      {["color" := JStr (if decide (idx = 0%nat) then "red" else "blue")]})).
Definition node_diff (idx : nat) : Diff Json :=
  Insert "spatial_nodes" (mkRowId (Z.of_nat idx))
    (<["id" := JInt (Z.of_nat idx + 100)]> (<["x" := JInt (Z.of_nat idx * 10)]>
      (<["y" := JInt (Z.of_nat idx * 10)]> {["owner" := JInt (Z.of_nat idx mod 2)]}))).
Definition seed_batch : DiffBatch Json :=
  mkDiffBatch "harness_seed" ((actor_diff <$> seq 0 2) ++ (node_diff <$> seq 0 10)).

(** A system that reads and writes nothing. *)
Definition noop_system {Engine} (id : string) (phase : Phase) : SimSystem Engine Json :=
  mkSystem id phase [] [] None (fun _ _ _ _ => Ok []).

(** ** The world *)

Section harness.
Context `{AO : ArrowOps} `{AL : !ArrowLaws} `{FT : FloatText} `{CO : !ConcatOps} `{CL : !ConcatLaws}.
Context (ver_order : gmap Tick (list RecordBatch) -> list (Tick * list RecordBatch)).
Context (group_order : gmap nat (list (nat * nat)) -> list (nat * list (nat * nat))).
Context (name_order : gmap string VersionedTable -> list string).
Context (diff_json : Diff Json -> result string string).
Context (reg_order table_order bus_order : gset string -> list string).

#[local] Instance harness_store : StoreOps Json := tick_store ver_order group_order name_order.
#[local] Instance harness_query : QueryOps Json := tick_query ver_order group_order name_order.
#[local] Existing Instance InMemorySaveOps.

(** The scheduler's query engine is the journal's. *)
Abbreviation Engine := (option QueryEngine).
Abbreviation Sched := (@Scheduler Json harness_store harness_query (InMemorySaveOps Json) Engine).
Abbreviation HJournalT := (@Journal Json harness_store harness_query (InMemorySaveOps Json)).
Definition read_handle (_ : ArrowStore Json) (q : option QueryEngine) : Engine := q.
Definition handle_frozen (q : Engine) : result string bool := Ok (from_option is_schema_frozen false q).

Record TestWorld := mkTestWorld {
  tw_scheduler : Sched; tw_view_model : ViewModel; tw_input_buffer : InputCommandBuffer (V := Json) }.

Definition with_scheduler (w : TestWorld) (s : Sched) : TestWorld :=
  mkTestWorld s (tw_view_model w) (tw_input_buffer w).
Definition tw_arrow_store (w : TestWorld) : ArrowStore Json := j_store (sc_journal (tw_scheduler w)).
Definition tw_query_engine (w : TestWorld) : option QueryEngine := j_query_engine (sc_journal (tw_scheduler w)).

Definition build_mvp : HarnessResult TestWorld :=
  let? actors := map_err HSchema actors_spec in
  let? nodes := map_err HSchema nodes_spec in
  let? (store, _) := map_err HArrowStore (create_table store_new actors AppendOnly) in
  let? (store, _) := map_err HArrowStore (create_table store nodes AppendOnly) in
  let? store := map_err HArrowStore (advance_to_simulation store) in
  let? q := map_err HQuery (register_table_schema (engine_new registry_new) actors) in
  let? q := map_err HQuery (register_table_schema q nodes) in
  let q := freeze_schema_registry q in
  let journal := journal_with_query_engine (QO := harness_query) (journal_new (SO := harness_store) (store : ArrowStore Json)) (q : QueryEngine) in
  let? scheduler := map_err HScheduler
    (scheduler_initialize read_handle handle_frozen reg_order table_order (scheduler_new journal : Sched)) in
  Ok (mkTestWorld scheduler view_model_new buffer_new).

(** The seed is committed through the scheduler, outside of a tick. *)
Definition seed_mvp_data (w : TestWorld) : TestWorld * HarnessResult unit :=
  let s := tw_scheduler w in
  match journal_submit_batch (sc_journal s) seed_batch with
  | (j, Err e) => (with_scheduler w (with_journal s j), Err (HJournal e))
  | (j, Ok _) =>
      match scheduler_atomic_commit diff_json (with_journal s j) with
      | (s, Err e) => (with_scheduler w s, Err (HScheduler e))
      | (s, Ok _) => (with_scheduler w (scheduler_advance_tick s).1, Ok tt)
      end
  end.

Definition transfer_node_owner (w : TestWorld) (node_id from to : RowId) : TestWorld :=
  let s := tw_scheduler w in
  with_scheduler w (scheduler_enqueue_command s
    (mkEnvelope (scheduler_current_tick s) "test_harness" (TransferControl node_id from to))).

Definition world_register_system (w : TestWorld) (system : SimSystem Engine Json) : HarnessResult TestWorld :=
  let? s := map_err HScheduler (scheduler_register_system reg_order table_order (tw_scheduler w) system) in
  Ok (with_scheduler w s).

Definition world_tick (w : TestWorld) : TestWorld * HarnessResult CommitResult :=
  let '(s, r) := scheduler_tick diff_json read_handle reg_order bus_order (tw_scheduler w) in
  (with_scheduler w s, map_err HScheduler r).

(** *** Any use of the world *)

Inductive WorldEvent := WTransfer (node_id from to : RowId) | WTick.

(** Transfers and ticks, as long as the ticks succeed. *)
Fixpoint world_run (w : TestWorld) (evs : list WorldEvent) : option TestWorld :=
  match evs with
  | [] => Some w
  | WTransfer node_id from to :: evs => world_run (transfer_node_owner w node_id from to) evs
  | WTick :: evs => match world_tick w with (w', Ok _) => world_run w' evs | _ => None end
  end.

(** The commands of each tick, and those queued after the last. *)
Fixpoint queued_for (tick : Z) (queue : list (CommandEnvelope Json)) (evs : list WorldEvent)
  : list (list (CommandEnvelope Json)) * list (CommandEnvelope Json) :=
  match evs with
  | [] => ([], queue)
  | WTransfer node_id from to :: evs =>
      queued_for tick (queue ++ [mkEnvelope (mkTick tick) "test_harness" (TransferControl node_id from to)]) evs
  | WTick :: evs => let '(done, rest) := queued_for (tick + 1) [] evs in (queue :: done, rest)
  end.

Fixpoint tick_count (evs : list WorldEvent) : nat :=
  match evs with
  | [] => 0
  | WTransfer _ _ _ :: evs => tick_count evs
  | WTick :: evs => S (tick_count evs)
  end.

(** ** The two actors and the ten nodes *)

Definition actor_fields : list Field := [mkField "id" DInt64 false; mkField "name" DUtf8 false; mkField "color" DUtf8 false].
Definition node_fields : list Field :=
  [mkField "id" DInt64 false; mkField "x" DFloat64 false; mkField "y" DFloat64 false; mkField "owner" DInt64 false].
Definition mvp_layout : gmap string (option string * list Field) :=
  {["actors" := (Some "id", actor_fields); "spatial_nodes" := (Some "id", node_fields)]}.

Definition node_cells (i : Z) : list (option Scalar) :=
  [Some (SInt (i + 100)); Some (SFloat (f64_of_Z (i * 10))); Some (SFloat (f64_of_Z (i * 10))); Some (SInt (i mod 2))].
Definition mvp_actors : gmap Z (list (option Scalar)) :=
  {[0 := [Some (SInt 0); Some (SText "actor_0"); Some (SText "red")];
    1 := [Some (SInt 1); Some (SText "actor_1"); Some (SText "blue")]]}.
Definition mvp_nodes : gmap Z (list (option Scalar)) :=
  list_to_map ((fun i => (Z.of_nat i, node_cells (Z.of_nat i))) <$> seq 0 10).
Definition unseeded_world : gmap string (gmap Z (list (option Scalar))) := {["actors" := ∅; "spatial_nodes" := ∅]}.
Definition mvp_world : gmap string (gmap Z (list (option Scalar))) := {["actors" := mvp_actors; "spatial_nodes" := mvp_nodes]}.
End harness.

Section persistence.
Context `{AO : ArrowOps} `{AL : !ArrowLaws} `{FT : FloatText} `{CO : !ConcatOps} `{CL : !ConcatLaws}.
Context (ver_order : gmap Tick (list RecordBatch) -> list (Tick * list RecordBatch)).
Context (group_order : gmap nat (list (nat * nat)) -> list (nat * list (nat * nat))).
Context (name_order : gmap string VersionedTable -> list string).
Context (Ho : orders_groups group_order) (Hn : forall m, name_order m ≡ₚ (map_to_list m).*1).
Context (diff_json : Diff Json -> result string string).
Context (Hjson : forall d, is_ok (diff_json d) = true).
Context (reg_order table_order bus_order : gset string -> list string).
Context (Hreg : forall X, reg_order X ≡ₚ elements X) (Hbus : forall X, bus_order X ≡ₚ elements X).

Abbreviation kept_store := (harness_store ver_order group_order name_order).
Abbreviation kept_query := (harness_query ver_order group_order name_order).
#[local] Hint Extern 0 (StoreOps Json) => exact kept_store : typeclass_instances.
#[local] Hint Extern 0 (QueryOps Json) => exact kept_query : typeclass_instances.
#[local] Existing Instance InMemorySaveOps.

Abbreviation world := (TestWorld ver_order group_order name_order).
Abbreviation build := (build_mvp ver_order group_order name_order reg_order table_order).
Abbreviation seed := (seed_mvp_data ver_order group_order name_order diff_json).
Abbreviation tick := (world_tick ver_order group_order name_order diff_json reg_order bus_order).
Abbreviation run := (world_run ver_order group_order name_order diff_json reg_order bus_order).
Abbreviation store_in := (store_of ver_order group_order name_order).
Abbreviation engine_in := (engine_of ver_order group_order name_order).
Abbreviation journal_in w := (sc_journal (tw_scheduler ver_order group_order name_order w)).
Abbreviation sched := (tw_scheduler ver_order group_order name_order).
Abbreviation at_zero := (fun _ : string => tick_ZERO).

(** A journal between two commits, over a store of the world [W]. *)
Record resting W (j : @Journal Json kept_store kept_query (InMemorySaveOps Json)) : Prop := {
  re_phase : j_phase j = PhaseOpen;
  re_guard : commit_guard (store_in j) = Ok tt;
  re_save : j_save_journal j = None;
  re_rep : store_rep_home mvp_layout at_zero (store_in j) W;
  re_engine : exists q, engine_in j = Some q /\ qn_pending q = None
              /\ forall name, is_Some (mvp_layout !! name) -> is_Some (sr_tables (qn_registry q) !! name) }.

Lemma seed_world : world_apply_all mvp_layout unseeded_world (batch_diffs seed_batch) = Some mvp_world.
Proof. vm_compute. reflexivity. Qed.

Lemma every_hash ds : exists h, diffs_hash diff_json ds = Ok h.
Proof. eexists. apply hash_fold_ok; [done|]. split; [|done]. apply Forall_forall. intros d _. apply Hjson. Qed.

(** Diffs the world admits are committed, and the journal rests again. *)
Lemma commit_rests W W' j cs ds :
  resting W j -> forallb (at_home at_zero (j_current_tick j)) ds = true ->
  world_apply_all mvp_layout W ds = Some W' -> tick_as_u64 (j_current_tick j) <> u64_max ->
  exists j' r, journal_commit diff_json (with_pending j cs ds) = (j', Ok r)
  /\ commit_succeeded diff_json (with_pending j cs ds) j' r /\ resting W' j'.
Proof.
  intros [Hph Hg Hsv Hrep (q & Hq & Hp & Hall)] Hds HW Hmax. set (j1 := with_pending j cs ds).
  destruct (every_hash ds) as [h Hh].
  destruct (commit_admitted ver_order group_order name_order Ho Hn diff_json mvp_layout at_zero j1 W W' h) as (j' & r & E); try done.
  { intros q' Hq'. change (engine_in j1) with (engine_in j) in Hq'. rewrite Hq in Hq'. by injection Hq' as <-. }
  { exists None. change (j_save_journal j1) with (j_save_journal j). by rewrite Hsv. }
  exists j', r. split; [done|]. pose proof E as [_ Hc]%commit_ok. split; [done|].
  destruct (committed_home ver_order group_order name_order Ho diff_json mvp_layout at_zero j1 j' r W Hg Hrep Hds Hc) as (W1 & HW1 & Hrep').
  change (j_pending_diffs j1) with ds in HW1. rewrite HW in HW1. injection HW1 as <-.
  destruct (commit_engine_after ver_order group_order name_order Ho Hn diff_json j1 j' r q Hc Hq) as (_ & Hq' & _).
  split.
  - apply Hc.
  - exact (commit_guard_kept ver_order group_order name_order Ho diff_json j1 j' r Hg Hc).
  - destruct Hc as (_ & _ & _ & _ & _ & _ & _ & Ha & _). change (j_save_journal j1) with (j_save_journal j) in Ha.
    rewrite Hsv in Ha. symmetry. exact (f_equal fst Ha).
  - done.
  - by eexists.
Qed.

(** *** Building and seeding *)


Definition got {E A} (d : A) (r : result E A) : A := default d (to_option r).
Lemma got_ok {E A} (d : A) (r : result E A) : is_ok r = true -> r = Ok (got d r).
Proof. by destruct r. Qed.
Lemma got_pair {E A B} (d : A * B) (r : result E (A * B)) : is_ok r = true -> r = Ok ((got d r).1, (got d r).2).
Proof. destruct r as [[]|]; done. Qed.

Abbreviation no_store := (store_new, mkTableId 0).
Abbreviation actors := (got (table_new "") actors_spec).
Abbreviation nodes := (got (table_new "") nodes_spec).
Definition actors_store : ArrowStore Json := (got no_store (create_table store_new actors AppendOnly)).1.
Definition tables_store : ArrowStore Json := (got no_store (create_table actors_store nodes AppendOnly)).1.
Definition built_store : ArrowStore Json := got store_new (advance_to_simulation tables_store).
Definition actors_engine : QueryEngine := got (engine_new registry_new) (register_table_schema (engine_new registry_new) actors).
Definition built_engine : QueryEngine :=
  freeze_schema_registry (got (engine_new registry_new) (register_table_schema actors_engine nodes)).

Lemma built_tables : as_tables built_store
  = <["spatial_nodes" := vt_set_spec (vt_new "spatial_nodes" AppendOnly) nodes]>
      (<["actors" := vt_set_spec (vt_new "actors" AppendOnly) actors]> ∅).
Proof. reflexivity. Qed.

Lemma built_types : as_type_registry built_store = default_type_registry.
Proof. reflexivity. Qed.

Lemma built_rep : store_rep_home mvp_layout at_zero built_store unseeded_world.
Proof.
  intros k. rewrite built_tables, built_types. unfold mvp_layout, unseeded_world.
  destruct (decide (k = "actors")) as [->|H1]; [|destruct (decide (k = "spatial_nodes")) as [->|H2]].
  - eexists. split; [reflexivity|]. split; [vm_compute; reflexivity|]. split; [reflexivity|]. exists []. split; [by right|]. apply rep_nil.
  - eexists. split; [reflexivity|]. split; [vm_compute; reflexivity|]. split; [reflexivity|]. exists []. split; [by right|]. apply rep_nil.
  - rewrite !lookup_insert_ne, !lookup_empty by congruence. by rewrite !lookup_singleton_ne by congruence.
Qed.

Definition built_journal : @Journal Json kept_store kept_query (InMemorySaveOps Json) :=
  mkJournal (SO := kept_store) (QO := kept_query)
    tick_ZERO PhaseOpen [] [] [] None built_store (Some built_engine).
Definition built_world : world :=
  mkTestWorld ver_order group_order name_order (mkScheduler ∅ ∅ [] built_journal bus_new 0 0 true) view_model_new buffer_new.

Lemma build_parts : build = let? s := map_err HScheduler (scheduler_initialize (SO := kept_store) (QO := kept_query)
    read_handle handle_frozen reg_order table_order (scheduler_new built_journal)) in Ok (mkTestWorld ver_order group_order name_order s view_model_new buffer_new).
Proof.
  unfold build_mvp.
  rewrite (got_ok (table_new "") actors_spec), (got_ok (table_new "") nodes_spec) by (vm_compute; reflexivity). cbn [map_err].
  rewrite (got_pair no_store (create_table store_new _ _)) by (vm_compute; reflexivity). cbn [map_err].
  change (got no_store (create_table store_new _ AppendOnly)).1 with actors_store.
  rewrite (got_pair no_store (create_table actors_store _ _)) by (vm_compute; reflexivity). cbn [map_err].
  change (got no_store (create_table actors_store _ AppendOnly)).1 with tables_store.
  rewrite (got_ok store_new (advance_to_simulation tables_store)) by (vm_compute; reflexivity). cbn [map_err].
  rewrite (got_ok (engine_new registry_new) (register_table_schema (engine_new registry_new) _)) by (vm_compute; reflexivity). cbn [map_err].
  change (got (engine_new registry_new) (register_table_schema (engine_new registry_new) _)) with actors_engine.
  rewrite (got_ok (engine_new registry_new) (register_table_schema actors_engine _)) by (vm_compute; reflexivity).
  reflexivity.
Qed.

Lemma reg_order_empty : reg_order ∅ = [].
Proof. apply Permutation_nil_r. by rewrite Hreg, elements_empty. Qed.

Lemma built_frozen : handle_frozen (read_handle built_store (Some built_engine)) = Ok true.
Proof. assert (H : is_schema_frozen built_engine = true) by (vm_compute; reflexivity). exact (f_equal Ok H). Qed.

Lemma build_built : build = Ok built_world.
Proof.
  rewrite build_parts. unfold scheduler_initialize, reg_values, scheduler_new.
  cbn [sc_initialized sc_registrations sc_systems sc_pending_commands sc_journal sc_refresh_bus sc_current_tick sc_generation].
  cbn [built_journal j_store j_query_engine]. rewrite built_frozen, dom_empty_L, reg_order_empty.
  cbn [map_err negb check_tables check_systems omap list_omap check_conflicts]. unfold built_world. reflexivity.
Qed.

(** A scheduler without systems over a resting journal, the queued commands of the current tick. *)
Record at_rest W (w : world) : Prop := {
  ar_journal : resting W (journal_in w);
  ar_ready : ready (sched w);
  ar_fresh : fresh (sched w);
  ar_systems : sc_systems (sched w) = ∅;
  ar_registrations : sc_registrations (sched w) = ∅;
  ar_bus : sc_refresh_bus (sched w) = bus_new }.

(** The minimal world builds: no row, no history, nothing queued, tick 0. *)
Lemma built_rests : at_rest unseeded_world built_world.
Proof.
  split; try reflexivity.
  - split; try reflexivity; [exact built_rep|]. eexists. split; [reflexivity|]. split; [reflexivity|].
    intros name [meta Hm]. unfold mvp_layout in Hm.
    apply lookup_insert_Some in Hm as [[<- _]|[_ [<- _]%lookup_singleton_Some]]; by eexists.
  - repeat split.
  - by intros c ?%elem_of_nil.
Qed.

Abbreviation queue_in w := (sc_pending_commands (sched w)).
Abbreviation tick_in w := (sc_current_tick (sched w)).

Lemma tick_next_small n : 0 <= n < u64_max - 1 -> tick_next (mkTick n) = mkTick (n + 1).
Proof.
  intros Hn'. pose proof (tick_next_spec (mkTick n)) as H. destruct (tick_next (mkTick n)) as [m]. cbn in H. f_equal.
  unfold_width. lia.
Qed.

(** After a commit the scheduler is ready for the next tick, with nothing queued. *)
Lemma rests_after W W' (w w' : world) j' :
  at_rest W w -> tick_in w' = tick_in w + 1 -> 0 <= tick_in w < u64_max - 1 -> resting W' j' -> journal_in w' = j' ->
  j_pending_commands j' = [] -> j_pending_diffs j' = [] -> j_current_tick j' = tick_next (j_current_tick (journal_in w)) ->
  sc_initialized (sched w') = true -> queue_in w' = [] -> sc_systems (sched w') = ∅ -> sc_registrations (sched w') = ∅ ->
  sc_refresh_bus (sched w') = bus_new -> at_rest W' w'.
Proof.
  intros [_ (_ & _ & _ & _ & Ht) _ _ _ _] Hct Hb Hj <- Hc Hd Htn Hi Hq Hs Hr Hbs. split; try done.
  - split_and!; try done; [apply Hj|]. etrans; [exact Htn|]. etrans; [exact (f_equal tick_next Ht)|]. unfold scheduler_current_tick. rewrite Hct.
    by apply tick_next_small.
  - intros c. rewrite Hq. by intros ?%elem_of_nil.
Qed.

(** The seed commits: the two actors and the ten nodes. *)
Lemma seed_rests : exists w, seed built_world = (w, Ok tt) /\ at_rest mvp_world w
  /\ tick_in w = 1 /\ queue_in w = [] /\ rec_commands <$> j_history (journal_in w) = [[]].
Proof.
  destruct built_rests as [Hj Hr Hf Hsys Hreg' Hbs].
  destruct (commit_rests unseeded_world mvp_world built_journal [] (batch_diffs seed_batch) Hj) as (j' & r & E & Hc & Hj');
    [reflexivity|exact seed_world|done|].
  unfold seed_mvp_data. cbn [tw_scheduler built_world sc_journal]. unfold journal_submit_batch.
  rewrite submit_diffs_open by done. cbn [j_pending_commands j_pending_diffs built_journal app].
  unfold scheduler_atomic_commit. cbn [sc_journal with_journal]. rewrite E. eexists. split; [reflexivity|].
  destruct Hc as (_ & _ & Htn & _ & Hpc & Hpd & Hh & _).
  split; [|split; [done|split; [done|]]].
  - apply (rests_after unseeded_world mvp_world built_world _ j' built_rests); try done; exact Hj'.
  - refine (eq_trans (f_equal (fmap rec_commands) Hh) _). rewrite trim_history_small; [done|]. apply le_n_S, Nat.le_0_l.
Qed.

(** A tick of a world without systems succeeds, records the queued commands and changes no row. *)
Lemma tick_rests W (w : world) : at_rest W w -> 0 <= tick_in w < u64_max - 1 ->
  exists w' r h, tick w = (w', Ok r) /\ at_rest W w' /\ tick_in w' = tick_in w + 1 /\ queue_in w' = []
  /\ j_history (journal_in w') = trim_history (j_history (journal_in w) ++ [mkRecord (mkTick (tick_in w)) [] (queue_in w) h]).
Proof.
  intros Hw Hb. pose proof Hw as [Hj Hr Hf Hsys Hregs Hbs].
  destruct (tick_unfold (SO := kept_store) (QO := kept_query) diff_json read_handle reg_order bus_order (sched w) Hr Hf) as [ds H].
  assert (Hsay : tick_diffs (SO := kept_store) (QO := kept_query) read_handle reg_order (sched w) = Ok []).
  { unfold tick_diffs, run_order, systems_by_phase. rewrite Hregs, dom_empty_L, reg_order_empty. done. }
  rewrite Hsay in H. destruct H as [-> H]. cbv zeta in H.
  pose proof Hr as (_ & _ & _ & _ & Ht).
  destruct (commit_rests W W (journal_in w) (queue_in w) [] Hj) as (j' & r & E & Hc & Hj'); [done|done| |].
  { rewrite Ht. cbn. lia. }
  rewrite E, Hbs in H. unfold bus_broadcast in H. cbn [bus_consumers bus_new] in H.
  assert (Hno : omap (fun n => pair n <$> (∅ : gmap string RefreshCallback) !! n) (bus_order (dom (∅ : gmap string RefreshCallback))) = []).
  { rewrite dom_empty_L. assert (Hbo : bus_order ∅ = []) by (apply Permutation_nil_r; by rewrite Hbus, elements_empty). by rewrite Hbo. }
  rewrite Hno in H. cbn [broadcast_to] in H.
  exists (with_scheduler ver_order group_order name_order w (stepped (sched w) j')), r, (cr_state_hash r).
  pose proof Hc as (_ & _ & Htn & _ & Hpc & Hpd & Hh & _).
  assert (Hct : wrap64 (tick_in w + 1) = tick_in w + 1) by (apply wrap64_small; unfold_width; lia).
  split; [unfold world_tick; by rewrite H|]. split; [|split; [exact Hct|split; [done|]]].
  - apply (rests_after W W w _ j' Hw); try done; by destruct Hr.
  - refine (eq_trans Hh _). unfold commit_record. cbn. by rewrite Ht.
Qed.

(** The transfers queue commands and nothing else; the ticks record them. *)
Lemma run_rests W evs : forall w : world, at_rest W w -> 0 <= tick_in w -> tick_in w + Z.of_nat (tick_count evs) < u64_max ->
  exists w', run w evs = Some w' /\ at_rest W w' /\ tick_in w' = tick_in w + Z.of_nat (tick_count evs)
  /\ queue_in w' = (queued_for (tick_in w) (queue_in w) evs).2
  /\ ((length (j_history (journal_in w)) + tick_count evs <= MAX_COMMIT_HISTORY)%nat ->
      rec_commands <$> j_history (journal_in w')
      = (rec_commands <$> j_history (journal_in w)) ++ (queued_for (tick_in w) (queue_in w) evs).1).
Proof.
  induction evs as [|[node_id from to|] evs IH]; intros w Hw H0 Hb; cbn [world_run tick_count queued_for] in *.
  - exists w. split_and!; [done|done|lia|done|]. intros _. by rewrite app_nil_r.
  - apply (IH (transfer_node_owner ver_order group_order name_order w node_id from to)); [|done|done].
    destruct Hw as [Hj Hr Hf Hsys Hregs Hbs]. split; try done.
    intros c [Hc|[->|Hc%elem_of_nil]%elem_of_cons]%elem_of_app; [by apply Hf|done|done].
  - destruct (tick_rests W w Hw) as (w1 & r & h & E & Hw1 & Ht1 & Hq1 & Hh1); [lia|]. rewrite E.
    destruct (IH w1 Hw1) as (w' & Hrun & Hw' & Ht' & Hq' & Hh'); [lia|lia|].
    rewrite Ht1, Hq1 in *. destruct (queued_for (tick_in w + 1) [] evs) as [done rest]. cbn [fst snd] in *.
    exists w'. split_and!; [exact Hrun|exact Hw'|lia|exact Hq'|]. intros Hlen.
    rewrite Hh1, trim_history_small in Hh' by (rewrite length_app; cbn [length]; lia).
    rewrite Hh', fmap_app, <- app_assoc by (rewrite length_app; cbn [length]; lia). done.
Qed.

(** C4: The whole stack on the minimal world: the world of the integration tests builds, its seed
    commits, and through any transfers and ticks (no more than a [u64] counts) every tick succeeds.
    The store then holds exactly the two actors and the ten nodes of the seed, whatever was
    transferred; the tick is one more than the ticks that passed; each record of the history has the
    transfers queued since the tick before; and no system can be registered any more. *)
Theorem seeded_world_persists (evs : list WorldEvent) :
  1 + Z.of_nat (tick_count evs) < u64_max ->
  exists w0 w1 w', build = Ok w0 /\ seed w0 = (w1, Ok tt) /\ run w1 evs = Some w'
  /\ store_rep_home mvp_layout at_zero (tw_arrow_store ver_order group_order name_order w') mvp_world
  /\ tick_in w' = 1 + Z.of_nat (tick_count evs) /\ queue_in w' = (queued_for 1 [] evs).2
  /\ ((tick_count evs < MAX_COMMIT_HISTORY)%nat -> rec_commands <$> j_history (journal_in w') = [] :: (queued_for 1 [] evs).1)
  /\ forall system, world_register_system ver_order group_order name_order reg_order table_order w' system
                    = Err (HScheduler SInitialized).
Proof.
  intros Hb. destruct seed_rests as (w1 & Hs & Hw1 & Ht1 & Hq1 & Hh1).
  destruct (run_rests mvp_world evs w1 Hw1) as (w' & Hrun & Hw' & Ht' & Hq' & Hh'); [by rewrite Ht1|by rewrite Ht1|].
  rewrite Ht1, Hq1 in *. exists built_world, w1, w'. split_and!; [exact build_built|exact Hs|exact Hrun|apply Hw'|exact Ht'|exact Hq'| |].
  - intros Hlen. rewrite Hh', Hh1; [done|]. apply (f_equal length) in Hh1. rewrite length_fmap in Hh1. rewrite Hh1. cbn [length]. lia.
  - intros system. unfold world_register_system, scheduler_register_system. destruct Hw' as [_ (Hi & _) _ _ _ _]. by rewrite Hi.
Qed.
End persistence.
