(* ===== verification/HarnessSamples.v ===== *)
(** * HarnessSamples: a transfer, two ticks, another transfer

    The minimal world over vectors ([ArrowVec.v]), with the orders of [StoreSamples.v]. *)

From Stdlib Require Import Ascii String.
From stdpp Require Import base gmap strings list fin_maps sorting.
From Stdlib Require Import ZArith Lia.
From S2P Require Import Prelude RustStr CoreTypes SchemaTables Journal Systems Scheduler Arrow ArrowVec ArrowBatch ArrowStore StoreFacts StoreRows.
From S2P Require Import QueryEngine StoreJournal StoreSamples ReadSamples Harness.

Definition two_transfers : list WorldEvent :=
  [WTransfer (mkRowId 5) (mkRowId 1) (mkRowId 0); WTick; WTick; WTransfer (mkRowId 3) (mkRowId 1) (mkRowId 0)].

Abbreviation mvp_build := (build_mvp map_orders map_orders table_keys elements elements).
Abbreviation mvp_seed := (seed_mvp_data map_orders map_orders table_keys diff_text).
Abbreviation mvp_run := (world_run map_orders map_orders table_keys diff_text elements elements).
Abbreviation mvp_sched := (tw_scheduler map_orders map_orders table_keys).

Lemma seeded_world_persists_witness :
  exists w0 w1 w', mvp_build = Ok w0 /\ mvp_seed w0 = (w1, Ok tt) /\ mvp_run w1 two_transfers = Some w'
  /\ store_rep_home mvp_layout (fun _ => tick_ZERO) (tw_arrow_store map_orders map_orders table_keys w') mvp_world
  /\ sc_current_tick (mvp_sched w') = 3
  /\ sc_pending_commands (mvp_sched w') = [mkEnvelope (mkTick 3) "test_harness" (TransferControl (mkRowId 3) (mkRowId 1) (mkRowId 0))]
  /\ rec_commands <$> j_history (sc_journal (mvp_sched w'))
     = [[]; [mkEnvelope (mkTick 1) "test_harness" (TransferControl (mkRowId 5) (mkRowId 1) (mkRowId 0))]; []].
Proof.
  destruct (seeded_world_persists map_orders map_orders table_keys map_orders_groups table_keys_order diff_text (fun _ => eq_refl)
    elements elements elements (fun X => Permutation_refl _) (fun X => Permutation_refl _) two_transfers)
    as (w0 & w1 & w' & Hb & Hs & Hr & Hw & Ht & Hq & Hh & _); [reflexivity|].
  exists w0, w1, w'. split; [exact Hb|]. split; [exact Hs|]. split; [exact Hr|]. split; [exact Hw|]. split; [exact Ht|].
  split; [exact Hq|]. apply Hh. unfold MAX_COMMIT_HISTORY. apply Nat.ltb_lt. vm_compute. reflexivity.
Defined.
